(* ===== verification/_CoqProject ===== *)
-Q . S2P
Prelude.v
PyStr.v
Json.v
Errors.v
Coroutine.v
Datetime.v
Calendar.v
Job.v
Retry.v
Redis.v
RedisModel.v
Transport.v
SqliteStore.v
Metrics.v
World.v
Clock.v
Scenario.v
Delivery.v
Listing.v
Enqueue.v
Idempotency.v
Execute.v
Admission.v
Recover.v
Evolution.v
Shutdown.v
Runner.v
WorkerProgress.v
Fairness.v
Effects.v
EntryPoint.v
System.v
Guarantees.v
Overshoot.v
Integrity.v
Liveness.v
RateLimiter.v
Api.v
Breaker.v
Circuit.v
Url.v
Routes.v
Cli.v
Server.v
Requests.v
Embedding.v
Recovery.v
Traffic.v
Limits.v
EndToEnd.v
Conformance.v
