(* ===== verification/Prelude.v ===== *)
(** * RelayQ: a verification development

    RelayQ is a job queue on Redis Streams with a SQLite outbox: producers
    enqueue jobs (over HTTP or directly), workers read them through a consumer
    group, run a handler, and acknowledge, leave pending, or dead-letter them.
    This library models the Python program under [src/] and proves what it does,
    the places where it does not do what it means to included.

    ** How the program's parts map to files

    The standard library, as far as the source uses it: [PyStr] (str, bytes,
    UTF-8, int and float rendering), [Json] (json.dumps and json.loads, with
    their round trip), [Datetime] (isoformat and fromisoformat), [Calendar]
    (datetime + timedelta), [Url] (quote and urlsplit).

    - [Errors]: the exceptions and the [except] clauses (domain/errors.py);
    - [Coroutine]: bodies with suspension points, how they run and are cancelled;
    - [Job]: the job record and its dict form (domain/job.py);
    - [Retry]: the backoff policy (domain/retry.py);
    - [Redis]: the interface to the stream commands of the server (third-party
      code), [RedisSpec] its documented behaviour, [RedisModel] an executable
      server that satisfies it, on which the witnesses run;
    - [Transport]: every method of infrastructure/redis_stream.py;
    - [SqliteStore]: infrastructure/sqlite_store.py over a database file with its write
      lock and the deferred transactions the sqlite3 module opens by itself;
    - [Metrics]: telemetry/metrics.py as a log of calls;
    - [Clock]: infrastructure/clock.py, the system's clocks and FakeClock;
    - [World]: the state of a process, with the part each component works on;
      [Scenario]: concrete worlds for the witnesses;
    - [Delivery]: the contract of the transport; [Listing]: its queue listing over
      SCAN, whose documented behaviour is [ScanSpec];
    - [Enqueue], [Execute], [Recover]: application/enqueue.py, execute.py and
      recover.py; [Admission], [Shutdown], [Runner]: worker/admission.py,
      shutdown.py and runner.py; [WorkerProgress]: why a worker moves and stops;
      [Fairness]: why a worker with a fair event loop runs its batch;
    - [Idempotency]: enqueues with keys that race over one database file;
    - [Evolution]: the abstract FIFO queue; [Effects]: what each command of the
      program does to it; [System]: any number of producers, workers and recovery
      loops interleaved on one server; [Guarantees]: what follows for every run;
      [Overshoot]: the depth bound on the queues is reached; [Integrity]: what workers
      run is what was enqueued; [Liveness]: every job is run in the end;
    - [EntryPoint]: run_worker.py, the worker as it is deployed;
    - [RateLimiter], [Breaker], [Api]: the token bucket, the circuit breaker, the
      request model and the endpoints of api/main.py; [Circuit]: calls of the breaker
      that overlap; [Routes]: the endpoints' decorators; [Server]: the middlewares and
      endpoints together, one request at a time;
    - [Requests]: the same endpoints and middlewares as coroutines; [Traffic]: API
      processes with any number of requests in flight, next to the system; [Embedding]:
      when a body's steps are steps of the system; [Recovery]: the recovery loop of
      recover.py as a coroutine with its [_running] flag, next to the system;
      [Limits]: the rate limit under traffic;
    - [Cli]: cli.py; [EndToEnd]: the command line against the server;
    - [Conformance]: the tests under src/tests, evaluated on the definitions.

    ** Conventions

    A computation is a state monad with exceptions ([ST], at the end of which the
    state reached is kept when it raises, as in Python); [M S A] fixes the
    exception type.  [zoom] runs a computation on a part of the state.  Third-party
    code is a type class of operations ([Redis], [Scripting], [KeyValue], [Http],
    [Framework]) with a class of laws where a theorem needs them; each has a
    concrete instance, so every theorem with hypotheses has a witness that meets
    them.  The laws let a command that raises be applied or not, so the theorems
    cover lost replies and cancellations.  Dynamically typed fields are JSON values.

    What an event loop interleaves is a coroutine ([execute_co], [enqueue_co],
    [process_co], [serve_co], [recover_loop_co] and the breaker's methods): a slice of
    code up to the next [await], then the awaited command, which takes effect at any
    later time, then the next slice.  Where a body is also written in sequence, lemmas
    ([execute_co_run], [enqueue_co_run], [serve_alone], [recover_loop_alone],
    [op_co_run]) check that the two agree when nothing comes in between.  The worker is
    a step relation over its loop and its tasks ([Runner.loop_step],
    [Runner.task_step]): the loop's states are its suspension points, the awaited
    admission check and the read each one of its own, and the test of the shutdown flag
    is made before the first of them only; a cancelled task gets a CancelledError at its
    suspension point, and the command it waited for may still take effect
    ([rs_orphans]).  An awaited job handler is one command of its own.  A worker's
    recovery task makes its rounds in one step each ([Runner.recovery_step]): on its
    one queue a round is one command, as [Recovery.worker_recovery] shows of the loop.
    Liveness is stated on infinite runs, functions of the step number, under fairness
    hypotheses ([Fairness.fair], [Liveness.fair_system]).

    ** What the theorems show

    - the system ([Guarantees]): every interleaving of producers, workers that start
      and crash, recovery and dead-letter administration is a run of a FIFO queue
      on each stream, as long as at most 1001 enqueues are in flight (the slack of
      the MAXLEN option); jobs are handed out in the order of arrival; every entry is
      executed at most once, ever (no retry is redelivered); a delivered entry
      stays pending until the step in which its handler returns or it is
      dead-lettered; a queue that was full once stays full; with N enqueues in flight
      the depth bound is exceeded by at most N - 1, and on a server that answers by
      that much ([Overshoot]); what a worker runs is, field by field, a job that an
      enqueue was called with for its queue ([Integrity]); [n] answered polls of [b]
      entries deliver the first [n * b] of a queue, and in a fair system (where handlers
      finish) every job a poll hands to a worker is run to its end, unless that worker
      is interrupted ([Liveness]);
    - recovery ([Recovery]): the loop, interleaved in any way, only claims pending
      entries of its queues; [stop()] ends it within its round, a cancellation at once,
      and a [stop()] before its first turn is lost;
    - the API under load ([Traffic]): whatever requests overlap, are abandoned by
      their client or end with their process, the server's streams go through a run
      of the system, so all of the above holds for them, with every request counted
      as an enqueue in flight; and the requests that all processes have answered
      number at most 150 plus 100 per second by which the readings of their clocks
      climbed: one bucket for all of them, with fixed numbers, where a comment says
      "per instance" and ENV.md documents two variables ([Limits]);
    - execution: what [execute] does on success, failure and exhaustion, that no
      failed job is lost, and that it raises cancellations only;
    - the worker: bounded concurrency without slot leaks, after a shutdown request
      no intake but the batch at hand or, when the loop was past the flag's test, one
      more, survival of every exception, bounded draining, no stuck state, at most
      [steps_left] steps to its end after a shutdown request; the deployed worker never shuts down
      gracefully, reclaims or dead-letters;
    - enqueueing: the outbox row is committed before the stream changes, wherever the
      call is cut off; the depth bound, the idempotency check; a failing XADD spends the
      key for every enqueue to come, and of all racing enqueues with one key at most one
      sends its XADD ([Idempotency]);
    - storage and wire formats: uniqueness invariant, read back after insertion,
      the transaction [update_status] leaves open, round trips of jobs and dead
      letters, delivery order, the batch one poisoned entry loses, the complete and
      sorted listing of the queues;
    - retry: bounds of each delay and of their sum; clocks: the two readings of
      FakeClock stay together;
    - the API: validation, endpoints that cannot succeed, the rate limit, the
      circuit breaker against its specification (and that its overlapping calls leave
      it in a state the specification knows), which requests are logged and marked
      with their id;
    - the command line: requests go to the configured host and, of a base URL without
      question mark and hash, to the endpoint and the parameters the arguments name or
      (when an argument is empty or holds a slash) to none; one request per enqueue; what [relayq enqueue]
      reports as done is on the queue.

    ** Bounds and fuel

    [str_N] uses the binary size of its argument; [Json.loads] twice the length of
    the text, enough for every rendered value ([loads_dumps]); [year_of] the 9999
    years a datetime has.  The SCAN loop of [transport_list_queues] takes its fuel
    as an argument, [None] when it is used up; [list_queues_complete] shows that
    some fuel is enough whatever the server's state.  All other recursion is
    structural.  The [while] loop of [recover_loop_co] is unfolded a given number of
    rounds; its theorems hold for every number.  Integers of the program are
    unbounded.  Floats are rationals: rounding is not modelled (but [timedelta]'s to
    microseconds is), overflow of the backoff's conversion is; decimal literals are
    kept as text in JSON.

    ** Not modelled

    FastAPI, pydantic and uvicorn beyond the interface [Framework] and the routing
    of [Routes] (their documentation routes, content-length), the response models
    no endpoint uses, log messages other than the request log, the texts of the
    program's own decoding errors, arithmetic on float counters, logging and terminal
    encodings, [redis.from_url] and connection closing, the contents of bracketed or
    non-ASCII authorities in URLs, several database files, several stream prefixes on
    one server.  What a request reads from [time.time()] and [uuid4()] is an argument of
    its arrival, of any value; a request whose client is gone takes no further turn,
    but the command it sent may still take effect.

    ** What is left

    The development covers every function of the program but what the section above
    lists.  Several stream prefixes or database files would be independent copies of
    what is here; a breaker whose commands are lost in the middle of a trip is covered
    by one theorem only ([Breaker.half_trip_stuck]); the order in which asyncio wakes
    its tasks is any order here, and a fair one where liveness needs it. *)

From stdpp Require Export base list option decidable gmap.
From Stdlib Require Export ZArith NArith Lia.

(** ** Outcomes and effectful computations

    Python code either returns or raises; [ST E S A] is a computation over a
    state [S] that keeps the state reached when it raises, as Python does. *)

Inductive result (E A : Type) : Type :=
| Ok (a : A)
| Raise (e : E).
Arguments Ok {E A} a.
Arguments Raise {E A} e.

Definition ST (E S A : Type) : Type := S → result E A * S.

Declare Scope py_scope.
Delimit Scope py_scope with py.

Section Monad.
Context {E : Type}.

#[global] Instance result_mret : MRet (result E) := fun A a => Ok a.
#[global] Instance result_mbind : MBind (result E) := fun A B k m =>
  match m with Ok a => k a | Raise e => Raise e end.
#[global] Instance result_fmap : FMap (result E) := fun A B f m =>
  match m with Ok a => Ok (f a) | Raise e => Raise e end.

Context {S : Type}.

#[global] Instance st_mret : MRet (ST E S) := fun A a s => (Ok a, s).
#[global] Instance st_mbind : MBind (ST E S) := fun A B k m s =>
  match m s with
  | (Ok a, s') => k a s'
  | (Raise e, s') => (Raise e, s')
  end.

(** [raise e] *)
Definition throw {A} (e : E) : ST E S A := fun s => (Raise e, s).
(** a pure expression that may raise *)
Definition lift {A} (r : result E A) : ST E S A := fun s => (r, s).
Definition get : ST E S S := fun s => (Ok s, s).
Definition modify (f : S → S) : ST E S unit := fun s => (Ok tt, f s).

(** [try: m  except <the exceptions h accepts> as e: h e].  A [None] of the
    handler is an exception no clause matches: it propagates. *)
Definition try_except {A} (m : ST E S A) (h : E → option (ST E S A)) : ST E S A :=
  fun s => match m s with
           | (Ok a, s') => (Ok a, s')
           | (Raise e, s') =>
               match h e with
               | Some k => k s'
               | None => (Raise e, s')
               end
           end.

(** [try: m  finally: f]: an exception of [f] replaces the outcome of [m]. *)
Definition try_finally {A} (m : ST E S A) (f : ST E S unit) : ST E S A :=
  fun s => let '(r, s') := m s in
           match f s' with
           | (Ok _, s'') => (r, s'')
           | (Raise e, s'') => (Raise e, s'')
           end.
End Monad.

(** Running a computation on one part of a larger state. *)
Definition zoom {E S T A : Type} (proj : T → S) (upd : S → T → T) (m : ST E S A) : ST E T A :=
  fun t => let '(r, s') := m (proj t) in (r, upd s' t).

(** A loop over a list, [for x in l: body x]. *)
Fixpoint for_each {E S A : Type} (l : list A) (body : A → ST E S unit) : ST E S unit :=
  match l with
  | [] => mret tt
  | x :: l' => body x ≫= fun _ => for_each l' body
  end.

Definition is_ok {E A} (r : result E A) : bool :=
  match r with Ok _ => true | Raise _ => false end.

(** ** Generic lemmas *)

Lemma st_bind_ok {E S A B} (m : ST E S A) (k : A → ST E S B) s a s' :
  m s = (Ok a, s') → (m ≫= k) s = k a s'.
Proof. intros H. unfold mbind, st_mbind. by rewrite H. Qed.

Lemma st_bind_raise {E S A B} (m : ST E S A) (k : A → ST E S B) s e s' :
  m s = (Raise e, s') → (m ≫= k) s = (Raise e, s').
Proof. intros H. unfold mbind, st_mbind. by rewrite H. Qed.

Lemma st_bind_inv {E S A B} (m : ST E S A) (k : A → ST E S B) s r s' :
  (m ≫= k) s = (r, s') →
  (∃ a s1, m s = (Ok a, s1) ∧ k a s1 = (r, s')) ∨
  (∃ e, m s = (Raise e, s') ∧ r = Raise e).
Proof.
  unfold mbind, st_mbind. destruct (m s) as [[a|e] s1]; [by eauto|].
  intros [= <- <-]. by eauto.
Qed.

Lemma zoom_run {E S T A} (proj : T → S) (upd : S → T → T) (m : ST E S A) t r s' :
  m (proj t) = (r, s') → zoom proj upd m t = (r, upd s' t).
Proof. intros H. unfold zoom. by rewrite H. Qed.

(** A relation every state change of a computation satisfies. *)
Definition preserves {E S A} (R : S → S → Prop) (m : ST E S A) : Prop :=
  ∀ s, R s (m s).2.

Section Preserves.
Context {E S : Type} (R : S → S → Prop) `{!Reflexive R, !Transitive R}.

Lemma preserves_mret {A} (a : A) : preserves (E:=E) R (mret a).
Proof. by intros s. Qed.

Lemma preserves_lift {A} (x : result E A) : preserves R (lift x).
Proof. by intros s. Qed.

Lemma preserves_throw {A} (e : E) : preserves (A:=A) R (throw e).
Proof. by intros s. Qed.

Lemma preserves_bind {A B} (m : ST E S A) (k : A → ST E S B) :
  preserves R m → (∀ a, preserves R (k a)) → preserves R (m ≫= k).
Proof.
  intros Hm Hk s. unfold mbind, st_mbind. specialize (Hm s).
  destruct (m s) as [[a|e] s1]; simpl in *; [|done].
  etrans; [done|apply Hk].
Qed.

Lemma preserves_try {A} (m : ST E S A) h :
  preserves R m → (∀ e k, h e = Some k → preserves R k) → preserves R (try_except m h).
Proof.
  intros Hm Hh s. unfold try_except. specialize (Hm s).
  destruct (m s) as [[a|e] s1]; simpl in *; [done|].
  destruct (h e) as [k|] eqn:He; [|done]. etrans; [done|]. by eapply Hh.
Qed.

Lemma preserves_finally {A} (m : ST E S A) f :
  preserves R m → preserves R f → preserves R (try_finally m f).
Proof.
  intros Hm Hf s. unfold try_finally. specialize (Hm s).
  destruct (m s) as [r s1]; simpl in *. specialize (Hf s1).
  destruct (f s1) as [[|] s2]; simpl in *; by etrans.
Qed.

Lemma preserves_for_each {A} (l : list A) (body : A → ST E S unit) :
  (∀ x, preserves R (body x)) → preserves R (for_each l body).
Proof.
  intros Hb. induction l as [|x l IH]; simpl; [apply preserves_mret|].
  apply preserves_bind; [apply Hb|by intros _].
Qed.
End Preserves.

Create HintDb relayq.
#[export] Hint Resolve preserves_mret preserves_lift preserves_throw preserves_bind
  preserves_try preserves_finally preserves_for_each : relayq.

(** ** Tactics *)

(** Case analysis on the innermost undecided [match]/[if] of the goal. *)
Ltac case_run :=
  match goal with
  | |- context [match ?x with _ => _ end] =>
      lazymatch x with
      | context [match _ with _ => _ end] => fail
      | _ => let H := fresh "Hc" in destruct x eqn:H
      end
  end.

(** Same, in a hypothesis. *)
Ltac case_run_in H :=
  match type of H with
  | context [match ?x with _ => _ end] =>
      lazymatch x with
      | context [match _ with _ => _ end] => fail
      | _ => let Hc := fresh "Hc" in destruct x eqn:Hc
      end
  end.

(** Split a successful or failing bind hypothesis. *)
Ltac bind_inv H :=
  apply st_bind_inv in H as [(? & ? & ? & H)|(? & ? & ?)].

(** Replace [n / k] and [n mod k] by fresh numbers with their defining equation. *)
Ltac divmod n k :=
  let q := fresh "q" in let r := fresh "r" in
  pose proof (N.Div0.div_mod n k); pose proof (N.mod_lt n k ltac:(done));
  set (q := (n / k)%N) in *; set (r := (n mod k)%N) in *; clearbody q r.
