(* ===== verification/PyStr.v ===== *)
(** * Python strings, integers and bytes

    A Python [str] is the list of its code points; [u "..."] is an ASCII
    literal.  The file also holds the parts of the standard library's string
    handling the source relies on: decimal rendering and parsing of [int],
    [str.split], [str.encode]/[bytes.decode] for UTF-8, [sorted] on a set of
    [str], and the rendering of a (finite decimal) [float]. *)

From Stdlib Require Import Ascii String QArith.
From S2P Require Import Prelude.
Open Scope list_scope.

Abbreviation pystr := (list N).

(** ASCII literals. *)
Fixpoint u (s : string) : pystr :=
  match s with
  | EmptyString => []
  | String a s' => N_of_ascii a :: u s'
  end.

Definition cp (s : string) : N :=
  match s with String a _ => N_of_ascii a | EmptyString => 0%N end.

(** ** [int] rendering *)

Fixpoint str_N_fuel (f : nat) (n : N) : pystr :=
  match f with
  | O => []
  | S f' => if (n <? 10)%N then [(48 + n)%N]
            else str_N_fuel f' (n / 10)%N ++ [(48 + n mod 10)%N]
  end.

(** Decimal digits of [n]; the binary size of [n] is enough fuel. *)
Definition str_N (n : N) : pystr := str_N_fuel (S (N.size_nat n)) n.

(** [str(z)] for a Python [int]. *)
Definition str_int (z : Z) : pystr :=
  match z with
  | Zneg p => 45%N :: str_N (Npos p)
  | _ => str_N (Z.to_N z)
  end.

Definition is_digit (c : N) : bool := (48 <=? c)%N && (c <=? 57)%N.

(** The value of a run of ASCII digits, most significant first. *)
Definition digits_val (l : pystr) : N :=
  fold_left (fun acc c => (10 * acc + (c - 48))%N) l 0%N.

(** The longest prefix of digits and the rest. *)
Fixpoint span_digits (l : pystr) : pystr * pystr :=
  match l with
  | c :: l' => if is_digit c then let '(d, r) := span_digits l' in (c :: d, r) else ([], l)
  | [] => ([], [])
  end.

(** Zero-padded rendering with exactly [k] digits ([f"{n:0kd}"] for [n < 10^k]). *)
Fixpoint str_pad (k : nat) (n : N) : pystr :=
  match k with
  | O => []
  | S k' => str_pad k' (n / 10) ++ [(48 + n mod 10)%N]
  end.

(** ** Splitting and prefixes *)

(** [s.split(sep)] for a one-character separator. *)
Fixpoint py_split (sep : N) (s : pystr) : list pystr :=
  match s with
  | [] => [[]]
  | c :: s' =>
      if N.eqb c sep then [] :: py_split sep s'
      else match py_split sep s' with
           | w :: ws => (c :: w) :: ws
           | [] => [[c]]
           end
  end.

(** [sep.join(parts)]. *)
Fixpoint py_join (sep : pystr) (l : list pystr) : pystr :=
  match l with
  | [] => []
  | [w] => w
  | w :: ws => w ++ sep ++ py_join sep ws
  end.

(** [p in s], by substring search. *)
Fixpoint starts_with (p s : pystr) : bool :=
  match p, s with
  | [], _ => true
  | a :: p', b :: s' => N.eqb a b && starts_with p' s'
  | _ :: _, [] => false
  end.

Fixpoint contains (p s : pystr) : bool :=
  starts_with p s || match s with [] => false | _ :: s' => contains p s' end.

(** ** UTF-8 *)

Definition utf8_char (c : N) : option (list N) :=
  if (c <? 128)%N then Some [c]
  else if (c <? 2048)%N then Some [192 + c / 64; 128 + c mod 64]%N
  else if (55296 <=? c)%N && (c <? 57344)%N then None
  else if (c <? 65536)%N then
    Some [224 + c / 4096; 128 + (c / 64) mod 64; 128 + c mod 64]%N
  else if (c <? 1114112)%N then
    Some [240 + c / 262144; 128 + (c / 4096) mod 64; 128 + (c / 64) mod 64; 128 + c mod 64]%N
  else None.

(** [s.encode("utf-8")]; [None] is a UnicodeEncodeError (a lone surrogate). *)
Fixpoint utf8_encode (s : pystr) : option (list N) :=
  match s with
  | [] => Some []
  | c :: s' => b ← utf8_char c; bs ← utf8_encode s'; Some (b ++ bs)
  end.

Definition is_cont (b : N) : bool := (128 <=? b)%N && (b <? 192)%N.

(** [b.decode("utf-8")], strict; [None] is a UnicodeDecodeError. *)
Fixpoint utf8_decode (b : list N) : option pystr :=
  match b with
  | [] => Some []
  | b0 :: r =>
      if (b0 <? 128)%N then cons b0 <$> utf8_decode r
      else match r with
      | b1 :: r1 =>
          if (194 <=? b0)%N && (b0 <? 224)%N && is_cont b1 then
            cons ((b0 - 192) * 64 + (b1 - 128))%N <$> utf8_decode r1
          else match r1 with
          | b2 :: r2 =>
              let c3 := ((b0 - 224) * 4096 + (b1 - 128) * 64 + (b2 - 128))%N in
              if (224 <=? b0)%N && (b0 <? 240)%N && is_cont b1 && is_cont b2 then
                if (2048 <=? c3)%N && negb ((55296 <=? c3)%N && (c3 <? 57344)%N)
                then cons c3 <$> utf8_decode r2 else None
              else match r2 with
              | b3 :: r3 =>
                  let c4 := ((b0 - 240) * 262144 + (b1 - 128) * 4096
                             + (b2 - 128) * 64 + (b3 - 128))%N in
                  if (240 <=? b0)%N && (b0 <? 245)%N && is_cont b1 && is_cont b2 && is_cont b3
                     && (65536 <=? c4)%N && (c4 <? 1114112)%N
                  then cons c4 <$> utf8_decode r3 else None
              | [] => None
              end
          | [] => None
          end
      | [] => None
      end
  end.

Definition is_ascii (s : pystr) : bool := forallb (fun c => (c <? 128)%N) s.

(** ** Ordering of [str] and [sorted] *)

Fixpoint str_leb (a b : pystr) : bool :=
  match a, b with
  | [], _ => true
  | _ :: _, [] => false
  | x :: a', y :: b' => if N.eqb x y then str_leb a' b' else (x <? y)%N
  end.

Fixpoint insert_sorted (x : pystr) (l : list pystr) : list pystr :=
  match l with
  | [] => [x]
  | y :: l' => if str_leb x y then x :: l else y :: insert_sorted x l'
  end.

(** [sorted(l)] for a list of [str]. *)
Definition py_sorted (l : list pystr) : list pystr := foldr insert_sorted [] l.

(** ** [float] rendering

    A float is modelled by the rational its decimal literal denotes; [str] of
    one with at most [17] fractional digits and magnitude below [1e16]. *)

Fixpoint drop_trailing_zeros (l : pystr) : pystr :=
  match l with
  | [] => []
  | c :: l' => match drop_trailing_zeros l' with
               | [] => if N.eqb c 48 then [] else [c]
               | r => c :: r
               end
  end.

Definition float_str (q : Q) : pystr :=
  let n := Z.abs_N (Qnum q) in let d := Npos (Qden q) in
  let sign := if (Qnum q <? 0)%Z then [45%N] else [] in
  let scaled := ((n * 10 ^ 17) / d)%N in
  let frac := drop_trailing_zeros (str_pad 17 (scaled mod 10 ^ 17)%N) in
  sign ++ str_N (n / d)%N ++ 46%N :: (match frac with [] => [48%N] | _ => frac end).

(** [float(s)] for plain decimal notation, the one [str] of such a float writes;
    [None] is a ValueError.  Exponents, [inf], [nan], underscores and white space
    are not modelled. *)
Definition float_abs (s : pystr) : option Q :=
  let '(i, r) := span_digits s in
  match r with
  | [] => match i with [] => None | _ => Some (inject_Z (Z.of_N (digits_val i))) end
  | c :: r' =>
      let '(f, r'') := span_digits r' in
      match r'', i ++ f with
      | [], _ :: _ =>
          if N.eqb c 46
          then Some (Qmake (Z.of_N (digits_val (i ++ f))) (Z.to_pos (10 ^ Z.of_nat (length f))))
          else None
      | _, _ => None
      end
  end.

Definition py_float (s : pystr) : option Q :=
  match s with
  | 45%N :: s' => Qopp <$> float_abs s'
  | 43%N :: s' => float_abs s'
  | _ => float_abs s
  end.

(** [f"{q:.2f}"]: two decimals, ties to even. *)
Definition float_2f (q : Q) : pystr :=
  let n := Z.abs_N (Qnum q) in let d := Npos (Qden q) in
  let t := ((n * 100) / d)%N in let r := ((n * 100) mod d)%N in
  let t' := (if (2 * r <? d)%N then t
             else if (d <? 2 * r)%N then t + 1
             else if N.even t then t else t + 1)%N in
  let sign := if (Qnum q <? 0)%Z then [45%N] else [] in
  sign ++ str_N (t' / 100)%N ++ 46%N :: str_pad 2 (t' mod 100)%N.

(** ** Lemmas *)

Lemma digits_val_snoc l c : digits_val (l ++ [c]) = (10 * digits_val l + (c - 48))%N.
Proof. unfold digits_val. by rewrite fold_left_app. Qed.

Lemma str_N_fuel_val f n : (n < 2 ^ N.of_nat f)%N → digits_val (str_N_fuel (S f) n) = n.
Proof.
  revert n. induction f as [|f IH]; intros n Hn.
  - simpl in Hn. assert (n = 0%N) as -> by lia. done.
  - change (str_N_fuel (S (S f)) n) with
      (if (n <? 10)%N then [(48 + n)%N]
       else str_N_fuel (S f) (n / 10)%N ++ [(48 + n mod 10)%N]).
    destruct (N.ltb_spec n 10); [cbn [digits_val fold_left]; unfold digits_val, fold_left; lia|].
    rewrite digits_val_snoc, IH.
    + divmod n 10%N. lia.
    + rewrite Nat2N.inj_succ, N.pow_succ_r' in Hn.
      apply N.Div0.div_lt_upper_bound. lia.
Qed.

Lemma size_nat_bound n : (n < 2 ^ N.of_nat (N.size_nat n))%N.
Proof.
  destruct n as [|p]; [done|]. simpl.
  induction p as [p IH|p IH|]; simpl in *; try lia;
    rewrite ?Nat2N.inj_succ, ?N.pow_succ_r'; lia.
Qed.

Lemma digits_val_str_N n : digits_val (str_N n) = n.
Proof. apply str_N_fuel_val, size_nat_bound. Qed.

Lemma is_digit_mod n : is_digit (48 + n mod 10) = true.
Proof.
  unfold is_digit. divmod n 10%N.
  rewrite andb_true_iff, !N.leb_le. lia.
Qed.

Lemma str_N_fuel_digits f n : Forall (λ c, is_digit c = true) (str_N_fuel f n).
Proof.
  revert n. induction f as [|f IH]; intros n; simpl; [done|].
  destruct (N.ltb_spec n 10).
  - constructor; [|done]. unfold is_digit. rewrite andb_true_iff, !N.leb_le. lia.
  - apply Forall_app. split; [apply IH|]. constructor; [apply is_digit_mod|done].
Qed.

Lemma str_N_digits n : Forall (λ c, is_digit c = true) (str_N n).
Proof. apply str_N_fuel_digits. Qed.

(** A rendered positive number does not start with the digit zero. *)
Lemma str_N_fuel_head f n :
  (n < 2 ^ N.of_nat f)%N → (0 < n)%N → ∃ c l, str_N_fuel (S f) n = c :: l ∧ (49 <= c <= 57)%N.
Proof.
  revert n. induction f as [|f IH]; intros n Hn H0; [simpl in Hn; lia|].
  change (str_N_fuel (S (S f)) n) with
      (if (n <? 10)%N then [(48 + n)%N]
       else str_N_fuel (S f) (n / 10)%N ++ [(48 + n mod 10)%N]).
  destruct (N.ltb_spec n 10); [exists (48 + n)%N, []; split; [done|lia]|].
  destruct (IH (n / 10)%N) as (c & l & -> & Hc).
  - rewrite Nat2N.inj_succ, N.pow_succ_r' in Hn. apply N.Div0.div_lt_upper_bound. lia.
  - apply N.div_str_pos. lia.
  - by exists c, (l ++ [(48 + n mod 10)%N]).
Qed.

Lemma str_N_head n : (0 < n)%N → ∃ c l, str_N n = c :: l ∧ (49 <= c <= 57)%N.
Proof. apply str_N_fuel_head, size_nat_bound. Qed.

Lemma str_N_inj n m : str_N n = str_N m → n = m.
Proof. intros H. by rewrite <- (digits_val_str_N n), H, digits_val_str_N. Qed.

(** A text that does not start with a digit. *)
Definition no_digit_head (r : pystr) : Prop :=
  match r with c :: _ => is_digit c = false | [] => True end.

Lemma span_digits_app d r :
  Forall (λ c, is_digit c = true) d → no_digit_head r → span_digits (d ++ r) = (d, r).
Proof.
  intros Hd Hr. induction Hd as [|c d Hc Hd IH]; simpl.
  - destruct r as [|c r]; [done|]. simpl in *. by rewrite Hr.
  - by rewrite Hc, IH.
Qed.

Lemma length_str_pad k n : length (str_pad k n) = k.
Proof.
  revert n. induction k as [|k IH]; intros n; simpl; [done|].
  rewrite length_app, IH. simpl. lia.
Qed.

Lemma str_pad_digits k n : Forall (λ c, is_digit c = true) (str_pad k n).
Proof.
  revert n. induction k as [|k IH]; intros n; simpl; [done|].
  apply Forall_app. split; [apply IH|]. constructor; [apply is_digit_mod|done].
Qed.

Lemma digits_val_str_pad k n : (n < 10 ^ N.of_nat k)%N → digits_val (str_pad k n) = n.
Proof.
  revert n. induction k as [|k IH]; intros n Hn; simpl str_pad.
  - simpl in Hn. unfold digits_val, fold_left. lia.
  - rewrite digits_val_snoc, IH.
    + divmod n 10%N. lia.
    + rewrite Nat2N.inj_succ, N.pow_succ_r' in Hn. apply N.Div0.div_lt_upper_bound. lia.
Qed.

(** Splitting on a separator the first part does not contain. *)
Lemma py_split_app sep w s :
  sep ∉ w → py_split sep (w ++ sep :: s) = w :: py_split sep s.
Proof.
  intros Hw. induction w as [|c w IH]; simpl.
  - by rewrite N.eqb_refl.
  - apply not_elem_of_cons in Hw as [Hc Hw].
    destruct (N.eqb_spec c sep); [congruence|]. by rewrite IH.
Qed.

Lemma py_split_nonempty sep s : ∃ w ws, py_split sep s = w :: ws.
Proof.
  destruct s as [|c s]; simpl; [eauto|]. destruct (N.eqb c sep); [eauto|].
  destruct (py_split sep s); eauto.
Qed.

(** Splitting distributes over a separator. *)
Lemma py_split_sep sep a b : py_split sep (a ++ sep :: b) = py_split sep a ++ py_split sep b.
Proof.
  induction a as [|c a IH]; simpl; [by rewrite N.eqb_refl|].
  destruct (N.eqb c sep); [by rewrite IH|]. rewrite IH.
  by destruct (py_split_nonempty sep a) as (w & ws & ->).
Qed.

Lemma py_split_none sep w : sep ∉ w → py_split sep w = [w].
Proof.
  intros Hw. induction w as [|c w IH]; simpl; [done|].
  apply not_elem_of_cons in Hw as [Hc Hw].
  destruct (N.eqb_spec c sep); [congruence|]. by rewrite IH.
Qed.

(** ASCII text is its own UTF-8 encoding. *)
Lemma utf8_encode_ascii s : is_ascii s = true → utf8_encode s = Some s.
Proof.
  induction s as [|c s IH]; [done|]. simpl. intros [Hc Hs]%andb_true_iff.
  unfold utf8_char. rewrite Hc. simpl. by rewrite (IH Hs).
Qed.

Lemma utf8_decode_ascii s : is_ascii s = true → utf8_decode s = Some s.
Proof.
  induction s as [|c s IH]; [done|]. simpl. intros [Hc Hs]%andb_true_iff.
  by rewrite Hc, (IH Hs).
Qed.

Lemma is_ascii_app a b : is_ascii (a ++ b) = is_ascii a && is_ascii b.
Proof. apply forallb_app. Qed.

(** [sorted] permutes and orders. *)
Lemma insert_sorted_perm x l : insert_sorted x l ≡ₚ x :: l.
Proof.
  induction l as [|y l IH]; simpl; [done|].
  destruct (str_leb x y); [done|]. rewrite IH. apply Permutation_swap.
Qed.

Lemma py_sorted_perm l : py_sorted l ≡ₚ l.
Proof. induction l as [|x l IH]; simpl; [done|]. by rewrite insert_sorted_perm, IH. Qed.

Lemma app_inj_same_tail (a b t : pystr) : a ++ t = b ++ t → a = b.
Proof. apply app_inv_tail. Qed.

(** ** [float] rendering and parsing *)

Lemma drop_trailing_zeros_app l :
  ∃ k, l = drop_trailing_zeros l ++ repeat 48%N k.
Proof.
  induction l as [|c l [k IH]]; [by exists 0%nat|]. simpl.
  destruct (drop_trailing_zeros l) as [|d l'].
  - destruct (N.eqb_spec c 48) as [->|]; [exists (S k); by rewrite IH|exists k; by rewrite IH].
  - exists k. by rewrite IH at 1.
Qed.

Lemma digits_val_zeros l k : digits_val (l ++ repeat 48%N k) = (digits_val l * 10 ^ N.of_nat k)%N.
Proof.
  induction k as [|k IH]; [by rewrite app_nil_r, N.mul_1_r|].
  rewrite <- Nat.add_1_r, repeat_app, app_assoc. simpl repeat. rewrite digits_val_snoc, IH.
  rewrite Nat2N.inj_add, N.pow_add_r. change (10 ^ N.of_nat 1)%N with 10%N. lia.
Qed.

Lemma digits_val_app a b :
  digits_val (a ++ b) = (digits_val a * 10 ^ N.of_nat (length b) + digits_val b)%N.
Proof.
  induction b as [|c b IH] using rev_ind.
  - rewrite app_nil_r. simpl. change (digits_val []) with 0%N. lia.
  - rewrite app_assoc, !digits_val_snoc, IH, length_app, Nat2N.inj_add, N.pow_add_r.
    change (10 ^ N.of_nat (length [c]))%N with 10%N. lia.
Qed.

(** What the fraction [float_str] writes for [n < 10^k] means. *)
Lemma float_frac k n :
  (n < 10 ^ N.of_nat k)%N →
  let l := drop_trailing_zeros (str_pad k n) in
  let f := match l with [] => [48%N] | _ => l end in
  Forall (λ c, is_digit c = true) f ∧ f ≠ [] ∧
  (digits_val f * 10 ^ N.of_nat k = n * 10 ^ N.of_nat (length f))%N.
Proof.
  intros Hn. destruct (drop_trailing_zeros_app (str_pad k n)) as [z Hz].
  pose proof (str_pad_digits k n) as Hd. pose proof (length_str_pad k n) as Hl.
  pose proof (digits_val_str_pad k n Hn) as Hv.
  set (l := drop_trailing_zeros (str_pad k n)) in *. clearbody l. rewrite Hz in Hd, Hl, Hv.
  apply Forall_app in Hd as [Hd _]. rewrite length_app, repeat_length in Hl.
  rewrite digits_val_zeros in Hv. rewrite <- Hl, <- Hv. destruct l as [|c l].
  - simpl. split_and!; [by constructor|done|]. change (digits_val [48%N]) with 0%N.
    change (digits_val []) with 0%N. lia.
  - split_and!; [done..|]. rewrite Nat2N.inj_add, N.pow_add_r. lia.
Qed.

(** The values that [str] renders in full: at most 17 decimals. *)
Definition decimal (q : Q) : Prop := (0 <= Qnum q)%Z ∧ (Zpos (Qden q) | 10 ^ 17)%Z.

Lemma float_abs_point i f :
  Forall (λ c, is_digit c = true) i → Forall (λ c, is_digit c = true) f → f ≠ [] →
  float_abs (i ++ 46%N :: f) =
  Some (Qmake (Z.of_N (digits_val (i ++ f))) (Z.to_pos (10 ^ Z.of_nat (length f)))).
Proof.
  intros Hi Hf Hne. unfold float_abs. rewrite span_digits_app by done.
  rewrite <- (app_nil_r f) at 1. rewrite span_digits_app by done.
  rewrite N.eqb_refl. destruct (i ++ f) eqn:He; [|done].
  apply app_nil in He as [_ ->]. done.
Qed.

(** The digits of [n / p] and of its remainder, as [float_str] writes them. *)
Lemma float_digits (n p t d : N) :
  (0 < p)%N → t = (d * p)%N → ((n * t) / p = n * d ∧ n * d = n / p * t + (n * d) mod t)%N.
Proof.
  intros Hp ->. split.
  - rewrite N.mul_assoc. apply N.div_mul. lia.
  - assert ((n * d) mod (d * p) = d * (n mod p))%N as ->
      by (rewrite (N.mul_comm n d); apply N.Div0.mul_mod_distr_l).
    pose proof (N.div_mod n p ltac:(lia)) as H. rewrite H at 1. lia.
Qed.

(** [float(str(q))] is [q]. *)
Lemma py_float_str q : decimal q → ∃ q', py_float (float_str q) = Some q' ∧ (q' == q)%Q.
Proof.
  intros [Hq [d Hd]]. destruct q as [n p]. cbn [Qnum Qden] in *.
  unfold float_str. cbn [Qnum Qden]. rewrite (proj2 (Z.ltb_ge n 0)) by lia. rewrite app_nil_l.
  assert (Z.of_N (10 ^ 17) = 10 ^ 17)%Z as Ht by reflexivity. rewrite <- Ht in Hd. clear Ht.
  assert (0 < 10 ^ 17)%N as Ht0 by reflexivity.
  pose proof (float_frac 17) as Hfrac. change (N.of_nat 17) with 17%N in Hfrac.
  set (t := (10 ^ 17)%N) in *. clearbody t.
  set (m := Z.abs_N n). assert (Z.of_N m = n) as Hm by (unfold m; lia). clearbody m.
  destruct (float_digits m (N.pos p) t (Z.to_N d)) as [Hdiv Hmod]; [lia|lia|].
  rewrite Hdiv. destruct (Hfrac ((m * Z.to_N d) mod t)%N) as (Hf & Hne & Hv); [by apply N.mod_lt; lia|].
  set (f := match drop_trailing_zeros _ with [] => _ | _ => _ end) in *. clearbody f.
  assert (py_float (str_N (m / N.pos p) ++ 46%N :: f) =
          float_abs (str_N (m / N.pos p) ++ 46%N :: f)) as ->.
  { pose proof (str_N_digits (m / N.pos p)) as Hi. destruct (str_N _) as [|c i]; [done|].
    apply Forall_cons in Hi as [Hc _]. cbn [app]. unfold py_float.
    repeat case_match; try done; subst; done. }
  rewrite float_abs_point by (done || apply str_N_digits). eexists. split; [done|].
  rewrite digits_val_app, digits_val_str_N. unfold Qeq. cbn [Qnum Qden].
  assert (0 < 10 ^ Z.of_nat (length f))%Z as Hpos by (apply Z.pow_pos_nonneg; lia).
  rewrite Z2Pos.id by done.
  assert (Z.of_N (10 ^ N.of_nat (length f)) = 10 ^ Z.of_nat (length f))%Z as Hz by lia.
  set (l := (10 ^ N.of_nat (length f))%N) in *. rewrite <- Hz.
  set (r := ((m * Z.to_N d) mod t)%N) in *. set (a := (m / N.pos p)%N) in *.
  clearbody l r a. rewrite <- Hm.
  assert ((a * l + digits_val f) * t = m * Z.to_N d * l)%N as He by (rewrite Hmod; lia).
  assert (t = Z.to_N d * N.pos p)%N as Ht by lia.
  apply N2Z.inj_iff in He. nia.
Qed.

(** Renderings of equal value only come from equal values. *)
Lemma float_str_inj q q' : decimal q → decimal q' → float_str q = float_str q' → (q == q')%Q.
Proof.
  intros (a & Ha & Ea)%py_float_str (b & Hb & Eb)%py_float_str H. rewrite H, Hb in Ha.
  injection Ha as <-. rewrite <- Ea, <- Eb. apply Qeq_refl.
Qed.

(** Equal values render alike. *)
Lemma float_str_eq q q' : (q == q')%Q → float_str q = float_str q'.
Proof.
  destruct q as [n p], q' as [m r]. unfold Qeq, float_str. cbn [Qnum Qden]. intros H.
  assert (Z.abs_N n * N.pos r = Z.abs_N m * N.pos p)%N as Ha by nia.
  assert (∀ a b k : N, (a * N.pos r = b * N.pos p)%N → (a * k / N.pos p = b * k / N.pos r)%N) as Hdiv.
  { intros a b k Hab. rewrite <- (N.Div0.div_mul_cancel_r _ _ (N.pos r)) by lia.
    rewrite <- (N.Div0.div_mul_cancel_r (b * k) _ (N.pos p)) by lia.
    replace (a * k * N.pos r)%N with (a * N.pos r * k)%N by lia. rewrite Hab. f_equal; lia. }
  pose proof (Hdiv _ _ 1%N Ha) as H1. rewrite !N.mul_1_r in H1.
  rewrite H1, (Hdiv _ _ (10 ^ 17)%N Ha).
  assert ((n <? 0)%Z = (m <? 0)%Z) as ->; [|done].
  destruct (Z.ltb_spec n 0), (Z.ltb_spec m 0); try done; nia.
Qed.

(** ** UTF-8 round trip *)
(** Decide the comparisons of the goal. *)
Ltac leb_cases :=
  repeat match goal with
  | |- context [(?a <? ?b)%N] => destruct (N.ltb_spec a b); try lia
  | |- context [(?a <=? ?b)%N] => destruct (N.leb_spec a b); try lia
  end; cbn [andb negb].

Lemma cont_byte n : is_cont (128 + n mod 64) = true ∧ (128 + n mod 64 - 128 = n mod 64)%N.
Proof. unfold is_cont. divmod n 64%N. split; [leb_cases; done|lia]. Qed.

Lemma utf8_decode_char c b r :
  utf8_char c = Some b → utf8_decode (b ++ r) = cons c <$> utf8_decode r.
Proof.
  unfold utf8_char. destruct (N.ltb_spec c 128).
  { intros [= <-]. cbn [app utf8_decode]. by leb_cases. }
  destruct (N.ltb_spec c 2048).
  { intros [= <-]. cbn [app utf8_decode]. destruct (cont_byte c) as [-> ->].
    divmod c 64%N. replace ((192 + q - 192) * 64 + r0)%N with c by lia. by leb_cases. }
  destruct ((55296 <=? c) && (c <? 57344))%N eqn:Hs; [done|].
  destruct (N.ltb_spec c 65536).
  { intros [= <-]. cbn [app utf8_decode]. destruct (cont_byte c) as [-> ->], (cont_byte (c / 64)) as [-> ->].
    pose proof (N.div_mod c 64 ltac:(done)). pose proof (N.div_mod (c / 64) 64 ltac:(done)).
    rewrite N.Div0.div_div in *. change (64 * 64)%N with 4096%N in *.
    pose proof (N.mod_lt c 64 ltac:(done)). pose proof (N.mod_lt (c / 64) 64 ltac:(done)).
    set (c4096 := (c / 4096)%N) in *. set (m1 := ((c / 64) mod 64)%N) in *. set (m2 := (c mod 64)%N) in *.
    set (d := (c / 64)%N) in *. clearbody c4096 m1 m2 d.
    replace ((224 + c4096 - 224) * 4096 + m1 * 64 + m2)%N with c by lia.
    rewrite Hs. leb_cases; done. }
  destruct (N.ltb_spec c 1114112); [|done].
  intros [= <-]. cbn [app utf8_decode].
  destruct (cont_byte c) as [-> ->], (cont_byte (c / 64)) as [-> ->], (cont_byte (c / 4096)) as [-> ->].
  pose proof (N.div_mod c 64 ltac:(done)). pose proof (N.div_mod (c / 64) 64 ltac:(done)).
  pose proof (N.div_mod (c / 4096) 64 ltac:(done)).
  rewrite !N.Div0.div_div in *. change (64 * 64)%N with 4096%N in *. change (4096 * 64)%N with 262144%N in *.
  pose proof (N.mod_lt c 64 ltac:(done)). pose proof (N.mod_lt (c / 64) 64 ltac:(done)).
  pose proof (N.mod_lt (c / 4096) 64 ltac:(done)).
  set (m0 := ((c / 4096) mod 64)%N) in *. set (m1 := ((c / 64) mod 64)%N) in *. set (m2 := (c mod 64)%N) in *.
  set (h := (c / 262144)%N) in *. set (d := (c / 64)%N) in *. set (e := (c / 4096)%N) in *.
  clearbody h m0 m1 m2 d e.
  replace ((240 + h - 240) * 262144 + m0 * 4096 + m1 * 64 + m2)%N with c by lia.
  leb_cases; done.
Qed.

Lemma utf8_decode_encode s b : utf8_encode s = Some b → utf8_decode b = Some s.
Proof.
  revert b. induction s as [|c s IH]; intros b; simpl; [by intros [= <-]|].
  destruct (utf8_char c) as [bc|] eqn:Hc; [|done]. destruct (utf8_encode s) as [bs|]; [|done].
  intros [= <-]. by rewrite (utf8_decode_char _ _ _ Hc), (IH bs).
Qed.
