(* ===== verification/Json.v ===== *)
(** * The [json] module of the standard library

    JSON values, [json.dumps] with its default settings (ASCII only, separators
    [", "] and [": "]) and [json.loads], as the source uses them.  A JSON number
    with a fraction or an exponent is a Python [float]; the model keeps its
    literal, so it is neither rounded nor rendered again.  [None] of [loads] is
    a [JSONDecodeError].

    The parser recurses on fuel; [loads] gives it twice the length of the text
    and [loads_dumps] shows that this is enough for every text [dumps] writes. *)

From Stdlib Require Import Ascii String.
From S2P Require Import Prelude PyStr.
Open Scope list_scope.

Inductive json : Type :=
| JNull
| JBool (b : bool)
| JInt (z : Z)
| JFloat (lit : pystr)
| JStr (s : pystr)
| JArr (l : list json)
| JObj (l : list (pystr * json)).

(** ** Python dicts built from JSON objects *)

(** [d[k] = v]: an existing key keeps its position. *)
Fixpoint dict_set {A} (k : pystr) (v : A) (d : list (pystr * A)) : list (pystr * A) :=
  match d with
  | [] => [(k, v)]
  | (k', v') :: d' => if decide (k = k') then (k, v) :: d' else (k', v') :: dict_set k v d'
  end.

(** [d.get(k)]. *)
Fixpoint dict_get {A} (k : pystr) (d : list (pystr * A)) : option A :=
  match d with
  | [] => None
  | (k', v') :: d' => if decide (k = k') then Some v' else dict_get k d'
  end.

(** [dict(pairs)]. *)
Definition dict_of_pairs {A} (l : list (pystr * A)) : list (pystr * A) :=
  fold_left (fun d kv => dict_set kv.1 kv.2 d) l [].

(** ** [json.dumps] *)

Definition hex_digit (d : N) : N := if (d <? 10)%N then (48 + d)%N else (87 + d)%N.

Definition hex4 (c : N) : pystr :=
  [hex_digit (c / 16 / 16 / 16)%N; hex_digit ((c / 16 / 16) mod 16)%N;
   hex_digit ((c / 16) mod 16)%N; hex_digit (c mod 16)%N].

Definition u_escape (c : N) : pystr := 92%N :: 117%N :: hex4 c.

(** One character of [py_encode_basestring_ascii]. *)
Definition esc (c : N) : pystr :=
  if N.eqb c 34 then [92; 34]%N
  else if N.eqb c 92 then [92; 92]%N
  else if N.eqb c 10 then [92; 110]%N
  else if N.eqb c 13 then [92; 114]%N
  else if N.eqb c 9 then [92; 116]%N
  else if N.eqb c 12 then [92; 102]%N
  else if N.eqb c 8 then [92; 98]%N
  else if (32 <=? c)%N && (c <=? 126)%N then [c]
  else if (c <? 65536)%N then u_escape c
  else u_escape (55296 + (c - 65536) / 1024)%N ++ u_escape (56320 + (c - 65536) mod 1024)%N.

Definition dumps_str (s : pystr) : pystr := 34%N :: concat (esc <$> s) ++ [34%N].

Fixpoint dumps (j : json) : pystr :=
  match j with
  | JNull => u "null"
  | JBool true => u "true"
  | JBool false => u "false"
  | JInt z => str_int z
  | JFloat lit => lit
  | JStr s => dumps_str s
  | JArr l => u "[" ++ py_join (u ", ") (map dumps l) ++ u "]"
  | JObj l => u "{" ++ py_join (u ", ") (map (fun kv => dumps_str kv.1 ++ u ": " ++ dumps kv.2) l)
              ++ u "}"
  end.

(** ** [json.loads] *)

Definition is_ws (c : N) : bool := N.eqb c 32 || N.eqb c 9 || N.eqb c 10 || N.eqb c 13.

Fixpoint skip_ws (s : pystr) : pystr :=
  match s with
  | c :: s' => if is_ws c then skip_ws s' else s
  | [] => []
  end.

Definition hex_val (c : N) : option N :=
  if is_digit c then Some (c - 48)%N
  else if (97 <=? c)%N && (c <=? 102)%N then Some (c - 87)%N
  else if (65 <=? c)%N && (c <=? 70)%N then Some (c - 55)%N
  else None.

Definition hex4_val (a b c d : N) : option N :=
  a ← hex_val a; b ← hex_val b; c ← hex_val c; d ← hex_val d;
  Some (4096 * a + 256 * b + 16 * c + d)%N.

Definition is_high (c : N) : bool := (55296 <=? c)%N && (c <? 56320)%N.
Definition is_low (c : N) : bool := (56320 <=? c)%N && (c <? 57344)%N.

Definition simple_escape (c : N) : option N :=
  if N.eqb c 34 then Some 34%N else if N.eqb c 92 then Some 92%N
  else if N.eqb c 47 then Some 47%N else if N.eqb c 98 then Some 8%N
  else if N.eqb c 102 then Some 12%N else if N.eqb c 110 then Some 10%N
  else if N.eqb c 114 then Some 13%N else if N.eqb c 116 then Some 9%N
  else None.

(** After the opening quote: the string and the text after the closing quote. *)
Fixpoint scan_string (s : pystr) : option (pystr * pystr) :=
  match s with
  | [] => None
  | c :: r =>
      if N.eqb c 34 then Some ([], r)
      else if N.eqb c 92 then
        match r with
        | [] => None
        | e :: r1 =>
            if N.eqb e 117 then
              match r1 with
              | a :: b :: c' :: d :: r2 =>
                  match hex4_val a b c' d with
                  | None => None
                  | Some h =>
                      if is_high h then
                        match r2 with
                        | x :: y :: a2 :: b2 :: c2 :: d2 :: r3 =>
                            if N.eqb x 92 && N.eqb y 117 then
                              match hex4_val a2 b2 c2 d2 with
                              | None => None
                              | Some l =>
                                  if is_low l then
                                    '(w, t) ← scan_string r3;
                                    Some ((65536 + (h - 55296) * 1024 + (l - 56320))%N :: w, t)
                                  else '(w, t) ← scan_string r2; Some (h :: w, t)
                              end
                            else '(w, t) ← scan_string r2; Some (h :: w, t)
                        | _ => '(w, t) ← scan_string r2; Some (h :: w, t)
                        end
                      else '(w, t) ← scan_string r2; Some (h :: w, t)
                  end
              | _ => None
              end
            else match simple_escape e with
                 | Some x => '(w, t) ← scan_string r1; Some (x :: w, t)
                 | None => None
                 end
        end
      else if (c <? 32)%N then None
      else '(w, t) ← scan_string r; Some (c :: w, t)
  end.

(** The integer part of a number: ["0"] or a digit run without leading zero. *)
Definition scan_intpart (s : pystr) : option (pystr * pystr) :=
  match s with
  | c :: r => if N.eqb c 48 then Some ([48%N], r)
              else if is_digit c then Some (span_digits s) else None
  | [] => None
  end.

(** ["." digits] when at least one digit follows the dot. *)
Definition scan_frac (s : pystr) : pystr * pystr :=
  match s with
  | c :: r => if N.eqb c 46 then
                match span_digits r with
                | ([], _) => ([], s)
                | (d, r') => (c :: d, r')
                end
              else ([], s)
  | [] => ([], [])
  end.

(** An exponent when its digits are present. *)
Definition scan_exp (s : pystr) : pystr * pystr :=
  match s with
  | c :: r =>
      if N.eqb c 101 || N.eqb c 69 then
        let '(sg, r1) := match r with
                         | x :: r' => if N.eqb x 43 || N.eqb x 45 then ([x], r') else ([], r)
                         | [] => ([], [])
                         end in
        match span_digits r1 with
        | ([], _) => ([], s)
        | (d, r2) => (c :: sg ++ d, r2)
        end
      else ([], s)
  | [] => ([], [])
  end.

Definition scan_number (s : pystr) : option (json * pystr) :=
  let '(neg, r) := match s with
                   | c :: r => if N.eqb c 45 then (true, r) else (false, s)
                   | [] => (false, [])
                   end in
  '(ip, r1) ← scan_intpart r;
  let '(fp, r2) := scan_frac r1 in
  let '(ep, r3) := scan_exp r2 in
  let sign := if neg : bool then [45%N] else [] in
  match fp ++ ep with
  | [] => let n := Z.of_N (digits_val ip) in Some (JInt (if neg then - n else n)%Z, r3)
  | fe => Some (JFloat (sign ++ ip ++ fe), r3)
  end.

(** A literal word: the value and the text after it. *)
Definition scan_word (w : pystr) (v : json) (s : pystr) : option (json * pystr) :=
  if starts_with w s then Some (v, drop (length w) s) else None.

(** Everything [scan_once] accepts except strings, objects and arrays. *)
Definition scan_scalar (s : pystr) : option (json * pystr) :=
  match scan_word (u "null") JNull s with Some x => Some x | None =>
  match scan_word (u "true") (JBool true) s with Some x => Some x | None =>
  match scan_word (u "false") (JBool false) s with Some x => Some x | None =>
  match scan_word (u "NaN") (JFloat (u "NaN")) s with Some x => Some x | None =>
  match scan_word (u "Infinity") (JFloat (u "Infinity")) s with Some x => Some x | None =>
  match scan_word (u "-Infinity") (JFloat (u "-Infinity")) s with Some x => Some x | None =>
  scan_number s end end end end end end.

Fixpoint scan_once (f : nat) (s : pystr) {struct f} : option (json * pystr) :=
  match f with
  | O => None
  | S f' =>
      match s with
      | [] => None
      | c :: r =>
          if N.eqb c 34 then '(w, t) ← scan_string r; Some (JStr w, t)
          else if N.eqb c 123 then
            match skip_ws r with
            | x :: t => if N.eqb x 125 then Some (JObj [], t)
                        else '(m, t) ← scan_members f' (x :: t); Some (JObj (dict_of_pairs m), t)
            | [] => None
            end
          else if N.eqb c 91 then
            match skip_ws r with
            | x :: t => if N.eqb x 93 then Some (JArr [], t)
                        else '(m, t) ← scan_elements f' (x :: t); Some (JArr m, t)
            | [] => None
            end
          else scan_scalar s
      end
  end
with scan_members (f : nat) (s : pystr) {struct f} : option (list (pystr * json) * pystr) :=
  match f with
  | O => None
  | S f' =>
      match s with
      | q :: r =>
          if N.eqb q 34 then
            '(k, r1) ← scan_string r;
            match skip_ws r1 with
            | c :: r2 =>
                if N.eqb c 58 then
                  '(v, r3) ← scan_once f' (skip_ws r2);
                  match skip_ws r3 with
                  | d :: r4 =>
                      if N.eqb d 44 then
                        '(m, t) ← scan_members f' (skip_ws r4); Some ((k, v) :: m, t)
                      else if N.eqb d 125 then Some ([(k, v)], r4) else None
                  | [] => None
                  end
                else None
            | [] => None
            end
          else None
      | [] => None
      end
  end
with scan_elements (f : nat) (s : pystr) {struct f} : option (list json * pystr) :=
  match f with
  | O => None
  | S f' =>
      '(v, r1) ← scan_once f' s;
      match skip_ws r1 with
      | d :: r2 =>
          if N.eqb d 44 then '(m, t) ← scan_elements f' (skip_ws r2); Some (v :: m, t)
          else if N.eqb d 93 then Some ([v], r2) else None
      | [] => None
      end
  end.

(** [json.loads(s)]: one value, white space around it, nothing else. *)
Definition loads (s : pystr) : option json :=
  '(v, r) ← scan_once (2 * length s) (skip_ws s);
  match skip_ws r with [] => Some v | _ => None end.

(** ** [str] of a JSON value, as f-strings and [%s] render it *)

Definition repr_char (q c : N) : pystr :=
  if N.eqb c q || N.eqb c 92 then [92%N; c]
  else if N.eqb c 10 then [92; 110]%N
  else if N.eqb c 13 then [92; 114]%N
  else if N.eqb c 9 then [92; 116]%N
  else if (c <? 32)%N || ((127 <=? c)%N && (c <? 161)%N) || N.eqb c 173
       then [92; 120; hex_digit (c / 16); hex_digit (c mod 16)]%N
  else [c].

(** [repr(s)]: single quotes unless the text holds one and no double quote. *)
Definition repr_str (s : pystr) : pystr :=
  let q := if bool_decide (39%N ∈ s) && negb (bool_decide (34%N ∈ s)) then 34%N else 39%N in
  q :: concat (repr_char q <$> s) ++ [q].

Fixpoint py_repr (j : json) : pystr :=
  match j with
  | JNull => u "None"
  | JBool true => u "True"
  | JBool false => u "False"
  | JInt z => str_int z
  | JFloat lit => lit
  | JStr s => repr_str s
  | JArr l => u "[" ++ py_join (u ", ") (map py_repr l) ++ u "]"
  | JObj l => u "{" ++ py_join (u ", ") (map (fun kv => repr_str kv.1 ++ u ": " ++ py_repr kv.2) l)
              ++ u "}"
  end.

Definition py_str (j : json) : pystr :=
  match j with JStr s => s | _ => py_repr j end.

(** ** Values that survive a round trip

    Text without surrogate code points, dicts with distinct keys, and floats
    whose literal is a JSON number (or one of the three words Python adds). *)

Definition wf_char (c : N) : bool :=
  (c <? 55296)%N || ((57344 <=? c)%N && (c <? 1114112)%N).
Definition wf_str (s : pystr) : bool := forallb wf_char s.

(** A text that cannot continue a number. *)
Definition stops (r : pystr) : bool :=
  match r with
  | c :: _ => negb (is_digit c || N.eqb c 46 || N.eqb c 101 || N.eqb c 69)
  | [] => true
  end.

Definition float_word (lit : pystr) : bool :=
  bool_decide (lit ∈ [u "NaN"; u "Infinity"; u "-Infinity"]).

(** The literal is scanned whole as a float whatever follows it. *)
Definition wf_float (lit : pystr) : Prop :=
  ∀ r, stops r = true → scan_scalar (lit ++ r) = Some (JFloat lit, r) ∧
       match lit with c :: _ => c ≠ 34%N ∧ c ≠ 123%N ∧ c ≠ 91%N ∧ c ≠ 93%N ∧ is_ws c = false
                    | [] => False end.

Inductive wf_json : json → Prop :=
| wf_null : wf_json JNull
| wf_bool b : wf_json (JBool b)
| wf_int z : wf_json (JInt z)
| wf_flt lit : wf_float lit → wf_json (JFloat lit)
| wf_string s : wf_str s = true → wf_json (JStr s)
| wf_arr l : Forall wf_json l → wf_json (JArr l)
| wf_obj l : NoDup l.*1 → Forall (λ kv, wf_str kv.1 = true ∧ wf_json kv.2) l → wf_json (JObj l).

(** Induction on JSON values through their nested lists. *)
Section JsonInd.
Context (P : json → Prop)
  (Hnull : P JNull) (Hbool : ∀ b, P (JBool b)) (Hint : ∀ z, P (JInt z))
  (Hfloat : ∀ lit, P (JFloat lit)) (Hstr : ∀ s, P (JStr s))
  (Harr : ∀ l, Forall P l → P (JArr l))
  (Hobj : ∀ l, Forall (λ kv, P kv.2) l → P (JObj l)).

Fixpoint json_nested_ind (j : json) : P j :=
  match j with
  | JNull => Hnull
  | JBool b => Hbool b
  | JInt z => Hint z
  | JFloat lit => Hfloat lit
  | JStr s => Hstr s
  | JArr l => Harr l ((fix go l := match l return Forall P l with
                                   | [] => Forall_nil_2 _
                                   | x :: l' => Forall_cons_2 _ _ _ (json_nested_ind x) (go l')
                                   end) l)
  | JObj l => Hobj l ((fix go l := match l return Forall (λ kv, P kv.2) l with
                                   | [] => Forall_nil_2 _
                                   | x :: l' => Forall_cons_2 _ _ _ (json_nested_ind x.2) (go l')
                                   end) l)
  end.
End JsonInd.

(** ** Dicts *)

Lemma dict_get_set_eq {A} k (v : A) d : dict_get k (dict_set k v d) = Some v.
Proof.
  induction d as [|[k' v'] d IH]; simpl; [by rewrite decide_True|].
  case_decide; simpl; [by rewrite decide_True|by rewrite decide_False].
Qed.

Lemma dict_get_set_ne {A} k k' (v : A) d : k ≠ k' → dict_get k' (dict_set k v d) = dict_get k' d.
Proof.
  intros Hne. induction d as [|[k2 v2] d IH]; simpl; [by rewrite decide_False|].
  case_decide; simpl; [subst; by rewrite !decide_False|by rewrite IH].
Qed.

Lemma dict_set_fresh {A} k (v : A) d : k ∉ d.*1 → dict_set k v d = d ++ [(k, v)].
Proof.
  induction d as [|[k' v'] d IH]; simpl; [done|].
  intros [Hk Hd]%not_elem_of_cons. rewrite decide_False by done. by rewrite IH.
Qed.

Lemma dict_of_pairs_nodup {A} (l : list (pystr * A)) : NoDup l.*1 → dict_of_pairs l = l.
Proof.
  intros Hl. unfold dict_of_pairs.
  enough (∀ acc : list (pystr * A), NoDup (acc ++ l).*1 →
            fold_left (λ d kv, dict_set kv.1 kv.2 d) l acc = acc ++ l) as ->; [done|by rewrite app_nil_l|].
  clear Hl. induction l as [|[k v] l IH]; intros acc Hnd; simpl; [by rewrite app_nil_r|].
  rewrite dict_set_fresh.
  - rewrite IH; rewrite <- (assoc_L (++)); done.
  - rewrite fmap_app in Hnd. apply NoDup_app in Hnd as (_ & H & _).
    intros Hk. apply (H _ Hk). simpl. left.
Qed.

(** ** Strings *)

Lemma hex_val_digit d : (d < 16)%N → hex_val (hex_digit d) = Some d.
Proof.
  intros Hd. unfold hex_digit. destruct (N.ltb_spec d 10).
  - unfold hex_val, is_digit.
    rewrite (proj2 (N.leb_le 48 (48 + d))), (proj2 (N.leb_le (48 + d) 57)) by lia.
    simpl. f_equal. lia.
  - unfold hex_val, is_digit. rewrite (proj2 (N.leb_gt (87 + d) 57)) by lia.
    rewrite andb_false_r, (proj2 (N.leb_le 97 (87 + d))), (proj2 (N.leb_le (87 + d) 102)) by lia.
    simpl. f_equal. lia.
Qed.

Lemma hex4_val_hex4 c :
  (c < 65536)%N →
  hex4_val (hex_digit (c / 16 / 16 / 16)) (hex_digit ((c / 16 / 16) mod 16))
           (hex_digit ((c / 16) mod 16)) (hex_digit (c mod 16)) = Some c.
Proof.
  intros Hc. unfold hex4_val. divmod c 16%N. divmod q 16%N. divmod q0 16%N.
  rewrite !hex_val_digit by lia. simpl. f_equal. lia.
Qed.

Lemma hex_digit_ascii d : (d < 16)%N → (hex_digit d <? 128)%N = true.
Proof. intros Hd. unfold hex_digit. apply N.ltb_lt. destruct (N.ltb_spec d 10); lia. Qed.

Lemma hex4_ascii c : (c < 65536)%N → is_ascii (hex4 c) = true.
Proof.
  intros Hc. unfold hex4. divmod c 16%N. divmod q 16%N. divmod q0 16%N.
  cbn [is_ascii forallb]. rewrite !hex_digit_ascii by lia. done.
Qed.

(** A scanned escape of a code point that is no surrogate. *)
Lemma scan_u_escape c r :
  (c < 65536)%N → is_high c = false →
  scan_string (u_escape c ++ r) = ('(w, t) ← scan_string r; Some (c :: w, t)).
Proof.
  intros Hc Hs. unfold u_escape, hex4. cbn [app].
  transitivity (match hex4_val (hex_digit (c / 16 / 16 / 16)) (hex_digit ((c / 16 / 16) mod 16))
           (hex_digit ((c / 16) mod 16)) (hex_digit (c mod 16)) with
                | None => None
                | Some h => if is_high h then scan_string (u_escape c ++ r)
                            else '(w, t) ← scan_string r; Some (h :: w, t) end).
  - rewrite hex4_val_hex4 by done. rewrite Hs. unfold u_escape, hex4. cbn [app scan_string].
    change (117 =? 34)%N with false. cbn.
    rewrite hex4_val_hex4 by done. by rewrite Hs.
  - rewrite hex4_val_hex4 by done. by rewrite Hs.
Qed.

Lemma scan_pair h l r :
  (h < 65536)%N → (l < 65536)%N → is_high h = true → is_low l = true →
  scan_string (u_escape h ++ u_escape l ++ r) =
  ('(w, t) ← scan_string r; Some ((65536 + (h - 55296) * 1024 + (l - 56320))%N :: w, t)).
Proof.
  intros Hh Hl Hhi Hlo. unfold u_escape, hex4. cbn [app scan_string]. cbn.
  rewrite hex4_val_hex4 by done. rewrite Hhi. cbn.
  rewrite hex4_val_hex4 by done. by rewrite Hlo.
Qed.

Ltac neqb c k := destruct (N.eqb_spec c k) as [->|?]; [reflexivity|].

Lemma scan_esc c r :
  wf_char c = true →
  scan_string (esc c ++ r) = ('(w, t) ← scan_string r; Some (c :: w, t)).
Proof.
  intros Hw. unfold wf_char in Hw.
  apply orb_true_iff in Hw. rewrite andb_true_iff, !N.ltb_lt, N.leb_le in Hw.
  unfold esc. neqb c 34%N. neqb c 92%N. neqb c 10%N. neqb c 13%N. neqb c 9%N. neqb c 12%N.
  neqb c 8%N.
  destruct ((32 <=? c)%N && (c <=? 126)%N) eqn:Hp.
  - apply andb_true_iff in Hp as [Hp1 Hp2]. apply N.leb_le in Hp1. cbn [app scan_string].
    rewrite (proj2 (N.eqb_neq c 34)), (proj2 (N.eqb_neq c 92)) by done.
    by rewrite (proj2 (N.ltb_ge c 32)) by done.
  - destruct (N.ltb_spec c 65536) as [Hc|Hc].
    + apply scan_u_escape; [done|]. unfold is_high.
      destruct (N.leb_spec 55296 c), (N.ltb_spec c 56320); simpl; try done. lia.
    + rewrite <- app_assoc. divmod (c - 65536)%N 1024%N.
      rewrite scan_pair; [| | |unfold is_high|unfold is_low];
        rewrite ?andb_true_iff, ?N.leb_le, ?N.ltb_lt; try lia.
      replace (65536 + (55296 + q - 55296) * 1024 + (56320 + r0 - 56320))%N with c by lia. done.
Qed.

Lemma scan_dumps_str s r :
  wf_str s = true → scan_string (concat (esc <$> s) ++ 34%N :: r) = Some (s, r).
Proof.
  induction s as [|c s IH]; [done|]. intros [Hc Hs]%andb_true_iff.
  rewrite fmap_cons. cbn [List.concat]. rewrite <- (assoc_L (++)), scan_esc by done.
  by rewrite IH.
Qed.

(** ** Numbers *)

Lemma stops_no_digit r : stops r = true → no_digit_head r.
Proof. destruct r as [|c r]; simpl; [done|]. by destruct (is_digit c). Qed.

Lemma scan_frac_stops r : stops r = true → scan_frac r = ([], r).
Proof.
  destruct r as [|c r]; simpl; [done|]. intros H.
  destruct (N.eqb_spec c 46); [|done]. by rewrite orb_true_r in H.
Qed.

Lemma scan_exp_stops r : stops r = true → scan_exp r = ([], r).
Proof.
  destruct r as [|c r]; simpl; [done|]. intros H.
  destruct (N.eqb c 101); [by rewrite !orb_true_r in H|].
  by destruct (N.eqb c 69); [rewrite !orb_true_r in H|].
Qed.

Lemma scan_intpart_N n r :
  stops r = true → scan_intpart (str_N n ++ r) = Some (str_N n, r).
Proof.
  intros Hr. destruct (N.eq_dec n 0) as [->|Hn].
  - done.
  - pose proof (str_N_digits n) as Hd. apply stops_no_digit in Hr.
    destruct (str_N_head n) as (c & l & Heq & Hc); [lia|]. rewrite Heq in *.
    cbn [scan_intpart app]. rewrite (proj2 (N.eqb_neq c 48)) by lia.
    inversion Hd as [|?? Hc1 Hl]; subst. rewrite Hc1.
    by rewrite (app_comm_cons l r c), span_digits_app.
Qed.

Lemma str_N_not_minus n r : ∃ c l, str_N n ++ r = c :: l ∧ is_digit c = true.
Proof.
  pose proof (str_N_digits n) as Hd.
  destruct (str_N n) as [|c l] eqn:E.
  - assert (digits_val (str_N n) = n) as Hv by apply digits_val_str_N.
    rewrite E in Hv. unfold digits_val in Hv. simpl in Hv. by subst.
  - inversion Hd; subst. by exists c, (l ++ r).
Qed.

Lemma scan_number_int z r :
  stops r = true → scan_number (str_int z ++ r) = Some (JInt z, r).
Proof.
  intros Hr. unfold scan_number.
  assert (∀ n, scan_intpart (str_N n ++ r) = Some (str_N n, r)) as Hi
    by (intros; by apply scan_intpart_N).
  assert (∀ n, match str_N n ++ r with
               | c :: t => if N.eqb c 45 then (true, t) else (false, str_N n ++ r)
               | [] => (false, []) end = (false, str_N n ++ r)) as Hs.
  { intros n. destruct (str_N_not_minus n r) as (c & l & -> & Hc).
    destruct (N.eqb_spec c 45); [|done]. by subst. }
  destruct z as [|p|p]; cbn [str_int app]; [| |change (N.eqb 45 45) with true; cbv iota];
    rewrite ?Hs, Hi; cbn [mbind option_bind]; rewrite scan_frac_stops, scan_exp_stops by done;
    cbn [app]; rewrite digits_val_str_N; do 2 f_equal; lia.
Qed.

Lemma scan_word_ne x w v c t : x ≠ c → scan_word (x :: w) v (c :: t) = None.
Proof. intros H. unfold scan_word. simpl. by rewrite (proj2 (N.eqb_neq x c)). Qed.

Lemma scan_word_ne2 x y w v c d t : y ≠ d → scan_word (x :: y :: w) v (c :: d :: t) = None.
Proof.
  intros H. unfold scan_word. simpl. rewrite (proj2 (N.eqb_neq y d)) by done.
  by rewrite andb_false_r.
Qed.

(** A digit, or a minus sign and a digit, starts a number. *)
Lemma scan_scalar_digit c t : is_digit c = true → scan_scalar (c :: t) = scan_number (c :: t).
Proof.
  intros [?%N.leb_le ?%N.leb_le]%andb_true_iff. unfold scan_scalar.
  cbn [u]. by rewrite !scan_word_ne by (intros <-; vm_compute in *; congruence).
Qed.

Lemma scan_scalar_minus d t :
  is_digit d = true → scan_scalar (45%N :: d :: t) = scan_number (45%N :: d :: t).
Proof.
  intros [?%N.leb_le ?%N.leb_le]%andb_true_iff. unfold scan_scalar.
  cbn [u]. rewrite !scan_word_ne by (vm_compute; congruence).
  by rewrite scan_word_ne2 by (intros <-; vm_compute in *; congruence).
Qed.

Lemma str_int_head z r :
  ∃ c t, str_int z ++ r = c :: t ∧
    (is_digit c = true ∨ (c = 45%N ∧ ∃ d t', t = d :: t' ∧ is_digit d = true)).
Proof.
  destruct z as [|p|p]; simpl.
  - eexists 48%N, r. eauto.
  - destruct (str_N_not_minus (Npos p) r) as (c & l & -> & Hc). eauto.
  - destruct (str_N_not_minus (Npos p) r) as (c & l & -> & Hc). eexists _, _. eauto 10.
Qed.

Lemma scan_scalar_int z r :
  stops r = true → scan_scalar (str_int z ++ r) = Some (JInt z, r).
Proof.
  intros Hr. rewrite <- (scan_number_int z r) by done.
  destruct (str_int_head z r) as (c & t & -> & [Hc|(-> & d & t' & -> & Hd)]).
  - by apply scan_scalar_digit.
  - by apply scan_scalar_minus.
Qed.

(** ** The round trip *)

(** Fuel one value needs. *)
Fixpoint need (j : json) : nat :=
  match j with
  | JArr l => 1 + sum_list_with (fun x => 1 + need x) l
  | JObj l => 1 + sum_list_with (fun kv => 1 + need kv.2) l
  | _ => 1
  end.

(** The first character of a rendered value: no white space, no closing bracket. *)
Definition value_head (s : pystr) : Prop :=
  match s with c :: _ => is_ws c = false ∧ c ≠ 93%N ∧ c ≠ 125%N | [] => False end.

Lemma skip_ws_head s : value_head s → skip_ws s = s.
Proof. destruct s as [|c s]; simpl; [done|]. by intros (-> & _). Qed.

Lemma digit_head c t : is_digit c = true → value_head (c :: t).
Proof.
  intros [?%N.leb_le ?%N.leb_le]%andb_true_iff. simpl. unfold is_ws.
  rewrite !(proj2 (N.eqb_neq _ _)) by lia. repeat split; try done; lia.
Qed.

Lemma dumps_head j r : wf_json j → value_head (dumps j ++ r).
Proof.
  destruct 1 as [|[]|z|lit Hl|s|l|l]; simpl; try (repeat split; done).
  - destruct (str_int_head z r) as (c & t & -> & [Hc|(-> & _)]); [by apply digit_head|done].
  - destruct (Hl (u "}")) as [_ Hh]; [done|]. destruct lit as [|c lit]; [done|].
    simpl. split; [by apply Hh|]. split; [by apply Hh|].
    intros ->. destruct (Hl []) as [Hs _]; [done|]. by vm_compute in Hs.
Qed.

Lemma join_cons sep x (y : pystr) l : py_join sep (x :: y :: l) = x ++ sep ++ py_join sep (y :: l).
Proof. done. Qed.

Lemma join_head sep x l r :
  (∀ t, value_head (x ++ t)) → value_head (py_join sep (x :: l) ++ r).
Proof. intros H. destruct l; simpl; [apply H|]. rewrite <- (assoc_L (++)). apply H. Qed.

Definition parses (j : json) : Prop :=
  ∀ f r, (need j <= f)%nat → stops r = true → scan_once f (dumps j ++ r) = Some (j, r).

Lemma skip_ws_space s : skip_ws (32%N :: s) = skip_ws s.
Proof. done. Qed.

Lemma skip_ws_comma s : skip_ws ([44%N; 32%N] ++ s) = 44%N :: 32%N :: s.
Proof. done. Qed.

Lemma skip_ws_colon s : skip_ws ([58%N; 32%N] ++ s) = 58%N :: 32%N :: s.
Proof. done. Qed.

Lemma scan_elements_ok l f r :
  l ≠ [] → Forall wf_json l → Forall parses l →
  (sum_list_with (fun x => 1 + need x) l <= f)%nat →
  scan_elements f (py_join (u ", ") (map dumps l) ++ 93%N :: r) = Some (l, r).
Proof.
  change (u ", ") with [44%N; 32%N].
  intros Hne Hwf Hp. revert f. induction l as [|x l IH]; [done|]. intros f Hf.
  apply Forall_cons in Hwf as [Hx Hl], Hp as [Hpx Hpl]. simpl in Hf.
  destruct f as [|f]; [lia|]. destruct l as [|y l].
  - cbn [map py_join scan_elements]. rewrite Hpx by (simpl in *; done || lia). done.
  - specialize (IH ltac:(done) Hl Hpl f ltac:(simpl in *; lia)).
    cbn [map] in IH |- *. rewrite join_cons, <- !(assoc_L (++)). cbn [scan_elements].
    rewrite Hpx by (done || (simpl in *; lia)).
    assert (value_head (py_join [44%N; 32%N] (dumps y :: map dumps l) ++ 93%N :: r)) as Hh.
    { apply Forall_cons in Hl as [Hy _]. apply join_head; intros; by apply dumps_head. }
    apply skip_ws_head in Hh.
    set (t := py_join [44%N; 32%N] (dumps y :: map dumps l) ++ 93%N :: r) in *.
    cbn [mbind option_bind]. rewrite skip_ws_comma. change (44 =? 44)%N with true. cbv iota.
    by rewrite skip_ws_space, Hh, IH.
Qed.

Lemma scan_members_ok l f r :
  l ≠ [] → Forall (λ kv, wf_str kv.1 = true ∧ wf_json kv.2) l → Forall (λ kv, parses kv.2) l →
  (sum_list_with (fun kv => 1 + need kv.2) l <= f)%nat →
  scan_members f (py_join (u ", ") (map (fun kv => dumps_str kv.1 ++ u ": " ++ dumps kv.2) l)
                  ++ 125%N :: r) = Some (l, r).
Proof.
  change (u ", ") with [44%N; 32%N]. change (u ": ") with [58%N; 32%N].
  intros Hne Hwf Hp. revert f. induction l as [|[k x] l IH]; [done|]. intros f Hf.
  apply Forall_cons in Hwf as [[Hk Hx] Hl], Hp as [Hpx Hpl]. simpl in Hk, Hx, Hpx.
  cbn [sum_list_with snd] in Hf. destruct f as [|f]; [lia|].
  assert (∀ t, stops t = true →
    scan_members (S f) ((dumps_str k ++ [58%N; 32%N] ++ dumps x) ++ t) =
    match skip_ws t with
    | d :: r4 => if N.eqb d 44 then
                   '(m, t) ← scan_members f (skip_ws r4); Some ((k, x) :: m, t)
                 else if N.eqb d 125 then Some ([(k, x)], r4) else None
    | [] => None
    end) as Hstep.
  { intros t Ht. unfold dumps_str. cbn [app scan_members].
    change (34 =? 34)%N with true. cbv iota.
    rewrite <- !(assoc_L (++)). cbn [app]. rewrite scan_dumps_str by done.
    cbn [mbind option_bind]. change (skip_ws (58%N :: ?z)) with (58%N :: z).
    cbn [skip_ws]. change (is_ws 58) with false. cbv iota.
    change (58 =? 58)%N with true. cbv iota.
    change (is_ws 32) with true. cbv iota. rewrite (skip_ws_head (dumps x ++ t)) by (by apply dumps_head).
    by rewrite Hpx by (done || lia). }
  destruct l as [|[k2 y] l].
  - cbn [map py_join fst snd]. by rewrite Hstep.
  - specialize (IH ltac:(done) Hl Hpl f ltac:(cbn [sum_list_with snd] in *; lia)).
    cbn [map fst snd] in IH |- *. rewrite join_cons, <- (assoc_L (++)), Hstep by done.
    rewrite <- (assoc_L (++) [44%N; 32%N]).
    set (t := py_join _ _ ++ 125%N :: r) in *.
    assert (skip_ws t = t) as Hh by (apply skip_ws_head, join_head; intros; done).
    rewrite skip_ws_comma. change (44 =? 44)%N with true. cbv iota.
    by rewrite skip_ws_space, Hh, IH.
Qed.

Lemma scan_word_app w v s : scan_word w v (w ++ s) = Some (v, s).
Proof.
  unfold scan_word. assert (starts_with w (w ++ s) = true) as ->.
  { induction w; simpl; [done|]. by rewrite N.eqb_refl. }
  by rewrite drop_app_length.
Qed.

Lemma parses_wf j : wf_json j → parses j.
Proof.
  induction j as [|b|z|lit|s|l IH|l IH] using json_nested_ind; intros Hwf f r Hf Hr;
    (destruct f as [|f]; [simpl in Hf; lia|]); inversion Hwf; subst.
  - done.
  - by destruct b.
  - rewrite <- (scan_scalar_int z r) by done. cbn [dumps].
    destruct (str_int_head z r) as (c & t & -> & Hc).
    assert (c ≠ 34%N ∧ c ≠ 123%N ∧ c ≠ 91%N) as (H1 & H2 & H3).
    { destruct Hc as [[?%N.leb_le ?%N.leb_le]%andb_true_iff|[-> _]]; repeat split; lia. }
    cbn [scan_once]. by rewrite !(proj2 (N.eqb_neq _ _)) by done.
  - cbn [dumps]. destruct (H0 r Hr) as [Hs Hh]. destruct lit as [|c lit]; [done|].
    destruct Hh as (? & ? & ? & _). rewrite <- Hs. cbn [app scan_once].
    by rewrite !(proj2 (N.eqb_neq _ _)) by done.
  - cbn [dumps]. unfold dumps_str. cbn [app scan_once]. change (34 =? 34)%N with true. cbv iota.
    rewrite <- (assoc_L (++)). cbn [app]. by rewrite scan_dumps_str.
  - destruct l as [|x l]; [done|].
    assert (Forall parses (x :: l)) as Hp.
    { rewrite Forall_forall in IH, H0 |- *. eauto. }
    cbn [dumps]. change (u "[") with [91%N]. change (u "]") with [93%N].
    rewrite <- !(assoc_L (++)). cbn [app].
    set (t := py_join (u ", ") (map dumps (x :: l)) ++ 93%N :: r).
    assert (value_head t) as Hh.
    { apply Forall_cons in H0 as [Hx _]. apply join_head; intros; by apply dumps_head. }
    assert (scan_elements f t = Some (x :: l, r)) as Hok.
    { apply scan_elements_ok; try done. simpl in *. lia. }
    cbn [scan_once]. change (91 =? 34)%N with false. change (91 =? 123)%N with false.
    change (91 =? 91)%N with true. cbv iota. rewrite (skip_ws_head _ Hh).
    destruct t as [|c t]; [done|]. destruct Hh as (_ & Hc & _).
    rewrite (proj2 (N.eqb_neq c 93)) by done. by rewrite Hok.
  - destruct l as [|[k x] l]; [done|].
    assert (Forall (λ kv, parses kv.2) ((k, x) :: l)) as Hp.
    { rewrite Forall_forall in IH, H1 |- *. intros kv Hkv.
      apply IH; [done|]. by apply (H1 kv). }
    cbn [dumps]. change (u "{") with [123%N]. change (u "}") with [125%N].
    rewrite <- !(assoc_L (++)). cbn [app].
    set (t := py_join (u ", ") (map _ ((k, x) :: l)) ++ 125%N :: r).
    assert (value_head t) as Hh by (apply join_head; intros; done).
    assert (scan_members f t = Some ((k, x) :: l, r)) as Hok.
    { apply scan_members_ok; try done. simpl in *. lia. }
    cbn [scan_once]. change (123 =? 34)%N with false. change (123 =? 123)%N with true.
    cbv iota. rewrite (skip_ws_head _ Hh).
    destruct t as [|c t]; [done|]. destruct Hh as (_ & _ & Hc).
    rewrite (proj2 (N.eqb_neq c 125)) by done. rewrite Hok. cbn [mbind option_bind].
    by rewrite dict_of_pairs_nodup.
Qed.

(** Twice the length of a rendered value is enough fuel. *)
Lemma join_length_ge sep (l : list pystr) :
  (sum_list (length <$> l) + length sep * (length l - 1) = length (py_join sep l))%nat.
Proof.
  induction l as [|x [|y l] IH]; [simpl; lia|simpl; lia|].
  rewrite join_cons, !length_app, <- IH. simpl. lia.
Qed.

Lemma need_bound j : wf_json j → (need j <= 2 * length (dumps j))%nat.
Proof.
  induction j as [|b|z|lit|s|l IH|l IH] using json_nested_ind; intros Hwf.
  all: try (pose proof (dumps_head _ [] Hwf) as Hh; rewrite app_nil_r in Hh;
            destruct (dumps _); [done|]; simpl; lia).
  - inversion Hwf as [| | | | |? Hl|]; subst. cbn [dumps]. rewrite !length_app.
    rewrite <- join_length_ge. cbn [need]. rewrite length_map.
    enough (sum_list_with (λ x, 1 + need x) l
            <= 2 * sum_list (length <$> map dumps l) + length l)%nat
      by (destruct l; simpl in *; lia).
    clear Hwf. induction l as [|x l IHl]; [done|].
    apply Forall_cons in IH as [Hx IH], Hl as [Hwx Hl].
    specialize (IHl IH Hl). specialize (Hx Hwx). cbn [map] in *. rewrite fmap_cons. simpl in *. lia.
  - inversion Hwf as [| | | | | |? Hnd Hl]; subst. cbn [dumps]. rewrite !length_app.
    rewrite <- join_length_ge. cbn [need]. rewrite length_map.
    set (g := λ kv : pystr * json, dumps_str kv.1 ++ u ": " ++ dumps kv.2).
    enough (sum_list_with (λ kv, 1 + need kv.2) l
            <= 2 * sum_list (length <$> map g l) + length l)%nat
      by (destruct l; simpl in *; lia).
    clear Hwf Hnd. induction l as [|x l IHl]; [done|].
    apply Forall_cons in IH as [Hx IH], Hl as [[_ Hwx] Hl].
    specialize (IHl IH Hl). specialize (Hx Hwx). cbn [map] in *. rewrite fmap_cons.
    cbn [sum_list_with sum_list foldr] in *. unfold g at 1. rewrite !length_app.
    cbn [foldr sum_list] in *. unfold id at 1. change (length (x :: l)) with (S (length l)).
    clearbody g. lia.
Qed.

(** [json.loads(json.dumps(v)) == v]. *)
Lemma loads_dumps j : wf_json j → loads (dumps j) = Some j.
Proof.
  intros Hwf. unfold loads. pose proof (dumps_head _ [] Hwf) as Hh.
  rewrite app_nil_r in Hh. rewrite (skip_ws_head _ Hh).
  rewrite <- (app_nil_r (dumps j)) at 2.
  rewrite (parses_wf j Hwf); [done|by apply need_bound|done].
Qed.

(** Rendered JSON is ASCII when float literals are. *)
Fixpoint ascii_floats (j : json) : bool :=
  match j with
  | JFloat lit => is_ascii lit
  | JArr l => forallb ascii_floats l
  | JObj l => forallb (fun kv => ascii_floats kv.2) l
  | _ => true
  end.

Lemma u_escape_ascii c : (c < 65536)%N → is_ascii (u_escape c) = true.
Proof. intros Hc. unfold u_escape. simpl. by apply hex4_ascii. Qed.

Lemma esc_ascii c : wf_char c = true → is_ascii (esc c) = true.
Proof.
  intros Hw. unfold wf_char in Hw.
  apply orb_true_iff in Hw. rewrite andb_true_iff, !N.ltb_lt, N.leb_le in Hw.
  unfold esc. neqb c 34%N. neqb c 92%N. neqb c 10%N. neqb c 13%N. neqb c 9%N. neqb c 12%N.
  neqb c 8%N. destruct ((32 <=? c)%N && (c <=? 126)%N) eqn:Hp.
  - apply andb_true_iff in Hp as [_ Hp]. apply N.leb_le in Hp. simpl.
    by rewrite (proj2 (N.ltb_lt c 128)) by lia.
  - destruct (N.ltb_spec c 65536) as [Hc|Hc]; [by apply u_escape_ascii|].
    divmod (c - 65536)%N 1024%N. rewrite is_ascii_app, !u_escape_ascii by lia. done.
Qed.

Lemma dumps_str_ascii s : wf_str s = true → is_ascii (dumps_str s) = true.
Proof.
  intros Hs. unfold dumps_str. simpl. rewrite is_ascii_app, andb_true_r.
  induction s as [|c s IH]; [done|]. apply andb_true_iff in Hs as [Hc Hs].
  rewrite fmap_cons. cbn [List.concat]. by rewrite is_ascii_app, esc_ascii, IH.
Qed.

Lemma join_ascii sep l :
  is_ascii sep = true → Forall (λ w, is_ascii w = true) l → is_ascii (py_join sep l) = true.
Proof.
  intros Hsep. induction 1 as [|w [|w' l] Hw Hl IH]; [done|done|].
  by rewrite join_cons, !is_ascii_app, Hw, Hsep, IH.
Qed.

Lemma str_N_ascii n : is_ascii (str_N n) = true.
Proof.
  apply forallb_forall. intros c Hc%list_elem_of_In.
  pose proof (str_N_digits n) as Hd. rewrite Forall_forall in Hd. specialize (Hd c Hc).
  apply andb_true_iff in Hd as [_ Hd%N.leb_le]. apply N.ltb_lt. lia.
Qed.

Lemma dumps_ascii j : wf_json j → ascii_floats j = true → is_ascii (dumps j) = true.
Proof.
  induction j as [|b|z|lit|s|l IH|l IH] using json_nested_ind; intros Hwf Hf; cbn [dumps].
  - done.
  - by destruct b.
  - destruct z; simpl; by rewrite ?str_N_ascii.
  - done.
  - inversion Hwf; subst. by apply dumps_str_ascii.
  - inversion Hwf as [| | | | |? Hl|]; subst. rewrite !is_ascii_app. simpl.
    rewrite andb_true_r. apply join_ascii; [done|]. apply Forall_map.
    cbn [ascii_floats] in Hf. rewrite forallb_forall in Hf. rewrite Forall_forall in *.
    intros x Hx. apply IH; [done|by apply Hl|]. by apply Hf, list_elem_of_In.
  - inversion Hwf as [| | | | | |? _ Hl]; subst. rewrite !is_ascii_app.
    change (is_ascii (u "{")) with true. change (is_ascii (u "}")) with true.
    rewrite andb_true_r. apply join_ascii; [done|]. apply Forall_map.
    rewrite Forall_forall in *. intros x Hx. destruct (Hl x Hx) as [Hk Hx2].
    cbn [ascii_floats] in Hf. rewrite forallb_forall in Hf.
    rewrite !is_ascii_app, dumps_str_ascii by done. change (is_ascii (u ": ")) with true.
    apply IH; [done|done|]. by apply Hf, list_elem_of_In.
Qed.
