(* ===== verification/Errors.v ===== *)
(** * Exceptions

    The exceptions of [relayq/domain/errors.py] and [relayq/worker/admission.py],
    with the built-in, [sqlite3], [redis] and FastAPI exceptions the source
    raises or catches.  [exn_str] is [str(exc)], [exn_name] is
    [type(exc).__name__], and the [is_...] predicates are the [except] clauses. *)

From Stdlib Require Import String QArith.
From S2P Require Import Prelude PyStr Json.
Open Scope list_scope.

Inductive redis_exn : Type :=
| RResponseError | RConnectionError | RTimeoutError | RDataError.

Inductive exn : Type :=
(* relayq/domain/errors.py *)
| QueueFull (queue : json) (depth max_depth : Z)
| JobTimeout (job_id : json) (timeout_seconds : Q)
| CircuitOpen (name : pystr) (failure_ratio : Q)
| IdempotencyConflict (idempotency_key : pystr)
(* relayq/worker/admission.py *)
| AdmissionBlocked (queue reason : pystr)
(* built-in *)
| KeyError (k : pystr)
| TypeError (msg : pystr)
| ValueError (msg : pystr)
| AttributeError (msg : pystr)
| OverflowError (msg : pystr)
| JSONDecodeError
| UnicodeDecodeError
| TimeoutError
| CancelledError
(* sqlite3 *)
| OperationalError (msg : pystr)
| ProgrammingError (msg : pystr)
| IntegrityError (msg : pystr)
(* redis.exceptions *)
| RedisExn (c : redis_exn) (msg : pystr)
(* fastapi *)
| HTTPException (status : Z) (detail : json) (headers : list (pystr * pystr))
(* any other class, raised by a job handler; [base] when not an Exception *)
| UserExn (cls msg : pystr) (base : bool).

(** Computations of the program: over a state [S], raising [exn]. *)
Abbreviation M S A := (ST exn S A).

Definition exn_name (e : exn) : pystr :=
  match e with
  | QueueFull _ _ _ => u "QueueFull"
  | JobTimeout _ _ => u "JobTimeout"
  | CircuitOpen _ _ => u "CircuitOpen"
  | IdempotencyConflict _ => u "IdempotencyConflict"
  | AdmissionBlocked _ _ => u "AdmissionBlocked"
  | KeyError _ => u "KeyError"
  | TypeError _ => u "TypeError"
  | ValueError _ => u "ValueError"
  | AttributeError _ => u "AttributeError"
  | OverflowError _ => u "OverflowError"
  | JSONDecodeError => u "JSONDecodeError"
  | UnicodeDecodeError => u "UnicodeDecodeError"
  | TimeoutError => u "TimeoutError"
  | CancelledError => u "CancelledError"
  | OperationalError _ => u "OperationalError"
  | ProgrammingError _ => u "ProgrammingError"
  | IntegrityError _ => u "IntegrityError"
  | RedisExn RResponseError _ => u "ResponseError"
  | RedisExn RConnectionError _ => u "ConnectionError"
  | RedisExn RTimeoutError _ => u "TimeoutError"
  | RedisExn RDataError _ => u "DataError"
  | HTTPException _ _ _ => u "HTTPException"
  | UserExn cls _ _ => cls
  end.

(** [AdmissionBlocked.__init__] *)
Definition admission_blocked_str (queue reason : pystr) : pystr :=
  u "Admission blocked for queue '" ++ queue ++ u "': " ++ reason.

(** The messages [__init__] passes to [super().__init__].  The errors asyncio raises
    have none; those of the program's own decoding have one that nothing reads and
    that is left out (a decoding error of a handler, whose text becomes a failure
    reason, is a [UserExn], with its message). *)
Definition exn_str (e : exn) : pystr :=
  match e with
  | QueueFull queue depth max_depth =>
      u "queue '" ++ py_str queue ++ u "' at capacity " ++ str_int depth ++ u "/" ++ str_int max_depth
  | JobTimeout job_id t =>
      u "job '" ++ py_str job_id ++ u "' timed out after " ++ float_str t ++ u "s"
  | CircuitOpen name r =>
      u "circuit breaker open for '" ++ name ++ u "' (failure ratio " ++ float_2f r ++ u ")"
  | IdempotencyConflict k => u "idempotency key '" ++ k ++ u "' already exists"
  | AdmissionBlocked queue reason => admission_blocked_str queue reason
  | KeyError k => repr_str k
  | TypeError msg | ValueError msg | AttributeError msg | OverflowError msg
  | OperationalError msg | ProgrammingError msg | IntegrityError msg | RedisExn _ msg => msg
  | JSONDecodeError | UnicodeDecodeError | TimeoutError | CancelledError => []
  | HTTPException status detail _ => str_int status ++ u ": " ++ py_str detail
  | UserExn _ msg _ => msg
  end.

(** [f"{type(exc).__name__}: {exc}"] *)
Definition failure_reason (e : exn) : pystr := exn_name e ++ u ": " ++ exn_str e.

(** [except Exception]: everything but the [BaseException]s of asyncio and users. *)
Definition is_Exception (e : exn) : bool :=
  match e with
  | CancelledError => false
  | UserExn _ _ base => negb base
  | _ => true
  end.

(** [except (json.JSONDecodeError, KeyError)] *)
Definition is_JSONDecodeError_or_KeyError (e : exn) : bool :=
  match e with JSONDecodeError | KeyError _ => true | _ => false end.

(** [except redis.ResponseError] *)
Definition is_ResponseError (e : exn) : bool :=
  match e with RedisExn RResponseError _ => true | _ => false end.

(** [except asyncio.TimeoutError] (the built-in [TimeoutError]). *)
Definition is_TimeoutError (e : exn) : bool :=
  match e with TimeoutError => true | _ => false end.

Definition is_AdmissionBlocked (e : exn) : bool :=
  match e with AdmissionBlocked _ _ => true | _ => false end.

(** [try: m  except Exception: h] *)
Definition except_Exception {S A} (m : M S A) (h : exn → M S A) : M S A :=
  try_except m (fun e => if is_Exception e then Some (h e) else None).

Lemma except_Exception_ok {S A} (m : M S A) h s a s' :
  m s = (Ok a, s') → except_Exception m h s = (Ok a, s').
Proof. intros H. unfold except_Exception, try_except. by rewrite H. Qed.

Lemma except_Exception_caught {S A} (m : M S A) h s e s' :
  m s = (Raise e, s') → is_Exception e = true → except_Exception m h s = h e s'.
Proof. intros H He. unfold except_Exception, try_except. by rewrite H, He. Qed.

(** A computation whose [Exception]s are swallowed can only raise a [BaseException]. *)
Lemma except_Exception_quiet {S A} (m : M S A) (a : A) s :
  let r := except_Exception m (fun _ => mret a) s in
  match r.1 with Ok _ => True | Raise e => is_Exception e = false end.
Proof.
  unfold except_Exception, try_except. destruct (m s) as [[x|e] s'] eqn:E; simpl; [done|].
  by destruct (is_Exception e) eqn:He.
Qed.

Lemma preserves_except_Exception {S A} (R : S → S → Prop) `{!Reflexive R, !Transitive R}
    (m : M S A) h :
  preserves R m → (∀ e, preserves R (h e)) → preserves R (except_Exception m h).
Proof.
  intros Hm Hh. apply preserves_try; [apply _|done|].
  intros e k. by destruct (is_Exception e); intros [= <-].
Qed.

#[export] Hint Resolve preserves_except_Exception : relayq.
