(* ===== verification/Coroutine.v ===== *)
(** * Coroutines

    An [async def] body as a tree: code that runs without giving up the event
    loop ([CoSync]), and an [await] of a command ([CoAwait]), each followed by
    what the body does with the result or the exception.  [co_run] runs a body
    with nothing in between; [settle] runs it to its next [await].  Several
    coroutines interleave by taking turns (see [Runner] and [System]).

    [obeys] is a safety predicate on bodies: it follows a body through its phases
    and says what each of its commands may do to the state. *)

From S2P Require Import Prelude Json Errors.
Open Scope list_scope.

Section Coroutine.
Context {S : Type}.

Inductive coroutine (A : Type) : Type :=
| CoRet (r : result exn A)
| CoSync {X : Type} (m : M S X) (k : result exn X → coroutine A)
| CoAwait {X : Type} (m : M S X) (k : result exn X → coroutine A).
#[global] Arguments CoRet {A} r.
#[global] Arguments CoSync {A X} m k.
#[global] Arguments CoAwait {A X} m k.

(** What follows a body, whether it returns or raises. *)
Fixpoint co_then {A B} (t : coroutine A) (f : result exn A → coroutine B) : coroutine B :=
  match t with
  | CoRet r => f r
  | CoSync m k => CoSync m (λ r, co_then (k r) f)
  | CoAwait m k => CoAwait m (λ r, co_then (k r) f)
  end.

#[global] Instance co_mret : MRet coroutine := λ A a, CoRet (Ok a).
#[global] Instance co_mbind : MBind coroutine := λ A B f t,
  co_then t (λ r, match r with Ok a => f a | Raise e => CoRet (Raise e) end).

Definition co_throw {A} (e : exn) : coroutine A := CoRet (Raise e).
(** A call that is not awaited, and one that is. *)
Definition co_sync {A} (m : M S A) : coroutine A := CoSync m CoRet.
Definition co_await {A} (m : M S A) : coroutine A := CoAwait m CoRet.

(** [try: t  except Exception as e: h e] *)
Definition co_except_Exception {A} (t : coroutine A) (h : exn → coroutine A) : coroutine A :=
  co_then t (λ r, match r with
                  | Ok a => CoRet (Ok a)
                  | Raise e => if is_Exception e then h e else CoRet (Raise e)
                  end).

(** A value, or the exception its evaluation raises. *)
Definition co_lift {A} (r : result exn A) : coroutine A := CoRet r.
(** [try: t  except <the exceptions h accepts> as e: h e] *)
Definition co_try_except {A} (t : coroutine A) (h : exn → option (coroutine A)) : coroutine A :=
  co_then t (λ r, match r with
                  | Ok a => CoRet (Ok a)
                  | Raise e => match h e with Some k => k | None => CoRet (Raise e) end
                  end).

(** ** Running *)

Fixpoint co_run {A} (t : coroutine A) : M S A := λ s,
  match t with
  | CoRet r => (r, s)
  | CoSync m k | CoAwait m k => let '(r, s') := m s in co_run (k r) s'
  end.

(** Up to the next [await], or to the end. *)
Fixpoint settle {A} (t : coroutine A) (s : S) : coroutine A * S :=
  match t with
  | CoSync m k => let '(r, s') := m s in settle (k r) s'
  | _ => (t, s)
  end.

(** A body whose command has taken effect and that will get [r] for it. *)
Definition woken {A X} (r : result exn X) (k : result exn X → coroutine A) : coroutine A :=
  CoSync (λ s, (r, s)) k.

Lemma co_run_then {A B} (t : coroutine A) (f : result exn A → coroutine B) s :
  co_run (co_then t f) s = let '(r, s') := co_run t s in co_run (f r) s'.
Proof.
  revert s. induction t as [r|X m k IH|X m k IH]; intros s; simpl; [done|..];
    destruct (m s) as [r s']; apply IH.
Qed.

Lemma co_run_bind {A B} (t : coroutine A) (f : A → coroutine B) s :
  co_run (t ≫= f) s = (co_run t ≫= λ a, co_run (f a)) s.
Proof.
  unfold mbind, co_mbind, st_mbind. rewrite co_run_then. by destruct (co_run t s) as [[a|e] s'].
Qed.

Lemma co_run_sync {A} (m : M S A) s : co_run (co_sync m) s = m s.
Proof. simpl. by destruct (m s). Qed.
Lemma co_run_await {A} (m : M S A) s : co_run (co_await m) s = m s.
Proof. simpl. by destruct (m s). Qed.

Lemma co_run_except {A} (t : coroutine A) h s :
  co_run (co_except_Exception t h) s = except_Exception (co_run t) (λ e, co_run (h e)) s.
Proof.
  unfold co_except_Exception, except_Exception, try_except. rewrite co_run_then.
  destruct (co_run t s) as [[a|e] s']; [done|]. by destruct (is_Exception e).
Qed.

Lemma co_run_try {A} (t : coroutine A) h s :
  co_run (co_try_except t h) s = try_except (co_run t) (λ e, co_run <$> h e) s.
Proof.
  unfold co_try_except, try_except. rewrite co_run_then.
  destruct (co_run t s) as [[a|e] s']; [done|]. by destruct (h e).
Qed.

(** The command it waits for takes effect. *)
Definition take_effect {A} (t : coroutine A) (s : S) : option (coroutine A * S) :=
  match t with
  | CoAwait m k => let '(r, s') := m s in Some (woken r k, s')
  | _ => None
  end.

Lemma settle_then {A B} (t : coroutine A) (f : result exn A → coroutine B) s :
  settle (co_then t f) s =
  match settle t s with
  | (CoRet r, s') => settle (f r) s'
  | (t', s') => (co_then t' f, s')
  end.
Proof.
  revert s. induction t as [r|X m k IH|X m k IH]; intros s; cbn [co_then settle]; [done| |done].
  destruct (m s) as [r s']. apply IH.
Qed.

Lemma settle_run {A} (t : coroutine A) s :
  co_run t s = let '(t', s') := settle t s in co_run t' s'.
Proof.
  revert s. induction t as [r|X m k IH|X m k IH]; intros s; simpl; try done.
  destruct (m s) as [r s']. apply IH.
Qed.

(** What a settled body is. *)
Lemma settle_rest {A} (t : coroutine A) s t' s' :
  settle t s = (t', s') → match t' with CoSync _ _ => False | _ => True end.
Proof.
  revert s. induction t as [r|X m k IH|X m k IH]; intros s; simpl; try (by intros [= <- <-]).
  destruct (m s) as [r s1]. apply IH.
Qed.

(** Pointwise equal computations are interchangeable. *)
Lemma st_bind_ext {A B} (m m' : M S A) (k k' : A → M S B) s :
  m s = m' s → (∀ a s', k a s' = k' a s') → (m ≫= k) s = (m' ≫= k') s.
Proof. intros Hm Hk. unfold mbind, st_mbind. rewrite Hm. by destruct (m' s) as [[a|e] s']. Qed.

Lemma st_bind_assoc {A B C} (m : M S A) (k : A → M S B) (k' : B → M S C) s :
  ((m ≫= k) ≫= k') s = (m ≫= λ a, k a ≫= k') s.
Proof. unfold mbind, st_mbind. by destruct (m s) as [[a|e] s']. Qed.

Lemma try_ext {A} (m m' : M S A) h h' s :
  m s = m' s → (∀ e, match h e, h' e with
                     | Some k, Some k' => ∀ s', k s' = k' s'
                     | None, None => True
                     | _, _ => False
                     end) → try_except m h s = try_except m' h' s.
Proof.
  intros Hm Hh. unfold try_except. rewrite Hm. destruct (m' s) as [[a|e] s']; [done|].
  specialize (Hh e). destruct (h e), (h' e); try done.
Qed.

Lemma except_ext {A} (m m' : M S A) h h' s :
  m s = m' s → (∀ e s', h e s' = h' e s') → except_Exception m h s = except_Exception m' h' s.
Proof.
  intros Hm Hh. unfold except_Exception, try_except. rewrite Hm.
  destruct (m' s) as [[a|e] s']; [done|]. by destruct (is_Exception e).
Qed.

(** ** Cuts *)

(** The states a body run on its own goes through, the first and the last included:
    what is left when its process dies before, between or after its calls. *)
Fixpoint co_cuts {A} (t : coroutine A) (s : S) : list S :=
  s :: match t with
       | CoRet _ => []
       | CoSync m k | CoAwait m k => let '(r, s') := m s in co_cuts (k r) s'
       end.

Lemma co_cuts_last {A} (t : coroutine A) s : (co_run t s).2 ∈ co_cuts t s.
Proof.
  revert s. induction t as [r|X m k IH|X m k IH]; intros s; cbn [co_run co_cuts]; [by left|..];
    destruct (m s) as [r s']; right; apply IH.
Qed.

Lemma cuts_bind {A B} (Q : S → Prop) (t : coroutine A) (f : A → coroutine B) s :
  Forall Q (co_cuts t s) → (∀ a s', co_run t s = (Ok a, s') → Forall Q (co_cuts (f a) s')) →
  Forall Q (co_cuts (t ≫= f) s).
Proof.
  unfold mbind, co_mbind. revert s. induction t as [r|X m k IH|X m k IH]; intros s Ht Hf.
  - cbn. destruct r as [a|e]; [by apply Hf|exact Ht].
  - cbn [co_then co_cuts co_run] in *. apply Forall_cons in Ht as [Hs Ht].
    apply Forall_cons. split; [done|]. destruct (m s) as [r s']. by apply IH.
  - cbn [co_then co_cuts co_run] in *. apply Forall_cons in Ht as [Hs Ht].
    apply Forall_cons. split; [done|]. destruct (m s) as [r s']. by apply IH.
Qed.

(** One call. *)
Lemma cuts_call {A} (Q : S → Prop) (m : M S A) s :
  Q s → Q (m s).2 → Forall Q (co_cuts (co_sync m) s) ∧ Forall Q (co_cuts (co_await m) s).
Proof. intros H1 H2. cbn. destruct (m s) as [r s']. split; by repeat constructor. Qed.

(** ** Length *)

(** At most [n] turns of the event loop: an [await] takes two (its command takes
    effect, then the body goes on), other code one. *)
Fixpoint turns_le {A} (t : coroutine A) (n : nat) : Prop :=
  match t with
  | CoRet _ => True
  | CoSync m k => match n with Datatypes.S n' => ∀ r, turns_le (k r) n' | _ => False end
  | CoAwait m k => match n with Datatypes.S (Datatypes.S n') => ∀ r, turns_le (k r) n' | _ => False end
  end.

Lemma turns_le_mono {A} (t : coroutine A) n m : turns_le t n → n ≤ m → turns_le t m.
Proof.
  revert n m. induction t as [r|X q k IH|X q k IH]; intros n m; simpl; [done|..].
  - destruct n as [|n], m as [|m]; try done; [lia|]. intros Hk Hle r. apply (IH r n); [done|lia].
  - destruct n as [|[|n]], m as [|[|m]]; try done; try lia. intros Hk Hle r. apply (IH r n); [done|lia].
Qed.

Lemma turns_le_then {A B} (t : coroutine A) (f : result exn A → coroutine B) n m :
  turns_le t n → (∀ r, turns_le (f r) m) → turns_le (co_then t f) (n + m).
Proof.
  intros Ht Hf. revert n Ht. induction t as [r|X q k IH|X q k IH]; intros n; simpl.
  - intros _. eapply turns_le_mono; [apply Hf|lia].
  - destruct n as [|n]; [done|]. intros Hk r. by apply IH.
  - destruct n as [|[|n]]; try done. intros Hk r. by apply IH.
Qed.

Lemma turns_le_bind {A B} (t : coroutine A) (f : A → coroutine B) n m :
  turns_le t n → (∀ a, turns_le (f a) m) → turns_le (t ≫= f) (n + m).
Proof. intros Ht Hf. apply turns_le_then; [done|]. by intros [a|e]; [apply Hf|]. Qed.

Lemma turns_le_settle {A} (t : coroutine A) n s :
  turns_le t n → turns_le (settle t s).1 n.
Proof.
  revert n s. induction t as [r|X m k IH|X m k IH]; intros n s; simpl; try done.
  destruct n as [|n]; [done|]. intros Hk. destruct (m s) as [r s'].
  eapply turns_le_mono; [apply IH, Hk|lia].
Qed.

(** ** Outcomes *)

(** Whatever happens meanwhile, cancellation included, the body ends with [Q]. *)
Fixpoint leaves {A} (Q : result exn A → Prop) (t : coroutine A) : Prop :=
  match t with
  | CoRet r => Q r
  | CoSync m k | CoAwait m k => ∀ r, leaves Q (k r)
  end.

Lemma leaves_then {A B} (Q : result exn B → Prop) (t : coroutine A) f :
  (∀ r, leaves Q (f r)) → leaves Q (co_then t f).
Proof. intros Hf. induction t as [r|X m k IH|X m k IH]; simpl; [apply Hf|by intros r..]. Qed.

Lemma leaves_settle {A} (Q : result exn A → Prop) (t : coroutine A) s :
  leaves Q t → leaves Q (settle t s).1.
Proof.
  revert s. induction t as [r|X m k IH|X m k IH]; intros s; simpl; try done.
  intros Hk. destruct (m s) as [r s']. by apply IH.
Qed.

(** Only a [BaseException] leaves an [except Exception] whose handler returns. *)
Definition raises_no_Exception {A} (r : result exn A) : Prop :=
  match r with Ok _ => True | Raise e => is_Exception e = false end.

Lemma leaves_except {A} (t : coroutine A) (a : A) :
  leaves raises_no_Exception (co_except_Exception t (λ _, mret a)).
Proof.
  apply leaves_then. intros [b|e]; [done|]. destruct (is_Exception e) eqn:He; [done|exact He].
Qed.

(** ** Safety along the phases of a body *)

Section Obeys.
Context {Ph : Type}.
Variable sync_ok : S → S → Prop.
Context `{!Reflexive sync_ok, !Transitive sync_ok}.
Variable await_ok : Ph → ∀ X : Type, M S X → S → result exn X → S → Ph → Prop.

(** A cancelled body gets a CancelledError instead of the result. *)
Fixpoint obeys {A} (p : Ph) (t : coroutine A) : Prop :=
  match t with
  | CoRet _ => True
  | CoSync m k =>
      (∀ s r s', m s = (r, s') → sync_ok s s' ∧ obeys p (k r)) ∧ obeys p (k (Raise CancelledError))
  | CoAwait m k =>
      (∀ s r s', m s = (r, s') →
         ∃ p', await_ok p _ m s r s' p' ∧ obeys p' (k r) ∧ obeys p' (k (Raise CancelledError))) ∧
      obeys p (k (Raise CancelledError))
  end.

Lemma obeys_settle {A} p (t : coroutine A) s t' s' :
  obeys p t → settle t s = (t', s') → sync_ok s s' ∧ obeys p t'.
Proof.
  revert s. induction t as [r|X m k IH|X m k IH]; intros s; simpl.
  - by intros _ [= <- <-].
  - intros [Hm _]. destruct (m s) as [r s1] eqn:H. destruct (Hm _ _ _ H) as [H1 H2].
    intros Hs. destruct (IH r s1 H2 Hs) as [H3 H4]. split; [by etrans|done].
  - by intros H [= <- <-].
Qed.

Lemma obeys_woken {A X} p (r : result exn X) (k : result exn X → coroutine A) :
  obeys p (k r) → obeys p (k (Raise CancelledError)) → obeys p (woken r k).
Proof. intros H1 H2. split; [|done]. intros s r' s' [= <- <-]. by split. Qed.

Lemma obeys_sync {A B} p (m : M S A) (f : A → coroutine B) :
  preserves sync_ok m → (∀ a, obeys p (f a)) → obeys p (co_sync m ≫= f).
Proof.
  intros Hm Hf. split; [|done]. intros s r s' H. specialize (Hm s). rewrite H in Hm. split; [done|].
  by destruct r; [apply Hf|].
Qed.

End Obeys.
End Coroutine.
#[global] Arguments coroutine : clear implicits.

(** ** On a part of the state *)

Section Zoom.
Context {S T : Type} (proj : T → S) (upd : S → T → T).

Fixpoint co_zoom {A} (t : coroutine S A) : coroutine T A :=
  match t with
  | CoRet r => CoRet r
  | CoSync m k => CoSync (zoom proj upd m) (λ r, co_zoom (k r))
  | CoAwait m k => CoAwait (zoom proj upd m) (λ r, co_zoom (k r))
  end.

Hypothesis proj_upd : ∀ s t, proj (upd s t) = s.
Hypothesis upd_upd : ∀ s s' t, upd s (upd s' t) = upd s t.
Hypothesis upd_proj : ∀ t, upd (proj t) t = t.

Lemma co_run_zoom {A} (c : coroutine S A) t : co_run (co_zoom c) t = zoom proj upd (co_run c) t.
Proof.
  revert t. induction c as [r|X m k IH|X m k IH]; intros t; unfold zoom; cbn [co_zoom co_run];
    [by rewrite upd_proj|..]; unfold zoom at 1; destruct (m (proj t)) as [r s'];
    rewrite IH; unfold zoom; rewrite proj_upd; destruct (co_run (k r) s') as [r' s''];
    by rewrite upd_upd.
Qed.

Lemma settle_zoom {A} (c : coroutine S A) t :
  settle (co_zoom c) t = let '(c', s') := settle c (proj t) in (co_zoom c', upd s' t).
Proof.
  revert t. induction c as [r|X m k IH|X m k IH]; intros t; cbn [co_zoom settle];
    [by rewrite upd_proj| |by rewrite upd_proj].
  unfold zoom. destruct (m (proj t)) as [r s']. rewrite IH, proj_upd.
  destruct (settle (k r) s') as [c' s'']. by rewrite upd_upd.
Qed.
End Zoom.

(** ** Tactics *)

(** One statement of a body, as a coroutine and as a computation. *)
Ltac co_step :=
  rewrite ?co_run_bind;
  first [apply st_bind_ext; [first [apply co_run_sync | apply co_run_await | idtac]|intros ? ?; cbv beta]
        |rewrite co_run_except; apply except_ext; [|intros ? ?]
        |rewrite co_run_try; apply try_ext; [|intros ?]
        |apply co_run_sync | apply co_run_await | reflexivity].

(** The length of a body, on each of its paths. *)
Ltac count_turns :=
  repeat (simpl; match goal with
          | |- ∀ _, _ => intros ?
          | _ => exact I
          | _ => case_run
          end).
