(* ===== verification/Datetime.v ===== *)
(** * The [datetime] module of the standard library

    [datetime.isoformat] and [datetime.fromisoformat] for the extended ISO 8601
    layout (the one [isoformat] writes, with optional minutes, seconds,
    fraction and offset).  The compact and week-date layouts that
    [fromisoformat] also accepts since Python 3.11 are not modelled: the model
    answers [None] (ValueError) for them.  UTC offsets are whole seconds. *)

From Stdlib Require Import String.
From S2P Require Import Prelude PyStr.
Open Scope list_scope.
Open Scope N_scope.

Record datetime : Type := mkDatetime {
  dt_year : N; dt_month : N; dt_day : N;
  dt_hour : N; dt_minute : N; dt_second : N; dt_microsecond : N;
  dt_utcoffset : option Z   (* seconds; None for a naive datetime *)
}.

Definition is_leap (y : N) : bool :=
  (y mod 4 =? 0) && (negb (y mod 100 =? 0) || (y mod 400 =? 0)).

Definition days_in_month (y m : N) : N :=
  if m =? 2 then (if is_leap y then 29 else 28)
  else if (m =? 4) || (m =? 6) || (m =? 9) || (m =? 11) then 30 else 31.

(** The ranges the constructor enforces. *)
Definition valid_datetime (d : datetime) : bool :=
  (1 <=? dt_year d) && (dt_year d <=? 9999)
  && (1 <=? dt_month d) && (dt_month d <=? 12)
  && (1 <=? dt_day d) && (dt_day d <=? days_in_month (dt_year d) (dt_month d))
  && (dt_hour d <? 24) && (dt_minute d <? 60) && (dt_second d <? 60)
  && (dt_microsecond d <? 1000000)
  && match dt_utcoffset d with Some o => (Z.abs o <? 86400)%Z | None => true end.

(** [HH:MM:SS], the seconds left out when zero in an offset. *)
Definition offset_str (o : Z) : pystr :=
  let a := Z.abs_N o in
  (if (o <? 0)%Z then 45 else 43)
    :: str_pad 2 (a / 3600) ++ 58 :: str_pad 2 ((a / 60) mod 60)
    ++ (if a mod 60 =? 0 then [] else 58 :: str_pad 2 (a mod 60)).

Definition isoformat (d : datetime) : pystr :=
  str_pad 4 (dt_year d) ++ 45 :: str_pad 2 (dt_month d) ++ 45 :: str_pad 2 (dt_day d)
  ++ 84 :: str_pad 2 (dt_hour d) ++ 58 :: str_pad 2 (dt_minute d) ++ 58 :: str_pad 2 (dt_second d)
  ++ (if dt_microsecond d =? 0 then [] else 46 :: str_pad 6 (dt_microsecond d))
  ++ match dt_utcoffset d with Some o => offset_str o | None => [] end.

(** Exactly [k] digits. *)
Fixpoint take_digits (k : nat) (s : pystr) : option (pystr * pystr) :=
  match k, s with
  | O, _ => Some ([], s)
  | S k', c :: s' => if is_digit c then '(d, r) ← take_digits k' s'; Some (c :: d, r) else None
  | S _, [] => None
  end.

Definition parse_digits (k : nat) (s : pystr) : option (N * pystr) :=
  '(d, r) ← take_digits k s; Some (digits_val d, r).

Definition expect (c : N) (s : pystr) : option pystr :=
  match s with x :: r => if x =? c then Some r else None | [] => None end.

(** [:NN], or zero when the text ends or goes on with something else. *)
Definition colon2 (s : pystr) : option (N * pystr) :=
  match s with
  | c :: r => if c =? 58 then parse_digits 2 r else Some (0, s)
  | [] => Some (0, [])
  end.

(** A fraction: the first six digits, scaled to microseconds; more are dropped. *)
Definition parse_fraction (s : pystr) : option (N * pystr) :=
  match s with
  | c :: r =>
      if (c =? 46) || (c =? 44) then
        match span_digits r with
        | ([], _) => None
        | (d, r') => Some (digits_val (take 6 (d ++ replicate 6 48)), r')
        end
      else Some (0, s)
  | [] => Some (0, [])
  end.

Definition parse_offset (s : pystr) : option (option Z) :=
  match s with
  | [] => Some None
  | c :: r =>
      if c =? 90 then match r with [] => Some (Some 0%Z) | _ => None end
      else if (c =? 43) || (c =? 45) then
        '(h, r) ← parse_digits 2 r; '(m, r) ← colon2 r; '(s, r) ← colon2 r;
        match r with
        | [] => let o := Z.of_N (h * 3600 + m * 60 + s) in
                Some (Some (if (c =? 45)%N then - o else o)%Z)
        | _ => None
        end
      else None
  end.

Definition parse_time (s : pystr) : option (N * N * N * N * option Z) :=
  '(h, r) ← parse_digits 2 s; '(m, r) ← colon2 r; '(sec, r) ← colon2 r;
  '(us, r) ← parse_fraction r; o ← parse_offset r; Some (h, m, sec, us, o).

(** [None] is a [ValueError]. *)
Definition fromisoformat (s : pystr) : option datetime :=
  '(y, r) ← parse_digits 4 s; r ← expect 45 r;
  '(mo, r) ← parse_digits 2 r; r ← expect 45 r;
  '(d, r) ← parse_digits 2 r;
  '(h, m, sec, us, o) ← match r with
                        | [] => Some (0, 0, 0, 0, None)
                        | _ :: t => parse_time t
                        end;
  let dt := mkDatetime y mo d h m sec us o in
  if valid_datetime dt then Some dt else None.

(** ** Round trip *)

Lemma take_digits_app d r :
  Forall (λ c, is_digit c = true) d → take_digits (length d) (d ++ r) = Some (d, r).
Proof.
  induction 1 as [|c d Hc Hd IH]; simpl; [done|]. by rewrite Hc, IH.
Qed.

Lemma parse_digits_pad k n r :
  n < 10 ^ N.of_nat k → parse_digits k (str_pad k n ++ r) = Some (n, r).
Proof.
  intros Hn. unfold parse_digits.
  rewrite <- (length_str_pad k n) at 1. rewrite take_digits_app by apply str_pad_digits.
  simpl. by rewrite digits_val_str_pad.
Qed.

Lemma parse_fraction_pad n r :
  n < 1000000 → no_digit_head r → parse_fraction (46 :: str_pad 6 n ++ r) = Some (n, r).
Proof.
  intros Hn Hr. unfold parse_fraction. change ((46 =? 46) || (46 =? 44)) with true.
  cbv iota. rewrite span_digits_app by (apply str_pad_digits || done).
  pose proof (length_str_pad 6 n) as Hlen.
  destruct (str_pad 6 n) as [|c l] eqn:E; [done|]. rewrite <- E.
  rewrite take_app_length' by (rewrite E; done). by rewrite digits_val_str_pad.
Qed.

Lemma parse_offset_str o :
  (Z.abs o < 86400)%Z → parse_offset (offset_str o) = Some (Some o).
Proof.
  intros Ho. unfold offset_str.
  assert (Z.abs_N o < 86400) as Ha by lia.
  assert (Z.of_N (Z.abs_N o) = Z.abs o) as Hz by lia.
  set (a := Z.abs_N o) in *. clearbody a.
  assert (a / 3600 = a / 60 / 60) as -> by (by rewrite N.Div0.div_div).
  divmod a 60. divmod q 60.
  assert (∀ c r', c = 43 ∨ c = 45 →
    parse_offset (c :: str_pad 2 q0 ++ 58 :: r') =
    ('(m, r) ← parse_digits 2 r'; '(s, r) ← colon2 r;
     match r with
     | [] => let o := Z.of_N (q0 * 3600 + m * 60 + s) in
             Some (Some (if (c =? 45)%N then - o else o)%Z)
     | _ => None end)) as Hp.
  { intros c r' Hc. unfold parse_offset.
    rewrite (proj2 (N.eqb_neq c 90)) by lia.
    replace ((c =? 43) || (c =? 45)) with true by (by destruct Hc; subst).
    rewrite parse_digits_pad by lia. done. }
  rewrite Hp by (destruct (o <? 0)%Z; auto). rewrite parse_digits_pad by lia.
  cbn [mbind option_bind].
  assert (colon2 (if r =? 0 then [] else 58 :: str_pad 2 r) = Some (r, [])) as ->.
  { destruct (N.eqb_spec r 0) as [->|]; [done|].
    unfold colon2. change (58 =? 58) with true. cbv iota.
    rewrite <- (app_nil_r (str_pad 2 r)). apply parse_digits_pad. lia. }
  cbn [mbind option_bind]. destruct (Z.ltb_spec o 0); cbn; do 2 f_equal; lia.
Qed.

(** [datetime.fromisoformat(d.isoformat()) == d]. *)
Lemma fromisoformat_isoformat d :
  valid_datetime d = true → fromisoformat (isoformat d) = Some d.
Proof.
  intros Hv. pose proof Hv as H. unfold valid_datetime in H.
  rewrite !andb_true_iff, ?N.leb_le, ?N.ltb_lt in H.
  destruct H as [[[[[[[[[[H1 H2] H3] H4] H5] H6] H7] H8] H9] H10] H11].
  assert (dt_day d < 100) as Hday.
  { eapply N.le_lt_trans; [exact H6|]. unfold days_in_month. repeat case_match; lia. }
  unfold fromisoformat, isoformat.
  rewrite parse_digits_pad by lia. cbn [mbind option_bind expect].
  change (45 =? 45) with true. cbv iota. cbn [mbind option_bind].
  rewrite parse_digits_pad by lia. cbn [mbind option_bind expect].
  change (45 =? 45) with true. cbv iota. cbn [mbind option_bind].
  rewrite parse_digits_pad by lia. cbn [mbind option_bind].
  unfold parse_time. rewrite parse_digits_pad by lia. cbn [mbind option_bind colon2].
  change (58 =? 58) with true. cbv iota.
  rewrite parse_digits_pad by lia. cbn [mbind option_bind colon2].
  change (58 =? 58) with true. cbv iota.
  rewrite parse_digits_pad by lia. cbn [mbind option_bind].
  set (off := match dt_utcoffset d with Some o => offset_str o | None => [] end).
  assert (parse_offset off = Some (dt_utcoffset d) ∧ no_digit_head off ∧
          match off with c :: _ => (c =? 46) || (c =? 44) = false | [] => True end)
    as (Ho1 & Ho2 & Ho3).
  { subst off. destruct (dt_utcoffset d) as [o|]; [|done].
    apply Z.ltb_lt in H11. split; [by apply parse_offset_str|].
    unfold offset_str. by destruct (o <? 0)%Z. }
  assert (parse_fraction ((if dt_microsecond d =? 0 then []
            else 46 :: str_pad 6 (dt_microsecond d)) ++ off) = Some (dt_microsecond d, off)) as ->.
  { destruct (N.eqb_spec (dt_microsecond d) 0) as [->|].
    - simpl. destruct off as [|c off]; [done|]. unfold parse_fraction. by rewrite Ho3.
    - apply parse_fraction_pad; [lia|done]. }
  cbn [mbind option_bind]. rewrite Ho1. cbn [mbind option_bind].
  destruct d; simpl in *. by rewrite Hv.
Qed.
