(* ===== verification/Calendar.v ===== *)
(** * Date arithmetic: [datetime + timedelta]

    A date is counted by its proleptic Gregorian ordinal, 1 January of year 1
    being day 1, a time by the microseconds since then, and a [timedelta] by its
    microseconds.  [add_delta] is [datetime.__add__]: the offset stays, and a date
    outside the years 1 to 9999 is an [OverflowError].  Its law is that the
    microseconds add up. *)

From Stdlib Require Import String QArith Qround Lqa.
From S2P Require Import Prelude PyStr Json Errors Datetime.
Open Scope list_scope.
Open Scope N_scope.

Definition days_in_year (y : N) : N := if is_leap y then 366 else 365.

(** The days before 1 January of year [y], and of month [m + 1] of year [y]. *)
Definition days_before_year (y : N) : N :=
  let p := y - 1 in p * 365 + p / 4 - p / 100 + p / 400.
Fixpoint days_of_months (y : N) (m : nat) : N :=
  match m with
  | O => 0
  | S m' => days_of_months y m' + days_in_month y (N.of_nat m)
  end.

(** [date.toordinal] *)
Definition toordinal (y m d : N) : N :=
  days_before_year y + days_of_months y (N.to_nat m - 1) + d.

(** The year of day [n] counted from 1 January of year [y], and its day in it. *)
Fixpoint year_of (fuel : nat) (y n : N) : option (N * N) :=
  match fuel with
  | O => None
  | S fuel' => if n <=? days_in_year y then Some (y, n) else year_of fuel' (y + 1) (n - days_in_year y)
  end.
Fixpoint month_of (y : N) (fuel : nat) (m n : N) : option (N * N) :=
  match fuel with
  | O => None
  | S fuel' => if n <=? days_in_month y m then Some (m, n)
               else month_of y fuel' (m + 1) (n - days_in_month y m)
  end.

(** [date.fromordinal]; [None] is an [OverflowError] or a [ValueError]. *)
Definition fromordinal (n : N) : option (N * N * N) :=
  if n =? 0 then None
  else '(y, r) ← year_of (N.to_nat 9999) 1 n; '(m, d) ← month_of y 12 1 r; Some (y, m, d).

Definition day_us : Z := 86400 * 1000000.

(** The microseconds of a wall-clock time since the beginning of day 0. *)
Definition wall_us (d : datetime) : Z :=
  (Z.of_N (toordinal (dt_year d) (dt_month d) (dt_day d)) * day_us
   + Z.of_N (((dt_hour d * 60 + dt_minute d) * 60 + dt_second d) * 1000000 + dt_microsecond d))%Z.

Definition of_wall_us (t : Z) (offset : option Z) : option datetime :=
  if (t <? 0)%Z then None
  else '(y, m, d) ← fromordinal (Z.to_N (t / day_us));
       let us := Z.to_N (t mod day_us) in
       Some (mkDatetime y m d (us / 3600000000) (us / 60000000 mod 60) (us / 1000000 mod 60)
                        (us mod 1000000) offset).

(** [datetime + timedelta] *)
Definition add_delta (d : datetime) (us : Z) : result exn datetime :=
  match of_wall_us (wall_us d + us) (dt_utcoffset d) with
  | Some d' => Ok d'
  | None => Raise (OverflowError (u "date value out of range"))
  end.

(** Rounding to the nearest integer, a tie to the even one. *)
Definition round_half_even (q : Q) : Z :=
  let f := Qfloor q in
  match (q - inject_Z f ?= 1 # 2)%Q with
  | Lt => f
  | Gt => f + 1
  | Eq => if Z.even f then f else f + 1
  end.

(** [timedelta(seconds=..., minutes=...)]: at most 999999999 days either way. *)
Definition timedelta (seconds minutes : Q) : result exn Z :=
  let us := round_half_even ((seconds + minutes * 60) * 1000000)%Q in
  if (Z.abs (us / day_us) <=? 999999999)%Z then Ok us
  else Raise (OverflowError (u "days=" ++ str_int (us / day_us) ++ u "; must have magnitude <= 999999999")).

(** ** Ordinals *)

Lemma div_succ p k : 0 < k → (p + 1) / k = p / k + (if (p + 1) mod k =? 0 then 1 else 0).
Proof.
  intros Hk. pose proof (N.Div0.div_mod p k) as Hp. pose proof (N.mod_lt p k ltac:(lia)) as Hlt.
  remember (p / k) as q eqn:Hq. remember (p mod k) as r eqn:Hr. clear Hq Hr.
  destruct (N.eq_dec (r + 1) k) as [He|He].
  - assert (p + 1 = (q + 1) * k) as -> by nia.
    by rewrite N.div_mul, N.Div0.mod_mul by lia.
  - assert ((p + 1) / k = q) as -> by (symmetry; apply (N.div_unique _ _ _ (r + 1)); lia).
    assert ((p + 1) mod k = r + 1) as -> by (symmetry; apply (N.mod_unique _ _ q); lia).
    rewrite (proj2 (N.eqb_neq _ _)) by lia. lia.
Qed.

Lemma mod_coarser n k j : k ≠ 0 → n mod (k * j) = 0 → n mod k = 0.
Proof.
  intros Hk H. apply N.Div0.mod_divides in H as [c ->]. rewrite <- N.mul_assoc, N.mul_comm.
  by apply N.Div0.mod_mul.
Qed.

Lemma days_before_next y : 1 <= y → days_before_year (y + 1) = days_before_year y + days_in_year y.
Proof.
  intros Hy. unfold days_before_year, days_in_year, is_leap.
  replace (y + 1 - 1) with (y - 1 + 1) by lia. remember (y - 1) as p eqn:Hp.
  replace y with (p + 1) by lia. clear Hy Hp y. rewrite !div_succ by lia.
  pose proof (mod_coarser (p + 1) 4 25 ltac:(done)) as H4.
  pose proof (mod_coarser (p + 1) 100 4 ltac:(done)) as H100.
  change (4 * 25) with 100 in H4. change (100 * 4) with 400 in H100.
  pose proof (N.Div0.div_le_mono p (p + 0) 4) as _.
  assert (p / 100 <= p / 4) by (apply N.div_le_compat_l; lia).
  destruct (N.eqb_spec ((p + 1) mod 4) 0) as [E4|E4], (N.eqb_spec ((p + 1) mod 100) 0) as [E1|E1],
    (N.eqb_spec ((p + 1) mod 400) 0) as [E2|E2]; cbn [negb andb orb]; try lia; tauto.
Qed.

Lemma days_before_mono y k : 1 <= y → days_before_year y <= days_before_year (y + N.of_nat k).
Proof.
  intros Hy. induction k as [|k IH]; [by rewrite N.add_0_r|].
  replace (y + N.of_nat (S k)) with (y + N.of_nat k + 1) by lia.
  rewrite days_before_next by lia. lia.
Qed.

Lemma days_of_year y : days_of_months y 12 = days_in_year y.
Proof. unfold days_in_year. cbn. unfold days_in_month. destruct (is_leap y); reflexivity. Qed.

Lemma year_of_spec fuel y n :
  1 <= y → 0 < n →
  match year_of fuel y n with
  | Some (y', r) => days_before_year y' + r = days_before_year y + n ∧
                    y <= y' ∧ y' < y + N.of_nat fuel ∧ 1 <= r ∧ r <= days_in_year y' ∧
                    days_before_year y + n <= days_before_year (y + N.of_nat fuel)
  | None => days_before_year (y + N.of_nat fuel) < days_before_year y + n
  end.
Proof.
  revert y n. induction fuel as [|fuel IH]; intros y n Hy Hn; cbn [year_of].
  { rewrite N.add_0_r. lia. }
  replace (y + N.of_nat (S fuel)) with (y + 1 + N.of_nat fuel) by lia.
  destruct (N.leb_spec n (days_in_year y)).
  { pose proof (days_before_mono (y + 1) fuel ltac:(lia)) as Hm.
    rewrite days_before_next in Hm by done. lia. }
  specialize (IH (y + 1) (n - days_in_year y) ltac:(lia) ltac:(lia)).
  rewrite days_before_next in IH by done.
  destruct (year_of _ _ _) as [[y' r]|]; lia.
Qed.

Lemma month_of_spec y fuel m n :
  0 < m → 0 < n →
  match month_of y fuel m n with
  | Some (m', r) => days_of_months y (N.to_nat m' - 1) + r = days_of_months y (N.to_nat m - 1) + n ∧
                    m <= m' ∧ m' < m + N.of_nat fuel ∧ 1 <= r ∧ r <= days_in_month y m'
  | None => days_of_months y (N.to_nat m - 1 + fuel) < days_of_months y (N.to_nat m - 1) + n
  end.
Proof.
  revert m n. induction fuel as [|fuel IH]; intros m n Hm Hn; cbn [month_of].
  { rewrite Nat.add_0_r. lia. }
  destruct (N.leb_spec n (days_in_month y m)); [lia|].
  assert (days_of_months y (N.to_nat (m + 1) - 1) = days_of_months y (N.to_nat m - 1) + days_in_month y m)
    as Hd.
  { replace (N.to_nat (m + 1) - 1)%nat with (S (N.to_nat m - 1)) by lia. cbn [days_of_months].
    do 2 f_equal. lia. }
  specialize (IH (m + 1) (n - days_in_month y m) ltac:(lia) ltac:(lia)). rewrite Hd in IH.
  destruct (month_of _ _ _ _) as [[m' r]|]; [lia|].
  replace (N.to_nat m - 1 + S fuel)%nat with (N.to_nat (m + 1) - 1 + fuel)%nat by lia. lia.
Qed.

(** Every ordinal up to 31 December 9999 is that of one valid date. *)
Lemma fromordinal_spec n :
  match fromordinal n with
  | Some (y, m, d) => toordinal y m d = n ∧ 1 <= y ∧ y <= 9999 ∧ 1 <= m ∧ m <= 12 ∧
                      1 <= d ∧ d <= days_in_month y m ∧ n <= 3652059
  | None => n = 0 ∨ 3652059 < n
  end.
Proof.
  unfold fromordinal. destruct (N.eqb_spec n 0) as [->|Hn]; [by left|].
  pose proof (year_of_spec (N.to_nat 9999) 1 n ltac:(lia) ltac:(lia)) as Hy.
  rewrite N2Nat.id in Hy. destruct (year_of _ 1 n) as [[y r]|]; cbn [mbind option_bind].
  all: change (days_before_year (1 + 9999)) with 3652059 in Hy;
    change (days_before_year 1) with 0 in Hy.
  2:{ right. lia. }
  destruct Hy as (Hy & H1 & H2 & H3 & H4 & H5).
  pose proof (month_of_spec y 12 1 r ltac:(lia) ltac:(lia)) as Hm.
  destruct (month_of y 12 1 r) as [[m d]|]; cbn [mbind option_bind].
  - change (days_of_months y (N.to_nat 1 - 1)) with 0 in Hm. unfold toordinal. lia.
  - change (N.to_nat 1 - 1 + 12)%nat with 12%nat in Hm. rewrite days_of_year in Hm.
    change (days_of_months y (N.to_nat 1 - 1)) with 0 in Hm. lia.
Qed.

(** ** Adding *)

Lemma split_us (us : N) :
  us < 86400000000 →
  ((us / 3600000000 * 60 + us / 60000000 mod 60) * 60 + us / 1000000 mod 60) * 1000000
    + us mod 1000000 = us ∧
  us / 3600000000 < 24.
Proof.
  intros Hus. assert (us / 3600000000 = us / 1000000 / 60 / 60) as ->.
  { rewrite !N.Div0.div_div. done. }
  assert (us / 60000000 = us / 1000000 / 60) as -> by (by rewrite N.Div0.div_div).
  divmod us 1000000. divmod q 60. divmod q0 60. lia.
Qed.

(** The microseconds for which [of_wall_us] has a date. *)
Definition in_range (t : Z) : Prop := (day_us <= t < 3652060 * day_us)%Z.

Lemma of_wall_us_spec t offset :
  match of_wall_us t offset with
  | Some d => wall_us d = t ∧ dt_utcoffset d = offset ∧ in_range t ∧
              (match offset with Some o => Z.abs o < 86400 | None => True end → valid_datetime d = true)%Z
  | None => ¬ in_range t
  end.
Proof.
  unfold of_wall_us, in_range. destruct (Z.ltb_spec t 0) as [Ht|Ht]; [unfold day_us; lia|].
  pose proof (Z.div_mod t day_us ltac:(done)) as Hdm.
  pose proof (Z.mod_pos_bound t day_us ltac:(done)) as Hmod.
  assert (0 <= t / day_us)%Z as Hd0 by (apply Z.div_pos; done).
  remember (t / day_us)%Z as q eqn:Hq. remember (t mod day_us)%Z as r eqn:Hr. clear Hq Hr.
  pose proof (fromordinal_spec (Z.to_N q)) as Hf.
  destruct (fromordinal (Z.to_N q)) as [[[y m] d]|]; cbn [mbind option_bind]; unfold day_us in *.
  2:{ intros [H1 H2]. destruct Hf as [Hf|Hf]; lia. }
  destruct Hf as (Hord & H1 & H2 & H3 & H4 & H5 & H6 & Hmax).
  assert (1 <= Z.to_N q) by (rewrite <- Hord; unfold toordinal; lia).
  destruct (split_us (Z.to_N r)) as [Hus Hh]; [lia|].
  split_and!.
  - unfold wall_us. cbn [dt_year dt_month dt_day dt_hour dt_minute dt_second dt_microsecond].
    rewrite Hord, Hus. unfold day_us. lia.
  - done.
  - lia.
  - lia.
  - intros Ho. unfold valid_datetime. cbn.
    rewrite !andb_true_iff, !N.leb_le, !N.ltb_lt.
    pose proof (N.mod_lt (Z.to_N r / 60000000) 60 ltac:(lia)).
    pose proof (N.mod_lt (Z.to_N r / 1000000) 60 ltac:(lia)).
    pose proof (N.mod_lt (Z.to_N r) 1000000 ltac:(lia)).
    split_and!; try lia. destruct offset; [by apply Z.ltb_lt|done].
Qed.

(** [datetime + timedelta] adds the microseconds, and fails exactly when the sum is
    no date of the years 1 to 9999. *)
Lemma add_delta_spec d us :
  valid_datetime d = true →
  match add_delta d us with
  | Ok d' => wall_us d' = (wall_us d + us)%Z ∧ dt_utcoffset d' = dt_utcoffset d ∧
             valid_datetime d' = true
  | Raise e => e = OverflowError (u "date value out of range") ∧ ¬ in_range (wall_us d + us)
  end.
Proof.
  intros Hv. unfold add_delta. pose proof (of_wall_us_spec (wall_us d + us) (dt_utcoffset d)) as H.
  destruct (of_wall_us _ _) as [d'|]; [|done]. destruct H as (H1 & H2 & _ & H3).
  split_and!; [done..|]. apply H3. unfold valid_datetime in Hv.
  apply andb_true_iff in Hv as [_ Hv]. destruct (dt_utcoffset d); [by apply Z.ltb_lt|done].
Qed.

(** ** Rounding *)

Lemma round_half_even_near q :
  (inject_Z (round_half_even q) <= q + (1 # 2) ∧ q - (1 # 2) <= inject_Z (round_half_even q))%Q.
Proof.
  pose proof (Qfloor_le q) as H1. pose proof (Qlt_floor q) as H2.
  rewrite inject_Z_plus in H2. change (inject_Z 1) with 1%Q in H2.
  unfold round_half_even. destruct (Qcompare_spec (q - inject_Z (Qfloor q)) (1 # 2)) as [H|H|H];
    [destruct (Z.even (Qfloor q))|..]; rewrite ?inject_Z_plus; change (inject_Z 1) with 1%Q; split; lra.
Qed.

Lemma round_half_even_int z : round_half_even (inject_Z z) = z.
Proof.
  unfold round_half_even. rewrite Qfloor_Z.
  assert ((inject_Z z - inject_Z z ?= 1 # 2)%Q = Lt) as ->; [|done].
  apply Qlt_alt. unfold Qminus. rewrite Qplus_opp_r. reflexivity.
Qed.

#[export] Instance round_half_even_proper : Proper (Qeq ==> eq) round_half_even.
Proof.
  intros a b H. unfold round_half_even. rewrite (Qfloor_comp _ _ H).
  assert (a - inject_Z (Qfloor b) == b - inject_Z (Qfloor b))%Q as Hd by (by rewrite H).
  by rewrite (Qcompare_comp _ _ Hd (1 # 2) (1 # 2) (Qeq_refl _)).
Qed.
