(* ===== verification/Job.v ===== *)
(** * Jobs: [relayq/domain/job.py]

    [Job] is a plain dataclass: its annotations are not enforced, so the fields
    [from_dict] copies out of decoded JSON hold arbitrary JSON values, and
    [status] may be a [JobStatus] member or, after an assignment such as the one
    in [api/main.py], a bare string. *)

From Stdlib Require Import String.
From S2P Require Import Prelude PyStr Json Errors Datetime.
Open Scope list_scope.

Inductive JobStatus : Type := PENDING | PROCESSING | COMPLETED | FAILED | DEAD.

#[export] Instance JobStatus_eq_dec : EqDecision JobStatus.
Proof. solve_decision. Defined.

(** [JobStatus.X.value] *)
Definition status_value (s : JobStatus) : pystr :=
  match s with
  | PENDING => u "pending" | PROCESSING => u "processing" | COMPLETED => u "completed"
  | FAILED => u "failed" | DEAD => u "dead"
  end.

(** [JobStatus(v)]: lookup of a member by value. *)
Definition status_of_value (v : pystr) : option JobStatus :=
  if decide (v = u "pending") then Some PENDING
  else if decide (v = u "processing") then Some PROCESSING
  else if decide (v = u "completed") then Some COMPLETED
  else if decide (v = u "failed") then Some FAILED
  else if decide (v = u "dead") then Some DEAD
  else None.

(** What the [status] attribute can hold. *)
Inductive status_attr : Type := StEnum (s : JobStatus) | StStr (s : pystr).

Record Job : Type := mkJob {
  job_id : json;
  job_kind : json;
  job_payload : json;
  job_status : status_attr;
  job_created_at : datetime;
  job_attempts : json;
  job_max_retries : json;
  job_idempotency_key : json;
  job_queue : json
}.

(** The default id: ["job_" + uuid4().hex[:16]], the hexadecimal text a draw. *)
Definition fresh_job_id (hex : pystr) : json := JStr (u "job_" ++ take 16 hex).

(** [Job(kind=, payload=, queue=, max_retries=)] with the other defaults. *)
Definition new_job (hex : pystr) (now : datetime) (kind payload queue max_retries : json) : Job :=
  mkJob (fresh_job_id hex) kind payload (StEnum PENDING) now (JInt 0) max_retries JNull queue.

(** Attribute assignments the program makes. *)
Definition set_attempts (a : json) (j : Job) : Job :=
  mkJob (job_id j) (job_kind j) (job_payload j) (job_status j) (job_created_at j) a
        (job_max_retries j) (job_idempotency_key j) (job_queue j).
Definition set_status (s : status_attr) (j : Job) : Job :=
  mkJob (job_id j) (job_kind j) (job_payload j) s (job_created_at j) (job_attempts j)
        (job_max_retries j) (job_idempotency_key j) (job_queue j).
Definition set_idempotency_key (k : json) (j : Job) : Job :=
  mkJob (job_id j) (job_kind j) (job_payload j) (job_status j) (job_created_at j)
        (job_attempts j) (job_max_retries j) k (job_queue j).

(** [self.status.value]: a bare [str] has no such attribute. *)
Definition status_attr_value (s : status_attr) : result exn pystr :=
  match s with
  | StEnum s => Ok (status_value s)
  | StStr _ => Raise (AttributeError (u "'str' object has no attribute 'value'"))
  end.

Definition to_dict (j : Job) : result exn json :=
  sv ← status_attr_value (job_status j);
  mret (JObj [(u "id", job_id j);
              (u "kind", job_kind j);
              (u "payload", job_payload j);
              (u "status", JStr sv);
              (u "created_at", JStr (isoformat (job_created_at j)));
              (u "attempts", job_attempts j);
              (u "max_retries", job_max_retries j);
              (u "idempotency_key", job_idempotency_key j);
              (u "queue", job_queue j)]).

(** [d.get(k, default)] *)
Definition get_default (k : pystr) (dflt : json) (d : list (pystr * json)) : json :=
  default dflt (dict_get k d).

Definition parse_status (v : json) : result exn JobStatus :=
  match v with
  | JStr s => match status_of_value s with
              | Some st => Ok st
              | None => Raise (ValueError (repr_str s ++ u " is not a valid JobStatus"))
              end
  | _ => Raise (ValueError (py_repr v ++ u " is not a valid JobStatus"))
  end.

Definition parse_created_at (now : datetime) (v : option json) : result exn datetime :=
  match v with
  | None => Ok now
  | Some (JStr s) => match fromisoformat s with
                     | Some d => Ok d
                     | None => Raise (ValueError (u "Invalid isoformat string: " ++ repr_str s))
                     end
  | Some _ => Raise (TypeError (u "fromisoformat: argument must be str"))
  end.

(** [Job.from_dict(d)]; [now] is the clock when [created_at] is missing. *)
Definition from_dict (now : datetime) (d : json) : result exn Job :=
  match d with
  | JObj fs =>
      match dict_get (u "id") fs with
      | None => Raise (KeyError (u "id"))
      | Some id =>
          st ← parse_status (get_default (u "status") (JStr (u "pending")) fs);
          ca ← parse_created_at now (dict_get (u "created_at") fs);
          mret (mkJob id
                      (get_default (u "kind") (JStr []) fs)
                      (get_default (u "payload") (JObj []) fs)
                      (StEnum st)
                      ca
                      (get_default (u "attempts") (JInt 0) fs)
                      (get_default (u "max_retries") (JInt 3) fs)
                      (get_default (u "idempotency_key") JNull fs)
                      (get_default (u "queue") (JStr (u "default")) fs))
      end
  | JArr _ | JStr _ => Raise (TypeError (u "indices must be integers"))
  | _ => Raise (TypeError (u "object is not subscriptable"))
  end.

(** ** Arithmetic on dynamically typed counters

    [int] and its subclass [bool]; strings, null, lists and dicts are a
    [TypeError].  A float operand (which no producer of this repository writes)
    is outside the model, which treats it as the other non-integers. *)

Definition as_int (v : json) : option Z :=
  match v with JInt z => Some z | JBool b => Some (Z.b2z b) | _ => None end.

(** [v + n] for an [int] literal [n] *)
Definition py_add_int (v : json) (n : Z) : result exn json :=
  match as_int v with
  | Some z => Ok (JInt (z + n))
  | None => Raise (TypeError (u "unsupported operand type(s) for +"))
  end.

(** [a > b] *)
Definition py_gt (a b : json) : result exn bool :=
  match as_int a, as_int b with
  | Some x, Some y => Ok (y <? x)%Z
  | _, _ => match a, b with
            | JStr x, JStr y => Ok (negb (str_leb x y))
            | _, _ => Raise (TypeError (u "'>' not supported between instances"))
            end
  end.

Definition should_dlq (j : Job) : result exn bool :=
  py_gt (job_attempts j) (job_max_retries j).

(** ** Well-typed jobs: the dataclass annotations *)

Definition job_typed (j : Job) : Prop :=
  (∃ s, job_id j = JStr s) ∧ (∃ s, job_kind j = JStr s) ∧ (∃ d, job_payload j = JObj d) ∧
  (∃ s, job_status j = StEnum s) ∧ (∃ a, job_attempts j = JInt a) ∧
  (∃ m, job_max_retries j = JInt m) ∧
  (job_idempotency_key j = JNull ∨ ∃ k, job_idempotency_key j = JStr k) ∧
  (∃ q, job_queue j = JStr q).

(** Every dynamically typed field survives JSON. *)
Definition job_wf (j : Job) : Prop :=
  wf_json (job_id j) ∧ wf_json (job_kind j) ∧ wf_json (job_payload j) ∧
  wf_json (job_attempts j) ∧ wf_json (job_max_retries j) ∧
  wf_json (job_idempotency_key j) ∧ wf_json (job_queue j) ∧
  valid_datetime (job_created_at j) = true.

(** ** Lemmas *)

Lemma status_of_value_value s : status_of_value (status_value s) = Some s.
Proof. by destruct s. Qed.

Lemma status_of_value_inv v s : status_of_value v = Some s → v = status_value s.
Proof. unfold status_of_value. repeat case_decide; intros [= <-]; done. Qed.

Lemma str_pad_wf k n : wf_str (str_pad k n) = true.
Proof.
  apply forallb_forall. intros c Hc%list_elem_of_In.
  pose proof (str_pad_digits k n) as Hd. rewrite Forall_forall in Hd.
  specialize (Hd c Hc). unfold is_digit in Hd. apply andb_true_iff in Hd as [_ H%N.leb_le].
  unfold wf_char. rewrite (proj2 (N.ltb_lt c 55296)) by lia. done.
Qed.

Lemma wf_str_app a b : wf_str (a ++ b) = wf_str a && wf_str b.
Proof. apply forallb_app. Qed.

Lemma wf_str_cons c l : wf_str (c :: l) = wf_char c && wf_str l.
Proof. done. Qed.

Lemma isoformat_wf d : wf_str (isoformat d) = true.
Proof.
  unfold isoformat, offset_str.
  destruct (dt_microsecond d =? 0)%N, (dt_utcoffset d) as [o|];
    try destruct (o <? 0)%Z, (Z.abs_N o mod 60 =? 0)%N;
    repeat (rewrite wf_str_app || rewrite str_pad_wf || rewrite wf_str_cons); done.
Qed.

(** The dict of a job: its keys are distinct and its values survive JSON. *)
Lemma to_dict_wf j d : job_wf j → to_dict j = Ok d → wf_json d.
Proof.
  intros (? & ? & ? & ? & ? & ? & ? & _). unfold to_dict.
  destruct (job_status j) as [s|s]; [|done]. intros [= <-].
  constructor; [by apply (bool_decide_unpack _); vm_compute|].
  repeat constructor; try done; [by destruct s|apply isoformat_wf].
Qed.

(** [Job.from_dict(job.to_dict()) == job], whatever JSON values the fields hold. *)
Lemma from_dict_to_dict now j d :
  valid_datetime (job_created_at j) = true → to_dict j = Ok d → from_dict now d = Ok j.
Proof.
  intros Hv. unfold to_dict. destruct j as [id k p [s|s] ca a m ik q]; simpl; [|done].
  intros [= <-]. unfold from_dict, get_default.
  match goal with |- context [dict_get (u "kind") ?l] => set (fs := l) end.
  replace (dict_get (u "id") fs) with (Some id) by done.
  replace (dict_get (u "kind") fs) with (Some k) by done.
  replace (dict_get (u "payload") fs) with (Some p) by done.
  replace (dict_get (u "status") fs) with (Some (JStr (status_value s))) by done.
  replace (dict_get (u "created_at") fs) with (Some (JStr (isoformat ca))) by done.
  replace (dict_get (u "attempts") fs) with (Some a) by done.
  replace (dict_get (u "max_retries") fs) with (Some m) by done.
  replace (dict_get (u "idempotency_key") fs) with (Some ik) by done.
  replace (dict_get (u "queue") fs) with (Some q) by done.
  cbn -[isoformat fromisoformat status_of_value status_value].
  rewrite status_of_value_value, fromisoformat_isoformat by done. done.
Qed.

(** The wire round trip: the text a transport stores decodes to the same job. *)
Lemma job_wire now j d :
  job_wf j → to_dict j = Ok d →
  (x ← loads (dumps d); Some (from_dict now x)) = Some (Ok j).
Proof.
  intros Hwf Hd. rewrite loads_dumps by (by eapply to_dict_wf). cbn.
  f_equal. apply from_dict_to_dict; [apply Hwf|done].
Qed.

Lemma as_int_JInt z : as_int (JInt z) = Some z.
Proof. done. Qed.

Lemma should_dlq_typed j a m :
  job_attempts j = JInt a → job_max_retries j = JInt m → should_dlq j = Ok (m <? a)%Z.
Proof. intros Ha Hm. unfold should_dlq. by rewrite Ha, Hm. Qed.

(** ** Properties *)

(** C33: the wire format loses nothing.  A job whose fields are JSON values and
    whose creation time is a valid datetime survives [to_dict], [json.dumps],
    [json.loads] and [Job.from_dict] unchanged, whatever the clock says. *)
Theorem job_roundtrip now j d :
  job_wf j → to_dict j = Ok d →
  ∃ d', loads (dumps d) = Some d' ∧ from_dict now d' = Ok j.
Proof.
  intros Hwf Hd. pose proof (job_wire now j d Hwf Hd) as Hw.
  destruct (loads (dumps d)) as [d'|]; [|done]. exists d'. split; [done|].
  by injection Hw as Hw.
Qed.

(** ** A concrete job *)

Definition noon : datetime := mkDatetime 2024 5 17 12 0 0 123456 (Some 0%Z).

(** As the API builds one: kind [email], queue [mail], [max_retries] given. *)
Definition mail_job (retries : Z) : Job :=
  new_job (u "0123456789abcdef0123") noon (JStr (u "email"))
          (JObj [(u "to", JStr (u "a@b.c")); (u "n", JArr [JInt (-3); JNull; JBool true])])
          (JStr (u "mail")) (JInt retries).

Lemma mail_job_wf n : job_wf (mail_job n).
Proof.
  repeat split; repeat constructor; try done; by apply (bool_decide_unpack _); vm_compute.
Qed.

Lemma mail_job_typed n : job_typed (mail_job n).
Proof. repeat split; eauto. Qed.

Lemma job_roundtrip_witness :
  match to_dict (mail_job 3) with
  | Ok d => ∃ d', loads (dumps d) = Some d' ∧ from_dict noon d' = Ok (mail_job 3)
  | Raise _ => False
  end.
Proof.
  destruct (to_dict (mail_job 3)) as [d|e] eqn:Hd; [|vm_compute in Hd; discriminate Hd].
  apply (job_roundtrip noon (mail_job 3) d (mail_job_wf 3) Hd).
Defined.
