(* ===== verification/Retry.v ===== *)
(** * Retry backoff: [relayq/domain/retry.py]

    Seconds are rationals.  [2**attempt] is an [int] that Python converts to
    [float] before the product, which raises [OverflowError] from [2**1024] on;
    below that the model computes the product exactly.  [random.uniform(0, b)]
    is [b * draw] for a draw of [random.random()] in [[0, 1)]. *)

From Stdlib Require Import String QArith Qminmax Lqa Qpower.
From S2P Require Import Prelude PyStr Json Errors.
Open Scope list_scope.
Open Scope Q_scope.

Record RetryPolicy : Type := mkRetryPolicy {
  base_seconds : Q;
  cap_seconds : Q;
  max_attempts : Z;
  jitter : bool
}.

(** The dataclass defaults. *)
Definition default_policy : RetryPolicy := mkRetryPolicy 1 60 3 true.

(** [min(a, b)]: the first argument unless the second is smaller. *)
Definition py_min (a b : Q) : Q := if Qlt_le_dec b a then b else a.

(** [random.uniform(a, b)] *)
Definition uniform (a b draw : Q) : Q := a + (b - a) * draw.

(** [self.base_seconds * (2**attempt)] *)
Definition exponential (p : RetryPolicy) (attempt : Z) : result exn Q :=
  if (1024 <=? attempt)%Z then Raise (OverflowError (u "int too large to convert to float"))
  else Ok (base_seconds p * Qpower 2 attempt).

Definition delay (p : RetryPolicy) (attempt : Z) (draw : Q) : result exn Q :=
  if (max_attempts p <=? attempt)%Z then Ok (cap_seconds p)
  else
    e ← exponential p attempt;
    let capped := py_min e (cap_seconds p) in
    if negb (jitter p) then Ok capped
    else Ok (uniform 0 capped draw).

(** [for i in range(n): total += min(base * 2**i, cap)] from [i = i0]. *)
Fixpoint window_loop (p : RetryPolicy) (n : nat) (i0 : Z) (total : Q) : result exn Q :=
  match n with
  | O => Ok total
  | S n' => e ← exponential p i0;
            window_loop p n' (i0 + 1) (total + py_min e (cap_seconds p))
  end.

Definition max_total_window (p : RetryPolicy) : result exn Q :=
  window_loop p (Z.to_nat (max_attempts p)) 0 0.

(** ** Lemmas *)

Lemma py_min_le_l a b : py_min a b <= a.
Proof. unfold py_min. destruct (Qlt_le_dec b a); lra. Qed.

Lemma py_min_le_r a b : py_min a b <= b.
Proof. unfold py_min. destruct (Qlt_le_dec b a); lra. Qed.

Lemma py_min_nonneg a b : 0 <= a → 0 <= b → 0 <= py_min a b.
Proof. unfold py_min. destruct (Qlt_le_dec b a); lra. Qed.

Lemma py_min_mono a a' b : a <= a' → py_min a b <= py_min a' b.
Proof. unfold py_min. intros. destruct (Qlt_le_dec b a), (Qlt_le_dec b a'); lra. Qed.

Lemma pow2_pos n : 0 < Qpower 2 n.
Proof. apply Qpower_0_lt. lra. Qed.

Lemma pow2_succ n : Qpower 2 (n + 1) == 2 * Qpower 2 n.
Proof. rewrite Qpower_plus by (intros H; discriminate). change (2 ^ 1) with 2. ring. Qed.

Lemma exponential_ok p i :
  (i < 1024)%Z → exponential p i = Ok (base_seconds p * Qpower 2 i).
Proof. intros H. unfold exponential. by rewrite (proj2 (Z.leb_gt 1024 i)). Qed.

Lemma exponential_nonneg p i : 0 <= base_seconds p → 0 <= base_seconds p * Qpower 2 i.
Proof. intros. apply Qmult_le_0_compat; [done|]. apply Qlt_le_weak, pow2_pos. Qed.

Lemma uniform_bounds b draw : 0 <= b → 0 <= draw → draw <= 1 → 0 <= uniform 0 b draw /\ uniform 0 b draw <= b.
Proof. intros. unfold uniform. split; nra. Qed.

(** The parameters under which a policy makes sense. *)
Definition policy_ok (p : RetryPolicy) : Prop := 0 <= base_seconds p ∧ 0 <= cap_seconds p.

Definition draw_ok (draw : Q) : Prop := 0 <= draw ∧ draw < 1.

Lemma delay_total p attempt draw :
  (max_attempts p ≤ 1024)%Z → ∃ d, delay p attempt draw = Ok d.
Proof.
  intros Hm. unfold delay. destruct (Z.leb_spec (max_attempts p) attempt); [eauto|].
  rewrite exponential_ok by lia. cbn. destruct (negb (jitter p)); eauto.
Qed.

(** ** Properties *)

(** For a policy with nonnegative base and cap, every delay that is
    returned lies between zero and the cap, with and without jitter, for every
    attempt number. *)
Theorem delay_bounds p attempt draw d :
  policy_ok p → draw_ok draw → delay p attempt draw = Ok d → 0 <= d ∧ d <= cap_seconds p.
Proof.
  intros [Hb Hc] [Hd0 Hd1]. unfold delay.
  destruct (max_attempts p <=? attempt)%Z; [intros [= <-]; lra|].
  unfold exponential. destruct (1024 <=? attempt)%Z; [done|]. cbn.
  set (e := base_seconds p * Qpower 2 attempt).
  assert (0 <= e) as He by (by apply exponential_nonneg).
  pose proof (py_min_le_r e (cap_seconds p)). pose proof (py_min_nonneg e _ He Hc).
  destruct (jitter p); intros [= <-]; [|lra].
  destruct (uniform_bounds (py_min e (cap_seconds p)) draw); try lra.
Qed.

(** Without jitter, the delays never decrease from one attempt to a later
    one, saturating at the cap. *)
Theorem delay_monotone p i j a b d d' :
  policy_ok p → jitter p = false → (0 ≤ i)%Z → (i ≤ j)%Z →
  delay p i a = Ok d → delay p j b = Ok d' → d <= d'.
Proof.
  intros [Hb Hc] Hj Hi Hij Hd Hd'.
  assert (d <= cap_seconds p) as Hcap.
  { unfold delay in Hd. destruct (max_attempts p <=? i)%Z; [injection Hd as <-; lra|].
    destruct (exponential p i); [|done]. cbn in Hd. rewrite Hj in Hd. injection Hd as <-.
    apply py_min_le_r. }
  unfold delay in Hd'. destruct (Z.leb_spec (max_attempts p) j) as [Hm|Hm];
    [injection Hd' as <-; done|].
  unfold delay in Hd. rewrite (proj2 (Z.leb_gt _ i)) in Hd by lia.
  unfold exponential in Hd, Hd'. destruct (1024 <=? i)%Z; [done|]. destruct (1024 <=? j)%Z; [done|].
  cbn in Hd, Hd'. rewrite Hj in Hd, Hd'. injection Hd as <-. injection Hd' as <-.
  apply py_min_mono. apply Qmult_le_compat_nonneg; [split; [done|lra]|].
  split; [apply Qlt_le_weak, pow2_pos|]. apply Qpower_le_compat_l; [lia|lra].
Qed.

(** ** The total window *)

(** The sum of the delays of attempts [i0], [i0+1], ... under some draws. *)
Fixpoint sum_delays (p : RetryPolicy) (i0 : Z) (draws : list Q) : result exn Q :=
  match draws with
  | [] => Ok 0
  | a :: draws' => d ← delay p i0 a; s ← sum_delays p (i0 + 1) draws'; Ok (d + s)
  end.

Lemma window_loop_bounds p n i0 total t :
  policy_ok p → window_loop p n i0 total = Ok t →
  total <= t ∧ t <= total + inject_Z (Z.of_nat n) * cap_seconds p.
Proof.
  intros Hp. revert i0 total. induction n as [|n IH]; intros i0 total; simpl.
  - intros [= <-]. split; [lra|]. replace (inject_Z (Z.of_nat 0)) with 0 by done. lra.
  - unfold exponential. destruct (1024 <=? i0)%Z; [done|]. cbn. intros H.
    apply IH in H as [H1 H2]. destruct Hp as [Hb Hc].
    pose proof (py_min_le_r (base_seconds p * Qpower 2 i0) (cap_seconds p)).
    pose proof (py_min_nonneg _ _ (exponential_nonneg p i0 Hb) Hc).
    split; [lra|]. rewrite Nat2Z.inj_succ, <- Z.add_1_r, inject_Z_plus. change (inject_Z 1) with 1. lra.
Qed.

Lemma window_covers p draws i0 total t :
  policy_ok p → Forall draw_ok draws → (i0 + Z.of_nat (length draws) ≤ max_attempts p)%Z →
  window_loop p (length draws) i0 total = Ok t →
  ∃ s, sum_delays p i0 draws = Ok s ∧ 0 <= s ∧ total + s <= t.
Proof.
  intros Hp Hd. revert i0 total. induction Hd as [|a draws [Ha0 Ha1] _ IH]; intros i0 total Hlen; simpl.
  - intros [= <-]. exists 0. repeat split; [lra..].
  - simpl in Hlen. unfold delay. rewrite (proj2 (Z.leb_gt _ i0)) by lia.
    destruct (exponential p i0) as [e|] eqn:He; [|done]. cbn. intros H.
    apply IH in H as (s & Hs & Hs0 & Hle); [|lia].
    assert (0 <= e) as He0.
    { unfold exponential in He. destruct (1024 <=? i0)%Z; [done|]. injection He as <-.
      apply exponential_nonneg, Hp. }
    pose proof (py_min_nonneg e _ He0 (proj2 Hp)) as Hm.
    destruct (jitter p); cbn; rewrite Hs; cbn; eexists; (split; [reflexivity|]).
    + destruct (uniform_bounds (py_min e (cap_seconds p)) a) as [Hu0 Hu1]; [done|lra|lra|]. split; lra.
    + split; lra.
Qed.

(** C40: [max_total_window] bounds every run of retries: the delays of all
    [max_attempts] attempts are returned and add up to at most the window,
    whatever the jitter draws, and the window is at most [max_attempts] times the
    cap. *)
Theorem window_bounds_retries p draws t :
  policy_ok p → Forall draw_ok draws → Z.of_nat (length draws) = max_attempts p →
  max_total_window p = Ok t →
  (∃ s, sum_delays p 0 draws = Ok s ∧ 0 <= s ∧ s <= t) ∧
  t <= inject_Z (max_attempts p) * cap_seconds p.
Proof.
  intros Hp Hd Hlen Hw. unfold max_total_window in Hw. rewrite <- Hlen, Nat2Z.id in Hw. split.
  - destruct (window_covers p draws 0 0 t Hp Hd) as (s & Hs & H0 & Hle); [lia|done|].
    exists s. repeat split; [done|done|lra].
  - apply window_loop_bounds in Hw as [_ Hw]; [|done]. rewrite <- Hlen. lra.
Qed.

(** ** Witnesses *)

Definition plain_policy : RetryPolicy := mkRetryPolicy 1 60 10 false.

Lemma delay_bounds_witness :
  ∃ d, delay default_policy 2 (3#4) = Ok d ∧ 0 <= d ∧ d <= 60.
Proof.
  eexists. split; [vm_compute; reflexivity|].
  apply (delay_bounds default_policy 2 (3#4)); [split; discriminate|split; [discriminate|reflexivity]|].
  vm_compute. reflexivity.
Defined.

Lemma delay_monotone_witness :
  delay plain_policy 3 0 = Ok 8 ∧ delay plain_policy 9 0 = Ok 60 ∧ 8 <= 60.
Proof.
  split; [vm_compute; reflexivity|]. split; [vm_compute; reflexivity|].
  apply (delay_monotone plain_policy 3 9 0 0); [split; discriminate|reflexivity|lia|lia| |];
    vm_compute; reflexivity.
Defined.

Lemma window_bounds_witness :
  max_total_window default_policy = Ok 7 ∧
  ∃ s, sum_delays default_policy 0 [1#2; 1#2; 1#2] = Ok s ∧ s <= 7.
Proof.
  split; [vm_compute; reflexivity|].
  destruct (window_bounds_retries default_policy [1#2; 1#2; 1#2] 7) as [(s & Hs & _ & Hle) _].
  - split; discriminate.
  - repeat constructor; discriminate.
  - reflexivity.
  - vm_compute. reflexivity.
  - exists s. by split.
Defined.
