(* ===== verification/Redis.v ===== *)
(** * The Redis server and its client, as the source uses them

    [redis.asyncio.Redis] is third-party code: its stream commands are the
    operations of the class [Redis], over an abstract server state.  The class
    [RedisSpec] states the documented behaviour of streams and consumer groups
    the source relies on, as laws about a view of the server: the entries of
    each stream (oldest first), the ids it has handed out, and per consumer
    group the entries not yet delivered and the pending entries list (PEL).

    A command that raises (a lost connection, a cancelled task) has either not
    been applied or been applied with its reply lost: [outcome] says so. *)

From Stdlib Require Import String.
From S2P Require Import Prelude PyStr Json Errors.
Open Scope list_scope.

(** A reply string: [bytes], or [str] when the client decodes responses. *)
Inductive rval : Type := RB (b : list N) | RS (s : pystr).

#[export] Instance rval_eq_dec : EqDecision rval.
Proof. solve_decision. Defined.

(** The fields of a stored entry, and of an entry as the client returns it. *)
Abbreviation fields := (list (pystr * pystr)).
Abbreviation rfields := (list (rval * rval)).

(** [fields.get(k)] on a reply. *)
Fixpoint rget (k : rval) (d : rfields) : option rval :=
  match d with
  | [] => None
  | (k', v) :: d' => if decide (k = k') then Some v else rget k d'
  end.

(** The reply of [xautoclaim]: falsy, cursor only, or cursor, entries, deleted ids. *)
Inductive autoclaim_reply : Type :=
| ACEmpty
| ACCursorOnly (cursor : rval)
| ACReply (cursor : rval) (claimed : list (rval * rfields)) (deleted : list rval).

Class Redis : Type := {
  rstate : Type;
  decode_responses : bool;
  (* the default of [xadd]'s [approximate] argument *)
  xadd_approximate : bool;
  xgroup_create (key group id : pystr) (mkstream : bool) : M rstate unit;
  xlen (key : pystr) : M rstate Z;
  xadd (key : pystr) (body : fields) (maxlen : option (Z * bool)) : M rstate rval;
  xreadgroup (group consumer : pystr) (streams : list (pystr * pystr)) (count block : Z)
    : M rstate (list (rval * list (rval * rfields)));
  xack (key group : pystr) (id : rval) : M rstate Z;
  xautoclaim (key group consumer : pystr) (min_idle_ms : Z) (start : pystr) (count : Z)
    : M rstate autoclaim_reply;
  xrevrange (key max min : pystr) (count : Z) : M rstate (list (rval * rfields));
  xdel (key : pystr) (id : rval) : M rstate Z;
  scan (cursor : Z) (pattern : pystr) (count : Z) : M rstate (Z * list rval)
}.

(** A string as the client returns it. *)
Definition reply `{Redis} (s : pystr) : rval :=
  if decode_responses then RS s else RB (default [] (utf8_encode s)).

(** ** The view of the server *)

Abbreviation entry := (rval * fields)%type.

Record group_view : Type := mkGroup {
  g_todo : list entry;          (* not delivered to the group yet *)
  g_pel : list (rval * pystr)   (* delivered, not acknowledged: id, consumer *)
}.

Record stream_view : Type := mkStream {
  s_entries : list entry;
  s_issued : list rval;         (* every id ever given to an entry *)
  s_groups : gmap pystr group_view
}.

Abbreviation server := (gmap pystr stream_view).

Definition empty_stream : stream_view := mkStream [] [] ∅.
Definition stream_of (v : server) (k : pystr) : stream_view := default empty_stream (v !! k).

Definition ids (l : list entry) : list rval := l.*1.

(** Entries of [l] still present among [es]. *)
Definition keep (es l : list entry) : list entry := filter (λ e, e.1 ∈ ids es) l.

Definition trimmed (es : list entry) (g : group_view) : group_view :=
  mkGroup (keep es (g_todo g)) (g_pel g).

Definition offer (e : entry) (g : group_view) : group_view :=
  mkGroup (g_todo g ++ [e]) (g_pel g).

(** The entries XADD drops from the head under a [MAXLEN] option: none without
    it, down to the bound exactly, or not below the bound when approximate. *)
Definition trim_ok (maxlen : option (Z * bool)) (len k : nat) : Prop :=
  match maxlen with
  | None => k = 0%nat
  | Some (n, true) => k = 0%nat ∨ (n ≤ Z.of_nat (len - k))%Z
  | Some (n, false) => k = (len - Z.to_nat n)%nat
  end.

Section Effects.
Context `{Redis}.

Definition reply_entry (e : entry) : rval * rfields :=
  (e.1, prod_map reply reply <$> e.2).

(** The effect of each command: its reply and the view it leads to. *)

Definition xadd_eff (k : pystr) (body : fields) (maxlen : option (Z * bool)) (v : server)
    (id : rval) (v' : server) : Prop :=
  let s := stream_of v k in
  ∃ n, id ∉ s_issued s ∧
       trim_ok maxlen (S (length (s_entries s))) n ∧
       let es := drop n (s_entries s ++ [(id, body)]) in
       v' = <[k := mkStream es (s_issued s ++ [id])
                            ((λ g, trimmed es (offer (id, body) g)) <$> s_groups s)]> v.

Definition xlen_eff (k : pystr) (v : server) (n : Z) (v' : server) : Prop :=
  n = Z.of_nat (length (s_entries (stream_of v k))) ∧ v' = v.

(** Creation from id [0]: every entry of the stream is offered to the group. *)
Definition xgroup_create_eff (k group : pystr) (v : server) (_ : unit) (v' : server) : Prop :=
  let s := stream_of v k in
  s_groups s !! group = None ∧
  v' = <[k := mkStream (s_entries s) (s_issued s)
                       (<[group := mkGroup (s_entries s) []]> (s_groups s))]> v.

Definition set_group (k group : pystr) (g : group_view) (v : server) : server :=
  let s := stream_of v k in
  <[k := mkStream (s_entries s) (s_issued s) (<[group := g]> (s_groups s))]> v.

(** Delivery of new entries ([>]) to a consumer. *)
Definition xreadgroup_eff (group consumer k : pystr) (count : Z) (v : server)
    (r : list (rval * list (rval * rfields))) (v' : server) : Prop :=
  ∃ s g, v !! k = Some s ∧ s_groups s !! group = Some g ∧
    let batch := take (Z.to_nat count) (g_todo g) in
    r = match batch with [] => [] | _ => [(reply k, reply_entry <$> batch)] end ∧
    v' = set_group k group
           (mkGroup (drop (Z.to_nat count) (g_todo g))
                    (g_pel g ++ ((λ e, (e.1, consumer)) <$> batch))) v.

Definition xack_eff (k group : pystr) (id : rval) (v : server) (n : Z) (v' : server) : Prop :=
  match v !! k ≫= (λ s, s_groups s !! group) with
  | None => n = 0%Z ∧ v' = v
  | Some g =>
      n = (if decide (id ∈ (g_pel g).*1) then 1 else 0)%Z ∧
      v' = set_group k group (mkGroup (g_todo g) (filter (λ p, p.1 ≠ id) (g_pel g))) v
  end.

(** Idle pending entries change owner; entries gone from the stream leave the PEL. *)
Definition xautoclaim_eff (k group consumer : pystr) (count : Z) (v : server)
    (r : autoclaim_reply) (v' : server) : Prop :=
  ∃ s g cur claimed deleted pel',
    v !! k = Some s ∧ s_groups s !! group = Some g ∧
    r = ACReply cur (reply_entry <$> claimed) deleted ∧
    (length claimed ≤ Z.to_nat count)%nat ∧
    claimed ⊆ s_entries s ∧
    (∀ e, e ∈ claimed → e.1 ∈ (g_pel g).*1) ∧
    (∀ i, i ∈ deleted → i ∉ ids (s_entries s)) ∧
    pel'.*1 = filter (λ i, i ∉ deleted) (g_pel g).*1 ∧
    (∀ i c, (i, c) ∈ pel' → (i, c) ∈ g_pel g ∨ (c = consumer ∧ i ∈ ids claimed)) ∧
    v' = set_group k group (mkGroup (g_todo g) pel') v.

(** The whole stream, newest first, at most [count] entries. *)
Definition xrevrange_eff (k : pystr) (count : Z) (v : server)
    (r : list (rval * rfields)) (v' : server) : Prop :=
  r = reply_entry <$> take (Z.to_nat count) (rev (s_entries (stream_of v k))) ∧ v' = v.

Definition xdel_eff (k : pystr) (id : rval) (v : server) (n : Z) (v' : server) : Prop :=
  match v !! k with
  | None => n = 0%Z ∧ v' = v
  | Some s =>
      let es := filter (λ e, e.1 ≠ id) (s_entries s) in
      n = Z.of_nat (length (s_entries s) - length es) ∧
      v' = <[k := mkStream es (s_issued s) (trimmed es <$> s_groups s)]> v
  end.

Definition outcome {V A} (eff : V → A → V → Prop) (v : V) (r : result exn A) (v' : V) : Prop :=
  match r with
  | Ok a => eff v a v'
  | Raise _ => v' = v ∨ ∃ a, eff v a v'
  end.
End Effects.

(** The documented behaviour. *)
Class RedisSpec (R : Redis) : Type := {
  view : rstate → server;
  xgroup_create_law k g s r s' :
    xgroup_create k g (u "0") true s = (r, s') →
    outcome (xgroup_create_eff k g) (view s) r (view s');
  xlen_law k s r s' :
    xlen k s = (r, s') → outcome (xlen_eff k) (view s) r (view s');
  xadd_law k body m s r s' :
    xadd k body m s = (r, s') → outcome (xadd_eff k body m) (view s) r (view s');
  xreadgroup_law g c k count block s r s' :
    xreadgroup g c [(k, u ">")] count block s = (r, s') →
    outcome (xreadgroup_eff g c k count) (view s) r (view s');
  xack_law k g id s r s' :
    xack k g id s = (r, s') → outcome (xack_eff k g id) (view s) r (view s');
  xautoclaim_law k g c idle count s r s' :
    xautoclaim k g c idle (u "0-0") count s = (r, s') →
    outcome (xautoclaim_eff k g c count) (view s) r (view s');
  xrevrange_law k count s r s' :
    xrevrange k (u "+") (u "-") count s = (r, s') →
    outcome (xrevrange_eff k count) (view s) r (view s');
  (* the client refuses a count below one before it sends anything *)
  xrevrange_count_law k mx mn count s :
    (count < 1)%Z → ∃ msg, xrevrange k mx mn count s = (Raise (RedisExn RDataError msg), s);
  xdel_law k id s r s' :
    xdel k id s = (r, s') → outcome (xdel_eff k id) (view s) r (view s');
  scan_law c p n s r s' : scan c p n s = (r, s') → view s' = view s
}.
