(* ===== verification/RedisModel.v ===== *)
(** * A concrete server

    An executable instance of [Redis] that satisfies [RedisSpec]: the witnesses
    of the theorems stated against the interface run on it.  [m_faults] is a
    script of failures: a command that finds [true] at its head raises a
    ConnectionError without being applied. *)

From Stdlib Require Import String.
From S2P Require Import Prelude PyStr Json Errors Redis.
Open Scope list_scope.

Record mstate : Type := mkM {
  m_srv : server;
  m_now : Z;                       (* milliseconds *)
  m_delivered : list (rval * Z);   (* last delivery time of an id *)
  m_faults : list bool
}.

Definition set_srv (v : server) (s : mstate) : mstate :=
  mkM v (m_now s) (m_delivered s) (m_faults s).
Definition set_faults (f : list bool) (s : mstate) : mstate :=
  mkM (m_srv s) (m_now s) (m_delivered s) f.
Definition note_delivery (l : list rval) (s : mstate) : mstate :=
  mkM (m_srv s) (m_now s) (((λ i, (i, m_now s)) <$> l) ++ m_delivered s) (m_faults s).

Definition rlen (v : rval) : nat :=
  match v with RB b => length b | RS s => length s end.

(** An id longer than every issued one. *)
Definition fresh_id (issued : list rval) : rval :=
  RS (replicate (S (max_list (rlen <$> issued))) 49%N ++ u "-0").

Definition delivered_at (id : rval) (l : list (rval * Z)) : Z :=
  match list_find (λ p, p.1 = id) l with Some (_, p) => p.2 | None => 0%Z end.

Definition connection_error : exn := RedisExn RConnectionError (u "redis down").

(** A command that may be lost. *)
Definition faulty {A} (op : M mstate A) : M mstate A := fun s =>
  match m_faults s with
  | true :: f => (Raise connection_error, set_faults f s)
  | false :: f => op (set_faults f s)
  | [] => op s
  end.

Definition busygroup : exn :=
  RedisExn RResponseError (u "BUSYGROUP Consumer Group name already exists").
Definition nogroup : exn := RedisExn RResponseError (u "NOGROUP No such consumer group").
Definition data_error : exn := RedisExn RDataError (u "XREVRANGE count must be a positive integer").

Definition m_xgroup_create (k g _id : pystr) (_mk : bool) : M mstate unit := faulty (fun s =>
  let st := stream_of (m_srv s) k in
  match s_groups st !! g with
  | Some _ => (Raise busygroup, s)
  | None => (Ok tt, set_srv (<[k := mkStream (s_entries st) (s_issued st)
                         (<[g := mkGroup (s_entries st) []]> (s_groups st))]> (m_srv s)) s)
  end).

Definition m_xlen (k : pystr) : M mstate Z := faulty (fun s =>
  (Ok (Z.of_nat (length (s_entries (stream_of (m_srv s) k)))), s)).

Definition trim_count (m : option (Z * bool)) (len : nat) : nat :=
  match m with Some (n, false) => len - Z.to_nat n | _ => 0 end.

Definition m_xadd (k : pystr) (body : fields) (m : option (Z * bool)) : M mstate rval :=
  faulty (fun s =>
    let st := stream_of (m_srv s) k in
    let id := fresh_id (s_issued st) in
    let es := drop (trim_count m (S (length (s_entries st)))) (s_entries st ++ [(id, body)]) in
    (Ok id, set_srv (<[k := mkStream es (s_issued st ++ [id])
                        ((λ g, trimmed es (offer (id, body) g)) <$> s_groups st)]> (m_srv s)) s)).

Definition m_reply_entry (e : entry) : rval * rfields := (e.1, prod_map RS RS <$> e.2).

Definition m_xreadgroup (g c : pystr) (streams : list (pystr * pystr)) (count block : Z)
    : M mstate (list (rval * list (rval * rfields))) := faulty (fun s =>
  match streams with
  | [(k, _)] =>
      match m_srv s !! k with
      | Some st =>
          match s_groups st !! g with
          | Some gv =>
              let batch := take (Z.to_nat count) (g_todo gv) in
              (Ok match batch with [] => [] | _ => [(RS k, m_reply_entry <$> batch)] end,
               note_delivery (ids batch)
                 (set_srv (set_group k g
                    (mkGroup (drop (Z.to_nat count) (g_todo gv))
                             (g_pel gv ++ ((λ e, (e.1, c)) <$> batch))) (m_srv s)) s))
          | None => (Raise nogroup, s)
          end
      | None => (Raise nogroup, s)
      end
  | _ => (Raise nogroup, s)
  end).

Definition m_xack (k g : pystr) (id : rval) : M mstate Z := faulty (fun s =>
  match m_srv s !! k ≫= (λ st, s_groups st !! g) with
  | None => (Ok 0%Z, s)
  | Some gv =>
      (Ok (if decide (id ∈ (g_pel gv).*1) then 1 else 0)%Z,
       set_srv (set_group k g (mkGroup (g_todo gv) (filter (λ p, p.1 ≠ id) (g_pel gv)))
                          (m_srv s)) s)
  end).

Definition m_xautoclaim (k g c : pystr) (min_idle : Z) (start : pystr) (count : Z)
    : M mstate autoclaim_reply := faulty (fun s =>
  match m_srv s !! k with
  | Some st =>
      match s_groups st !! g with
      | Some gv =>
          let stale := filter (λ i, (min_idle ≤ m_now s - delivered_at i (m_delivered s))%Z)
                              (g_pel gv).*1 in
          let cand := take (Z.to_nat count) stale in
          let claimed := take (Z.to_nat count)
                              (filter (λ e : entry, e.1 ∈ cand) (s_entries st)) in
          let deleted := filter (λ i, i ∉ ids (s_entries st)) cand in
          let pel' := (λ p : rval * pystr, if decide (p.1 ∈ ids claimed) then (p.1, c) else p)
                        <$> filter (λ p, p.1 ∉ deleted) (g_pel gv) in
          (Ok (ACReply (RS (u "0-0")) (m_reply_entry <$> claimed) deleted),
           note_delivery (ids claimed)
             (set_srv (set_group k g (mkGroup (g_todo gv) pel') (m_srv s)) s))
      | None => (Raise nogroup, s)
      end
  | None => (Raise nogroup, s)
  end).

Definition m_xrevrange (k mx mn : pystr) (count : Z) : M mstate (list (rval * rfields)) := fun s =>
  if (count <? 1)%Z then (Raise data_error, s)
  else faulty (fun s =>
    (Ok (m_reply_entry <$> take (Z.to_nat count) (rev (s_entries (stream_of (m_srv s) k)))), s)) s.

Definition m_xdel (k : pystr) (id : rval) : M mstate Z := faulty (fun s =>
  match m_srv s !! k with
  | None => (Ok 0%Z, s)
  | Some st =>
      let es := filter (λ e, e.1 ≠ id) (s_entries st) in
      (Ok (Z.of_nat (length (s_entries st) - length es)),
       set_srv (<[k := mkStream es (s_issued st) (trimmed es <$> s_groups st)]> (m_srv s)) s)
  end).

(** Keys matching a pattern [pre*post]. *)
Definition glob_filter (pattern k : pystr) : bool :=
  match py_split 42 pattern with
  | [pre; post] =>
      starts_with pre k && starts_with (rev post) (rev (drop (length pre) k))
  | _ => false
  end.

(** The cursor is the position of the next of the matching keys; a page holds two. *)
Definition m_scan (cursor : Z) (pattern : pystr) (count : Z) : M mstate (Z * list rval) :=
  faulty (fun s =>
    let keys := drop (Z.to_nat cursor)
                  (filter (λ k, glob_filter pattern k = true) (map_to_list (m_srv s)).*1) in
    (Ok ((match drop 2 keys with [] => 0 | _ => cursor + 2 end)%Z, RS <$> take 2 keys), s)).

#[export] Instance model_redis : Redis := {|
  rstate := mstate;
  decode_responses := true;
  xadd_approximate := true;
  xgroup_create := m_xgroup_create;
  xlen := m_xlen;
  xadd := m_xadd;
  xreadgroup := m_xreadgroup;
  xack := m_xack;
  xautoclaim := m_xautoclaim;
  xrevrange := m_xrevrange;
  xdel := m_xdel;
  scan := m_scan
|}.

(** ** The laws hold *)

Lemma faulty_law {A} (op : M mstate A) (eff : server → A → server → Prop) :
  (∀ s r s', op s = (r, s') → outcome eff (m_srv s) r (m_srv s')) →
  ∀ s r s', faulty op s = (r, s') → outcome eff (m_srv s) r (m_srv s').
Proof.
  intros Hop s r s'. unfold faulty. destruct (m_faults s) as [|[] f].
  - apply Hop.
  - intros [= <- <-]. by left.
  - intros H%Hop. done.
Qed.

Lemma fresh_id_fresh l : fresh_id l ∉ l.
Proof.
  intros Hin.
  assert (rlen (fresh_id l) ≤ max_list (rlen <$> l))%nat.
  { apply max_list_elem_of_le, list_elem_of_fmap. by exists (fresh_id l). }
  simpl in *. rewrite length_app, length_replicate in *. lia.
Qed.

Lemma trim_count_ok m len : trim_ok m len (trim_count m len).
Proof. destruct m as [[n []]|]; simpl; auto. Qed.

Lemma fst_filter {A B} (P : A → Prop) `{!∀ x, Decision (P x)} (l : list (A * B)) :
  (filter (λ p, P p.1) l).*1 = filter P l.*1.
Proof.
  induction l as [|[a b] l IH]; [done|]. rewrite fmap_cons, !filter_cons.
  cbn [fst]. case_decide; [rewrite fmap_cons|]; by rewrite IH.
Qed.

Lemma m_xautoclaim_law k g c idle count s r s' :
  m_xautoclaim k g c idle (u "0-0") count s = (r, s') →
  outcome (xautoclaim_eff k g c count) (m_srv s) r (m_srv s').
Proof.
  apply faulty_law. clear. intros s r s'.
  destruct (m_srv s !! k) as [st|] eqn:Hk; [|intros [= <- <-]; by left].
  destruct (s_groups st !! g) as [gv|] eqn:Hg; [|intros [= <- <-]; by left].
  intros [= <- <-]. simpl.
  set (cand := take (Z.to_nat count) (filter _ (g_pel gv).*1)).
  set (claimed := take (Z.to_nat count) (filter (λ e : entry, e.1 ∈ cand) (s_entries st))).
  set (deleted := filter _ cand).
  assert (∀ e, e ∈ claimed → e ∈ s_entries st ∧ e.1 ∈ cand) as Hcl.
  { intros e He. apply elem_of_take in He as (i & He & _).
    apply list_elem_of_lookup_2, list_elem_of_filter in He. tauto. }
  assert (∀ i, i ∈ cand → i ∈ (g_pel gv).*1) as Hcand.
  { intros i Hi. apply elem_of_take in Hi as (j & Hj & _).
    apply list_elem_of_lookup_2, list_elem_of_filter in Hj. tauto. }
  unfold xautoclaim_eff. do 6 eexists. repeat split; try done.
  - subst claimed. rewrite length_take. lia.
  - intros e He. by apply Hcl.
  - intros e He. by apply Hcand, Hcl.
  - intros i Hi. apply list_elem_of_filter in Hi. tauto.
  - rewrite <- fst_filter, <- list_fmap_compose. apply list_fmap_ext.
    intros _ [i o] _. simpl. by case_decide.
  - intros i o Hio. apply list_elem_of_fmap in Hio as ([i' o'] & Heq & Hin).
    apply list_elem_of_filter in Hin as [_ Hin]. simpl in Heq.
    case_decide; simplify_eq; auto.
Qed.

#[export, program] Instance model_redis_spec : RedisSpec model_redis := {| view := m_srv |}.
Next Obligation.
  intros k g s r s'. apply faulty_law. clear. intros s r s'. unfold xgroup_create_eff.
  destruct (s_groups (stream_of (m_srv s) k) !! g) eqn:Hg; intros [= <- <-]; simpl; auto.
Qed.
Next Obligation. intros k s r s'. apply faulty_law. by intros ??? [= <- <-]. Qed.
Next Obligation.
  intros k body m s r s'. apply faulty_law. clear. intros s r s' [= <- <-]. simpl.
  exists (trim_count m (S (length (s_entries (stream_of (m_srv s) k))))).
  split; [apply fresh_id_fresh|]. split; [apply trim_count_ok|done].
Qed.
Next Obligation.
  intros g c k count block s r s'. apply faulty_law. clear. intros s r s'.
  destruct (m_srv s !! k) as [st|] eqn:Hk; [|intros [= <- <-]; by left].
  destruct (s_groups st !! g) as [gv|] eqn:Hg; [|intros [= <- <-]; by left].
  intros [= <- <-]. simpl. by exists st, gv.
Qed.
Next Obligation.
  intros k g id s r s'. apply faulty_law. clear. intros s r s'. unfold xack_eff.
  destruct (m_srv s !! k ≫= _) as [gv|] eqn:Hk; intros [= <- <-]; simpl; by rewrite Hk.
Qed.
Next Obligation. exact m_xautoclaim_law. Qed.
Next Obligation.
  intros k count s r s'. unfold xrevrange, model_redis, m_xrevrange.
  destruct (count <? 1)%Z; [intros [= <- <-]; by left|]. apply faulty_law.
  by intros ??? [= <- <-].
Qed.
Next Obligation.
  intros k mx mn count s Hc. unfold xrevrange, model_redis, m_xrevrange.
  rewrite (proj2 (Z.ltb_lt count 1)) by done. by eexists.
Qed.
Next Obligation.
  intros k id s r s'. apply faulty_law. clear. intros s r s'. unfold xdel_eff.
  destruct (m_srv s !! k) as [st|] eqn:Hk; intros [= <- <-]; simpl; by rewrite Hk.
Qed.
Next Obligation.
  intros c p n s r s'. unfold scan, model_redis, m_scan, faulty.
  by destruct (m_faults s) as [|[] f]; intros [= <- <-].
Qed.

(** A server with nothing in it and no failures scheduled. *)
Definition fresh_server : mstate := mkM ∅ 0 [] [].
