(* ===== verification/Transport.v ===== *)
(** * The Redis Streams transport: [relayq/infrastructure/redis_stream.py]

    [RedisStreamTransport] over an abstract server ([Redis]).  Every method is a
    computation on the server state; a method that needs the wall clock (the
    default of [Job.from_dict]) takes it as [now]. *)

From Stdlib Require Import String.
From S2P Require Import Prelude PyStr Json Errors Datetime Job Redis.
Open Scope list_scope.

Section Transport.
Context {R : Redis}.
(** [stream_prefix] *)
Variable prefix : pystr.

(** ** Keys *)

Definition DLQ_SUFFIX : pystr := u ":dlq".

Definition _stream_key (queue : pystr) : pystr := prefix ++ u ":" ++ queue ++ u ":stream".
Definition _group_key (queue : pystr) : pystr := prefix ++ u ":" ++ queue ++ u ":group".
Definition _dlq_key (queue : pystr) : pystr := prefix ++ u ":" ++ queue ++ DLQ_SUFFIX.
Definition _consumer_name (worker_id : pystr) : pystr := u "worker-" ++ worker_id.

(** ** Lifecycle *)

Definition ensure_group (queue : pystr) : M rstate unit :=
  try_except (xgroup_create (_stream_key queue) (_group_key queue) (u "0") true)
    (fun exc => if is_ResponseError exc
                then Some (if contains (u "BUSYGROUP") (exn_str exc) then mret tt else throw exc)
                else None).

Definition stream_length (queue : pystr) : M rstate Z := xlen (_stream_key queue).

(** ** Enqueue *)

(** [{"job": json.dumps(job.to_dict(), default=str)}] *)
Definition job_body (job : Job) : result exn fields :=
  d ← to_dict job; mret [(u "job", dumps d)].

(** [if maxlen: kwargs["maxlen"] = maxlen; if approximate: kwargs["approximate"] = True]:
    the client's default otherwise. *)
Definition maxlen_option (maxlen : Z) (approximate : bool) : option (Z * bool) :=
  if (maxlen =? 0)%Z then None
  else Some (maxlen, if approximate then true else xadd_approximate).

(** Not named [xadd]: that is the client's command. *)
Definition transport_xadd (queue : pystr) (job : Job) (maxlen : Z) (approximate : bool)
    : M rstate rval :=
  body ← lift (job_body job);
  xadd (_stream_key queue) body (maxlen_option maxlen approximate).

Definition xadd_dlq (queue : pystr) (job : Job) (reason : pystr) : M rstate rval :=
  d ← lift (to_dict job);
  xadd (_dlq_key queue)
       [(u "job", dumps d);
        (u "reason", reason);
        (u "dlqed_at", dumps (JStr (isoformat (job_created_at job))))]
       None.

(** ** Dequeue and claim *)

(** [bytes.decode("utf-8")], the identity on [str]. *)
Definition decode_rval (v : rval) : result exn pystr :=
  match v with
  | RS s => Ok s
  | RB b => match utf8_decode b with Some s => Ok s | None => Raise UnicodeDecodeError end
  end.

(** [fields.get(bkey, fields.get(skey))] *)
Definition get_either (k : string) (fs : rfields) : option rval :=
  match rget (RB (u k)) fs with
  | Some v => Some v
  | None => rget (RS (u k)) fs
  end.

Definition json_loads (s : pystr) : result exn json :=
  match loads s with Some j => Ok j | None => Raise JSONDecodeError end.

(** One iteration over an entry: [None] when the entry is skipped (no [job]
    field, or a decoding error the [except] clause logs). *)
Definition decode_entry (now : datetime) (fs : rfields) : result exn (option Job) :=
  match get_either "job" fs with
  | None => Ok None
  | Some raw =>
      raw ← decode_rval raw;
      match (job_dict ← json_loads raw; from_dict now job_dict) with
      | Ok job => Ok (Some job)
      | Raise exc => if is_JSONDecodeError_or_KeyError exc then Ok None else Raise exc
      end
  end.

(** The loop over the entries of one stream of a reply. *)
Fixpoint collect (now : datetime) (name : result exn pystr) (l : list (rval * rfields))
    : result exn (list (pystr * rval * Job)) :=
  match l with
  | [] => Ok []
  | (entry_id, fs) :: l' =>
      oj ← decode_entry now fs;
      match oj with
      | None => collect now name l'
      | Some job => nm ← name; rest ← collect now name l'; mret ((nm, entry_id, job) :: rest)
      end
  end.

Fixpoint collect_streams (now : datetime) (l : list (rval * list (rval * rfields)))
    : result exn (list (pystr * rval * Job)) :=
  match l with
  | [] => Ok []
  | (stream_name, entries) :: l' =>
      js ← collect now (decode_rval stream_name) entries;
      rest ← collect_streams now l';
      mret (js ++ rest)
  end.

Definition read_group (now : datetime) (queue worker_id : pystr) (count block_ms : Z)
    : M rstate (list (pystr * rval * Job)) :=
  results ← xreadgroup (_group_key queue) (_consumer_name worker_id)
                       [(_stream_key queue, u ">")] count block_ms;
  lift (collect_streams now results).

Definition transport_xack (queue : pystr) (entry_id : rval) : M rstate Z :=
  xack (_stream_key queue) (_group_key queue) entry_id.

Definition autoclaim_stale (now : datetime) (queue worker_id : pystr) (min_idle_ms count : Z)
    : M rstate (list (pystr * rval * Job)) :=
  result ← xautoclaim (_stream_key queue) (_group_key queue) (_consumer_name worker_id)
                      min_idle_ms (u "0-0") count;
  match result with
  | ACEmpty | ACCursorOnly _ => mret []
  | ACReply _ entries _ => lift (collect now (Ok (_stream_key queue)) entries)
  end.

(** ** Dead letters *)

Record dlq_entry : Type := mkDlqEntry { de_entry_id : rval; de_job : json; de_reason : pystr }.

(** [reason = fields.get(b"reason", fields.get("reason", b"unknown"))], decoded. *)
Definition dlq_reason (fs : rfields) : result exn pystr :=
  decode_rval (default (RB (u "unknown")) (get_either "reason" fs)).

(** [json.loads(raw)] for a [raw] that is [None] when the field is missing. *)
Definition loads_raw (raw : option pystr) : result exn json :=
  match raw with
  | None => Raise (TypeError (u "the JSON object must be str, bytes or bytearray, not NoneType"))
  | Some s => json_loads s
  end.

Definition decode_opt (v : option rval) : result exn (option pystr) :=
  match v with None => Ok None | Some v => s ← decode_rval v; mret (Some s) end.

Definition dlq_item (e : rval * rfields) : result exn dlq_entry :=
  raw ← decode_opt (get_either "job" e.2);
  reason ← dlq_reason e.2;
  match loads_raw raw with
  | Ok job_dict => Ok (mkDlqEntry e.1 job_dict reason)
  | Raise JSONDecodeError => Ok (mkDlqEntry e.1 (from_option JStr JNull raw) reason)
  | Raise exc => Raise exc
  end.

Fixpoint dlq_items (l : list (rval * rfields)) : result exn (list dlq_entry) :=
  match l with
  | [] => Ok []
  | e :: l' => x ← dlq_item e; xs ← dlq_items l'; mret (x :: xs)
  end.

Definition read_dlq (queue start end_ : pystr) (count : Z) : M rstate (list dlq_entry) :=
  entries ← xrevrange (_dlq_key queue) end_ start count;
  lift (dlq_items entries).

(** [job_dict.get("id") == job_id] *)
Definition id_matches (job_id : pystr) (d : json) : result exn bool :=
  match d with
  | JObj fs => Ok (match dict_get (u "id") fs with
                   | Some (JStr s) => bool_decide (s = job_id)
                   | _ => false
                   end)
  | _ => Raise (AttributeError (u "object has no attribute 'get'"))
  end.

Fixpoint find_dlq (job_id : pystr) (l : list (rval * rfields)) : result exn (option dlq_entry) :=
  match l with
  | [] => Ok None
  | (entry_id, fs) :: l' =>
      raw ← decode_opt (get_either "job" fs);
      match loads_raw raw with
      | Ok job_dict =>
          m ← id_matches job_id job_dict;
          if m : bool then
            reason ← dlq_reason fs; mret (Some (mkDlqEntry entry_id job_dict reason))
          else find_dlq job_id l'
      | Raise JSONDecodeError => find_dlq job_id l'
      | Raise exc => Raise exc
      end
  end.

Definition read_dlq_entry (queue job_id : pystr) : M rstate (option dlq_entry) :=
  entries ← xrevrange (_dlq_key queue) (u "+") (u "-") 200;
  lift (find_dlq job_id entries).

Definition delete_dlq_entry (queue : pystr) (entry_id : rval) : M rstate unit :=
  _ ← xdel (_dlq_key queue) entry_id; mret tt.

(** ** Queue listing *)

(** [parts = key.split(":"); if len(parts) >= 3: parts[1]] *)
Definition queue_of_key (key : pystr) : option pystr :=
  match py_split 58 key with
  | _ :: q :: _ :: _ => Some q
  | _ => None
  end.

(** [queues.add(q)] on a list without duplicates. *)
Definition set_add (q : pystr) (qs : list pystr) : list pystr :=
  if decide (q ∈ qs) then qs else qs ++ [q].

Fixpoint add_keys (keys : list rval) (qs : list pystr) : result exn (list pystr) :=
  match keys with
  | [] => Ok qs
  | k :: keys' =>
      key ← decode_rval k;
      add_keys keys' (match queue_of_key key with Some q => set_add q qs | None => qs end)
  end.

(** [while True] over the SCAN cursor; [fuel] bounds the calls ([None] when it
    runs out before the cursor returns to zero). *)
Fixpoint scan_loop (fuel : nat) (cursor : Z) (qs : list pystr)
    : M rstate (option (list pystr)) :=
  match fuel with
  | O => mret None
  | S fuel' =>
      ck ← scan cursor (prefix ++ u ":*:stream") 100;
      qs' ← lift (add_keys ck.2 qs);
      if (ck.1 =? 0)%Z then mret (Some (py_sorted qs'))
      else scan_loop fuel' ck.1 qs'
  end.

Definition transport_list_queues (fuel : nat) : M rstate (option (list pystr)) :=
  scan_loop fuel 0 [].

(** A string whose reply decodes to itself: any string when the client decodes
    responses, ASCII text otherwise. *)
Definition clean (s : pystr) : Prop := decode_responses = true ∨ is_ascii s = true.

(** ** Lemmas: keys *)

Lemma stream_key_inj q q' : _stream_key q = _stream_key q' → q = q'.
Proof.
  unfold _stream_key. intros H%app_inv_head. apply app_inv_head in H.
  by apply app_inv_tail in H.
Qed.

Lemma last_ne (a b : pystr) s t x y : x ≠ y → a ++ s ++ [x] ≠ b ++ t ++ [y].
Proof.
  intros Hne H. rewrite !(assoc_L (++)) in H. apply app_inj_tail in H as [_ ?]. done.
Qed.

(** ** Lemmas: decoding replies *)

Lemma decode_reply s : clean s → decode_rval (reply s) = Ok s.
Proof.
  unfold clean, reply, decode_rval. destruct decode_responses; [done|].
  intros [?|Ha]; [done|]. rewrite utf8_encode_ascii by done. simpl.
  by rewrite utf8_decode_ascii.
Qed.

(** Looking a field up in a reply is looking it up in what was sent. *)
Lemma get_either_reply k (body : fields) :
  is_ascii (u k) = true → forallb (λ f, is_ascii f.1) body = true →
  get_either k (prod_map reply reply <$> body) = reply <$> dict_get (u k) body.
Proof.
  intros Hk Hb. unfold get_either.
  assert (rget (reply (u k)) (prod_map reply reply <$> body) = reply <$> dict_get (u k) body)
    as Hget.
  { induction body as [|[k' v] body IH]; [done|].
    apply andb_true_iff in Hb as [Hk' Hb]. specialize (IH Hb). simpl.
    assert (reply (u k) = reply k' ↔ u k = k') as Hiff.
    { unfold reply. destruct decode_responses; [naive_solver|].
      simpl in Hk'. rewrite !utf8_encode_ascii by done. naive_solver. }
    destruct (decide (u k = k')) as [He|He].
    - by rewrite decide_True by (by apply Hiff).
    - by rewrite decide_False by (by intros ?%Hiff). }
  unfold reply in Hget at 1. destruct decode_responses eqn:Hd.
  - assert (rget (RB (u k)) (prod_map reply reply <$> body) = None) as ->; [|done].
    clear Hget Hb. induction body as [|[k' v] body IH]; [done|]. simpl.
    by rewrite decide_False by (unfold reply; by rewrite Hd).
  - rewrite utf8_encode_ascii in Hget by done. simpl in Hget. rewrite Hget.
    destruct (dict_get (u k) body) eqn:Hg; [done|]. simpl.
    clear Hget. induction body as [|[k' v] body IH]; [done|].
    apply andb_true_iff in Hb as [_ Hb]. simpl in Hg |- *. case_decide; [done|].
    rewrite decide_False by (unfold reply; by rewrite Hd). by apply IH.
Qed.

(** The job text is read back whatever the reply mode, for payloads whose float
    literals are ASCII when replies are bytes. *)
Definition job_clean (job : Job) : Prop :=
  decode_responses = true ∨ ∀ d, to_dict job = Ok d → ascii_floats d = true.

Lemma body_clean job d : job_wf job → job_clean job → to_dict job = Ok d → clean (dumps d).
Proof.
  intros Hwf [Hc|Hc] Hd; [by left|]. right.
  apply dumps_ascii; [by eapply to_dict_wf|by apply Hc].
Qed.

Lemma decode_entry_body now job body :
  job_wf job → job_clean job → job_body job = Ok body →
  decode_entry now (prod_map reply reply <$> body) = Ok (Some job).
Proof.
  intros Hwf Hc. unfold job_body. destruct (to_dict job) as [d|e] eqn:Hd; [|done].
  intros [= <-]. unfold decode_entry. rewrite get_either_reply by done.
  change (dict_get (u "job") [(u "job", dumps d)]) with (Some (dumps d)). simpl.
  rewrite decode_reply by (by eapply body_clean). cbn [mbind result_mbind].
  pose proof (job_wire now job d Hwf Hd) as Hw.
  unfold json_loads. destruct (loads (dumps d)) as [x|]; [|done].
  simpl in Hw. injection Hw as Hw. cbn [mbind result_mbind]. by rewrite Hw.
Qed.

(** Decoding a batch: every decodable entry in order, unless one raises. *)
Lemma collect_all now name nm l js :
  name = Ok nm →
  Forall2 (λ e j, decode_entry now e.2 = Ok (Some j)) l js →
  collect now name l = Ok (zip_with (λ e j, (nm, e.1, j)) l js).
Proof.
  intros ->. induction 1 as [|[id fs] j l js Hd Hl IH]; [done|]. simpl in *.
  rewrite Hd. cbn [mbind result_mbind]. by rewrite IH.
Qed.

Lemma collect_raise now name l1 id fs l2 e :
  is_ok name = true →
  Forall (λ x, is_ok (decode_entry now x.2) = true) l1 →
  decode_entry now fs = Raise e →
  collect now name (l1 ++ (id, fs) :: l2) = Raise e.
Proof.
  intros Hn Hl He. destruct name as [nm|]; [|done].
  induction Hl as [|[i f] l Hx Hl IH]; simpl in *.
  - by rewrite He.
  - destruct (decode_entry now f) as [[j|]|] eqn:Hd; [|done|done].
    cbn [mbind result_mbind]. by rewrite IH.
Qed.

End Transport.
