(* ===== verification/SqliteStore.v ===== *)
(** * The SQLite outbox: [relayq/infrastructure/sqlite_store.py]

    The database is the committed table, at most one open write transaction (WAL
    mode: one writer, readers see the committed rows) and the connections in a
    deferred transaction that holds no lock.  The [sqlite3] module opens a deferred
    transaction before INSERT and UPDATE, before it binds their parameters, and
    leaves it open until [commit] or [rollback], also when the binding or the
    statement fails.  The statement takes the write lock; one that finds another
    connection's transaction open gives up after [busy_timeout] with an
    OperationalError, and so does one whose transaction has read rows that are no
    longer the committed ones (SQLITE_BUSY_SNAPSHOT).

    A connection is a number: the thread-local connection of a [SqliteStore]. *)

From Stdlib Require Import String.
From S2P Require Import Prelude PyStr Json Errors Datetime Job.
Open Scope list_scope.

(** ** Values, rows, the database *)

Inductive sqlval : Type := VNull | VText (s : pystr) | VInt (z : Z) | VReal (lit : pystr).

#[export] Instance sqlval_eq_dec : EqDecision sqlval.
Proof. solve_decision. Defined.

Record row : Type := mkRow {
  r_id : sqlval; r_kind : sqlval; r_payload : sqlval; r_status : sqlval;
  r_created_at : sqlval; r_attempts : sqlval; r_max_retries : sqlval;
  r_idempotency_key : sqlval; r_queue : sqlval
}.

(** What a deferred transaction without a lock has read: nothing yet, the committed
    rows, or rows that were committed then. *)
Inductive reader : Type := Unread | Current | Outdated (rows : list row).

Record sqlite : Type := mkDb {
  db_table : option (list row);          (* committed rows; None before the schema exists *)
  db_writer : option (nat * list row);   (* the connection with the write lock, its rows *)
  db_deferred : gmap nat reader          (* the connections in a deferred transaction *)
}.

(** No connection is in a transaction. *)
Definition idle (rows : list row) : sqlite := mkDb (Some rows) None ∅.

(** [SqliteStore(db_path, clock)] used from one thread. *)
Record SqliteStore : Type := mkStore { store_conn : nat; store_now : datetime }.

(** ** Parameter binding and column affinity *)

Definition int64 (z : Z) : bool := (- 2 ^ 63 <=? z)%Z && (z <? 2 ^ 63)%Z.

Definition bind (v : json) : result exn sqlval :=
  match v with
  | JNull => Ok VNull
  | JBool b => Ok (VInt (Z.b2z b))
  | JInt z => if int64 z then Ok (VInt z)
              else Raise (OverflowError (u "Python int too large to convert to SQLite INTEGER"))
  | JFloat lit => Ok (VReal lit)
  | JStr s => Ok (VText s)
  | JArr _ | JObj _ => Raise (ProgrammingError (u "type is not supported"))
  end.

Definition text_affinity (v : sqlval) : sqlval :=
  match v with
  | VInt z => VText (str_int z)
  | VReal lit => VText lit
  | _ => v
  end.

(** Text that is a decimal integer becomes one. *)
Definition integer_affinity (v : sqlval) : sqlval :=
  match v with
  | VText s =>
      let '(neg, d) := match s with
                       | c :: r => if N.eqb c 45 then (true, r) else (false, s)
                       | [] => (false, [])
                       end in
      match span_digits d with
      | (_ :: _ as ds, []) => let z := Z.of_N (digits_val ds) in
                              VInt (if neg : bool then - z else z)%Z
      | _ => v
      end
  | _ => v
  end.

(** ** Statements *)

(** The rows a statement of the connection reads. *)
Definition rows_of (conn : nat) (db : sqlite) : list row :=
  match db_writer db with
  | Some (c, w) =>
      if decide (c = conn) then w
      else match db_deferred db !! conn with
           | Some (Outdated rows) => rows
           | _ => default [] (db_table db)
           end
  | None => match db_deferred db !! conn with
            | Some (Outdated rows) => rows
            | _ => default [] (db_table db)
            end
  end.

Definition with_deferred (d : gmap nat reader) (db : sqlite) : sqlite :=
  mkDb (db_table db) (db_writer db) d.

(** [sqlite3_get_autocommit] is false. *)
Definition in_transaction (conn : nat) (db : sqlite) : bool :=
  match db_writer db with
  | Some (c, _) => bool_decide (c = conn) || bool_decide (is_Some (db_deferred db !! conn))
  | None => bool_decide (is_Some (db_deferred db !! conn))
  end.

Definition locked : exn := OperationalError (u "database is locked").
Definition nested : exn :=
  OperationalError (u "cannot start a transaction within a transaction").

(** The BEGIN the module issues before INSERT and UPDATE. *)
Definition implicit_begin (conn : nat) : M sqlite unit := fun db =>
  (Ok tt, if in_transaction conn db then db
          else with_deferred (<[conn := Unread]> (db_deferred db)) db).

(** The write lock of a connection in a transaction. *)
Definition write_lock (conn : nat) : M sqlite unit := fun db =>
  match db_writer db with
  | Some (c, _) => if decide (c = conn) then (Ok tt, db) else (Raise locked, db)
  | None =>
      match db_deferred db !! conn with
      | Some (Outdated _) => (Raise locked, db)
      | _ => (Ok tt, mkDb (db_table db) (Some (conn, default [] (db_table db)))
                          (delete conn (db_deferred db)))
      end
  end.

(** The statement itself; a failing one changes no row and ends no transaction. *)
Definition change_rows (conn : nat) (f : list row → result exn (list row)) : M sqlite unit := fun db =>
  match f (rows_of conn db) with
  | Ok w => (Ok tt, mkDb (db_table db) (Some (conn, w)) (db_deferred db))
  | Raise e => (Raise e, db)
  end.

(** [conn.execute] of an INSERT or UPDATE: its parameters [ps] are bound after the
    implicit BEGIN. *)
Definition dml {A} (conn : nat) (ps : result exn A) (f : A → list row → result exn (list row))
    : M sqlite unit :=
  _ ← implicit_begin conn;
  a ← lift ps;
  _ ← write_lock conn;
  change_rows conn (f a).

(** BEGIN IMMEDIATE; when it fails, no transaction is open. *)
Definition begin_immediate (conn : nat) : M sqlite unit := fun db =>
  if in_transaction conn db then (Raise nested, db)
  else match db_writer db with
       | Some _ => (Raise locked, db)
       | None => (Ok tt, mkDb (db_table db) (Some (conn, default [] (db_table db))) (db_deferred db))
       end.

(** What the other transactions have read is no longer the committed table. *)
Definition outdate (old : list row) (r : reader) : reader :=
  match r with Current => Outdated old | _ => r end.

(** COMMIT of a transaction that changed rows. *)
Definition commit (conn : nat) : M sqlite unit := fun db =>
  match db_writer db with
  | Some (c, w) =>
      if decide (c = conn)
      then (Ok tt, mkDb (Some w) None (outdate (default [] (db_table db)) <$> db_deferred db))
      else (Ok tt, with_deferred (delete conn (db_deferred db)) db)
  | None => (Ok tt, with_deferred (delete conn (db_deferred db)) db)
  end.

Definition rollback (conn : nat) : M sqlite unit := fun db =>
  match db_writer db with
  | Some (c, _) =>
      if decide (c = conn) then (Ok tt, mkDb (db_table db) None (db_deferred db))
      else (Ok tt, with_deferred (delete conn (db_deferred db)) db)
  | None => (Ok tt, with_deferred (delete conn (db_deferred db)) db)
  end.

(** SELECT; the first one of a deferred transaction fixes what it reads from then on. *)
Definition select (conn : nat) (p : row → bool) : M sqlite (option row) := fun db =>
  (Ok (List.find p (rows_of conn db)),
   match db_deferred db !! conn with
   | Some Unread => with_deferred (<[conn := Current]> (db_deferred db)) db
   | _ => db
   end).

(** SQL [=]: NULL equals nothing. *)
Definition sql_eq (a b : sqlval) : bool :=
  match a, b with VNull, _ | _, VNull => false | _, _ => bool_decide (a = b) end.

Definition not_null (r : row) : bool :=
  forallb (fun v => negb (bool_decide (v = VNull)))
    [r_kind r; r_payload r; r_status r; r_created_at r; r_attempts r; r_max_retries r; r_queue r].

(** INSERT under the NOT NULL, PRIMARY KEY and partial UNIQUE constraints. *)
Definition insert_row (r : row) (rows : list row) : result exn (list row) :=
  if negb (not_null r) then Raise (IntegrityError (u "NOT NULL constraint failed"))
  else if existsb (fun x => sql_eq (r_id x) (r_id r)) rows then
    Raise (IntegrityError (u "UNIQUE constraint failed: jobs.id"))
  else if existsb (fun x => sql_eq (r_idempotency_key x) (r_idempotency_key r)) rows then
    Raise (IntegrityError (u "UNIQUE constraint failed: jobs.idempotency_key"))
  else Ok (rows ++ [r]).

Definition set_row_status (st : pystr) (attempts : option sqlval) (r : row) : row :=
  mkRow (r_id r) (r_kind r) (r_payload r) (VText st) (r_created_at r)
        (match attempts with Some a => integer_affinity a | None => r_attempts r end)
        (r_max_retries r) (r_idempotency_key r) (r_queue r).

(** UPDATE jobs SET status [, attempts] WHERE id = ? *)
Definition update_rows (id : sqlval) (st : pystr) (attempts : option sqlval) (rows : list row)
    : list row :=
  map (fun r => if sql_eq (r_id r) (text_affinity id) then set_row_status st attempts r else r) rows.

(** ** SqliteStore *)

(** The first use of a connection creates the schema. *)
Definition _init_schema : M sqlite unit := fun db =>
  match db_table db with
  | Some _ => (Ok tt, db)
  | None => match db_writer db with
            | None => (Ok tt, mkDb (Some []) None (db_deferred db))
            | Some _ => (Raise locked, db)
            end
  end.

Definition _get_conn (st : SqliteStore) : M sqlite nat :=
  _ ← _init_schema; mret (store_conn st).

(** The bound parameters of the INSERT, as the columns store them. *)
Definition job_params (sv : pystr) (job : Job) : result exn row :=
  id ← bind (job_id job);
  kind ← bind (job_kind job);
  attempts ← bind (job_attempts job);
  max_retries ← bind (job_max_retries job);
  key ← bind (job_idempotency_key job);
  queue ← bind (job_queue job);
  mret (mkRow (text_affinity id) (text_affinity kind) (VText (dumps (job_payload job)))
              (VText sv) (VText (isoformat (job_created_at job)))
              (integer_affinity attempts) (integer_affinity max_retries)
              (text_affinity key) (text_affinity queue)).

(** The row of a job: [job.status.value] is read before [execute] is called. *)
Definition job_row (job : Job) : result exn row :=
  sv ← status_attr_value (job_status job); job_params sv job.

Definition insert_outbox (st : SqliteStore) (job : Job) : M sqlite unit :=
  conn ← _get_conn st;
  sv ← lift (status_attr_value (job_status job));
  dml conn (job_params sv job) insert_row.

(** [attempt] is [JNull] when it is [None]. *)
Definition update_status (st : SqliteStore) (job_id : json) (status : JobStatus) (attempt : json)
    : M sqlite unit :=
  conn ← _get_conn st;
  match attempt with
  | JNull =>
      dml conn (bind job_id) (fun id rows => Ok (update_rows id (status_value status) None rows))
  | _ =>
      dml conn (a ← bind attempt; id ← bind job_id; mret (a, id))
        (fun ps rows => Ok (update_rows ps.2 (status_value status) (Some ps.1) rows))
  end.

(** A column value as Python sees it. *)
Definition of_sql (v : sqlval) : json :=
  match v with
  | VNull => JNull | VText s => JStr s | VInt z => JInt z | VReal lit => JFloat lit
  end.

(** The [Job(...)] both lookups build: [created_at] is the clock, not the column. *)
Definition row_job (st : SqliteStore) (r : row) : result exn Job :=
  payload ← match r_payload r with
            | VText s => match loads s with Some j => Ok j | None => Raise JSONDecodeError end
            | v => Ok (of_sql v)
            end;
  status ← parse_status (of_sql (r_status r));
  mret (mkJob (of_sql (r_id r)) (of_sql (r_kind r)) payload (StEnum status) (store_now st)
              (of_sql (r_attempts r)) (of_sql (r_max_retries r)) (of_sql (r_idempotency_key r))
              (of_sql (r_queue r))).

Definition row_result (st : SqliteStore) (o : option row) : result exn (option Job) :=
  match o with None => Ok None | Some r => j ← row_job st r; mret (Some j) end.

Definition get_job (st : SqliteStore) (job_id : pystr) : M sqlite (option Job) :=
  conn ← _get_conn st;
  row ← select conn (fun r => sql_eq (r_id r) (VText job_id));
  lift (row_result st row).

Definition find_by_idempotency_key (st : SqliteStore) (key : pystr) : M sqlite (option Job) :=
  conn ← _get_conn st;
  row ← select conn (fun r => sql_eq (r_idempotency_key r) (VText key));
  lift (row_result st row).

(** [async with self.transaction(): body] *)
Definition transaction (st : SqliteStore) (body : M sqlite unit) : M sqlite unit :=
  conn ← _get_conn st;
  _ ← begin_immediate conn;
  except_Exception (_ ← body; commit conn)
    (fun exc => _ ← rollback conn; throw exc).

(** ** Invariant: the table's constraints *)

Definition unique_on (f : row → sqlval) (rows : list row) : Prop :=
  NoDup (filter (λ v, v ≠ VNull) (f <$> rows)).

Definition rows_wf (rows : list row) : Prop :=
  unique_on r_id rows ∧ unique_on r_idempotency_key rows.

Definition db_wf (db : sqlite) : Prop :=
  rows_wf (default [] (db_table db)) ∧
  match db_writer db with Some (_, w) => rows_wf w | None => True end.

(** ** Lemmas *)

Lemma sql_eq_true a b : sql_eq a b = true ↔ a = b ∧ b ≠ VNull.
Proof.
  destruct a, b; simpl; rewrite ?bool_decide_eq_true; split; try done; try (by intros [? ?]);
    intros H; try (split; congruence); by destruct H.
Qed.

Lemma unique_on_snoc f rows r :
  unique_on f rows → existsb (λ x, sql_eq (f x) (f r)) rows = false → unique_on f (rows ++ [r]).
Proof.
  unfold unique_on. intros Hu He. rewrite fmap_app, filter_app. apply NoDup_app.
  split; [done|]. rewrite list_fmap_singleton, filter_cons. case_decide as Hn.
  - split; [|apply NoDup_singleton]. intros v Hv Hr. apply list_elem_of_singleton in Hr as ->.
    apply list_elem_of_filter in Hv as [_ (x & Hx & Hin)%list_elem_of_fmap].
    apply not_true_iff_false in He. apply He, existsb_exists.
    exists x. split; [by apply list_elem_of_In|]. by apply sql_eq_true.
  - split; [|apply NoDup_nil_2]. by intros v _ Hv%not_elem_of_nil.
Qed.

Lemma insert_row_wf r rows rows' :
  rows_wf rows → insert_row r rows = Ok rows' → rows_wf rows'.
Proof.
  intros [H1 H2]. unfold insert_row. destruct (negb (not_null r)); [done|].
  destruct (existsb _ rows) eqn:E1; [done|].
  destruct (existsb (λ x, sql_eq (r_idempotency_key x) _) rows) eqn:E2; [done|].
  intros [= <-]. split; by apply unique_on_snoc.
Qed.

Lemma update_rows_wf id s a rows : rows_wf rows → rows_wf (update_rows id s a rows).
Proof.
  unfold rows_wf, unique_on, update_rows.
  assert (∀ f : row → sqlval, (∀ r, f (set_row_status s a r) = f r) →
    f <$> map (λ r, if sql_eq (r_id r) (text_affinity id) then set_row_status s a r else r) rows
    = f <$> rows) as Hf.
  { intros f Hf. induction rows as [|r rows IH]; [done|]. cbn [map]. rewrite !fmap_cons, IH.
    f_equal. by destruct (sql_eq _ _); rewrite ?Hf. }
  by rewrite !Hf.
Qed.

(** Operations that keep the database well formed. *)
Definition keeps_wf {A} (m : M sqlite A) : Prop := ∀ db, db_wf db → db_wf (m db).2.

Lemma keeps_bind {A B} (m : M sqlite A) (k : A → M sqlite B) :
  keeps_wf m → (∀ a, keeps_wf (k a)) → keeps_wf (m ≫= k).
Proof.
  intros Hm Hk db Hdb. unfold mbind, st_mbind. specialize (Hm db Hdb).
  destruct (m db) as [[a|e] db1]; simpl in *; [by apply Hk|done].
Qed.

Lemma keeps_lift {A} (r : result exn A) : keeps_wf (lift r).
Proof. by intros db. Qed.

Lemma deferred_wf d db : db_wf db → db_wf (with_deferred d db).
Proof. done. Qed.

Lemma implicit_begin_wf conn : keeps_wf (implicit_begin conn).
Proof. intros db Hdb. unfold implicit_begin. cbn. case_match; [done|by apply deferred_wf]. Qed.

Lemma write_lock_wf conn : keeps_wf (write_lock conn).
Proof.
  intros db [Ht Hw]. unfold write_lock, db_wf.
  destruct (db_writer db) as [[c w]|] eqn:E; [case_decide; cbn; by rewrite E|].
  destruct (db_deferred db !! conn) as [[]|]; cbn; rewrite ?E; by split.
Qed.

(** A statement runs on the transaction its connection has locked. *)
Definition locked_by (conn : nat) (db : sqlite) : Prop := ∃ w, db_writer db = Some (conn, w).

Lemma write_lock_locks conn db u db' : write_lock conn db = (Ok u, db') → locked_by conn db'.
Proof.
  unfold write_lock, locked_by. destruct (db_writer db) as [[c w]|] eqn:E.
  - case_decide; [|done]. subst. intros [= _ <-]. by exists w.
  - repeat case_match; intros; simplify_eq; by eexists.
Qed.

Lemma rows_locked conn w db : db_writer db = Some (conn, w) → rows_of conn db = w.
Proof. unfold rows_of. intros ->. by rewrite decide_True. Qed.

Lemma change_rows_wf conn f db :
  (∀ rows rows', rows_wf rows → f rows = Ok rows' → rows_wf rows') →
  locked_by conn db → db_wf db → db_wf (change_rows conn f db).2.
Proof.
  intros Hf [w Hl] [Ht Hw]. unfold change_rows, db_wf. rewrite (rows_locked _ _ _ Hl).
  rewrite Hl in *. destruct (f w) eqn:Hfw; cbn; [by eauto|by rewrite Hl].
Qed.

Lemma dml_wf {A} conn (ps : result exn A) f :
  (∀ a rows rows', rows_wf rows → f a rows = Ok rows' → rows_wf rows') → keeps_wf (dml conn ps f).
Proof.
  intros Hf. apply keeps_bind; [apply implicit_begin_wf|]. intros _.
  apply keeps_bind; [apply keeps_lift|]. intros a db Hdb.
  pose proof (write_lock_wf conn db Hdb) as Hw. unfold mbind, st_mbind.
  destruct (write_lock conn db) as [[[]|e] db'] eqn:Hl; [|done].
  apply change_rows_wf; [apply Hf|by eapply write_lock_locks|done].
Qed.

Lemma begin_wf conn : keeps_wf (begin_immediate conn).
Proof.
  intros db Hdb. pose proof Hdb as [Ht Hw]. unfold begin_immediate.
  destruct (in_transaction conn db); [done|].
  destruct (db_writer db) as [[c w]|] eqn:E; [done|]. by split.
Qed.

Lemma commit_wf conn : keeps_wf (commit conn).
Proof.
  intros db Hdb. pose proof Hdb as [Ht Hw]. unfold commit.
  destruct (db_writer db) as [[c w]|] eqn:E; [case_decide|]; [|by apply deferred_wf..].
  by split.
Qed.

Lemma rollback_wf conn : keeps_wf (rollback conn).
Proof.
  intros db Hdb. pose proof Hdb as [Ht Hw]. unfold rollback.
  destruct (db_writer db) as [[c w]|] eqn:E; [case_decide|]; [|by apply deferred_wf..].
  by split.
Qed.

Lemma init_wf db : db_wf db → db_wf (_init_schema db).2.
Proof.
  intros [Ht Hw]. unfold _init_schema, db_wf. destruct (db_table db) eqn:Et; simpl; [by rewrite Et|].
  destruct (db_writer db) eqn:E; simpl; [by rewrite Et, E|]. repeat split; constructor.
Qed.

Lemma keeps_select conn p : keeps_wf (select conn p).
Proof. intros db Hdb. unfold select. cbn. repeat case_match; done. Qed.

Lemma keeps_get_conn st : keeps_wf (_get_conn st).
Proof. apply keeps_bind; [exact init_wf|by intros ??]. Qed.

Lemma keeps_except {A} (m : M sqlite A) h :
  keeps_wf m → (∀ e, keeps_wf (h e)) → keeps_wf (except_Exception m h).
Proof.
  intros Hm Hh db Hdb. unfold except_Exception, try_except. specialize (Hm db Hdb).
  destruct (m db) as [[a|e] db1]; simpl in *; [done|].
  destruct (is_Exception e); [by apply Hh|done].
Qed.

#[export] Hint Resolve keeps_bind keeps_lift keeps_select keeps_get_conn keeps_except
  begin_wf commit_wf rollback_wf init_wf dml_wf : relayq.

Lemma keeps_insert_outbox st job : keeps_wf (insert_outbox st job).
Proof.
  apply keeps_bind; [apply keeps_get_conn|]. intros conn.
  apply keeps_bind; [apply keeps_lift|]. intros sv. apply dml_wf.
  intros r rows rows'. apply insert_row_wf.
Qed.

Lemma keeps_update_status st id s a : keeps_wf (update_status st id s a).
Proof.
  apply keeps_bind; [apply keeps_get_conn|]. intros conn.
  destruct a; apply dml_wf; intros ? rows ? ? [= <-]; by apply update_rows_wf.
Qed.

Lemma keeps_transaction st body : keeps_wf body → keeps_wf (transaction st body).
Proof.
  intros Hb. apply keeps_bind; [apply keeps_get_conn|]. intros conn.
  apply keeps_bind; [apply begin_wf|]. intros _.
  apply keeps_except.
  - apply keeps_bind; [done|]. intros _. apply commit_wf.
  - intros e. apply keeps_bind; [apply rollback_wf|by intros ??].
Qed.

(** ** Properties *)

(** C29: the UNIQUE constraints are an invariant of the store: from a database
    in which no two rows (committed, or written by the open transaction) share
    an id or a non-null idempotency key, every method of [SqliteStore] leads to
    such a database, whether it returns or raises. *)
Theorem store_keeps_unique st db job job_id key status attempt body :
  db_wf db → keeps_wf body →
  db_wf (insert_outbox st job db).2 ∧
  db_wf (update_status st job_id status attempt db).2 ∧
  db_wf (get_job st key db).2 ∧
  db_wf (find_by_idempotency_key st key db).2 ∧
  db_wf (transaction st body db).2 ∧
  db_wf (transaction st (insert_outbox st job) db).2.
Proof.
  intros Hdb Hbody.
  assert (∀ {A} (p : row → bool) (k : option row → M sqlite A), (∀ o, keeps_wf (k o)) →
            keeps_wf (conn ← _get_conn st; o ← select conn p; k o)) as Hsel.
  { intros A p k Hk. apply keeps_bind; [apply keeps_get_conn|]. intros conn.
    apply keeps_bind; [apply keeps_select|done]. }
  split_and!.
  - by apply keeps_insert_outbox.
  - by apply keeps_update_status.
  - apply Hsel; [intros; apply keeps_lift|done].
  - apply Hsel; [intros; apply keeps_lift|done].
  - by apply keeps_transaction.
  - apply keeps_transaction; [apply keeps_insert_outbox|done].
Qed.

(** ** Connections and visibility *)

Lemma get_conn_idle st db : is_Some (db_table db) → _get_conn st db = (Ok (store_conn st), db).
Proof.
  intros [rows H]. unfold _get_conn, _init_schema, mbind, st_mbind, mret, st_mret. by rewrite H.
Qed.

(** A transaction that finds no other writer commits the rows its statement leaves,
    or changes nothing. *)
Lemma transaction_insert_run st job rows D :
  D !! store_conn st = None →
  transaction st (insert_outbox st job) (mkDb (Some rows) None D) =
  match (r ← job_row job; insert_row r rows) with
  | Ok rows' => (Ok tt, mkDb (Some rows') None (outdate rows <$> D))
  | Raise e => if is_Exception e then (Raise e, mkDb (Some rows) None D)
               else (Raise e, mkDb (Some rows) (Some (store_conn st, rows)) D)
  end.
Proof.
  intros HD. set (c := store_conn st) in *.
  assert (begin_immediate c (mkDb (Some rows) None D) = (Ok tt, mkDb (Some rows) (Some (c, rows)) D)) as Hb.
  { unfold begin_immediate, in_transaction. cbn. by rewrite HD. }
  assert (insert_outbox st job (mkDb (Some rows) (Some (c, rows)) D) =
          match (r ← job_row job; insert_row r rows) with
          | Ok rows' => (Ok tt, mkDb (Some rows) (Some (c, rows')) D)
          | Raise e => (Raise e, mkDb (Some rows) (Some (c, rows)) D)
          end) as Hi.
  { unfold insert_outbox, job_row, dml, implicit_begin, write_lock, change_rows, rows_of, in_transaction,
      _get_conn, _init_schema, lift, mbind, st_mbind, result_mbind, mret, st_mret. cbn. fold c.
    destruct (status_attr_value (job_status job)) as [sv|]; [|done]. rewrite bool_decide_true by done.
    cbn. destruct (job_params sv job) as [r|]; [|done]. rewrite !decide_True by done. cbn.
    rewrite decide_True by done. by destruct (insert_row r rows). }
  unfold transaction, except_Exception, try_except, _get_conn, _init_schema, mbind, st_mbind, throw,
    mret, st_mret in *. cbn. fold c. rewrite Hb, Hi.
  destruct (job_row job) as [r|e]; cbn; [destruct (insert_row r rows) as [rows'|e]; cbn|];
    unfold commit, rollback; cbn; rewrite ?decide_True by done; [done|..];
    destruct (is_Exception e); try done; cbn; by rewrite decide_True.
Qed.

(** The exceptions of an insertion are all [Exception]s, so they are rolled back. *)
Lemma bind_exn v e : bind v = Raise e → is_Exception e = true.
Proof. destruct v; simpl; try done; [destruct (int64 _)|..]; by intros [= <-]. Qed.

Lemma job_row_exn job e : job_row job = Raise e → is_Exception e = true.
Proof.
  unfold job_row, job_params. destruct (job_status job); cbn; [|by intros [= <-]].
  intros H. repeat match type of H with
    | context [bind ?v] => let E := fresh "E" in
        destruct (bind v) eqn:E; cbn in H;
        [|injection H as <-; by eapply bind_exn]
    end. done.
Qed.

Lemma dml_exn {A} c (ps : result exn A) f db e db' :
  dml c ps f db = (Raise e, db') → (∀ x, ps = Raise x → is_Exception x = true) →
  (∀ a w x, f a w = Raise x → is_Exception x = true) → is_Exception e = true.
Proof.
  intros H Hps Hf. unfold dml in H.
  apply st_bind_inv in H as [(u1 & d1 & _ & H)|(? & [=] & _)].
  apply st_bind_inv in H as [(a & d2 & _ & H)|(y & H & [= ->])]; [|apply Hps; by injection H].
  apply st_bind_inv in H as [(u2 & d3 & _ & H)|(y & H & [= ->])].
  - unfold change_rows in H. destruct (f a (rows_of c d3)) eqn:Hfa; [done|]. injection H as <- _. eauto.
  - unfold write_lock in H. by repeat case_match; simplify_eq.
Qed.

(** [update_status] raises only [Exception]s. *)
Lemma update_status_exn st id s a db e db' :
  update_status st id s a db = (Raise e, db') → is_Exception e = true.
Proof.
  intros H. unfold update_status in H.
  apply st_bind_inv in H as [(c & d1 & _ & H)|(x & H & [= ->])].
  - assert (∀ x, (y ← bind a; z ← bind id; mret (y, z)) = Raise x → is_Exception x = true) as Hps.
    { intros x. destruct (bind a) eqn:Ha; cbn; [|intros [= <-]; by eapply bind_exn].
      destruct (bind id) eqn:Hb; cbn; [done|intros [= <-]; by eapply bind_exn]. }
    destruct a; (eapply dml_exn; [exact H| |by intros ??? [=]]); [apply bind_exn|exact Hps..].
  - unfold _get_conn in H. apply st_bind_inv in H as [(? & ? & _ & [=])|(? & H & [= ->])].
    unfold _init_schema in H. by repeat case_match; simplify_eq.
Qed.

Lemma insert_row_exn r rows e : insert_row r rows = Raise e → ∃ msg, e = IntegrityError msg.
Proof. unfold insert_row. repeat case_match; intros [= <-]; eauto. Qed.

(** ** The row of a well-typed job *)

Definition fits (j : Job) : Prop :=
  ∀ z, job_attempts j = JInt z ∨ job_max_retries j = JInt z → int64 z = true.

(** What a lookup returns for a stored job: the job, created "now". *)
Definition as_read (now : datetime) (j : Job) : Job :=
  mkJob (job_id j) (job_kind j) (job_payload j) (job_status j) now (job_attempts j)
        (job_max_retries j) (job_idempotency_key j) (job_queue j).

Lemma job_row_typed st j :
  job_typed j → job_wf j → fits j →
  ∃ r, job_row j = Ok r ∧ row_job st r = Ok (as_read (store_now st) j) ∧
       not_null r = true ∧
       r_id r = text_affinity (default VNull (match bind (job_id j) with Ok v => Some v | _ => None end)) ∧
       (∀ k, job_idempotency_key j = JStr k → r_idempotency_key r = VText k).
Proof.
  intros ([i Hi] & [k Hk] & [p Hp] & [s Hs] & [a Ha] & [m Hm] & Hkey & [q Hq]) Hwf Hfit.
  assert (int64 a = true) as Hfa by (apply Hfit; by left).
  assert (int64 m = true) as Hfm by (apply Hfit; by right).
  destruct j as [ji jk jp js jc ja jm jik jq]; simpl in *. subst.
  assert (∃ v, bind jik = Ok v ∧ of_sql (text_affinity v) = jik ∧
               ∀ k', jik = JStr k' → text_affinity v = VText k') as (v & Hv & Hv2 & Hv3).
  { destruct Hkey as [->|[k' ->]]; eexists; simpl; naive_solver. }
  unfold job_row, job_params. cbn -[status_value dumps isoformat]. rewrite Hfa, Hfm, Hv.
  cbn -[status_value dumps isoformat]. eexists. split; [done|].
  split; [|split_and!; [done|done|naive_solver]].
  unfold row_job. cbn -[status_value status_of_value dumps loads]. rewrite loads_dumps by apply Hwf.
  cbn -[status_value status_of_value]. by rewrite status_of_value_value, Hv2.
Qed.

(** The status and key columns of a row. *)
Lemma job_row_columns j s k r :
  job_status j = StEnum s → job_idempotency_key j = JStr k → job_row j = Ok r →
  r_status r = VText (status_value s) ∧ r_idempotency_key r = VText k.
Proof.
  intros Hs Hk. unfold job_row, job_params. rewrite Hs, Hk. simpl status_attr_value.
  change (bind (JStr k)) with (Ok (E := exn) (VText k)).
  destruct (bind (job_id j)), (bind (job_kind j)), (bind (job_attempts j)),
    (bind (job_max_retries j)), (bind (job_queue j)); by intros [= <-].
Qed.

Lemma find_app_new {A} (p : A → bool) l x :
  existsb p l = false → p x = true → List.find p (l ++ [x]) = Some x.
Proof.
  intros Hl Hx. induction l as [|y l IH]; simpl in *; [by rewrite Hx|].
  destruct (p y); [done|]. by apply IH.
Qed.

Lemma existsb_sql_eq_comm (f : row → sqlval) v rows :
  existsb (λ x, sql_eq (f x) v) rows = existsb (λ x, sql_eq v (f x)) rows.
Proof.
  induction rows as [|r rows IH]; [done|]. simpl. rewrite IH. f_equal.
  apply eq_true_iff_eq. rewrite !sql_eq_true. naive_solver.
Qed.

(** A job inserted in a transaction is committed and can be read back by its
    idempotency key on every connection that is in no transaction; what comes back
    is the job itself, except that its [created_at] is the reader's clock. *)
Theorem insert_then_find st st' job key rows D db' :
  D !! store_conn st = None → D !! store_conn st' = None →
  job_typed job → job_wf job → fits job →
  job_idempotency_key job = JStr key →
  transaction st (insert_outbox st job) (mkDb (Some rows) None D) = (Ok tt, db') →
  db_writer db' = None ∧
  find_by_idempotency_key st' key db' = (Ok (Some (as_read (store_now st') job)), db').
Proof.
  intros HD HD' Ht Hwf Hfit Hkey. rewrite transaction_insert_run by done.
  destruct (job_row_typed st' job Ht Hwf Hfit) as (r & Hr & Hrow & Hnn & _ & Hrk).
  rewrite Hr. cbn [mbind result_mbind]. unfold insert_row. rewrite Hnn. cbn [negb].
  destruct (existsb _ rows) eqn:E1; [by destruct (is_Exception _)|].
  destruct (existsb (λ x, sql_eq (r_idempotency_key x) _) rows) eqn:E2;
    [by destruct (is_Exception _)|].
  intros [= <-]. split; [done|].
  unfold find_by_idempotency_key. erewrite st_bind_ok by (by apply get_conn_idle).
  unfold select, rows_of, mbind, st_mbind. cbn. rewrite lookup_fmap, HD'. cbn.
  rewrite (Hrk _ Hkey) in E2. rewrite find_app_new; [|done|].
  - cbn. by rewrite Hrow.
  - apply sql_eq_true. by rewrite (Hrk _ Hkey).
Qed.

(** Once a row with an idempotency key is committed, inserting any job with
    that key raises IntegrityError and leaves the database as it was. *)
Theorem duplicate_key_rejected st job r rows x D :
  D !! store_conn st = None →
  job_row job = Ok r → x ∈ rows →
  r_idempotency_key x = r_idempotency_key r → r_idempotency_key r ≠ VNull →
  ∃ msg, transaction st (insert_outbox st job) (mkDb (Some rows) None D) =
         (Raise (IntegrityError msg), mkDb (Some rows) None D).
Proof.
  intros HD Hr Hx Hk Hn. rewrite transaction_insert_run, Hr by done. cbn [mbind result_mbind].
  destruct (insert_row r rows) as [rows'|e] eqn:Hi.
  - exfalso. unfold insert_row in Hi.
    destruct (existsb (λ x, sql_eq (r_idempotency_key x) (r_idempotency_key r)) rows) eqn:E.
    + by repeat case_match.
    + apply not_true_iff_false in E. apply E, existsb_exists. exists x.
      split; [by apply list_elem_of_In|]. by apply sql_eq_true.
  - destruct (insert_row_exn _ _ _ Hi) as [msg ->]. by exists msg.
Qed.

(** ** Calls on the store, by any of its users *)

Inductive store_call : Type :=
| CallUpdate (st : SqliteStore) (job_id : json) (status : JobStatus) (attempt : json)
| CallGet (st : SqliteStore) (job_id : pystr)
| CallFind (st : SqliteStore) (key : pystr)
| CallInsert (st : SqliteStore) (job : Job).

(** The database after a call, whether it returned or raised. *)
Definition run_call (c : store_call) (db : sqlite) : sqlite :=
  match c with
  | CallUpdate st i s a => (update_status st i s a db).2
  | CallGet st i => (get_job st i db).2
  | CallFind st k => (find_by_idempotency_key st k db).2
  | CallInsert st job => (transaction st (insert_outbox st job) db).2
  end.

Definition run_calls (cs : list store_call) (db : sqlite) : sqlite :=
  fold_left (fun db c => run_call c db) cs db.

Definition updates (conn : nat) (c : store_call) : bool :=
  match c with CallUpdate st _ _ _ => bool_decide (store_conn st = conn) | _ => false end.

(** A connection holds the write lock on the table [tbl] in a transaction that none of
    the calls ends; those in [free], but for it, are in no transaction. *)
Definition held_by (conn : nat) (tbl : list row) (free : nat → Prop) (db : sqlite) : Prop :=
  db_table db = Some tbl ∧ (∃ w, db_writer db = Some (conn, w)) ∧
  ∀ c, free c → c ≠ conn → db_deferred db !! c = None.

Lemma with_deferred_same db : with_deferred (db_deferred db) db = db.
Proof. by destruct db. Qed.

Lemma held_deferred conn tbl (free : nat → Prop) db c r :
  held_by conn tbl free db → ¬ free c → held_by conn tbl free (with_deferred (<[c := r]> (db_deferred db)) db).
Proof.
  intros (Ht & Hw & Hd) Hc. split_and!; [done..|]. intros c' Hf Hne. cbn.
  rewrite lookup_insert_ne by (by intros ->). by apply Hd.
Qed.

(** A statement of another connection finds the lock taken. *)
Lemma dml_held {A} conn tbl (free : nat → Prop) c (ps : result exn A) f db :
  (free c → c = conn) → held_by conn tbl free db → held_by conn tbl free (dml c ps f db).2.
Proof.
  intros Hc H. pose proof H as (Ht & [w Hw] & Hd).
  assert (held_by conn tbl free (implicit_begin c db).2) as H1.
  { unfold implicit_begin. cbn. destruct (in_transaction c db) eqn:Hin; [done|].
    apply held_deferred; [done|]. intros Hf. unfold in_transaction in Hin. rewrite Hw in Hin.
    by rewrite (bool_decide_true (conn = c)) in Hin by (symmetry; by apply Hc). }
  unfold dml. erewrite st_bind_ok by (unfold implicit_begin; done).
  change (held_by conn tbl free ((a ← lift ps; _ ← write_lock c; change_rows c (f a)) (implicit_begin c db).2).2).
  destruct (implicit_begin c db).2 as [t [[c' w']|] d]; [|by destruct H1 as (_ & [? [=]] & _)].
  destruct H1 as (Ht1 & [w1 Hw1] & Hd1). cbn in *. injection Hw1 as -> ->.
  unfold write_lock, change_rows, lift, mbind, st_mbind. destruct ps as [a|]; cbn; [|by split_and!; eauto].
  destruct (decide (conn = c)) as [<-|]; cbn; [|by split_and!; eauto].
  destruct (f a _); split_and!; cbn; eauto.
Qed.

Lemma select_held conn tbl (free : nat → Prop) c p db :
  held_by conn tbl free db → held_by conn tbl free (select c p db).2.
Proof.
  intros H. unfold select. cbn. destruct (db_deferred db !! c) as [[]|] eqn:Hc; [|done..].
  pose proof H as (Ht & Hw & Hd). split_and!; [done..|]. intros c' Hf Hne. cbn.
  destruct (decide (c' = c)) as [->|]; [|by rewrite lookup_insert_ne; [apply Hd|]].
  specialize (Hd c Hf Hne). congruence.
Qed.

Lemma transaction_held st body conn tbl free db :
  held_by conn tbl free db →
  transaction st body db = (Raise (if in_transaction (store_conn st) db then nested else locked), db).
Proof.
  intros (Ht & (w & Hw) & _). unfold transaction.
  erewrite st_bind_ok by (apply get_conn_idle; by rewrite Ht).
  apply st_bind_raise. unfold begin_immediate. destruct (in_transaction _ db); [done|]. by rewrite Hw.
Qed.

Lemma run_call_held conn tbl (free : nat → Prop) c db :
  (∀ x, updates x c = true → free x → x = conn) →
  held_by conn tbl free db → held_by conn tbl free (run_call c db).
Proof.
  intros Hc Hin. assert (is_Some (db_table db)) as Hs by (destruct Hin as [-> _]; eauto).
  destruct c as [st i s a|st i|st k|st job]; simpl.
  - unfold update_status. erewrite st_bind_ok by (by apply get_conn_idle).
    assert (free (store_conn st) → store_conn st = conn) as Hf
      by (apply Hc; simpl; by apply bool_decide_eq_true).
    destruct a; by apply dml_held.
  - unfold get_job. erewrite st_bind_ok by (by apply get_conn_idle).
    apply (select_held _ _ _ (store_conn st) (λ r, sql_eq (r_id r) (VText i))) in Hin. exact Hin.
  - unfold find_by_idempotency_key. erewrite st_bind_ok by (by apply get_conn_idle).
    apply (select_held _ _ _ (store_conn st) (λ r, sql_eq (r_idempotency_key r) (VText k))) in Hin. exact Hin.
  - by erewrite transaction_held.
Qed.

Lemma run_calls_held conn tbl (free : nat → Prop) cs db :
  (∀ c x, c ∈ cs → updates x c = true → free x → x = conn) →
  held_by conn tbl free db → held_by conn tbl free (run_calls cs db).
Proof.
  revert db. induction cs as [|c cs IH]; intros db Hc Hdb; [done|]. apply IH.
  - intros c' x Hin. apply Hc. by right.
  - apply run_call_held; [|done]. intros x. apply Hc. by left.
Qed.

(** A successful UPDATE leaves its connection with the write lock. *)
Lemma update_takes_lock st job_id status attempt rows D db' :
  update_status st job_id status attempt (mkDb (Some rows) None D) = (Ok tt, db') →
  held_by (store_conn st) rows (λ c, D !! c = None) db'.
Proof.
  assert (∀ A (ps : result exn A) f, dml (store_conn st) ps f (mkDb (Some rows) None D) = (Ok tt, db') →
    held_by (store_conn st) rows (λ c, D !! c = None) db') as Hdml.
  { intros A ps f H. unfold dml in H. erewrite st_bind_ok in H by (unfold implicit_begin; done).
    apply st_bind_inv in H as [(a & d1 & Hps & H)|(? & _ & [=])]. injection Hps as _ <-.
    apply st_bind_inv in H as [([] & d2 & Hl & H)|(? & _ & [=])].
    assert (db_table d2 = Some rows ∧ db_writer d2 = Some (store_conn st, rows) ∧
            ∀ c, D !! c = None → c ≠ store_conn st → db_deferred d2 !! c = None) as (H1 & H2 & H3).
    { unfold write_lock in Hl. destruct (in_transaction _ _); cbn in Hl;
        repeat case_match; simplify_eq; (split_and!; [done..|]); intros c Hc Hne; cbn;
        rewrite lookup_delete_ne by done; by rewrite ?lookup_insert_ne. }
    unfold change_rows in H. destruct (f a _); [|done]. injection H as <-. split_and!; [done|by eexists|done]. }
  intros H. unfold update_status in H. erewrite st_bind_ok in H by (by apply get_conn_idle).
  destruct attempt; by eapply Hdml.
Qed.

(** C30: [update_status] never commits.  After one successful call on a database
    without a writer, whatever calls follow on whatever connections, the committed
    table never changes again, and every outbox transaction (the enqueue path) raises
    OperationalError and changes nothing: nested on the connection of the call,
    locked on a connection in no transaction (one that was in none and does no
    [update_status]), nested again on one that has tried its own. *)
Theorem update_status_blocks_outbox st job_id status attempt rows D db' calls :
  update_status st job_id status attempt (mkDb (Some rows) None D) = (Ok tt, db') →
  let db := run_calls calls db' in
  db_table db = Some rows ∧
  ∀ st' job, ∃ e, transaction st' (insert_outbox st' job) db = (Raise e, db) ∧
    (e = nested ∨ e = locked) ∧
    (store_conn st' = store_conn st → e = nested) ∧
    (store_conn st' ≠ store_conn st → D !! store_conn st' = None →
     Forall (λ c, updates (store_conn st') c = false) calls → e = locked).
Proof.
  intros Hu%update_takes_lock db.
  assert (held_by (store_conn st) rows (λ _, False) db) as Hdb.
  { apply run_calls_held; [by intros|]. by destruct Hu as (? & ? & _). }
  split; [apply Hdb|]. intros st' job. eexists. split; [by eapply transaction_held|].
  pose proof Hdb as (_ & [w Hw] & _). split; [case_match; auto|]. split.
  - intros ->. unfold in_transaction. rewrite Hw. by rewrite bool_decide_true.
  - intros Hne HD Hcs. rewrite Forall_forall in Hcs.
    assert (held_by (store_conn st) rows (λ c, c = store_conn st') db) as (_ & _ & Hd).
    { apply run_calls_held; [|destruct Hu as (? & ? & Hu); split_and!; [done..|by intros c ->; apply Hu]].
      intros c x Hc Hx ->. by rewrite (Hcs c Hc) in Hx. }
    unfold in_transaction. rewrite Hw, Hd by done. rewrite bool_decide_false by done. done.
Qed.

Lemma idle_free conn rows : in_transaction conn (idle rows) = false.
Proof. unfold in_transaction. cbn. by rewrite lookup_empty. Qed.

(** A call whose parameters can not be bound leaves its connection in a transaction as
    well, but without the lock: its own outbox transactions fail, the others' do
    not. *)
Lemma unbindable_blocks_own st job_id status rows e :
  bind job_id = Raise e →
  let '(r, db) := update_status st job_id status JNull (idle rows) in
  r = Raise e ∧ db_table db = Some rows ∧ db_writer db = None ∧
  ∀ job, transaction st (insert_outbox st job) db = (Raise nested, db).
Proof.
  intros Hb. unfold update_status. erewrite st_bind_ok by (by apply get_conn_idle).
  unfold dml, implicit_begin, lift, mbind, st_mbind. rewrite idle_free, Hb. cbn.
  split_and!; [done..|]. intros job. unfold transaction.
  erewrite st_bind_ok by (by apply get_conn_idle). apply st_bind_raise.
  unfold begin_immediate, in_transaction. cbn. by rewrite lookup_insert_eq.
Qed.

(** ** Witnesses *)

Definition store1 : SqliteStore := mkStore 0 noon.
Definition keyed_job : Job := set_idempotency_key (JStr (u "k")) (mail_job 3).
Definition db_with_job : sqlite := (transaction store1 (insert_outbox store1 keyed_job) (idle [])).2.

Lemma store_keeps_unique_witness : db_wf (insert_outbox store1 keyed_job db_with_job).2.
Proof.
  assert (db_wf (idle [])) as H0 by (repeat split; constructor).
  assert (keeps_wf (mret tt)) as Hm by (by intros db).
  destruct (store_keeps_unique store1 _ keyed_job JNull (u "k") DEAD JNull (mret tt) H0 Hm)
    as (_ & _ & _ & _ & _ & H1).
  by destruct (store_keeps_unique store1 _ keyed_job JNull (u "k") DEAD JNull (mret tt) H1 Hm).
Defined.

Lemma insert_then_find_witness :
  let other := mkStore 7 (mkDatetime 2030 1 1 0 0 0 0 None) in
  find_by_idempotency_key other (u "k") db_with_job =
  (Ok (Some (as_read (store_now other) keyed_job)), db_with_job).
Proof.
  intros other.
  apply (insert_then_find store1 other keyed_job (u "k") [] ∅ db_with_job); [reflexivity|reflexivity|..].
  - repeat split; eauto.
  - destruct (mail_job_wf 3) as (? & ? & ? & ? & ? & ? & ? & ?). repeat split; try done.
    constructor. by vm_compute.
  - intros z [[= <-]|[= <-]]; vm_compute; reflexivity.
  - reflexivity.
  - vm_compute. reflexivity.
Defined.

Lemma duplicate_key_rejected_witness :
  let other := set_idempotency_key (JStr (u "k")) (mail_job 0) in
  ∃ msg, (transaction store1 (insert_outbox store1 other) db_with_job).1 = Raise (IntegrityError msg).
Proof.
  intros other. destruct (job_row keyed_job) as [x|] eqn:Hx; [|vm_compute in Hx; discriminate Hx].
  destruct (job_row other) as [r|] eqn:Hr; [|vm_compute in Hr; discriminate Hr].
  assert (db_with_job = idle [x]) as ->
    by (vm_compute in Hx; injection Hx as <-; vm_compute; reflexivity).
  destruct (duplicate_key_rejected store1 other r [x] x ∅ (lookup_empty _) Hr) as [msg Hm]; [by left| | |].
  - vm_compute in Hx, Hr. by injection Hx as <-; injection Hr as <-.
  - vm_compute in Hr. by injection Hr as <-.
  - exists msg. unfold idle. by rewrite Hm.
Defined.

(** Between the two, the other connection tries an update of its own. *)
Lemma update_status_blocks_outbox_witness :
  let other := mkStore 1 noon in
  let '(r, db) := update_status store1 (JStr (u "job_1")) PROCESSING (JInt 0) (idle []) in
  r = Ok tt ∧
  transaction store1 (insert_outbox store1 keyed_job) db = (Raise nested, db) ∧
  transaction other (insert_outbox other keyed_job) db = (Raise locked, db) ∧
  let db2 := run_call (CallUpdate other (JStr (u "job_1")) DEAD JNull) db in
  ∃ e, transaction other (insert_outbox other keyed_job) db2 = (Raise e, db2) ∧ (e = nested ∨ e = locked).
Proof.
  intros other.
  destruct (update_status store1 (JStr (u "job_1")) PROCESSING (JInt 0) (idle [])) as [r db] eqn:H.
  assert (r = Ok tt) as -> by (vm_compute in H; by injection H as <- _).
  split; [reflexivity|].
  destruct (update_status_blocks_outbox store1 (JStr (u "job_1")) PROCESSING (JInt 0) [] ∅ db [] H)
    as [_ Hb].
  destruct (update_status_blocks_outbox store1 (JStr (u "job_1")) PROCESSING (JInt 0) [] ∅ db
              [CallUpdate other (JStr (u "job_1")) DEAD JNull] H) as [_ Hc].
  split; [|split].
  - destruct (Hb store1 keyed_job) as (e & He & _ & Hn & _). rewrite (Hn eq_refl) in He. exact He.
  - destruct (Hb other keyed_job) as (e & He & _ & _ & Hl).
    rewrite Hl in He; [exact He|discriminate|reflexivity|constructor].
  - destruct (Hc other keyed_job) as (e & He & Hor & _). exists e. split; [exact He|exact Hor].
Defined.
