(* ===== verification/Metrics.v ===== *)
(** * Prometheus metrics: [relayq/telemetry/metrics.py]

    [prometheus_client] is third-party code: the model records the calls
    [Metrics] makes on its gauges, counters and histograms, in order, with the
    metric name and the label values. *)

From Stdlib Require Import String QArith.
From S2P Require Import Prelude PyStr Json.
Open Scope list_scope.

Inductive metric_op : Type := GaugeSet (v : Q) | CounterInc | HistogramObserve (v : Q).

Record metric_call : Type := mkCall {
  mc_name : pystr;
  mc_labels : list (pystr * json);
  mc_op : metric_op
}.

Abbreviation metrics := (list metric_call).

Section Metrics.
(** [namespace] *)
Variable ns : pystr.

Definition metric_name (suffix : pystr) : pystr := ns ++ u "_" ++ suffix.

Definition record (suffix : pystr) (labels : list (pystr * json)) (op : metric_op) (m : metrics)
    : metrics := m ++ [mkCall (metric_name suffix) labels op].

Definition observe_queue_depth (queue : pystr) (depth : Z) : metrics → metrics :=
  record (u "queue_depth") [(u "queue", JStr queue)] (GaugeSet (inject_Z depth)).

Definition observe_oldest_job_age (queue : pystr) (age_seconds : Q) : metrics → metrics :=
  record (u "oldest_job_age_seconds") [(u "queue", JStr queue)] (GaugeSet age_seconds).

Definition observe_processing_seconds (kind : json) (elapsed : Q) : metrics → metrics :=
  record (u "processing_seconds") [(u "queue", JStr (u "unknown")); (u "kind", kind)]
         (HistogramObserve elapsed).

Definition observe_processing_seconds_for_queue (queue : pystr) (kind : json) (elapsed : Q)
    : metrics → metrics :=
  record (u "processing_seconds") [(u "queue", JStr queue); (u "kind", kind)]
         (HistogramObserve elapsed).

Definition incr_delivery_attempts (kind : json) (success : bool) : metrics → metrics :=
  record (u "delivery_attempts_total")
         [(u "queue", JStr (u "unknown")); (u "kind", kind);
          (u "success", JStr (if success then u "true" else u "false"))] CounterInc.

Definition incr_dead_letter (kind : json) : metrics → metrics :=
  record (u "dead_letter_total") [(u "queue", JStr (u "unknown")); (u "kind", kind)] CounterInc.

Definition observe_worker_inflight (queue : pystr) (count : Z) : metrics → metrics :=
  record (u "worker_inflight") [(u "queue", JStr queue)] (GaugeSet (inject_Z count)).

End Metrics.

(** The histogram's buckets, as declared. *)
Definition processing_buckets : list Q :=
  [1#100; 5#100; 1#10; 1#2; 1; 5#2; 5; 10; 30; 60; 120; 300]%Q.
