(* ===== verification/World.v ===== *)
(** * The state a process works on

    The Redis server, the SQLite database, the process's clocks, its metrics,
    the next draw of [random.random()], and the environment [E] a job handler
    acts on.  Components are computations on their own part ([on_redis],
    [on_store], ...). *)

From Stdlib Require Import String QArith.
From S2P Require Import Prelude PyStr Json Errors Datetime Job Redis SqliteStore Metrics.
Open Scope list_scope.

Record World `{Redis} (E : Type) : Type := mkWorld {
  w_redis : rstate;
  w_db : sqlite;
  w_now : datetime;
  w_mono : Q;
  w_rand : Q;
  w_metrics : metrics;
  w_env : E
}.
Arguments mkWorld {_ _}.
Arguments w_redis {_ _}.
Arguments w_db {_ _}.
Arguments w_now {_ _}.
Arguments w_mono {_ _}.
Arguments w_rand {_ _}.
Arguments w_metrics {_ _}.
Arguments w_env {_ _}.

Section World.
Context {R : Redis} {E : Type}.

Definition with_redis (s : rstate) (w : World E) : World E :=
  mkWorld s (w_db w) (w_now w) (w_mono w) (w_rand w) (w_metrics w) (w_env w).
Definition with_db (d : sqlite) (w : World E) : World E :=
  mkWorld (w_redis w) d (w_now w) (w_mono w) (w_rand w) (w_metrics w) (w_env w).
Definition with_metrics (m : metrics) (w : World E) : World E :=
  mkWorld (w_redis w) (w_db w) (w_now w) (w_mono w) (w_rand w) m (w_env w).
(** Time passes and the handler's environment changes. *)
Definition after_handler (elapsed : Q) (env : E) (w : World E) : World E :=
  mkWorld (w_redis w) (w_db w) (w_now w) (w_mono w + elapsed)%Q (w_rand w) (w_metrics w) env.

Definition on_redis {A} (m : M rstate A) : M (World E) A := zoom w_redis with_redis m.

(** A call that reads the wall clock. *)
Definition on_redis_now {A} (m : datetime → M rstate A) : M (World E) A :=
  fun w => on_redis (m (w_now w)) w.

(** A step that reads the wall clock. *)
Definition at_now {A} (k : datetime → M (World E) A) : M (World E) A := fun w => k (w_now w) w.

Definition on_store {A} (conn : nat) (m : SqliteStore → M sqlite A) : M (World E) A :=
  fun w => zoom w_db with_db (m (mkStore conn (w_now w))) w.

Definition monotonic : M (World E) Q := fun w => (Ok (w_mono w), w).
Definition random_draw : M (World E) Q := fun w => (Ok (w_rand w), w).

Definition metric (f : metrics → metrics) : M (World E) unit :=
  modify (fun w => with_metrics (f (w_metrics w)) w).

(** ** Frames *)

Lemma on_redis_run {A} (m : M rstate A) w r s' :
  m (w_redis w) = (r, s') → on_redis m w = (r, with_redis s' w).
Proof. apply zoom_run. Qed.

Lemma on_redis_inv {A} (m : M rstate A) w r w' :
  on_redis m w = (r, w') → ∃ s', m (w_redis w) = (r, s') ∧ w' = with_redis s' w.
Proof.
  unfold on_redis, zoom. destruct (m (w_redis w)) as [r0 s']. intros [= <- <-]. eauto.
Qed.

Lemma on_store_inv {A} conn (m : SqliteStore → M sqlite A) w r w' :
  on_store conn m w = (r, w') →
  ∃ d', m (mkStore conn (w_now w)) (w_db w) = (r, d') ∧ w' = with_db d' w.
Proof.
  unfold on_store, zoom. destruct (m _ _) as [r0 d']. intros [= <- <-]. eauto.
Qed.

Lemma on_store_run {A} conn (m : SqliteStore → M sqlite A) w r d' :
  m (mkStore conn (w_now w)) (w_db w) = (r, d') → on_store conn m w = (r, with_db d' w).
Proof. intros H. unfold on_store, zoom. by rewrite H. Qed.

(** A computation that leaves the server untouched. *)
Definition same_redis (w w' : World E) : Prop := w_redis w' = w_redis w.

#[export] Instance same_redis_refl : Reflexive same_redis.
Proof. by intros w. Qed.
#[export] Instance same_redis_trans : Transitive same_redis.
Proof. intros w1 w2 w3 H1 H2. unfold same_redis in *. congruence. Qed.

Lemma on_store_same_redis {A} conn (m : SqliteStore → M sqlite A) :
  preserves same_redis (on_store conn m).
Proof. intros w. unfold on_store, zoom. by destruct (m _ _). Qed.

Lemma metric_same_redis f : preserves same_redis (metric f).
Proof. by intros w. Qed.

End World.
#[export] Hint Resolve on_store_same_redis metric_same_redis : relayq.
