(* ===== verification/Clock.v ===== *)
(** * The clocks: [relayq/infrastructure/clock.py]

    [Clock] is the interface every component takes its time from: the system's
    clocks are the fields of [World], and [FakeClock] is the clock of the tests. *)

From Stdlib Require Import String QArith Lqa.
From S2P Require Import Prelude PyStr Json Errors Datetime Calendar Redis World.
Open Scope list_scope.
Open Scope Z_scope.

Class Clock : Type := {
  cstate : Type;
  utcnow : M cstate datetime;
  monotonic : M cstate Q
}.

(** [Clock]: the readings of the system's clocks. *)
Definition system_clock {R : Redis} {E : Type} : Clock := {|
  cstate := World E;
  utcnow := at_now mret;
  monotonic := World.monotonic
|}.

Record FakeClock : Type := mkFake { _now : datetime; _mono : Q }.

Definition BASE_TIME : datetime := mkDatetime 2025 1 1 0 0 0 0 (Some 0).

(** [FakeClock()] *)
Definition new_fake : FakeClock := mkFake BASE_TIME 0.

Definition fake_clock : Clock := {|
  cstate := FakeClock;
  utcnow := fun c => (Ok (_now c), c);
  monotonic := fun c => (Ok (_mono c), c)
|}.

Definition advance (seconds minutes : Q) : M FakeClock unit :=
  delta ← lift (timedelta seconds minutes);
  c ← get;
  now ← lift (add_delta (_now c) delta);
  _ ← modify (fun c => mkFake now (_mono c));
  modify (fun c => mkFake (_now c) (_mono c + (seconds + minutes * 60))).

(** The clock after some calls of [advance], the ones that raised included. *)
Definition after_calls (calls : list (Q * Q)) (c : FakeClock) : FakeClock :=
  foldl (λ c call, (advance call.1 call.2 c).2) c calls.

(** ** What a call does *)

(** The microseconds a call asks for. *)
Definition asked (call : Q * Q) : Q := ((call.1 + call.2 * 60) * 1000000)%Q.

Lemma advance_run seconds minutes c r c' :
  valid_datetime (_now c) = true → advance seconds minutes c = (r, c') →
  let us := round_half_even (asked (seconds, minutes)) in
  match r with
  | Ok _ => wall_us (_now c') = wall_us (_now c) + us ∧
            dt_utcoffset (_now c') = dt_utcoffset (_now c) ∧ valid_datetime (_now c') = true ∧
            _mono c' = (_mono c + (seconds + minutes * 60))%Q
  | Raise e => c' = c ∧ (∃ msg, e = OverflowError msg) ∧
               (999999999 < Z.abs (us / day_us) ∨ ¬ in_range (wall_us (_now c) + us))
  end.
Proof.
  intros Hv H. cbv zeta. change (asked (seconds, minutes)) with ((seconds + minutes * 60) * 1000000)%Q.
  unfold advance in H. apply st_bind_inv in H as [(us & s & Ht & H)|(e & Ht & ->)];
    unfold lift in Ht; injection Ht as Ht <-; unfold timedelta in Ht;
    set (z := round_half_even _) in *; clearbody z;
    destruct (Z.leb_spec (Z.abs (z / day_us)) 999999999); try discriminate Ht; injection Ht as <-.
  2:{ split_and!; [done|eauto|by left]. }
  change (get c) with (Ok (E:=exn) c, c) in H.
  apply st_bind_inv in H as [(c0 & s & Hg & H)|(e & [=] & _)]. injection Hg as <- <-.
  pose proof (add_delta_spec (_now c) z Hv) as Ha.
  destruct (add_delta (_now c) z) as [now|e].
  - injection H as <- <-. cbn [_now _mono]. naive_solver.
  - injection H as <- <-. destruct Ha as [-> Ha]. split_and!; [done|eauto|by right].
Qed.

(** How far the readings of the two clocks are apart, in microseconds. *)
Definition drift (c : FakeClock) : Q :=
  (inject_Z (wall_us (_now c) - wall_us BASE_TIME) - _mono c * 1000000)%Q.

Lemma advance_drift call c :
  valid_datetime (_now c) = true →
  let c' := (advance call.1 call.2 c).2 in
  valid_datetime (_now c') = true ∧ dt_utcoffset (_now c') = dt_utcoffset (_now c) ∧
  (drift c - (1 # 2) <= drift c' ∧ drift c' <= drift c + (1 # 2))%Q ∧
  (∀ z, (asked call == inject_Z z)%Q → (drift c' == drift c)%Q).
Proof.
  intros Hv. destruct call as [s m]. cbn [fst snd].
  destruct (advance s m c) as [r c'] eqn:H. cbn [snd]. apply advance_run in H; [|done].
  destruct r as [[]|e].
  2:{ destruct H as [-> _]. split_and!; try done; lra. }
  destruct H as (Hw & Ho & Hv' & Hm). split_and!; [done..| | |]; unfold drift; rewrite Hw, Hm;
    unfold Z.sub; rewrite !inject_Z_plus; set (q := asked (s, m)) in *;
    assert (q == (s + m * 60) * 1000000)%Q as Hq by (unfold q; reflexivity).
  - pose proof (round_half_even_near q). lra.
  - pose proof (round_half_even_near q). lra.
  - intros z Hz. rewrite Hz, round_half_even_int. lra.
Qed.

(** The two readings of a [FakeClock] stay together.  After any calls of
    [advance], those that raised included, [utcnow] is a valid UTC time and differs
    from [BASE_TIME] plus the monotonic seconds by at most half a microsecond per
    call; not at all when every call asked for whole microseconds.  (A call that
    raises moves neither clock.) *)
Theorem clocks_agree calls :
  let c := after_calls calls new_fake in
  valid_datetime (_now c) = true ∧ dt_utcoffset (_now c) = Some 0 ∧
  (- (inject_Z (Z.of_nat (length calls)) * (1 # 2)) <= drift c ∧
   drift c <= inject_Z (Z.of_nat (length calls)) * (1 # 2))%Q ∧
  (Forall (λ call, ∃ z, (asked call == inject_Z z)%Q) calls → (drift c == 0)%Q).
Proof.
  assert (drift new_fake == 0)%Q as H0 by reflexivity.
  induction calls as [|call calls IH] using rev_ind; cbv zeta.
  { split_and!; try done; try reflexivity; cbn; lra. }
  unfold after_calls in *. rewrite foldl_snoc. set (c := foldl _ _ calls) in *.
  destruct IH as (Hv & Ho & [H1 H2] & H3). destruct (advance_drift call c Hv) as (Hv' & Ho' & [H4 H5] & H6).
  rewrite length_app, Nat2Z.inj_add, inject_Z_plus.
  change (inject_Z (Z.of_nat (length [call]))) with 1%Q.
  split_and!; [done|by rewrite Ho'|lra|lra|].
  intros [Hc [z Hz]%Forall_singleton]%Forall_app. rewrite (H6 z Hz). by apply H3.
Qed.

(** A call that leaves the years a [datetime] has. *)
Example advance_overflows :
  let c := (advance 90 1 new_fake).2 in
  advance 0 5000000000 c = (Raise (OverflowError (u "date value out of range")), c) ∧
  isoformat (_now c) = u "2025-01-01T00:02:30+00:00".
Proof. split; vm_compute; reflexivity. Qed.
