(* ===== verification/Scenario.v ===== *)
(** * Concrete inputs

    The values the witnesses of the theorems run on: a job, a clock, and worlds
    over the executable server of [RedisModel]. *)

From Stdlib Require Import String QArith.
From S2P Require Import Prelude PyStr Json Errors Datetime Job Redis RedisModel Transport SqliteStore World.
Open Scope list_scope.

Definition mail : pystr := u "mail".
Definition relayq : pystr := u "relayq".

(** A world with an empty, initialised store and the given server. *)
Definition world_on (s : mstate) : @World model_redis unit :=
  mkWorld s (idle []) noon 0 (1#2) [] tt.

Definition run {E S A} (m : ST E S A) (s : S) : S := (m s).2.

(** The queue's group is there and [n] jobs were added. *)
Definition server_with (n : nat) (retries : Z) : mstate :=
  Nat.iter n (run (transport_xadd relayq mail (mail_job retries) 11000 true))
           (run (ensure_group relayq mail) fresh_server).

(** The same server, whose next [length faults] commands follow the script. *)
Definition failing (faults : list bool) (s : mstate) : mstate := set_faults faults s.

(** From [H : m s = (r, s')], what [r] is and what a projection of [s'] is, by evaluation. *)
Ltac outcome_is H v :=
  match type of H with
  | ?m = (?r, _) =>
      let X := fresh in
      assert (m.1 = v) as X by (vm_compute; reflexivity);
      rewrite H in X; simpl in X; subst r
  end.
Ltac state_is H f v :=
  match type of H with
  | ?m = (_, ?s) =>
      let X := fresh in
      assert (f m.2 = v) as X by (vm_compute; reflexivity);
      rewrite H in X; simpl in X
  end.

(** A run whose outcome evaluates to [v]. *)
Lemma run_eq {E S A} (m : ST E S A) s v : (m s).1 = v → m s = (v, run m s).
Proof. unfold run. by destruct (m s) as [r s'] eqn:H; intros <-. Qed.
