(* ===== verification/Delivery.v ===== *)
(** * What the transport promises

    The contract of [RedisStreamTransport], against the laws of [RedisSpec]:
    keys of different queues and roles never meet, a read delivers the oldest
    undelivered jobs in order and moves them to the pending list, a dead letter
    can be found again, and what a batch with an undecodable entry does. *)

From Stdlib Require Import String QArith.
From S2P Require Import Prelude PyStr Json Errors Datetime Job Redis RedisModel Transport World Scenario.
Open Scope list_scope.
Open Scope Z_scope.

(** ** Views after an update *)

Lemma stream_of_insert (k : pystr) (s : stream_view) (v : server) : stream_of (<[k := s]> v) k = s.
Proof. unfold stream_of. by rewrite lookup_insert_eq. Qed.

Lemma stream_of_insert_ne (k k' : pystr) (s : stream_view) (v : server) :
  k ≠ k' → stream_of (<[k := s]> v) k' = stream_of v k'.
Proof. intros. unfold stream_of. by rewrite lookup_insert_ne. Qed.

(** The view a group has of a stream, when both exist. *)
Definition group_at (v : server) (k g : pystr) : option group_view :=
  v !! k ≫= λ s, s_groups s !! g.

Lemma group_at_stream v k g gv : group_at v k g = Some gv → s_groups (stream_of v k) !! g = Some gv.
Proof. unfold group_at, stream_of. by destruct (v !! k). Qed.

Lemma set_group_eq v (k g : pystr) gv : group_at (set_group k g gv v) k g = Some gv.
Proof. unfold group_at, set_group. rewrite lookup_insert_eq. simpl. by rewrite lookup_insert_eq. Qed.

Lemma set_group_ne v k g gv k' g' : k ≠ k' → group_at (set_group k g gv v) k' g' = group_at v k' g'.
Proof. intros. unfold group_at, set_group. by rewrite lookup_insert_ne. Qed.

Lemma set_group_entries v k g gv k' :
  s_entries (stream_of (set_group k g gv v) k') = s_entries (stream_of v k').
Proof.
  destruct (decide (k = k')) as [<-|Hne]; unfold set_group.
  - by rewrite stream_of_insert.
  - by rewrite stream_of_insert_ne.
Qed.

Lemma set_group_issued v k g gv k' :
  s_issued (stream_of (set_group k g gv v) k') = s_issued (stream_of v k').
Proof.
  destruct (decide (k = k')) as [<-|Hne]; unfold set_group.
  - by rewrite stream_of_insert.
  - by rewrite stream_of_insert_ne.
Qed.

Lemma xadd_eff_other k body m v id v' k' :
  xadd_eff k body m v id v' → k ≠ k' → stream_of v' k' = stream_of v k' ∧ v' !! k' = v !! k'.
Proof.
  intros (n & _ & _ & ->) Hne. by rewrite stream_of_insert_ne, lookup_insert_ne.
Qed.

(** Without trimming, XADD appends the entry and offers it to every group. *)
Lemma xadd_eff_append k body m v id v' :
  xadd_eff k body m v id v' →
  match m with
  | None => True
  | Some (n, true) => Z.of_nat (length (s_entries (stream_of v k))) < n
  | _ => False
  end →
  id ∉ s_issued (stream_of v k) ∧
  s_entries (stream_of v' k) = s_entries (stream_of v k) ++ [(id, body)] ∧
  s_issued (stream_of v' k) = s_issued (stream_of v k) ++ [id] ∧
  s_groups (stream_of v' k) =
    (λ g, trimmed (s_entries (stream_of v k) ++ [(id, body)]) (offer (id, body) g))
      <$> s_groups (stream_of v k).
Proof.
  intros (n & Hid & Htrim & ->) Hm. rewrite stream_of_insert. cbn [s_entries s_issued s_groups].
  assert (n = 0%nat) as ->; [|by rewrite drop_0].
  destruct m as [[b []]|]; simpl in Htrim; try done. destruct Htrim as [?|?]; [done|]. lia.
Qed.

Lemma xadd_eff_grows k body m v id v' :
  xadd_eff k body m v id v' →
  (length (s_entries (stream_of v' k)) ≤ length (s_entries (stream_of v k)) + 1)%nat.
Proof.
  intros (n & _ & _ & ->). rewrite stream_of_insert. cbn [s_entries].
  rewrite length_drop, length_app. simpl. lia.
Qed.

Lemma keep_all es l : l ⊆ es → keep es l = l.
Proof.
  intros Hl. unfold keep. induction l as [|e l IH]; [done|].
  rewrite filter_cons_True, IH; [done| |].
  - intros x Hx. apply Hl. by right.
  - apply list_elem_of_fmap. exists e. split; [done|]. apply Hl. by left.
Qed.

(** ** Keys *)

Lemma stream_ne_dlq prefix q q' : _stream_key prefix q ≠ _dlq_key prefix q'.
Proof. unfold _stream_key, _dlq_key. intros H%(f_equal last). by rewrite !last_app in H. Qed.

(** Queues never share a stream, a group or a dead-letter key, and no stream
    key is a dead-letter key, whatever the prefix and the queue names. *)
Theorem keys_separate prefix q q' :
  (_stream_key prefix q = _stream_key prefix q' ↔ q = q') ∧
  (_group_key prefix q = _group_key prefix q' ↔ q = q') ∧
  (_dlq_key prefix q = _dlq_key prefix q' ↔ q = q') ∧
  _stream_key prefix q ≠ _dlq_key prefix q'.
Proof.
  unfold _stream_key, _group_key, _dlq_key. split_and!.
  1-3: by split; [intros H%app_inv_head%app_inv_head; apply app_inv_tail in H|intros ->].
  apply stream_ne_dlq.
Qed.

(** Listing recovers a queue from its stream key up to the first colon of
    the name: exactly the name when it has none, a truncated name otherwise. *)
Theorem listed_name prefix q :
  58%N ∉ prefix →
  queue_of_key (_stream_key prefix q) = head (py_split 58 q) ∧
  (58%N ∉ q → queue_of_key (_stream_key prefix q) = Some q).
Proof.
  intros Hp.
  assert (queue_of_key (_stream_key prefix q) = head (py_split 58 q)) as H.
  { unfold queue_of_key, _stream_key.
    change (prefix ++ u ":" ++ q ++ u ":stream")
      with (prefix ++ 58%N :: (q ++ 58%N :: u "stream")).
    rewrite py_split_app by done. rewrite py_split_sep.
    by destruct (py_split_nonempty 58 q) as (w & ws & ->), ws. }
  split; [done|]. intros Hq. by rewrite H, py_split_none.
Qed.

Lemma listed_name_witness :
  queue_of_key (_stream_key relayq mail) = Some mail ∧
  queue_of_key (_stream_key relayq (u "eu:mail")) = Some (u "eu").
Proof.
  split.
  - apply (listed_name relayq mail); apply (bool_decide_unpack _); vm_compute; reflexivity.
  - destruct (listed_name relayq (u "eu:mail")) as [-> _];
      [apply (bool_decide_unpack _)|]; vm_compute; reflexivity.
Defined.

(** ** Reading *)

Section Reading.
Context {R : Redis} {RS : RedisSpec R}.
Variable prefix : pystr.

(** The group [read_group] reads through, as the server has it. *)
Definition queue_group (v : server) (queue : pystr) : option group_view :=
  group_at v (_stream_key prefix queue) (_group_key prefix queue).

(** An entry holds a job. *)
Definition holds (e : entry) (j : Job) : Prop :=
  job_wf j ∧ job_clean j ∧ job_body j = Ok e.2.

Lemma holds_decode now e j : holds e j → decode_entry now (reply_entry e).2 = Ok (Some j).
Proof. intros (Hwf & Hc & Hb). by apply decode_entry_body. Qed.

(** What one XREADGROUP of [read_group] does. *)
Lemma read_reply queue worker count block s r s' gv :
  queue_group (view s) queue = Some gv →
  xreadgroup (_group_key prefix queue) (_consumer_name worker)
             [(_stream_key prefix queue, u ">")] count block s = (r, s') →
  let batch := take (Z.to_nat count) (g_todo gv) in
  let gv' := mkGroup (drop (Z.to_nat count) (g_todo gv))
                     (g_pel gv ++ ((λ e, (e.1, _consumer_name worker)) <$> batch)) in
  match r with
  | Ok l => l = (match batch with
                 | [] => []
                 | _ => [(reply (_stream_key prefix queue), reply_entry <$> batch)] end) ∧
            queue_group (view s') queue = Some gv'
  | Raise _ => queue_group (view s') queue = Some gv ∨ queue_group (view s') queue = Some gv'
  end.
Proof.
  intros Hg H%xreadgroup_law batch gv'.
  assert (∀ l, xreadgroup_eff (_group_key prefix queue) (_consumer_name worker)
                 (_stream_key prefix queue) count (view s) l (view s') →
          l = (match batch with [] => []
               | _ => [(reply (_stream_key prefix queue), reply_entry <$> batch)] end) ∧
          queue_group (view s') queue = Some gv') as Heff.
  { intros l (st & g & Hs & Hgr & -> & ->). unfold queue_group, group_at in Hg.
    rewrite Hs in Hg. simpl in Hg. rewrite Hgr in Hg. injection Hg as ->.
    split; [done|]. apply set_group_eq. }
  destruct r as [l|exc]; simpl in H; [by apply Heff|].
  destruct H as [->|(l & H)]; [by left|right; by apply (Heff l)].
Qed.

Lemma collect_ids now name l got :
  collect now name l = Ok got → (λ d, d.1.2) <$> got `sublist_of` l.*1.
Proof.
  revert got. induction l as [|[id fs] l IH]; intros got; simpl; [by intros [= <-]|].
  destruct (decode_entry now fs) as [[j|]|e]; [| |done]; cbn [mbind result_mbind].
  - destruct name as [nm|e]; [|done]. cbn [mbind result_mbind].
    destruct (collect now (Ok nm) l) as [rest|e] eqn:Hc; [|done]. cbn. intros [= <-].
    cbn. apply sublist_skip. by apply IH.
  - intros H. apply sublist_cons. by apply IH.
Qed.

(** What a read returns are entries of one batch of the group. *)
Lemma read_group_batch now queue worker count block s got s' :
  read_group prefix now queue worker count block s = (Ok got, s') →
  ∃ st g, view s !! _stream_key prefix queue = Some st ∧
    s_groups st !! _group_key prefix queue = Some g ∧
    (λ d, d.1.2) <$> got `sublist_of` ids (take (Z.to_nat count) (g_todo g)) ∧
    view s' = set_group (_stream_key prefix queue) (_group_key prefix queue)
                (mkGroup (drop (Z.to_nat count) (g_todo g))
                   (g_pel g ++ ((λ e, (e.1, _consumer_name worker)) <$> take (Z.to_nat count) (g_todo g))))
                (view s).
Proof.
  unfold read_group. intros [(l & s1 & Hx & H)|(e & _ & [=])]%st_bind_inv.
  injection H as H ->. apply xreadgroup_law in Hx as (st & g & Hs & Hg & -> & Hv).
  exists st, g. split_and!; [done..| |done].
  destruct (take (Z.to_nat count) (g_todo g)) as [|e b].
  - simpl in H. injection H as <-. by apply sublist_nil_l.
  - unfold collect_streams in H. destruct (collect _ _ _) as [js|] eqn:Hc; [|done].
    cbn in H. injection H as <-. rewrite app_nil_r. apply collect_ids in Hc.
    unfold ids. rewrite <- list_fmap_compose in Hc. exact Hc.
Qed.

Lemma read_group_size now queue worker count block s got s' :
  read_group prefix now queue worker count block s = (Ok got, s') →
  (length got ≤ Z.to_nat count)%nat.
Proof.
  intros (st & g & _ & _ & H & _)%read_group_batch. apply sublist_length in H.
  unfold ids in H. rewrite !length_fmap, length_take in H. lia.
Qed.

(** What [read_group] makes of a batch. *)
Lemma decode_batch now queue (batch : list entry) js :
  clean (_stream_key prefix queue) → Forall2 holds batch js →
  collect_streams now (match batch with
                       | [] => []
                       | _ => [(reply (_stream_key prefix queue), reply_entry <$> batch)] end)
  = Ok (zip_with (λ e j, (_stream_key prefix queue, e.1, j)) batch js).
Proof.
  intros Hc Hb. destruct batch as [|e batch]; [by inversion Hb|].
  assert (collect now (decode_rval (reply (_stream_key prefix queue))) (reply_entry <$> e :: batch)
          = Ok (zip_with (λ e j, (_stream_key prefix queue, e.1, j)) (e :: batch) js)) as Hcol.
  { rewrite (collect_all now _ (_stream_key prefix queue) _ js);
      [|by apply decode_reply|].
    - f_equal. clear. revert js. generalize (e :: batch) as l.
      induction l as [|x l IH]; intros [|j js]; [done..|]. cbn. by rewrite IH.
    - apply Forall2_fmap_l. eapply Forall2_impl; [done|]. intros. by apply holds_decode. }
  unfold collect_streams. rewrite Hcol. cbn [mbind result_mbind]. by rewrite app_nil_r.
Qed.

(** C31: when the undelivered entries of a queue hold jobs, a read that returns
    yields the [count] oldest of them, in order, and those entries move to the
    pending list of the reading consumer; a read that raises is the server's
    failure, and at worst the same entries moved unseen. *)
Theorem read_group_delivers now queue worker count block s r s' gv js :
  clean (_stream_key prefix queue) →
  queue_group (view s) queue = Some gv → Forall2 holds (g_todo gv) js →
  read_group prefix now queue worker count block s = (r, s') →
  let n := Z.to_nat count in
  let batch := take n (g_todo gv) in
  let moved := Some (mkGroup (drop n (g_todo gv))
                       (g_pel gv ++ ((λ e : entry, (e.1, _consumer_name worker)) <$> batch))) in
  match r with
  | Ok got => got = zip_with (λ e j, (_stream_key prefix queue, e.1, j)) batch (take n js) ∧
              queue_group (view s') queue = moved
  | Raise exc =>
      xreadgroup (_group_key prefix queue) (_consumer_name worker)
        [(_stream_key prefix queue, u ">")] count block s = (Raise exc, s') ∧
      (queue_group (view s') queue = Some gv ∨ queue_group (view s') queue = moved)
  end.
Proof.
  intros Hc Hg Hjs H. unfold read_group in H.
  apply st_bind_inv in H as [(l & s1 & Hx & H)|(exc & Hx & ->)];
    pose proof (read_reply _ _ _ _ _ _ _ _ Hg Hx) as Hr; simpl in Hr |- *.
  - destruct Hr as [-> Hv]. rewrite (decode_batch now queue _ (take (Z.to_nat count) js)) in H;
      [|done|by apply Forall2_take]. by injection H as <- <-.
  - done.
Qed.

(** C32: one undecodable entry loses the whole batch.  When an entry's decoding
    raises anything but JSONDecodeError or KeyError (an unknown status, a bad
    date, a body that is not a dict), the read raises it, no job of the batch is
    returned, and every entry of the batch is pending: no later read with [>]
    offers any of them again. *)
Theorem read_group_poison now queue worker count block s l s' gv good js bad rest exc :
  clean (_stream_key prefix queue) →
  queue_group (view s) queue = Some gv →
  g_todo gv = good ++ bad :: rest → Forall2 holds good js →
  decode_entry now (reply_entry bad).2 = Raise exc →
  Z.of_nat (length good) < count →
  xreadgroup (_group_key prefix queue) (_consumer_name worker)
             [(_stream_key prefix queue, u ">")] count block s = (Ok l, s') →
  read_group prefix now queue worker count block s = (Raise exc, s') ∧
  ∃ gv', queue_group (view s') queue = Some gv' ∧
         g_todo gv' = drop (Z.to_nat count) (good ++ bad :: rest) ∧
         ∀ e, e ∈ good ++ [bad] → (e.1, _consumer_name worker) ∈ g_pel gv'.
Proof.
  intros Hc Hg Htodo Hgood Hbad Hlen Hx.
  pose proof (read_reply _ _ _ _ _ _ _ _ Hg Hx) as [-> Hv]. simpl in Hv.
  assert (∃ rest', take (Z.to_nat count) (g_todo gv) = good ++ bad :: rest') as [rest' Hbatch].
  { rewrite Htodo, take_app, take_ge by lia.
    destruct (Z.to_nat count - length good)%nat as [|k] eqn:?; [lia|]. simpl. eauto. }
  rewrite Hbatch in *. split.
  - unfold read_group. erewrite st_bind_ok by done. unfold lift. f_equal.
    assert (∀ (b : list entry) x, b = good ++ bad :: x →
            collect now (decode_rval (reply (_stream_key prefix queue))) (reply_entry <$> b)
            = Raise exc) as Hcol.
    { intros b x ->. rewrite decode_reply by done.
      rewrite fmap_app, fmap_cons. unfold reply_entry at 2. apply collect_raise; [done| |done].
      clear -Hgood. induction Hgood as [|e j good js Hh ? IH]; constructor; [|done].
      by rewrite (holds_decode now e j). }
    specialize (Hcol _ rest' eq_refl).
    destruct (good ++ bad :: rest') as [|e b] eqn:Hb; [by destruct good|].
    unfold collect_streams. by rewrite Hcol.
  - eexists. split; [exact Hv|]. split; [by rewrite Htodo|]. intros e He.
    apply elem_of_app. right. apply list_elem_of_fmap. exists e. split; [done|].
    set_solver.
Qed.

(** ** Dead letters *)

Lemma decode_opt_reply s : clean s → decode_opt (Some (reply s)) = Ok (Some s).
Proof. intros Hc. unfold decode_opt. by rewrite decode_reply. Qed.

Lemma dlq_reason_reply (body : fields) reason :
  forallb (λ f, is_ascii f.1) body = true → clean reason →
  dict_get (u "reason") body = Some reason →
  dlq_reason (prod_map reply reply <$> body) = Ok reason.
Proof.
  intros Hb Hc Hg. unfold dlq_reason. rewrite get_either_reply, Hg by done. by apply decode_reply.
Qed.

(** The scan of the dead letters stops at a matching head. *)
Lemma find_dlq_head i id d reason (body : fields) rest :
  forallb (λ f, is_ascii f.1) body = true →
  dict_get (u "job") body = Some (dumps d) → dict_get (u "reason") body = Some reason →
  wf_json d → clean (dumps d) → clean reason → id_matches i d = Ok true →
  find_dlq i ((id, prod_map reply reply <$> body) :: rest) = Ok (Some (mkDlqEntry id d reason)).
Proof.
  intros Hb Hj Hr Hwf Hcd Hcr Hm. unfold find_dlq.
  rewrite get_either_reply, Hj by done. change (reply <$> Some (dumps d)) with (Some (reply (dumps d))).
  rewrite decode_opt_reply by done. cbn [mbind result_mbind].
  unfold loads_raw, json_loads. rewrite loads_dumps, Hm by done. cbn [mbind result_mbind].
  by rewrite (dlq_reason_reply _ reason).
Qed.

(** C9: A dead letter can be found again.  After [xadd_dlq] of a job with a
    string id, [read_dlq_entry] with that id returns the entry just written,
    with the job's dict and the reason, unless the server fails. *)
Theorem dlq_roundtrip queue job i reason s id s1 r s2 :
  job_wf job → job_clean job → clean reason → job_id job = JStr i →
  xadd_dlq prefix queue job reason s = (Ok id, s1) →
  read_dlq_entry prefix queue i s1 = (r, s2) →
  match r with
  | Ok o => ∃ d, to_dict job = Ok d ∧ o = Some (mkDlqEntry id d reason)
  | Raise exc => xrevrange (_dlq_key prefix queue) (u "+") (u "-") 200 s1 = (Raise exc, s2)
  end.
Proof.
  intros Hwf Hc Hr Hid Hadd Hread. unfold xadd_dlq in Hadd.
  apply st_bind_inv in Hadd as [(d & s0 & Hd & Hadd)|(? & _ & [=])].
  injection Hd as Hd <-. apply xadd_law in Hadd. simpl in Hadd.
  apply xadd_eff_append in Hadd as (_ & Hes & _); [|done].
  unfold read_dlq_entry in Hread.
  apply st_bind_inv in Hread as [(l & s3 & Hx & Hread)|(exc & Hx & ->)]; [|done].
  apply xrevrange_law in Hx. destruct Hx as [-> _]. rewrite Hes, rev_app_distr in Hread.
  change (Z.to_nat 200) with (S 199) in Hread.
  cbn [rev app take] in Hread. rewrite fmap_cons in Hread.
  apply pair_equal_spec in Hread as [Hfind _].
  assert (id_matches i d = Ok true) as Hm.
  { unfold to_dict in Hd. destruct (job_status job); [|done]. injection Hd as <-.
    unfold id_matches. change (dict_get (u "id") _) with (Some (job_id job)).
    rewrite Hid. by rewrite bool_decide_true. }
  unfold reply_entry at 1 in Hfind. cbn [fst snd] in Hfind.
  erewrite find_dlq_head in Hfind;
    [rewrite <- Hfind; eauto| | | |by eapply to_dict_wf|by eapply body_clean| |exact Hm]; done.
Qed.

End Reading.

(** ** Witnesses *)

Definition mail_group (s : mstate) : group_view :=
  default (mkGroup [] []) (queue_group relayq (m_srv s) mail).

(** The body of [mail_job n] and of a job no decoder accepts. *)
Definition mail_body (n : Z) : fields := match job_body (mail_job n) with Ok b => b | _ => [] end.
Definition bogus_body : fields := 
  [(u "job", dumps (JObj [(u "id", JStr (u "x")); (u "status", JStr (u "lost"))]))].

Lemma holds_mail n id : holds (R := model_redis) (id, mail_body n) (mail_job n).
Proof. split; [apply mail_job_wf|]. split; [by left|vm_compute; reflexivity]. Qed.

Definition server3 : @rstate model_redis := server_with 3 5.
Definition id_of (n : nat) : rval := nth n (s_issued (stream_of (m_srv server3) (_stream_key relayq mail))) (RS []).

Lemma read_group_delivers_witness :
  let '(r, s') := read_group relayq noon mail (u "w1") 2 2000 server3 in
  r = Ok [(_stream_key relayq mail, id_of 0, mail_job 5); (_stream_key relayq mail, id_of 1, mail_job 5)]
  ∧ g_todo (mail_group s') = [(id_of 2, mail_body 5)].
Proof.
  destruct (read_group _ _ _ _ _ _ server3) as [r s'] eqn:H.
  outcome_is H (Ok (E:=exn) [(_stream_key relayq mail, id_of 0, mail_job 5);
                             (_stream_key relayq mail, id_of 1, mail_job 5)]).
  split; [reflexivity|].
  assert (g_todo (mail_group server3) =
          [(id_of 0, mail_body 5); (id_of 1, mail_body 5); (id_of 2, mail_body 5)]) as Ht
    by (vm_compute; reflexivity).
  apply (read_group_delivers relayq noon mail (u "w1") 2 2000 server3 _ s' (mail_group server3)
    [mail_job 5; mail_job 5; mail_job 5]) in H as [_ H].
  - unfold mail_group. change (@view model_redis model_redis_spec s') with (m_srv s') in H.
    rewrite H. cbn [default]. cbn [g_todo]. by rewrite Ht.
  - by left.
  - vm_compute. reflexivity.
  - rewrite Ht. do 3 (apply List.Forall2_cons; [apply holds_mail|]). apply List.Forall2_nil.
Defined.

(** A server where an entry nobody can decode waits between two jobs. *)
Definition poisoned : @rstate model_redis :=
  run (transport_xadd relayq mail (mail_job 5) 11000 true)
    (run (xadd (_stream_key relayq mail) bogus_body None)
      (run (transport_xadd relayq mail (mail_job 5) 11000 true) (server_with 0 5))).

Definition lost_status : exn := ValueError (repr_str (u "lost") ++ u " is not a valid JobStatus").

Definition nth_todo (s : mstate) (n : nat) : entry := nth n (g_todo (mail_group s)) (RS [], []).

Lemma read_group_poison_witness :
  let '(r, s') := read_group relayq noon mail (u "w1") 10 2000 poisoned in
  r = Raise lost_status ∧ g_todo (mail_group s') = [] ∧ length (g_pel (mail_group s')) = 3%nat.
Proof.
  destruct (read_group relayq noon mail (u "w1") 10 2000 poisoned) as [r s'] eqn:H.
  destruct (xreadgroup (_group_key relayq mail) (_consumer_name (u "w1"))
             [(_stream_key relayq mail, u ">")] 10 2000 poisoned) as [x s1] eqn:Hx.
  pose (l0 := nth_todo poisoned).
  assert (g_todo (mail_group poisoned) = [l0 0%nat] ++ l0 1%nat :: [l0 2%nat]) as Ht
    by (vm_compute; reflexivity).
  assert (l0 0%nat = ((l0 0%nat).1, mail_body 5)) as H0 by (vm_compute; reflexivity).
  outcome_is Hx (Ok (E:=exn) [(RS (_stream_key relayq mail),
                               reply_entry <$> [l0 0%nat; l0 1%nat; l0 2%nat])]).
  pose proof Hx as Hp.
  apply (read_group_poison relayq noon mail (u "w1") 10 2000 poisoned _ s1 (mail_group poisoned)
           [l0 0%nat] [mail_job 5] (l0 1%nat) [l0 2%nat] lost_status) in Hp as [Hp (gv & Hg & Hd & _)].
  - rewrite Hp in H. injection H as <- <-. split; [reflexivity|].
    state_is Hx (λ s : mstate, length (g_pel (mail_group s))) 3%nat. split; [|assumption].
    unfold mail_group. change (@view model_redis model_redis_spec s1) with (m_srv s1) in Hg.
    rewrite Hg. change (default (mkGroup [] []) (Some gv)) with gv. rewrite Hd. reflexivity.
  - by left.
  - vm_compute. reflexivity.
  - exact Ht.
  - rewrite H0. apply List.Forall2_cons; [apply holds_mail|apply List.Forall2_nil].
  - vm_compute. reflexivity.
  - reflexivity.
Defined.

Lemma dlq_roundtrip_witness :
  let reason := failure_reason (ValueError (u "boom")) in
  let '(a, s1) := xadd_dlq relayq mail (mail_job 0) reason server3 in
  let '(r, _) := read_dlq_entry relayq mail (u "job_0123456789abcdef") s1 in
  ∃ id d, a = Ok id ∧ to_dict (mail_job 0) = Ok d ∧
          r = Ok (Some (mkDlqEntry id d (u "ValueError: boom"))).
Proof.
  intros reason. destruct (xadd_dlq _ _ _ _ server3) as [a s1] eqn:Ha.
  destruct (read_dlq_entry _ _ _ s1) as [r s2] eqn:Hr.
  outcome_is Ha (Ok (E:=exn) (RS (u "1-0"))).
  assert (m_faults s1 = []) as Hf
    by (state_is Ha (λ s : mstate, m_faults s) (@nil bool); assumption).
  apply (dlq_roundtrip relayq mail (mail_job 0) (u "job_0123456789abcdef") reason server3
           (RS (u "1-0")) s1 r s2) in Ha.
  - destruct r as [o|exc]; [|exfalso].
    + destruct Ha as (d & Hd & ->). exists (RS (u "1-0")), d. by split_and!.
    + unfold xrevrange, model_redis, m_xrevrange, faulty in Ha. simpl in Ha. by rewrite Hf in Ha.
  - apply mail_job_wf.
  - by left.
  - by left.
  - vm_compute. reflexivity.
  - exact Hr.
Defined.
