(* ===== verification/Listing.v ===== *)
(** * Listing the queues: the SCAN loop of [list_queues]

    SCAN hands out keys in pages and a cursor to go on with; the iteration is over
    when the cursor is zero again.  [ScanSpec] states what the server documents for
    a key space that does not change meanwhile: an iteration comes to an end, and
    the pages of a full iteration hold exactly the matching keys, some more than
    once.  Under it the loop terminates, and the listing is complete, sorted and
    free of duplicates. *)

From Stdlib Require Import String Sorted.
From S2P Require Import Prelude PyStr Json Errors Datetime Job Redis RedisModel Transport World Scenario Delivery.
Open Scope list_scope.
Open Scope Z_scope.

(** Text without a special character of glob patterns. *)
Definition glob_plain (s : pystr) : bool := forallb (λ c, negb (bool_decide (c ∈ u "*?[]\"))) s.
Definition glob_matches (pre post k : pystr) : Prop := ∃ x, k = pre ++ x ++ post.

Section Iteration.
Context {R : Redis}.
Variable pattern : pystr.

(** The iteration from a cursor is over after at most [n] calls (one that raises
    is the last). *)
Fixpoint scan_ends (n : nat) (c : Z) (s : rstate) : Prop :=
  match n with
  | O => False
  | S n' => match scan c pattern 100 s with
            | (Raise _, _) => True
            | (Ok (c', _), s') => c' = 0 ∨ scan_ends n' c' s'
            end
  end.

(** A completed iteration from a cursor, and the replies of all its pages. *)
Inductive scan_run : Z → rstate → list rval → rstate → Prop :=
| scan_last c s keys s' : scan c pattern 100 s = (Ok (0, keys), s') → scan_run c s keys s'
| scan_more c s c' keys s1 rest s' :
    scan c pattern 100 s = (Ok (c', keys), s1) → c' ≠ 0 → scan_run c' s1 rest s' →
    scan_run c s (keys ++ rest) s'.
End Iteration.

Class ScanSpec (R : Redis) `{!RedisSpec R} : Prop := {
  scan_terminates pattern s : ∃ n, scan_ends pattern n 0 s;
  scan_covers pre post s keys s' :
    glob_plain pre = true → glob_plain post = true →
    scan_run (pre ++ u "*" ++ post) 0 s keys s' →
    ∀ x, x ∈ keys ↔ ∃ k, x = reply k ∧ is_Some (view s !! k) ∧ glob_matches pre post k
}.

(** ** [sorted] *)

Lemma str_leb_total a b : str_leb a b = false → str_leb b a = true.
Proof.
  revert b. induction a as [|x a IH]; intros [|y b]; simpl; try done.
  destruct (N.eqb_spec x y) as [->|Hne].
  - rewrite N.eqb_refl. apply IH.
  - rewrite (proj2 (N.eqb_neq y x)) by done. rewrite N.ltb_ge, N.ltb_lt. lia.
Qed.

Lemma str_leb_trans a b c : str_leb a b = true → str_leb b c = true → str_leb a c = true.
Proof.
  revert b c. induction a as [|x a IH]; intros [|y b] [|z c]; simpl; try done.
  destruct (N.eqb_spec x y) as [->|Hxy], (N.eqb_spec y z) as [->|Hyz]; rewrite ?N.ltb_lt.
  - apply IH.
  - done.
  - rewrite (proj2 (N.eqb_neq x z)) by done. by rewrite N.ltb_lt.
  - intros H1 H2. destruct (N.eqb_spec x z); [lia|]. rewrite N.ltb_lt. lia.
Qed.

Abbreviation sorted := (StronglySorted (λ a b, str_leb a b = true)).

Lemma insert_sorted_sorted x l : sorted l → sorted (insert_sorted x l).
Proof.
  induction 1 as [|y l Hs IH Hf]; simpl; [by repeat constructor|].
  destruct (str_leb x y) eqn:Hxy.
  - constructor; [by constructor|]. constructor; [done|]. eapply Forall_impl; [exact Hf|].
    intros z Hz. by eapply str_leb_trans.
  - constructor; [done|]. rewrite insert_sorted_perm. constructor; [by apply str_leb_total|done].
Qed.

Lemma py_sorted_sorted l : sorted (py_sorted l).
Proof. induction l as [|x l IH]; simpl; [constructor|by apply insert_sorted_sorted]. Qed.

(** ** The loop *)

Lemma set_add_spec q qs :
  NoDup qs → NoDup (set_add q qs) ∧ ∀ x, x ∈ set_add q qs ↔ x ∈ qs ∨ x = q.
Proof.
  intros Hn. unfold set_add. destruct (decide (q ∈ qs)) as [Hq|Hq]; [split; [done|set_solver]|].
  split; [|set_solver]. apply NoDup_app. split_and!; [done|set_solver|apply NoDup_singleton].
Qed.

(** The queues named by some replies. *)
Definition names_of (keys : list rval) (x : pystr) : Prop :=
  ∃ v k, v ∈ keys ∧ decode_rval v = Ok k ∧ queue_of_key k = Some x.

Lemma names_of_nil x : ¬ names_of [] x.
Proof. intros (v & k & Hv & _). by apply not_elem_of_nil in Hv. Qed.

Lemma names_of_app l1 l2 x : names_of (l1 ++ l2) x ↔ names_of l1 x ∨ names_of l2 x.
Proof. unfold names_of. setoid_rewrite elem_of_app. naive_solver. Qed.

Lemma names_of_single v k x : decode_rval v = Ok k → names_of [v] x ↔ queue_of_key k = Some x.
Proof.
  intros Hk. unfold names_of. setoid_rewrite list_elem_of_singleton. split.
  - intros (v' & k' & -> & Hk' & Hq). congruence.
  - intros Hq. by exists v, k.
Qed.

(** One page. *)
Lemma add_keys_spec keys qs qs' :
  NoDup qs → add_keys keys qs = Ok qs' → NoDup qs' ∧ ∀ x, x ∈ qs' ↔ x ∈ qs ∨ names_of keys x.
Proof.
  revert qs. induction keys as [|v keys IH]; intros qs Hn; cbn [add_keys].
  { intros [= <-]. split; [done|]. intros x. pose proof (names_of_nil x). tauto. }
  destruct (decode_rval v) as [k|e] eqn:Hk; [|done]. cbn [mbind result_mbind].
  intros H. assert (∀ x, names_of (v :: keys) x ↔ queue_of_key k = Some x ∨ names_of keys x) as Hc
    by (intros x; change (v :: keys) with ([v] ++ keys); by rewrite names_of_app, (names_of_single v k)).
  destruct (queue_of_key k) as [q|] eqn:Hq.
  - destruct (set_add_spec q qs Hn) as [Hn' Hin]. apply IH in H as [Hn2 Hin2]; [|done].
    split; [done|]. intros x. rewrite Hin2, Hin, Hc. naive_solver.
  - apply IH in H as [Hn2 Hin2]; [|done]. split; [done|]. intros x. rewrite Hin2, Hc. naive_solver.
Qed.

Section Listing.
Context {R : Redis} {RS : RedisSpec R}.
Variable prefix : pystr.
Abbreviation pattern := (prefix ++ u ":*:stream").

(** A loop that returns names has run one full iteration; it runs out of fuel only
    when the iteration has not ended by then. *)
Lemma scan_loop_run fuel c qs s r s' :
  NoDup qs → scan_loop prefix fuel c qs s = (r, s') →
  view s' = view s ∧
  match r with
  | Ok None => ¬ scan_ends pattern fuel c s
  | Ok (Some names) =>
      ∃ keys, scan_run pattern c s keys s' ∧ sorted names ∧ NoDup names ∧
              ∀ x, x ∈ names ↔ x ∈ qs ∨ names_of keys x
  | Raise e => ∃ c' s1, view s1 = view s ∧
      (scan c' pattern 100 s1 = (Raise e, s') ∨
       ∃ ck qs1, scan c' pattern 100 s1 = (Ok ck, s') ∧ add_keys ck.2 qs1 = Raise e)
  end.
Proof.
  revert c qs s. induction fuel as [|fuel IH]; intros c qs s Hn; cbn [scan_loop].
  { intros [= <- <-]. split; [done|]. intros []. }
  intros [(ck & s1 & Hs & H)|(e & Hs & ->)]%st_bind_inv; pose proof (scan_law _ _ _ _ _ _ Hs) as Hv.
  2:{ split; [done|]. exists c, s. eauto. }
  destruct ck as [c' keys]. cbn [fst snd] in H.
  apply st_bind_inv in H as [(qs1 & s2 & Hk & H)|(e & Hk & ->)]; injection Hk as Hk <-.
  2:{ split; [done|]. exists c, s. split; [done|]. right. eauto. }
  destruct (add_keys_spec _ _ _ Hn Hk) as [Hn1 Hin1]. destruct (Z.eqb_spec c' 0) as [->|Hc].
  - injection H as <- <-. split; [done|]. exists keys. split_and!.
    + by apply scan_last.
    + apply py_sorted_sorted.
    + by rewrite py_sorted_perm.
    + intros x. by rewrite py_sorted_perm.
  - apply IH in H as [Hv' H]; [|done]. split; [by rewrite Hv'|].
    destruct r as [[names|]|e].
    + destruct H as (rest & Hrun & H1 & H2 & H3). exists (keys ++ rest). split_and!; [|done..|].
      * by eapply scan_more.
      * intros x. rewrite H3, Hin1, names_of_app. tauto.
    + cbn [scan_ends]. rewrite Hs. naive_solver.
    + destruct H as (c2 & s2 & Hv2 & H). exists c2, s2. split; [by rewrite Hv2|done].
Qed.

Lemma scan_ends_mono n m c s : (n ≤ m)%nat → scan_ends pattern n c s → scan_ends pattern m c s.
Proof.
  revert m c s. induction n as [|n IH]; intros m c s Hm; [done|].
  destruct m as [|m]; [lia|]. cbn [scan_ends]. destruct (scan _ _ _ s) as [[[c' k]|e] s1]; [|done].
  intros [?|H]; [by left|right]. apply (IH m); [lia|done].
Qed.

Context {SC : ScanSpec R}.

(** The name a stream's queue is listed under. *)
Definition listed_as (q : pystr) : option pystr := head (py_split 58 q).

(** C21: listing the queues terminates and is complete.  For every state of the
    server some number of SCAN calls is enough; then the listing leaves the server
    as it was and returns, sorted and without duplicates, the names of exactly the
    queues that have a stream (the text before the first colon of each, the whole
    name when it has none), or raises because a SCAN call did. *)
Theorem list_queues_complete s :
  58%N ∉ prefix → glob_plain prefix = true →
  (∀ q, is_Some (view s !! _stream_key prefix q) → clean (_stream_key prefix q)) →
  ∃ n, ∀ fuel, (n ≤ fuel)%nat →
    ∀ r s', transport_list_queues prefix fuel s = (r, s') →
      view s' = view s ∧
      match r with
      | Ok None => False
      | Ok (Some names) =>
          sorted names ∧ NoDup names ∧
          ∀ x, x ∈ names ↔ ∃ q, is_Some (view s !! _stream_key prefix q) ∧ listed_as q = Some x
      | Raise e => ∃ c s1, view s1 = view s ∧
          (scan c pattern 100 s1 = (Raise e, s') ∨
           ∃ ck qs, scan c pattern 100 s1 = (Ok ck, s') ∧ add_keys ck.2 qs = Raise e)
      end.
Proof.
  intros Hp Hg Hclean. destruct (scan_terminates pattern s) as [n Hn]. exists n.
  intros fuel Hf r s' H. apply scan_loop_run in H as [Hv H]; [|apply NoDup_nil_2].
  split; [done|]. destruct r as [[names|]|e]; [|by apply H, (scan_ends_mono n)|exact H].
  destruct H as (keys & Hrun & H1 & H2 & H3). split_and!; [done..|]. intros x. rewrite H3.
  assert (∀ v, v ∈ keys ↔ ∃ k, v = reply k ∧ is_Some (view s !! k) ∧
            glob_matches (prefix ++ u ":") (u ":stream") k) as Hcov.
  { eapply scan_covers; [|done|].
    - unfold glob_plain. rewrite forallb_app. by apply andb_true_iff.
    - rewrite <- (assoc_L (++)). exact Hrun. }
  assert (∀ q, queue_of_key (_stream_key prefix q) = listed_as q) as Hname
    by (intros q; by destruct (listed_name prefix q Hp)).
  split.
  - intros [Hx|(v & k & Hv' & Hd & Hq)]; [by apply not_elem_of_nil in Hx|].
    apply Hcov in Hv' as (k' & -> & Hk & q & ->). exists q.
    rewrite <- (assoc_L (++)) in Hk, Hd. change (prefix ++ u ":" ++ q ++ u ":stream")
      with (_stream_key prefix q) in Hk, Hd. split; [done|].
    rewrite decode_reply in Hd by auto. injection Hd as <-. by rewrite <- Hname.
  - intros (q & Hk & Hq). right. exists (reply (_stream_key prefix q)), (_stream_key prefix q).
    split_and!; [|by apply decode_reply, Hclean|by rewrite Hname].
    apply Hcov. eexists. split_and!; [done..|]. exists q. unfold _stream_key. by rewrite <- (assoc_L (++)).
Qed.

End Listing.

(** ** The concrete server *)

Lemma starts_with_spec p s : starts_with p s = true ↔ ∃ t, s = p ++ t.
Proof.
  revert s. induction p as [|x p IH]; intros s; simpl; [naive_solver|].
  destruct s as [|y s]; [naive_solver|]. rewrite andb_true_iff, N.eqb_eq, IH. naive_solver.
Qed.

Lemma glob_filter_spec pre post k :
  glob_plain pre = true → glob_plain post = true →
  glob_filter (pre ++ u "*" ++ post) k = true ↔ glob_matches pre post k.
Proof.
  assert (∀ l, glob_plain l = true → 42%N ∉ l) as Hstar.
  { intros l Hl Hin. unfold glob_plain in Hl. rewrite forallb_forall in Hl.
    specialize (Hl 42%N). rewrite <- list_elem_of_In in Hl. by specialize (Hl Hin). }
  intros H1%Hstar H2%Hstar. unfold glob_filter, glob_matches.
  change (pre ++ u "*" ++ post) with (pre ++ 42%N :: post).
  rewrite py_split_app, py_split_none, andb_true_iff by done. rewrite !starts_with_spec. split.
  - intros [[t ->] [t' Ht]]. rewrite drop_app_length in Ht. exists (rev t').
    f_equal. by rewrite <- (rev_involutive t), Ht, rev_app_distr, rev_involutive.
  - intros [x ->]. rewrite drop_app_length, rev_app_distr. eauto.
Qed.

(** The keys a scan of the model goes through. *)
Definition m_matching (pattern : pystr) (v : server) : list pystr :=
  filter (λ k, glob_filter pattern k = true) (map_to_list v).*1.

Lemma m_scan_ok pattern c s ck s' :
  m_scan c pattern 100 s = (Ok ck, s') →
  let keys := drop (Z.to_nat c) (m_matching pattern (m_srv s)) in
  ck = ((match drop 2 keys with [] => 0 | _ => c + 2 end)%Z, reply <$> take 2 keys) ∧
  m_srv s' = m_srv s.
Proof. unfold m_scan, faulty. destruct (m_faults s) as [|[] f]; [..|done|]; by intros [= <- <-]. Qed.

Lemma m_scan_ends pattern n c s :
  0 ≤ c → (length (m_matching pattern (m_srv s)) < Z.to_nat c + n)%nat → (0 < n)%nat →
  scan_ends (R:=model_redis) pattern n c s.
Proof.
  revert c s. induction n as [|n IH]; intros c s Hc Hl Hn; [lia|]. cbn [scan_ends].
  change (@scan model_redis c pattern 100 s) with (m_scan c pattern 100 s).
  destruct (m_scan c pattern 100 s) as [[[c' keys]|e] s1] eqn:Hs; [|done].
  apply m_scan_ok in Hs as [Hck Hv]. rewrite drop_drop in Hck. injection Hck as -> _.
  set (l := m_matching pattern (m_srv s)) in *.
  destruct (drop (Z.to_nat c + 2) l) as [|x rest] eqn:Hd; [by left|]. right.
  assert (Z.to_nat c + 2 < length l)%nat.
  { apply (f_equal length) in Hd. rewrite length_drop in Hd. simpl in Hd. lia. }
  apply IH; [lia| |lia]. rewrite Hv. fold l. lia.
Qed.

Lemma m_scan_run pattern c s keys s' :
  0 ≤ c → scan_run (R:=model_redis) pattern c s keys s' →
  keys = reply <$> drop (Z.to_nat c) (m_matching pattern (m_srv s)).
Proof.
  intros Hc Hrun. induction Hrun as [c s keys s' Hs|c s c' keys s1 rest s' Hs Hne Hrun IH];
    apply m_scan_ok in Hs as [Hck Hv]; set (l := m_matching pattern (m_srv s)) in *;
    pose proof (take_drop 2 (drop (Z.to_nat c) l)) as Htd;
    apply pair_equal_spec in Hck as [Hc' ->]; destruct (drop 2 (drop (Z.to_nat c) l)) as [|x t] eqn:Hd.
  - rewrite app_nil_r in Htd. by rewrite Htd.
  - lia.
  - done.
  - subst c'. rewrite IH by lia. rewrite Hv. fold l. rewrite <- fmap_app. f_equal.
    rewrite <- (take_drop 2 (drop (Z.to_nat c) l)) at 2. rewrite drop_drop. do 2 f_equal. lia.
Qed.

#[export] Instance model_scan_spec : ScanSpec model_redis.
Proof.
  split.
  - intros pattern s. exists (S (length (m_matching pattern (m_srv s)))). apply m_scan_ends; lia.
  - intros pre post s keys s' H1 H2 Hrun x. apply m_scan_run in Hrun as ->; [|done].
    rewrite drop_0, list_elem_of_fmap. apply exist_proper. intros k.
    unfold m_matching. rewrite list_elem_of_filter, glob_filter_spec by done.
    rewrite list_elem_of_fmap. split.
    + intros (-> & Hm & [k' v] & -> & Hin%elem_of_map_to_list). eauto.
    + intros (-> & [v Hv] & Hm). split_and!; [done..|]. exists (k, v).
      split; [done|]. by apply elem_of_map_to_list.
Qed.

(** ** Witness *)

(** Four queues, two of them listed under one name. *)
Definition four_queues : list pystr := [mail; u "eu:mail"; u "audit"; u "eu:audit"].
Definition server_of_queues : @rstate model_redis :=
  foldl (λ s q, run (transport_xadd relayq q (mail_job 5) 10 true) s) fresh_server four_queues.

Lemma list_queues_complete_witness :
  ∃ s', transport_list_queues relayq 2 server_of_queues =
          (Ok (Some [u "audit"; u "eu"; mail]), s') ∧
        sorted [u "audit"; u "eu"; mail].
Proof.
  assert (∀ fuel, transport_list_queues relayq (2 + fuel) server_of_queues =
    (Ok (Some [u "audit"; u "eu"; mail]), run (transport_list_queues relayq 2) server_of_queues)) as Hrun
    by (intros fuel; vm_compute; reflexivity).
  eexists. split; [apply (Hrun 0%nat)|].
  destruct (list_queues_complete relayq server_of_queues) as [n Hn].
  - by apply (bool_decide_unpack _).
  - reflexivity.
  - intros q _. by left.
  - specialize (Hn (2 + n)%nat ltac:(lia) _ _ (Hrun n)) as (_ & Hs & _). exact Hs.
Defined.
