(* ===== verification/Enqueue.v ===== *)
(** * Enqueueing: [relayq/application/enqueue.py]

    [Enqueuer.enqueue]: validation, depth check, idempotency check, outbox
    insertion, XADD, in this order.  The assignment to [job.idempotency_key]
    mutates the caller's job; [keyed] is that job, and what the later steps see. *)

From Stdlib Require Import String QArith.
From S2P Require Import Prelude PyStr Json Errors Coroutine Datetime Job Redis RedisModel Transport SqliteStore World Scenario.
Open Scope list_scope.
Open Scope Z_scope.

Record Enqueuer : Type := mkEnqueuer {
  enq_prefix : pystr;              (* the transport's stream prefix *)
  max_queue_depth : Z;
  enq_store : option nat           (* the store's connection, when configured *)
}.

(** [if idempotency_key:] *)
Definition truthy_key (k : option pystr) : option pystr :=
  match k with Some (c :: s) => Some (c :: s) | _ => None end.

Definition keyed (key : option pystr) (job : Job) : Job :=
  match truthy_key key with Some k => set_idempotency_key (JStr k) job | None => job end.

Section Enqueue.
Context {R : Redis} {E : Type}.

(** Step 2: bounded queue depth. *)
Definition check_depth (e : Enqueuer) (job : Job) : M (World E) unit :=
  depth ← on_redis (stream_length (enq_prefix e) (py_str (job_queue job)));
  if max_queue_depth e <=? depth
  then throw (QueueFull (job_queue job) depth (max_queue_depth e))
  else mret tt.

(** Step 3: the idempotency check, when a key and a store are there. *)
Definition check_key (e : Enqueuer) (key : option pystr) : M (World E) unit :=
  match truthy_key key, enq_store e with
  | Some k, Some conn =>
      existing ← on_store conn (fun st => find_by_idempotency_key st k);
      match existing with
      | Some _ => throw (IdempotencyConflict k)
      | None => mret tt
      end
  | _, _ => mret tt
  end.

(** Step 4: the outbox record. *)
Definition write_outbox (e : Enqueuer) (job : Job) : M (World E) unit :=
  match enq_store e with
  | Some conn => on_store conn (fun st => transaction st (insert_outbox st job))
  | None => mret tt
  end.

Definition enqueue (e : Enqueuer) (job : Job) (idempotency_key : option pystr)
    (validate : option (Job → result exn unit)) : M (World E) rval :=
  _ ← match validate with Some v => lift (v job) | None => mret tt end;
  _ ← check_depth e job;
  _ ← check_key e idempotency_key;
  let job := keyed idempotency_key job in
  _ ← write_outbox e job;
  on_redis (transport_xadd (enq_prefix e) (py_str (job_queue job)) job
                           (max_queue_depth e + 1000) true).

(** The same at its suspension points: the two commands.  [transaction] is an
    asynchronous context manager whose methods await nothing. *)
Definition enqueue_co (e : Enqueuer) (job : Job) (idempotency_key : option pystr)
    (validate : option (Job → result exn unit)) : coroutine (World E) rval :=
  _ ← match validate with Some v => co_sync (lift (v job)) | None => mret tt end;
  depth ← co_await (on_redis (stream_length (enq_prefix e) (py_str (job_queue job))));
  _ ← (if max_queue_depth e <=? depth
       then co_throw (QueueFull (job_queue job) depth (max_queue_depth e))
       else mret tt);
  _ ← co_sync (check_key e idempotency_key);
  let job := keyed idempotency_key job in
  _ ← co_sync (write_outbox e job);
  co_await (on_redis (transport_xadd (enq_prefix e) (py_str (job_queue job)) job
                                     (max_queue_depth e + 1000) true)).

Lemma enqueue_co_run e job key validate w :
  co_run (enqueue_co e job key validate) w = enqueue e job key validate w.
Proof.
  unfold enqueue_co, enqueue, check_depth. rewrite co_run_bind. apply st_bind_ext.
  { destruct validate; [apply co_run_sync|done]. }
  intros _ w1. rewrite st_bind_assoc. co_step. rewrite co_run_bind. apply st_bind_ext.
  { by destruct (_ <=? _). }
  intros _ w2. repeat co_step.
Qed.

Lemma enqueue_turns e job key validate : turns_le (enqueue_co e job key validate) 7.
Proof. unfold enqueue_co. count_turns. Qed.

(** ** Lemmas *)

Lemma keyed_queue key job : job_queue (keyed key job) = job_queue job.
Proof. unfold keyed. by destruct (truthy_key key). Qed.

Lemma keyed_status key job : job_status (keyed key job) = job_status job.
Proof. unfold keyed. by destruct (truthy_key key). Qed.

Lemma with_redis_same (w : World E) : with_redis (w_redis w) w = w.
Proof. by destruct w. Qed.

Lemma with_db_same (w : World E) : with_db (w_db w) w = w.
Proof. by destruct w. Qed.

(** The key of the stream a job goes to. *)
Definition job_stream (e : Enqueuer) (job : Job) : pystr :=
  _stream_key (enq_prefix e) (py_str (job_queue job)).

End Enqueue.

Section EnqueueSpec.
Context {R : Redis} {RS : RedisSpec R} {E : Type}.

Definition depth_of (e : Enqueuer) (job : Job) (v : server) : Z :=
  Z.of_nat (length (s_entries (stream_of v (job_stream e job)))).

(** The depth check looks at the server only; it passes below the bound. *)
Lemma check_depth_run e job (w : World E) r w' :
  check_depth e job w = (r, w') →
  w_db w' = w_db w ∧ view (w_redis w') = view (w_redis w) ∧
  match r with
  | Ok _ => depth_of e job (view (w_redis w)) < max_queue_depth e
  | Raise exc => exc = QueueFull (job_queue job) (depth_of e job (view (w_redis w)))
                                 (max_queue_depth e) ∧
                 max_queue_depth e ≤ depth_of e job (view (w_redis w)) ∨
                 ∃ s', stream_length (enq_prefix e) (py_str (job_queue job)) (w_redis w)
                       = (Raise exc, s')
  end.
Proof.
  unfold check_depth. intros H. apply st_bind_inv in H as [(n & w1 & Hd & H)|(exc & Hd & ->)];
    apply on_redis_inv in Hd as (s' & Hx & ->); pose proof Hx as Hlaw;
    apply xlen_law in Hlaw; simpl in Hlaw.
  - destruct Hlaw as [-> Hv]. fold (job_stream e job) in *.
    destruct (Z.leb_spec (max_queue_depth e)
      (Z.of_nat (length (s_entries (stream_of (view (w_redis w)) (job_stream e job))))));
      injection H as <- <-; simpl; split_and!; try done. left. done.
  - split_and!; [done| |right; eauto]. destruct Hlaw as [?|(a & _ & ?)]; done.
Qed.

(** What an enqueue that reaches XADD does to the server. *)
Lemma xadd_run e job (w : World E) r w' :
  on_redis (transport_xadd (enq_prefix e) (py_str (job_queue job)) job
                           (max_queue_depth e + 1000) true) w = (r, w') →
  w_db w' = w_db w ∧
  match job_body job with
  | Raise exc => r = Raise exc ∧ w' = w
  | Ok body => outcome (xadd_eff (job_stream e job) body
                         (maxlen_option (max_queue_depth e + 1000) true))
                       (view (w_redis w)) r (view (w_redis w'))
  end.
Proof.
  intros H. apply on_redis_inv in H as (s' & H & ->). split; [done|].
  unfold transport_xadd in H. unfold lift, mbind, st_mbind in H.
  destruct (job_body job) as [body|exc].
  - by apply xadd_law in H.
  - injection H as <- <-. by rewrite with_redis_same.
Qed.

(** The enqueuer's connection, when there is one, is in no transaction. *)
Definition free_in (e : Enqueuer) (D : gmap nat reader) : Prop :=
  ∀ conn, enq_store e = Some conn → D !! conn = None.

(** The store step on a database without a writer. *)
Lemma write_outbox_run e job (w : World E) rows D r w' :
  w_db w = mkDb (Some rows) None D → free_in e D →
  write_outbox e job w = (r, w') →
  w_redis w' = w_redis w ∧
  match enq_store e with
  | None => r = Ok tt ∧ w' = w
  | Some conn =>
      match (x ← job_row job; y ← insert_row x rows; mret (x, y)) with
      | Ok (_, rows') => r = Ok tt ∧ w_db w' = mkDb (Some rows') None (outdate rows <$> D)
      | Raise exc => r = Raise exc ∧ w_db w' = w_db w
      end
  end.
Proof.
  intros Hdb Hfree. unfold write_outbox. destruct (enq_store e) as [conn|] eqn:He; [|by intros [= <- <-]].
  intros H. apply on_store_inv in H as (d & H & ->). split; [done|].
  rewrite Hdb, transaction_insert_run in H by (by apply Hfree).
  destruct (job_row job) as [x|exc] eqn:Hx; cbn in H |- *.
  - destruct (insert_row x rows) as [rows'|exc] eqn:Hi; cbn.
    + by injection H as <- <-.
    + destruct (insert_row_exn _ _ _ Hi) as [msg ->]. simpl in H. injection H as <- <-. by rewrite Hdb.
  - rewrite (job_row_exn _ _ Hx) in H. injection H as <- <-. by rewrite Hdb.
Qed.

(** The key check reads the store and changes nothing; it passes only when no
    visible row has the key. *)
Lemma check_key_run e key (w : World E) rows D r w' :
  w_db w = mkDb (Some rows) None D → free_in e D →
  check_key e key w = (r, w') →
  w' = w ∧
  match truthy_key key, enq_store e with
  | Some k, Some conn =>
      match List.find (λ x, sql_eq (r_idempotency_key x) (VText k)) rows with
      | None => r = Ok tt
      | Some x => match row_job (mkStore conn (w_now w)) x with
                  | Ok _ => r = Raise (IdempotencyConflict k)
                  | Raise exc => r = Raise exc
                  end
      end
  | _, _ => r = Ok tt
  end.
Proof.
  intros Hdb Hfree. unfold check_key.
  destruct (truthy_key key) as [k|]; [|by intros [= <- <-]].
  destruct (enq_store e) as [conn|] eqn:He; [|by intros [= <- <-]].
  specialize (Hfree conn He).
  intros H.
  assert (on_store conn (λ st, find_by_idempotency_key st k) w =
    (row_result (mkStore conn (w_now w))
       (List.find (λ x, sql_eq (r_idempotency_key x) (VText k)) rows), with_db (w_db w) w)) as Hf.
  { apply on_store_run. unfold find_by_idempotency_key.
    rewrite Hdb. erewrite st_bind_ok by (by apply get_conn_idle).
    unfold select, rows_of, mbind, st_mbind. cbn. by rewrite Hfree. }
  rewrite with_db_same in Hf.
  unfold mbind, st_mbind in H. rewrite Hf in H.
  destruct (List.find _ rows) as [x|]; simpl in H.
  - destruct (row_job _ x); simpl in H; by injection H as <- <-.
  - by injection H as <- <-.
Qed.

Lemma validate_run (validate : option (Job → result exn unit)) job (w : World E) r w' :
  (match validate with Some v => lift (v job) | None => mret tt end) w = (r, w') → w' = w.
Proof. destruct validate; by intros [= <- <-]. Qed.

(** ** Properties *)

(** A queue at or above [max_queue_depth] entries rejects the job with
    QueueFull when the server answers, and the rejection changes neither the
    outbox nor the server. *)
Theorem enqueue_full e job key validate (w : World E) r w' :
  match validate with Some v => v job = Ok tt | None => True end →
  max_queue_depth e ≤ depth_of e job (view (w_redis w)) →
  enqueue e job key validate w = (r, w') →
  w_db w' = w_db w ∧ view (w_redis w') = view (w_redis w) ∧
  (r = Raise (QueueFull (job_queue job) (depth_of e job (view (w_redis w))) (max_queue_depth e)) ∨
   ∃ exc s', stream_length (enq_prefix e) (py_str (job_queue job)) (w_redis w) = (Raise exc, s')
             ∧ r = Raise exc).
Proof.
  intros Hval Hfull H. unfold enqueue in H.
  assert ((match validate with Some v => lift (v job) | None => mret tt end) w = (Ok tt, w)) as Hv.
  { destruct validate; [|done]. unfold lift. by rewrite Hval. }
  erewrite st_bind_ok in H by done.
  apply st_bind_inv in H as [(a & w1 & Hd & H)|(exc & Hd & ->)];
    apply check_depth_run in Hd as (Hdb & Hview & Hd); [lia|].
  split_and!; [done|done|]. destruct Hd as [[-> _]|(s' & Hs)]; [by left|right; eauto].
Qed.

(** A call that changes no stream, in a run that has changed none. *)
Lemma cuts_quiet {A} e job' (m : M (World E) A) (w0 w : World E) rows D :
  let Q := (λ w1, is_Some (enq_store e) → view (w_redis w1) ≠ view (w_redis w0) →
                  ∃ r, job_row job' = Ok r ∧ w_db w1 = mkDb (Some (rows ++ [r])) None (outdate rows <$> D)) in
  view (w_redis w) = view (w_redis w0) → view (w_redis (m w).2) = view (w_redis w) →
  Forall Q (co_cuts (co_sync m) w) ∧ Forall Q (co_cuts (co_await m) w).
Proof. intros Q H1 H2. apply cuts_call; intros _ Hne; congruence. Qed.

(** A run's cuts, as in the theorem below. *)
Lemma enqueue_cuts e job key validate (w : World E) rows D :
  w_db w = mkDb (Some rows) None D → free_in e D →
  Forall (λ w1 : World E, is_Some (enq_store e) → view (w_redis w1) ≠ view (w_redis w) →
    ∃ r, job_row (keyed key job) = Ok r ∧ w_db w1 = mkDb (Some (rows ++ [r])) None (outdate rows <$> D))
    (co_cuts (enqueue_co e job key validate) w).
Proof.
  intros Hdb Hfree. unfold enqueue_co.
  apply cuts_bind.
  { destruct validate as [v|]; [|by constructor; [intros _ Hne|constructor]].
    by apply (cuts_quiet e (keyed key job) (lift (v job)) w w rows D). }
  intros [] w0 Hv. assert (w0 = w) as ->.
  { destruct validate as [v|]; [rewrite co_run_sync in Hv|]; by injection Hv. }
  apply cuts_bind.
  { apply (cuts_quiet e (keyed key job)); [done|].
    destruct (on_redis _ w) as [r w1] eqn:H. apply on_redis_inv in H as (s' & H & ->).
    apply xlen_law in H. cbn. destruct r; [by destruct H|by destruct H as [?|(? & _ & ?)]]. }
  intros depth w1 Hd. rewrite co_run_await in Hd. pose proof Hd as Hd'.
  apply on_redis_inv in Hd as (s1 & Hd & ->). apply xlen_law in Hd as [_ Hv1].
  apply cuts_bind.
  { destruct (max_queue_depth e <=? depth); (constructor; [intros _ Hne; cbn in Hne; congruence|constructor]). }
  intros [] w2 Hw2. assert (w2 = with_redis s1 w) as -> by (by destruct (max_queue_depth e <=? depth); injection Hw2).
  assert (∀ r w2, check_key e key (with_redis s1 w) = (r, w2) → w2 = with_redis s1 w) as Hck
    by (intros r w2 H; by eapply check_key_run in H as [? _]).
  apply cuts_bind.
  { apply (cuts_quiet e (keyed key job)); [done|].
    by rewrite (Hck _ _ (surjective_pairing _)). }
  intros [] w2 Hk. rewrite co_run_sync in Hk. apply Hck in Hk as ->.
  apply cuts_bind.
  { apply (cuts_quiet e (keyed key job)); [done|].
    destruct (write_outbox e _ _) as [r w2] eqn:H. eapply write_outbox_run in H as [H _]; [|done..]. cbn in *. by rewrite H. }
  intros [] w2 Ho. rewrite co_run_sync in Ho. eapply write_outbox_run in Ho as [Hr Ho]; [|done|done].
  assert (is_Some (enq_store e) → ∃ r, job_row (keyed key job) = Ok r ∧
            w_db w2 = mkDb (Some (rows ++ [r])) None (outdate rows <$> D)) as Hrow.
  { intros [conn He]. rewrite He in Ho. destruct (job_row (keyed key job)) as [r|]; cbn in Ho; [|by destruct Ho].
    destruct (insert_row r rows) as [rows'|] eqn:Hi; cbn in Ho; [|by destruct Ho]. exists r. split; [done|].
    destruct Ho as [_ ->]. unfold insert_row in Hi. by repeat case_match; simplify_eq. }
  apply cuts_call; [by intros ? _; apply Hrow|]. intros He _.
  destruct (on_redis _ w2) as [r w3] eqn:H. apply xadd_run in H as [Hdb3 _]. cbn. rewrite Hdb3. by apply Hrow.
Qed.

Lemma enqueue_returns e job key validate (w : World E) rows D id w' :
  w_db w = mkDb (Some rows) None D → free_in e D →
  enqueue e job key validate w = (Ok id, w') →
  depth_of e job (view (w_redis w)) < max_queue_depth e ∧
  (∃ body, job_body (keyed key job) = Ok body ∧
     xadd_eff (job_stream e job) body (maxlen_option (max_queue_depth e + 1000) true)
              (view (w_redis w)) id (view (w_redis w'))) ∧
  match enq_store e with
  | None => w_db w' = w_db w
  | Some _ =>
      (∃ r, job_row (keyed key job) = Ok r ∧
            w_db w' = mkDb (Some (rows ++ [r])) None (outdate rows <$> D)) ∧
      (∀ k, truthy_key key = Some k →
         List.find (λ x, sql_eq (r_idempotency_key x) (VText k)) rows = None)
  end.
Proof.
  intros Hdb Hfree H. unfold enqueue in H.
  apply st_bind_inv in H as [(a0 & w0 & Hv & H)|(exc & _ & [=])].
  apply validate_run in Hv as ->.
  apply st_bind_inv in H as [(a1 & w1 & Hd & H)|(exc & _ & [=])].
  apply check_depth_run in Hd as (Hdb1 & Hv1 & Hdepth).
  apply st_bind_inv in H as [(a2 & w2 & Hk & H)|(exc & _ & [=])].
  eapply check_key_run in Hk as [-> Hk]; [|by rewrite Hdb1|done].
  apply st_bind_inv in H as [(a3 & w3 & Ho & H)|(exc & _ & [=])].
  eapply write_outbox_run in Ho as (Hr3 & Ho); [|by rewrite Hdb1|done].
  apply xadd_run in H as (Hdb4 & H).
  unfold job_stream in *. rewrite keyed_queue in H.
  destruct (job_body (keyed key job)) as [body|] eqn:Hb; [|by destruct H].
  simpl in H. split; [done|]. split.
  { exists body. split; [done|]. rewrite Hr3, Hv1 in H. done. }
  destruct (enq_store e) as [conn|].
  - destruct (job_row (keyed key job)) as [r|]; cbn in Ho; [|by destruct Ho].
    destruct (insert_row r rows) as [rows'|] eqn:Hi; cbn in Ho; [|by destruct Ho].
    split.
    + exists r. split; [done|]. rewrite Hdb4. destruct Ho as [_ ->].
      unfold insert_row in Hi. by repeat case_match; simplify_eq.
    + intros k Hkey. rewrite Hkey in Hk. by destruct (List.find _ rows); [case_match|].
  - rewrite Hdb4. destruct Ho as [_ ->]. done.
Qed.

(** C27: the outbox record comes first.  Wherever an enqueue with a store is cut off
    (its process dies between two of its calls, or it ends, with a result or an
    exception), if a stream has changed then the job's row is committed.  A
    successful enqueue appended exactly one entry, holding the job's dict, to the
    job's stream; the queue was below its bound and, with a store, no committed row
    had the key. *)
Theorem enqueue_success e job key validate (w : World E) rows D :
  w_db w = mkDb (Some rows) None D → free_in e D →
  let job' := keyed key job in
  (∀ w1, w1 ∈ co_cuts (enqueue_co e job key validate) w ∨ w1 = (enqueue e job key validate w).2 →
     is_Some (enq_store e) → view (w_redis w1) ≠ view (w_redis w) →
     ∃ r, job_row job' = Ok r ∧ w_db w1 = mkDb (Some (rows ++ [r])) None (outdate rows <$> D)) ∧
  (∀ id w', enqueue e job key validate w = (Ok id, w') →
     depth_of e job (view (w_redis w)) < max_queue_depth e ∧
     (∃ body, job_body job' = Ok body ∧
        xadd_eff (job_stream e job) body (maxlen_option (max_queue_depth e + 1000) true)
                 (view (w_redis w)) id (view (w_redis w'))) ∧
     match enq_store e with
     | None => w_db w' = w_db w
     | Some _ =>
         (∃ r, job_row job' = Ok r ∧ w_db w' = mkDb (Some (rows ++ [r])) None (outdate rows <$> D)) ∧
         (∀ k, truthy_key key = Some k →
            List.find (λ x, sql_eq (r_idempotency_key x) (VText k)) rows = None)
     end).
Proof.
  intros Hdb Hfree job'. split.
  - assert (Forall (λ w1 : World E, is_Some (enq_store e) → view (w_redis w1) ≠ view (w_redis w) →
        ∃ r, job_row job' = Ok r ∧ w_db w1 = mkDb (Some (rows ++ [r])) None (outdate rows <$> D))
        (co_cuts (enqueue_co e job key validate) w)) as Hcuts by (by apply enqueue_cuts).
    rewrite Forall_forall in Hcuts. intros w1 [Hw1| ->]; [by apply Hcuts|].
    apply Hcuts. rewrite <- enqueue_co_run. apply co_cuts_last.
  - intros id w'. by apply enqueue_returns.
Qed.

(** Once a committed row holds an idempotency key, an enqueue with that key
    never succeeds and changes neither the outbox nor the server; when the
    queue has room and the row decodes, it raises IdempotencyConflict. *)
Theorem enqueue_conflict e conn job k validate (w : World E) rows D x r w' :
  enq_store e = Some conn → truthy_key (Some k) = Some k →
  w_db w = mkDb (Some rows) None D → D !! conn = None →
  x ∈ rows → r_idempotency_key x = VText k →
  enqueue e job (Some k) validate w = (r, w') →
  is_ok r = false ∧ w_db w' = w_db w ∧ view (w_redis w') = view (w_redis w) ∧
  (validate = None → ∀ s', stream_length (enq_prefix e) (py_str (job_queue job)) (w_redis w)
                           = (Ok (depth_of e job (view (w_redis w))), s') →
   depth_of e job (view (w_redis w)) < max_queue_depth e →
   Forall (λ y, is_ok (row_job (mkStore conn (w_now w)) y) = true) rows →
   r = Raise (IdempotencyConflict k)).
Proof.
  intros Hst Htr Hdb HD Hx Hkx H. assert (free_in e D) as Hfree by (intros c; congruence).
  unfold enqueue in H.
  destruct (List.find (λ x, sql_eq (r_idempotency_key x) (VText k)) rows) as [y|] eqn:Hf; last first.
  { eapply List.find_none in Hf; [|by apply list_elem_of_In].
    apply not_true_iff_false in Hf. destruct Hf. by apply sql_eq_true. }
  assert (y ∈ rows) as Hy by (apply list_elem_of_In; by eapply List.find_some).
  apply st_bind_inv in H as [(a0 & w0 & Hv & H)|(exc & Hv & ->)]; pose proof Hv as Hv'.
  2: { apply validate_run in Hv as ->. split_and!; try done. intros ->. by injection Hv'. }
  apply validate_run in Hv as ->.
  apply st_bind_inv in H as [(a1 & w1 & Hd & H)|(exc & Hd & ->)]; pose proof Hd as Hd';
    apply check_depth_run in Hd as (Hdb1 & Hv1 & Hdepth).
  2: { split_and!; try done. intros -> s' Hs Hlt _.
       destruct Hdepth as [[_ ?]|[s1 Hs1]]; [lia|]. congruence. }
  apply st_bind_inv in H as [(a2 & w2 & Hk & H)|(exc & Hk & ->)];
    (eapply check_key_run in Hk as [-> Hk]; [|by rewrite Hdb1|done]);
    rewrite Htr, Hst, Hf in Hk; [by destruct (row_job _ y)|].
  split_and!; try done. intros -> s' Hs Hlt Hall.
  rewrite Forall_forall in Hall. specialize (Hall y Hy).
  assert (w_now w1 = w_now w) as Hn.
  { unfold check_depth in Hd'. apply st_bind_inv in Hd' as [(n & wa & Hx1 & Hd')|(? & _ & [=])].
    apply on_redis_inv in Hx1 as (sx & _ & ->). destruct (_ <=? n); by injection Hd' as _ <-. }
  rewrite Hn in Hk. destruct (row_job (mkStore conn (w_now w)) y); [|done].
  by injection Hk as ->.
Qed.

(** An XADD that fails leaves the row. *)
Lemma xadd_failure_row e conn job k (w : World E) rows D exc w' :
  enq_store e = Some conn → truthy_key (Some k) = Some k →
  w_db w = mkDb (Some rows) None D → D !! conn = None → job_status job = StEnum PENDING →
  enqueue e job (Some k) None w = (Raise exc, w') →
  w_db w' ≠ w_db w →
  ∃ r, w_db w' = mkDb (Some (rows ++ [r])) None (outdate rows <$> D) ∧
       r_status r = VText (u "pending") ∧ r_idempotency_key r = VText k.
Proof.
  intros Hst Htr Hdb HD Hpend H Hne. assert (free_in e D) as Hfree by (intros c; congruence).
  unfold enqueue in H.
  erewrite st_bind_ok in H by done.
  apply st_bind_inv in H as [(a1 & w1 & Hd & H)|(? & Hd & [= ->])];
    apply check_depth_run in Hd as (Hdb1 & Hv1 & Hdepth); [|done].
  apply st_bind_inv in H as [(a2 & w2 & Hk & H)|(? & Hk & [= ->])];
    (eapply check_key_run in Hk as [-> Hk]; [|by rewrite Hdb1|done]); [|done].
  apply st_bind_inv in H as [(a3 & w3 & Ho & H)|(? & Ho & [= ->])];
    (eapply write_outbox_run in Ho as (Hr3 & Ho); [|by rewrite Hdb1|done]); rewrite Hst in Ho.
  2: { destruct (r ← _; _) as [[]|]; destruct Ho as [? Ho]; [done|congruence]. }
  apply xadd_run in H as (Hdb4 & H).
  destruct (job_row (keyed (Some k) job)) as [r|] eqn:Hr; cbn in Ho; [|by destruct Ho].
  destruct (insert_row r rows) as [rows'|] eqn:Hi; cbn in Ho; [|by destruct Ho].
  assert (rows' = rows ++ [r]) as -> by (unfold insert_row in Hi; by repeat case_match; simplify_eq).
  destruct Ho as [_ Ho]. rewrite <- Hdb4 in Ho. exists r. split; [done|].
  eapply (job_row_columns _ PENDING k); [by rewrite keyed_status| |done].
  unfold keyed. by rewrite Htr.
Qed.

(** A job whose status is a bare string (as the replay endpoint makes it) can
    not be enqueued; the server's streams are left as they were. *)
Lemma raw_status_fails e job key validate status (w : World E) r w' :
  enq_store e = None →
  job_status job = StStr status → enqueue e job key validate w = (r, w') →
  is_ok r = false ∧ view (w_redis w') = view (w_redis w) ∧ w_db w' = w_db w.
Proof.
  intros Hst Hs H. unfold enqueue in H.
  apply st_bind_inv in H as [(a0 & w0 & Hv & H)|(exc & Hv & ->)];
    apply validate_run in Hv as ->; [|done].
  apply st_bind_inv in H as [(a1 & w1 & Hd & H)|(exc & Hd & ->)];
    apply check_depth_run in Hd as (Hdb1 & Hv1 & _); [|done].
  rewrite <- Hdb1, <- Hv1 in *.
  unfold check_key, write_outbox in H. rewrite Hst in H.
  assert (∀ (k : option pystr) (x : M (World E) rval),
    (match k with Some _ | _ => mret tt end ≫= (λ _ : unit, x)) w1 = x w1) as Hk by (by intros []).
  rewrite Hk in H. erewrite st_bind_ok in H by done.
  apply xadd_run in H as (Hdb4 & H). unfold job_body, to_dict in H.
  rewrite keyed_status, Hs in H. by destruct H as [-> ->].
Qed.

End EnqueueSpec.

(** ** Witnesses *)

Definition enqueuer1 (depth : Z) : Enqueuer := mkEnqueuer relayq depth (Some 0%nat).
Definition key1 : pystr := u "key-1".

(** A store that already holds a committed job with [key1]. *)
Definition taken_world : World unit :=
  run (enqueue (enqueuer1 10) (mail_job 3) (Some key1) None) (world_on (server_with 0 3)).

Definition taken_row : row :=
  match job_row (keyed (Some key1) (mail_job 3)) with
  | Ok r => r
  | Raise _ => mkRow VNull VNull VNull VNull VNull VNull VNull VNull VNull
  end.

Lemma enqueue_full_witness :
  let w := world_on (server_with 1 3) in
  let '(r, w') := enqueue (enqueuer1 1) (mail_job 3) (Some key1) None w in
  w_db w' = w_db w ∧ view (w_redis w') = view (w_redis w) ∧
  r = Raise (QueueFull (JStr mail) 1 1).
Proof.
  intros w. destruct (enqueue _ _ _ _ w) as [r w'] eqn:H.
  outcome_is H (Raise (A:=rval) (QueueFull (JStr mail) 1 1)).
  apply (enqueue_full (enqueuer1 1) (mail_job 3) (Some key1) None w) in H as (H1 & H2 & _);
    [by split_and!|exact I|apply Z.leb_le; vm_compute; reflexivity].
Defined.

Lemma enqueue_success_witness :
  let w := world_on (server_with 1 3) in
  let '(r, w') := enqueue (enqueuer1 10) (mail_job 3) (Some key1) None w in
  is_ok r = true ∧
  (∃ row, job_row (keyed (Some key1) (mail_job 3)) = Ok row ∧ w_db w' = idle [row]) ∧
  view (w_redis w') ≠ view (w_redis w).
Proof.
  intros w. destruct (enqueue _ _ _ _ w) as [r w'] eqn:H.
  destruct (enqueue_success (enqueuer1 10) (mail_job 3) (Some key1) None w [] ∅) as [H1 H2];
    [reflexivity|intros ? _; reflexivity|].
  assert (view (w_redis w') ≠ view (w_redis w)) as Hne.
  { intros Hv. apply (f_equal (λ v, length (s_entries (stream_of v (_stream_key relayq mail))))) in Hv.
    change w' with (r, w').2 in Hv. rewrite <- H in Hv. vm_compute in Hv. discriminate Hv. }
  outcome_is H (Ok (E:=exn) (RS (u "1111-0"))). split; [reflexivity|]. split; [|exact Hne].
  destruct (H1 w') as (row & Hr & Hdb); [by right; rewrite H|by eexists|exact Hne|].
  exists row. split; [exact Hr|exact Hdb].
Defined.

Lemma enqueue_conflict_witness :
  let '(r, w') := enqueue (enqueuer1 10) (mail_job 0) (Some key1) None taken_world in
  r = Raise (IdempotencyConflict key1) ∧ w_db w' = w_db taken_world.
Proof.
  destruct (enqueue _ _ _ _ taken_world) as [r w'] eqn:H.
  outcome_is H (Raise (A:=rval) (IdempotencyConflict key1)). split; [reflexivity|].
  apply (enqueue_conflict (enqueuer1 10) 0 (mail_job 0) key1 None taken_world [taken_row] ∅ taken_row) in H
    as (_ & Hdb & _); [exact Hdb|reflexivity|reflexivity| |reflexivity|left| ].
  - vm_compute. reflexivity.
  - vm_compute. reflexivity.
Defined.
