(* ===== verification/Idempotency.v ===== *)
(** * Idempotency keys under concurrency

    Any number of enqueues that carry idempotency keys race on one database file:
    enqueues of one process interleave at their suspension points, those of several
    processes between any two statements, and other users of the file take steps of
    their own in between ([sql_step]).  The check of the key and the insertion are
    two statements; what decides is the UNIQUE index, inside the transaction of
    [write_outbox], which holds SQLite's write lock from its BEGIN to its COMMIT.  A row
    left by an enqueue whose XADD failed spends its key for ever
    ([xadd_failure_strands_job]). *)

From Stdlib Require Import String QArith.
From stdpp Require Import relations.
From S2P Require Import Prelude PyStr Json Errors Coroutine Datetime Job Redis RedisModel Transport SqliteStore World Scenario Enqueue.
Open Scope list_scope.
Open Scope Z_scope.

(** ** The database *)

Inductive sql_step : sqlite → sqlite → Prop :=
| sql_init db : sql_step db (_init_schema db).2
| sql_begin c db : sql_step db (begin_immediate c db).2
| sql_insert c ps db : sql_step db (dml c ps insert_row db).2
| sql_update {A} c (ps : result exn A) id st a db :
    sql_step db (dml c ps (λ x rows, Ok (update_rows (id x) (st x) (a x) rows)) db).2
| sql_select c p db : sql_step db (select c p db).2
| sql_commit c db : sql_step db (commit c db).2
| sql_rollback c db : sql_step db (rollback c db).2.

Definition has_key (k : pystr) (rows : list row) : Prop :=
  ∃ x, x ∈ rows ∧ r_idempotency_key x = VText k.
Definition table (db : sqlite) : list row := default [] (db_table db).

(** The committed keys stay in every transaction. *)
Definition keys_ok (db : sqlite) : Prop :=
  match db_writer db with Some (_, w) => ∀ k, has_key k (table db) → has_key k w | None => True end.
Definition keys_grow (db db' : sqlite) : Prop := ∀ k, has_key k (table db) → has_key k (table db').

#[export] Instance keys_grow_refl : Reflexive keys_grow.
Proof. by intros db k. Qed.
#[export] Instance keys_grow_trans : Transitive keys_grow.
Proof. intros a b c H1 H2 k H. by apply H2, H1. Qed.

Lemma has_key_app k rows r : has_key k rows → has_key k (rows ++ [r]).
Proof. intros (x & Hx & Hk). exists x. split; [set_solver|done]. Qed.

Lemma insert_row_app r rows rows' : insert_row r rows = Ok rows' → rows' = rows ++ [r].
Proof. unfold insert_row. repeat case_match; by intros [= <-]. Qed.

Lemma update_rows_key k id st a rows : has_key k rows → has_key k (update_rows id st a rows).
Proof.
  intros (x & Hx & Hk). unfold update_rows, has_key.
  exists (if sql_eq (r_id x) (text_affinity id) then set_row_status st a x else x). split.
  - apply list_elem_of_fmap. by exists x.
  - by destruct (sql_eq _ _); rewrite <- Hk.
Qed.

(** A step that keeps the committed keys and their place in every transaction. *)
Definition keeps_keys {A} (m : M sqlite A) : Prop :=
  ∀ db, keys_ok db → keys_ok (m db).2 ∧ keys_grow db (m db).2.

Lemma keys_bind {A B} (m : M sqlite A) (k : A → M sqlite B) :
  keeps_keys m → (∀ a, keeps_keys (k a)) → keeps_keys (m ≫= k).
Proof.
  intros Hm Hk db Hdb. unfold mbind, st_mbind. destruct (Hm db Hdb) as [H1 H2].
  destruct (m db) as [[a|e] db1]; cbn [snd] in *; [|done]. destruct (Hk a db1 H1). split; [done|].
  by etrans.
Qed.

(** The table, and the rows of the writer if there is one, are the same. *)
Lemma keys_same db db' :
  db_table db' = db_table db → db_writer db' = db_writer db ∨ db_writer db' = None →
  keys_ok db → keys_ok db' ∧ keys_grow db db'.
Proof. unfold keys_ok, keys_grow, table. by intros -> [->| ->]. Qed.

Lemma keys_implicit c : keeps_keys (implicit_begin c).
Proof. intros db. unfold implicit_begin. cbn. destruct (in_transaction c db); apply keys_same; auto. Qed.

Lemma keys_lift {A} (x : result exn A) : keeps_keys (lift x).
Proof. by intros db. Qed.

Lemma keys_select c p : keeps_keys (select c p).
Proof. intros db. unfold select. cbn. repeat case_match; apply keys_same; auto. Qed.

Lemma dml_keys {A} c (ps : result exn A) f :
  (∀ a rows rows' k, f a rows = Ok rows' → has_key k rows → has_key k rows') → keeps_keys (dml c ps f).
Proof.
  intros Hf. apply keys_bind; [apply keys_implicit|]. intros _.
  apply keys_bind; [apply keys_lift|]. intros a db Hok.
  assert (keys_ok (write_lock c db).2 ∧ keys_grow db (write_lock c db).2) as [H1 H2].
  { unfold write_lock. destruct db as [t [[c' w]|] d]; cbn in *; [destruct (decide (c' = c)); (split; [exact Hok|by intros k])|].
    destruct (d !! c) as [[]|]; cbn; split; try done; by intros ?. }
  unfold mbind, st_mbind. destruct (write_lock c db) as [[[]|e] db'] eqn:Hl; [|done].
  apply write_lock_locks in Hl as [w Hw]. unfold change_rows. rewrite (rows_locked _ _ _ Hw).
  cbn [snd] in *. destruct (f a w) as [w'|] eqn:Hfw; cbn; [|done]. split; [|done].
  unfold keys_ok in *. rewrite Hw in H1. cbn. intros k Hk. eapply Hf; [exact Hfw|by apply H1].
Qed.

Lemma sql_step_keys db db' : sql_step db db' → keys_ok db → keys_ok db' ∧ keys_grow db db'.
Proof.
  intros [d|c d|c ps d|A c ps id st a d|c p d|c d|c d].
  - unfold _init_schema. destruct d as [[t|] [[c w]|] D]; cbn [db_table db_writer snd]; try by apply keys_same; auto.
    intros _. split; [exact I|by intros k].
  - unfold begin_immediate. destruct (in_transaction c d); [by apply keys_same; auto|].
    destruct d as [t [[c' w]|] D]; cbn [db_table db_writer snd]; [by apply keys_same; auto|]. intros _. split; [by intros k|by intros k].
  - apply dml_keys. intros x rows rows' k ->%insert_row_app. apply has_key_app.
  - apply dml_keys. intros x rows rows' k [= <-]. apply update_rows_key.
  - apply keys_select.
  - unfold commit. destruct d as [t [[c' w]|] D]; cbn [db_table db_writer snd]; [|by apply keys_same; auto].
    case_decide; [|by apply keys_same; auto]. intros Hok. split; [exact I|exact Hok].
  - unfold rollback. destruct d as [t [[c' w]|] D]; cbn [db_table db_writer snd]; [|by apply keys_same; auto].
    case_decide; by apply keys_same; auto.
Qed.

Lemma sql_steps_keys db db' : rtc sql_step db db' → keys_ok db → keys_ok db' ∧ keys_grow db db'.
Proof.
  induction 1 as [d|d d1 d2 Hd _ IH]; intros Hok; [by split|].
  destruct (sql_step_keys _ _ Hd Hok) as [H1 H2], (IH H1) as [H3 H4]. split; [done|by etrans].
Qed.

(** A transaction that commits a row with a key was the first to. *)
Lemma job_row_key job k r : job_idempotency_key job = JStr k → job_row job = Ok r → r_idempotency_key r = VText k.
Proof.
  intros Hk Hr. destruct (job_status job) as [s|s] eqn:Hs.
  - by destruct (job_row_columns job s k r Hs Hk Hr).
  - unfold job_row in Hr. by rewrite Hs in Hr.
Qed.

Lemma insert_key_new r rows rows' k :
  r_idempotency_key r = VText k → insert_row r rows = Ok rows' → ¬ has_key k rows ∧ has_key k rows'.
Proof.
  intros Hk Hi. split.
  - intros (x & Hx & Hxk). unfold insert_row in Hi. destruct (negb _); [done|].
    destruct (existsb _ rows); [done|]. destruct (existsb (λ x, sql_eq (r_idempotency_key x) _) rows) eqn:He; [done|].
    apply not_true_iff_false in He. apply He, existsb_exists. exists x.
    split; [by apply list_elem_of_In|]. apply sql_eq_true. by rewrite Hk, Hxk.
  - apply insert_row_app in Hi as ->. exists r. split; [set_solver|done].
Qed.

Lemma transaction_key st job k db r db' :
  job_idempotency_key job = JStr k → keys_ok db →
  transaction st (insert_outbox st job) db = (r, db') →
  keys_ok db' ∧ keys_grow db db' ∧ (r = Ok tt → ¬ has_key k (table db) ∧ has_key k (table db')).
Proof.
  intros Hk Hok H.
  assert (∀ t D, D !! store_conn st = None →
    transaction st (insert_outbox st job) (mkDb (Some t) None D) = (r, db') →
    keys_ok db' ∧ (∀ k', has_key k' t → has_key k' (table db')) ∧
    (r = Ok tt → ¬ has_key k t ∧ has_key k (table db'))) as Hfree.
  { intros t D HD. rewrite transaction_insert_run by done. destruct (job_row job) as [x|e] eqn:Hx; cbn.
    2: { rewrite (job_row_exn _ _ Hx). by intros [= <- <-]. }
    destruct (insert_row x t) as [t'|e] eqn:Hi; cbn.
    - intros [= <- <-]. split_and!; [exact I| |intros _; by eapply insert_key_new, Hi; eapply job_row_key].
      apply insert_row_app in Hi as ->. intros k'. apply has_key_app.
    - destruct (insert_row_exn _ _ _ Hi) as [msg ->]. by intros [= <- <-]. }
  assert (∀ t wr D, keys_ok (mkDb (Some t) wr D) →
    transaction st (insert_outbox st job) (mkDb (Some t) wr D) = (r, db') →
    keys_ok db' ∧ (∀ k', has_key k' t → has_key k' (table db')) ∧
    (r = Ok tt → ¬ has_key k t ∧ has_key k (table db'))) as Hany.
  { intros t wr D Hok' H'. destruct (begin_immediate (store_conn st) (mkDb (Some t) wr D)) as [[u|e] d] eqn:Hb.
    - assert (wr = None ∧ D !! store_conn st = None) as [-> HD]; [|by eapply Hfree].
      unfold begin_immediate, in_transaction in Hb. destruct wr as [[c w]|]; cbn in Hb; [by case_match|].
      by destruct (D !! store_conn st) as [x|].
    - assert (d = mkDb (Some t) wr D) as ->.
      { unfold begin_immediate in Hb. repeat case_match; by simplify_eq. }
      unfold transaction in H'. erewrite st_bind_ok in H' by (by apply get_conn_idle).
      erewrite st_bind_raise in H' by done. by injection H' as <- <-. }
  destruct db as [[t|] wr D]; [by eapply Hany|].
  destruct wr as [[c w]|].
  - unfold transaction, _get_conn, _init_schema, mbind, st_mbind in H. cbn in H. injection H as <- <-.
    by split_and!.
  - apply (Hany [] None D); [exact I|exact H].
Qed.

(** ** Enqueues with keys *)

Section Race.
Context {R : Redis} {E : Type}.

(** An enqueue with the key [at_key], and how many of its commands have taken effect:
    the first reads the depth, the second is the XADD. *)
Record attempt : Type := mkAttempt {
  at_key : pystr;
  at_commands : nat;
  at_code : coroutine (World E) rval
}.

Record race : Type := mkRace { ra_world : World E; ra_attempts : list attempt }.

Inductive race_step : race → race → Prop :=
| ra_call e job key k validate w l :
    truthy_key key = Some k → is_Some (enq_store e) →
    race_step (mkRace w l) (mkRace w (l ++ [mkAttempt k 0 (enqueue_co e job key validate)]))
| ra_statement k n X (m : M (World E) X) c r w w' l1 l2 :
    m w = (r, w') →
    race_step (mkRace w (l1 ++ mkAttempt k n (CoSync m c) :: l2))
              (mkRace w' (l1 ++ mkAttempt k n (c r) :: l2))
| ra_command k n X (m : M (World E) X) c r w w' l1 l2 :
    m w = (r, w') →
    race_step (mkRace w (l1 ++ mkAttempt k n (CoAwait m c) :: l2))
              (mkRace w' (l1 ++ mkAttempt k (S n) (woken r c) :: l2))
| ra_others w w' l :
    (* other users of the database file, and of everything else *)
    sql_step (w_db w) (w_db w') ∨ w_db w' = w_db w → race_step (mkRace w l) (mkRace w' l).

(** What a statement does to the keys; [inserted] when the attempt's row is committed. *)
Definition keyed_step (k : pystr) (w w' : World E) (inserted inserted' : bool) : Prop :=
  keys_ok (w_db w) →
  keys_ok (w_db w') ∧ keys_grow (w_db w) (w_db w') ∧
  (inserted = true → inserted' = true) ∧
  (inserted' = true → inserted = true ∨ ¬ has_key k (table (w_db w)) ∧ has_key k (table (w_db w'))).

(** The code sends its second command only when its row is committed. *)
Fixpoint careful {A} (k : pystr) (inserted : bool) (n : nat) (t : coroutine (World E) A) : Prop :=
  match t with
  | CoRet r => is_ok r = true → n = 2%nat
  | CoSync m c => ∀ w r w', m w = (r, w') →
      ∃ inserted', keyed_step k w w' inserted inserted' ∧ careful k inserted' n (c r)
  | CoAwait m c =>
      (n = 0%nat ∨ n = 1%nat ∧ inserted = true) ∧
      ∀ w r w', m w = (r, w') → w_db w' = w_db w ∧ careful k inserted (S n) (c r)
  end.

Lemma keyed_same k w w' i : w_db w' = w_db w → keyed_step k w w' i i.
Proof. intros H Hok. rewrite H. split_and!; [done|reflexivity|done|by left]. Qed.

Lemma careful_raise {A} k i n (exc : exn) : careful (A := A) k i n (CoRet (Raise exc)).
Proof. done. Qed.

Lemma careful_sync {A B} k i n (m : M (World E) A) (f : A → coroutine (World E) B) :
  (∀ w r w', m w = (r, w') → ∃ i', keyed_step k w w' i i' ∧
     match r with Ok a => careful k i' n (f a) | Raise _ => True end) →
  careful k i n (co_sync m ≫= f).
Proof.
  intros H w r w' Hm. destruct (H w r w' Hm) as (i' & Hs & Hr). exists i'. split; [done|].
  destruct r; [exact Hr|done].
Qed.

Lemma on_redis_db {A} (m : M rstate A) (w : World E) r w' : on_redis m w = (r, w') → w_db w' = w_db w.
Proof. by intros (s & _ & ->)%on_redis_inv. Qed.

Lemma check_key_keys e key k w r (w' : World E) : check_key e key w = (r, w') → keyed_step k w w' false false.
Proof.
  unfold check_key. destruct (truthy_key key) as [s|]; [|intros [= <- <-]; by apply keyed_same].
  destruct (enq_store e) as [conn|]; [|intros [= <- <-]; by apply keyed_same].
  assert (keeps_keys (find_by_idempotency_key (mkStore conn (w_now w)) s)) as Hf.
  { apply keys_bind.
    - apply keys_bind; [|by intros c d]. intros d. by apply sql_step_keys, sql_init.
    - intros c. apply keys_bind; [apply keys_select|]. intros o. apply keys_lift. }
  intros H Hok. specialize (Hf (w_db w) Hok).
  apply st_bind_inv in H as [(o & w1 & H & Hr)|(exc & H & _)]; apply on_store_inv in H as (d & H & ->);
    rewrite H in Hf; cbn [snd] in Hf; destruct Hf as [H1 H2].
  - destruct o; injection Hr as _ <-; by split_and!.
  - by split_and!.
Qed.

Lemma write_outbox_keys e job k w r (w' : World E) :
  is_Some (enq_store e) → job_idempotency_key job = JStr k → write_outbox e job w = (r, w') →
  keyed_step k w w' false (is_ok r).
Proof.
  intros [conn Hc] Hk H Hok. unfold write_outbox in H. rewrite Hc in H.
  apply on_store_inv in H as (d & H & ->). cbn [with_db w_db].
  destruct (transaction_key _ _ _ _ _ _ Hk Hok H) as (H1 & H2 & H3).
  split_and!; [done..|]. destruct r as [[]|]; [auto|done].
Qed.

Lemma enqueue_careful e job key k validate :
  truthy_key key = Some k → is_Some (enq_store e) → careful k false 0 (enqueue_co (E := E) e job key validate).
Proof.
  intros Hk He. unfold enqueue_co.
  assert (job_idempotency_key (keyed key job) = JStr k) as Hj by (unfold keyed; by rewrite Hk).
  assert (∀ t : coroutine (World E) rval, careful k false 0 t →
    careful k false 0 (_ ← match validate with Some v => co_sync (lift (v job)) | None => mret () end; t)) as Hv.
  { intros t Ht. destruct validate as [v|]; [|exact Ht]. apply careful_sync. intros w r w' [= <- <-].
    exists false. split; [by apply keyed_same|]. destruct (v job); [exact Ht|done]. }
  apply Hv. split; [by left|]. intros w r w' Hw%on_redis_db. split; [done|].
  destruct r as [depth|exc]; [|done]. cbn [co_then].
  destruct (max_queue_depth e <=? depth); [intros Hx; discriminate Hx|].
  change (careful k false 1 (_ ← co_sync (check_key e key);
    _ ← co_sync (write_outbox e (keyed key job));
    co_await (on_redis (transport_xadd (enq_prefix e) (py_str (job_queue (keyed key job))) (keyed key job)
                                       (max_queue_depth e + 1000) true)))).
  apply (careful_sync k false 1). clear w w' Hw. intros w r w' Hc%(check_key_keys e key k).
  exists false. split; [done|]. destruct r; [|done].
  apply (careful_sync k false 1). clear w w' Hc. intros w r w' Hw. eexists.
  split; [by eapply write_outbox_keys|]. destruct r; [|done].
  split; [by right|]. clear w w' Hw. intros w r w' Hw%on_redis_db. by split.
Qed.

(** ** The invariant *)

Definition attempt_ok (w : World E) (x : attempt * bool) : Prop :=
  careful (at_key x.1) x.2 (at_commands x.1) (at_code x.1) ∧
  (at_commands x.1 = 2%nat → x.2 = true) ∧
  (x.2 = true → has_key (at_key x.1) (table (w_db w))).

(** The keys of the attempts whose row is committed. *)
Definition inserted_keys (l : list (attempt * bool)) : list pystr :=
  (λ x, at_key x.1) <$> filter (λ x, x.2 = true) l.

Definition race_inv (x : race) : Prop :=
  keys_ok (w_db (ra_world x)) ∧
  ∃ l, l.*1 = ra_attempts x ∧ Forall (attempt_ok (ra_world x)) l ∧ NoDup (inserted_keys l).

Lemma inserted_app l l' : inserted_keys (l ++ l') = inserted_keys l ++ inserted_keys l'.
Proof. unfold inserted_keys. by rewrite filter_app, fmap_app. Qed.
Lemma inserted_cons x l : inserted_keys (x :: l) = (if x.2 then [at_key x.1] else []) ++ inserted_keys l.
Proof. unfold inserted_keys. rewrite filter_cons. destruct x as [t []]; [by rewrite decide_True|by rewrite decide_False]. Qed.

Lemma attempt_ok_grow w w' x : keys_grow (w_db w) (w_db w') → attempt_ok w x → attempt_ok w' x.
Proof. intros H (H1 & H2 & H3). split_and!; [done..|]. intros Hx. by apply H, H3. Qed.

Lemma inserted_committed w l k :
  Forall (attempt_ok w) l → k ∈ inserted_keys l → has_key k (table (w_db w)).
Proof.
  intros Hl (x & -> & Hx)%list_elem_of_fmap. apply list_elem_of_filter in Hx as [Hx Hin].
  rewrite Forall_forall in Hl. by apply (Hl x Hin).
Qed.

(** The attempt in the middle goes on. *)
Lemma race_goes_on w w' l1 t l2 n code :
  race_inv (mkRace w (l1 ++ t :: l2)) →
  (∀ i, attempt_ok w (t, i) → ∃ i', keyed_step (at_key t) w w' i i' ∧
     careful (at_key t) i' n code ∧ (n = 2%nat → i' = true)) →
  race_inv (mkRace w' (l1 ++ mkAttempt (at_key t) n code :: l2)).
Proof.
  intros (Hok & l & Hl & Hf & Hn) H. cbn [ra_world ra_attempts] in *.
  apply fmap_app_inv in Hl as (m1 & m & -> & Hm & ->). destruct m as [|[t0 i] m2]; [done|].
  injection Hm as -> ->. pose proof Hf as [Hf1 [Ht Hf2]%Forall_cons]%Forall_app.
  destruct (H i Ht) as (i' & Hs & Hc & H2). destruct (Hs Hok) as (Hok' & Hg & Hkeep & Hnew).
  split; [done|]. exists (m1 ++ (mkAttempt (at_key t0) n code, i') :: m2).
  assert (i' = true → has_key (at_key t0) (table (w_db w'))) as Hhas.
  { intros Hi'. destruct (Hnew Hi') as [->|[_ ?]]; [|done]. apply Hg. by apply Ht. }
  split_and!; [by rewrite fmap_app, fmap_cons| |].
  - assert (∀ m, Forall (attempt_ok w) m → Forall (attempt_ok w') m) as Hgr
      by (intros m Hm; eapply Forall_impl; [exact Hm|]; intros x; by apply attempt_ok_grow).
    apply Forall_app. split; [by apply Hgr|]. apply Forall_cons. split; [by split_and!|by apply Hgr].
  - rewrite inserted_app, inserted_cons in *. cbn [fst snd at_key] in *.
    destruct i, i'; try done; [by specialize (Hkeep eq_refl)|].
    destruct (Hnew eq_refl) as [?|[Hno _]]; [done|].
    cbn [app] in *. rewrite <- Permutation_middle. apply NoDup_cons. split; [|exact Hn].
    intros Hk. apply Hno. apply elem_of_app in Hk as [Hk|Hk];
      (eapply inserted_committed; [|exact Hk]; done).
Qed.

Lemma race_step_inv x y : race_step x y → race_inv x → race_inv y.
Proof.
  intros H Hi. destruct H as [e job key k v w l Hk He|k n X m c r w w' l1 l2 Hm|k n X m c r w w' l1 l2 Hm
    |w w' l Hw].
  - destruct Hi as (Hok & m & Hl & Hf & Hn). cbn [ra_world ra_attempts] in *. subst l. split; [done|].
    eexists (m ++ [(mkAttempt k 0 (enqueue_co e job key v), false)]).
    rewrite fmap_app, inserted_app. cbn. rewrite app_nil_r. split_and!; [done| |done].
    apply Forall_app. split; [done|]. apply Forall_singleton.
    split_and!; [by apply enqueue_careful|done|done].
  - apply (race_goes_on w w' l1 (mkAttempt k n (CoSync m c)) l2 n (c r)); [done|].
    intros i (Hc & H2 & _). destruct (Hc _ _ _ Hm) as (i' & Hs & Hc'). exists i'. split_and!; [done..|].
    intros Hn. cbn in H2. specialize (H2 Hn). subst i.
    destruct Hi as (Hok & _). by apply (Hs Hok).
  - apply (race_goes_on w w' l1 (mkAttempt k n (CoAwait m c)) l2 (S n) (woken r c)); [done|].
    intros i ([Hc0 Hc] & H2 & _). destruct (Hc _ _ _ Hm) as [Hdb Hc']. exists i.
    split_and!; [by apply keyed_same| |cbn in *; intros; destruct Hc0 as [->|[-> ?]]; done].
    intros w1 r1 w2 [= <- <-]. exists i. split; [by apply keyed_same|done].
  - destruct Hi as (Hok & m & Hl & Hf & Hn). cbn [ra_world ra_attempts] in *.
    assert (keys_ok (w_db w') ∧ keys_grow (w_db w) (w_db w')) as [Hok' Hg].
    { destruct Hw as [Hw|Hw]; [by eapply sql_step_keys|]. rewrite Hw. by split. }
    split; [done|]. exists m. split_and!; [done| |done]. eapply Forall_impl; [exact Hf|].
    intros x. by apply attempt_ok_grow.
Qed.

Lemma inserted_unique (l : list (attempt * bool)) i j t1 t2 :
  NoDup (inserted_keys l) → l !! i = Some (t1, true) → l !! j = Some (t2, true) → at_key t1 = at_key t2 → i = j.
Proof.
  revert i j. induction l as [|x l IH]; intros i j Hn Hi Hj Hk; [done|].
  rewrite inserted_cons in Hn. apply NoDup_app in Hn as (_ & Hd & Hn).
  assert (∀ n t, l !! n = Some (t, true) → at_key t ∈ inserted_keys l) as Hin.
  { intros n t Ht. apply list_elem_of_fmap. exists (t, true). split; [done|].
    apply list_elem_of_filter. split; [done|]. by eapply list_elem_of_lookup_2. }
  destruct i as [|i], j as [|j]; cbn in Hi, Hj; [done|..].
  - injection Hi as ->. exfalso. apply (Hd (at_key t1)); [by left|]. rewrite Hk. by eapply Hin.
  - injection Hj as ->. exfalso. apply (Hd (at_key t2)); [by left|]. rewrite <- Hk. by eapply Hin.
  - f_equal. by eapply IH.
Qed.

(** C18: an idempotency key is used once, whatever races.  Over any interleaving of
    enqueues with keys (statements of several processes, commands that fail or are
    lost, calls that are cancelled and never go on) with any other use of the
    database file, at most one of the enqueues with a given key ever sends its XADD;
    an enqueue that returns has sent it, and one that has sent it has its key in a
    committed row. *)
Theorem key_used_once w0 x :
  keys_ok (w_db w0) → rtc race_step (mkRace w0 []) x →
  (∀ i j t1 t2, ra_attempts x !! i = Some t1 → ra_attempts x !! j = Some t2 → at_key t1 = at_key t2 →
     at_commands t1 = 2%nat → at_commands t2 = 2%nat → i = j) ∧
  ∀ t, t ∈ ra_attempts x →
    (∀ r, at_code t = CoRet (Ok r) → at_commands t = 2%nat) ∧
    (at_commands t = 2%nat → has_key (at_key t) (table (w_db (ra_world x)))).
Proof.
  intros Hok Hrun.
  assert (race_inv x) as (_ & l & Hl & Hf & Hn).
  { assert (race_inv (mkRace w0 [])) as H0 by (split; [done|exists []; split_and!; constructor]).
    revert H0. induction Hrun as [x|x y z Hxy _ IH]; [done|]. intros Hx. by eapply IH, race_step_inv. }
  rewrite <- Hl, Forall_forall in *. split.
  - intros i j t1 t2 Hi Hj Hk H1 H2. rewrite list_lookup_fmap in Hi, Hj.
    apply fmap_Some in Hi as ([t1' b1] & Hi & ->), Hj as ([t2' b2] & Hj & ->).
    assert (b1 = true) as -> by (apply (Hf _ (list_elem_of_lookup_2 _ _ _ Hi)); exact H1).
    assert (b2 = true) as -> by (apply (Hf _ (list_elem_of_lookup_2 _ _ _ Hj)); exact H2).
    by eapply inserted_unique.
  - intros t (x' & -> & Hx)%list_elem_of_fmap. destruct (Hf x' Hx) as (Hc & H2 & Hh). split; [|auto].
    intros r Hr. rewrite Hr in Hc. by apply Hc.
Qed.

(** ** A key that is spent *)

(** A call in flight besides the others changes nothing for them. *)
Lemma race_step_beside g w l y :
  race_step (mkRace w l) y → race_step (mkRace w (g :: l)) (mkRace (ra_world y) (g :: ra_attempts y)).
Proof.
  remember (mkRace w l) as x eqn:Hx. intros H. destruct H; simplify_eq; cbn [ra_world ra_attempts].
  - by apply (ra_call _ _ _ _ _ _ (g :: _)).
  - by eapply (ra_statement _ _ _ _ _ _ _ _ (g :: l1)).
  - by eapply (ra_command _ _ _ _ _ _ _ _ (g :: l1)).
  - by apply ra_others.
Qed.

Lemma race_steps_beside g x y :
  rtc race_step x y →
  rtc race_step (mkRace (ra_world x) (g :: ra_attempts x)) (mkRace (ra_world y) (g :: ra_attempts y)).
Proof.
  induction 1 as [x|[w l] z y Hxz _ IH]; [done|]. eapply rtc_l; [by apply race_step_beside|exact IH].
Qed.

(** Once a row with the key is committed, no attempt ever sends its XADD: the row is
    like that of an attempt that has. *)
Lemma key_is_spent w x k t :
  keys_ok (w_db w) → has_key k (table (w_db w)) → rtc race_step (mkRace w []) x →
  t ∈ ra_attempts x → at_key t = k → at_commands t ≠ 2%nat ∧ ∀ r, at_code t ≠ CoRet (Ok r).
Proof.
  intros Hok Hk Hrun Ht Htk.
  set (g := mkAttempt k 2 (CoRet (Raise CancelledError))).
  assert (race_inv (mkRace (ra_world x) (g :: ra_attempts x))) as (_ & l & Hl & Hf & Hn).
  { assert (race_inv (mkRace w [g])) as H0.
    { split; [done|]. exists [(g, true)]. split_and!; [done| |apply NoDup_singleton].
      apply Forall_singleton. split_and!; [apply careful_raise|done|done]. }
    apply (race_steps_beside g) in Hrun. cbn [ra_world ra_attempts] in Hrun. revert Hrun H0.
    induction 1 as [y|y z y' Hyz _ IH]; [done|]. intros Hy. by eapply IH, race_step_inv. }
  cbn [ra_attempts] in Hl. destruct l as [|[g' b] l]; [done|]. injection Hl as -> Hl.
  apply Forall_cons in Hf as [(_ & Hg & _) Hf]. cbn [fst snd] in Hg. specialize (Hg eq_refl). subst b.
  assert (at_commands t ≠ 2%nat) as H2.
  { intros H2. rewrite <- Hl in Ht. apply list_elem_of_fmap in Ht as ([t' b] & -> & Hin). cbn [fst] in *.
    rewrite Forall_forall in Hf. destruct (Hf _ Hin) as (_ & Hb & _). specialize (Hb H2). cbn in Hb. subst b.
    apply list_elem_of_lookup in Hin as [n Hn']. enough (0 = S n)%nat by done.
    by apply (inserted_unique ((g, true) :: l) 0 (S n) g t' Hn). }
  split; [exact H2|]. intros r Hr. apply H2. rewrite <- Hl in Ht.
  apply list_elem_of_fmap in Ht as ([t' b] & -> & Hin). cbn [fst] in *.
  rewrite Forall_forall in Hf. destruct (Hf _ Hin) as (Hc & _). cbn [fst] in Hc. rewrite Hr in Hc. by apply Hc.
Qed.

End Race.

Section Stranded.
Context {R : Redis} {RS : RedisSpec R} {E : Type}.

(** An enqueue of a spent key, by whoever and with nothing in between. *)
Lemma spent_key_enqueue e job key k validate (w : World E) r w' :
  is_Some (enq_store e) → truthy_key key = Some k →
  keys_ok (w_db w) → has_key k (table (w_db w)) →
  enqueue e job key validate w = (r, w') →
  is_ok r = false ∧ view (w_redis w') = view (w_redis w).
Proof.
  intros He Hkey Hok Hk H. unfold enqueue in H.
  apply st_bind_inv in H as [(a0 & w0 & Hv & H)|(exc & Hv & ->)]; apply validate_run in Hv as ->; [|done].
  apply st_bind_inv in H as [(a1 & w1 & Hd & H)|(exc & Hd & ->)];
    apply check_depth_run in Hd as (Hdb1 & Hv1 & _); [|done]. rewrite <- Hv1, <- Hdb1 in *.
  apply st_bind_inv in H as [(a2 & w2 & Hc & H)|(exc & Hc & ->)]; pose proof Hc as Hq;
    apply (check_key_keys e key k) in Hc; destruct (Hc Hok) as (Hok2 & Hg2 & _); clear Hc;
    (assert (view (w_redis w2) = view (w_redis w1)) as <- || assert (view (w_redis w') = view (w_redis w1)) as <-);
    try done;
    try (unfold check_key in Hq; rewrite Hkey in Hq; destruct (enq_store e) as [conn|]; [|by injection Hq as _ <-];
         apply st_bind_inv in Hq as [(o & w3 & Hs & Hq)|(exc' & Hs & _)]; apply on_store_inv in Hs as (d & _ & ->);
         [destruct o; by injection Hq as _ <-|done]).
  assert (job_idempotency_key (keyed key job) = JStr k) as Hj by (unfold keyed; by rewrite Hkey).
  apply st_bind_inv in H as [(a3 & w3 & Ho & H)|(exc & Ho & ->)]; pose proof Ho as Hw;
    unfold write_outbox in Ho; destruct He as [conn He]; rewrite He in Ho;
    apply on_store_inv in Ho as (d & Ho & ->); [|done].
  destruct (transaction_key _ _ _ _ _ _ Hj Hok2 Ho) as (_ & _ & Hnew). destruct a3.
  destruct (Hnew eq_refl) as [Hno _]. destruct Hno. by apply Hg2.
Qed.

(** C28: when XADD fails after the outbox commit, the job is stranded: its row stays
    committed as [pending] and its idempotency key is spent.  From then on, whatever
    the program does with the database file (any sequence of its statements on any
    connections), no enqueuer with a store succeeds with that key, and its attempt
    leaves every stream as it was; and in any race of enqueues no attempt with that
    key ever sends its XADD or returns. *)
Theorem xadd_failure_strands_job e conn job k (w : World E) rows D exc w' :
  enq_store e = Some conn → truthy_key (Some k) = Some k →
  w_db w = mkDb (Some rows) None D → D !! conn = None → job_status job = StEnum PENDING →
  enqueue e job (Some k) None w = (Raise exc, w') →
  w_db w' ≠ w_db w →
  (∃ r, w_db w' = mkDb (Some (rows ++ [r])) None (outdate rows <$> D) ∧
        r_status r = VText (u "pending") ∧ r_idempotency_key r = VText k) ∧
  ∀ w2 : World E, rtc sql_step (w_db w') (w_db w2) →
    (∀ e2 job2 key2 validate r2 w3,
       is_Some (enq_store e2) → truthy_key key2 = Some k →
       enqueue e2 job2 key2 validate w2 = (r2, w3) →
       is_ok r2 = false ∧ view (w_redis w3) = view (w_redis w2)) ∧
    (∀ x t, rtc race_step (mkRace w2 []) x → t ∈ ra_attempts x → at_key t = k →
       at_commands t ≠ 2%nat ∧ ∀ r, at_code t ≠ CoRet (Ok r)).
Proof.
  intros Hst Htr Hdb HD Hpend H Hne.
  destruct (xadd_failure_row _ _ _ _ _ _ _ _ _ Hst Htr Hdb HD Hpend H Hne) as (r & Hr & Hs & Hk).
  split; [by exists r|]. intros w2 Hsteps.
  assert (keys_ok (w_db w2) ∧ has_key k (table (w_db w2))) as [Hok Hkey].
  { assert (keys_ok (w_db w') ∧ has_key k (table (w_db w'))) as H0.
    { rewrite Hr. split; [exact I|]. exists r. split; [set_solver|done]. }
    destruct H0 as [H1 H2]. destruct (sql_steps_keys _ _ Hsteps H1) as [H3 H4].
    split; [done|by apply H4]. }
  split; [intros; by eapply spent_key_enqueue|]. intros x t Hx Ht Htk. by eapply key_is_spent.
Qed.

End Stranded.

(** ** Witness: both checks pass, one row is inserted *)

Section Schedule.
Context {R : Redis} {E : Type}.

(** The attempt at [n] runs its next statement or command. *)
Definition race_go (n : nat) (x : race (E := E)) : option race :=
  match drop n (ra_attempts x) with
  | t :: l2 =>
      let l1 := take n (ra_attempts x) in
      match at_code t with
      | CoRet _ => None
      | CoSync m c =>
          let '(r, w') := m (ra_world x) in
          Some (mkRace w' (l1 ++ mkAttempt (at_key t) (at_commands t) (c r) :: l2))
      | CoAwait m c =>
          let '(r, w') := m (ra_world x) in
          Some (mkRace w' (l1 ++ mkAttempt (at_key t) (S (at_commands t)) (woken r c) :: l2))
      end
  | [] => None
  end.

Fixpoint race_schedule (ns : list nat) (x : race (E := E)) : option race :=
  match ns with
  | [] => Some x
  | n :: ns' => y ← race_go n x; race_schedule ns' y
  end.

Lemma race_schedule_steps ns x y : race_schedule ns x = Some y → rtc race_step x y.
Proof.
  revert x. induction ns as [|n ns IH]; intros x; cbn [race_schedule]; [by intros [= <-]|].
  destruct (race_go n x) as [z|] eqn:Hz; [|done]. cbn. intros H. eapply rtc_l; [|by apply IH].
  destruct x as [w l]. unfold race_go in Hz. cbn [ra_attempts ra_world] in Hz.
  destruct (drop n l) as [|[k c code] l2] eqn:Hd; [done|]. cbn [at_code at_key at_commands] in Hz.
  rewrite <- (take_drop n l), Hd. destruct code as [r|X m f|X m f]; [done|..];
    destruct (m w) as [r w'] eqn:Hm; injection Hz as <-; [by eapply ra_statement|by eapply ra_command].
Qed.
End Schedule.

(** Two processes enqueue different jobs with the same key. *)
Definition rival_job : Job :=
  new_job (u "fedcba98765432100000") noon (JStr (u "email")) (JObj []) (JStr mail) (JInt 3).
Definition rivals : list (attempt (E := unit)) :=
  [mkAttempt key1 0 (enqueue_co (enqueuer1 10) (mail_job 3) (Some key1) None);
   mkAttempt key1 0 (enqueue_co (mkEnqueuer relayq 10 (Some 1%nat)) rival_job (Some key1) None)].
Definition race_start : World unit := world_on (server_with 0 3).

(** Each reads the depth and checks the key before either writes its row. *)
Definition raced_keys : option (race (E := unit)) :=
  race_schedule [0; 1; 0; 1; 0; 1; 0; 1; 0; 0]%nat (mkRace race_start rivals).
Definition race_end : race (E := unit) := default (mkRace race_start []) raced_keys.

Definition outcome_of (t : attempt (E := unit)) : option (result exn rval) :=
  match at_code t with CoRet r => Some r | _ => None end.

Lemma rivals_race : rtc race_step (mkRace race_start []) race_end.
Proof.
  eapply rtc_l; [exact (ra_call (enqueuer1 10) (mail_job 3) (Some key1) key1 None race_start [] eq_refl (mk_is_Some _ _ eq_refl))|].
  eapply rtc_l; [exact (ra_call (mkEnqueuer relayq 10 (Some 1%nat)) rival_job (Some key1) key1 None race_start _ eq_refl (mk_is_Some _ _ eq_refl))|].
  apply (race_schedule_steps [0; 1; 0; 1; 0; 1; 0; 1; 0; 0]%nat). unfold race_end.
  change (raced_keys = Some (default (mkRace race_start []) raced_keys)).
  assert (is_Some raced_keys) as [y ->]; [|done].
  apply (bool_decide_unpack (is_Some raced_keys)). vm_compute. reflexivity.
Qed.

Lemma key_used_once_witness :
  outcome_of <$> ra_attempts race_end =
    [Some (Ok (RS (u "1-0")));
     Some (Raise (IntegrityError (u "UNIQUE constraint failed: jobs.idempotency_key")))] ∧
  (∀ i j t1 t2, ra_attempts race_end !! i = Some t1 → ra_attempts race_end !! j = Some t2 →
     at_key t1 = at_key t2 → at_commands t1 = 2%nat → at_commands t2 = 2%nat → i = j).
Proof.
  split; [vm_compute; reflexivity|].
  destruct (key_used_once race_start race_end) as [H _]; [exact I|exact rivals_race|exact H].
Defined.

(** XADD fails after the depth check: the outbox row stays, and the key is spent, also
    for another process, after an update it leaves uncommitted. *)
Definition first_xadd_fails : World unit := world_on (failing [false; true] (server_with 0 3)).
Definition stranded_world : World unit :=
  run (enqueue (enqueuer1 10) (mail_job 3) (Some key1) None) first_xadd_fails.
Definition later_world : World unit :=
  with_db (dml 2 (Ok tt) (λ _ rows, Ok (update_rows (VText (u "x")) (u "dead") None rows)) (w_db stranded_world)).2
          stranded_world.

Lemma xadd_failure_witness :
  (enqueue (enqueuer1 10) (mail_job 3) (Some key1) None first_xadd_fails).1 = Raise connection_error ∧
  let '(r2, w3) := enqueue (mkEnqueuer relayq 20 (Some 2%nat)) rival_job (Some key1) None later_world in
  is_ok r2 = false ∧ view (w_redis w3) = view (w_redis later_world).
Proof.
  split; [vm_compute; reflexivity|].
  destruct (enqueue _ rival_job _ _ later_world) as [r2 w3] eqn:H2.
  assert (enqueue (enqueuer1 10) (mail_job 3) (Some key1) None first_xadd_fails =
          (Raise connection_error, stranded_world)) as H.
  { apply (run_eq (enqueue (enqueuer1 10) (mail_job 3) (Some key1) None) first_xadd_fails
             (Raise connection_error)). vm_compute. reflexivity. }
  destruct (xadd_failure_strands_job (enqueuer1 10) 0 (mail_job 3) key1 first_xadd_fails [] ∅
              connection_error stranded_world) as [_ Hlater];
    [reflexivity|reflexivity|reflexivity|apply lookup_empty|reflexivity|exact H| |].
  - intros Hd. apply (f_equal (λ d, length (default [] (db_table d)))) in Hd. vm_compute in Hd. discriminate Hd.
  - destruct (Hlater later_world) as [Hseq _].
    + apply rtc_once. unfold later_world at 1. cbn [w_db with_db].
      exact (sql_update 2 (Ok tt) (λ _, VText (u "x")) (λ _, u "dead") (λ _, None) (w_db stranded_world)).
    + refine (Hseq _ _ _ _ _ _ _ _ H2); [by exists 2%nat|reflexivity].
Defined.
