(* ===== verification/Execute.v ===== *)
(** * Job execution: [relayq/application/execute.py]

    [Executor.execute] and [_handle_failure]: run the handler under a timeout,
    then acknowledge, leave pending, or dead-letter.  The handler is user code: a
    parameter that acts on an environment of its own, may change the job object
    it is given, takes some time, and returns, raises, or is still running at the
    deadline.  [asyncio.timeout] turns the last case into TimeoutError. *)

From Stdlib Require Import String QArith.
From S2P Require Import Prelude PyStr Json Errors Coroutine Datetime Job Retry Redis RedisModel Transport SqliteStore Metrics World Scenario Delivery.
Open Scope list_scope.
Open Scope Z_scope.

Record Executor : Type := mkExecutor {
  ex_prefix : pystr;             (* the transport's prefix *)
  ex_ns : pystr;                 (* the metrics' namespace *)
  retry_policy : RetryPolicy;
  ex_store : option nat;
  job_timeout : Q
}.

Inductive hout : Type := HDone | HRaise (e : exn) | HDeadline.

(** What the [async with asyncio.timeout(...)] block raises. *)
Definition block_raises (o : hout) : option exn :=
  match o with HDone => None | HRaise e => Some e | HDeadline => Some TimeoutError end.

Section Execute.
Context {R : Redis} {E : Type}.

(** [handler env job deadline]: outcome, job object, environment, seconds spent. *)
Definition handler_fun : Type := E → Job → Q → hout * Job * E * Q.

Definition run_handler (h : handler_fun) (job : Job) (deadline : Q) : M (World E) (hout * Job) :=
  fun w => let '(o, job', env', dt) := h (w_env w) job deadline in
           (Ok (o, job'), after_handler dt env' w).

(** [if self.store: try: self.store.update_status(...) except Exception: log] *)
Definition mark (ex : Executor) (id : json) (status : JobStatus) (attempt : json) : M (World E) unit :=
  match ex_store ex with
  | None => mret tt
  | Some conn =>
      except_Exception (on_store conn (fun st => update_status st id status attempt))
                       (fun _ => mret tt)
  end.

(** Routing of a failed job; returns the job object, whose [attempts] changed. *)
Definition _handle_failure (ex : Executor) (queue : pystr) (entry_id : rval) (job : Job) (exc : exn)
    : M (World E) Job :=
  attempts ← lift (py_add_int (job_attempts job) 1);
  let job := set_attempts attempts job in
  _ ← metric (incr_delivery_attempts (ex_ns ex) (job_kind job) false);
  dlq ← lift (should_dlq job);
  if dlq : bool then
    let reason := failure_reason exc in
    _ ← except_Exception
          (_ ← on_redis (xadd_dlq (ex_prefix ex) queue job reason);
           _ ← on_redis (transport_xack (ex_prefix ex) queue entry_id);
           metric (incr_dead_letter (ex_ns ex) (job_kind job)))
          (fun _ => mret tt);
    _ ← mark ex (job_id job) DEAD JNull;
    mret job
  else
    draw ← random_draw;
    _ ← lift (n ← py_add_int (job_attempts job) (-1);
              delay (retry_policy ex) (default 0 (as_int n)) draw);
    _ ← mark ex (job_id job) FAILED (job_attempts job);
    mret job.

(** What follows the [async with] block. *)
Definition after_handler_block (ex : Executor) (queue : pystr) (entry_id : rval) (start : Q)
    (oj : hout * Job) : M (World E) Job :=
  let '(o, job) := oj in
  match block_raises o with
  | Some exc =>
      if is_Exception exc then
        stop ← monotonic;
        _ ← metric (observe_processing_seconds (ex_ns ex) (job_kind job) (stop - start));
        _handle_failure ex queue entry_id job
          (if is_TimeoutError exc then JobTimeout (job_id job) (job_timeout ex) else exc)
      else throw exc
  | None =>
      stop ← monotonic;
      _ ← metric (observe_processing_seconds (ex_ns ex) (job_kind job) (stop - start));
      _ ← except_Exception (_ ← on_redis (transport_xack (ex_prefix ex) queue entry_id); mret tt)
                           (fun _ => mret tt);
      _ ← mark ex (job_id job) COMPLETED JNull;
      _ ← metric (incr_delivery_attempts (ex_ns ex) (job_kind job) true);
      mret job
  end.

Definition execute (ex : Executor) (queue : pystr) (entry_id : rval) (job : Job) (h : handler_fun)
    : M (World E) Job :=
  _ ← mark ex (job_id job) PROCESSING (job_attempts job);
  start ← monotonic;
  oj ← run_handler h job (job_timeout ex);
  after_handler_block ex queue entry_id start oj.

(** ** The same bodies at their suspension points

    The handler and the transport's commands are awaited; the outbox, the clock
    and the metrics are not. *)

Definition _handle_failure_co (ex : Executor) (queue : pystr) (entry_id : rval) (job : Job)
    (exc : exn) : coroutine (World E) Job :=
  attempts ← co_sync (lift (py_add_int (job_attempts job) 1));
  let job := set_attempts attempts job in
  _ ← co_sync (metric (incr_delivery_attempts (ex_ns ex) (job_kind job) false));
  dlq ← co_sync (lift (should_dlq job));
  if dlq : bool then
    let reason := failure_reason exc in
    _ ← co_except_Exception
          (_ ← co_await (on_redis (xadd_dlq (ex_prefix ex) queue job reason));
           _ ← co_await (on_redis (transport_xack (ex_prefix ex) queue entry_id));
           co_sync (metric (incr_dead_letter (ex_ns ex) (job_kind job))))
          (fun _ => mret tt);
    _ ← co_sync (mark ex (job_id job) DEAD JNull);
    mret job
  else
    draw ← co_sync random_draw;
    _ ← co_sync (lift (n ← py_add_int (job_attempts job) (-1);
                       delay (retry_policy ex) (default 0 (as_int n)) draw));
    _ ← co_sync (mark ex (job_id job) FAILED (job_attempts job));
    mret job.

Definition after_handler_co (ex : Executor) (queue : pystr) (entry_id : rval) (start : Q)
    (oj : hout * Job) : coroutine (World E) Job :=
  let '(o, job) := oj in
  match block_raises o with
  | Some exc =>
      if is_Exception exc then
        stop ← co_sync monotonic;
        _ ← co_sync (metric (observe_processing_seconds (ex_ns ex) (job_kind job) (stop - start)));
        _handle_failure_co ex queue entry_id job
          (if is_TimeoutError exc then JobTimeout (job_id job) (job_timeout ex) else exc)
      else co_throw exc
  | None =>
      stop ← co_sync monotonic;
      _ ← co_sync (metric (observe_processing_seconds (ex_ns ex) (job_kind job) (stop - start)));
      _ ← co_except_Exception
            (_ ← co_await (on_redis (transport_xack (ex_prefix ex) queue entry_id)); mret tt)
            (fun _ => mret tt);
      _ ← co_sync (mark ex (job_id job) COMPLETED JNull);
      _ ← co_sync (metric (incr_delivery_attempts (ex_ns ex) (job_kind job) true));
      mret job
  end.

Definition execute_co (ex : Executor) (queue : pystr) (entry_id : rval) (job : Job)
    (h : handler_fun) : coroutine (World E) Job :=
  _ ← co_sync (mark ex (job_id job) PROCESSING (job_attempts job));
  start ← co_sync monotonic;
  oj ← co_await (run_handler h job (job_timeout ex));
  after_handler_co ex queue entry_id start oj.

Lemma handle_failure_co_run ex queue id job exc w :
  co_run (_handle_failure_co ex queue id job exc) w = _handle_failure ex queue id job exc w.
Proof.
  unfold _handle_failure_co, _handle_failure. do 3 co_step.
  match goal with |- context [if ?b then _ else _] => destruct b end; repeat co_step.
Qed.

Lemma after_handler_co_run ex queue id start oj w :
  co_run (after_handler_co ex queue id start oj) w = after_handler_block ex queue id start oj w.
Proof.
  destruct oj as [o job]. unfold after_handler_co, after_handler_block.
  destruct (block_raises o) as [exc|]; [destruct (is_Exception exc)|]; [|done|repeat co_step].
  do 2 co_step. apply handle_failure_co_run.
Qed.

(** A body run with nothing in between does what it does in sequence. *)
Theorem execute_co_run ex queue id job h w :
  co_run (execute_co ex queue id job h) w = execute ex queue id job h w.
Proof. unfold execute_co, execute. do 3 co_step. apply after_handler_co_run. Qed.

(** Every path through the bodies is short. *)
Lemma execute_turns ex queue id job h : turns_le (execute_co ex queue id job h) 15.
Proof. unfold execute_co, after_handler_co, _handle_failure_co. count_turns. Qed.

(** ** Runs of the parts *)

Lemma mark_run ex id status attempt w :
  ∃ d, mark ex id status attempt w = (Ok tt, with_db d w).
Proof.
  unfold mark. destruct (ex_store ex) as [conn|]; [|by exists (w_db w); destruct w].
  destruct (on_store conn (λ st, update_status st id status attempt) w) as [r w'] eqn:H.
  pose proof H as (d & Hu & ->)%on_store_inv. exists d.
  destruct r as [[]|e].
  - by apply except_Exception_ok.
  - erewrite except_Exception_caught; [done|done|by eapply update_status_exn].
Qed.

Lemma metric_run f (w : World E) : metric f w = (Ok tt, with_metrics (f (w_metrics w)) w).
Proof. done. Qed.

(** A failure handled in [except Exception: log]. *)
Lemma guarded_run {A} (m : M (World E) A) w r w' :
  m w = (r, w') →
  except_Exception (_ ← m; mret tt) (λ _, mret tt) w =
  (match r with Raise e => if is_Exception e then Ok tt else Raise e | Ok _ => Ok tt end, w').
Proof.
  intros H. unfold except_Exception, try_except, mbind, st_mbind. rewrite H.
  destruct r as [a|e]; [done|]. by destruct (is_Exception e).
Qed.

Definition failure_of (ex : Executor) (job : Job) (exc : exn) : exn :=
  if is_TimeoutError exc then JobTimeout (job_id job) (job_timeout ex) else exc.

Lemma execute_run ex queue id job h w o job' env' dt :
  h (w_env w) job (job_timeout ex) = (o, job', env', dt) →
  ∃ d, let w1 := after_handler dt env' (with_db d w) in
       let w2 := with_metrics (observe_processing_seconds (ex_ns ex) (job_kind job')
                                 (w_mono w + dt - w_mono w) (w_metrics w)) w1 in
    execute ex queue id job h w =
    match block_raises o with
    | Some exc => if is_Exception exc
                  then _handle_failure ex queue id job' (failure_of ex job' exc) w2
                  else (Raise exc, w1)
    | None =>
        (_ ← except_Exception (_ ← on_redis (transport_xack (ex_prefix ex) queue id); mret tt)
                              (fun _ => mret tt);
         _ ← mark ex (job_id job') COMPLETED JNull;
         _ ← metric (incr_delivery_attempts (ex_ns ex) (job_kind job') true);
         mret job') w2
    end.
Proof.
  intros Hh. destruct (mark_run ex (job_id job) PROCESSING (job_attempts job) w) as [d Hd].
  exists d. unfold execute. erewrite st_bind_ok by exact Hd.
  unfold monotonic at 1. erewrite st_bind_ok by done.
  assert (run_handler h job (job_timeout ex) (with_db d w) =
          (Ok (o, job'), after_handler dt env' (with_db d w))) as Hr
    by (unfold run_handler; change (w_env (with_db d w)) with (w_env w); by rewrite Hh).
  erewrite st_bind_ok by exact Hr. unfold after_handler_block.
  destruct (block_raises o) as [exc|]; [destruct (is_Exception exc)|]; done.
Qed.

(** The two routes of a failure. *)
Lemma handle_failure_run ex queue id job exc (w : World E) a m :
  as_int (job_attempts job) = Some a → as_int (job_max_retries job) = Some m →
  let job1 := set_attempts (JInt (a + 1)) job in
  let w1 := with_metrics (incr_delivery_attempts (ex_ns ex) (job_kind job) false (w_metrics w)) w in
  _handle_failure ex queue id job exc w =
  if (m <? a + 1)%Z then
    (_ ← except_Exception
          (_ ← on_redis (xadd_dlq (ex_prefix ex) queue job1 (failure_reason exc));
           _ ← on_redis (transport_xack (ex_prefix ex) queue id);
           metric (incr_dead_letter (ex_ns ex) (job_kind job)))
          (fun _ => mret tt);
     _ ← mark ex (job_id job) DEAD JNull;
     mret job1) w1
  else
    (_ ← lift (delay (retry_policy ex) a (w_rand w));
     _ ← mark ex (job_id job) FAILED (JInt (a + 1));
     mret job1) w1.
Proof.
  intros Ha Hm. cbv zeta. unfold _handle_failure, py_add_int. rewrite Ha.
  assert (should_dlq (set_attempts (JInt (a + 1)) job) = Ok (m <? a + 1)) as Hs
    by (unfold should_dlq, py_gt; simpl; by rewrite Hm).
  erewrite st_bind_ok by done. erewrite st_bind_ok by apply metric_run.
  unfold lift at 1. erewrite st_bind_ok by (by rewrite Hs).
  destruct (m <? a + 1)%Z; [done|].
  erewrite st_bind_ok by done. simpl. by replace (a + 1 + -1) with a by lia.
Qed.

End Execute.

Section ExecuteSpec.
Context {R : Redis} {RS : RedisSpec R} {E : Type}.

(** The entry is delivered and not acknowledged. *)
Definition pending (prefix : pystr) (v : server) (queue : pystr) (id : rval) : Prop :=
  ∃ gv, queue_group prefix v queue = Some gv ∧ id ∈ (g_pel gv).*1.

(** The job's dict and the reason stand on the dead-letter stream. *)
Definition dead_lettered (prefix : pystr) (v : server) (queue : pystr) (job : Job) (reason : pystr)
    : Prop :=
  ∃ e d, e ∈ s_entries (stream_of v (_dlq_key prefix queue)) ∧ to_dict job = Ok d ∧
         dict_get (u "job") e.2 = Some (dumps d) ∧ dict_get (u "reason") e.2 = Some reason.

(** ** Effects of the transport's calls on the two *)

Lemma xadd_dlq_run prefix queue job reason s r s' :
  xadd_dlq prefix queue job reason s = (r, s') →
  queue_group prefix (view s') queue = queue_group prefix (view s) queue ∧
  (is_ok r = true → dead_lettered prefix (view s') queue job reason).
Proof.
  unfold xadd_dlq. intros H.
  apply st_bind_inv in H as [(d & s1 & Hd & H)|(exc & Hd & ->)]; injection Hd as Hd <-;
    [|by split].
  apply xadd_law in H.
  assert (∀ id v', xadd_eff (_dlq_key prefix queue)
            [(u "job", dumps d); (u "reason", reason);
             (u "dlqed_at", dumps (JStr (isoformat (job_created_at job))))] None (view s) id v' →
          queue_group prefix v' queue = queue_group prefix (view s) queue ∧
          dead_lettered prefix v' queue job reason) as Heff.
  { intros id v' He. split.
    - eapply (xadd_eff_other _ _ _ _ _ _ (_stream_key prefix queue)) in He as [_ He];
        [|apply not_eq_sym, stream_ne_dlq].
      unfold queue_group, group_at. by rewrite He.
    - apply xadd_eff_append in He as (_ & He & _); [|done].
      exists (id, [(u "job", dumps d); (u "reason", reason);
                   (u "dlqed_at", dumps (JStr (isoformat (job_created_at job))))]), d.
      rewrite He. split_and!; [|done|reflexivity|reflexivity].
      apply elem_of_app. right. by left. }
  destruct r as [id|exc]; simpl in H.
  - by destruct (Heff _ _ H).
  - destruct H as [->|(id & H)]; [done|]. by destruct (Heff _ _ H).
Qed.

Lemma xack_run prefix queue id s r s' :
  transport_xack prefix queue id s = (r, s') →
  (∀ k, k ≠ _stream_key prefix queue → view s' !! k = view s !! k) ∧
  (∀ k, s_entries (stream_of (view s') k) = s_entries (stream_of (view s) k)) ∧
  (is_ok r = true → ¬ pending prefix (view s') queue id).
Proof.
  unfold transport_xack. intros H%xack_law.
  assert (∀ n v', xack_eff (_stream_key prefix queue) (_group_key prefix queue) id (view s) n v' →
    (∀ k, k ≠ _stream_key prefix queue → v' !! k = view s !! k) ∧
    (∀ k, s_entries (stream_of v' k) = s_entries (stream_of (view s) k)) ∧
    ¬ pending prefix v' queue id) as Heff.
  { intros n v' He. unfold xack_eff in He.
    destruct (view s !! _stream_key prefix queue ≫= _) as [gv|] eqn:Hg.
    - destruct He as [_ ->]. split_and!.
      + intros k Hk. unfold set_group. by rewrite lookup_insert_ne.
      + intros k. apply set_group_entries.
      + intros (g & Hq & Hin). unfold queue_group in Hq. rewrite set_group_eq in Hq.
        injection Hq as <-. apply list_elem_of_fmap in Hin as ([i c] & -> & Hin).
        by apply list_elem_of_filter in Hin as [? _].
    - destruct He as [_ ->]. split_and!; [done..|]. intros (g & Hq & _).
      unfold queue_group, group_at in Hq. congruence. }
  destruct r as [n|exc]; simpl in H.
  - destruct (Heff _ _ H) as (? & ? & ?). by split_and!.
  - destruct H as [->|(n & H)]; [by split_and!|]. destruct (Heff _ _ H) as (? & ? & ?). by split_and!.
Qed.

Lemma dead_lettered_xack prefix queue job reason id s r s' :
  transport_xack prefix queue id s = (r, s') →
  dead_lettered prefix (view s) queue job reason → dead_lettered prefix (view s') queue job reason.
Proof.
  intros (_ & He & _)%xack_run (e & d & Hin & ?). exists e, d. by rewrite He.
Qed.

Lemma mark_redis ex id status attempt (w : World E) r w' :
  mark ex id status attempt w = (r, w') → r = Ok tt ∧ ∃ d, w' = with_db d w.
Proof. intros H. destruct (mark_run ex id status attempt w) as [d Hd]. rewrite Hd in H.
  injection H as <- <-. eauto. Qed.

(** The dead-letter route, call by call. *)
Lemma dead_route ex queue id job reason kind (w : World E) :
  except_Exception
    (_ ← on_redis (xadd_dlq (ex_prefix ex) queue job reason);
     _ ← on_redis (transport_xack (ex_prefix ex) queue id);
     metric (incr_dead_letter (ex_ns ex) kind))
    (λ _, mret tt) w =
  let quiet e := if is_Exception e then Ok tt else Raise e in
  match xadd_dlq (ex_prefix ex) queue job reason (w_redis w) with
  | (Raise e, s1) => (quiet e, with_redis s1 w)
  | (Ok _, s1) =>
      match transport_xack (ex_prefix ex) queue id s1 with
      | (Raise e, s2) => (quiet e, with_redis s2 w)
      | (Ok _, s2) => (Ok tt, with_metrics (incr_dead_letter (ex_ns ex) kind (w_metrics w))
                                           (with_redis s2 w))
      end
  end.
Proof.
  unfold except_Exception, try_except, mbind, st_mbind, on_redis, zoom, metric, modify. simpl.
  destruct (xadd_dlq _ _ _ _ (w_redis w)) as [[x|e] s1]; simpl.
  - destruct (transport_xack _ _ _ s1) as [[y|e] s2]; simpl; [done|]. by destruct (is_Exception e).
  - by destruct (is_Exception e).
Qed.

(** Whatever the server does, the dead-letter route does not lose the entry. *)
Lemma dead_route_keeps ex queue id job reason kind (w : World E) r w' :
  except_Exception
    (_ ← on_redis (xadd_dlq (ex_prefix ex) queue job reason);
     _ ← on_redis (transport_xack (ex_prefix ex) queue id);
     metric (incr_dead_letter (ex_ns ex) kind))
    (λ _, mret tt) w = (r, w') →
  pending (ex_prefix ex) (view (w_redis w)) queue id →
  pending (ex_prefix ex) (view (w_redis w')) queue id ∨
  dead_lettered (ex_prefix ex) (view (w_redis w')) queue job reason.
Proof.
  rewrite dead_route. cbv zeta. intros H Hp.
  destruct (xadd_dlq _ _ _ _ _) as [[x|e] s1] eqn:Hx; pose proof (xadd_dlq_run _ _ _ _ _ _ _ Hx)
    as [Hq Hd].
  - right. destruct (transport_xack _ _ _ s1) as [[y|e] s2] eqn:Ha; injection H as <- <-;
      eapply dead_lettered_xack; eauto.
  - left. injection H as <- <-. unfold pending in *. simpl. by rewrite Hq.
Qed.

(** ** Properties *)

(** C22: when the handler returns, [execute] returns, whatever the server and the
    store do short of a cancellation: it sends exactly the XACK of the entry,
    the dead letters stay as they were, the entry is no longer pending when the
    server answers, and the attempt is counted as a success. *)
Theorem execute_success ex queue id job h (w : World E) job' env' dt ack s' :
  h (w_env w) job (job_timeout ex) = (HDone, job', env', dt) →
  transport_xack (ex_prefix ex) queue id (w_redis w) = (ack, s') →
  (∀ e, ack = Raise e → is_Exception e = true) →
  ∃ w', execute ex queue id job h w = (Ok job', w') ∧
        w_redis w' = s' ∧ w_env w' = env' ∧
        (is_ok ack = true → ¬ pending (ex_prefix ex) (view s') queue id) ∧
        (∀ q, s_entries (stream_of (view s') (_dlq_key (ex_prefix ex) q)) =
              s_entries (stream_of (view (w_redis w)) (_dlq_key (ex_prefix ex) q))) ∧
        w_metrics w' = incr_delivery_attempts (ex_ns ex) (job_kind job') true
                         (observe_processing_seconds (ex_ns ex) (job_kind job')
                            (w_mono w + dt - w_mono w) (w_metrics w)).
Proof.
  intros Hh Hack Hexc. destruct (execute_run ex queue id job h w _ _ _ _ Hh) as [d Hrun].
  cbv zeta in Hrun. rewrite Hrun. clear Hrun. simpl block_raises. cbv iota.
  match goal with |- context [(_ ≫= _) ?w2] => set (w1 := w2) end.
  assert (on_redis (transport_xack (ex_prefix ex) queue id) w1 = (ack, with_redis s' w1)) as Ha
    by (by apply on_redis_run).
  apply guarded_run in Ha. erewrite st_bind_ok; last first.
  { rewrite Ha. destruct ack as [n|e]; [done|]. by rewrite (Hexc e). }
  destruct (mark_run ex (job_id job') COMPLETED JNull (with_redis s' w1)) as [d' Hd].
  erewrite st_bind_ok by exact Hd. erewrite st_bind_ok by apply metric_run.
  pose proof (xack_run _ _ _ _ _ _ Hack) as (_ & He & Hn).
  eexists. split; [reflexivity|]. by split_and!.
Qed.

(** A failure (an exception or the deadline) of a job with retries left is
    left to redelivery: the server is not touched at all, the attempt is
    counted as a failure, and the job object has one more attempt. *)
Theorem execute_retry ex queue id job h (w : World E) o job' env' dt exc a m d :
  h (w_env w) job (job_timeout ex) = (o, job', env', dt) →
  block_raises o = Some exc → is_Exception exc = true →
  as_int (job_attempts job') = Some a → as_int (job_max_retries job') = Some m →
  a + 1 ≤ m → delay (retry_policy ex) a (w_rand w) = Ok d →
  ∃ w', execute ex queue id job h w = (Ok (set_attempts (JInt (a + 1)) job'), w') ∧
        w_redis w' = w_redis w ∧ w_env w' = env' ∧
        w_metrics w' = incr_delivery_attempts (ex_ns ex) (job_kind job') false
                         (observe_processing_seconds (ex_ns ex) (job_kind job')
                            (w_mono w + dt - w_mono w) (w_metrics w)).
Proof.
  intros Hh Ho He Ha Hm Hle Hd. destruct (execute_run ex queue id job h w _ _ _ _ Hh) as [db Hrun].
  cbv zeta in Hrun. rewrite Hrun, Ho, He. clear Hrun.
  rewrite (handle_failure_run _ _ _ _ _ _ a m Ha Hm). cbv zeta.
  rewrite (proj2 (Z.ltb_ge m (a + 1))) by done.
  match goal with |- context [(_ ≫= _) ?w2] => set (w1 := w2) end.
  assert (lift (delay (retry_policy ex) a (w_rand w1)) w1 = (Ok d, w1)) as Hl.
  { unfold lift. change (w_rand w1) with (w_rand w). by rewrite Hd. }
  erewrite st_bind_ok by exact Hl.
  destruct (mark_run ex (job_id job') FAILED (JInt (a + 1)) w1) as [d' Hd'].
  erewrite st_bind_ok by exact Hd'. eexists. split; [reflexivity|]. by split_and!.
Qed.

(** C23: a failure of a job with no retry left dead-letters it and then
    acknowledges it: when the server answers both commands the dead-letter
    stream holds the job, with its final attempt count and the exception's name
    and message, and the entry is no longer pending.  When the dead-letter write
    fails, XACK is not sent and the entry stays as pending as it was. *)
Theorem execute_dead ex queue id job h (w : World E) o job' env' dt exc a m x s1 :
  h (w_env w) job (job_timeout ex) = (o, job', env', dt) →
  block_raises o = Some exc → is_Exception exc = true →
  as_int (job_attempts job') = Some a → as_int (job_max_retries job') = Some m → m < a + 1 →
  let job1 := set_attempts (JInt (a + 1)) job' in
  let reason := failure_reason (failure_of ex job' exc) in
  xadd_dlq (ex_prefix ex) queue job1 reason (w_redis w) = (x, s1) →
  match x with
  | Ok _ =>
      ∀ ack s2, transport_xack (ex_prefix ex) queue id s1 = (Ok ack, s2) →
      ∃ w', execute ex queue id job h w = (Ok job1, w') ∧ w_redis w' = s2 ∧
            dead_lettered (ex_prefix ex) (view s2) queue job1 reason ∧
            ¬ pending (ex_prefix ex) (view s2) queue id
  | Raise e =>
      is_Exception e = true →
      ∃ w', execute ex queue id job h w = (Ok job1, w') ∧ w_redis w' = s1 ∧
            queue_group (ex_prefix ex) (view s1) queue =
            queue_group (ex_prefix ex) (view (w_redis w)) queue
  end.
Proof.
  intros Hh Ho He Ha Hm Hlt job1 reason Hx.
  destruct (execute_run ex queue id job h w _ _ _ _ Hh) as [db Hrun].
  cbv zeta in Hrun. rewrite Ho, He in Hrun.
  rewrite (handle_failure_run _ _ _ _ _ _ a m Ha Hm) in Hrun. cbv zeta in Hrun.
  rewrite (proj2 (Z.ltb_lt m (a + 1))) in Hrun by done. fold job1 reason in Hrun.
  match type of Hrun with _ = (_ ≫= _) ?w2 => set (w1 := w2) in Hrun end.
  pose proof (dead_route ex queue id job1 reason (job_kind job') w1) as Hr. cbv zeta in Hr.
  change (w_redis w1) with (w_redis w) in Hr. rewrite Hx in Hr.
  pose proof (xadd_dlq_run _ _ _ _ _ _ _ Hx) as [Hq Hdl].
  destruct x as [i|e].
  - intros ack s2 Hack. rewrite Hack in Hr. erewrite st_bind_ok in Hrun by exact Hr.
    match type of Hrun with _ = (_ ≫= _) ?w2 =>
      destruct (mark_run ex (job_id job') DEAD JNull w2) as [d' Hd'] end.
    erewrite st_bind_ok in Hrun by exact Hd'. eexists. split; [exact Hrun|].
    split; [done|]. split; [eapply dead_lettered_xack; eauto|].
    by apply (xack_run _ _ _ _ _ _ Hack).
  - intros Hexc. rewrite Hexc in Hr. erewrite st_bind_ok in Hrun by exact Hr.
    match type of Hrun with _ = (_ ≫= _) ?w2 =>
      destruct (mark_run ex (job_id job') DEAD JNull w2) as [d' Hd'] end.
    erewrite st_bind_ok in Hrun by exact Hd'. eexists. by split; [exact Hrun|].
Qed.

(** A failure keeps the entry pending, or leaves a dead letter. *)
Lemma failure_keeps ex queue id job h (w : World E) o job' env' dt exc r w' :
  h (w_env w) job (job_timeout ex) = (o, job', env', dt) → block_raises o = Some exc →
  pending (ex_prefix ex) (view (w_redis w)) queue id →
  execute ex queue id job h w = (r, w') →
  pending (ex_prefix ex) (view (w_redis w')) queue id ∨
  ∃ n, py_add_int (job_attempts job') 1 = Ok n ∧
       dead_lettered (ex_prefix ex) (view (w_redis w')) queue (set_attempts n job')
                     (failure_reason (failure_of ex job' exc)).
Proof.
  intros Hh Ho Hp Hrun. destruct (execute_run ex queue id job h w _ _ _ _ Hh) as [db Heq].
  cbv zeta in Heq. rewrite Ho, Hrun in Heq. clear Hrun.
  destruct (is_Exception exc); [|injection Heq as -> ->; by left].
  match type of Heq with _ = _handle_failure _ _ _ _ _ ?w2 => set (w1 := w2) in Heq end.
  change (w_redis w) with (w_redis w1) in Hp. clearbody w1. symmetry in Heq.
  unfold _handle_failure in Heq.
  apply st_bind_inv in Heq as [(n & w2 & Hn & H)|(e & Hn & ->)];
    injection Hn as Hn <-; [|by left].
  apply st_bind_inv in H as [(? & w2 & Hm & H)|(e & [=] & _)]. injection Hm as _ <-.
  apply st_bind_inv in H as [(b & w2 & Hb & H)|(e & Hb & ->)]; injection Hb as Hb <-; [|by left].
  destruct b.
  - apply st_bind_inv in H as [(? & w2 & Hd & H)|(e & Hd & ->)].
    + eapply dead_route_keeps in Hd; [|exact Hp].
      apply st_bind_inv in H as [(? & w3 & (_ & d & ->)%mark_redis & H)|(e & (_ & d & ->)%mark_redis & ->)];
        [injection H as <- <-|]; destruct Hd; eauto.
    + eapply dead_route_keeps in Hd; [|exact Hp]. destruct Hd; eauto.
  - left. apply st_bind_inv in H as [(q & w2 & Hq & H)|(e & [=] & _)]. injection Hq as _ <-.
    apply st_bind_inv in H as [(q' & w2 & Hq & H)|(e & Hq & ->)]; injection Hq as _ <-; [|done].
    apply st_bind_inv in H as [(? & w3 & (_ & d & ->)%mark_redis & H)|(e & (_ & d & ->)%mark_redis & ->)];
      [by injection H as <- <-|done].
Qed.

(** C3: no failed job is lost.  Whatever the handler raised (a cancellation
    included), whatever the server and the store do, an entry pending before the
    execution is still pending after it, or the dead-letter stream holds the job
    with its incremented attempt count. *)
Theorem failed_job_not_lost ex queue id job h (w : World E) o job' env' dt exc r w' :
  h (w_env w) job (job_timeout ex) = (o, job', env', dt) → block_raises o = Some exc →
  pending (ex_prefix ex) (view (w_redis w)) queue id →
  execute ex queue id job h w = (r, w') →
  pending (ex_prefix ex) (view (w_redis w')) queue id ∨
  ∃ n, py_add_int (job_attempts job') 1 = Ok n ∧
       dead_lettered (ex_prefix ex) (view (w_redis w')) queue (set_attempts n job')
                     (failure_reason (failure_of ex job' exc)).
Proof. intros Hh Ho Hp Hrun. by eapply failure_keeps. Qed.

(** The executor never lets an [Exception] out.  For integer counters and a
    policy of at most 1024 attempts, what [execute] raises is a cancellation (of
    the handler or of a server call). *)
Theorem execute_raises_only_cancellation ex queue id job h (w : World E) o job' env' dt a m e w' :
  h (w_env w) job (job_timeout ex) = (o, job', env', dt) →
  as_int (job_attempts job') = Some a → as_int (job_max_retries job') = Some m →
  (max_attempts (retry_policy ex) ≤ 1024) →
  execute ex queue id job h w = (Raise e, w') → is_Exception e = false.
Proof.
  intros Hh Ha Hm Hmax Hrun. destruct (execute_run ex queue id job h w _ _ _ _ Hh) as [db Heq].
  cbv zeta in Heq. rewrite Hrun in Heq. clear Hrun. symmetry in Heq.
  destruct (block_raises o) as [exc|].
  - destruct (is_Exception exc) eqn:He; [|by injection Heq as <- _].
    rewrite (handle_failure_run _ _ _ _ _ _ a m Ha Hm) in Heq. cbv zeta in Heq.
    destruct (m <? a + 1).
    + apply st_bind_inv in Heq as [(? & w2 & Hd & H)|(e' & Hd & [= ->])].
      * apply st_bind_inv in H as [(? & w3 & _ & [=])|(e' & [[=] _]%mark_redis & _)].
      * rewrite dead_route in Hd. cbv zeta in Hd.
        destruct (xadd_dlq _ _ _ _ _) as [[x|e1] s1];
          [destruct (transport_xack _ _ _ s1) as [[y|e1] s2]|];
          first [discriminate Hd | destruct (is_Exception e1) eqn:?;
            [discriminate Hd|by injection Hd as <- _]].
    + destruct (delay_total (retry_policy ex) a (w_rand w) Hmax) as [d Hd].
      apply st_bind_inv in Heq as [(? & w2 & _ & H)|(e' & Hl & _)];
        [|apply (f_equal fst) in Hl; simpl in Hl; congruence].
      apply st_bind_inv in H as [(? & w3 & _ & [=])|(e' & [[=] _]%mark_redis & _)].
  - apply st_bind_inv in Heq as [(? & w2 & _ & H)|(e' & Hd & [= ->])].
    + apply st_bind_inv in H as [(? & w3 & _ & H)|(e' & [[=] _]%mark_redis & _)].
      by apply st_bind_inv in H as [(? & w4 & _ & [=])|(e' & [=] & _)].
    + unfold except_Exception, try_except in Hd.
      destruct ((on_redis (transport_xack (ex_prefix ex) queue id) ≫= _) _) as [[[]|e1] w2];
        [discriminate Hd|].
      destruct (is_Exception e1) eqn:?; [discriminate Hd|by injection Hd as <- _].
Qed.

End ExecuteSpec.

(** ** Witnesses *)

Definition executor1 : Executor := mkExecutor relayq relayq default_policy (Some 0%nat) 300.
Definition returns : handler_fun (E := unit) := λ env job dl, (HDone, job, env, 1#2).
Definition boom : exn := UserExn (u "RuntimeError") (u "boom") false.
Definition raises (e : exn) : handler_fun (E := unit) := λ env job dl, (HRaise e, job, env, 1#2).
Definition hangs : handler_fun (E := unit) := λ env job dl, (HDeadline, job, env, dl).

(** One job with [retries], delivered to a worker; then the given failures. *)
Definition delivered (retries : Z) (faults : list bool) : World unit :=
  world_on (failing faults
    (run (S := mstate)
       (read_group relayq noon mail (u "w1") 1 2000) (server_with 1 retries))).
Definition entry1 : rval := RS (u "1-0").

Lemma execute_success_witness :
  let w := delivered 3 [] in
  let '(r, w') := execute executor1 mail entry1 (mail_job 3) returns w in
  r = Ok (mail_job 3) ∧ pending relayq (view (w_redis w)) mail entry1 ∧
  ¬ pending relayq (view (w_redis w')) mail entry1.
Proof.
  intros w. destruct (transport_xack relayq mail entry1 (w_redis w)) as [ack s'] eqn:Hack.
  outcome_is Hack (Ok (E:=exn) 1).
  destruct (execute_success executor1 mail entry1 (mail_job 3) returns w (mail_job 3) tt (1#2)
              (Ok 1) s') as (w' & Hrun & Hs & _ & Hp & _); [reflexivity|exact Hack|done|].
  rewrite Hrun. split; [reflexivity|]. split.
  - exists (mail_group (w_redis w)). split; [vm_compute; reflexivity|].
    apply (bool_decide_unpack _). vm_compute. reflexivity.
  - rewrite Hs. apply Hp. reflexivity.
Defined.

Lemma execute_retry_witness :
  let w := delivered 3 [] in
  let '(r, w') := execute executor1 mail entry1 (mail_job 3) hangs w in
  r = Ok (set_attempts (JInt 1) (mail_job 3)) ∧ w_redis w' = w_redis w.
Proof.
  intros w.
  destruct (execute_retry executor1 mail entry1 (mail_job 3) hangs w HDeadline (mail_job 3) tt 300
              TimeoutError 0 3 (1 # 2)) as (w' & Hrun & Hr & _);
    [reflexivity..|lia|vm_compute; reflexivity|].
  rewrite Hrun. by split.
Defined.

Lemma execute_dead_witness :
  let w := delivered 0 [] in
  let '(r, w') := execute executor1 mail entry1 (mail_job 0) (raises boom) w in
  r = Ok (set_attempts (JInt 1) (mail_job 0)) ∧
  dead_lettered relayq (view (w_redis w')) mail (set_attempts (JInt 1) (mail_job 0))
                (u "RuntimeError: boom") ∧
  ¬ pending relayq (view (w_redis w')) mail entry1.
Proof.
  intros w.
  assert (Hx := run_eq (xadd_dlq relayq mail (set_attempts (JInt 1) (mail_job 0))
                          (failure_reason boom)) (w_redis w) (Ok (RS (u "1-0")))
                  ltac:(vm_compute; reflexivity)).
  match type of Hx with _ = (_, ?s) => set (s1 := s) in Hx end.
  assert (Hack := run_eq (transport_xack relayq mail entry1) s1 (Ok 1)
                    ltac:(vm_compute; reflexivity)).
  match type of Hack with _ = (_, ?s) => set (s2 := s) in Hack end.
  pose proof (execute_dead executor1 mail entry1 (mail_job 0) (raises boom) w (HRaise boom)
    (mail_job 0) tt (1#2) boom 0 0 (Ok (RS (u "1-0"))) s1 eq_refl eq_refl eq_refl eq_refl eq_refl
    ltac:(lia) Hx 1 s2 Hack) as (w' & Hrun & Hs & Hd & Hp).
  rewrite Hrun, Hs. by split_and!.
Defined.

(** The dead-letter write fails: the entry is still pending. *)
Lemma failed_job_not_lost_witness :
  let w := delivered 0 [true] in
  let '(r, w') := execute executor1 mail entry1 (mail_job 0) (raises boom) w in
  pending relayq (view (w_redis w')) mail entry1 ∨
  dead_lettered relayq (view (w_redis w')) mail (set_attempts (JInt 1) (mail_job 0))
                (u "RuntimeError: boom").
Proof.
  intros w. destruct (execute executor1 mail entry1 (mail_job 0) (raises boom) w) as [r w'] eqn:H.
  destruct (failed_job_not_lost executor1 mail entry1 (mail_job 0) (raises boom) w (HRaise boom)
              (mail_job 0) tt (1#2) boom r w' eq_refl eq_refl) as [Hp|(n & [= <-] & Hd)].
  - exists (mail_group (w_redis w)). split; [vm_compute; reflexivity|].
    apply (bool_decide_unpack _). vm_compute. reflexivity.
  - exact H.
  - by left.
  - by right.
Defined.

Definition cancelled : handler_fun (E := unit) := raises CancelledError.

Lemma execute_raises_witness :
  let w := delivered 3 [] in
  ∃ e w', execute executor1 mail entry1 (mail_job 3) cancelled w = (Raise e, w') ∧
          is_Exception e = false.
Proof.
  intros w. destruct (execute executor1 mail entry1 (mail_job 3) cancelled w) as [r w'] eqn:H.
  outcome_is H (Raise (A:=Job) CancelledError). exists CancelledError, w'. split; [reflexivity|].
  apply (execute_raises_only_cancellation executor1 mail entry1 (mail_job 3) cancelled w
           (HRaise CancelledError) (mail_job 3) tt (1#2) 0 3 _ w') in H;
    [exact H|reflexivity|reflexivity|reflexivity|vm_compute; discriminate].
Defined.
