(* ===== verification/Admission.v ===== *)
(** * Admission control: [relayq/worker/admission.py] *)

From Stdlib Require Import String QArith.
From S2P Require Import Prelude PyStr Json Errors Datetime Job Redis RedisModel Transport World Scenario.
Open Scope list_scope.
Open Scope Z_scope.

Record AdmissionController : Type := mkAdmission {
  adm_prefix : pystr;
  max_depth : Z;
  max_oldest : Q        (* set by the constructor and never read *)
}.

Section Admission.
Context {R : Redis} {E : Type}.

Definition blocked_reason (depth max : Z) : pystr :=
  u "depth " ++ str_int depth ++ u " >= " ++ str_int max.

Definition check (c : AdmissionController) (queue : pystr) : M (World E) unit :=
  depth ← on_redis (stream_length (adm_prefix c) queue);
  if max_depth c <=? depth then throw (AdmissionBlocked queue (blocked_reason depth (max_depth c)))
  else mret tt.

Definition is_healthy (c : AdmissionController) (queue : pystr) : M (World E) bool :=
  try_except (_ ← check c queue; mret true)
             (fun exc => if is_AdmissionBlocked exc then Some (mret false) else None).

End Admission.

Section AdmissionSpec.
Context {R : Redis} {RS : RedisSpec R} {E : Type}.

Lemma check_run c queue (w : World E) r w' :
  check c queue w = (r, w') →
  let depth := Z.of_nat (length (s_entries (stream_of (view (w_redis w))
                                              (_stream_key (adm_prefix c) queue)))) in
  view (w_redis w') = view (w_redis w) ∧
  match r with
  | Ok _ => depth < max_depth c
  | Raise exc =>
      (exc = AdmissionBlocked queue (blocked_reason depth (max_depth c)) ∧ max_depth c ≤ depth) ∨
      ∃ s', stream_length (adm_prefix c) queue (w_redis w) = (Raise exc, s')
  end.
Proof.
  unfold check. intros [(n & w1 & Hd & H)|(exc & Hd & ->)]%st_bind_inv;
    apply on_redis_inv in Hd as (s' & Hx & ->); pose proof Hx as Hlaw; apply xlen_law in Hlaw;
    simpl in Hlaw.
  - destruct Hlaw as [-> Hv]. case_match eqn:Hc; injection H as <- <-; (split; [done|]).
    + left. split; [done|]. by apply Z.leb_le.
    + by apply Z.leb_gt.
  - split; [by destruct Hlaw as [?|(? & _ & ?)]|]. right. eauto.
Qed.

(** The health check answers exactly whether the stream is shorter than
    [max_depth], without changing anything; only AdmissionBlocked is turned into
    an answer, so a server failure (if it is not itself one) is raised. *)
Theorem is_healthy_exact c queue (w : World E) r w' :
  is_healthy c queue w = (r, w') →
  let depth := Z.of_nat (length (s_entries (stream_of (view (w_redis w))
                                              (_stream_key (adm_prefix c) queue)))) in
  view (w_redis w') = view (w_redis w) ∧
  match r with
  | Ok b => b = (depth <? max_depth c) ∨
            ∃ q m s', stream_length (adm_prefix c) queue (w_redis w)
                      = (Raise (AdmissionBlocked q m), s')
  | Raise exc => is_AdmissionBlocked exc = false ∧
                 ∃ s', stream_length (adm_prefix c) queue (w_redis w) = (Raise exc, s')
  end.
Proof.
  intros H depth. unfold is_healthy, try_except, mbind, st_mbind in H.
  destruct (check c queue w) as [r1 w1] eqn:Hc. apply check_run in Hc as [Hv Hc].
  fold depth in Hc. destruct r1 as [[]|exc].
  - injection H as <- <-. split; [done|]. left. symmetry. by apply Z.ltb_lt.
  - destruct (is_AdmissionBlocked exc) eqn:Hb; injection H as <- <-; (split; [done|]).
    + destruct Hc as [[_ Hc]|[s' Hc]]; [left; symmetry; by apply Z.ltb_ge|right].
      destruct exc; try done. eauto.
    + split; [done|]. destruct Hc as [[-> _]|Hc]; done.
Qed.

End AdmissionSpec.

Lemma is_healthy_witness :
  let c := mkAdmission relayq 2 300 in
  let w := world_on (server_with 2 3) in
  ∃ r w', is_healthy c mail w = (r, w') ∧ r = Ok false ∧ view (w_redis w') = view (w_redis w).
Proof.
  intros c w. destruct (is_healthy c mail w) as [r w'] eqn:H. exists r, w'.
  split; [reflexivity|]. outcome_is H (Ok (E:=exn) false). split; [reflexivity|].
  apply (is_healthy_exact c mail w) in H as [H _]. exact H.
Defined.
