(* ===== verification/Recover.v ===== *)
(** * Lease recovery: [relayq/application/recover.py]

    The recovery loop calls XAUTOCLAIM per queue and logs what it claimed.  What
    happens while the loop sleeps is given: each sleep changes the world in some
    way and may see [stop()] called. *)

From Stdlib Require Import String QArith.
From S2P Require Import Prelude PyStr Json Errors Datetime Job Redis RedisModel Transport World Scenario Delivery.
Open Scope list_scope.
Open Scope Z_scope.

Record RecoveryWorker : Type := mkRecovery {
  rec_prefix : pystr;
  rec_worker_id : pystr;
  min_idle_ms : Z;
  claim_batch : Z
}.

(** Seconds between rounds. *)
Definition CLAIM_INTERVAL : Q := 15.

Section Recover.
Context {R : Redis} {E : Type}.

(** The claimed jobs are logged, and dropped. *)
Definition _claim_stale (rw : RecoveryWorker) (queue : pystr) : M (World E) unit :=
  claimed ← on_redis_now (fun now => autoclaim_stale (rec_prefix rw) now queue (rec_worker_id rw)
                                                     (min_idle_ms rw) (claim_batch rw));
  for_each claimed (fun _ => mret tt).

Definition recover_round (rw : RecoveryWorker) (queues : list pystr) : M (World E) unit :=
  for_each queues (fun q => except_Exception (_claim_stale rw q) (fun _ => mret tt)).

(** [true] when [stop()] ended the loop, [false] when it is still running. *)
Fixpoint recover_loop (rw : RecoveryWorker) (queues : list pystr)
    (sleeps : list (World E → World E * bool)) : M (World E) bool :=
  _ ← recover_round rw queues;
  match sleeps with
  | [] => mret false
  | sleep :: sleeps' => fun w =>
      let '(w', stopped) := sleep w in
      if stopped : bool then (Ok true, w') else recover_loop rw queues sleeps' w'
  end.

End Recover.

(** ** What claiming can change *)

(** The pending lists' owners and the ids gone from their stream; nothing else. *)
Definition claims_only (v v' : server) : Prop :=
  ∀ k, s_entries (stream_of v' k) = s_entries (stream_of v k) ∧
       s_issued (stream_of v' k) = s_issued (stream_of v k) ∧
       ∀ g, option_relation
              (λ a b, g_todo b = g_todo a ∧ (g_pel b).*1 ⊆ (g_pel a).*1 ∧
                      ∀ i, i ∈ (g_pel a).*1 → i ∈ ids (s_entries (stream_of v k)) → i ∈ (g_pel b).*1)
              (λ _, False) (λ _, False)
              (s_groups (stream_of v k) !! g) (s_groups (stream_of v' k) !! g).

#[export] Instance claims_only_refl : Reflexive claims_only.
Proof. intros v k. split_and!; [done..|]. intros g. by destruct (_ !! g). Qed.

#[export] Instance claims_only_trans : Transitive claims_only.
Proof.
  intros v1 v2 v3 H1 H2 k. destruct (H1 k) as (E1 & I1 & G1), (H2 k) as (E2 & I2 & G2).
  split_and!; [congruence..|]. intros g. specialize (G1 g). specialize (G2 g).
  destruct (s_groups (stream_of v1 k) !! g), (s_groups (stream_of v2 k) !! g),
    (s_groups (stream_of v3 k) !! g); simpl in *; try done.
  destruct G1 as (T1 & S1 & P1), G2 as (T2 & S2 & P2). rewrite E1 in P2.
  split_and!; [congruence|by etrans|eauto].
Qed.

Section RecoverSpec.
Context {R : Redis} {RS : RedisSpec R} {E : Type}.

Lemma xautoclaim_claims k g c count v r v' :
  xautoclaim_eff k g c count v r v' → claims_only v v'.
Proof.
  intros (s & gv & cur & cl & del & pel' & Hs & Hg & _ & _ & _ & _ & Hdel & Hpel & _ & ->) k'.
  assert (stream_of v k = s) as Hsk by (unfold stream_of; by rewrite Hs).
  rewrite set_group_entries, set_group_issued. split_and!; [done..|]. intros g'.
  destruct (decide (k = k')) as [<-|Hk]; unfold set_group;
    [|rewrite stream_of_insert_ne by done; by destruct (_ !! g')].
  rewrite stream_of_insert. cbn [s_groups]. rewrite Hsk.
  destruct (decide (g = g')) as [<-|Hne];
    [|rewrite lookup_insert_ne by done; by destruct (_ !! g')].
  rewrite lookup_insert_eq, Hg. cbn [option_relation g_todo g_pel]. rewrite Hpel.
  split_and!; [done| |].
  - intros i Hi. by apply list_elem_of_filter in Hi as [_ ?].
  - intros i Hi He. apply list_elem_of_filter. split; [|done]. intros Hd%Hdel. done.
Qed.

Definition world_claims (w w' : World E) : Prop :=
  claims_only (view (w_redis w)) (view (w_redis w')) ∧ w_db w' = w_db w ∧ w_env w' = w_env w ∧
  w_metrics w' = w_metrics w.

#[local] Instance world_claims_refl : Reflexive world_claims.
Proof. by intros w. Qed.
#[local] Instance world_claims_trans : Transitive world_claims.
Proof.
  intros w1 w2 w3 (Ha & ? & ? & ?) (Hb & ? & ? & ?). split; [by etrans|]. split_and!; congruence.
Qed.

Lemma claim_stale_claims rw queue : preserves world_claims (_claim_stale (E := E) rw queue).
Proof.
  apply preserves_bind; [apply _| |].
  - intros w. unfold on_redis_now. destruct (on_redis _ w) as [r w'] eqn:H.
    apply on_redis_inv in H as (s' & H & ->). split; [|done]. simpl.
    unfold autoclaim_stale in H.
    assert (∀ x, xautoclaim (_stream_key (rec_prefix rw) queue) (_group_key (rec_prefix rw) queue)
        (_consumer_name (rec_worker_id rw)) (min_idle_ms rw) (u "0-0") (claim_batch rw) (w_redis w)
        = (x, s') → claims_only (view (w_redis w)) (view s')) as Hx.
    { intros x Hx%xautoclaim_law. destruct x as [a|e]; simpl in Hx.
      - by eapply xautoclaim_claims.
      - destruct Hx as [->|(a & Hx)]; [done|by eapply xautoclaim_claims]. }
    apply st_bind_inv in H as [(a & s1 & Ha & H)|(e & H & _)]; [|by eapply Hx].
    assert (s1 = s') as -> by (by destruct a; injection H as _ <-). by eapply Hx.
  - intros l. apply preserves_for_each; [apply _..|]. intros x. apply preserves_mret. apply _.
Qed.

Lemma round_claims rw queues : preserves world_claims (recover_round (E := E) rw queues).
Proof.
  apply preserves_for_each; [apply _..|]. intros q. apply preserves_except_Exception; [apply _..| |].
  - apply claim_stale_claims.
  - intros e. apply preserves_mret. apply _.
Qed.

(** Recovery runs nothing and makes nothing available.  However many rounds
    it makes over whatever queues, as long as the sleeps change nothing, the
    recovery loop changes no entry, no undelivered entry, no stored job and no
    handler state; a pending entry still in its stream stays pending. *)
Theorem recovery_only_claims rw queues sleeps (w : World E) :
  Forall (λ sleep, ∀ w, (sleep w).1 = w) sleeps →
  let w' := (recover_loop rw queues sleeps w).2 in
  claims_only (view (w_redis w)) (view (w_redis w')) ∧ w_db w' = w_db w ∧ w_env w' = w_env w.
Proof.
  intros Hs. cut (world_claims w (recover_loop rw queues sleeps w).2); [by intros (? & ? & ? & _)|].
  revert w. change (preserves world_claims (recover_loop rw queues sleeps)).
  induction Hs as [|sleep sleeps Hsleep Hs IH].
  - apply preserves_bind; [apply _|apply round_claims|]. intros ?. apply preserves_mret. apply _.
  - apply preserves_bind; [apply _|apply round_claims|]. intros _ w1. specialize (Hsleep w1).
    destruct (sleep w1) as [w2 [|]]; simpl in Hsleep; subst; [done|apply IH].
Qed.

End RecoverSpec.

(** A crashed worker's entry is claimed by the recovery worker, and stays put. *)
Lemma recovery_only_claims_witness :
  let s := run (S := mstate) (read_group relayq noon mail (u "w1") 1 2000) (server_with 1 3) in
  let w := world_on (mkM (m_srv s) 60000 (m_delivered s) []) in
  let rw := mkRecovery relayq (u "w2") 30000 10 in
  let w' := (recover_loop rw [mail] [λ w, (w, false); λ w, (w, true)] w).2 in
  g_pel (mail_group (w_redis w)) = [(RS (u "1-0"), u "worker-w1")] ∧
  g_pel (mail_group (w_redis w')) = [(RS (u "1-0"), u "worker-w2")] ∧
  claims_only (view (w_redis w)) (view (w_redis w')).
Proof.
  intros s w rw w'. split; [vm_compute; reflexivity|]. split; [vm_compute; reflexivity|].
  apply (recovery_only_claims rw [mail] [λ w, (w, false); λ w, (w, true)] w).
  repeat constructor.
Defined.
