(* ===== verification/Evolution.v ===== *)
(** * How the streams of the queues evolve

    An abstract job queue (entries waiting in order of arrival, entries in
    flight), and [evolves]: what every operation of the program guarantees about
    the stream of each queue, in particular that it is a run of that queue.
    Each effect of the transport is shown to satisfy it; [System] lifts that to
    the operations of the components. *)

From Stdlib Require Import String.
From stdpp Require Import relations.
From S2P Require Import Prelude PyStr Json Errors Redis Transport Delivery Recover.
Open Scope list_scope.
Open Scope Z_scope.

(** ** The abstract job queue *)

Record fifo_queue : Type := mkQueue { q_waiting : list rval; q_in_flight : list rval }.

(** Ids enter at the back, go from the front into flight, and leave for good. *)
Inductive queue_step : fifo_queue → fifo_queue → Prop :=
| q_enqueue w f id : queue_step (mkQueue w f) (mkQueue (w ++ [id]) f)
| q_deliver w f id : queue_step (mkQueue (id :: w) f) (mkQueue w (f ++ [id]))
| q_settle w f f' : f' ⊆ f → queue_step (mkQueue w f) (mkQueue w f').

Lemma queue_run w new taken w' f f' :
  w ++ new = taken ++ w' → f' ⊆ f ++ taken → rtc queue_step (mkQueue w f) (mkQueue w' f').
Proof.
  intros Hw Hf. transitivity (mkQueue (w ++ new) f).
  { clear Hw. revert w. induction new as [|id new IH]; intros w; [by rewrite app_nil_r|].
    eapply rtc_l; [apply q_enqueue|]. specialize (IH (w ++ [id])). by rewrite <- (assoc_L (++)) in IH. }
  rewrite Hw. clear w new Hw. revert f Hf. induction taken as [|id taken IH]; intros f Hf; cbn [app].
  - apply rtc_once, q_settle. by rewrite app_nil_r in Hf.
  - eapply rtc_l; [apply q_deliver|]. apply IH. by rewrite <- (assoc_L (++)).
Qed.

Section Evolution.
Variable P : pystr.   (* the stream prefix *)

(** A queue's stream and its group. *)
Definition qstream (v : server) (q : pystr) : stream_view := stream_of v (_stream_key P q).

(** Ids are unique, and the undelivered entries are entries of the stream. *)
Definition stream_wf (q : pystr) (s : stream_view) : Prop :=
  NoDup (s_issued s) ∧ NoDup (ids (s_entries s)) ∧ ids (s_entries s) ⊆ s_issued s ∧
  ∀ g, s_groups s !! _group_key P q = Some g →
       NoDup (ids (g_todo g)) ∧ g_todo g ⊆ s_entries s.

(** The queue a stream implements: without a group, every entry is still to come. *)
Definition waiting (q : pystr) (s : stream_view) : list entry :=
  match s_groups s !! _group_key P q with Some g => g_todo g | None => s_entries s end.
Definition in_flight (q : pystr) (s : stream_view) : list rval :=
  match s_groups s !! _group_key P q with Some g => (g_pel g).*1 | None => [] end.
Definition queue_of (v : server) (q : pystr) : fifo_queue :=
  mkQueue (ids (waiting q (qstream v q))) (in_flight q (qstream v q)).

(** New entries arrive at the back, the oldest are taken into flight. *)
Definition fifo (q : pystr) (s s' : stream_view) : Prop :=
  ∃ new taken, s_entries s' = s_entries s ++ new ∧ s_issued s' = s_issued s ++ ids new ∧
    waiting q s ++ new = taken ++ waiting q s' ∧ in_flight q s' ⊆ in_flight q s ++ ids taken.

(** What an operation may do to a queue; [X] exempts entries from staying pending. *)
Definition stream_evolves (X : rval → Prop) (q : pystr) (s s' : stream_view) : Prop :=
  (stream_wf q s → stream_wf q s') ∧
  s_entries s `prefix_of` s_entries s' ∧ s_issued s `prefix_of` s_issued s' ∧
  (∀ g, s_groups s !! _group_key P q = Some g →
   ∃ g', s_groups s' !! _group_key P q = Some g' ∧
         (∀ i, i ∈ ids (g_todo g') → i ∈ ids (g_todo g) ∨ i ∉ s_issued s) ∧
         (∀ i, i ∈ (g_pel g).*1 → i ∈ ids (s_entries s) → i ∈ (g_pel g').*1 ∨ X i)) ∧
  (stream_wf q s → fifo q s s').

Definition evolves (X : pystr → rval → Prop) (v v' : server) : Prop :=
  ∀ q, stream_evolves (X q) q (qstream v q) (qstream v' q).

Definition nothing : pystr → rval → Prop := λ _ _, False.

Lemma fifo_refl q s : fifo q s s.
Proof.
  exists [], []. rewrite !app_nil_r. split_and!; [done..|]. by intros i.
Qed.

Lemma fifo_trans q s1 s2 s3 : fifo q s1 s2 → fifo q s2 s3 → fifo q s1 s3.
Proof.
  intros (n1 & t1 & He1 & Hi1 & Hw1 & Hf1) (n2 & t2 & He2 & Hi2 & Hw2 & Hf2).
  exists (n1 ++ n2), (t1 ++ t2). rewrite He2, He1, Hi2, Hi1. unfold ids in *. rewrite !fmap_app.
  split_and!; [by rewrite (assoc_L (++))..| |].
  - by rewrite (assoc_L (++)), Hw1, <- (assoc_L (++)), Hw2, (assoc_L (++)).
  - set_solver.
Qed.

#[global] Instance stream_evolves_refl X q : Reflexive (stream_evolves X q).
Proof.
  intros s. split_and!; [done..| |intros _; apply fifo_refl].
  intros g Hg. exists g. split_and!; auto.
Qed.

#[global] Instance stream_evolves_trans X q : Transitive (stream_evolves X q).
Proof.
  intros s1 s2 s3 (W1 & E1 & I1 & G1 & F1) (W2 & E2 & I2 & G2 & F2).
  split_and!; [by auto|by etrans|by etrans| |intros; eapply fifo_trans; eauto]. intros g Hg.
  destruct (G1 g Hg) as (g2 & Hg2 & T1 & P1), (G2 g2 Hg2) as (g3 & Hg3 & T2 & P2).
  assert (s_issued s1 ⊆ s_issued s2 ∧ ids (s_entries s1) ⊆ ids (s_entries s2)) as [HI HE].
  { destruct I1 as [l ->], E1 as [l' ->]. unfold ids. rewrite fmap_app. set_solver. }
  exists g3. split; [done|]. split.
  - intros i [Hi|Hi]%T2; [by apply T1|]. right. set_solver.
  - intros i Hi He. destruct (P1 i Hi He) as [?|?]; [|by right]. apply P2; [done|set_solver].
Qed.

#[global] Instance evolves_refl X : Reflexive (evolves X).
Proof. intros v q. reflexivity. Qed.
#[global] Instance evolves_trans X : Transitive (evolves X).
Proof. intros v1 v2 v3 Ha Hb q. by transitivity (qstream v2 q). Qed.

Lemma evolves_mono (X Y : pystr → rval → Prop) v v' :
  (∀ q i, X q i → Y q i) → evolves X v v' → evolves Y v v'.
Proof.
  intros HXY H q. destruct (H q) as (W & Ep & I & G & F). split_and!; [done..| |done].
  intros g Hg. destruct (G g Hg) as (g' & ? & ? & HP). exists g'. split_and!; [done..|].
  intros i Hi He. destruct (HP i Hi He); [by left|right; by apply HXY].
Qed.

(** Evolving without a new entry. *)
Definition quiet (X : pystr → rval → Prop) (v v' : server) : Prop :=
  evolves X v v' ∧ ∀ q, s_entries (qstream v' q) = s_entries (qstream v q).

#[global] Instance quiet_refl X : Reflexive (quiet X).
Proof. intros v. by split. Qed.
#[global] Instance quiet_trans X : Transitive (quiet X).
Proof. intros v1 v2 v3 [Ha Ea] [Hb Eb]. split; [by etrans|]. intros q. by rewrite Eb, Ea. Qed.

Lemma quiet_mono (X Y : pystr → rval → Prop) v v' :
  (∀ q i, X q i → Y q i) → quiet X v v' → quiet Y v v'.
Proof. intros HXY [H He]. split; [by eapply evolves_mono|done]. Qed.

(** ** Every effect of the transport evolves the queues *)

(** An effect on a key that is no queue's stream. *)
Lemma evolves_elsewhere X k v v' :
  (∀ q, _stream_key P q ≠ k) → (∀ k', k' ≠ k → stream_of v' k' = stream_of v k') → evolves X v v'.
Proof. intros Hk H q. unfold qstream. by rewrite H. Qed.

Lemma quiet_elsewhere X k v v' :
  (∀ q, _stream_key P q ≠ k) → (∀ k', k' ≠ k → stream_of v' k' = stream_of v k') → quiet X v v'.
Proof.
  intros Hk H. split; [by eapply evolves_elsewhere|]. intros q. unfold qstream. by rewrite H.
Qed.

Lemma evolves_at X q0 v v' :
  stream_evolves (X q0) q0 (qstream v q0) (qstream v' q0) →
  (∀ k', k' ≠ _stream_key P q0 → stream_of v' k' = stream_of v k') → evolves X v v'.
Proof.
  intros H Hk q. destruct (decide (q = q0)) as [->|Hq]; [done|].
  unfold qstream. rewrite Hk; [reflexivity|]. by intros ?%stream_key_inj.
Qed.

Lemma set_group_other (v : server) (k g : pystr) gv k' :
  k' ≠ k → stream_of (set_group k g gv v) k' = stream_of v k'.
Proof. intros. unfold set_group. by rewrite stream_of_insert_ne. Qed.

(** Replacing the group of a queue. *)
Lemma stream_evolves_group X q v gv gv' l :
  s_groups (qstream v q) !! _group_key P q = Some gv →
  g_todo gv = l ++ g_todo gv' → (g_pel gv').*1 ⊆ (g_pel gv).*1 ++ ids l →
  (∀ i, i ∈ (g_pel gv).*1 → i ∈ ids (s_entries (qstream v q)) → i ∈ (g_pel gv').*1 ∨ X i) →
  stream_evolves X q (qstream v q)
                 (qstream (set_group (_stream_key P q) (_group_key P q) gv' v) q).
Proof.
  intros Hg Hl Hs Hp. unfold qstream, set_group. rewrite stream_of_insert.
  split_and!; cbn [s_entries s_issued s_groups]; [|done..| |].
  - intros (Hn & Hne & Hi & Hw). split_and!; [done..|].
    intros g. cbn [s_entries s_issued s_groups]. rewrite lookup_insert_eq.
    intros [= <-]. destruct (Hw gv Hg) as [Hnd Hsub]. rewrite Hl in Hnd, Hsub.
    unfold ids in *. rewrite fmap_app in Hnd. apply NoDup_app in Hnd. split; [tauto|set_solver].
  - intros g Hg'. unfold qstream in Hg. rewrite Hg in Hg'. injection Hg' as <-.
    exists gv'. rewrite lookup_insert_eq. split; [done|]. split; [|done].
    intros i Hi. left. rewrite Hl. unfold ids in *. rewrite fmap_app. set_solver.
  - intros _. exists [], l. unfold waiting, in_flight, qstream in *. cbn [s_entries s_issued s_groups].
    rewrite Hg, lookup_insert_eq, !app_nil_r. by split_and!.
Qed.

Section Effects.
Context {R : Redis}.

(** A command that raised was applied or not. *)
Lemma outcome_lift {A : Type} (Q : server → server → Prop) `{!Reflexive Q} (eff : server → A → server → Prop)
    (v v' : server) (r : result exn A) :
  (∀ a v1, eff v a v1 → Q v v1) → outcome eff v r v' → Q v v'.
Proof.
  intros He. destruct r as [a|e]; simpl; [apply He|].
  intros [->|(a & H)]; [reflexivity|by eapply He].
Qed.

(** An appended entry joins the end of what waits. *)
Lemma xadd_fifo q e s s' :
  (∀ g, s_groups s !! _group_key P q = Some g → g_todo g ⊆ s_entries s) →
  s_entries s' = s_entries s ++ [e] → s_issued s' = s_issued s ++ [e.1] →
  s_groups s' = (λ g, trimmed (s_entries s ++ [e]) (offer e g)) <$> s_groups s →
  fifo q s s'.
Proof.
  intros Hw He Hi Hg. exists [e], []. unfold waiting, in_flight. rewrite Hg, lookup_fmap.
  destruct (s_groups s !! _group_key P q) as [g|] eqn:Hgq; cbn [fmap option_fmap option_map].
  - specialize (Hw g eq_refl). cbn [trimmed offer g_todo g_pel]. rewrite keep_all by set_solver.
    split_and!; [done..|]. by rewrite app_nil_r.
  - by split_and!.
Qed.

Lemma xadd_evolves q body m v id v' :
  xadd_eff (_stream_key P q) body m v id v' →
  match m with
  | None => True
  | Some (n, true) => Z.of_nat (length (s_entries (qstream v q))) < n
  | _ => False
  end → evolves nothing v v'.
Proof.
  intros He Hm. apply (evolves_at _ q).
  2: { intros k' Hk. by eapply xadd_eff_other in He as [? _]; [|apply not_eq_sym, Hk]. }
  apply xadd_eff_append in He as (Hid & Hes & His & Hgs); [|done]. unfold qstream in *.
  set (s := stream_of v _) in *. set (s' := stream_of v' _) in *.
  assert (∀ g, g_todo g ⊆ s_entries s →
            g_todo (trimmed (s_entries s ++ [(id, body)]) (offer (id, body) g)) = g_todo g ++ [(id, body)])
    as Htodo by (intros g Hg; cbn [trimmed offer g_todo]; apply keep_all; set_solver).
  split_and!; [| | | |intros (_ & _ & _ & Hw); eapply xadd_fifo; try done; naive_solver].
  - intros (Hn & Hne & Hi & Hw). unfold stream_wf. rewrite Hes, His, Hgs.
    assert (id ∉ ids (s_entries s)) as Hid' by set_solver.
    unfold ids in *. rewrite fmap_app. split_and!.
    + apply NoDup_app. split_and!; [done|set_solver|apply NoDup_singleton].
    + apply NoDup_app. split_and!; [done|set_solver|apply NoDup_singleton].
    + simpl. set_solver.
    + intros g. rewrite lookup_fmap. intros (g0 & Hg0 & ->)%fmap_Some.
      destruct (Hw g0 Hg0) as [Hnd Hsub]. rewrite Htodo by done. rewrite fmap_app. split; [|set_solver].
      assert (∀ i, i ∈ (g_todo g0).*1 → i ∈ (s_entries s).*1) as Hsub'.
      { intros i (e & -> & Hin)%list_elem_of_fmap. apply list_elem_of_fmap. eauto. }
      apply NoDup_app. split_and!; [done| |apply NoDup_singleton]. set_solver.
  - rewrite Hes. by apply prefix_app_r.
  - rewrite His. by apply prefix_app_r.
  - intros g Hg. eexists. rewrite Hgs, lookup_fmap, Hg. split; [reflexivity|].
    split; [|by cbn [trimmed offer g_pel]; left]. cbn [trimmed offer g_todo]. unfold keep.
    intros i (e & -> & [_ Hin]%list_elem_of_filter)%list_elem_of_fmap.
    apply elem_of_app in Hin as [Hin|Hin%list_elem_of_singleton]; [left|right; by subst].
    apply list_elem_of_fmap. eauto.
Qed.

Lemma create_quiet X q v a v' :
  xgroup_create_eff (_stream_key P q) (_group_key P q) v a v' → quiet X v v'.
Proof.
  intros [Hn ->]. split; [|intros q'; unfold qstream; destruct (decide (_stream_key P q' = _stream_key P q)) as [->|Hk];
    [by rewrite stream_of_insert|by rewrite stream_of_insert_ne]]. apply (evolves_at _ q);
    [|intros k' Hk; by rewrite stream_of_insert_ne by (by apply not_eq_sym)].
  unfold qstream. rewrite stream_of_insert. split_and!; cbn [s_entries s_issued s_groups]; [|done..| |].
  - intros (Hnd & Hne & Hi & _). split_and!; [done..|]. intros g. cbn [s_entries s_issued s_groups].
    rewrite lookup_insert_eq. by intros [= <-].
  - intros g Hg. congruence.
  - intros _. exists [], []. unfold waiting, in_flight. cbn [s_entries s_issued s_groups].
    rewrite Hn, lookup_insert_eq, !app_nil_r. by split_and!.
Qed.

Lemma read_quiet X q c count v r v' :
  xreadgroup_eff (_group_key P q) c (_stream_key P q) count v r v' → quiet X v v'.
Proof.
  intros (s & g & Hs & Hg & _ & ->). split; [|intros; apply set_group_entries].
  assert (s_groups (qstream v q) !! _group_key P q = Some g) as Hg'
    by (unfold qstream, stream_of; by rewrite Hs).
  apply (evolves_at _ q); [|intros; by apply set_group_other].
  apply (stream_evolves_group _ _ _ g _ (take (Z.to_nat count) (g_todo g))); [done| | |].
  - cbn [g_todo]. by rewrite take_drop.
  - cbn [g_pel]. rewrite fmap_app, <- list_fmap_compose. done.
  - intros i Hi _. left. cbn [g_pel]. rewrite fmap_app. set_solver.
Qed.

(** The acknowledged entry, and no other, may stop being pending. *)
Definition only (q : pystr) (id : rval) : pystr → rval → Prop := λ q' i, q' = q ∧ i = id.

Lemma ack_quiet q id v n v' :
  xack_eff (_stream_key P q) (_group_key P q) id v n v' → quiet (only q id) v v'.
Proof.
  unfold xack_eff. destruct (v !! _stream_key P q ≫= _) as [g|] eqn:Hg; intros [_ ->]; [|done].
  split; [|intros; apply set_group_entries].
  apply group_at_stream in Hg.
  apply (evolves_at _ q); [|intros; by apply set_group_other].
  apply (stream_evolves_group _ _ _ g _ []); [done|done| |].
  { cbn [g_pel]. rewrite app_nil_r. intros i (p & -> & [_ Hp]%list_elem_of_filter)%list_elem_of_fmap.
    apply list_elem_of_fmap. eauto. }
  intros i (p & -> & Hp)%list_elem_of_fmap _. cbn [g_pel].
  destruct (decide (p.1 = id)) as [Hi|Hi]; [right; by split|left].
  apply list_elem_of_fmap. exists p. split; [done|]. by apply list_elem_of_filter.
Qed.

Lemma claims_quiet v v' : claims_only v v' → quiet nothing v v'.
Proof.
  intros H. split; [|intros q; apply (H (_stream_key P q))]. intros q. destruct (H (_stream_key P q)) as (He & Hi & Hg). unfold qstream.
  split_and!.
  - intros (Hn & Hne & Hsub & Hw). unfold stream_wf. rewrite He, Hi. split_and!; [done..|].
    intros g Hgv. specialize (Hg (_group_key P q)). rewrite Hgv in Hg.
    destruct (s_groups (stream_of v _) !! _) as [g0|] eqn:Hg0; [|done].
    destruct Hg as (-> & _ & _). by apply Hw.
  - by rewrite He.
  - by rewrite Hi.
  - intros g Hgv. specialize (Hg (_group_key P q)). rewrite Hgv in Hg.
    destruct (s_groups (stream_of v' _) !! _) as [g'|]; [|done]. destruct Hg as (Ht & _ & Hp).
    exists g'. rewrite Ht. split_and!; auto.
  - intros _. exists [], []. unfold waiting, in_flight. rewrite He, Hi, !app_nil_r.
    specialize (Hg (_group_key P q)).
    destruct (s_groups (stream_of v _) !! _), (s_groups (stream_of v' _) !! _); try done.
    destruct Hg as (-> & Hs & _). by split_and!.
Qed.

End Effects.
End Evolution.
