(* ===== verification/Shutdown.v ===== *)
(** * Graceful shutdown: [relayq/worker/shutdown.py]

    [asyncio] tasks are modelled by the seconds they still need: [t_left] until a
    task ends on its own, [t_cancel] from a cancellation until it ends ([None]:
    never).  [asyncio_wait] is [asyncio.wait(..., return_when=ALL_COMPLETED)]. *)

From Stdlib Require Import String QArith Qminmax Lqa.
From S2P Require Import Prelude PyStr.
Open Scope list_scope.
Open Scope Q_scope.

Record task : Type := mkTask { t_left : option Q; t_cancel : option Q }.

Record GracefulShutdown : Type := mkShutdown { _event : bool; drain_timeout : Q }.

Definition is_set (g : GracefulShutdown) : bool := _event g.
Definition request (g : GracefulShutdown) : GracefulShutdown := mkShutdown true (drain_timeout g).

(** [await self._event.wait()]: a waiter goes on once the event is set ([None]: it
    still waits); the event is never cleared. *)
Definition wait_for_shutdown (g : GracefulShutdown) : option unit :=
  if _event g then Some tt else None.

Definition ends_by (limit : Q) (t : option Q) : bool :=
  match t with Some s => Qle_bool s limit | None => false end.

(** The seconds until the last of some tasks that all end. *)
Definition last_end (l : list (option Q)) : Q := foldr (λ t m, Qmax (default 0 t) m) 0 l.

(** The tasks done and pending when the wait returns, and the seconds waited. *)
Definition asyncio_wait (when : task → option Q) (timeout : Q) (tasks : list task)
    : list task * list task * Q :=
  let finished := filter (λ t, ends_by timeout (when t) = true) tasks in
  let unfinished := filter (λ t, ends_by timeout (when t) = false) tasks in
  (finished, unfinished,
   match unfinished with [] => last_end (when <$> tasks) | _ => timeout end).

Record drain_report : Type := mkReport {
  dr_done : list task;          (* ended on their own *)
  dr_cancelled : list task;
  dr_dangling : list task;      (* cancelled, and still running at the end *)
  dr_seconds : Q
}.

Definition drain (g : GracefulShutdown) (inflight : list task) : drain_report :=
  match inflight with
  | [] => mkReport [] [] [] 0
  | _ =>
      let '(finished, pending, waited) := asyncio_wait t_left (drain_timeout g) inflight in
      match pending with
      | [] => mkReport finished [] [] waited
      | _ =>
          let '(_, dangling, waited') := asyncio_wait t_cancel 5 pending in
          mkReport finished pending dangling (waited + waited')
      end
  end.

Lemma last_end_le limit l :
  0 <= limit → Forall (λ t, ends_by limit t = true) l → 0 <= last_end l ∧ last_end l <= limit.
Proof.
  intros H0. induction 1 as [|t l Ht Hl [IH1 IH2]]; simpl; [lra|].
  destruct t as [s|]; [|done]. apply Qle_bool_iff in Ht. simpl.
  split; [|by apply Q.max_lub]. apply (Qle_trans _ (last_end l)); [exact IH1|apply Q.le_max_r].
Qed.

Lemma wait_seconds when limit tasks f p s :
  0 <= limit → asyncio_wait when limit tasks = (f, p, s) → 0 <= s ∧ s <= limit.
Proof.
  intros H0. unfold asyncio_wait. intros [= _ _ <-].
  destruct (filter (λ t, ends_by limit (when t) = false) tasks) as [|x l] eqn:Hf; [|lra].
  apply last_end_le; [done|]. apply Forall_fmap, Forall_forall. intros t Ht. simpl.
  destruct (ends_by limit (when t)) eqn:He; [done|]. exfalso.
  assert (t ∈ @nil task) as Hn; [|inversion Hn]. rewrite <- Hf. by apply list_elem_of_filter.
Qed.

Lemma filter_split (P : task → bool) l :
  filter (λ t, P t = true) l ++ filter (λ t, P t = false) l ≡ₚ l.
Proof.
  induction l as [|t l IH]; [done|]. rewrite !filter_cons. destruct (P t) eqn:HP.
  - rewrite decide_True by done. rewrite decide_False by done. simpl. by rewrite IH.
  - rewrite decide_False by done. rewrite decide_True by done.
    rewrite <- Permutation_middle. by rewrite IH.
Qed.

(** Draining is bounded and precise.  It waits at most [drain_timeout] plus
    five seconds whatever the tasks do; the tasks it cancels are exactly those
    that would not have ended within [drain_timeout]; every in-flight task is
    either done or cancelled, and what is left running did not react to its
    cancellation within five seconds. *)
Theorem drain_contract g inflight :
  0 <= drain_timeout g →
  let r := drain g inflight in
  0 <= dr_seconds r ∧ dr_seconds r <= drain_timeout g + 5 ∧
  dr_done r ++ dr_cancelled r ≡ₚ inflight ∧
  Forall (λ t, ends_by (drain_timeout g) (t_left t) = true) (dr_done r) ∧
  Forall (λ t, ends_by (drain_timeout g) (t_left t) = false) (dr_cancelled r) ∧
  Forall (λ t, t ∈ dr_cancelled r ∧ ends_by 5 (t_cancel t) = false) (dr_dangling r) ∧
  (Forall (λ t, ends_by (drain_timeout g) (t_left t) = true) inflight →
   dr_cancelled r = [] ∧ dr_seconds r <= drain_timeout g).
Proof.
  intros H0 r. subst r. unfold drain. destruct inflight as [|t0 l0].
  { simpl. split_and!; try done; try lra; by intros. }
  set (l := t0 :: l0). destruct (asyncio_wait t_left (drain_timeout g) l) as [[f p] s] eqn:Hw.
  pose proof (wait_seconds _ _ _ _ _ _ H0 Hw) as [Hs1 Hs2].
  unfold asyncio_wait in Hw. injection Hw as Hf Hp _.
  assert (f ++ p ≡ₚ l) as Hsplit
    by (rewrite <- Hf, <- Hp; apply (filter_split (λ t, ends_by (drain_timeout g) (t_left t)))).
  assert (Forall (λ t, ends_by (drain_timeout g) (t_left t) = true) f) as Hdone.
  { apply Forall_forall. intros t Ht. rewrite <- Hf in Ht. by apply list_elem_of_filter in Ht as [? _]. }
  assert (Forall (λ t, ends_by (drain_timeout g) (t_left t) = false) p) as Hpend.
  { apply Forall_forall. intros t Ht. rewrite <- Hp in Ht. by apply list_elem_of_filter in Ht as [? _]. }
  assert (Forall (λ t, ends_by (drain_timeout g) (t_left t) = true) l → p = []) as Hall.
  { intros Hl. destruct p as [|t p]; [done|]. exfalso.
    apply Forall_inv in Hpend. rewrite Forall_forall in Hl.
    rewrite (Hl t) in Hpend; [done|]. rewrite <- Hsplit. apply elem_of_app. right. by left. }
  clearbody l. destruct p as [|t p].
  - simpl. split_and!; try done; try lra.
  - destruct (asyncio_wait t_cancel 5 (t :: p)) as [[f2 d2] s2] eqn:Hw2.
    assert (0 <= s2 ∧ s2 <= 5) as [Hs3 Hs4] by (by apply (wait_seconds t_cancel 5 (t :: p) f2 d2)).
    unfold asyncio_wait in Hw2. injection Hw2 as _ Hd _. cbn [dr_seconds dr_done dr_cancelled dr_dangling].
    split_and!; try done; try lra.
    + apply Forall_forall. intros x Hx. rewrite <- Hd in Hx. by apply list_elem_of_filter in Hx as [? ?].
    + intros Hl. by specialize (Hall Hl).
Qed.

Lemma drain_contract_witness :
  let g := mkShutdown true 30 in
  let quick := mkTask (Some 2) None in
  let stuck := mkTask None None in
  drain g [quick; stuck] = mkReport [quick] [stuck] [stuck] 35 ∧
  dr_seconds (drain g [quick; stuck]) <= drain_timeout g + 5.
Proof.
  intros g quick stuck. split; [vm_compute; reflexivity|].
  apply (drain_contract g [quick; stuck]). vm_compute. discriminate.
Defined.
