(* ===== verification/Runner.v ===== *)
(** * The worker loop: [relayq/worker/runner.py]

    [WorkerRunner.run], the tasks it spawns and the recovery task are coroutines
    of one event loop.  The model is a step relation: [rs_pc] says at which
    suspension point the loop stands, and every task is a body ([process_co]) that
    takes turns: a slice of code up to the next [await], then its command, which
    takes effect at any later time, then the next slice.  [rs_running] holds the
    tasks that have not ended, [rs_finished] those whose done-callback has not run
    yet (together they are [_inflight]); [rs_orphans] holds the commands of
    cancelled tasks that may still reach the server.  [rs_spawned] and
    [rs_executed] are ghost logs of the deliveries handed to tasks and of those
    whose task started. *)

From Stdlib Require Import String QArith.
From stdpp Require Import relations.
From S2P Require Import Prelude PyStr Json Errors Coroutine Datetime Job Retry Redis RedisModel Transport SqliteStore Metrics World Scenario Delivery Execute Admission Recover Shutdown.
Open Scope list_scope.
Open Scope Z_scope.

(** What [read_group] returns for one entry: stream, entry id, job. *)
Abbreviation delivery := (pystr * rval * Job)%type.

Inductive pc : Type :=
| Starting                          (* in [ensure_group] *)
| Loop                              (* at the [while] condition, or asleep *)
| Checking                          (* in [admission.check] *)
| Polling                           (* in [read_group] *)
| Dispatch (batch : list delivery)  (* in [for stream, entry_id, job in jobs] *)
| Finally                           (* in [finally], before [drain] *)
| Draining                          (* in [drain], first wait *)
| Cancelling                        (* in [drain], second wait *)
| Stopped                           (* [run] has ended *)
| Closed                            (* asyncio.run has cancelled what was left *)
| Failed (e : exn).                 (* [ensure_group] raised *)

(** The recovery task: there is none, it runs, or it died. *)
Inductive recovery_task : Type :=
| NoRecovery
| Recovering
| Died (e : exn).

(** [await recovery_task] after its cancellation raises what it died from; a
    CancelledError is swallowed. *)
Definition await_raises (t : recovery_task) : bool :=
  match t with Died CancelledError | NoRecovery | Recovering => false | Died _ => true end.

Record WorkerRunner {E : Type} : Type := mkWorker {
  wr_executor : Executor;
  worker_id : pystr;
  wr_queue : pystr;
  wr_handler : handler_fun (E := E);
  wr_admission : option AdmissionController;
  wr_recovery : option RecoveryWorker;
  max_concurrency : Z;
  poll_timeout : Z;
  poll_batch : Z
}.
Arguments WorkerRunner : clear implicits.

Section State.
Context {R : Redis} {E : Type}.

(** An [asyncio.Task] of [_process_job]: has it started, is a cancellation on its way? *)
Record job_task : Type := mkJobTask {
  jt_job : delivery;
  jt_started : bool;
  jt_cancelled : bool;
  jt_code : coroutine (World E) unit
}.

Record runner : Type := mkRunner {
  rs_pc : pc;
  semaphore : Z;
  rs_running : list job_task;
  rs_finished : list delivery;
  rs_orphans : list job_task;
  rs_shutdown : GracefulShutdown;
  rs_recovery : recovery_task;
  rs_spawned : list delivery;
  rs_executed : list delivery
}.

(** The jobs of the current batch not handed to a task yet. *)
Definition batch_of (s : runner) : list delivery :=
  match rs_pc s with Dispatch js => js | _ => [] end.

Definition _inflight (s : runner) : list delivery := (jt_job <$> rs_running s) ++ rs_finished s.

Definition set_pc (p : pc) (s : runner) : runner :=
  mkRunner p (semaphore s) (rs_running s) (rs_finished s) (rs_orphans s) (rs_shutdown s)
           (rs_recovery s) (rs_spawned s) (rs_executed s).
Definition set_running (l : list job_task) (s : runner) : runner :=
  mkRunner (rs_pc s) (semaphore s) l (rs_finished s) (rs_orphans s) (rs_shutdown s)
           (rs_recovery s) (rs_spawned s) (rs_executed s).
Definition set_finished (l : list delivery) (s : runner) : runner :=
  mkRunner (rs_pc s) (semaphore s) (rs_running s) l (rs_orphans s) (rs_shutdown s)
           (rs_recovery s) (rs_spawned s) (rs_executed s).
Definition set_orphans (l : list job_task) (s : runner) : runner :=
  mkRunner (rs_pc s) (semaphore s) (rs_running s) (rs_finished s) l (rs_shutdown s)
           (rs_recovery s) (rs_spawned s) (rs_executed s).
Definition set_recovery (t : recovery_task) (s : runner) : runner :=
  mkRunner (rs_pc s) (semaphore s) (rs_running s) (rs_finished s) (rs_orphans s) (rs_shutdown s)
           t (rs_spawned s) (rs_executed s).
Definition set_semaphore (n : Z) (s : runner) : runner :=
  mkRunner (rs_pc s) n (rs_running s) (rs_finished s) (rs_orphans s) (rs_shutdown s)
           (rs_recovery s) (rs_spawned s) (rs_executed s).
Definition log_executed (j : delivery) (s : runner) : runner :=
  mkRunner (rs_pc s) (semaphore s) (rs_running s) (rs_finished s) (rs_orphans s) (rs_shutdown s)
           (rs_recovery s) (rs_spawned s) (rs_executed s ++ [j]).

Definition request_shutdown (s : runner) : runner :=
  mkRunner (rs_pc s) (semaphore s) (rs_running s) (rs_finished s) (rs_orphans s)
           (request (rs_shutdown s)) (rs_recovery s) (rs_spawned s) (rs_executed s).

(** The rest of a task's body. *)
Definition with_code (t : job_task) (code : coroutine (World E) unit) : job_task :=
  mkJobTask (jt_job t) true (jt_cancelled t) code.
Definition uncancelled (t : job_task) : job_task :=
  mkJobTask (jt_job t) (jt_started t) false (jt_code t).

(** [task.cancel()] for every task left. *)
Definition cancel_all (s : runner) : runner :=
  set_running ((λ t, mkJobTask (jt_job t) (jt_started t) true (jt_code t)) <$> rs_running s) s.

(** [await self.semaphore.acquire()] with the counter positive, then
    [create_task], [_inflight.add] and [add_done_callback]. *)
Definition spawn (t : job_task) (rest : list delivery) (s : runner) : runner :=
  mkRunner (Dispatch rest) (semaphore s - 1) (rs_running s ++ [t]) (rs_finished s) (rs_orphans s)
           (rs_shutdown s) (rs_recovery s) (rs_spawned s ++ [jt_job t]) (rs_executed s).

(** A task ends; [released] says whether it ran [semaphore.release()]. *)
Definition task_ends (l1 : list job_task) (t : job_task) (l2 : list job_task) (released : bool)
    (s : runner) : runner :=
  mkRunner (rs_pc s) (if released then semaphore s + 1 else semaphore s) (l1 ++ l2)
           (rs_finished s ++ [jt_job t]) (rs_orphans s) (rs_shutdown s) (rs_recovery s)
           (rs_spawned s) (rs_executed s).

End State.
Arguments job_task {R} E.
Arguments runner {R} E.

Section Runner.
Context {R : Redis} {E : Type}.
Variable c : WorkerRunner E.

Definition wr_prefix : pystr := ex_prefix (wr_executor c).
Definition wr_ns : pystr := ex_ns (wr_executor c).

(** [WorkerRunner(...)] *)
Definition new_runner : runner E :=
  mkRunner Starting (max_concurrency c) [] [] [] (mkShutdown false 30) NoRecovery [] [].

(** [create_task(self.recovery.recover_loop([self.queue]))] *)
Definition start_recovery : recovery_task :=
  match wr_recovery c with Some _ => Recovering | None => NoRecovery end.

(** Where the flag's test leads when it is clear: without an [await] in between, to
    the admission check or, when there is none, to the read. *)
Definition after_test : pc :=
  match wr_admission c with Some _ => Checking | None => Polling end.

(** Admission control: [false] when it engaged. *)
Definition admission_check : M (World E) bool :=
  match wr_admission c with
  | Some a => except_Exception (_ ← check a (wr_queue c); mret true) (fun _ => mret false)
  | None => mret true
  end.

(** XREADGROUP; [None] after an error. *)
Definition read_jobs : M (World E) (option (list delivery)) :=
  except_Exception
    (js ← on_redis_now (fun now => read_group wr_prefix now (wr_queue c) (worker_id c)
                                              (poll_batch c) (poll_timeout c));
     mret (Some js))
    (fun _ => mret None).

(** After the read: sleep and poll again, or dispatch. *)
Definition after_read (jobs : option (list delivery)) : pc :=
  match jobs with None | Some [] => Loop | Some js => Dispatch js end.

Definition observe_inflight (n : nat) : M (World E) unit :=
  metric (observe_worker_inflight wr_ns (wr_queue c) (Z.of_nat n)).

(** The task's body; the rules for its end release the semaphore and observe the
    gauge, as [finally] does.  A CancelledError passes through, any other
    Exception is logged. *)
Definition process_co (j : delivery) : coroutine (World E) unit :=
  co_except_Exception
    (_ ← execute_co (wr_executor c) (wr_queue c) j.1.2 j.2 (wr_handler c); mret tt)
    (fun _ => mret tt).

(** The whole of [_process_job] with nothing in between. *)
Definition _process_job (inflight : nat) (j : delivery) : M (World E) unit :=
  try_finally
    (except_Exception
       (_ ← execute (wr_executor c) (wr_queue c) j.1.2 j.2 (wr_handler c); mret tt)
       (fun _ => mret tt))
    (observe_inflight inflight).

Definition new_task (j : delivery) : job_task E := mkJobTask j false false (process_co j).

(** One iteration of [recover_loop] on its queue. *)
Definition recover_once : M (World E) unit :=
  match wr_recovery c with
  | Some rw => recover_round rw [wr_queue c]
  | None => mret tt
  end.

(** *** The loop *)

Inductive loop_step : World E * runner E → World E * runner E → Prop :=
| st_start w w' s :
    rs_pc s = Starting → on_redis (ensure_group wr_prefix (wr_queue c)) w = (Ok tt, w') →
    loop_step (w, s) (w', set_recovery start_recovery (set_pc Loop s))
| st_start_fail w w' s e :
    rs_pc s = Starting → on_redis (ensure_group wr_prefix (wr_queue c)) w = (Raise e, w') →
    loop_step (w, s) (w', set_pc (Failed e) s)
| st_exit w s :
    rs_pc s = Loop → is_set (rs_shutdown s) = true → loop_step (w, s) (w, set_pc Finally s)
| st_test w s :
    rs_pc s = Loop → is_set (rs_shutdown s) = false →
    loop_step (w, s) (w, set_pc after_test s)
| st_admit w w' s (b : bool) :
    (* the answer is awaited; the flag is not tested again before the read *)
    rs_pc s = Checking → admission_check w = (Ok b, w') →
    loop_step (w, s) (w', set_pc (if b then Polling else Loop) s)
| st_admit_raise w w' s e :
    rs_pc s = Checking → admission_check w = (Raise e, w') →
    loop_step (w, s) (w', set_pc Finally s)
| st_read w w' s jobs :
    rs_pc s = Polling → read_jobs w = (Ok jobs, w') →
    loop_step (w, s) (w', set_pc (after_read jobs) s)
| st_read_raise w w' s e :
    rs_pc s = Polling → read_jobs w = (Raise e, w') → loop_step (w, s) (w', set_pc Finally s)
| st_spawn w w' s j js :
    rs_pc s = Dispatch (j :: js) → 0 < semaphore s →
    observe_inflight (length (_inflight (spawn (new_task j) js s))) w = (Ok tt, w') →
    loop_step (w, s) (w', spawn (new_task j) js s)
| st_next w s :
    rs_pc s = Dispatch [] → loop_step (w, s) (w, set_pc Loop s)
| st_cancel w s js :
    (* the loop's task is cancelled at a suspension point *)
    rs_pc s = Loop ∨ rs_pc s = Checking ∨ rs_pc s = Polling ∨ rs_pc s = Dispatch js →
    loop_step (w, s) (w, set_pc Finally s)
| st_finally w s :
    (* recovery_task.cancel(), awaited *)
    rs_pc s = Finally → await_raises (rs_recovery s) = false →
    loop_step (w, s) (w, set_recovery NoRecovery (set_pc Draining s))
| st_finally_raise w s :
    (* what the recovery task died from skips [drain] *)
    rs_pc s = Finally → await_raises (rs_recovery s) = true →
    loop_step (w, s) (w, set_recovery NoRecovery (set_pc Stopped s))
| st_drained w s :
    rs_pc s = Draining → rs_running s = [] → loop_step (w, s) (w, set_pc Stopped s)
| st_drain_timeout w s :
    rs_pc s = Draining → rs_running s ≠ [] →
    loop_step (w, s) (w, cancel_all (set_pc Cancelling s))
| st_drain_interrupted w s :
    rs_pc s = Draining → loop_step (w, s) (w, set_pc Stopped s)
| st_drain_over w s :
    (* all ended, or five more seconds have passed *)
    rs_pc s = Cancelling → loop_step (w, s) (w, set_pc Stopped s)
| st_close w s :
    rs_pc s = Stopped → loop_step (w, s) (w, cancel_all (set_pc Closed s)).

(** *** The tasks *)

Inductive task_step : World E * runner E → World E * runner E → Prop :=
| st_task_start w w' s l1 t l2 code :
    rs_running s = l1 ++ t :: l2 → jt_started t = false → jt_cancelled t = false →
    settle (jt_code t) w = (code, w') →
    task_step (w, s) (w', log_executed (jt_job t) (set_running (l1 ++ with_code t code :: l2) s))
| st_task_await w w' s l1 t l2 X (m : M (World E) X) k r :
    (* the awaited command takes effect *)
    rs_running s = l1 ++ t :: l2 → jt_started t = true → jt_code t = CoAwait m k →
    m w = (r, w') →
    task_step (w, s) (w', set_running (l1 ++ with_code t (woken r k) :: l2) s)
| st_task_resume w w' s l1 t l2 X (m : M (World E) X) k code :
    (* the body gets the result; a handler that was cancelled may swallow that *)
    rs_running s = l1 ++ t :: l2 → jt_started t = true → jt_code t = CoSync m k →
    settle (jt_code t) w = (code, w') →
    task_step (w, s) (w', set_running (l1 ++ uncancelled (with_code t code) :: l2) s)
| st_task_cancelled w w' s l1 t l2 X (m : M (World E) X) k code :
    (* the body gets a CancelledError instead of the result *)
    rs_running s = l1 ++ t :: l2 → jt_started t = true → jt_cancelled t = true →
    jt_code t = CoSync m k →
    settle (k (Raise CancelledError)) w = (code, w') →
    task_step (w, s) (w', set_running (l1 ++ uncancelled (with_code t code) :: l2) s)
| st_task_abandons w w' s l1 t l2 X (m : M (World E) X) k code :
    (* ... and the command is on its way *)
    rs_running s = l1 ++ t :: l2 → jt_started t = true → jt_cancelled t = true →
    jt_code t = CoAwait m k →
    settle (k (Raise CancelledError)) w = (code, w') →
    task_step (w, s) (w', set_orphans (rs_orphans s ++ [t])
                            (set_running (l1 ++ uncancelled (with_code t code) :: l2) s))
| st_task_end w w' s l1 t l2 r :
    rs_running s = l1 ++ t :: l2 → jt_started t = true → jt_code t = CoRet r →
    observe_inflight (length (_inflight s)) w = (Ok tt, w') →
    task_step (w, s) (w', task_ends l1 t l2 true s)
| st_cancel_unstarted w s l1 t l2 :
    (* cancelled before its coroutine started: no [finally] runs *)
    rs_running s = l1 ++ t :: l2 → jt_started t = false → jt_cancelled t = true →
    task_step (w, s) (w, task_ends l1 t l2 false s)
| st_callback w s l1 j l2 :
    rs_finished s = l1 ++ j :: l2 → task_step (w, s) (w, set_finished (l1 ++ l2) s)
| st_orphan w w' s l1 t l2 X (m : M (World E) X) k r :
    rs_orphans s = l1 ++ t :: l2 → jt_code t = CoAwait m k → m w = (r, w') →
    task_step (w, s) (w', set_orphans (l1 ++ l2) s).

(** The process's own steps, and those of the recovery task, which never ends by
    itself. *)
Inductive step : World E * runner E → World E * runner E → Prop :=
| step_loop x y : loop_step x y → step x y
| step_task x y : task_step x y → step x y
| step_request w s :
    is_set (rs_shutdown s) = false → step (w, s) (w, request_shutdown s).

Inductive recovery_step : World E * runner E → World E * runner E → Prop :=
| rec_round w w' s :
    rs_recovery s = Recovering → recover_once w = (Ok tt, w') → recovery_step (w, s) (w', s)
| rec_dies w w' s e :
    rs_recovery s = Recovering → recover_once w = (Raise e, w') →
    recovery_step (w, s) (w', set_recovery (Died e) s).

(** The worker among others: the rest of the system acts on the shared world. *)
Inductive open_step : World E * runner E → World E * runner E → Prop :=
| os_worker x y : step x y → open_step x y
| os_recovery x y : recovery_step x y → open_step x y
| os_others w w' s : open_step (w, s) (w', s).

(** ** Bounded concurrency *)

(** No task has been cancelled yet. *)
Definition active (p : pc) : bool :=
  match p with Cancelling | Stopped | Closed => false | _ => true end.

(** The semaphore accounts for the running tasks, exactly while none is cancelled. *)
Definition sem_inv (s : runner E) : Prop :=
  0 ≤ semaphore s ∧
  semaphore s + Z.of_nat (length (rs_running s)) ≤ max_concurrency c ∧
  (active (rs_pc s) = true →
   semaphore s + Z.of_nat (length (rs_running s)) = max_concurrency c ∧
   Forall (λ t, jt_cancelled t = false) (rs_running s)).

Lemma loop_sem x y : loop_step x y → sem_inv x.2 → sem_inv y.2.
Proof.
  intros H (H0 & Hle & Hact).
  destruct H as [| | | | | | | | w w' s j js Hpc Hs _| |w s js Hpc| | | | | | |];
    unfold sem_inv in *; cbn [snd set_pc set_recovery cancel_all set_running spawn rs_pc semaphore
      rs_running active] in *;
    try (rewrite ?length_fmap; split_and!; [done|lia|];
         first [done
               |intros _; apply Hact; repeat match goal with H : rs_pc _ = _ |- _ => rewrite H end; done
               |intros _; apply Hact; destruct Hpc as [->|[->|[->| ->]]]; done
               |intros _; unfold after_test; apply Hact; done]).
  rewrite Hpc in Hact. destruct (Hact eq_refl) as [Heq Hf]. rewrite length_app. simpl.
  split_and!; [lia..|]. intros _. split; [lia|]. apply Forall_app. by split; [|constructor].
Qed.

Lemma task_sem x y : task_step x y → sem_inv x.2 → sem_inv y.2.
Proof.
  intros H (H0 & Hle & Hact).
  destruct H; unfold sem_inv, task_ends in *; cbn [snd set_running log_executed set_orphans
    set_finished rs_pc semaphore rs_running] in *;
    try match goal with Hl : rs_running _ = _ |- _ => rewrite Hl in * end;
    rewrite ?length_app in *; cbn [length] in *; (split_and!; [lia|lia|]); try done;
    intros Ha; destruct (Hact Ha) as [Heq Hf]; try done;
    apply Forall_app in Hf as [Hf1 [Ht Hf2]%Forall_cons]; try congruence;
    (split; [lia|]); apply Forall_app; by repeat constructor.
Qed.

Lemma step_sem x y : open_step x y → sem_inv x.2 → sem_inv y.2.
Proof.
  intros [x' y' [? ? H|? ? H|? ?]|x' y' [| ]|]; [by apply loop_sem|by apply task_sem|done..].
Qed.

Lemma steps_sem x y : rtc open_step x y → sem_inv x.2 → sem_inv y.2.
Proof. induction 1; eauto using step_sem. Qed.

Lemma new_sem : 0 ≤ max_concurrency c → sem_inv new_runner.
Proof. intros H. unfold sem_inv. simpl. split_and!; [lia..|]. by split; [lia|]. Qed.

(** ** The bodies of the tasks *)

(** A property of bodies that lasts from slice to slice. *)
Definition lasting (K : coroutine (World E) unit → Prop) : Prop :=
  (∀ t w, K t → K (settle t w).1) ∧
  (∀ X (m : M (World E) X) k w r w', K (CoAwait m k) → m w = (r, w') → K (woken r k)) ∧
  (∀ X (m : M (World E) X) k, K (CoSync m k) ∨ K (CoAwait m k) → K (k (Raise CancelledError))).

Lemma task_codes K x y :
  lasting K → task_step x y → Forall (λ t, K (jt_code t)) (rs_running x.2) →
  Forall (λ t, K (jt_code t)) (rs_running y.2).
Proof.
  intros (HK1 & HK2 & HK3) H Hf.
  destruct H; cbn [snd set_running log_executed set_orphans task_ends set_finished rs_running] in *;
    try match goal with Hl : rs_running _ = _ |- _ => rewrite Hl in Hf end; try done;
    apply Forall_app in Hf as [Hf1 [Ht Hf2]%Forall_cons]; (apply Forall_app; split; [done|]); try done;
    (apply Forall_cons; split; [|done]); cbn [with_code uncancelled jt_code];
    repeat match goal with Hl : jt_code _ = _ |- _ => rewrite Hl in * end.
  2: by eapply HK2.
  all: match goal with Hs : settle ?t ?w = (_, _) |- _ =>
         apply (f_equal fst) in Hs; cbn [fst] in Hs; rewrite <- Hs end; apply HK1; try done;
       apply (HK3 _ m); first [by left|by right].
Qed.

Lemma step_codes K x y :
  lasting K → (∀ j, K (process_co j)) → open_step x y →
  Forall (λ t, K (jt_code t)) (rs_running x.2) → Forall (λ t, K (jt_code t)) (rs_running y.2).
Proof.
  intros HK Hnew H Hf. destruct H as [x y [x' y' H|x' y' H|]|x y []|]; try done;
    [|by eapply task_codes].
  destruct H; try done; cbn [snd spawn set_pc cancel_all set_running rs_running].
  - apply Forall_app. split; [done|]. apply Forall_singleton, Hnew.
  - by apply Forall_fmap.
  - by apply Forall_fmap.
Qed.

Lemma steps_codes K x y :
  lasting K → (∀ j, K (process_co j)) → rtc open_step x y →
  Forall (λ t, K (jt_code t)) (rs_running x.2) → Forall (λ t, K (jt_code t)) (rs_running y.2).
Proof. intros HK Hnew. induction 1; eauto using step_codes. Qed.

Lemma process_leaves j : leaves raises_no_Exception (process_co j).
Proof. apply leaves_except. Qed.

Lemma leaves_lasting : lasting (leaves raises_no_Exception).
Proof.
  split_and!; [intros; by apply leaves_settle|intros X m k w r w' H _ r'; simpl in *|].
  - destruct r'; apply H.
  - by intros X m k [H|H].
Qed.

Lemma process_turns j : turns_le (process_co j) 15.
Proof.
  apply (turns_le_then _ _ 15 0); [|by intros [|e]; [|simpl; destruct (is_Exception e)]].
  apply (turns_le_bind _ _ 15 0); [apply execute_turns|done].
Qed.

Lemma turns_lasting n : lasting (λ t, turns_le t n).
Proof.
  split_and!.
  - intros. by apply turns_le_settle.
  - intros X m k w r w' H _. destruct n as [|[|n]]; try done. simpl in *. intros r'.
    destruct r'; eapply turns_le_mono; try apply H; lia.
  - intros X m k [H|H]; [destruct n|destruct n as [|[|n]]]; try done;
      (eapply turns_le_mono; [apply H|lia]).
Qed.

(** The task's body alone, from start to end, does what [_process_job] does. *)
Lemma process_co_run j w :
  co_run (process_co j) w =
  except_Exception
    (_ ← execute (wr_executor c) (wr_queue c) j.1.2 j.2 (wr_handler c); mret tt) (λ _, mret tt) w.
Proof.
  unfold process_co. rewrite co_run_except. apply except_ext; [|done].
  rewrite co_run_bind. apply st_bind_ext; [apply execute_co_run|done].
Qed.

(** ** A task alone *)

(** From its last suspension point to its end. *)
Lemma settled_runs (t : job_task E) l1 l2 (code : coroutine (World E) unit) :
  jt_cancelled t = false → ∀ w s,
  let '(code', w1) := settle code w in let '(r, w2) := co_run code w in
  rtc task_step (w1, set_running (l1 ++ with_code t code' :: l2) s)
                (w2, set_running (l1 ++ with_code t (CoRet r) :: l2) s).
Proof.
  intros Hc. induction code as [r|X m k IH|X m k IH]; intros w s; cbn [settle co_run]; [done|..];
    destruct (m w) as [r w1] eqn:Hm; [apply IH|].
  specialize (IH r w1 s). destruct (settle (k r) w1) as [code' w2] eqn:Hs, (co_run (k r) w1) as [r' w3].
  eapply rtc_l; [|eapply rtc_l; [|exact IH]].
  - eapply (st_task_await w w1 (set_running _ s) l1 (with_code t (CoAwait m k)) l2 X m k r); by try done.
  - pose proof (st_task_resume w1 w2 (set_running (l1 ++ with_code t (woken r k) :: l2) s) l1
                  (with_code t (woken r k)) l2 X (λ s, (r, s)) k code' eq_refl eq_refl eq_refl Hs) as H.
    unfold with_code, uncancelled in *. cbn in *. rewrite Hc in *. exact H.
Qed.

(** A task that takes all its turns with nothing in between reaches the world
    [_process_job] computes, gives its slot back and leaves itself to its
    callback. *)
Lemma task_runs w s l1 j l2 :
  rs_running s = l1 ++ new_task j :: l2 →
  rtc task_step (w, s) ((_process_job (length (_inflight s)) j w).2,
    task_ends l1 (new_task j) l2 true (log_executed j s)).
Proof.
  intros Hl. pose proof (settled_runs (new_task j) l1 l2 (process_co j) eq_refl w (log_executed j s)) as H.
  destruct (settle (process_co j) w) as [code w1] eqn:Hs.
  rewrite (process_co_run j w) in H. unfold _process_job, try_finally.
  destruct (except_Exception _ _ w) as [r w2]. cbn.
  eapply rtc_l; [by apply (st_task_start w w1 s l1 (new_task j) l2 code Hl)|].
  etrans; [exact H|]. apply rtc_once.
  match goal with |- task_step (_, ?s1) _ =>
    pose proof (st_task_end w2 (observe_inflight (length (_inflight s)) w2).2 s1 l1
                  (with_code (new_task j) (CoRet r)) l2 r eq_refl eq_refl eq_refl) as He end.
  apply He. unfold _inflight. cbn. rewrite Hl, !fmap_app, !length_app. done.
Qed.

(** ** Properties *)

(** C24: concurrency is bounded and no slot leaks.  In every reachable state at
    most [max_concurrency] tasks run; until the drain timeout every slot is
    either free or held by a running task, so a loop that waits for a slot
    always has a running task to wait for. *)
Theorem bounded_concurrency w0 w s :
  0 ≤ max_concurrency c →
  rtc open_step (w0, new_runner) (w, s) →
  Z.of_nat (length (rs_running s)) ≤ max_concurrency c ∧ 0 ≤ semaphore s ∧
  (active (rs_pc s) = true →
     semaphore s + Z.of_nat (length (rs_running s)) = max_concurrency c) ∧
  (∀ j js, rs_pc s = Dispatch (j :: js) → 0 < max_concurrency c → semaphore s = 0 →
     rs_running s ≠ []).
Proof.
  intros Hmax Hsteps. apply steps_sem in Hsteps as (H0 & Hle & Heq); [|by apply new_sem].
  cbn [snd] in *. split_and!; [lia|done|naive_solver|].
  intros j js Hpc Hpos Hs Hr. rewrite Hpc, Hr in Heq. destruct (Heq eq_refl). simpl in *. lia.
Qed.

(** ** Intake *)

(** What a read that is in flight, or about to be sent, may still bring in. *)
Definition one_read (js : list delivery) : Prop :=
  ∃ w w', read_jobs w = (Ok (Some js), w').

(** The flag was tested before this turn and is not tested again before a read. *)
Definition past_test (p : pc) : bool :=
  match p with Checking | Polling => true | _ => false end.

(** What one step does to the intake once shutdown is requested: a turn past the
    test ends with at most one batch, and no other turn starts. *)
Definition intake (s s' : runner E) : Prop :=
  if past_test (rs_pc s)
  then rs_spawned s' = rs_spawned s ∧
       (past_test (rs_pc s') = true ∨
        past_test (rs_pc s') = false ∧ (batch_of s' = [] ∨ one_read (batch_of s')))
  else past_test (rs_pc s') = false ∧
       ∃ l, rs_spawned s' = rs_spawned s ++ l ∧ l ++ batch_of s' `prefix_of` batch_of s.

Lemma intake_same s s' : rs_pc s' = rs_pc s → rs_spawned s' = rs_spawned s → intake s s'.
Proof.
  intros Hp Hsp. unfold intake. rewrite Hp, Hsp. destruct (past_test _); [by auto|].
  split; [done|]. exists []. unfold batch_of. by rewrite Hp, app_nil_r.
Qed.

(** The loop leaves what it was doing. *)
Lemma intake_leaves s s' :
  past_test (rs_pc s') = false → batch_of s' = [] → rs_spawned s' = rs_spawned s → intake s s'.
Proof.
  intros Hp Hb Hsp. unfold intake. rewrite Hsp. destruct (past_test (rs_pc s)); [by auto|].
  split; [done|]. exists []. rewrite Hb, app_nil_r. split; [done|apply prefix_nil].
Qed.

Lemma loop_intake x y :
  loop_step x y → is_set (rs_shutdown x.2) = true → intake x.2 y.2.
Proof.
  intros H Hs.
  destruct H as [| | | |w w' s b Hpc _| |w w' s jobs Hpc Hr| |w w' s j js Hpc| | | | | | | | |];
    cbn [snd] in *; try congruence; try by apply intake_leaves.
  - unfold intake. rewrite Hpc. destruct b; cbn; auto.
  - unfold intake. rewrite Hpc. cbn. split; [done|]. right. unfold batch_of. cbn.
    destruct jobs as [[|j js]|]; cbn; (split; [done|]); [by left| |by left]. right. by exists w, w'.
  - unfold intake, batch_of. rewrite Hpc. cbn. split; [done|]. by exists [j].
Qed.

Lemma step_intake x y :
  open_step x y → is_set (rs_shutdown x.2) = true →
  is_set (rs_shutdown y.2) = true ∧ intake x.2 y.2.
Proof.
  intros H Hs. destruct H as [x y [x' y' H|x' y' H|]|x y H|].
  - split; [by destruct H|by apply loop_intake].
  - destruct H; (split; [done|]); by apply intake_same.
  - cbn in *. congruence.
  - destruct H; (split; [done|]); by apply intake_same.
  - split; [done|]. by apply intake_same.
Qed.

Lemma steps_intake x y :
  rtc open_step x y → is_set (rs_shutdown x.2) = true → past_test (rs_pc x.2) = false →
  ∃ l, rs_spawned y.2 = rs_spawned x.2 ++ l ∧ l ++ batch_of y.2 `prefix_of` batch_of x.2.
Proof.
  induction 1 as [x|x z y Hstep _ IH]; intros Hs Hpc; [exists []; by rewrite app_nil_r|].
  apply step_intake in Hstep as (Hs' & Hstep); [|done]. unfold intake in Hstep. rewrite Hpc in Hstep.
  destruct Hstep as (Hpc' & l & Hl & Hp), (IH Hs' Hpc') as (l' & Hl' & Hp').
  exists (l ++ l'). split; [by rewrite Hl', Hl, (assoc_L (++))|].
  rewrite <- (assoc_L (++)). etrans; [|exact Hp]. by apply prefix_app.
Qed.

(** C34: shutdown stops the intake.  The tasks spawned after the request are an initial
    part, in order, of the batch at hand; only when the request came after the
    flag's test of this turn, while [admission.check] or [read_group] was awaited, is
    there one more batch, of one read (which, during the admission check, was not
    sent yet), and the tasks are an initial part of that. *)
Theorem shutdown_stops_intake w s w' s' :
  is_set (rs_shutdown s) = true → rtc open_step (w, s) (w', s') →
  ∃ l, rs_spawned s' = rs_spawned s ++ l ∧
       (l `prefix_of` batch_of s ∨
        past_test (rs_pc s) = true ∧ ∃ js, one_read js ∧ l `prefix_of` js).
Proof.
  intros Hs Hsteps.
  assert (∀ (l l' b : list delivery), l ++ l' `prefix_of` b → l `prefix_of` b) as Hpre
    by (intros l l' b H; etrans; [by apply prefix_app_r|exact H]).
  destruct (past_test (rs_pc s)) eqn:Hp; last first.
  { apply steps_intake in Hsteps as (l & Hl & Hpl); [|done..]. exists l. split; [done|]. left. by eapply Hpre. }
  remember (w, s) as x eqn:Hx. remember (w', s') as y eqn:Hy.
  revert w s Hx Hs Hp. induction Hsteps as [x|x z y Hstep Hsteps IH]; intros w s -> Hs Hp.
  - injection Hy as <- <-. exists []. rewrite app_nil_r. split; [done|]. left. apply prefix_nil.
  - apply step_intake in Hstep as (Hs' & Hstep); [|done]. destruct z as [w1 s1].
    unfold intake in Hstep. cbn [snd] in *. rewrite Hp in Hstep.
    destruct Hstep as [Hsp [Hp1|[Hp1 Hb]]]; rewrite <- Hsp.
    + destruct (IH Hy w1 s1 eq_refl Hs' Hp1) as (l & Hl & Hor). exists l. split; [done|].
      destruct Hor as [Hor|Hor]; [|by right]. left.
      assert (batch_of s1 = []) as Hb by (unfold batch_of; by destruct (rs_pc s1)).
      rewrite Hb in Hor. apply prefix_nil_inv in Hor as ->. apply prefix_nil.
    + subst y. apply steps_intake in Hsteps as (l & Hl & Hpl); [|done..]. exists l. split; [done|].
      apply Hpre in Hpl. destruct Hb as [Hb|Hb]; cbn [snd] in *.
      * rewrite Hb in Hpl. left. apply prefix_nil_inv in Hpl as ->. apply prefix_nil.
      * right. split; [done|]. by exists (batch_of s1).
Qed.

(** Neither a failing poll nor a failing job ends the worker.  An [Exception]
    of the admission check, the read, or the executor is absorbed, so what leaves
    them, and what any task in any reachable state ends with, is a cancellation
    (or another [BaseException]). *)
Theorem worker_survives_exceptions w0 w s :
  rtc open_step (w0, new_runner) (w, s) →
  (∀ w1, raises_no_Exception (admission_check w1).1) ∧ (∀ w1, raises_no_Exception (read_jobs w1).1) ∧
  (∀ t r, t ∈ rs_running s → jt_code t = CoRet r → raises_no_Exception r).
Proof.
  intros Hsteps.
  assert (∀ A (m : M (World E) A) a w, raises_no_Exception (except_Exception m (λ _, mret a) w).1) as Hq.
  { intros A m a w1. pose proof (except_Exception_quiet m a w1) as Hq. cbv zeta in Hq.
    unfold raises_no_Exception. by destruct (except_Exception _ _ w1) as [[]]. }
  split_and!.
  - intros w1. unfold admission_check. destruct (wr_admission c); [apply Hq|done].
  - intros w1. apply Hq.
  - apply (steps_codes _ _ _ leaves_lasting process_leaves) in Hsteps; [|by constructor].
    cbn [snd] in Hsteps. rewrite Forall_forall in Hsteps. intros t r Ht Hr. specialize (Hsteps t Ht).
    by rewrite Hr in Hsteps.
Qed.

End Runner.

(** ** Witnesses *)

(** One slot, batches of two, no admission control, no recovery. *)
Definition worker1 (h : handler_fun (E := unit)) : WorkerRunner unit :=
  mkWorker unit executor1 (u "w1") mail h None None 1 2000 2.

Definition two_jobs : World unit := world_on (server_with 2 3).
Definition delivery_of (id : rval) : delivery := (_stream_key relayq mail, id, mail_job 3).
Definition batch2 : list delivery :=
  [delivery_of (RS (u "1-0")); delivery_of (RS (u "1111-0"))].
Definition started : World unit := run (on_redis (ensure_group relayq mail)) two_jobs.
Definition polled (h : handler_fun (E := unit)) : World unit := run (read_jobs (worker1 h)) started.
Definition polling (h : handler_fun (E := unit)) : runner unit :=
  set_pc Polling (set_recovery NoRecovery (set_pc Loop (new_runner (worker1 h)))).
Definition dispatching (h : handler_fun (E := unit)) : runner unit :=
  set_pc (Dispatch batch2) (polling h).

Lemma reaches_dispatch h :
  rtc (open_step (worker1 h)) (two_jobs, new_runner (worker1 h)) (polled h, dispatching h).
Proof.
  eapply rtc_l; [apply os_worker, step_loop, st_start; [reflexivity|]|].
  { apply (run_eq (on_redis (ensure_group relayq mail)) two_jobs (Ok tt)). vm_compute. reflexivity. }
  eapply rtc_l; [apply os_worker, step_loop, (st_test (worker1 h) started); reflexivity|].
  apply rtc_once, os_worker, step_loop.
  apply (st_read (worker1 h) started (polled h) (polling h) (Some batch2)); [reflexivity|].
  apply (run_eq (read_jobs (worker1 h)) started (Ok (Some batch2))). vm_compute. reflexivity.
Qed.

Definition first_job : delivery := delivery_of (RS (u "1-0")).
Definition spawned1 (h : handler_fun (E := unit)) : runner unit :=
  spawn (new_task (worker1 h) first_job) [delivery_of (RS (u "1111-0"))] (dispatching h).
Definition observed (h : handler_fun (E := unit)) : World unit :=
  run (observe_inflight (worker1 h) (length (_inflight (spawned1 h)))) (polled h).

Lemma spawn_first h s :
  rs_pc s = Dispatch batch2 → semaphore s = 1 →
  length (_inflight (spawn (new_task (worker1 h) first_job) [delivery_of (RS (u "1111-0"))] s)) = 1%nat →
  loop_step (worker1 h) (polled h, s)
    (observed h, spawn (new_task (worker1 h) first_job) [delivery_of (RS (u "1111-0"))] s).
Proof.
  intros Hpc Hs Hi. apply (st_spawn (worker1 h)); [exact Hpc|lia|]. rewrite Hi.
  by apply (run_eq (observe_inflight (worker1 h) 1) (polled h) (Ok tt)).
Qed.

Lemma reaches_spawned h :
  rtc (open_step (worker1 h)) (two_jobs, new_runner (worker1 h)) (observed h, spawned1 h).
Proof.
  eapply rtc_r; [apply reaches_dispatch|].
  apply os_worker, step_loop, spawn_first; reflexivity.
Qed.

(** The second job of the batch waits for the first one's slot. *)
Lemma bounded_concurrency_witness :
  semaphore (spawned1 returns) = 0 ∧ batch_of (spawned1 returns) = [delivery_of (RS (u "1111-0"))] ∧
  Z.of_nat (length (rs_running (spawned1 returns))) ≤ 1 ∧ rs_running (spawned1 returns) ≠ [].
Proof.
  destruct (bounded_concurrency (worker1 returns) two_jobs (observed returns) (spawned1 returns))
    as (H1 & _ & _ & H2); [vm_compute; discriminate|apply reaches_spawned|].
  split; [reflexivity|]. split; [reflexivity|]. split; [exact H1|]. by eapply H2.
Defined.

(** With admission control, shutdown is requested while the depth is awaited: the
    worker still reads a batch and spawns a task for its first job. *)
Definition careful1 : WorkerRunner unit :=
  mkWorker unit executor1 (u "w1") mail returns (Some (mkAdmission relayq 10 300)) None 1 2000 2.
Definition told_to_stop : runner unit :=
  request_shutdown (set_pc Checking (set_recovery NoRecovery (set_pc Loop (new_runner careful1)))).
Definition admitted_after : World unit := run (admission_check careful1) started.
Definition read_after : World unit := run (read_jobs careful1) admitted_after.
Definition spawned_after : runner unit :=
  spawn (new_task careful1 first_job) [delivery_of (RS (u "1111-0"))]
        (set_pc (Dispatch batch2) (set_pc Polling told_to_stop)).
Definition observed_after : World unit := run (observe_inflight careful1 1) read_after.

Lemma shutdown_stops_intake_witness :
  after_test careful1 = Checking ∧
  ∃ l, l = [first_job] ∧ (l `prefix_of` batch_of told_to_stop ∨
       past_test (rs_pc told_to_stop) = true ∧ ∃ js, one_read careful1 js ∧ l `prefix_of` js).
Proof.
  split; [reflexivity|].
  destruct (shutdown_stops_intake careful1 started told_to_stop observed_after spawned_after)
    as (l & Hl & Hp); [reflexivity| |exists l; split; [symmetry; exact Hl|exact Hp]].
  eapply rtc_l; [apply os_worker, step_loop, (st_admit careful1 started admitted_after told_to_stop true);
    [reflexivity|]|].
  { apply (run_eq (admission_check careful1) started (Ok true)). vm_compute. reflexivity. }
  eapply rtc_l; [apply os_worker, step_loop,
    (st_read careful1 admitted_after read_after (set_pc Polling told_to_stop) (Some batch2)); [reflexivity|]|].
  { apply (run_eq (read_jobs careful1) admitted_after (Ok (Some batch2))). vm_compute. reflexivity. }
  apply rtc_once, os_worker, step_loop, (st_spawn careful1); [reflexivity|vm_compute; reflexivity|].
  apply (run_eq (observe_inflight careful1 1) read_after (Ok tt)). vm_compute. reflexivity.
Defined.

(** A handler that raises CancelledError ends its task with it. *)
Lemma worker_survives_witness :
  ∃ w s t, t ∈ rs_running s ∧ jt_code t = CoRet (Raise CancelledError) ∧
    rtc (open_step (worker1 cancelled)) (two_jobs, new_runner (worker1 cancelled)) (w, s) ∧
    raises_no_Exception (A := unit) (Raise CancelledError).
Proof.
  set (c := worker1 cancelled). set (t := new_task c first_job).
  set (s0 := log_executed first_job (spawned1 cancelled)).
  destruct (settle (process_co c first_job) (observed cancelled)) as [code w1] eqn:Hs.
  destruct (co_run (process_co c first_job) (observed cancelled)) as [r w2] eqn:Hr.
  assert (r = Raise CancelledError) as ->.
  { change r with (r, w2).1. rewrite <- Hr. vm_compute. reflexivity. }
  set (s1 := set_running [with_code t (CoRet (Raise CancelledError))] s0).
  assert (rtc (open_step c) (two_jobs, new_runner c) (w2, s1)) as Hsteps.
  { transitivity (observed cancelled, spawned1 cancelled); [apply reaches_spawned|].
    pose proof (settled_runs c t [] [] (process_co c first_job) eq_refl (observed cancelled) s0) as H.
    rewrite Hs, Hr in H. eapply rtc_l.
    - apply os_worker, step_task, (st_task_start c _ w1 (spawned1 cancelled) [] t [] code); [reflexivity..|exact Hs].
    - revert H. apply (rtc_congruence (λ x, x)). intros x y Hxy. by apply os_worker, step_task. }
  exists w2, s1, (with_code t (CoRet (Raise CancelledError))).
  split; [left|]. split; [reflexivity|]. split; [exact Hsteps|].
  apply (worker_survives_exceptions c two_jobs w2 s1 Hsteps) with (t := with_code t (CoRet (Raise CancelledError)));
    [left|reflexivity].
Defined.
