(* ===== verification/WorkerProgress.v ===== *)
(** * Progress and termination of the worker

    A worker whose loop or tasks could do nothing more would hold its jobs for ever:
    no reachable state is stuck ([worker_never_stuck]), and once shutdown is
    requested the number of steps left is bounded ([shutdown_terminates]). *)

From Stdlib Require Import String QArith.
From stdpp Require Import relations.
From S2P Require Import Prelude PyStr Json Errors Coroutine Datetime Job Retry Redis RedisModel Transport SqliteStore Metrics World Scenario Delivery Execute Admission Recover Shutdown Runner.
Open Scope list_scope.
Open Scope Z_scope.

Section Progress.
Context {R : Redis} {E : Type}.
Variable c : WorkerRunner E.

#[local] Abbreviation loop_step := (Runner.loop_step c).
#[local] Abbreviation task_step := (Runner.task_step c).
#[local] Abbreviation step := (Runner.step c).
#[local] Abbreviation recovery_step := (Runner.recovery_step c).
#[local] Abbreviation open_step := (Runner.open_step c).
#[local] Abbreviation new_runner := (Runner.new_runner c).
#[local] Abbreviation new_task := (Runner.new_task c).
#[local] Abbreviation admission_check := (Runner.admission_check c).
#[local] Abbreviation read_jobs := (Runner.read_jobs c).

(** ** Progress *)

(** The process has nothing left to do. *)
Definition ended (s : runner E) : Prop :=
  match rs_pc s with Closed | Failed _ => rs_running s = [] ∧ rs_finished s = [] | _ => False end.

(** A task that has not ended is never stuck. *)
Lemma task_progress w s l1 t l2 :
  rs_running s = l1 ++ t :: l2 → ∃ y, task_step (w, s) y.
Proof.
  intros Hl. destruct (jt_started t) eqn:Hst; last first.
  { destruct (jt_cancelled t) eqn:Hc.
    - eexists. by eapply st_cancel_unstarted.
    - destruct (settle (jt_code t) w) as [code w'] eqn:Hs. eexists. by eapply st_task_start. }
  destruct (jt_code t) as [r|X m k|X m k] eqn:Hcode.
  - eexists. by eapply st_task_end.
  - destruct (settle (jt_code t) w) as [code w'] eqn:Hs. eexists. by eapply st_task_resume.
  - destruct (m w) as [r w'] eqn:Hm. eexists. by eapply st_task_await.
Qed.

(** The loop goes on, unless it waits for a slot. *)
Lemma loop_progress w s :
  match rs_pc s with
  | Closed | Failed _ => True
  | Dispatch (_ :: _) => 0 < semaphore s → ∃ y, loop_step (w, s) y
  | _ => ∃ y, loop_step (w, s) y
  end.
Proof.
  destruct (rs_pc s) as [| | | |[|j js]| | | | | |] eqn:Hpc; try done.
  - destruct (on_redis (ensure_group (wr_prefix c) (wr_queue c)) w) as [[[]|e] w'] eqn:H; eexists;
      [by eapply st_start|by eapply st_start_fail].
  - destruct (is_set (rs_shutdown s)) eqn:Hset; eexists; [by eapply st_exit|by eapply st_test].
  - destruct (admission_check w) as [[b|e] w'] eqn:H; eexists; [by eapply st_admit|by eapply st_admit_raise].
  - destruct (read_jobs w) as [[jobs|e] w'] eqn:H; eexists; [by eapply st_read|by eapply st_read_raise].
  - eexists. by eapply st_next.
  - intros Hs. eexists. by eapply st_spawn.
  - destruct (await_raises (rs_recovery s)) eqn:Ha; eexists; [by eapply st_finally_raise|by eapply st_finally].
  - eexists. by eapply st_drain_interrupted.
  - eexists. by eapply st_drain_over.
  - eexists. by eapply st_close.
Qed.

(** ** Termination *)

(** The turns a task may still take, its end and its callback included. *)
Inductive task_left (t : job_task E) : nat → Prop :=
| left_new : jt_started t = false → turns_le (jt_code t) 15 → task_left t 18
| left_started n : jt_started t = true → turns_le (jt_code t) n → task_left t (n + 2).

(** The loop's own, with those of the tasks it may still spawn. *)
Definition loop_left (s : runner E) : nat :=
  match rs_pc s with
  | Starting => 6
  | Loop => 5
  | Checking => 8 + 19 * Z.to_nat (poll_batch c)
  | Polling => 7 + 19 * Z.to_nat (poll_batch c)
  | Dispatch js => 6 + 19 * length js
  | Finally => 4
  | Draining => 3
  | Cancelling => 2
  | Stopped => 1
  | Closed | Failed _ => 0
  end.

Definition measured (s : runner E) (n : nat) : Prop :=
  ∃ ns, Forall2 task_left (rs_running s) ns ∧
        n = (loop_left s + sum_list ns + length (rs_finished s) + length (rs_orphans s))%nat.

Lemma left_code t t' : jt_started t' = jt_started t → jt_code t' = jt_code t →
  ∀ n, task_left t n → task_left t' n.
Proof. intros Hs Hc n [H1 H2|m H1 H2]; constructor; congruence. Qed.

Lemma measured_task s s' l1 t l2 t' (extra : nat) n :
  rs_running s = l1 ++ t :: l2 → rs_running s' = l1 ++ t' :: l2 →
  rs_pc s' = rs_pc s → rs_finished s' = rs_finished s →
  length (rs_orphans s') = (extra + length (rs_orphans s))%nat →
  (∀ k, task_left t k → ∃ k', task_left t' k' ∧ k' + extra < k)%nat →
  measured s n → ∃ n', measured s' n' ∧ (n' < n)%nat.
Proof.
  intros Hl Hl' Hpc Hf Ho Ht (ns & Hns & ->). rewrite Hl in Hns.
  apply Forall2_app_inv_l in Hns as (n1 & n2 & H1 & H2 & ->).
  apply Forall2_cons_inv_l in H2 as (k & n3 & Hk & H3 & ->).
  destruct (Ht k Hk) as (k' & Hk' & Hlt). eexists. split.
  - exists (n1 ++ k' :: n3). split; [|reflexivity]. rewrite Hl'. by apply Forall2_app; [|constructor].
  - unfold loop_left. rewrite Hpc, Hf, Ho. rewrite !sum_list_with_app. cbn. lia.
Qed.

Lemma measured_ends s l1 t l2 b n :
  rs_running s = l1 ++ t :: l2 → measured s n →
  ∃ n', measured (task_ends l1 t l2 b s) n' ∧ (n' < n)%nat.
Proof.
  intros Hl (ns & Hns & ->). rewrite Hl in Hns.
  apply Forall2_app_inv_l in Hns as (n1 & n2 & H1 & H2 & ->).
  apply Forall2_cons_inv_l in H2 as (k & n3 & Hk & H3 & ->). eexists. split.
  - exists (n1 ++ n3). split; [|reflexivity]. by apply Forall2_app.
  - unfold loop_left. cbn. rewrite !sum_list_with_app, length_app. cbn.
    assert (2 ≤ k)%nat by (destruct Hk; lia). lia.
Qed.

(** A body that goes on after its command or its cancellation is shorter. *)
Lemma left_next t t' X (m : M (World E) X) k r w code w' d n :
  jt_started t = true → (d = 0%nat ∧ jt_code t = CoSync m k ∨ d = 1%nat ∧ jt_code t = CoAwait m k) →
  settle (k r) w = (code, w') → jt_started t' = true → jt_code t' = code →
  task_left t n → ∃ n', task_left t' n' ∧ (n' + d < n)%nat.
Proof.
  intros Hst Hcode Hs Hst' Hc' [H|p _ Hp]; [congruence|].
  apply (f_equal fst) in Hs. cbn in Hs. subst code.
  destruct Hcode as [[-> Hcode]|[-> Hcode]]; rewrite Hcode in Hp.
  - destruct p as [|p]; [done|]. exists (p + 2)%nat. split; [|lia]. constructor; [done|].
    rewrite Hc'. by apply turns_le_settle.
  - destruct p as [|[|p]]; try done. exists (p + 2)%nat. split; [|lia]. constructor; [done|].
    rewrite Hc'. by apply turns_le_settle.
Qed.

Lemma task_measured x y n :
  task_step x y → measured x.2 n → ∃ n', measured y.2 n' ∧ (n' < n)%nat.
Proof.
  intros H Hm. destruct H as [w w' s l1 t l2 code Hl Hst Hc Hs|w w' s l1 t l2 X m k r Hl Hst Hcode Hr
    |w w' s l1 t l2 X m k code Hl Hst Hcode Hs|w w' s l1 t l2 X m k code Hl Hst Hc Hcode Hs
    |w w' s l1 t l2 X m k code Hl Hst Hc Hcode Hs| | |w s l1 j l2 Hl|w w' s l1 t l2 X m k r Hl Hcode Hr];
    cbn [snd] in *; try (by eapply measured_ends).
  - eapply (measured_task s _ l1 t l2 _ 0); try done. intros n0 [_ Ht|p Hp _]; [|congruence].
    exists 17%nat. split; [|lia]. apply (left_started _ 15); [done|]. cbn.
    apply (f_equal fst) in Hs. cbn in Hs. rewrite <- Hs. by apply turns_le_settle.
  - eapply (measured_task s _ l1 t l2 _ 0); try done. intros n0 [?|p _ Hp]; [congruence|].
    rewrite Hcode in Hp. destruct p as [|[|p]]; try done. exists (S p + 2)%nat. split; [|lia].
    constructor; [done|]. cbn. intros r'. apply Hp.
  - eapply (measured_task s _ l1 t l2 _ 0); try done. rewrite Hcode in Hs. cbn in Hs.
    destruct (m w) as [r w1]. intros n0 Ht.
    eapply (left_next t _ X m k r w1 code w' 0); try done. by left.
  - eapply (measured_task s _ l1 t l2 _ 0); try done. intros n0 Ht.
    eapply (left_next t _ X m k _ w code w' 0); try done. by left.
  - eapply (measured_task s _ l1 t l2 _ 1); try done.
    + cbn. rewrite length_app. simpl. lia.
    + intros n0 Ht. eapply (left_next t _ X m k _ w code w' 1); try done. by right.
  - destruct Hm as (ns & Hns & ->). eexists. split; [by exists ns|]. cbn. rewrite Hl, !length_app.
    simpl. unfold loop_left. cbn. lia.
  - destruct Hm as (ns & Hns & ->). eexists. split; [by exists ns|]. cbn. rewrite Hl, !length_app.
    simpl. unfold loop_left. cbn. lia.
Qed.

Lemma read_jobs_size `{!RedisSpec R} w js w' :
  read_jobs w = (Ok (Some js), w') → (length js ≤ Z.to_nat (poll_batch c))%nat.
Proof.
  unfold read_jobs, except_Exception, try_except, mbind, st_mbind, on_redis_now.
  destruct (on_redis _ w) as [[l|e] w1] eqn:H; [|by destruct (is_Exception e)].
  intros [= -> _]. apply on_redis_inv in H as (s' & H & _). by eapply read_group_size.
Qed.

Lemma loop_measured `{!RedisSpec R} x y n :
  loop_step x y → is_set (rs_shutdown x.2) = true → measured x.2 n →
  ∃ n', measured y.2 n' ∧ (n' < n)%nat.
Proof.
  intros H Hset (ns & Hns & ->). cbn [snd] in *.
  assert (∀ s s' : runner E, rs_running s' = rs_running s → rs_finished s' = rs_finished s →
    rs_orphans s' = rs_orphans s → Forall2 task_left (rs_running s) ns → (loop_left s' < loop_left s)%nat →
    ∃ n', measured s' n' ∧
      (n' < loop_left s + sum_list ns + length (rs_finished s) + length (rs_orphans s))%nat) as Hgen.
  { intros s s' Hr Hf Ho Hl Hlt. eexists. split; [exists ns; by rewrite Hr|]. rewrite Hf, Ho. lia. }
  assert (∀ s, Forall2 task_left (rs_running s) ns → Forall2 task_left (rs_running (cancel_all s)) ns)
    as Hcancel.
  { intros s Hl. cbn. apply Forall2_fmap_l. eapply Forall2_impl; [exact Hl|]. intros t k. by apply left_code. }
  destruct H as [w w' s Hpc|w w' s e Hpc|w s Hpc|w s Hpc Hs|w w' s b Hpc Hadm|w w' s e Hpc Hadm|w w' s jobs Hpc Hr
    |w w' s e Hpc|w w' s j js Hpc|w s Hpc|w s js Hpc|w s Hpc|w s Hpc|w s Hpc|w s Hpc|w s Hpc|w s Hpc|w s Hpc];
    cbn [snd] in *; try congruence;
    try (apply (Hgen s); try done; unfold loop_left; cbn [set_pc set_recovery rs_pc]; rewrite Hpc; lia).
  - apply (Hgen s); try done. unfold loop_left. cbn [set_pc rs_pc]. rewrite Hpc. destruct b; lia.
  - apply (Hgen s); try done. unfold loop_left. cbn [set_pc rs_pc]. rewrite Hpc.
    destruct jobs as [[|j js]|]; cbn [after_read]; [lia| |lia].
    apply read_jobs_size in Hr. lia.
  - exists (loop_left (spawn (new_task j) js s) + sum_list (ns ++ [18%nat]) + length (rs_finished s) +
            length (rs_orphans s))%nat. split.
    + exists (ns ++ [18%nat]). split; [|done]. cbn. apply Forall2_app; [done|].
      constructor; [|constructor]. constructor; [done|apply (process_turns c)].
    + rewrite sum_list_with_app. unfold loop_left. cbn. rewrite Hpc. cbn. lia.
  - apply (Hgen s); try done. unfold loop_left. cbn [set_pc rs_pc].
    destruct Hpc as [->|[->|[->| ->]]]; lia.
  - eexists. split; [exists ns; split; [by apply (Hcancel (set_pc Cancelling s))|reflexivity]|].
    unfold loop_left. cbn. rewrite Hpc. lia.
  - eexists. split; [exists ns; split; [by apply (Hcancel (set_pc Closed s))|reflexivity]|].
    unfold loop_left. cbn. rewrite Hpc. lia.
Qed.

Lemma step_measured `{!RedisSpec R} x y n :
  step x y → is_set (rs_shutdown x.2) = true → measured x.2 n →
  is_set (rs_shutdown y.2) = true ∧ ∃ n', measured y.2 n' ∧ (n' < n)%nat.
Proof.
  intros H Hset Hm. split.
  - destruct H as [x y H|x y H|]; [by destruct H..|done].
  - destruct H as [x y H|x y H|w s Hs]; [by eapply loop_measured|by eapply task_measured|].
    cbn in *. congruence.
Qed.

(** [n] steps of the process, with any number of steps of others and of the recovery
    task in between. *)
Inductive works : nat → World E * runner E → World E * runner E → Prop :=
| works_done x : works 0 x x
| works_own n x y z : step x y → works n y z → works (S n) x z
| works_recovery n x y z : recovery_step x y → works n y z → works n x z
| works_others n w w' s z : works n (w', s) z → works n (w, s) z.

Lemma works_bounded `{!RedisSpec R} n x y m :
  works n x y → is_set (rs_shutdown x.2) = true → measured x.2 m → (n ≤ m)%nat.
Proof.
  intros H. revert m. induction H as [x|n x y z Hxy _ IH|n x y z Hxy _ IH|n w w' s z _ IH];
    intros m Hset Hm; [lia| | |by apply IH].
  - destruct (step_measured _ _ _ Hxy Hset Hm) as (Hset' & m' & Hm' & Hlt).
    specialize (IH m' Hset' Hm'). lia.
  - apply IH; by destruct Hxy.
Qed.

(** What a reachable worker may still do, for the bound below. *)
Definition steps_left (s : runner E) : nat :=
  loop_left s + 18 * length (rs_running s) + length (rs_finished s) + length (rs_orphans s).

Lemma measured_bound s :
  Forall (λ t, turns_le (jt_code t) 15) (rs_running s) → ∃ n, measured s n ∧ (n ≤ steps_left s)%nat.
Proof.
  intros Hf. unfold measured, steps_left.
  assert (∃ ns, Forall2 task_left (rs_running s) ns ∧ (sum_list ns ≤ 18 * length (rs_running s))%nat)
    as (ns & Hns & Hle).
  { induction Hf as [|t l Ht _ (ns & Hns & Hle)]; [exists []; by split; [constructor|]|].
    destruct (jt_started t) eqn:Hst.
    - exists (17 :: ns)%nat. split; [constructor; [by apply (left_started _ 15)|done]|]. simpl. lia.
    - exists (18 :: ns)%nat. split; [constructor; [by apply left_new|done]|]. simpl. lia. }
  eexists. split; [by exists ns|]. lia.
Qed.

(** ** Properties *)

(** C12: no deadlock.  With at least one slot, in every reachable state of a worker that has
    not ended, the loop or a task can take a step, whatever the server did. *)
Theorem worker_never_stuck w0 w s :
  0 < max_concurrency c → rtc open_step (w0, new_runner) (w, s) →
  ended s ∨ ∃ y, loop_step (w, s) y ∨ task_step (w, s) y.
Proof.
  intros Hmax Hsteps. apply steps_sem in Hsteps as (H0 & _ & Hact); [|apply new_sem; lia].
  cbn [snd] in *.
  assert (rs_running s ≠ [] → ∃ y, task_step (w, s) y) as Ht.
  { destruct (rs_running s) as [|t l] eqn:Hr; [done|]. intros _. by apply (task_progress w s [] t l). }
  assert (rs_finished s ≠ [] → ∃ y, task_step (w, s) y) as Hf.
  { destruct (rs_finished s) as [|j l] eqn:Hr; [done|]. intros _. eexists. by apply (st_callback c w s [] j l). }
  pose proof (loop_progress w s) as Hl. unfold ended.
  assert ((∃ y, loop_step (w, s) y) → ∃ y, loop_step (w, s) y ∨ task_step (w, s) y) as Hstep
    by (intros [y Hy]; eauto).
  assert ((∃ y, task_step (w, s) y) → ∃ y, loop_step (w, s) y ∨ task_step (w, s) y) as Htask
    by (intros [y Hy]; eauto).
  assert (rs_running s = [] ∧ rs_finished s = [] ∨
          ∃ y, loop_step (w, s) y ∨ task_step (w, s) y) as Hend.
  { destruct (rs_running s); [|by right; apply Htask, Ht].
    destruct (rs_finished s); [by left|by right; apply Htask, Hf]. }
  destruct (rs_pc s) as [| | | |[|j js]| | | | | |] eqn:Hpc; try exact Hend; right;
    try (by apply Hstep).
  destruct (decide (semaphore s = 0)) as [Hs|Hs]; [|by apply Hstep, Hl; lia].
  apply Htask, Ht. intros Hr. destruct (Hact eq_refl) as [He _]. rewrite Hr in He. simpl in He. lia.
Qed.

(** C10: shutdown terminates.  Once shutdown is requested a worker takes at most
    [steps_left] steps of its own, however they interleave with the rest of the
    system and the recovery task: a few for the loop, nineteen per job of the
    batch at hand (of the batch being read, at most [poll_batch]) and eighteen per
    running task. *)
Theorem shutdown_terminates `{!RedisSpec R} w0 w s n y :
  rtc open_step (w0, new_runner) (w, s) → is_set (rs_shutdown s) = true →
  works n (w, s) y → (n ≤ steps_left s)%nat.
Proof.
  intros Hsteps Hset Hw.
  apply (steps_codes c _ _ _ (turns_lasting 15) (process_turns c)) in Hsteps; [|by constructor].
  destruct (measured_bound s Hsteps) as (m & Hm & Hle).
  pose proof (works_bounded _ _ _ _ Hw Hset Hm). lia.
Qed.

End Progress.

(** ** Witnesses *)

Lemma worker_never_stuck_witness :
  ended (spawned1 returns) ∨
  ∃ y, loop_step (worker1 returns) (observed returns, spawned1 returns) y ∨
       task_step (worker1 returns) (observed returns, spawned1 returns) y.
Proof.
  apply (worker_never_stuck (worker1 returns) two_jobs); [vm_compute; reflexivity|apply reaches_spawned].
Defined.

Lemma shutdown_terminates_witness :
  let s := request_shutdown (spawned1 returns) in
  steps_left (worker1 returns) s = 43%nat ∧
  ∃ y, works (worker1 returns) 1 (observed returns, s) y ∧ (1 ≤ steps_left (worker1 returns) s)%nat.
Proof.
  intros s. split; [reflexivity|].
  destruct (task_progress (worker1 returns) (observed returns) s [] (new_task (worker1 returns) first_job) [])
    as [y Hy]; [reflexivity|].
  exists y. assert (works (worker1 returns) 1 (observed returns, s) y) as Hw
    by (eapply works_own; [by apply step_task|apply works_done]).
  split; [exact Hw|].
  apply (shutdown_terminates (worker1 returns) two_jobs (observed returns) s 1 y); [|reflexivity|exact Hw].
  eapply rtc_r; [apply reaches_spawned|]. apply os_worker, step_request. reflexivity.
Defined.
