(* ===== verification/Fairness.v ===== *)
(** * A fair worker runs its batch

    On an infinite run of a worker amid the rest of the system that is fair (its loop
    goes on again and again when it can, no task is left standing for ever) every job
    of a batch gets a task, and every task runs to its end, unless the loop is
    interrupted: by a cancellation, an exception that is no [Exception], or a crash. *)

From Stdlib Require Import String QArith.
From stdpp Require Import relations.
From S2P Require Import Prelude PyStr Json Errors Coroutine Datetime Job Retry Redis RedisModel Transport SqliteStore Metrics World Scenario Delivery Execute Admission Recover Shutdown Runner WorkerProgress.
Open Scope list_scope.
Open Scope Z_scope.

Section Fairness.
Context {R : Redis} {E : Type}.
Variable c : WorkerRunner E.

#[local] Abbreviation loop_step := (Runner.loop_step c).
#[local] Abbreviation task_step := (Runner.task_step c).
#[local] Abbreviation open_step := (Runner.open_step c).
#[local] Abbreviation new_runner := (Runner.new_runner c).
#[local] Abbreviation new_task := (Runner.new_task c).
#[local] Abbreviation sem_inv := (Runner.sem_inv c).

(** The loop is in its [while]. *)
Definition looping (p : pc) : bool :=
  match p with Starting | Loop | Checking | Polling | Dispatch _ => true | _ => false end.

(** It does not wait for a slot. *)
Definition ready (s : runner E) : bool :=
  match rs_pc s with Dispatch (_ :: _) => 0 <? semaphore s | p => looping p end.

Abbreviation trace := (nat → World E * runner E).

(** The process may also be killed. *)
Definition killed (x y : World E * runner E) : Prop :=
  rs_pc y.2 = Closed ∧ rs_running y.2 = [] ∧ semaphore y.2 = semaphore x.2.

Record fair (σ : trace) : Prop := {
  fair_steps n : open_step (σ n) (σ (S n)) ∨ killed (σ n) (σ (S n));
  fair_loop n : ∃ m, (n ≤ m)%nat ∧ (ready (σ m).2 = false ∨ loop_step (σ m) (σ (S m)));
  fair_tasks n t : t ∈ rs_running (σ n).2 → ∃ m, (n ≤ m)%nat ∧ t ∉ rs_running (σ m).2
}.

(** ** One step *)

Definition shorter (t t' : job_task E) : Prop := ∀ n, task_left t n → ∃ n', task_left t' n' ∧ (n' < n)%nat.

(** What a step of the tasks does to them while none is cancelled. *)
Lemma task_step_fate x y :
  task_step x y → Forall (λ t, jt_cancelled t = false) (rs_running x.2) →
  rs_running y.2 = rs_running x.2 ∧ rs_executed y.2 = rs_executed x.2 ∨
  ∃ l1 t l2, rs_running x.2 = l1 ++ t :: l2 ∧
    ((∃ t', rs_running y.2 = l1 ++ t' :: l2 ∧ jt_job t' = jt_job t ∧ shorter t t' ∧ jt_started t' = true ∧
            rs_executed y.2 = rs_executed x.2 ++ (if jt_started t then [] else [jt_job t])) ∨
     (jt_started t = true ∧ rs_running y.2 = l1 ++ l2 ∧ rs_executed y.2 = rs_executed x.2 ∧
      jt_job t ∈ rs_finished y.2 ∧ semaphore y.2 = semaphore x.2 + 1)).
Proof.
  intros H Hf.
  assert (∀ (s : runner E) l1 t l2, rs_running s = l1 ++ t :: l2 → Forall (λ t, jt_cancelled t = false) (rs_running s) →
    jt_cancelled t = false) as Hc.
  { intros s l1 t l2 -> Hall. by apply Forall_app in Hall as [_ [? _]%Forall_cons]. }
  destruct H as [w w' s l1 t l2 code Hl Hst _ Hs|w w' s l1 t l2 X m k r Hl Hst Hcode Hr
    |w w' s l1 t l2 X m k code Hl Hst Hcode Hs|w w' s l1 t l2 X m k code Hl Hst Ht
    |w w' s l1 t l2 X m k code Hl Hst Ht|w w' s l1 t l2 r Hl Hst|w s l1 t l2 Hl _ Ht
    |w s l1 j l2 Hl|w w' s l1 t l2 X m k r Hl]; cbn [snd] in *;
    try (by left); try (by rewrite (Hc s l1 t l2 Hl Hf) in Ht); right; exists l1, t, l2; (split; [done|]).
  - left. eexists. split; [reflexivity|]. rewrite Hst. split_and!; try done.
    intros n [_ Ht|p Hp _]; [|congruence]. exists 17%nat. split; [|lia]. apply (left_started _ 15); [done|].
    cbn. apply (f_equal fst) in Hs. cbn in Hs. rewrite <- Hs. by apply turns_le_settle.
  - left. eexists. split; [reflexivity|]. rewrite Hst, app_nil_r. split_and!; try done.
    intros n [?|p _ Hp]; [congruence|]. rewrite Hcode in Hp. destruct p as [|[|p]]; try done.
    exists (S p + 2)%nat. split; [|lia]. constructor; [done|]. cbn. intros r'. apply Hp.
  - left. eexists. split; [reflexivity|]. rewrite Hst, app_nil_r. split_and!; try done.
    rewrite Hcode in Hs. cbn in Hs. destruct (m w) as [r w1]. intros n Ht.
    destruct (left_next t (uncancelled (with_code t code)) X m k r w1 code w' 0 n) as (n' & ? & ?); try done;
      [by left|]. exists n'. split; [done|lia].
  - right. split_and!; try done. cbn. set_solver.
Qed.

(** While the loop is in its [while], tasks stay unless they take a turn. *)
Lemma step_fate x y t :
  open_step x y → sem_inv x.2 → looping (rs_pc x.2) = true → t ∈ rs_running x.2 →
  rs_executed x.2 ⊆ rs_executed y.2 ∧
  (t ∈ rs_running y.2 ∨
   (∃ t', t' ∈ rs_running y.2 ∧ jt_job t' = jt_job t ∧ shorter t t' ∧ jt_started t' = true ∧
          (jt_started t = false → jt_job t ∈ rs_executed y.2)) ∨
   jt_started t = true ∧ jt_job t ∈ rs_finished y.2 ∧ 0 < semaphore y.2).
Proof.
  intros H (H0 & _ & Hact) Hpc Ht.
  assert (Forall (λ t, jt_cancelled t = false) (rs_running x.2)) as Hf.
  { apply Hact. by destruct (rs_pc x.2). }
  destruct H as [x y [x' y' H|x' y' H|w s Hs]|x y []|]; cbn [snd] in *; try (by split; [|left]).
  - destruct H; cbn [snd] in *; try (by split; [|left]);
      repeat match goal with Hp : rs_pc _ = _ |- _ => rewrite Hp in Hpc end; try done.
    split; [done|]. left. cbn. set_solver.
  - destruct (task_step_fate _ _ H Hf) as [[Hr He]|(l1 & t0 & l2 & Hl & Hcase)].
    { rewrite Hr, He. by split; [|left]. }
    rewrite Hl in Ht. apply elem_of_app in Ht.
    destruct Hcase as [(t' & Hr & Hj & Hsh & Hst & He)|(Hst & Hr & He & Hfin & Hsem)]; rewrite Hr, He.
    + split; [set_solver|]. destruct Ht as [Ht|[->|Ht]%elem_of_cons]; [left; set_solver| |left; set_solver].
      right. left. exists t'. split_and!; try done; [set_solver|]. intros ->. set_solver.
    + split; [done|]. destruct Ht as [Ht|[->|Ht]%elem_of_cons]; [left; set_solver| |left; set_solver].
      right. right. split_and!; try done. lia.
Qed.

(** The loop waits at a job until it spawns its task. *)
Lemma loop_dispatch x y j js :
  loop_step x y → rs_pc x.2 = Dispatch (j :: js) →
  looping (rs_pc y.2) = false ∨ (rs_pc y.2 = Dispatch js ∧ new_task j ∈ rs_running y.2).
Proof.
  intros H Hpc. destruct H as [| | | | | | | |w w' s j0 js0 Hp| | | | | | | | |]; cbn [snd] in *; try congruence; [|by left].
  right. rewrite Hp in Hpc. injection Hpc as -> ->.
  cbn. split; [done|set_solver].
Qed.

Lemma step_dispatch x y j js :
  open_step x y → rs_pc x.2 = Dispatch (j :: js) → sem_inv x.2 →
  looping (rs_pc y.2) = false ∨ (rs_pc y.2 = Dispatch js ∧ new_task j ∈ rs_running y.2) ∨
  (rs_pc y.2 = Dispatch (j :: js) ∧ (0 < semaphore x.2 → 0 < semaphore y.2)).
Proof.
  intros H Hpc (H0 & _ & Hact).
  assert (Forall (λ t, jt_cancelled t = false) (rs_running x.2)) as Hf by (apply Hact; by rewrite Hpc).
  destruct H as [x y [x' y' H|x' y' H|w s Hs]|x y []|]; cbn [snd] in *; try (by right; right).
  - destruct (loop_dispatch _ _ _ _ H Hpc) as [?|?]; [by left|by right; left].
  - right. right. clear Hact Hf. destruct H; cbn [snd] in *; try done. cbn. split; [done|lia].
Qed.

(** ** Fair runs *)

(** What is true of every reachable worker: the slots add up, bodies are finite. *)
Definition sound_worker (s : runner E) : Prop :=
  sem_inv s ∧ Forall (λ t, turns_le (jt_code t) 15) (rs_running s).

Lemma new_sound : 0 ≤ max_concurrency c → sound_worker new_runner.
Proof. intros H. split; [by apply new_sem|by constructor]. Qed.

Lemma step_sound x y : open_step x y → sound_worker x.2 → sound_worker y.2.
Proof.
  intros H [Hs Ht]. split; [by eapply step_sem|].
  by eapply (step_codes c _ _ _ (turns_lasting 15) (process_turns c)).
Qed.

Lemma reach_sound w w' s :
  0 ≤ max_concurrency c → rtc open_step (w, new_runner) (w', s) → sound_worker s.
Proof.
  intros Hc H. change (sound_worker (w', s).2).
  assert (sound_worker (w, new_runner).2) as Hn by (by apply new_sound).
  revert Hn. induction H; eauto using step_sound.
Qed.

Lemma killed_sound x y : killed x y → sound_worker x.2 → sound_worker y.2.
Proof.
  intros (Hpc & Hr & Hs) [(H0 & Hle & _) _]. unfold sound_worker, Runner.sem_inv. rewrite Hpc, Hr, Hs.
  split; [|constructor]. split_and!; [done|simpl; lia|done].
Qed.

Section Trace.
Variable σ : trace.
Hypothesis slots : 0 < max_concurrency c.
Hypothesis is_fair : fair σ.
Hypothesis sound : sound_worker (σ 0%nat).2.

#[local] Abbreviation st n := ((σ n).2).
Definition interrupted (n : nat) : Prop := looping (rs_pc (st n)) = false.

Lemma trace_sound n : sound_worker (st n).
Proof.
  induction n as [|n IH]; [done|]. destruct (fair_steps σ is_fair n) as [H|H];
    [by eapply step_sound|by eapply killed_sound].
Qed.

Lemma trace_sem n : sem_inv (st n).
Proof. apply trace_sound. Qed.

Lemma task_measure n t : t ∈ rs_running (st n) → ∃ k, task_left t k.
Proof.
  intros Ht. pose proof (trace_sound n) as [_ Hf]. rewrite Forall_forall in Hf. specialize (Hf t Ht).
  destruct (jt_started t) eqn:Hst; [exists 17%nat; by apply (left_started _ 15)|exists 18%nat; by apply left_new].
Qed.

(** Until something happens to it, a task stays where it is. *)
Lemma task_moves n t :
  t ∈ rs_running (st n) →
  ∃ m, (n ≤ m)%nat ∧
    (interrupted m ∨
     rs_executed (st n) ⊆ rs_executed (st m) ∧
     ((∃ t', t' ∈ rs_running (st m) ∧ jt_job t' = jt_job t ∧ shorter t t' ∧ jt_started t' = true ∧
             (jt_started t = false → jt_job t ∈ rs_executed (st m))) ∨
      jt_started t = true ∧ jt_job t ∈ rs_finished (st m) ∧ 0 < semaphore (st m))).
Proof.
  intros Ht. destruct (fair_tasks σ is_fair n t Ht) as (m & Hle & Hout).
  replace m with (n + (m - n))%nat in Hout by lia. revert Hout. generalize (m - n)%nat as d. clear m Hle.
  assert (∀ d, (∃ m, (n ≤ m)%nat ∧ (interrupted m ∨
     rs_executed (st n) ⊆ rs_executed (st m) ∧
     ((∃ t', t' ∈ rs_running (st m) ∧ jt_job t' = jt_job t ∧ shorter t t' ∧ jt_started t' = true ∧
             (jt_started t = false → jt_job t ∈ rs_executed (st m))) ∨
      jt_started t = true ∧ jt_job t ∈ rs_finished (st m) ∧ 0 < semaphore (st m)))) ∨
    t ∈ rs_running (st (n + d)) ∧ rs_executed (st n) ⊆ rs_executed (st (n + d))) as Hwalk.
  { intros d. induction d as [|d [IH|[IH He]]]; [right; rewrite Nat.add_0_r; done|by left|].
    destruct (looping (rs_pc (st (n + d)))) eqn:Hpc; [|left; exists (n + d)%nat; split; [lia|by left]].
    replace (n + S d)%nat with (S (n + d)) by lia.
    destruct (fair_steps σ is_fair (n + d)) as [Hstep|(Hk & _)];
      [|left; exists (S (n + d)); split; [lia|left; unfold interrupted; by rewrite Hk]].
    destruct (step_fate _ _ t Hstep (trace_sem _) Hpc IH) as [He' Hcase].
    destruct Hcase as [?|Hcase]; [right; split; [done|by etrans]|left].
    exists (S (n + d)). split; [lia|]. right. split; [by etrans|]. exact Hcase. }
  intros d Hout. destruct (Hwalk d) as [?|[? _]]; [done|contradiction].
Qed.

(** Every task runs to its end, and frees its slot. *)
Lemma task_ends_up n t :
  t ∈ rs_running (st n) →
  ∃ m, (n ≤ m)%nat ∧
    (interrupted m ∨ rs_executed (st n) ⊆ rs_executed (st m) ∧ jt_job t ∈ rs_finished (st m) ∧
                     (jt_started t = false → jt_job t ∈ rs_executed (st m)) ∧ 0 < semaphore (st m)).
Proof.
  intros Ht. destruct (task_measure n t Ht) as [k Hk]. revert n t Ht Hk.
  induction (lt_wf k) as [k _ IH]; intros n t Ht Hk.
  destruct (task_moves n t Ht) as (m & Hle & [Hi|[He [(t' & Ht' & Hj & Hsh & Hst & Hex)|(Hst & Hfin & Hsem)]]]).
  - exists m. by split; [|left].
  - destruct (Hsh k Hk) as (k' & Hk' & Hlt).
    destruct (IH k' Hlt m t' Ht' Hk') as (m' & Hle' & [Hi|(He' & Hfin & _ & Hsem)]).
    + exists m'. split; [lia|by left].
    + exists m'. split; [lia|]. right. rewrite Hj in Hfin. split_and!; [by etrans|done| |done].
      intros Hns. apply He', Hex, Hns.
  - exists m. split; [done|]. right. split_and!; try done. intros Hns. congruence.
Qed.

(** What happens to a loop that is at [j]. *)
Definition spawned_at (j : delivery) (js : list delivery) (m : nat) : Prop :=
  rs_pc (st m) = Dispatch js ∧ new_task j ∈ rs_running (st m).

Lemma dispatch_waits n j js d :
  rs_pc (st n) = Dispatch (j :: js) →
  (∃ m, (n ≤ m)%nat ∧ (interrupted m ∨ spawned_at j js m)) ∨
  rs_pc (st (n + d)) = Dispatch (j :: js) ∧ (0 < semaphore (st n) → 0 < semaphore (st (n + d))).
Proof.
  intros Hpc. induction d as [|d [IH|[IH Hsem]]]; [right; by rewrite Nat.add_0_r|by left|].
  replace (n + S d)%nat with (S (n + d)) by lia.
  destruct (fair_steps σ is_fair (n + d)) as [Hstep|(Hk & _)];
    [|left; exists (S (n + d)); split; [lia|left; unfold interrupted; by rewrite Hk]].
  destruct (step_dispatch _ _ j js Hstep IH (trace_sem _)) as [Hi|[Hs|[Hp Hs]]].
  - left. exists (S (n + d)). split; [lia|by left].
  - left. exists (S (n + d)). split; [lia|by right].
  - right. split; [done|]. auto.
Qed.

Lemma spawns_next n j js :
  rs_pc (st n) = Dispatch (j :: js) → ∃ m, (n ≤ m)%nat ∧ (interrupted m ∨ spawned_at j js m).
Proof.
  intros Hpc.
  assert (∃ m, (n ≤ m)%nat ∧ (interrupted m ∨ spawned_at j js m ∨
    rs_pc (st m) = Dispatch (j :: js) ∧ 0 < semaphore (st m))) as (n1 & Hle1 & Hslot).
  { destruct (trace_sem n) as (H0 & _ & Hact). rewrite Hpc in Hact. destruct (Hact eq_refl) as [Heq _].
    destruct (rs_running (st n)) as [|t l] eqn:Hr; [exists n; split; [done|]; right; right; split; [done|]; simpl in *; lia|].
    destruct (task_ends_up n t) as (m & Hle & [Hi|(_ & _ & _ & Hsem)]); [rewrite Hr; by left|exists m; by split; [|left]|].
    destruct (dispatch_waits n j js (m - n) Hpc) as [(m' & Hle' & [Hi|Hs])|[Hp _]];
      [exists m'; by split; [|left]|exists m'; by split; [|right; left]|].
    replace (n + (m - n))%nat with m in Hp by lia. exists m. split; [done|]. by right; right. }
  destruct Hslot as [?|[?|[Hpc1 Hsem]]]; [exists n1; by split; [|left]|exists n1; by split; [|right]|].
  destruct (fair_loop σ is_fair n1) as (m & Hle & Hstep).
  destruct (dispatch_waits n1 j js (m - n1) Hpc1) as [(m' & Hle' & H)|[Hp Hs]]; [exists m'; split; [lia|done]|].
  replace (n1 + (m - n1))%nat with m in * by lia. specialize (Hs Hsem).
  destruct Hstep as [Hr|Hstep].
  - unfold ready in Hr. rewrite Hp in Hr. lia.
  - exists (S m). split; [lia|]. exact (loop_dispatch _ _ j js Hstep Hp).
Qed.

Lemma spawns_all n j js1 js2 :
  rs_pc (st n) = Dispatch (js1 ++ j :: js2) → ∃ m, (n ≤ m)%nat ∧ (interrupted m ∨ new_task j ∈ rs_running (st m)).
Proof.
  revert n. induction js1 as [|j1 js1 IH]; intros n Hpc.
  - destruct (spawns_next n j js2 Hpc) as (m & Hle & [?|[_ ?]]); exists m; (split; [done|]); [by left|by right].
  - destruct (spawns_next n j1 _ Hpc) as (m & Hle & [?|[Hp _]]); [exists m; by split; [|left]|].
    destruct (IH m Hp) as (m' & Hle' & H). exists m'. split; [lia|done].
Qed.

Lemma batch_runs_up n j :
  j ∈ batch_of (st n) →
  ∃ m, (n ≤ m)%nat ∧ (interrupted m ∨ j ∈ rs_executed (st m) ∧ j ∈ rs_finished (st m)).
Proof.
  unfold batch_of. intros Hj.
  destruct (rs_pc (st n)) as [| | | |js| | | | | |] eqn:Hpc; try (by apply not_elem_of_nil in Hj).
  apply list_elem_of_split in Hj as (js1 & js2 & ->).
  destruct (spawns_all n j js1 js2 Hpc) as (m & Hle & [Hi|Ht]); [exists m; by split; [|left]|].
  destruct (task_ends_up m _ Ht) as (m' & Hle' & [Hi|(_ & Hfin & Hex & _)]);
    exists m'; (split; [lia|]); [by left|right]. split; [by apply Hex|done].
Qed.

End Trace.

(** A fair worker runs every job it is given.  On a fair run of a worker with at least
    one slot, whatever the rest of the system does, every job of its batch is given to
    a task that is run to its end, unless the loop is interrupted; so a slot is always
    freed again, and no job of the batch waits for ever. *)
Theorem batch_is_run (σ : trace) w0 n j :
  0 < max_concurrency c → rtc open_step (w0, new_runner) (σ 0%nat) → fair σ → j ∈ batch_of (σ n).2 →
  ∃ m, (n ≤ m)%nat ∧
    (looping (rs_pc (σ m).2) = false ∨ j ∈ rs_executed (σ m).2 ∧ j ∈ rs_finished (σ m).2).
Proof.
  intros Hslots Hreach Hfair Hj. destruct (σ 0%nat) as [w s] eqn:H0.
  apply (batch_runs_up σ Hslots Hfair); [|done]. rewrite H0. cbn. eapply reach_sound; [lia|exact Hreach].
Qed.

End Fairness.

(** ** A run that ends is fair *)

(** A finite run, then an infinite one. *)
Lemma run_then {A} (step : relation A) x y (τ : nat → A) :
  rtc step x y → τ 0%nat = y → (∀ k, step (τ k) (τ (S k))) →
  ∃ (σ : nat → A) n, σ 0%nat = x ∧ (∀ k, step (σ k) (σ (S k))) ∧ ∀ k, σ (n + k)%nat = τ k.
Proof.
  intros H Hy Hτ. induction H as [x|x z y Hxz _ IH]; [by exists τ, 0%nat|].
  destruct (IH Hy) as (σ & n & H0 & Hs & Hend). exists (λ k, match k with O => x | S k => σ k end), (S n).
  split_and!; [done| |done]. intros [|k]; [by rewrite H0|apply Hs].
Qed.

Section Ends.
Context {R : Redis} {E : Type}.
Variable c : WorkerRunner E.

(** Nothing is left to be fair to. *)
Lemma ended_fair x y :
  rtc (open_step c) x y → rs_pc y.2 = Closed → rs_running y.2 = [] →
  ∃ σ, fair c σ ∧ σ 0%nat = x.
Proof.
  intros H Hpc Hr. destruct (run_then (open_step c) x y (λ _, y) H) as (σ & n & Hx & Hs & Hend); [done| |].
  { intros _. destruct y as [w s]. apply os_others. }
  assert (∀ k, (n ≤ k)%nat → σ k = y) as Hlast
    by (intros k Hk; replace k with (n + (k - n))%nat by lia; apply Hend).
  exists σ. split; [|done]. split; [by left| |].
  - intros k. exists (max n k). split; [lia|]. left. rewrite Hlast by lia. unfold ready. by rewrite Hpc.
  - intros k t Ht. exists (max n k). split; [lia|]. rewrite Hlast by lia. rewrite Hr. apply not_elem_of_nil.
Qed.
End Ends.

(** ** Witness *)

(** One slot, two jobs: the second waits for the first, both are run, then the loop is
    cancelled and the worker ends. *)
#[local] Abbreviation c1 := (worker1 returns).
Definition second_job : delivery := delivery_of (RS (u "1111-0")).
Definition fs1 : runner unit := task_ends [] (new_task c1 first_job) [] true (log_executed first_job (spawned1 returns)).
Definition fs2 : runner unit := spawn (new_task c1 second_job) [] fs1.
Definition fs3 : runner unit := task_ends [] (new_task c1 second_job) [] true (log_executed second_job fs2).
Definition fs4 : runner unit := cancel_all (set_pc Closed
  (set_pc Stopped (set_recovery NoRecovery (set_pc Draining (set_pc Finally fs3))))).
Definition fw1 : World unit := (_process_job c1 1 first_job (observed returns)).2.
Definition fw2 : World unit := run (observe_inflight c1 2) fw1.
Definition fw3 : World unit := (_process_job c1 2 second_job fw2).2.

Lemma tasks_open x y : rtc (task_step c1) x y → rtc (open_step c1) x y.
Proof. apply (rtc_congruence (λ x, x)). intros x' y' H. by apply os_worker, step_task. Qed.

Lemma first_runs : rtc (task_step c1) (observed returns, spawned1 returns) (fw1, fs1).
Proof. exact (task_runs c1 (observed returns) (spawned1 returns) [] first_job [] eq_refl). Qed.
Lemma second_runs : rtc (task_step c1) (fw2, fs2) (fw3, fs3).
Proof. exact (task_runs c1 fw2 fs2 [] second_job [] eq_refl). Qed.
Lemma second_spawned : loop_step c1 (fw1, fs1) (fw2, fs2).
Proof. apply (st_spawn c1 fw1 fw2 fs1 second_job []); reflexivity. Qed.

Lemma batch_runs : rtc (open_step c1) (observed returns, spawned1 returns) (fw3, fs4).
Proof.
  transitivity (fw1, fs1); [exact (tasks_open _ _ first_runs)|].
  apply (rtc_l _ _ (fw2, fs2)); [apply os_worker, step_loop, second_spawned|].
  transitivity (fw3, fs3); [exact (tasks_open _ _ second_runs)|].
  generalize fw3 as w. intros w.
  eapply rtc_l; [apply os_worker, step_loop; apply (st_cancel c1 w fs3 []); right; right; right; reflexivity|].
  eapply rtc_l; [apply os_worker, step_loop; apply (st_finally c1 w (set_pc Finally fs3)); reflexivity|].
  eapply rtc_l; [apply os_worker, step_loop;
    apply (st_drained c1 w (set_recovery NoRecovery (set_pc Draining (set_pc Finally fs3)))); reflexivity|].
  apply rtc_once, os_worker, step_loop. apply (st_close c1). reflexivity.
Qed.

Lemma batch_is_run_witness :
  batch_of (spawned1 returns) = [second_job] ∧ rs_executed fs4 = [first_job; second_job] ∧
  ∃ σ, fair c1 σ ∧ (σ 0%nat).2 = spawned1 returns ∧
    ∃ m, (0 ≤ m)%nat ∧ (looping (rs_pc (σ m).2) = false ∨
                        second_job ∈ rs_executed (σ m).2 ∧ second_job ∈ rs_finished (σ m).2).
Proof.
  split; [reflexivity|]. split; [reflexivity|].
  destruct (ended_fair c1 _ _ batch_runs) as (σ & Hfair & H0); [reflexivity|reflexivity|].
  exists σ. split; [exact Hfair|]. rewrite H0. split; [reflexivity|].
  apply (batch_is_run c1 σ two_jobs 0 second_job).
  - vm_compute. reflexivity.
  - rewrite H0. apply reaches_spawned.
  - exact Hfair.
  - rewrite H0. left.
Defined.
