(* ===== verification/Effects.v ===== *)
(** * What the components' code does to the queues

    Each command of the program either leaves the entries of every queue as they
    are and lets it evolve as [Evolution] says ([wquiet]), or is the XADD of an
    enqueue.  For the bodies that are awaited, [process_obeys] and [enqueue_obeys]
    follow the phases of a task (before and after the job is settled) and of an
    enqueue (before and after it passed the depth check). *)

From Stdlib Require Import String QArith.
From S2P Require Import Prelude PyStr Json Errors Coroutine Datetime Job Retry Redis RedisModel Transport SqliteStore Metrics World Scenario Delivery Enqueue Execute Admission Recover Evolution Shutdown Runner.
Open Scope list_scope.
Open Scope Z_scope.

Section Effects.
Context {R : Redis} {RS : RedisSpec R} {E : Type}.
Variable P : pystr.   (* the stream prefix *)

Definition wquiet (X : pystr → rval → Prop) (w w' : World E) : Prop :=
  quiet P X (view (w_redis w)) (view (w_redis w')).

#[export] Instance wquiet_refl X : Reflexive (wquiet X).
Proof. intros w. unfold wquiet. reflexivity. Qed.
#[export] Instance wquiet_trans X : Transitive (wquiet X).
Proof. intros w1 w2 w3 Ha Hb. unfold wquiet in *. by etrans. Qed.

(** A computation on the server that is quiet in every run. *)
Definition quietly {A} (X : pystr → rval → Prop) (m : M rstate A) : Prop :=
  ∀ s r s', m s = (r, s') → quiet P X (view s) (view s').

Lemma on_redis_quiet {A} X (m : M rstate A) :
  quietly X m → preserves (wquiet X) (on_redis m).
Proof.
  intros Hm w. destruct (on_redis m w) as [r w'] eqn:H.
  apply on_redis_inv in H as (s' & H & ->). by apply Hm in H.
Qed.

Lemma same_redis_quiet X (w w' : World E) : same_redis w w' → wquiet X w w'.
Proof. unfold same_redis, wquiet. intros ->. reflexivity. Qed.

Lemma quietly_bind_lift {A B} X (m : M rstate A) (k : A → result exn B) :
  quietly X m → quietly X (a ← m; lift (k a)).
Proof.
  intros Hm s r s' [(a & s1 & Ha & H)|(e & H & _)]%st_bind_inv; [|by eapply Hm].
  injection H as _ <-. by eapply Hm.
Qed.

Lemma preserves_run {S A} (Q : S → S → Prop) (m : M S A) s r s' :
  preserves Q m → m s = (r, s') → Q s s'.
Proof. intros Hm H. specialize (Hm s). by rewrite H in Hm. Qed.

(** ** Commands *)

Lemma ensure_group_quiet X q : quietly X (ensure_group P q).
Proof.
  intros s r s'. unfold ensure_group, try_except.
  destruct (xgroup_create _ _ _ _ s) as [x s1] eqn:Hx. apply xgroup_create_law in Hx.
  eapply (outcome_lift (quiet P X)) in Hx; [|intros; by eapply create_quiet].
  destruct x as [a|e]; [by intros [= _ <-]|].
  destruct (is_ResponseError e); [|by intros [= _ <-]].
  destruct (contains _ _); by intros [= _ <-].
Qed.

Lemma read_group_quiet X now q c count block : quietly X (read_group P now q c count block).
Proof.
  apply quietly_bind_lift. intros s r s' H%xreadgroup_law.
  eapply (outcome_lift (quiet P X)); [|exact H]. intros. by eapply read_quiet.
Qed.

Lemma xack_quiet q id : quietly (only q id) (transport_xack P q id).
Proof.
  intros s r s' H%xack_law. eapply (outcome_lift (quiet P _)); [|exact H].
  intros. by eapply ack_quiet.
Qed.

(** The dead-letter stream of a queue is the stream of no queue. *)
Lemma xadd_dlq_quiet X q job reason : quietly X (xadd_dlq P q job reason).
Proof.
  intros s r s' [(d & s1 & Hd & H)|(e & Hd & _)]%st_bind_inv; injection Hd as _ <-; [|reflexivity].
  apply xadd_law in H. eapply (outcome_lift (quiet P X)); [|exact H]. intros a v1 He.
  apply (quiet_elsewhere _ _ (_dlq_key P q)); [intros; apply stream_ne_dlq|].
  intros k' Hk. by eapply xadd_eff_other in He as [? _]; [|apply not_eq_sym, Hk].
Qed.

Lemma delete_dlq_quiet X q id : quietly X (delete_dlq_entry P q id).
Proof.
  intros s r s' [(d & s1 & H & Hr)|(e & H & _)]%st_bind_inv; [injection Hr as _ <-|];
    apply xdel_law in H; (eapply (outcome_lift (quiet P X)); [|exact H]); intros a v1 He;
    (apply (quiet_elsewhere _ _ (_dlq_key P q)); [intros; apply stream_ne_dlq|]);
    intros k' Hk; unfold xdel_eff in He;
    (destruct (view s !! _dlq_key P q); destruct He as [_ ->]; [|done]);
    by rewrite stream_of_insert_ne by (by apply not_eq_sym).
Qed.

(** ** Admission, polling and recovery *)

Lemma same_view_quiet X (w w' : World E) :
  view (w_redis w') = view (w_redis w) → wquiet X w w'.
Proof. unfold wquiet. intros ->. reflexivity. Qed.

Lemma claims_world_quiet X (w w' : World E) :
  claims_only (view (w_redis w)) (view (w_redis w')) → wquiet X w w'.
Proof. intros H. apply (quiet_mono _ nothing); [done|]. by apply claims_quiet. Qed.

Lemma claim_stale_quiet rw q X : preserves (wquiet X) (_claim_stale (E := E) rw q).
Proof. intros w. by apply claims_world_quiet, claim_stale_claims. Qed.

Lemma recover_quiet rw queues X : preserves (wquiet X) (recover_round (E := E) rw queues).
Proof. intros w. by apply claims_world_quiet, round_claims. Qed.

Lemma admission_quiet (c : WorkerRunner E) X : preserves (wquiet X) (admission_check c).
Proof.
  unfold admission_check. destruct (wr_admission c) as [a|]; [|apply preserves_mret; apply _].
  apply preserves_except_Exception; [apply _..| |intros; apply preserves_mret; apply _].
  apply preserves_bind; [apply _| |intros; apply preserves_mret; apply _].
  intros w. destruct (check a (wr_queue c) w) as [r w'] eqn:H. apply check_run in H as [Hv _].
  by apply same_view_quiet.
Qed.

Lemma read_jobs_quiet (c : WorkerRunner E) X :
  wr_prefix c = P → preserves (wquiet X) (read_jobs c).
Proof.
  intros Hp. apply preserves_except_Exception; [apply _..| |intros; apply preserves_mret; apply _].
  apply preserves_bind; [apply _| |intros; apply preserves_mret; apply _].
  intros w. unfold on_redis_now. rewrite Hp.
  by apply (on_redis_quiet X (read_group P (w_now w) (wr_queue c) (worker_id c)
                                (poll_batch c) (poll_timeout c)) (read_group_quiet _ _ _ _ _ _)).
Qed.

Lemma recover_once_quiet (c : WorkerRunner E) X : preserves (wquiet X) (recover_once c).
Proof.
  unfold recover_once. destruct (wr_recovery c); [apply recover_quiet|apply preserves_mret; apply _].
Qed.

(** ** Executions *)

Lemma mark_same ex id st a : preserves same_redis (mark (E := E) ex id st a).
Proof. intros w. destruct (mark_run ex id st a w) as [d Hd]. by rewrite Hd. Qed.

Section Obeys.
Context {Ph : Type} {await_ok : Ph → ∀ X : Type, M (World E) X → World E → result exn X → World E → Ph → Prop}.
Abbreviation obeys := (obeys same_redis await_ok).

Lemma obeys_ret {A} p (r : result exn A) : obeys p (CoRet r).
Proof. done. Qed.

(** A wrapper that does the same whatever phase the body ends in. *)
Lemma obeys_then {A B} p (t : coroutine (World E) A) (f : result exn A → coroutine (World E) B) :
  obeys p t → (∀ p' r, obeys p' (f r)) → obeys p (co_then t f).
Proof.
  intros Ht Hf. revert p Ht. induction t as [r|X m k IH|X m k IH]; intros p; cbn [co_then Coroutine.obeys].
  - intros _. apply Hf.
  - intros [H Hc]. split; [|by apply IH]. intros s r s' Hm. destruct (H s r s' Hm). split; [done|].
    by apply IH.
  - intros [H Hc]. split; [|by apply IH]. intros s r s' Hm. destruct (H s r s' Hm) as (p' & ? & ? & ?).
    exists p'. split; [done|]. split; by apply IH.
Qed.

Lemma obeys_await {A X} p (m : M (World E) X) (f : X → coroutine (World E) A) :
  (∀ w r w', m w = (r, w') → ∃ p', await_ok p X m w r w' p' ∧
     match r with Ok a => obeys p' (f a) | Raise _ => True end) →
  obeys p (co_await m ≫= f).
Proof.
  intros H. split; [|done]. intros w r w' Hm. destruct (H w r w' Hm) as (p' & Ha & Hr).
  exists p'. split; [done|]. by destruct r.
Qed.
End Obeys.

(** ** Tasks *)

(** Whether the job's fate is decided. *)
Inductive phase : Type := Open | Settled.

(** This step is the handler's, which returned; or it is the dead-letter write for the
    job, which its handler had failed, and the job came to stand on the dead-letter
    stream with one more attempt. *)
Definition settles_now (c : WorkerRunner E) (j : delivery) (w w' : World E) : Prop :=
  let ex := wr_executor c in
  (∃ o job', run_handler (wr_handler c) j.2 (job_timeout ex) w = (Ok (o, job'), w') ∧
             block_raises o = None) ∨
  ∃ env o job' env' dt exc n id,
    wr_handler c env j.2 (job_timeout ex) = (o, job', env', dt) ∧ block_raises o = Some exc ∧
    py_add_int (job_attempts job') 1 = Ok n ∧
    on_redis (xadd_dlq P (wr_queue c) (set_attempts n job') (failure_reason (failure_of ex job' exc))) w
      = (Ok id, w') ∧
    dead_lettered P (view (w_redis w')) (wr_queue c) (set_attempts n job')
                  (failure_reason (failure_of ex job' exc)).

(** The commands of a task: only a settled job's entry may stop being pending. *)
Definition task_await (c : WorkerRunner E) (j : delivery) (p : phase) (X : Type)
    (m : M (World E) X) (w : World E) (r : result exn X) (w' : World E) (p' : phase) : Prop :=
  wquiet (λ q i, p = Settled ∧ q = wr_queue c ∧ i = j.1.2) w w' ∧
  (p' = Settled → p = Settled ∨ settles_now c j w w').

Abbreviation task_obeys c j := (obeys same_redis (task_await c j)).

Lemma obeys_mark {A} c j p ex id st a (f : unit → coroutine (World E) A) :
  (∀ x, task_obeys c j p (f x)) → task_obeys c j p (co_sync (mark ex id st a) ≫= f).
Proof. apply obeys_sync, mark_same. Qed.

Lemma obeys_metric {A} c j p g (f : unit → coroutine (World E) A) :
  (∀ x, task_obeys c j p (f x)) → task_obeys c j p (co_sync (metric g) ≫= f).
Proof. apply obeys_sync, metric_same_redis. Qed.

Lemma obeys_pure {A B} c j p (m : M (World E) A) (f : A → coroutine (World E) B) :
  (∀ w, (m w).2 = w) → (∀ x, task_obeys c j p (f x)) → task_obeys c j p (co_sync m ≫= f).
Proof. intros Hm. apply obeys_sync. intros w. by rewrite Hm. Qed.

(** The XACK of a settled job. *)
Lemma obeys_ack {A} (c : WorkerRunner E) j (g : Z → coroutine (World E) A) :
  wr_prefix c = P → (∀ x, task_obeys c j Settled (g x)) →
  task_obeys c j Settled
    (co_await (on_redis (transport_xack (ex_prefix (wr_executor c)) (wr_queue c) j.1.2)) ≫= g).
Proof.
  intros Hp Hg. apply obeys_await. intros w r w' H. exists Settled. split; [|by destruct r].
  split; [|by left]. unfold wr_prefix in Hp. rewrite Hp in H.
  apply (preserves_run (wquiet (only (wr_queue c) j.1.2))) in H; [|apply on_redis_quiet, xack_quiet].
  eapply quiet_mono; [|exact H]. by intros q i [-> ->].
Qed.

Lemma failure_obeys (c : WorkerRunner E) j env o job' env' dt exc :
  wr_prefix c = P →
  wr_handler c env j.2 (job_timeout (wr_executor c)) = (o, job', env', dt) → block_raises o = Some exc →
  task_obeys c j Open (_handle_failure_co (wr_executor c) (wr_queue c) j.1.2 job'
                         (failure_of (wr_executor c) job' exc)).
Proof.
  intros Hp Hh Ho. unfold _handle_failure_co.
  destruct (py_add_int (job_attempts job') 1) as [n|e] eqn:Hn.
  2: { split; [|done]. intros w r w' [= <- <-]. split; [reflexivity|]. done. }
  split; [|done]. intros w r w' [= <- <-]. split; [reflexivity|].
  apply obeys_metric. intros _. apply obeys_pure; [done|]. intros [|].
  - apply obeys_then; [|intros p' [[]|e]; [apply obeys_mark; intros []; apply obeys_ret|done]].
    apply obeys_then; [|intros p' [[]|e]; [done|destruct (is_Exception e); done]].
    apply obeys_await. intros w1 r w2 H.
    assert (wquiet (λ q i, Open = Settled ∧ q = wr_queue c ∧ i = j.1.2) w1 w2) as Hq.
    { unfold wr_prefix in Hp. rewrite Hp in H. eapply preserves_run; [|exact H].
      apply on_redis_quiet, xadd_dlq_quiet. }
    destruct r as [i|e]; [|by exists Open].
    exists Settled. split.
    + split; [done|]. intros _. right. right. exists env, o, job', env', dt, exc, n, i.
      unfold wr_prefix in Hp. rewrite <- Hp. split_and!; [done..|]. apply on_redis_inv in H as (s' & H & ->).
      apply xadd_dlq_run in H as [_ H]. by apply H.
    + apply obeys_ack; [done|]. intros _. split; [|done]. intros w3 r w4 [= <- <-]. by split.
  - apply obeys_pure; [done|]. intros draw. apply obeys_pure; [done|]. intros d.
    apply obeys_mark. intros []. apply obeys_ret.
Qed.

Lemma process_obeys (c : WorkerRunner E) j :
  wr_prefix c = P → task_obeys c j Open (process_co c j).
Proof.
  intros Hp. unfold process_co.
  apply obeys_then; [|intros p' [[]|e]; [done|by destruct (is_Exception e)]].
  apply obeys_then; [|by intros p' [?|e]].
  unfold execute_co. apply obeys_mark. intros []. apply obeys_pure; [done|]. intros start.
  apply obeys_await. intros w r w' H. unfold run_handler in H.
  destruct (wr_handler c (w_env w) j.2 (job_timeout (wr_executor c))) as [[[o job'] env'] dt] eqn:Hh.
  injection H as <- <-. unfold after_handler_co. destruct (block_raises o) as [exc|] eqn:Ho.
  - exists Open. split; [split; [apply same_redis_quiet; done|done]|].
    destruct (is_Exception exc); [|done].
    apply obeys_pure; [done|]. intros stop. apply obeys_metric. intros [].
    by eapply failure_obeys.
  - exists Settled. split.
    { split; [by apply same_redis_quiet|]. intros _. right. left. exists o, job'.
      split; [|done]. unfold run_handler. by rewrite Hh. }
    apply obeys_pure; [done|]. intros stop. apply obeys_metric. intros [].
    apply obeys_then; [|intros p' [[]|e]; [|done]].
    + apply obeys_then; [|intros p' [[]|e]; [done|by destruct (is_Exception e)]].
      by apply obeys_ack.
    + apply obeys_mark. intros []. apply obeys_metric. by intros [].
Qed.

(** ** Enqueues *)

Section Enqueues.
Variable D : Z.   (* max_queue_depth *)

Definition depth (w : World E) (q : pystr) : Z :=
  Z.of_nat (length (s_entries (qstream P (view (w_redis w)) q))).

(** The commands of an enqueue to [q]; the flag says that the depth check passed. *)
Definition enqueue_await (q : pystr) (committed : bool) (X : Type) (m : M (World E) X)
    (w : World E) (r : result exn X) (w' : World E) (committed' : bool) : Prop :=
  if committed then
    committed' = false ∧ (depth w q < D + 1000 → evolves P nothing (view (w_redis w)) (view (w_redis w'))) ∧
    ∀ q', depth w' q' ≤ depth w q' + (if decide (q' = q) then 1 else 0)
  else view (w_redis w') = view (w_redis w) ∧ (committed' = true → depth w q < D).

Abbreviation enqueue_obeys_at q := (obeys same_redis (enqueue_await q)).

Lemma check_key_same e key : preserves same_redis (check_key (E := E) e key).
Proof.
  unfold check_key. destruct (truthy_key key) as [k|]; [|apply preserves_mret; apply _].
  destruct (enq_store e) as [conn|]; [|apply preserves_mret; apply _].
  apply preserves_bind; [apply _|apply on_store_same_redis|].
  intros [j|]; [apply preserves_throw|apply preserves_mret]; apply _.
Qed.

Lemma write_outbox_same e job : preserves same_redis (write_outbox (E := E) e job).
Proof.
  unfold write_outbox. destruct (enq_store e); [apply on_store_same_redis|].
  apply preserves_mret. apply _.
Qed.

(** One XADD: an entry more on its queue at most, and nothing trimmed while the
    queue is shorter than [maxlen]. *)
Lemma xadd_effect q job w r w' :
  on_redis (transport_xadd P q job (D + 1000) true) w = (r, w') →
  (depth w q < D + 1000 → evolves P nothing (view (w_redis w)) (view (w_redis w'))) ∧
  ∀ q', depth w' q' ≤ depth w q' + (if decide (q' = q) then 1 else 0).
Proof.
  intros (s' & H & ->)%on_redis_inv. unfold transport_xadd, lift, mbind, st_mbind in H.
  assert (∀ w1 : World E, view (w_redis w1) = view (w_redis w) →
    (depth w q < D + 1000 → evolves P nothing (view (w_redis w)) (view (w_redis w1))) ∧
    ∀ q', depth w1 q' ≤ depth w q' + (if decide (q' = q) then 1 else 0)) as Hsame.
  { intros w1 Hv. unfold depth. rewrite Hv. split; [intros; reflexivity|]. intros q'.
    destruct (decide (q' = q)); lia. }
  destruct (job_body job) as [body|e]; [|injection H as <- <-; by apply Hsame].
  apply xadd_law in H. cbn [with_redis w_redis].
  assert (∀ id v', xadd_eff (_stream_key P q) body (maxlen_option (D + 1000) true) (view (w_redis w)) id v' →
    (depth w q < D + 1000 → evolves P nothing (view (w_redis w)) v') ∧
    ∀ q', Z.of_nat (length (s_entries (qstream P v' q'))) ≤ depth w q' + (if decide (q' = q) then 1 else 0))
    as Heff.
  { intros id v' He. split.
    - intros Hd. eapply xadd_evolves; [exact He|]. unfold maxlen_option.
      destruct (Z.eqb_spec (D + 1000) 0); [done|]. exact Hd.
    - intros q'. destruct (decide (q' = q)) as [->|Hne].
      + apply xadd_eff_grows in He. unfold depth, qstream. lia.
      + eapply (xadd_eff_other _ _ _ _ _ _ (_stream_key P q')) in He as [He _];
          [|by intros ?%stream_key_inj].
        unfold qstream. rewrite He. unfold depth, qstream. lia. }
  destruct r as [id|e]; cbn in H; [by apply (Heff id)|].
  destruct H as [H|(id & H)]; [by apply (Hsame (with_redis s' w))|by apply (Heff id)].
Qed.

Lemma enqueue_obeys e job key validate :
  enq_prefix e = P → max_queue_depth e = D →
  enqueue_obeys_at (py_str (job_queue job)) false (enqueue_co e job key validate).
Proof.
  intros Hp HD. unfold enqueue_co. set (q := py_str (job_queue job)).
  assert (enqueue_obeys_at q false
    (depth ← co_await (on_redis (stream_length (enq_prefix e) q));
     _ ← (if max_queue_depth e <=? depth
          then co_throw (QueueFull (job_queue job) depth (max_queue_depth e)) else mret tt);
     _ ← co_sync (check_key e key);
     _ ← co_sync (write_outbox e (keyed key job));
     co_await (on_redis (transport_xadd (enq_prefix e) (py_str (job_queue (keyed key job)))
                                        (keyed key job) (max_queue_depth e + 1000) true)))) as Hbody.
  { apply obeys_await. intros w r w' H. apply on_redis_inv in H as (s' & Hx & ->).
    rewrite Hp in Hx. apply xlen_law in Hx.
    destruct r as [n|exc]; [|exists false; split; [|done]; split; [|done];
                             cbn in Hx; by destruct Hx as [?|(? & _ & ?)]].
    destruct Hx as [Hn Hv]. destruct (Z.leb_spec (max_queue_depth e) n) as [Hle|Hlt].
    { exists false. by split. }
    exists true. split; [split; [done|]|].
    { intros _. unfold depth, qstream. lia. }
    apply obeys_sync; [apply check_key_same|]. intros _.
    apply obeys_sync; [apply write_outbox_same|]. intros _.
    split; [|done]. intros w1 r w2 H. exists false. rewrite Hp, HD, keyed_queue in H.
    split; [|done]. split; [done|]. by apply xadd_effect in H. }
  destruct validate as [v|]; [|exact Hbody].
  apply obeys_sync; [|done]. by intros w.
Qed.
End Enqueues.

End Effects.
