(* ===== verification/EntryPoint.v ===== *)
(** * The deployed worker: [run_worker.py]

    [main] builds the components from the environment and runs the loop of
    [Runner].  The model has its configuration, the no-op handler, and the steps
    the process can take: nothing in it calls [shutdown.request()], so the step
    relation is that of [Runner] without the request.  What the configuration
    leaves out (recovery, admission, outbox, retries) is what the theorem shows
    the process never does. *)

From Stdlib Require Import String QArith.
From stdpp Require Import relations.
From S2P Require Import Prelude PyStr Json Errors Coroutine Datetime Job Retry Redis RedisModel Transport SqliteStore Metrics World Scenario Delivery Execute Admission Recover Evolution Shutdown Runner Effects.
Open Scope list_scope.
Open Scope Z_scope.

(** [os.getenv("REDIS_URL", ...)] *)
Definition redis_url (getenv : option pystr) : pystr :=
  default (u "redis://localhost:6379/0") getenv.

Section EntryPoint.
Context {R : Redis} {RS : RedisSpec R} {E : Type}.

(** The no-op handler: it logs the job and returns, without suspending. *)
Definition handler : handler_fun (E := E) := fun env job deadline => (HDone, job, env, 0%Q).

(** [Executor(transport=..., clock=..., metrics=...)]: no outbox, the defaults. *)
Definition docker_executor : Executor :=
  mkExecutor (u "relayq") (u "relayq") default_policy None 300.

(** [WorkerRunner(...)]: no admission control, no recovery, the defaults. *)
Definition docker_worker : WorkerRunner E :=
  mkWorker E docker_executor (u "docker-worker") (u "default") handler None None 10 2000 1.

(** [main]: the client [redis.from_url] gives for the URL, and the worker's state
    when [run] starts. *)
Definition main {C : Type} (from_url : pystr → result exn C) (getenv : option pystr)
    : result exn (C * runner E) :=
  r ← from_url (redis_url getenv); mret (r, new_runner docker_worker).

(** The steps of the process and of the rest of the system. *)
Inductive deployed_step : World E * runner E → World E * runner E → Prop :=
| dep_loop x y : loop_step docker_worker x y → deployed_step x y
| dep_task x y : task_step docker_worker x y → deployed_step x y
| dep_recovery x y : recovery_step docker_worker x y → deployed_step x y.

Inductive system_step : World E * runner E → World E * runner E → Prop :=
| sys_process x y : deployed_step x y → system_step x y
| sys_others w w' s : system_step (w, s) (w', s).

(** ** What its commands do to the streams *)

(** No entry is written to a stream, trimmed or deleted. *)
Definition keeps_streams (v v' : server) : Prop :=
  ∀ k, s_entries (stream_of v' k) = s_entries (stream_of v k).
Definition keeps_entries (w w' : World E) : Prop :=
  keeps_streams (view (w_redis w)) (view (w_redis w')).

#[local] Instance keeps_streams_refl : Reflexive keeps_streams.
Proof. by intros v k. Qed.
#[local] Instance keeps_streams_trans : Transitive keeps_streams.
Proof. intros v1 v2 v3 H1 H2 k. by rewrite H2, H1. Qed.
#[local] Instance keeps_entries_refl : Reflexive keeps_entries.
Proof. intros w. unfold keeps_entries. reflexivity. Qed.
#[local] Instance keeps_entries_trans : Transitive keeps_entries.
Proof. intros w1 w2 w3. unfold keeps_entries. apply transitivity. Qed.

Lemma on_redis_keeps {A} (m : M rstate A) :
  (∀ s r s', m s = (r, s') → keeps_streams (view s) (view s')) → preserves keeps_entries (on_redis m).
Proof.
  intros Hm w. destruct (on_redis m w) as [r w'] eqn:H.
  apply on_redis_inv in H as (s' & H & ->). by apply Hm in H.
Qed.

Lemma ensure_group_keeps p q s r s' :
  ensure_group p q s = (r, s') → keeps_streams (view s) (view s').
Proof.
  unfold ensure_group, try_except.
  destruct (xgroup_create _ _ _ _ s) as [x s1] eqn:Hx. apply xgroup_create_law in Hx.
  assert (keeps_streams (view s) (view s1)) as Hk.
  { eapply outcome_lift; [apply _| |exact Hx]. intros [] v [_ ->] k.
    destruct (decide (k = _stream_key p q)) as [->|Hk].
    - by rewrite stream_of_insert.
    - by rewrite stream_of_insert_ne by (by apply not_eq_sym). }
  destruct x as [a|e]; [by intros [= _ <-]|].
  destruct (is_ResponseError e); [|by intros [= _ <-]].
  destruct (contains _ _); by intros [= _ <-].
Qed.

Lemma read_group_keeps p now q c count block s r s' :
  read_group p now q c count block s = (r, s') → keeps_streams (view s) (view s').
Proof.
  intros H. assert (∃ x, xreadgroup (_group_key p q) (_consumer_name c)
                            [(_stream_key p q, u ">")] count block s = (x, s')) as [x Hx].
  { apply st_bind_inv in H as [(l & s1 & Hx & H)|(e & Hx & _)]; [injection H as _ <-|]; eauto. }
  apply xreadgroup_law in Hx. eapply outcome_lift; [apply _| |exact Hx].
  intros l v (st & g & _ & _ & _ & ->) k. apply set_group_entries.
Qed.

Lemma read_jobs_keeps : preserves keeps_entries (read_jobs docker_worker).
Proof.
  apply preserves_except_Exception; [apply _..| |intros; apply preserves_mret; apply _].
  apply preserves_bind; [apply _| |intros; apply preserves_mret; apply _].
  intros w. unfold on_redis_now. apply on_redis_keeps, read_group_keeps.
Qed.

(** ** The tasks *)

(** Only commands that keep the entries are left in a body. *)
Abbreviation inert :=
  (obeys same_redis (λ (_ : unit) X (_ : M (World E) X) w (_ : result exn X) w' (_ : unit), keeps_entries w w') tt).

(** The handler returns, so a task's path leads to the XACK, never to
    [_handle_failure]. *)
Lemma process_inert j : inert (process_co docker_worker j).
Proof.
  unfold process_co.
  apply obeys_then; [|intros [] [[]|e]; [done|by destruct (is_Exception e)]].
  apply obeys_then; [|by intros [] [?|e]].
  unfold execute_co. apply obeys_sync; [apply mark_same|]. intros [].
  apply obeys_sync; [by intros w|]. intros start.
  apply obeys_await. intros w r w' H. exists tt. injection H as <- <-. split; [by intros k|].
  unfold after_handler_co. cbn [block_raises].
  apply obeys_sync; [by intros w1|]. intros stop.
  apply obeys_sync; [apply metric_same_redis|]. intros [].
  apply obeys_then; [|intros [] [[]|e]; [|done]].
  - apply obeys_then; [|intros [] [[]|e]; [done|by destruct (is_Exception e)]].
    apply obeys_await. intros w1 r1 w2 H1. exists tt. split; [|by destruct r1].
    apply on_redis_inv in H1 as (s' & H1 & ->). apply xack_run in H1 as (_ & Hk & _). exact Hk.
  - apply obeys_sync; [apply mark_same|]. intros [].
    apply obeys_sync; [apply metric_same_redis|]. by intros [].
Qed.

Lemma same_redis_keeps w w' : same_redis w w' → keeps_entries w w'.
Proof. unfold same_redis, keeps_entries. by intros ->. Qed.

(** A slice of an inert body, and an awaited command of one. *)
Lemma settle_inert (t : coroutine (World E) unit) w t' w' :
  inert t → settle t w = (t', w') → inert t' ∧ keeps_entries w w'.
Proof.
  intros Ht H. destruct (obeys_settle same_redis _ _ _ _ _ _ Ht H) as [H1 H2].
  split; [done|by apply same_redis_keeps].
Qed.

Lemma await_inert {X} (m : M (World E) X) (k : result exn X → coroutine (World E) unit) w r w' :
  inert (CoAwait m k) → m w = (r, w') → inert (woken r k) ∧ keeps_entries w w'.
Proof.
  intros [Ht _] H. destruct (Ht _ _ _ H) as ([] & H1 & H2 & H3). split; [by apply obeys_woken|done].
Qed.

Definition all_inert (s : runner E) : Prop :=
  Forall (λ t, inert (jt_code t)) (rs_running s) ∧ Forall (λ t, inert (jt_code t)) (rs_orphans s).

Lemma forall_mid {A} (Q : A → Prop) l1 x l2 :
  Forall Q (l1 ++ x :: l2) ↔ Forall Q (l1 ++ l2) ∧ Q x.
Proof. rewrite !Forall_app, Forall_cons. tauto. Qed.

Lemma task_inert x y :
  task_step docker_worker x y → all_inert x.2 → all_inert y.2 ∧ keeps_entries x.1 y.1.
Proof.
  intros H [Hr Ho]. unfold all_inert.
  destruct H as [w w' s l1 t l2 code Hl _ _ Hs|w w' s l1 t l2 X m k r Hl _ Hc Hm
    |w w' s l1 t l2 X m k code Hl _ Hc Hs|w w' s l1 t l2 X m k code Hl _ _ Hc Hs
    |w w' s l1 t l2 X m k code Hl _ _ Hc Hs|w w' s l1 t l2 r Hl _ _ Hm|w s l1 t l2 Hl| |w w' s l1 t l2 X m k r Hl Hc Hm];
    cbn [fst snd set_running log_executed set_orphans task_ends set_finished rs_running rs_orphans] in *;
    try rewrite Hl in Hr; try rewrite Hl in Ho; rewrite ?forall_mid in *; cbn [with_code uncancelled jt_code].
  - destruct Hr as [Hr Ht]. destruct (settle_inert _ _ _ _ Ht Hs) as [? ?]. tauto.
  - destruct Hr as [Hr Ht]. rewrite Hc in Ht. destruct (await_inert _ _ _ _ _ Ht Hm) as [? ?]. tauto.
  - destruct Hr as [Hr Ht]. destruct (settle_inert _ _ _ _ Ht Hs) as [? ?]. tauto.
  - destruct Hr as [Hr Ht]. rewrite Hc in Ht. destruct Ht as [_ Ht].
    destruct (settle_inert _ _ _ _ Ht Hs) as [? ?]. tauto.
  - destruct Hr as [Hr Ht]. pose proof Ht as Ht'. rewrite Hc in Ht'. destruct Ht' as [_ Ht'].
    destruct (settle_inert _ _ _ _ Ht' Hs) as [? ?].
    rewrite app_nil_r. tauto.
  - destruct Hr as [Hr _]. split; [done|]. injection Hm as <-. by apply same_redis_keeps.
  - destruct Hr as [Hr _]. split; [done|]. reflexivity.
  - split; [done|]. reflexivity.
  - destruct Ho as [Ho Ht]. rewrite Hc in Ht. by destruct (await_inert _ _ _ _ _ Ht Hm) as [? ?].
Qed.

Lemma loop_inert x y :
  loop_step docker_worker x y → all_inert x.2 → all_inert y.2 ∧ keeps_entries x.1 y.1.
Proof.
  intros H [Hr Ho]. unfold all_inert.
  assert (∀ f : job_task E → job_task E, (∀ t, jt_code (f t) = jt_code t) →
    Forall (λ t, inert (jt_code t)) (f <$> rs_running x.2)) as Hmap.
  { intros f Hf. apply Forall_fmap. eapply Forall_impl; [exact Hr|]. intros t Ht. simpl. by rewrite Hf. }
  destruct H as [w w' s _ Hm|w w' s e _ Hm|w s|w s|w w' s b _ Hm|w w' s e _ Hm|w w' s jobs _ Hm
    |w w' s e _ Hm|w w' s j js _ _ Hm| | | | | | | | | ];
    cbn [fst snd set_pc set_recovery spawn cancel_all set_running rs_running rs_orphans] in *;
    try (split; [by split|]; reflexivity).
  - split; [done|]. apply on_redis_inv in Hm as (s' & Hm & ->). by apply ensure_group_keeps in Hm.
  - split; [done|]. apply on_redis_inv in Hm as (s' & Hm & ->). by apply ensure_group_keeps in Hm.
  - injection Hm as _ <-. split; [done|]. reflexivity.
  - discriminate Hm.
  - split; [done|]. eapply preserves_run; [apply read_jobs_keeps|exact Hm].
  - split; [done|]. eapply preserves_run; [apply read_jobs_keeps|exact Hm].
  - rewrite Forall_app, Forall_singleton. split; [split; [split|]|]; try done.
    + apply process_inert.
    + injection Hm as <-. by apply same_redis_keeps.
  - split; [split; [by apply Hmap|done]|]. reflexivity.
  - split; [split; [by apply Hmap|done]|]. reflexivity.
Qed.

(** No recovery task, no shutdown, only inert bodies. *)
Definition deployed (s : runner E) : Prop :=
  rs_recovery s = NoRecovery ∧ is_set (rs_shutdown s) = false ∧ all_inert s.

Lemma deployed_keeps x y :
  deployed_step x y → deployed x.2 → deployed y.2 ∧ keeps_entries x.1 y.1.
Proof.
  intros H (Hrec & Hsh & Hin). unfold deployed. destruct H as [x y H|x y H|x y H].
  - destruct (loop_inert x y H Hin) as [Hi Hk]. split; [|exact Hk]. split_and!; [| |exact Hi];
      destruct H; cbn in *; done.
  - destruct (task_inert x y H Hin) as [Hi Hk]. split; [|exact Hk]. split_and!; [| |exact Hi];
      destruct H; cbn in *; done.
  - destruct H; cbn in *; congruence.
Qed.

Lemma deployed_reachable w0 w s :
  rtc system_step (w0, new_runner docker_worker) (w, s) → deployed s.
Proof.
  intros H. change s with (w, s).2. assert (deployed (w0, new_runner docker_worker).2) as H0.
  { split_and!; [done..|]. by split; constructor. }
  revert H0. induction H as [x|x y z [x' y' Hd|w1 w2 s1] _ IH]; [done| |by intros ?%IH].
  intros Hx. by apply IH, (deployed_keeps x' y').
Qed.

(** C25: what the shipped worker never does.  In every run of the process built by
    [main], among any other processes: shutdown is never requested, so a task that
    waits for it never goes on and the loop leaves its [while] only by a
    cancellation; no recovery task runs; and no step of the process writes, trims or
    deletes an entry of any stream, the dead letters included. *)
Theorem deployed_worker_inert w0 w s :
  rtc system_step (w0, new_runner docker_worker) (w, s) →
  is_set (rs_shutdown s) = false ∧ wait_for_shutdown (rs_shutdown s) = None ∧
  rs_recovery s = NoRecovery ∧
  ∀ w' s', deployed_step (w, s) (w', s') →
    ∀ k, s_entries (stream_of (view (w_redis w')) k) = s_entries (stream_of (view (w_redis w)) k).
Proof.
  intros H. apply deployed_reachable in H as Hs. pose proof Hs as (Hrec & Hsh & _).
  split_and!; [done| |done|].
  - unfold wait_for_shutdown. unfold is_set in Hsh. by rewrite Hsh.
  - intros w' s' Hstep. by destruct (deployed_keeps _ _ Hstep Hs) as [_ Hk].
Qed.

End EntryPoint.

(** ** Witness: the worker reads a job and starts it *)

Definition default_queue : pystr := u "default".
Definition one_default_job : World unit :=
  world_on (run (transport_xadd relayq default_queue (mail_job 3) 10 true) fresh_server).
Definition dep_started : World unit := run (on_redis (ensure_group relayq default_queue)) one_default_job.
Definition dep_polled : World unit := run (read_jobs docker_worker) dep_started.
Definition dep_delivery : delivery := (_stream_key relayq default_queue, RS (u "1-0"), mail_job 3).

Lemma deployed_worker_inert_witness :
  main Ok None = Ok (E:=exn) (u "redis://localhost:6379/0", new_runner (E:=unit) docker_worker) ∧
  ∃ s : runner unit,
    rs_pc s = Dispatch [dep_delivery] ∧ is_set (rs_shutdown s) = false ∧ rs_recovery s = NoRecovery.
Proof.
  split; [reflexivity|].
  set (s1 := set_recovery NoRecovery (set_pc Loop (new_runner (E:=unit) docker_worker))).
  set (s2 := set_pc (Dispatch [dep_delivery]) (set_pc Polling s1)).
  exists s2. split; [reflexivity|].
  destruct (deployed_worker_inert one_default_job dep_polled s2) as (H1 & _ & H2 & _); [|by split].
  eapply rtc_l; [apply sys_process, dep_loop, st_start; [reflexivity|]|].
  { apply (run_eq (on_redis (ensure_group relayq default_queue)) one_default_job (Ok tt)).
    vm_compute. reflexivity. }
  eapply rtc_l; [apply sys_process, dep_loop, (st_test docker_worker dep_started); reflexivity|].
  apply rtc_once, sys_process, dep_loop.
  apply (st_read docker_worker dep_started dep_polled (set_pc Polling s1) (Some [dep_delivery])); [reflexivity|].
  apply (run_eq (read_jobs docker_worker) dep_started (Ok (Some [dep_delivery]))). vm_compute. reflexivity.
Defined.
