(* ===== verification/System.v ===== *)
(** * The system: producers, workers and recovery on one server

    Any number of enqueues in flight, workers and recovery loops share the Redis
    server (under one stream prefix).  [sys_step] interleaves them at their
    suspension points: each step is a slice of code of one coroutine or the effect
    of one command.  A process may die at any point, its callers may be cancelled;
    a command already sent may then still take effect.

    [D] is the enqueuers' [max_queue_depth] and [N] bounds the enqueues in flight at
    a time. *)

From Stdlib Require Import String QArith.
From stdpp Require Import relations.
From S2P Require Import Prelude PyStr Json Errors Coroutine Datetime Job Retry Redis RedisModel Transport SqliteStore Metrics World Scenario Delivery Enqueue Execute Admission Recover Evolution Shutdown Runner Effects.
Open Scope list_scope.
Open Scope Z_scope.

Section State.
Context {R : Redis} {E : Type}.

(** An enqueue in flight: [pr_gone] when nobody waits for its result any more. *)
Record producer : Type := mkProducer {
  pr_queue : pystr;
  pr_code : coroutine (World E) rval;
  pr_gone : bool
}.

Definition with_pr_code (pr : producer) (code : coroutine (World E) rval) : producer :=
  mkProducer (pr_queue pr) code (pr_gone pr).
Definition abandoned (pr : producer) : producer := mkProducer (pr_queue pr) (pr_code pr) true.

Record sys : Type := mkSys {
  sy_world : World E;
  sy_workers : list (WorkerRunner E * runner E);
  sy_producers : list producer
}.

(** A crash: the process is gone, its loop, its tasks and its batch with it. *)
Definition crash (s : runner E) : runner E :=
  mkRunner Closed (semaphore s) [] [] (rs_orphans s ++ rs_running s) (rs_shutdown s) NoRecovery
           (rs_spawned s) (rs_executed s).

End State.
Arguments producer {R} E.
Arguments sys {R} E.

Section System.
Context {R : Redis} {RS : RedisSpec R} {E : Type}.
Variables (P : pystr) (D : Z) (N : nat).

Inductive sys_step : sys E → sys E → Prop :=
(* a worker and its recovery task *)
| sys_worker l1 c s s' l2 ps w w' :
    step c (w, s) (w', s') ∨ recovery_step c (w, s) (w', s') →
    sys_step (mkSys w (l1 ++ (c, s) :: l2) ps) (mkSys w' (l1 ++ (c, s') :: l2) ps)
| sys_new c ws ps w :
    wr_prefix c = P → sys_step (mkSys w ws ps) (mkSys w (ws ++ [(c, new_runner c)]) ps)
| sys_crash l1 c s l2 ps w :
    sys_step (mkSys w (l1 ++ (c, s) :: l2) ps) (mkSys w (l1 ++ (c, crash s) :: l2) ps)
(* an enqueue *)
| sys_call e job key validate ws ps w :
    enq_prefix e = P → max_queue_depth e = D → (length ps < N)%nat →
    sys_step (mkSys w ws ps)
      (mkSys w ws (ps ++ [mkProducer (py_str (job_queue job)) (enqueue_co e job key validate) false]))
| sys_turn l1 pr l2 ws w w' code :
    pr_gone pr = false → settle (pr_code pr) w = (code, w') →
    sys_step (mkSys w ws (l1 ++ pr :: l2)) (mkSys w' ws (l1 ++ with_pr_code pr code :: l2))
| sys_await l1 pr l2 ws w w' X (m : M (World E) X) k r :
    pr_code pr = CoAwait m k → m w = (r, w') →
    sys_step (mkSys w ws (l1 ++ pr :: l2)) (mkSys w' ws (l1 ++ with_pr_code pr (woken r k) :: l2))
| sys_abandon l1 pr l2 ws w :
    (* cancelled, or its process died; no [await] of an enqueue is guarded *)
    sys_step (mkSys w ws (l1 ++ pr :: l2)) (mkSys w ws (l1 ++ abandoned pr :: l2))
| sys_return l1 pr l2 ws w r :
    pr_code pr = CoRet r ∨ pr_gone pr = true →
    sys_step (mkSys w ws (l1 ++ pr :: l2)) (mkSys w ws (l1 ++ l2))
(* single commands *)
| sys_ensure_group q ws ps w w' r :
    on_redis (ensure_group P q) w = (r, w') → sys_step (mkSys w ws ps) (mkSys w' ws ps)
| sys_late_read q now worker count block ws ps w w' r :
    (* a read whose reader is gone *)
    on_redis (read_group P now q worker count block) w = (r, w') →
    sys_step (mkSys w ws ps) (mkSys w' ws ps)
| sys_recover rw q ws ps w w' r :
    rec_prefix rw = P → _claim_stale rw q w = (r, w') → sys_step (mkSys w ws ps) (mkSys w' ws ps)
| sys_delete_dlq q id ws ps w w' r :
    on_redis (delete_dlq_entry P q id) w = (r, w') → sys_step (mkSys w ws ps) (mkSys w' ws ps)
| sys_elsewhere ws ps w w' :
    (* queries, clocks, stores, handlers' environments *)
    view (w_redis w') = view (w_redis w) → sys_step (mkSys w ws ps) (mkSys w' ws ps).

(** Nothing has happened yet. *)
Definition initial (x : sys E) : Prop :=
  view (w_redis (sy_world x)) = ∅ ∧ sy_workers x = [] ∧ sy_producers x = [].

(** A worker's task settles entry [i] of queue [q] in this step. *)
Definition worker_settles (c : WorkerRunner E) (s : runner E) (w w' : World E) (q : pystr) (i : rval)
    : Prop :=
  ∃ t, t ∈ rs_running s ∧ wr_queue c = q ∧ (jt_job t).1.2 = i ∧ settles_now P c (jt_job t) w w'.
Definition settles (x y : sys E) (q : pystr) (i : rval) : Prop :=
  ∃ c s, (c, s) ∈ sy_workers x ∧ worker_settles c s (sy_world x) (sy_world y) q i.

(** ** Claimed entries *)

(** Entries claimed from queues: each once, and not on offer any more. *)
Definition claims_ok (v : server) (C : list (pystr * rval)) : Prop :=
  (∀ q, stream_wf P q (qstream P v q)) ∧ NoDup C ∧
  ∀ q i, (q, i) ∈ C → i ∈ s_issued (qstream P v q) ∧
    ∃ g, s_groups (qstream P v q) !! _group_key P q = Some g ∧ i ∉ ids (g_todo g).

Lemma claims_ok_evolves X v v' C : evolves P X v v' → claims_ok v C → claims_ok v' C.
Proof.
  intros H (Hwf & Hn & HC). split_and!; [by intros q; apply (H q)|done|].
  intros q i Hin. destruct (HC q i Hin) as (Hi & g & Hg & Ht), (H q) as (_ & _ & [l Hl] & HG & _).
  split; [rewrite Hl; set_solver|]. destruct (HG g Hg) as (g' & Hg' & HT & _).
  exists g'. split; [done|]. by intros [?|?]%HT.
Qed.

Lemma claims_ok_sub v C C' : C' ⊆+ C → claims_ok v C → claims_ok v C'.
Proof.
  intros Hs (Hwf & Hn & HC). split_and!; [done| |].
  - apply submseteq_Permutation in Hs as [k Hk]. rewrite Hk in Hn. by apply NoDup_app in Hn as [? _].
  - intros q i Hin. apply HC. by eapply elem_of_submseteq.
Qed.

(** What a read hands out: offered before, not offered after, each once. *)
Lemma read_claims now q c count block s got s' :
  read_group P now q c count block s = (Ok got, s') →
  stream_wf P q (qstream P (view s) q) →
  let new := (λ d : delivery, d.1.2) <$> got in
  ∃ g g', s_groups (qstream P (view s) q) !! _group_key P q = Some g ∧
          s_groups (qstream P (view s') q) !! _group_key P q = Some g' ∧
          NoDup new ∧ (∀ i, i ∈ new → i ∈ ids (g_todo g) ∧ i ∉ ids (g_todo g') ∧
                                      i ∈ s_issued (qstream P (view s) q)).
Proof.
  intros (st & g & Hs & Hg & Hsl & Hv)%read_group_batch Hwf.
  assert (qstream P (view s) q = st) as Hst by (unfold qstream, stream_of; by rewrite Hs).
  rewrite Hst in *. destruct Hwf as (_ & _ & Hin & Hw). destruct (Hw g Hg) as [Hnd Hsub].
  set (n := Z.to_nat count) in *.
  exists g. eexists. split; [done|]. split.
  { unfold qstream. rewrite Hv. unfold set_group. rewrite stream_of_insert. cbn [s_groups].
    by rewrite lookup_insert_eq. }
  cbn [g_todo]. unfold ids in *.
  assert (Hsplit : (g_todo g).*1 = (take n (g_todo g)).*1 ++ (drop n (g_todo g)).*1)
    by (by rewrite <- fmap_app, take_drop).
  rewrite Hsplit in Hnd. apply NoDup_app in Hnd as (Hnt & Hdisj & _).
  split; [by eapply sublist_NoDup|].
  intros i Hi. assert (i ∈ (take n (g_todo g)).*1) as Hti
    by (eapply elem_of_submseteq; [exact Hi|by apply sublist_submseteq]).
  split_and!; [rewrite Hsplit; set_solver|by apply Hdisj|].
  apply Hin. apply list_elem_of_fmap in Hti as (e & -> & He). apply list_elem_of_fmap.
  exists e. split; [done|]. apply Hsub. apply elem_of_take in He as (k & He & _).
  by eapply list_elem_of_lookup_2.
Qed.

Definition of_worker (c : WorkerRunner E) (l : list delivery) : list (pystr * rval) :=
  (λ d, (wr_queue c, d.1.2)) <$> l.

(** The entries a worker holds: given to tasks, or waiting in its batch. *)
Definition held (x : WorkerRunner E * runner E) : list (pystr * rval) :=
  of_worker x.1 (rs_spawned x.2 ++ batch_of x.2).

Lemma read_jobs_claims (c : WorkerRunner E) w js w' C :
  wr_prefix c = P → read_jobs c w = (Ok (Some js), w') →
  claims_ok (view (w_redis w)) C → claims_ok (view (w_redis w')) (C ++ of_worker c js).
Proof.
  intros Hp H HC.
  pose proof (preserves_run _ _ _ _ _ (read_jobs_quiet P c nothing Hp) H) as [Hev _].
  assert (on_redis (read_group P (w_now w) (wr_queue c) (worker_id c) (poll_batch c)
                               (poll_timeout c)) w = (Ok js, w')) as Hr.
  { unfold read_jobs, except_Exception, try_except, mbind, st_mbind, on_redis_now in H. rewrite Hp in H.
    destruct (on_redis _ w) as [[l|e] w3]; [by injection H as -> ->|].
    by destruct (is_Exception e). }
  clear H. apply on_redis_inv in Hr as (s' & Hr & ->).
  pose proof HC as (Hwf & Hn & Hin).
  pose proof (claims_ok_evolves _ _ _ _ Hev HC) as (Hwf' & _ & Hin').
  destruct (Hev (wr_queue c)) as (_ & _ & [li Hli] & _).
  apply read_claims in Hr as (g & g' & Hg & Hg' & Hnd & Hnew); [|apply Hwf].
  cbn [with_redis w_redis] in *. split_and!; [done| |].
  - apply NoDup_app. split_and!; [done| |].
    + intros [q i] Hqi (d & [= -> ->] & Hd)%list_elem_of_fmap.
      destruct (Hin _ _ Hqi) as (_ & g1 & Hg1 & Ht). rewrite Hg in Hg1. injection Hg1 as <-.
      apply Ht. apply (Hnew d.1.2). apply list_elem_of_fmap. eauto.
    + unfold of_worker. apply (NoDup_fmap_1 snd).
      by rewrite <- list_fmap_compose.
  - intros q i [Hqi|Hqi]%elem_of_app; [by apply Hin'|].
    apply list_elem_of_fmap in Hqi as (d & [= -> ->] & Hd).
    assert (d.1.2 ∈ (λ d : delivery, d.1.2) <$> js) as Hdi by (apply list_elem_of_fmap; eauto).
    destruct (Hnew _ Hdi) as (_ & Hni & Hiss). split; [|by exists g'].
    rewrite Hli. set_solver.
Qed.

(** ** Workers *)

(** The jobs whose tasks wait for their first turn. *)
Definition unstarted (s : runner E) : list delivery :=
  jt_job <$> filter (λ t, jt_started t = false) (rs_running s).

(** What a task ran was given to it, and not run before. *)
Definition runs_spawned (s : runner E) : Prop :=
  unstarted s ++ rs_executed s ⊆+ rs_spawned s.

Section Settled.
Variable past : pystr → rval → Prop.   (* the entries settled so far *)

Definition task_inv (c : WorkerRunner E) (t : job_task E) : Prop :=
  ∃ p, obeys same_redis (task_await P c (jt_job t)) p (jt_code t) ∧
       (p = Settled → past (wr_queue c) (jt_job t).1.2).

Definition worker_inv (x : WorkerRunner E * runner E) : Prop :=
  wr_prefix x.1 = P ∧ runs_spawned x.2 ∧
  Forall (task_inv x.1) (rs_running x.2) ∧ Forall (task_inv x.1) (rs_orphans x.2).

End Settled.

Lemma worker_inv_mono (past past' : pystr → rval → Prop) x :
  (∀ q i, past q i → past' q i) → worker_inv past x → worker_inv past' x.
Proof.
  intros Hpast (Hp & Hr & H1 & H2). split_and!; try done; eapply Forall_impl; try done;
    intros t (p & Ht & Hs); exists p; auto.
Qed.

Definition either (past past' : pystr → rval → Prop) : pystr → rval → Prop := λ q i, past q i ∨ past' q i.

(** What a step of a worker gives. *)
Definition worker_ok (past : pystr → rval → Prop) (c : WorkerRunner E) (s s' : runner E) (w w' : World E)
    : Prop :=
  worker_inv (either past (worker_settles c s w w')) (c, s') ∧ wquiet P past w w'.

Lemma unstarted_app s l1 t l2 :
  rs_running s = l1 ++ t :: l2 →
  unstarted s ≡ₚ (if jt_started t then [] else [jt_job t]) ++ unstarted (set_running (l1 ++ l2) s).
Proof.
  intros Hl. unfold unstarted. cbn. rewrite Hl, !filter_app, filter_cons. destruct (jt_started t).
  - by rewrite decide_False by done.
  - rewrite decide_True by done. rewrite !fmap_app, fmap_cons. cbn. by rewrite Permutation_middle.
Qed.

(** A step that replaces one task of the list. *)
Lemma replaced_ok past c s s' w w' l1 t t' l2 :
  worker_inv past (c, s) → rs_running s = l1 ++ t :: l2 → rs_running s' = l1 ++ t' :: l2 →
  jt_job t' = jt_job t → jt_started t' = true → rs_spawned s' = rs_spawned s →
  rs_executed s' = rs_executed s ++ (if jt_started t then [] else [jt_job t]) →
  (rs_orphans s' = rs_orphans s ∨ rs_orphans s' = rs_orphans s ++ [t]) →
  wquiet P past w w' → task_inv (either past (worker_settles c s w w')) c t' → worker_ok past c s s' w w'.
Proof.
  intros (Hp & Hr & H1 & H2) Hl Hl' Hj Hst Hsp Hex Ho Hq Ht. split; [|done].
  assert (Forall (task_inv (either past (worker_settles c s w w')) c) (rs_running s) ∧
          Forall (task_inv (either past (worker_settles c s w w')) c) (rs_orphans s)) as [H1' H2'].
  { cbn [fst snd] in *. split; eapply Forall_impl; try done; intros t0 (p & Ht0 & Hs); exists p;
      (split; [done|]); intros Hps; left; auto. }
  unfold worker_inv. cbn [fst snd] in *. rewrite Hl in H1'.
  apply Forall_app in H1' as [Hf1 [Hft Hf2]%Forall_cons].
  split_and!; [done| | |].
  - unfold runs_spawned in *. rewrite Hsp, Hex. etrans; [|exact Hr]. apply Permutation_submseteq.
    rewrite (unstarted_app s l1 t l2 Hl), (unstarted_app s' l1 t' l2 Hl'), Hst.
    change (unstarted (set_running (l1 ++ l2) s')) with (unstarted (set_running (l1 ++ l2) s)).
    solve_Permutation.
  - rewrite Hl'. apply Forall_app. split; [done|]. by apply Forall_cons.
  - destruct Ho as [->| ->]; [done|]. apply Forall_app. split; [done|]. by apply Forall_singleton.
Qed.

(** A step that keeps the tasks, or loses some. *)
Lemma shrunk_ok past c s s' w w' :
  worker_inv past (c, s) → rs_spawned s' = rs_spawned s → rs_executed s' = rs_executed s →
  unstarted s' ⊆+ unstarted s →
  Forall (λ t, ∃ t0, t0 ∈ rs_running s ∧ jt_job t = jt_job t0 ∧ jt_code t = jt_code t0) (rs_running s') →
  (∀ t, t ∈ rs_orphans s' → t ∈ rs_orphans s ∨ t ∈ rs_running s) →
  wquiet P past w w' → worker_ok past c s s' w w'.
Proof.
  intros (Hp & Hr & H1 & H2) Hsp Hex Hu Hsub Ho Hq. split; [|done].
  apply (worker_inv_mono past); [by left|]. unfold worker_inv in *. cbn [fst snd] in *.
  rewrite !Forall_forall in *. split_and!; [done| | |].
  - unfold runs_spawned in *. rewrite Hsp, Hex. etrans; [|exact Hr]. by apply submseteq_app.
  - intros t Ht. destruct (Hsub t Ht) as (t0 & Hin & Hj & Hc). unfold task_inv. rewrite Hj, Hc. by apply H1.
  - intros t Ht. destruct (Ho t Ht); auto.
Qed.

Lemma settle_ok past c s w w' (t : job_task E) (code code' : coroutine (World E) unit) p :
  obeys same_redis (task_await P c (jt_job t)) p code → (p = Settled → past (wr_queue c) (jt_job t).1.2) →
  settle code w = (code', w') →
  wquiet P past w w' ∧ ∀ t' : job_task E, jt_job t' = jt_job t → jt_code t' = code' →
    task_inv (either past (worker_settles c s w w')) c t'.
Proof.
  intros Ho Hp Hs. destruct (obeys_settle _ _ _ _ _ _ _ Ho Hs) as [Hsame Ho']. split.
  - by apply same_redis_quiet.
  - intros t' Hj Hc. exists p. rewrite Hj, Hc. split; [done|]. left. auto.
Qed.

Lemma task_quiet (past : pystr → rval → Prop) (c : WorkerRunner E) (j : delivery) p (w w' : World E) :
  (p = Settled → past (wr_queue c) j.1.2) →
  wquiet P (λ q i, p = Settled ∧ q = wr_queue c ∧ i = j.1.2) w w' → wquiet P past w w'.
Proof. intros Hp. apply quiet_mono. intros q i (Hps & -> & ->). auto. Qed.

Lemma task_step_ok past c w s w' s' :
  task_step c (w, s) (w', s') → worker_inv past (c, s) → worker_ok past c s s' w w'.
Proof.
  intros H Hinv. pose proof Hinv as (Hpre & _ & H1 & H2). cbn [fst snd] in *.
  assert (∀ l1 t l2, rs_running s = l1 ++ t :: l2 → task_inv past c t) as Hrun.
  { intros l1 t l2 Hl. rewrite Hl in H1. by apply Forall_app in H1 as [_ [? _]%Forall_cons]. }
  inversion H as [? ? ? l1 t l2 code Hl Hst Hc Hs|? ? ? l1 t l2 X m k r Hl Hst Hcode Hr
    |? ? ? l1 t l2 X m k code Hl Hst Hcode Hs|? ? ? l1 t l2 X m k code Hl Hst Hc Hcode Hs
    |? ? ? l1 t l2 X m k code Hl Hst Hc Hcode Hs|? ? ? l1 t l2 r Hl Hst Hcode Hm|? ? l1 t l2 Hl Hst Hc
    |? ? l1 j l2 Hl|? ? ? l1 t l2 X m k r Hl Hcode Hr]; subst.
  - destruct (Hrun _ _ _ Hl) as (p & Ho & Hp). destruct (settle_ok past c s w w' t _ _ p Ho Hp Hs) as [Hq Ht].
    eapply (replaced_ok past c s _ w w' l1 t _ l2); try done; cbn; [by rewrite Hst|by left|by apply Ht].
  - destruct (Hrun _ _ _ Hl) as (p & Ho & Hp). rewrite Hcode in Ho. destruct Ho as [Ho _].
    destruct (Ho _ _ _ Hr) as (p' & [Hq Hset] & Hk & Hc).
    eapply (replaced_ok past c s _ w w' l1 t _ l2); try done; cbn; [by rewrite Hst, app_nil_r|by left| |].
    + by eapply task_quiet.
    + exists p'. cbn. split; [by apply obeys_woken|]. intros Hp'. destruct (Hset Hp') as [Hp1|Hnow].
      * left. auto.
      * right. exists t. split_and!; try done. rewrite Hl. set_solver.
  - destruct (Hrun _ _ _ Hl) as (p & Ho & Hp). destruct (settle_ok past c s w w' t _ _ p Ho Hp Hs) as [Hq Ht].
    eapply (replaced_ok past c s _ w w' l1 t _ l2); try done; cbn; [by rewrite Hst, app_nil_r|by left|by apply Ht].
  - destruct (Hrun _ _ _ Hl) as (p & Ho & Hp). rewrite Hcode in Ho. destruct Ho as [_ Ho].
    destruct (settle_ok past c s w w' t _ _ p Ho Hp Hs) as [Hq Ht].
    eapply (replaced_ok past c s _ w w' l1 t _ l2); try done; cbn; [by rewrite Hst, app_nil_r|by left|by apply Ht].
  - destruct (Hrun _ _ _ Hl) as (p & Ho & Hp). rewrite Hcode in Ho. destruct Ho as [_ Ho].
    destruct (settle_ok past c s w w' t _ _ p Ho Hp Hs) as [Hq Ht].
    eapply (replaced_ok past c s _ w w' l1 t _ l2); try done; cbn; [by rewrite Hst, app_nil_r|by right|by apply Ht].
  - assert (wquiet P past w w') as Hq by (apply same_redis_quiet; by injection Hm as <-).
    eapply shrunk_ok; try done.
    + rewrite (unstarted_app s l1 t l2 Hl). cbn. by apply submseteq_inserts_l.
    + rewrite Hl. apply Forall_forall. intros t0 Ht0. exists t0. cbn in Ht0. set_solver.
    + by left.
  - eapply shrunk_ok; try done.
    + rewrite (unstarted_app s l1 t l2 Hl). cbn. by apply submseteq_inserts_l.
    + rewrite Hl. apply Forall_forall. intros t0 Ht0. exists t0. cbn in Ht0. set_solver.
    + by left.
  - eapply shrunk_ok; try done.
    + apply Forall_forall. intros t0 Ht0. by exists t0.
    + by left.
  - rewrite Hl in H2. apply Forall_app in H2 as [Ha [(p & Ho & Hp) Hb]%Forall_cons].
    rewrite Hcode in Ho. destruct Ho as [Ho _]. destruct (Ho _ _ _ Hr) as (p' & [Hq _] & _).
    eapply shrunk_ok; try done.
    + apply Forall_forall. intros t0 Ht0. by exists t0.
    + cbn. rewrite Hl. set_solver.
    + by eapply task_quiet.
Qed.

Lemma unstarted_cancelled (l : list (job_task E)) :
  jt_job <$> filter (λ t, jt_started t = false)
               ((λ t, mkJobTask (jt_job t) (jt_started t) true (jt_code t)) <$> l) =
  jt_job <$> filter (λ t, jt_started t = false) l.
Proof.
  induction l as [|t l IH]; [done|]. rewrite fmap_cons, !filter_cons. cbn [jt_started].
  destruct (jt_started t); [by rewrite !decide_False by done|].
  rewrite !decide_True by done. rewrite !fmap_cons. by rewrite IH.
Qed.

Lemma unchanged_ok past c s s' w w' :
  worker_inv past (c, s) → rs_spawned s' = rs_spawned s → rs_executed s' = rs_executed s →
  rs_running s' = rs_running s → rs_orphans s' = rs_orphans s → wquiet P past w w' →
  worker_ok past c s s' w w'.
Proof.
  intros Hinv Hsp Hex Hr Ho Hq. eapply shrunk_ok; try done.
  - unfold unstarted. by rewrite Hr.
  - rewrite Hr. apply Forall_forall. eauto.
  - rewrite Ho. by left.
Qed.

Lemma cancelled_ok past c s s' w :
  worker_inv past (c, s) → rs_spawned s' = rs_spawned s → rs_executed s' = rs_executed s →
  rs_running s' = rs_running (cancel_all s) → rs_orphans s' = rs_orphans s → worker_ok past c s s' w w.
Proof.
  intros Hinv Hsp Hex Hr Ho. eapply shrunk_ok; try done.
  - unfold unstarted. rewrite Hr. unfold cancel_all. cbn [rs_running set_running].
    by rewrite unstarted_cancelled.
  - rewrite Hr. cbn. apply Forall_fmap, Forall_forall. intros t Ht. by exists t.
  - rewrite Ho. by left.
Qed.

Lemma loop_step_ok past c w s w' s' :
  loop_step c (w, s) (w', s') → worker_inv past (c, s) → worker_ok past c s s' w w'.
Proof.
  intros H Hinv. pose proof Hinv as (Hp & Hr & H1 & H2). cbn [fst snd] in *.
  inversion H; subst; try (by apply unchanged_ok); try (by apply cancelled_ok).
  - apply unchanged_ok; try done. eapply preserves_run; [apply on_redis_quiet, ensure_group_quiet|rewrite <- Hp; eassumption].
  - apply unchanged_ok; try done. eapply preserves_run; [apply on_redis_quiet, ensure_group_quiet|rewrite <- Hp; eassumption].
  - apply unchanged_ok; try done. eapply preserves_run; [apply (admission_quiet P c)|eassumption].
  - apply unchanged_ok; try done. eapply preserves_run; [apply (admission_quiet P c)|eassumption].
  - apply unchanged_ok; try done. eapply preserves_run; [by apply (read_jobs_quiet P c)|eassumption].
  - apply unchanged_ok; try done. eapply preserves_run; [by apply (read_jobs_quiet P c)|eassumption].
  - (* spawn *)
    split; [|apply same_redis_quiet; match goal with Hm : observe_inflight _ _ _ = _ |- _ => by injection Hm as <- end].
    apply (worker_inv_mono past); [by left|]. unfold worker_inv. cbn [fst snd spawn rs_running rs_orphans].
    split_and!; [done| | |done].
    + unfold runs_spawned, unstarted in *. cbn. rewrite filter_app, fmap_app. cbn.
      etrans; [|apply submseteq_app; [exact Hr|reflexivity]].
      apply Permutation_submseteq. solve_Permutation.
    + apply Forall_app. split; [done|]. apply Forall_singleton. exists Open. split; [|done].
      by apply process_obeys.
Qed.

Lemma worker_step_ok past c w s w' s' :
  step c (w, s) (w', s') ∨ recovery_step c (w, s) (w', s') → worker_inv past (c, s) →
  worker_ok past c s s' w w'.
Proof.
  intros [H|H] Hinv; inversion H; subst.
  - by apply loop_step_ok.
  - by apply task_step_ok.
  - by apply unchanged_ok.
  - apply unchanged_ok; try done. eapply preserves_run; [apply recover_once_quiet|eassumption].
  - apply unchanged_ok; try done. eapply preserves_run; [apply recover_once_quiet|eassumption].
Qed.

Lemma of_worker_app (c : WorkerRunner E) l l' : of_worker c (l ++ l') = of_worker c l ++ of_worker c l'.
Proof. unfold of_worker. apply fmap_app. Qed.

(** A worker's step claims what it reads, and keeps or drops what it held. *)
Lemma worker_step_claims past c w s w' s' C :
  wr_prefix c = P → step c (w, s) (w', s') ∨ recovery_step c (w, s) (w', s') → wquiet P past w w' →
  claims_ok (view (w_redis w)) (C ++ held (c, s)) →
  claims_ok (view (w_redis w')) (C ++ held (c, s')).
Proof.
  intros Hp H [He _] HC. unfold held in *. cbn [fst snd] in *.
  assert (∀ l, of_worker c l ⊆+ of_worker c (rs_spawned s ++ batch_of s) →
    claims_ok (view (w_redis w')) (C ++ of_worker c l)) as Hgen.
  { intros l Hsub. eapply claims_ok_sub; [apply submseteq_app; [done|exact Hsub]|].
    by eapply claims_ok_evolves. }
  assert (Hshrink : rs_spawned s' = rs_spawned s → (batch_of s' = [] ∨ batch_of s' = batch_of s) →
            claims_ok (view (w_redis w')) (C ++ of_worker c (rs_spawned s' ++ batch_of s'))).
  { intros Hs Hb. apply Hgen. rewrite Hs. unfold of_worker.
    destruct Hb as [->| ->]; [|done]. rewrite app_nil_r, fmap_app. by apply submseteq_inserts_r. }
  destruct H as [H|H]; [|inversion H; subst; by apply Hshrink; [|right]].
  inversion H as [? ? Hl|? ? Hl|]; subst; [| |by apply Hshrink; [|right]].
  2: { inversion Hl; subst; (apply Hshrink; [done|right; done]). }
  inversion Hl; subst;
    try (apply Hshrink; [done|first [by left|by right|by right; unfold batch_of; case_match|by left; case_match
                                  |left; unfold batch_of, after_test; by destruct (wr_admission c)]]).
  - (* read *)
    destruct jobs as [[|j js]|]; [by apply Hshrink; [|left]| |by apply Hshrink; [|left]].
    unfold batch_of in *. cbn [set_pc rs_pc rs_spawned after_read] in *.
    match goal with Hl : rs_pc s = Polling |- _ => rewrite Hl, app_nil_r in HC end.
    rewrite of_worker_app, (assoc_L (++)). by eapply read_jobs_claims.
  - (* spawn *)
    apply Hgen. unfold batch_of.
    match goal with Hl : rs_pc s = Dispatch _ |- _ => rewrite Hl end. cbn.
    by rewrite <- (assoc_L (++)).
Qed.

(** ** Enqueues in flight *)

(** Those to [q] that have passed the depth check and have yet to add their entry. *)
Definition committed (q : pystr) (l : list (producer E * bool)) : Z :=
  Z.of_nat (length (filter (λ x : producer E * bool, pr_queue x.1 = q ∧ x.2 = true) l)).

(** How long a queue can get: one below the bound, and what is in flight by then. *)
Definition cap : Z := Z.max 0 (D - 1 + Z.of_nat N).

Definition producer_inv (x : producer E * bool) : Prop :=
  obeys same_redis (enqueue_await P D (pr_queue x.1)) x.2 (pr_code x.1).

Definition producers_inv (w : World E) (ps : list (producer E)) : Prop :=
  ∃ l, l.*1 = ps ∧ Forall producer_inv l ∧ (length ps ≤ N)%nat ∧
       ∀ q, depth P w q + committed q l ≤ cap.

Lemma committed_app q l l' : committed q (l ++ l') = committed q l + committed q l'.
Proof. unfold committed. rewrite filter_app, length_app. lia. Qed.

Lemma committed_cons q x l :
  committed q (x :: l) = (if decide (pr_queue x.1 = q ∧ x.2 = true) then 1 else 0) + committed q l.
Proof. unfold committed. rewrite filter_cons. destruct (decide _); simpl; lia. Qed.

Lemma committed_range q l : 0 ≤ committed q l ≤ Z.of_nat (length l).
Proof. unfold committed. pose proof (length_filter (λ x : producer E * bool, pr_queue x.1 = q ∧ x.2 = true) l). lia. Qed.

Lemma producers_grow w w' ps :
  (∀ q, depth P w' q ≤ depth P w q) → producers_inv w ps → producers_inv w' ps.
Proof.
  intros Hd (l & Hl & Hf & Hn & Hc). exists l. split_and!; try done. intros q.
  specialize (Hc q). specialize (Hd q). lia.
Qed.

Lemma quiet_depth past (w w' : World E) q : wquiet P past w w' → depth P w' q = depth P w q.
Proof. intros [_ H]. unfold depth. by rewrite H. Qed.

Lemma producers_quiet past w w' ps : wquiet P past w w' → producers_inv w ps → producers_inv w' ps.
Proof. intros H. apply producers_grow. intros q. by rewrite (quiet_depth _ _ _ _ H). Qed.

(** One producer changes its phase from [b] to [b']. *)
Lemma producers_replace (w w' : World E) l1 pr pr' l2 b' m1 m2 :
  m1.*1 = l1 → m2.*1 = l2 → Forall producer_inv (m1 ++ m2) →
  pr_queue pr' = pr_queue pr → producer_inv (pr', b') → (length (l1 ++ pr :: l2) ≤ N)%nat →
  (∀ q, depth P w' q + committed q (m1 ++ (pr', b') :: m2) ≤ cap) →
  producers_inv w' (l1 ++ pr' :: l2).
Proof.
  intros <- <- Hf Hq Hpr Hn Hc. exists (m1 ++ (pr', b') :: m2).
  apply Forall_app in Hf as [Hf1 Hf2]. split_and!; [by rewrite fmap_app, fmap_cons| | |done].
  - apply Forall_app. split; [done|]. by apply Forall_cons.
  - rewrite length_app in *. simpl in *. lia.
Qed.

Lemma producers_split w l1 pr l2 :
  producers_inv w (l1 ++ pr :: l2) →
  ∃ m1 b m2, m1.*1 = l1 ∧ m2.*1 = l2 ∧ Forall producer_inv (m1 ++ m2) ∧ producer_inv (pr, b) ∧
    (length (l1 ++ pr :: l2) ≤ N)%nat ∧ ∀ q, depth P w q + committed q (m1 ++ (pr, b) :: m2) ≤ cap.
Proof.
  intros (l & Hl & Hf & Hn & Hc). apply fmap_app_inv in Hl as (m1 & m & -> & Hm & ->).
  destruct m as [|[pr0 b] m2]; [done|]. injection Hm as -> ->.
  apply Forall_app in Hf as [Hf1 [Hpr Hf2]%Forall_cons].
  exists m1, b, m2. split_and!; try done. by apply Forall_app.
Qed.

Lemma committed_same q m1 m2 pr pr' b :
  pr_queue pr' = pr_queue pr → committed q (m1 ++ (pr', b) :: m2) = committed q (m1 ++ (pr, b) :: m2).
Proof. intros Hq. rewrite !committed_app, !committed_cons. cbn [fst snd]. by rewrite Hq. Qed.

(** A command of an enqueue: nothing is trimmed, and the bound is kept. *)
Lemma producer_await w w' l1 pr l2 X (m : M (World E) X) k r :
  (N ≤ 1001)%nat → producers_inv w (l1 ++ pr :: l2) → pr_code pr = CoAwait m k → m w = (r, w') →
  evolves P nothing (view (w_redis w)) (view (w_redis w')) ∧
  producers_inv w' (l1 ++ with_pr_code pr (woken r k) :: l2).
Proof.
  intros HN Hinv Hcode Hm. apply producers_split in Hinv as (m1 & b & m2 & H1 & H2 & Hf & Hpr & Hn & Hc).
  unfold producer_inv in Hpr. cbn [fst snd] in Hpr. rewrite Hcode in Hpr. destruct Hpr as [Hpr _].
  destruct (Hpr _ _ _ Hm) as (b' & Ha & Hk & Hcan).
  assert (producer_inv (with_pr_code pr (woken r k), b')) as Hnew by (by apply obeys_woken).
  pose proof (Hc (pr_queue pr)) as Hcq. rewrite committed_app, committed_cons in Hcq. cbn [fst snd] in Hcq.
  pose proof (committed_range (pr_queue pr) m1) as Hr1. pose proof (committed_range (pr_queue pr) m2) as Hr2.
  assert (0 ≤ depth P w (pr_queue pr)) as Hd0 by (unfold depth; lia).
  destruct b; cbn in Ha.
  - destruct Ha as (-> & Hev & Hgrow). rewrite decide_True in Hcq by done.
    split; [apply Hev; unfold cap in Hcq; lia|].
    eapply (producers_replace w w' l1 pr _ l2 false m1 m2); try done. intros q.
    specialize (Hc q). specialize (Hgrow q). rewrite committed_app, committed_cons in *. cbn [fst snd] in *.
    rewrite (decide_False (P := pr_queue (with_pr_code pr (woken r k)) = q ∧ false = true)) by naive_solver.
    destruct (decide (q = pr_queue pr)) as [->|Hne]; [rewrite decide_True in Hc by done; lia|].
    rewrite (decide_False (P := pr_queue pr = q ∧ true = true)) in Hc by naive_solver. lia.
  - destruct Ha as [Hv Hlt]. assert (∀ q, depth P w' q = depth P w q) as Hd by (intros; unfold depth; by rewrite Hv).
    split; [rewrite Hv; reflexivity|].
    eapply (producers_replace w w' l1 pr _ l2 b' m1 m2); try done. intros q.
    specialize (Hc q). rewrite Hd. rewrite committed_app, committed_cons in *. cbn [fst snd] in *.
    rewrite (decide_False (P := pr_queue pr = q ∧ false = true)) in Hc by naive_solver.
    destruct (decide (pr_queue (with_pr_code pr (woken r k)) = q ∧ b' = true)) as [[<- ->]|]; [|lia].
    cbn [with_pr_code pr_queue] in *. specialize (Hlt eq_refl). unfold cap.
    rewrite length_app in Hn. simpl in Hn. rewrite <- H1, <- H2, !length_fmap in Hn. lia.
Qed.

Lemma producer_turn w w' l1 pr l2 code :
  producers_inv w (l1 ++ pr :: l2) → settle (pr_code pr) w = (code, w') →
  same_redis w w' ∧ producers_inv w' (l1 ++ with_pr_code pr code :: l2).
Proof.
  intros Hinv Hs. apply producers_split in Hinv as (m1 & b & m2 & H1 & H2 & Hf & Hpr & Hn & Hc).
  destruct (obeys_settle _ _ _ _ _ _ _ Hpr Hs) as [Hsame Ho]. split; [done|].
  eapply (producers_replace w w' l1 pr _ l2 b m1 m2); try done. intros q. specialize (Hc q).
  rewrite (committed_same q m1 m2 pr) by done. unfold depth in *. by rewrite Hsame.
Qed.

Lemma producer_abandon w l1 pr l2 :
  producers_inv w (l1 ++ pr :: l2) → producers_inv w (l1 ++ abandoned pr :: l2).
Proof.
  intros (m1 & b & m2 & H1 & H2 & Hf & Hpr & Hn & Hc)%producers_split.
  eapply (producers_replace w w l1 pr _ l2 b m1 m2); try done. intros q.
  by rewrite (committed_same q m1 m2 pr) by done.
Qed.

Lemma producer_return w l1 pr l2 : producers_inv w (l1 ++ pr :: l2) → producers_inv w (l1 ++ l2).
Proof.
  intros (m1 & b & m2 & <- & <- & Hf & Hpr & Hn & Hc)%producers_split.
  exists (m1 ++ m2). split_and!; [by rewrite fmap_app|done|rewrite length_app in *; simpl in *; lia|].
  intros q. specialize (Hc q). rewrite committed_app, committed_cons in Hc. rewrite committed_app.
  destruct (decide _); lia.
Qed.

Lemma producer_call w ps e job key validate :
  enq_prefix e = P → max_queue_depth e = D → (length ps < N)%nat → producers_inv w ps →
  producers_inv w (ps ++ [mkProducer (py_str (job_queue job)) (enqueue_co e job key validate) false]).
Proof.
  intros Hp HD Hlt (l & <- & Hf & Hn & Hc).
  eexists (l ++ [(mkProducer (py_str (job_queue job)) (enqueue_co e job key validate) false, false)]).
  rewrite length_fmap in *. split_and!.
  - by rewrite fmap_app.
  - apply Forall_app. split; [done|]. apply Forall_singleton. exact (enqueue_obeys P D e job key validate Hp HD).
  - rewrite length_app, length_fmap. simpl. lia.
  - intros q. specialize (Hc q). rewrite committed_app, committed_cons.
    rewrite decide_False by (by intros [_ ?]). change (committed q []) with 0. lia.
Qed.

(** ** The invariant of the system *)

Definition held_by (ws : list (WorkerRunner E * runner E)) : list (pystr * rval) := concat (held <$> ws).

Definition sys_inv (past : pystr → rval → Prop) (x : sys E) : Prop :=
  claims_ok (view (w_redis (sy_world x))) (held_by (sy_workers x)) ∧
  Forall (worker_inv past) (sy_workers x) ∧ producers_inv (sy_world x) (sy_producers x).

Lemma held_app ws1 x ws2 : held_by (ws1 ++ x :: ws2) ≡ₚ (held_by ws1 ++ held_by ws2) ++ held x.
Proof.
  unfold held_by. rewrite fmap_app, concat_app. cbn. rewrite <- (assoc_L (++)).
  apply Permutation_app; [done|]. by rewrite (Permutation_app_comm (held x)).
Qed.

Lemma claims_ok_perm v C C' : C ≡ₚ C' → claims_ok v C → claims_ok v C'.
Proof. intros HC. apply claims_ok_sub. by rewrite HC. Qed.

Lemma held_new ws c : held_by (ws ++ [(c, new_runner c)]) = held_by ws.
Proof. unfold held_by. rewrite fmap_app, concat_app. cbn. by rewrite app_nil_r. Qed.

Lemma initial_inv x : initial x → sys_inv (λ _ _, False) x.
Proof.
  destruct x as [w ws ps]. intros (Hv & Hw & Hp). cbn in *. subst ws ps.
  split_and!; cbn [sy_world sy_workers sy_producers]; [| |exists []; split_and!].
  - rewrite Hv. split_and!.
    + intros q. unfold qstream, stream_of. rewrite lookup_empty. repeat split; try constructor; try done.
      all: simpl in *; rewrite lookup_empty in *; done.
    + constructor.
    + intros q i Hi. by apply not_elem_of_nil in Hi.
  - constructor.
  - done.
  - constructor.
  - simpl. lia.
  - intros q. unfold depth, qstream, stream_of. rewrite Hv, lookup_empty. cbn.
    change (committed q []) with 0. unfold cap. lia.
Qed.

Lemma crash_ok past c s : worker_inv past (c, s) → worker_inv past (c, crash s).
Proof.
  unfold worker_inv. cbn [fst snd]. intros (Hp & Hr & H1 & H2).
  split_and!; [done| |constructor|].
  - unfold runs_spawned, unstarted in *. cbn in *. etrans; [|exact Hr]. by apply submseteq_inserts_l.
  - cbn. by apply Forall_app.
Qed.

Lemma quiet_all past (w w' : World E) ws ps :
  wquiet P past w w' → sys_inv past (mkSys w ws ps) →
  sys_inv past (mkSys w' ws ps) ∧ evolves P past (view (w_redis w)) (view (w_redis w')).
Proof.
  intros Hq (HC & HW & HP). pose proof Hq as [He _]. split; [|done]. split_and!; cbn in *.
  - by eapply claims_ok_evolves.
  - done.
  - by eapply producers_quiet.
Qed.

(** A step of a worker, and its crash. *)
Lemma sys_worker_ok past l1 c s s' l2 ps w w' :
  step c (w, s) (w', s') ∨ recovery_step c (w, s) (w', s') →
  let x := mkSys w (l1 ++ (c, s) :: l2) ps in let y := mkSys w' (l1 ++ (c, s') :: l2) ps in
  sys_inv past x → sys_inv (either past (settles x y)) y ∧ evolves P past (view (w_redis w)) (view (w_redis w')).
Proof.
  intros Hs x y (HC & HW & HP). unfold x in HC, HW, HP. cbn [sy_world sy_workers sy_producers] in *.
  apply Forall_app in HW as [HW1 [HWs HW2]%Forall_cons].
  destruct (worker_step_ok past c w s w' s' Hs HWs) as [Hok Hq]. split; [|by apply Hq].
  assert (∀ q i, worker_settles c s w w' q i → settles x y q i) as Hset.
  { intros q i Hqi. exists c, s. split; [cbn; set_solver|done]. }
  split_and!; unfold y; cbn [sy_world sy_workers sy_producers].
  - eapply (claims_ok_perm _ _ _ (Permutation_sym (held_app l1 (c, s') l2))).
    eapply worker_step_claims; [apply HWs|exact Hs|exact Hq|].
    by eapply (claims_ok_perm _ _ _ (held_app l1 (c, s) l2)).
  - apply Forall_app. split; [|apply Forall_cons; split].
    1,3: eapply Forall_impl; [eassumption|]; intros z; apply worker_inv_mono; by left.
    eapply worker_inv_mono; [|exact Hok]. intros q i [?|?]; [by left|right; by apply Hset].
  - by eapply producers_quiet.
Qed.

Lemma sys_crash_ok past l1 c s l2 ps w :
  sys_inv past (mkSys w (l1 ++ (c, s) :: l2) ps) → sys_inv past (mkSys w (l1 ++ (c, crash s) :: l2) ps).
Proof.
  intros (HC & HW & HP). cbn [sy_world sy_workers sy_producers] in *.
  apply Forall_app in HW as [HW1 [HWs HW2]%Forall_cons].
  split_and!; cbn [sy_world sy_workers sy_producers]; [| |done].
  - eapply (claims_ok_perm _ _ _ (Permutation_sym (held_app l1 (c, crash s) l2))).
    eapply claims_ok_sub; [|by eapply (claims_ok_perm _ _ _ (held_app l1 (c, s) l2))].
    apply submseteq_app; [done|]. unfold held. cbn [fst snd]. rewrite !of_worker_app. unfold batch_of at 1.
    cbn. rewrite app_nil_r. by apply submseteq_inserts_r.
  - apply Forall_app. split; [done|]. apply Forall_cons. split; [by apply crash_ok|done].
Qed.

(** Every step keeps the invariant and lets the queues evolve. *)
Lemma sys_step_ok past x y :
  (N ≤ 1001)%nat → sys_step x y → sys_inv past x →
  sys_inv (either past (settles x y)) y ∧
  evolves P past (view (w_redis (sy_world x))) (view (w_redis (sy_world y))).
Proof.
  intros HN H Hinv. cut ((sys_inv past y ∨ sys_inv (either past (settles x y)) y) ∧
    evolves P past (view (w_redis (sy_world x))) (view (w_redis (sy_world y)))).
  { intros [[(HC & HW & HP)|?] ?]; [|done]. split; [|done]. split_and!; [done| |done].
    eapply Forall_impl; [exact HW|]. intros z. apply worker_inv_mono. by left. }
  destruct H as [l1 c s s' l2 ps w w' Hs|c ws ps w Hp|l1 c s l2 ps w|e job key v ws ps w Hp HD Hlt
    |l1 pr l2 ws w w' code Hg Hs|l1 pr l2 ws w w' X m k r Hcode Hm|l1 pr l2 ws w|l1 pr l2 ws w r Hr
    |q ws ps w w' r Hr|q now wk cnt blk ws ps w w' r Hr|rw q ws ps w w' r Hp Hr|q id ws ps w w' r Hr
    |ws ps w w' Hv].
  - destruct (sys_worker_ok past l1 c s s' l2 ps w w' Hs Hinv) as [H1 H2]. by split; [right|].
  - split; [|reflexivity]. left. destruct Hinv as (HC & HW & HP). cbn [sy_world sy_workers sy_producers] in *.
    split_and!; cbn [sy_world sy_workers sy_producers]; [by rewrite held_new| |done].
    apply Forall_app. split; [done|]. apply Forall_singleton. unfold worker_inv. cbn [fst snd].
    split_and!; [done|apply submseteq_nil_l|constructor..].
  - split; [|reflexivity]. left. by apply sys_crash_ok.
  - split; [|reflexivity]. left. destruct Hinv as (HC & HW & HP). split_and!; [done..|]. by apply producer_call.
  - destruct Hinv as (HC & HW & HP). cbn [sy_world sy_workers sy_producers] in *.
    destruct (producer_turn w w' l1 pr l2 code HP Hs) as [Hsame HP'].
    split; [|by apply (same_redis_quiet P past) in Hsame as [? _]].
    left. split_and!; cbn [sy_world sy_workers sy_producers]; [by rewrite Hsame|done..].
  - destruct Hinv as (HC & HW & HP). cbn [sy_world sy_workers sy_producers] in *.
    destruct (producer_await w w' l1 pr l2 X m k r HN HP Hcode Hm) as [He HP'].
    split; [|eapply evolves_mono; [|exact He]; by intros q i []].
    left. split_and!; [|done..]. by eapply claims_ok_evolves.
  - split; [|reflexivity]. left. destruct Hinv as (HC & HW & HP). split_and!; [done..|]. by apply producer_abandon.
  - split; [|reflexivity]. left. destruct Hinv as (HC & HW & HP). split_and!; [done..|]. by eapply producer_return.
  - destruct (quiet_all past w w' ws ps) as [H1 H2]; [|done|by split; [left|]].
    eapply preserves_run; [apply on_redis_quiet, ensure_group_quiet|exact Hr].
  - destruct (quiet_all past w w' ws ps) as [H1 H2]; [|done|by split; [left|]].
    eapply preserves_run; [apply on_redis_quiet, read_group_quiet|exact Hr].
  - destruct (quiet_all past w w' ws ps) as [H1 H2]; [|done|by split; [left|]].
    eapply preserves_run; [apply claim_stale_quiet|exact Hr].
  - destruct (quiet_all past w w' ws ps) as [H1 H2]; [|done|by split; [left|]].
    eapply preserves_run; [apply on_redis_quiet, delete_dlq_quiet|exact Hr].
  - destruct (quiet_all past w w' ws ps) as [H1 H2]; [|done|by split; [left|]]. by apply same_view_quiet.
Qed.


End System.
