(* ===== verification/Guarantees.v ===== *)
(** * What the system guarantees

    The properties of every run of [System.sys_step], and their witnesses: one
    producer, one worker whose handler fails, two racing producers. *)

From Stdlib Require Import String QArith.
From stdpp Require Import relations.
From S2P Require Import Prelude PyStr Json Errors Coroutine Datetime Job Retry Redis RedisModel Transport SqliteStore Metrics World Scenario Delivery Enqueue Execute Admission Recover Evolution Shutdown Runner Effects System.
Open Scope list_scope.
Open Scope Z_scope.

Section Guarantees.
Context {R : Redis} {RS : RedisSpec R} {E : Type}.
Variables (P : pystr) (D : Z) (N : nat).
(** At most as many enqueues in flight as [maxlen] lies above [max_queue_depth]. *)
Hypothesis few : (N ≤ 1001)%nat.

#[local] Abbreviation sys_step := (System.sys_step (E := E) P D N).
#[local] Abbreviation sys_inv := (System.sys_inv (E := E) P D N).
#[local] Abbreviation settles := (System.settles (E := E) P).

Definition queue_stream (x : sys E) (q : pystr) : stream_view := qstream P (view (w_redis (sy_world x))) q.

(** The entry's fate was decided in some step of a run from [x0] to [x]. *)
Definition settled_on (x0 x : sys E) (q : pystr) (i : rval) : Prop :=
  ∃ a b, rtc sys_step x0 a ∧ sys_step a b ∧ rtc sys_step b x ∧ settles a b q i.

Lemma sys_inv_mono (past past' : pystr → rval → Prop) (x : sys E) :
  (∀ q i, past q i → past' q i) → sys_inv past x → sys_inv past' x.
Proof.
  intros Hm (HC & HW & HP). split_and!; [done| |done].
  eapply Forall_impl; [exact HW|]. intros z. by apply worker_inv_mono.
Qed.

Lemma reach_inv x0 x : initial x0 → rtc sys_step x0 x → sys_inv (settled_on x0 x) x.
Proof.
  intros Hi. revert x. apply rtc_ind_r.
  - eapply sys_inv_mono; [|by apply initial_inv]. by intros q i [].
  - intros y z Hy Hyz IH. destruct (sys_step_ok P D N _ _ _ few Hyz IH) as [Hinv _].
    eapply sys_inv_mono; [|exact Hinv]. intros q i [(a & b & Ha & Hab & Hb & Hs)|Hs].
    + exists a, b. split_and!; try done. by eapply rtc_r.
    + exists y, z. by split_and!.
Qed.

Lemma reach_evolves x0 x y :
  initial x0 → rtc sys_step x0 x → sys_step x y →
  evolves P (settled_on x0 x) (view (w_redis (sy_world x))) (view (w_redis (sy_world y))).
Proof. intros Hi Hx Hxy. apply (sys_step_ok P D N _ _ _ few Hxy). by apply reach_inv. Qed.

(** The entries whose tasks ran, over all workers, crashed ones included. *)
Definition executed (ws : list (WorkerRunner E * runner E)) : list (pystr * rval) :=
  concat ((λ x, of_worker x.1 (rs_executed x.2)) <$> ws).

Lemma executed_held past ws : Forall (worker_inv P past) ws → executed ws ⊆+ held_by ws.
Proof.
  induction 1 as [|[c s] ws (_ & Hr & _) _ IH]; [done|]. unfold executed, held_by in *. cbn.
  apply submseteq_app; [|done]. unfold held. cbn [fst snd]. rewrite of_worker_app.
  apply submseteq_inserts_r, fmap_submseteq. etrans; [|exact Hr]. by apply submseteq_inserts_l.
Qed.

(** C1: every entry is executed at most once, ever.  In every state that any
    interleaving of producers (at most 1001 enqueues in flight), workers (started, cancelled, crashing and restarting
    at will), recovery and dead-letter administration can reach, no stream entry
    has been run by two tasks: a job whose handler failed, timed out or whose
    worker crashed is never run again. *)
Theorem executed_at_most_once x0 x :
  initial x0 → rtc sys_step x0 x → NoDup (executed (sy_workers x)).
Proof.
  intros Hi Hx. destruct (reach_inv _ _ Hi Hx) as ((_ & Hn & _) & HW & _).
  apply executed_held in HW. apply submseteq_Permutation in HW as [k Hk].
  rewrite Hk in Hn. by apply NoDup_app in Hn as [? _].
Qed.

Lemma steps_entries x0 x y q :
  initial x0 → rtc sys_step x0 x → rtc sys_step x y →
  s_entries (queue_stream x q) `prefix_of` s_entries (queue_stream y q).
Proof.
  intros Hi Hx Hxy. revert Hx. induction Hxy as [x|x y z Hxy _ IH]; intros Hx; [done|].
  etrans; [|apply IH; by eapply rtc_r]. apply (reach_evolves _ _ _ Hi Hx Hxy q).
Qed.

(** C16: a full queue stays full.  No operation of the system removes an entry
    from a queue's stream (acknowledging does not), so once the stream has
    reached [max_queue_depth], after any further steps (with at most 1001 enqueues in
    flight) an enqueue to it fails and
    admission control (with a bound no larger) refuses to poll. *)
Theorem full_queue_stays_full (x0 x y : sys E) e job :
  initial x0 → rtc sys_step x0 x → rtc sys_step x y →
  enq_prefix e = P → max_queue_depth e ≤ depth_of e job (view (w_redis (sy_world x))) →
  (∀ key validate r w', enqueue e job key validate (sy_world y) = (r, w') → is_ok r = false) ∧
  (∀ a r w', adm_prefix a = P → max_depth a ≤ max_queue_depth e →
     check a (py_str (job_queue job)) (sy_world y) = (r, w') → is_ok r = false).
Proof.
  intros Hi Hx Hxy Hp Hfull.
  assert (max_queue_depth e ≤ depth_of e job (view (w_redis (sy_world y)))) as Hfull'.
  { destruct (steps_entries _ _ _ (py_str (job_queue job)) Hi Hx Hxy) as [l Hl].
    unfold depth_of, job_stream, queue_stream, qstream in *. rewrite Hp in *. rewrite Hl, length_app. lia. }
  split.
  - intros key validate r w' H. unfold enqueue in H.
    apply st_bind_inv in H as [(a0 & w0 & Hv & H)|(exc & Hv & ->)]; [|done].
    apply validate_run in Hv as ->.
    apply st_bind_inv in H as [(a1 & w1 & Hd & H)|(exc & Hd & ->)]; [|done].
    apply check_depth_run in Hd as (_ & _ & Hd). lia.
  - intros a r w' Ha Hle H. apply check_run in H as [_ H]. destruct r; [|done].
    unfold depth_of, job_stream in Hfull'. rewrite Hp in Hfull'. rewrite Ha in H. lia.
Qed.

(** C17: the depth bound under concurrency, from above.  The check and the XADD are
    separate commands; with at most [N] enqueues in flight, [N] up to 1001, no queue
    ever has more than [D - 1 + N] entries, [D] the [max_queue_depth] (none, when that
    is negative).  That it can have as many is [Overshoot.overshoot_reached]. *)
Theorem depth_overshoot x0 x q :
  initial x0 → rtc sys_step x0 x →
  Z.of_nat (length (s_entries (queue_stream x q))) ≤ Z.max 0 (D - 1 + Z.of_nat N).
Proof.
  intros Hi Hx. destruct (reach_inv _ _ Hi Hx) as (_ & _ & (l & _ & _ & _ & Hc)).
  specialize (Hc q). pose proof (committed_range q l). unfold depth, cap in Hc. unfold queue_stream. lia.
Qed.

(** ** Queues *)

(** Every step of the system is a run of the abstract queue, for each queue. *)
Lemma steps_fifo x0 x y q :
  initial x0 → rtc sys_step x0 x → rtc sys_step x y → fifo P q (queue_stream x q) (queue_stream y q).
Proof.
  intros Hi Hx Hxy. revert Hx. induction Hxy as [x|x y z Hxy _ IH]; intros Hx; [apply fifo_refl|].
  eapply fifo_trans; [|apply IH; by eapply rtc_r].
  destruct (reach_inv _ _ Hi Hx) as ((Hwf & _) & _).
  destruct (reach_evolves _ _ _ Hi Hx Hxy q) as (_ & _ & _ & _ & HF). by apply HF.
Qed.

(** C13: the stream of a queue implements a FIFO queue.  From any reachable state,
    every interleaving of producers (at most 1001 enqueues in flight), workers, crashes,
    recovery and dead-letter administration is, seen on one queue, a run of [queue_step]: ids join at the
    back, only the id at the front is delivered, and what is in flight was
    delivered. *)
Theorem system_refines_queue x0 x y q :
  initial x0 → rtc sys_step x0 x → rtc sys_step x y →
  rtc queue_step (queue_of P (view (w_redis (sy_world x))) q)
                 (queue_of P (view (w_redis (sy_world y))) q).
Proof.
  intros Hi Hx Hxy. destruct (steps_fifo x0 x y q Hi Hx Hxy) as (new & taken & _ & _ & Hw & Hf).
  apply (queue_run _ (ids new) (ids taken)); [|done].
  unfold queue_stream in Hw. unfold ids. by rewrite <- !fmap_app, Hw.
Qed.

(** C14: Jobs are handed out in the order of their enqueueing.  In every reachable
    state the ids a queue has issued are, in order, the delivered ones followed by
    the waiting ones; only delivered ids are pending, and only delivered ids have
    been run (with at most 1001 enqueues in flight, as everywhere here). *)
Theorem fifo_delivery x0 x q :
  initial x0 → rtc sys_step x0 x →
  let s := queue_stream x q in
  ∃ delivered, s_issued s = delivered ++ ids (waiting P q s) ∧ NoDup (s_issued s) ∧
    in_flight P q s ⊆ delivered ∧ ∀ i, (q, i) ∈ executed (sy_workers x) → i ∈ delivered.
Proof.
  intros Hinit Hx s. destruct (steps_fifo x0 x0 x q Hinit (rtc_refl _ _) Hx) as (new & taken & _ & Hi & Hw & Hf).
  destruct (reach_inv _ _ Hinit Hx) as ((Hwf & _ & HC) & HW & _). destruct Hinit as (Hv & _ & _).
  assert (queue_stream x0 q = empty_stream) as He
    by (unfold queue_stream, qstream, stream_of; by rewrite Hv, lookup_empty).
  assert (waiting P q empty_stream = [] ∧ in_flight P q empty_stream = []) as [He1 He2]
    by (unfold waiting, in_flight; cbn [empty_stream s_groups]; by rewrite lookup_empty).
  rewrite He in Hi, Hw, Hf. rewrite He1 in Hw. rewrite He2 in Hf. cbn [app empty_stream s_issued] in *.
  fold s in Hi, Hw, Hf.
  exists (ids taken). rewrite Hi, Hw. unfold ids at 1. rewrite fmap_app. split_and!; [done| |done|].
  - destruct (Hwf q) as [Hn _]. change (qstream P _ q) with s in Hn. by rewrite Hi, Hw in Hn.
  - intros i Hq. assert ((q, i) ∈ held_by (sy_workers x)) as Hh
      by (eapply elem_of_submseteq; [exact Hq|by eapply executed_held]).
    destruct (HC q i Hh) as (Hiss & g & Hg & Hni). change (qstream P _ q) with s in Hiss, Hg.
    rewrite Hi, Hw in Hiss. unfold ids in Hiss. rewrite fmap_app in Hiss.
    apply elem_of_app in Hiss as [?|Hin]; [done|]. unfold waiting in Hin. rewrite Hg in Hin. done.
Qed.

(** ** Pending entries *)

Lemma stream_group_at (v : server) (k g : pystr) gv :
  s_groups (stream_of v k) !! g = Some gv → group_at v k g = Some gv.
Proof. unfold group_at, stream_of. destruct (v !! k); [done|]. simpl. by rewrite lookup_empty. Qed.

Lemma pending_evolves X v v' q id :
  evolves P X v v' → pending P v q id → id ∈ ids (s_entries (qstream P v q)) →
  pending P v' q id ∨ X q id.
Proof.
  intros H (g & Hg%group_at_stream & Hin) He. destruct (H q) as (_ & _ & _ & HG & _).
  destruct (HG g Hg) as (g' & Hg' & _ & HP). destruct (HP id Hin He) as [?|?]; [left|by right].
  exists g'. split; [by apply stream_group_at|done].
Qed.

(** C4: a delivered entry stays pending until it is settled.  An entry of the stream
    that is pending in some state of a run (at most 1001 enqueues in flight) still is
    in every later one, or there was a step that was its task's handler's, which
    returned, or the dead-letter write for its job, which the handler had failed, and
    put the job on the dead-letter stream with one more attempt:
    no crash, cancellation, drain, recovery or lost reply acknowledges a job that is
    not settled. *)
Theorem pending_until_settled x0 x y q id :
  initial x0 → rtc sys_step x0 x → rtc sys_step x y →
  pending P (view (w_redis (sy_world x))) q id → id ∈ ids (s_entries (queue_stream x q)) →
  pending P (view (w_redis (sy_world y))) q id ∨
  ∃ a b, rtc sys_step x0 a ∧ sys_step a b ∧ rtc sys_step b y ∧ settles a b q id.
Proof.
  intros Hi Hx Hxy. revert Hx. induction Hxy as [x|x z y Hxz Hzy IH]; intros Hx Hp He; [by left|].
  destruct (pending_evolves _ _ _ _ _ (reach_evolves _ _ _ Hi Hx Hxz) Hp He) as [Hp'|(a & b & Ha & Hab & Hb & Hs)].
  - apply IH; [by eapply rtc_r|done|].
    destruct (steps_entries _ _ _ q Hi Hx (rtc_once _ _ Hxz)) as [l ->].
    unfold ids. rewrite fmap_app. set_solver.
  - right. exists a, b. split_and!; try done. etrans; [exact Hb|]. by eapply rtc_l.
Qed.

End Guarantees.

(** ** An enqueue with nothing in between *)

Section Alone.
Context {R : Redis} {RS : RedisSpec R} {E : Type}.
Variables (P : pystr) (D : Z) (N : nat).

Lemma producer_runs (pr : producer E) l1 l2 ws code :
  pr_gone pr = false → ∀ w,
  let '(code', w1) := settle code w in let '(r, w2) := co_run code w in
  rtc (sys_step P D N) (mkSys w1 ws (l1 ++ with_pr_code pr code' :: l2))
                       (mkSys w2 ws (l1 ++ with_pr_code pr (CoRet r) :: l2)).
Proof.
  intros Hg. induction code as [r|X m k IH|X m k IH]; intros w; cbn [settle co_run]; [done|..];
    destruct (m w) as [r w1] eqn:Hm; [apply IH|].
  specialize (IH r w1). destruct (settle (k r) w1) as [code' w2] eqn:Hs, (co_run (k r) w1) as [r' w3].
  eapply rtc_l; [|eapply rtc_l; [|exact IH]].
  - by eapply (sys_await P D N l1 (with_pr_code pr (CoAwait m k))).
  - by apply (sys_turn P D N l1 (with_pr_code pr (woken r k))).
Qed.

(** Its suspension points taken at once, an enqueue is the function [enqueue]. *)
Lemma enqueue_alone e job key validate (w : World E) ws ps :
  enq_prefix e = P → max_queue_depth e = D → (length ps < N)%nat →
  rtc (sys_step P D N) (mkSys w ws ps) (mkSys (enqueue e job key validate w).2 ws ps).
Proof.
  intros Hp HD HN.
  set (pr := mkProducer (E := E) (py_str (job_queue job)) (enqueue_co e job key validate) false).
  pose proof (producer_runs pr ps [] ws (enqueue_co e job key validate) eq_refl w) as H.
  rewrite (enqueue_co_run e job key validate w) in H.
  destruct (settle (enqueue_co e job key validate) w) as [code w1] eqn:Hs.
  destruct (enqueue e job key validate w) as [r w2]. cbn [snd].
  eapply rtc_l; [by apply (sys_call P D N e job key validate)|].
  eapply rtc_l; [by apply (sys_turn P D N ps pr [] ws w w1 code)|].
  eapply rtc_r; [exact H|].
  pose proof (sys_return P D N ps (with_pr_code pr (CoRet r)) [] ws w2 r) as Hr.
  rewrite app_nil_r in Hr. apply Hr. by left.
Qed.

Lemma worker_steps (c : WorkerRunner E) w s w' s' l1 l2 ps :
  rtc (task_step c) (w, s) (w', s') →
  rtc (sys_step P D N) (mkSys w (l1 ++ (c, s) :: l2) ps) (mkSys w' (l1 ++ (c, s') :: l2) ps).
Proof.
  intros H. eapply (rtc_congruence (λ x : World E * runner E, mkSys x.1 (l1 ++ (c, x.2) :: l2) ps)) in H;
    [exact H|].
  intros [w1 s1] [w2 s2] Hs. apply sys_worker. left. by apply step_task.
Qed.

End Alone.

(** ** Witnesses *)

(** One producer, one worker whose handler fails, one job; room for one job, and at
    most ten enqueues at a time. *)
Definition failing_worker : WorkerRunner unit := worker1 (raises boom).
Definition sw0 : World unit := world_on fresh_server.
Definition enqueuer0 : Enqueuer := mkEnqueuer relayq 1 None.
Definition sw1 : World unit := run (enqueue enqueuer0 (mail_job 3) None None) sw0.
Definition sw2 : World unit := run (on_redis (ensure_group relayq mail)) sw1.
Definition sw3 : World unit := run (read_jobs failing_worker) sw2.
Definition d1 : delivery := delivery_of (RS (u "1-0")).
Definition sr0 : runner unit := set_pc Polling (set_recovery NoRecovery (set_pc Loop (new_runner failing_worker))).
Definition sr1 : runner unit := set_pc (Dispatch [d1]) sr0.
Definition sr2 : runner unit := spawn (new_task failing_worker d1) [] sr1.
Definition sw4 : World unit := run (observe_inflight failing_worker (length (_inflight sr2))) sw3.
Definition sw5 : World unit := run (_process_job failing_worker (length (_inflight sr2)) d1) sw4.
Definition sr3 : runner unit := task_ends [] (new_task failing_worker d1) [] true (log_executed d1 sr2).

Definition x0 : sys unit := mkSys sw0 [] [].
Definition x1 : sys unit := mkSys sw1 [] [].
Definition x3 : sys unit := mkSys sw3 [(failing_worker, sr1)] [].
Definition x5 : sys unit := mkSys sw5 [(failing_worker, sr3)] [].
#[local] Abbreviation steps := (rtc (sys_step relayq 1 10)).

Lemma x0_initial : initial x0.
Proof. by split_and!. Qed.

Lemma steps_x1 : steps x0 x1.
Proof. apply (enqueue_alone relayq 1 10 enqueuer0 (mail_job 3) None None sw0); [done..|simpl; lia]. Qed.

Lemma worker_does s s' w w' :
  loop_step failing_worker (w, s) (w', s') →
  sys_step relayq 1 10 (mkSys w [(failing_worker, s)] []) (mkSys w' [(failing_worker, s')] []).
Proof. intros H. apply (sys_worker relayq 1 10 [] failing_worker s s' []). left. by apply step_loop. Qed.

Lemma steps_x3 : steps x1 x3.
Proof.
  eapply rtc_l; [by apply (sys_new _ _ _ failing_worker [])|].
  eapply rtc_l.
  { apply worker_does. apply (st_start failing_worker sw1 sw2); [reflexivity|].
    apply (run_eq (on_redis (ensure_group relayq mail)) sw1 (Ok tt)). vm_compute. reflexivity. }
  eapply rtc_l; [apply worker_does; apply (st_test failing_worker sw2); reflexivity|].
  apply rtc_once, worker_does, (st_read failing_worker sw2 sw3 sr0 (Some [d1])); [reflexivity|].
  apply (run_eq (read_jobs failing_worker) sw2 (Ok (Some [d1]))). vm_compute. reflexivity.
Qed.

Lemma steps_x5 : steps x3 x5.
Proof.
  eapply rtc_l.
  - apply worker_does, (st_spawn failing_worker sw3 sw4 sr1 d1 []); [reflexivity|reflexivity|].
    apply (run_eq (observe_inflight failing_worker (length (_inflight sr2))) sw3 (Ok tt)). reflexivity.
  - apply (worker_steps relayq 1 10 failing_worker sw4 sr2 sw5 sr3 [] [] []).
    apply (task_runs failing_worker sw4 sr2 [] d1 []). reflexivity.
Qed.

Lemma steps_all : steps x0 x5.
Proof. etrans; [exact steps_x1|]. etrans; [exact steps_x3|exact steps_x5]. Qed.

Lemma few10 : (10 ≤ 1001)%nat.
Proof. lia. Qed.

Lemma executed_at_most_once_witness :
  executed (sy_workers x5) = [(mail, RS (u "1-0"))] ∧ NoDup (executed (sy_workers x5)).
Proof.
  split; [reflexivity|].
  exact (executed_at_most_once relayq 1 10 few10 x0 x5 x0_initial steps_all).
Defined.

(** The queue has room for one job: after the worker ran it, still no enqueue succeeds. *)
Lemma full_queue_stays_full_witness :
  let '(r, w') := enqueue enqueuer0 (mail_job 3) None None sw5 in
  r = Raise (QueueFull (JStr mail) 1 1) ∧ is_ok r = false.
Proof.
  destruct (enqueue enqueuer0 (mail_job 3) None None sw5) as [r w'] eqn:H.
  outcome_is H (Raise (A:=rval) (QueueFull (JStr mail) 1 1)). split; [reflexivity|].
  destruct (full_queue_stays_full relayq 1 10 few10 x0 x1 x5 enqueuer0 (mail_job 3))
    as [Hfull _]; [exact x0_initial|exact steps_x1|etrans; [exact steps_x3|exact steps_x5]|reflexivity| |].
  - apply Z.leb_le. vm_compute. reflexivity.
  - by eapply Hfull.
Defined.

Lemma pending_until_settled_witness :
  let q := mail in let id := RS (u "1-0") in
  pending relayq (view (w_redis sw5)) q id ∨
  ∃ a b, steps x0 a ∧ sys_step relayq 1 10 a b ∧ steps b x5 ∧ settles relayq a b q id.
Proof.
  intros q id.
  apply (pending_until_settled relayq 1 10 few10 x0 x3 x5 q id).
  - exact x0_initial.
  - etrans; [exact steps_x1|exact steps_x3].
  - exact steps_x5.
  - exists (mail_group (w_redis sw3)). split; [vm_compute; reflexivity|].
    apply (bool_decide_unpack _). vm_compute. reflexivity.
  - apply (bool_decide_unpack _). vm_compute. reflexivity.
Defined.

(** Seen on the queue [mail]: one id arrived and was delivered, and stays in flight. *)
Lemma system_refines_queue_witness :
  queue_of relayq (view (w_redis sw5)) mail = mkQueue [] [RS (u "1-0")] ∧
  rtc queue_step (queue_of relayq (view (w_redis sw0)) mail)
                 (queue_of relayq (view (w_redis sw5)) mail).
Proof.
  split; [vm_compute; reflexivity|].
  exact (system_refines_queue relayq 1 10 few10 x0 x0 x5 mail x0_initial (rtc_refl _ _) steps_all).
Defined.

Lemma fifo_delivery_witness :
  let s := queue_stream relayq x5 mail in
  s_issued s = [RS (u "1-0")] ∧
  ∃ delivered, s_issued s = delivered ++ ids (waiting relayq mail s) ∧ NoDup (s_issued s) ∧
    in_flight relayq mail s ⊆ delivered ∧
    ∀ i, (mail, i) ∈ executed (sy_workers x5) → i ∈ delivered.
Proof.
  intros s. split; [vm_compute; reflexivity|].
  exact (fifo_delivery relayq 1 10 few10 x0 x5 mail x0_initial steps_all).
Defined.

(** Two producers pass the depth check before either adds its entry. *)
Definition awaited {A} (t : coroutine (World unit) A) (w : World unit) : coroutine (World unit) A * World unit :=
  match t with CoAwait m k => let '(r, w') := m w in (woken r k, w') | _ => (t, w) end.

Definition p0 : coroutine (World unit) rval := enqueue_co enqueuer0 (mail_job 3) None None.
Definition pr0 : producer unit := mkProducer mail p0 false.
Definition a1 := awaited p0 sw0.
Definition a2 := awaited p0 a1.2.
Definition b1 := settle a1.1 a2.2.
Definition b2 := settle a2.1 b1.2.
Definition c1 := awaited b1.1 b2.2.
Definition c2 := awaited b2.1 c1.2.
Definition raced : sys unit := mkSys c2.2 [] [with_pr_code pr0 c1.1; with_pr_code pr0 c2.1].

Definition waits {A} (t : coroutine (World unit) A) : bool := match t with CoAwait _ _ => true | _ => false end.

Lemma producer_awaits l1 (code : coroutine (World unit) rval) l2 w :
  waits code = true →
  sys_step relayq 1 2 (mkSys w [] (l1 ++ with_pr_code pr0 code :: l2))
    (mkSys (awaited code w).2 [] (l1 ++ with_pr_code pr0 (awaited code w).1 :: l2)).
Proof.
  destruct code as [|X m k|X m k]; try done. intros _. cbn.
  destruct (m w) as [r w'] eqn:H. by apply (sys_await relayq 1 2 l1 (with_pr_code pr0 (CoAwait m k)) l2 [] w w' X m k r).
Qed.

Lemma producer_turns l1 (code : coroutine (World unit) rval) l2 w :
  sys_step relayq 1 2 (mkSys w [] (l1 ++ with_pr_code pr0 code :: l2))
    (mkSys (settle code w).2 [] (l1 ++ with_pr_code pr0 (settle code w).1 :: l2)).
Proof.
  apply (sys_turn relayq 1 2 l1 (with_pr_code pr0 code)); [done|]. cbn. by destruct (settle code w).
Qed.

Lemma steps_raced : rtc (sys_step relayq 1 2) x0 raced.
Proof.
  eapply rtc_l; [by apply (sys_call relayq 1 2 enqueuer0 (mail_job 3) None None [] [] sw0); [done..|simpl; lia]|].
  eapply rtc_l; [by apply (sys_call relayq 1 2 enqueuer0 (mail_job 3) None None [] [pr0] sw0); [done..|simpl; lia]|].
  eapply rtc_l; [apply (producer_awaits [] p0 [pr0] sw0); vm_compute; reflexivity|].
  eapply rtc_l; [apply (producer_awaits [with_pr_code pr0 a1.1] p0 [] a1.2); vm_compute; reflexivity|].
  eapply rtc_l; [apply (producer_turns [] a1.1 [with_pr_code pr0 a2.1] a2.2)|].
  eapply rtc_l; [apply (producer_turns [with_pr_code pr0 b1.1] a2.1 [] b1.2)|].
  eapply rtc_l; [apply (producer_awaits [] b1.1 [with_pr_code pr0 b2.1] b2.2); vm_compute; reflexivity|].
  apply rtc_once, (producer_awaits [with_pr_code pr0 c1.1] b2.1 [] c1.2). vm_compute. reflexivity.
Qed.

(** The bound is reached: two entries in a queue of [max_queue_depth] one. *)
Lemma depth_overshoot_witness :
  length (s_entries (queue_stream relayq raced mail)) = 2%nat ∧
  Z.of_nat (length (s_entries (queue_stream relayq raced mail))) ≤ Z.max 0 (1 - 1 + 2).
Proof.
  split; [vm_compute; reflexivity|].
  apply (depth_overshoot relayq 1 2 ltac:(lia) x0 raced mail x0_initial steps_raced).
Defined.
