(* ===== verification/Overshoot.v ===== *)
(** * The depth bound is exceeded

    [Guarantees.depth_overshoot] bounds the depth of a queue from above; here the bound
    is reached, for any depth bound and any number of enqueues in flight, on a server
    that answers.  Producers fill the queue to one below the bound, [N] more all pass
    the depth check, then each adds its entry. *)

From Stdlib Require Import String QArith.
From stdpp Require Import relations.
From S2P Require Import Prelude PyStr Json Errors Coroutine Datetime Job Redis RedisModel Transport SqliteStore World Scenario Delivery Enqueue Evolution System Guarantees.
Open Scope list_scope.
Open Scope Z_scope.

Section Overshoot.
Context {R : Redis} {RS : RedisSpec R} {E : Type}.
Variables (P : pystr) (D : Z) (N : nat).
Hypothesis few : (N ≤ 1001)%nat.

(** A server that answers the two commands of an enqueue, and goes on to. *)
Variable up : rstate → Prop.
Hypothesis xlen_up : ∀ k s, up s → ∃ n s', xlen k s = (Ok n, s') ∧ up s'.
Hypothesis xadd_up : ∀ k body m s, up s → ∃ id s', xadd k body m s = (Ok id, s') ∧ up s'.

Variables (job : Job) (body : fields).
Hypothesis Hbody : job_body job = Ok body.

#[local] Abbreviation queue := (py_str (job_queue job)).
#[local] Abbreviation steps := (rtc (System.sys_step (E := E) P D N)).

(** The server answers, and the queue has [n] entries. *)
Definition filled (n : nat) (w : World E) : Prop :=
  up (w_redis w) ∧ length (s_entries (qstream P (view (w_redis w)) queue)) = n.

(** The two commands. *)
Definition read_depth : M (World E) Z := on_redis (stream_length P queue).
Definition add_entry : M (World E) rval := on_redis (transport_xadd P queue job (D + 1000) true).

Lemma read_depth_runs n w :
  filled n w → ∃ w', read_depth w = (Ok (Z.of_nat n), w') ∧ filled n w'.
Proof.
  intros [Hup Hn]. destruct (xlen_up (_stream_key P queue) (w_redis w) Hup) as (m & s' & Hx & Hup').
  pose proof Hx as Hl. apply xlen_law in Hl as [-> Hv]. exists (with_redis s' w). split.
  - unfold read_depth. rewrite <- Hn. by apply on_redis_run.
  - split; [done|]. cbn. by rewrite Hv.
Qed.

Lemma add_entry_runs n w :
  Z.of_nat n < D + 1000 → filled n w → ∃ id w', add_entry w = (Ok id, w') ∧ filled (S n) w'.
Proof.
  intros Hlt [Hup Hn].
  destruct (xadd_up (_stream_key P queue) body (maxlen_option (D + 1000) true) (w_redis w) Hup)
    as (id & s' & Hx & Hup').
  pose proof Hx as Hl. apply xadd_law in Hl as (k & _ & Hk & Hv). exists id, (with_redis s' w). split.
  - apply on_redis_run. unfold transport_xadd, lift, mbind, st_mbind. by rewrite Hbody.
  - split; [done|]. unfold qstream, stream_of in *. cbn. rewrite Hv, lookup_insert_eq. cbn.
    rewrite length_drop, length_app, Hn. cbn. rewrite Hn in Hk.
    unfold maxlen_option, trim_ok in Hk. destruct (Z.eqb_spec (D + 1000) 0); lia.
Qed.

(** An enqueuer without a store, and one of its calls past the depth check. *)
Definition plain : Enqueuer := mkEnqueuer P D None.
Definition fresh_call : producer E := mkProducer queue (enqueue_co plain job None None) false.
Definition ready_call : producer E := mkProducer queue (co_await add_entry) false.

(** A call passes the check while the queue is below the bound. *)
Lemma call_passes n w ws ps :
  Z.of_nat n < D → filled n w → (length ps < N)%nat →
  ∃ w', filled n w' ∧ steps (mkSys w ws ps) (mkSys w' ws (ps ++ [ready_call])).
Proof.
  intros Hlt Hw Hps. destruct (read_depth_runs n w Hw) as (w' & Hr & Hw'). exists w'. split; [done|].
  eapply rtc_l; [by apply (sys_call P D N plain job None None)|].
  eapply rtc_l; [by apply (sys_await P D N ps fresh_call [] ws w w' _ read_depth _ _ eq_refl Hr)|].
  apply rtc_once. apply (sys_turn P D N ps (with_pr_code fresh_call _) [] ws w' w' (co_await add_entry)); [done|].
  cbn. destruct (Z.leb_spec D (Z.of_nat n)); [lia|]. reflexivity.
Qed.

Lemma calls_pass n w k :
  Z.of_nat n < D → filled n w → (k ≤ N)%nat →
  ∃ w', filled n w' ∧ steps (mkSys w [] []) (mkSys w' [] (replicate k ready_call)).
Proof.
  intros Hlt Hw. induction k as [|k IH]; intros Hk; [by exists w|].
  destruct IH as (w1 & Hw1 & H1); [lia|].
  destruct (call_passes n w1 [] (replicate k ready_call) Hlt Hw1) as (w2 & Hw2 & H2);
    [rewrite length_replicate; lia|].
  exists w2. split; [done|]. etrans; [exact H1|]. by rewrite replicate_S_end.
Qed.

(** A call past the check adds its entry and returns, whatever the depth is now. *)
Lemma call_adds n w ps :
  Z.of_nat n < D + 1000 → filled n w →
  ∃ w', filled (S n) w' ∧ steps (mkSys w [] (ready_call :: ps)) (mkSys w' [] ps).
Proof.
  intros Hlt Hw. destruct (add_entry_runs n w Hlt Hw) as (id & w' & Hr & Hw'). exists w'. split; [done|].
  eapply rtc_l; [by apply (sys_await P D N [] ready_call ps [] w w' _ add_entry _ _ eq_refl Hr)|].
  eapply rtc_l; [apply (sys_turn P D N [] (with_pr_code ready_call _) ps [] w' w' (CoRet (Ok id))); done|].
  apply rtc_once. apply (sys_return P D N [] (with_pr_code ready_call (CoRet (Ok id))) ps [] w' (Ok id)). by left.
Qed.

Lemma calls_add k n w :
  Z.of_nat (n + k) ≤ D + 1000 → filled n w →
  ∃ w', filled (n + k) w' ∧ steps (mkSys w [] (replicate k ready_call)) (mkSys w' [] []).
Proof.
  revert n w. induction k as [|k IH]; intros n w Hle Hw; [exists w; by rewrite Nat.add_0_r|].
  destruct (call_adds n w (replicate k ready_call)) as (w1 & Hw1 & H1); [lia|done|].
  destruct (IH (S n) w1) as (w2 & Hw2 & H2); [lia|done|].
  exists w2. split; [by replace (n + S k)%nat with (S n + k)%nat by lia|]. etrans; [exact H1|exact H2].
Qed.

(** One at a time, calls fill the queue up to the bound. *)
Lemma calls_fill n w :
  (1 ≤ N)%nat → Z.of_nat n ≤ D → filled 0 w →
  ∃ w', filled n w' ∧ steps (mkSys w [] []) (mkSys w' [] []).
Proof.
  intros HN Hle Hw. induction n as [|n IH]; [by exists w|].
  destruct IH as (w1 & Hw1 & H1); [lia|].
  destruct (calls_pass n w1 1) as (w2 & Hw2 & H2); [lia|done|lia|].
  destruct (calls_add 1 n w2) as (w3 & Hw3 & H3); [lia|done|].
  exists w3. split; [by rewrite Nat.add_1_r in Hw3|]. etrans; [exact H1|]. etrans; [exact H2|exact H3].
Qed.

(** C8: the depth bound is exceeded, by as much as it can be.  From any initial state of
    a server that answers, with a positive [max_queue_depth] [D] and [N] enqueues in
    flight, some run of the system, in which every enqueue succeeds, leaves
    [D - 1 + N] entries on the queue. *)
Theorem overshoot_reached x0 :
  (1 ≤ N)%nat → 1 ≤ D → initial x0 → up (w_redis (sy_world x0)) →
  ∃ x, steps x0 x ∧
       Z.of_nat (length (s_entries (queue_stream P x queue))) = D - 1 + Z.of_nat N.
Proof.
  intros HN HD (Hv & Hws & Hps) Hup. destruct x0 as [w ws ps]. cbn in *. subst ws ps.
  assert (filled 0 w) as H0 by (split; [done|]; by rewrite Hv).
  destruct (calls_fill (Z.to_nat (D - 1)) w) as (w1 & Hw1 & H1); [done|lia|done|].
  destruct (calls_pass (Z.to_nat (D - 1)) w1 N) as (w2 & Hw2 & H2); [lia|done|lia|].
  destruct (calls_add N (Z.to_nat (D - 1)) w2) as (w3 & [_ Hw3] & H3); [lia|done|].
  exists (mkSys w3 [] []). split; [etrans; [exact H1|]; etrans; [exact H2|exact H3]|].
  unfold queue_stream. cbn. rewrite Hw3. lia.
Qed.

End Overshoot.

(** A server without faults; seven enqueues around a bound of three. *)
Definition no_faults (s : mstate) : Prop := m_faults s = [].

Lemma xlen_no_faults k (s : mstate) : no_faults s → ∃ n s', m_xlen k s = (Ok n, s') ∧ no_faults s'.
Proof. intros H. unfold m_xlen, faulty. rewrite H. by do 2 eexists. Qed.

Lemma xadd_no_faults k body m (s : mstate) :
  no_faults s → ∃ id s', m_xadd k body m s = (Ok id, s') ∧ no_faults s'.
Proof. intros H. unfold m_xadd, faulty. rewrite H. by do 2 eexists. Qed.

Definition mail_body : fields := match job_body (mail_job 3) with Ok b => b | Raise _ => [] end.

Lemma overshoot_reached_witness :
  ∃ x, rtc (System.sys_step relayq 3 7) x0 x ∧
       Z.of_nat (length (s_entries (queue_stream relayq x mail))) = 9.
Proof.
  apply (overshoot_reached relayq 3 7 ltac:(lia) no_faults xlen_no_faults xadd_no_faults (mail_job 3) mail_body).
  - reflexivity.
  - lia.
  - lia.
  - exact x0_initial.
  - reflexivity.
Defined.
