(* ===== verification/Integrity.v ===== *)
(** * What is executed was enqueued

    Along every run of [System.sys_step] each entry of a queue's stream holds the
    body of a job that some enqueue was called with for that queue, and each delivery
    a worker holds was decoded from the entry with its id.  So workers run nothing but
    what producers enqueued: no job is invented, mixed up or sent to another queue. *)

From Stdlib Require Import String QArith.
From stdpp Require Import relations.
From S2P Require Import Prelude PyStr Json Errors Coroutine Datetime Job Retry Redis RedisModel Transport SqliteStore Metrics World Scenario Delivery Enqueue Execute Admission Recover Evolution Shutdown Runner Effects System Guarantees.
Open Scope list_scope.
Open Scope Z_scope.

Section Integrity.
Context {R : Redis} {RS : RedisSpec R} {E : Type}.
Variables (P : pystr) (D : Z) (N : nat).
Hypothesis few : (N ≤ 1001)%nat.
#[local] Abbreviation sys_step := (System.sys_step (E := E) P D N).

(** ** Deliveries and entries *)

(** The delivery is the decoded entry with its id. *)
Definition read_from (es : list entry) (d : delivery) : Prop :=
  ∃ body now, (d.1.2, body) ∈ es ∧ decode_entry now (prod_map reply reply <$> body) = Ok (Some d.2).

Lemma collect_read_from now name (l : list entry) got :
  collect now name (reply_entry <$> l) = Ok got → Forall (read_from l) got.
Proof.
  revert got. induction l as [|[id body] l IH]; intros got; [by intros [= <-]|]; rewrite fmap_cons.
  assert (∀ es, Forall (read_from l) es → Forall (read_from ((id, body) :: l)) es) as Hmono.
  { intros es H. eapply Forall_impl; [exact H|]. intros d (b & n & Hin & Hd). exists b, n. split; [by right|done]. }
  change (reply_entry (id, body)) with (id, prod_map reply reply <$> body). cbn [collect].
  destruct (decode_entry now (prod_map reply reply <$> body)) as [[j|]|e] eqn:Hd; cbn [mbind result_mbind]; [| |done].
  - destruct name as [nm|e]; [|done]. cbn [mbind result_mbind].
    destruct (collect now (Ok nm) _) as [rest|e] eqn:Hc; [|done]. cbn. intros [= <-].
    constructor; [|by apply Hmono, IH]. exists body, now. split; [by left|exact Hd].
  - intros Hc. by apply Hmono, IH.
Qed.

Lemma read_group_read_from now q c count block s got s' :
  read_group P now q c count block s = (Ok got, s') → stream_wf P q (qstream P (view s) q) →
  Forall (read_from (s_entries (qstream P (view s) q))) got.
Proof.
  unfold read_group. intros [(l & s1 & Hx & H)|(e & _ & [=])]%st_bind_inv Hwf.
  injection H as H ->. apply xreadgroup_law in Hx as (st & g & Hs & Hg & -> & Hv).
  assert (qstream P (view s) q = st) as Hst by (unfold qstream, stream_of; by rewrite Hs).
  rewrite Hst in *. destruct Hwf as (_ & _ & _ & Hw). destruct (Hw g Hg) as [_ Hsub].
  set (batch := take (Z.to_nat count) (g_todo g)) in *.
  assert (∀ d, read_from batch d → read_from (s_entries st) d) as Hmono.
  { intros d (body & n & Hin & Hd). exists body, n. split; [|done]. apply Hsub.
    apply elem_of_take in Hin as (k & Hk & _). by eapply list_elem_of_lookup_2. }
  destruct batch as [|e b]; [injection H as <-; constructor|].
  unfold collect_streams in H. destruct (collect _ _ _) as [js|] eqn:Hc; [|done].
  cbn in H. injection H as <-. rewrite app_nil_r. apply collect_read_from in Hc.
  eapply Forall_impl; [exact Hc|done].
Qed.

(** ** Workers *)

(** The deliveries a worker was given. *)
Definition given (s : runner E) : list delivery := rs_spawned s ++ batch_of s.

Definition reads_from (w : World E) (x : WorkerRunner E * runner E) : Prop :=
  Forall (read_from (s_entries (qstream P (view (w_redis w)) (wr_queue x.1)))) (given x.2).

(** A step of a worker gives it what it reads, or nothing new. *)
Lemma worker_step_given (c : WorkerRunner E) w s w' s' :
  step c (w, s) (w', s') ∨ recovery_step c (w, s) (w', s') →
  ∀ d, d ∈ given s' → d ∈ given s ∨ ∃ js, read_jobs c w = (Ok (Some js), w') ∧ d ∈ js.
Proof.
  intros H d. unfold given.
  assert (rs_spawned s' = rs_spawned s → batch_of s' ⊆ batch_of s →
    d ∈ rs_spawned s' ++ batch_of s' →
    d ∈ rs_spawned s ++ batch_of s ∨ ∃ js, read_jobs c w = (Ok (Some js), w') ∧ d ∈ js) as Hkeep.
  { intros -> Hb [?|?]%elem_of_app; left; set_solver. }
  destruct H as [H|H]; [|inversion H; subst; by apply Hkeep].
  inversion H as [? ? Hl|? ? Hl|]; subst; [| |by apply Hkeep].
  2: { inversion Hl; subst; by apply Hkeep. }
  inversion Hl; subst;
    try (apply Hkeep; [done|unfold batch_of; cbn; repeat case_match; set_solver]).
  - apply Hkeep; [done|]. unfold batch_of, after_test. cbn. destruct (wr_admission c); set_solver.
  - destruct jobs as [[|j js]|];
      [apply Hkeep; [done|unfold batch_of; cbn; set_solver]| |apply Hkeep; [done|unfold batch_of; cbn; set_solver]].
    unfold batch_of. cbn [set_pc rs_pc rs_spawned after_read]. intros [?|?]%elem_of_app; [left; set_solver|].
    right. by exists (j :: js).
  - intros Hd. left. unfold batch_of in *.
    match goal with Hp : rs_pc s = Dispatch _ |- _ => rewrite Hp end. cbn in Hd. set_solver.
Qed.

Lemma read_jobs_from (c : WorkerRunner E) w js w' :
  wr_prefix c = P → read_jobs c w = (Ok (Some js), w') →
  stream_wf P (wr_queue c) (qstream P (view (w_redis w)) (wr_queue c)) →
  Forall (read_from (s_entries (qstream P (view (w_redis w)) (wr_queue c)))) js.
Proof.
  intros Hp H Hwf. unfold read_jobs, except_Exception, try_except, mbind, st_mbind, on_redis_now in H.
  rewrite Hp in H.
  destruct (on_redis (read_group P (w_now w) (wr_queue c) (worker_id c) (poll_batch c) (poll_timeout c)) w)
    as [[l|e] w3] eqn:Hr; [|by destruct (is_Exception e)].
  injection H as -> ->. apply on_redis_inv in Hr as (s' & Hr & _). by eapply read_group_read_from.
Qed.

Lemma reads_from_grow (w w' : World E) x :
  (∀ q, s_entries (qstream P (view (w_redis w)) q) ⊆ s_entries (qstream P (view (w_redis w')) q)) →
  reads_from w x → reads_from w' x.
Proof.
  intros Hsub H. eapply Forall_impl; [exact H|]. intros d (body & n & Hin & Hd). exists body, n.
  split; [by apply Hsub|done].
Qed.

(** ** Producers *)

(** The bodies an enqueue writes. *)
Definition adds_only (B : pystr → fields → Prop) (w w' : World E) : Prop :=
  ∀ q e, e ∈ s_entries (qstream P (view (w_redis w')) q) →
         e ∈ s_entries (qstream P (view (w_redis w)) q) ∨ B q e.2.

Definition write_await (B : pystr → fields → Prop) (_ : unit) (X : Type) (_ : M (World E) X)
    (w : World E) (_ : result exn X) (w' : World E) (_ : unit) : Prop := adds_only B w w'.

Definition writes_only (B : pystr → fields → Prop) (pr : producer E) : Prop :=
  obeys same_redis (write_await B) tt (pr_code pr).

Lemma writes_only_mono (B B' : pystr → fields → Prop) (t : coroutine (World E) rval) p :
  (∀ q b, B q b → B' q b) → obeys same_redis (write_await B) p t → obeys same_redis (write_await B') p t.
Proof.
  intros HB. revert p. induction t as [r|X m k IH|X m k IH]; intros p; cbn [obeys]; [done|..].
  - intros [H Hc]. split; [|by apply IH]. intros s r s' Hm. destruct (H s r s' Hm). split; [done|]. by apply IH.
  - intros [H Hc]. split; [|by apply IH]. intros s r s' Hm. destruct (H s r s' Hm) as (p' & Ha & Hk & Hc').
    exists p'. split; [|split; by apply IH]. intros q e He. destruct (Ha q e He); [by left|right; auto].
Qed.

Lemma same_adds_only B (w w' : World E) :
  (∀ q, s_entries (qstream P (view (w_redis w')) q) = s_entries (qstream P (view (w_redis w)) q)) →
  adds_only B w w'.
Proof. intros H q e. rewrite H. by left. Qed.

(** The body of the job an enqueue was called with, on its queue. *)
Definition body_of (key : option pystr) (job : Job) (q : pystr) (body : fields) : Prop :=
  q = py_str (job_queue job) ∧ job_body (keyed key job) = Ok body.

Lemma enqueue_writes e job key validate :
  enq_prefix e = P →
  obeys same_redis (write_await (body_of key job)) tt (enqueue_co (E := E) e job key validate).
Proof.
  intros Hp. unfold enqueue_co. set (q := py_str (job_queue job)).
  assert (obeys same_redis (write_await (body_of key job)) tt
    (depth ← co_await (on_redis (stream_length (enq_prefix e) q));
     _ ← (if max_queue_depth e <=? depth
          then co_throw (QueueFull (job_queue job) depth (max_queue_depth e)) else mret tt);
     _ ← co_sync (check_key e key);
     _ ← co_sync (write_outbox e (keyed key job));
     co_await (on_redis (transport_xadd (enq_prefix e) (py_str (job_queue (keyed key job)))
                                        (keyed key job) (max_queue_depth e + 1000) true)))) as Hbody.
  { apply obeys_await. intros w r w' H. exists tt. split.
    - apply on_redis_inv in H as (s' & H & ->). apply xlen_law in H.
      apply same_adds_only. intros q'. cbn.
      assert (view s' = view (w_redis w)) as -> by (destruct r; [by destruct H|by destruct H as [?|(? & _ & ?)]]).
      done.
    - destruct r as [n|]; [|done]. destruct (max_queue_depth e <=? n); [done|].
      apply obeys_sync; [apply check_key_same|]. intros _.
      apply obeys_sync; [apply write_outbox_same|]. intros _.
      split; [|done]. clear H. intros w1 r w2 H. exists tt. split; [|done]. rewrite Hp, keyed_queue in H.
      apply on_redis_inv in H as (s' & H & ->). unfold transport_xadd, lift, mbind, st_mbind in H.
      destruct (job_body (keyed key job)) as [body|exc] eqn:Hb; [|injection H as <- <-; by apply same_adds_only].
      apply xadd_law in H.
      assert (∀ id v', xadd_eff (_stream_key P q) body (maxlen_option (max_queue_depth e + 1000) true)
                (view (w_redis w1)) id v' → ∀ q' x, x ∈ s_entries (qstream P v' q') →
                x ∈ s_entries (qstream P (view (w_redis w1)) q') ∨ body_of key job q' x.2) as Heff.
      { intros id v' Hx q' x. destruct (decide (q' = q)) as [->|Hne].
        - destruct Hx as (n' & _ & _ & ->). unfold qstream. rewrite stream_of_insert. cbn [s_entries].
          intros Hin. assert (x ∈ s_entries (stream_of (view (w_redis w1)) (_stream_key P q)) ++ [(id, body)]) as Hin'
            by (eapply elem_of_submseteq; [exact Hin|apply sublist_submseteq, sublist_drop]).
          apply elem_of_app in Hin' as [?|Hx%list_elem_of_singleton]; [by left|subst x; right; by split].
        - eapply (xadd_eff_other _ _ _ _ _ _ (_stream_key P q')) in Hx as [Hx _];
            [|by intros ?%stream_key_inj]. unfold qstream. rewrite Hx. by left. }
      intros q' x. cbn [with_redis w_redis]. destruct r as [id|exc]; [by eapply Heff|].
      destruct H as [->|(id & H)]; [by left|by eapply Heff]. }
  destruct validate as [v|]; [|exact Hbody]. apply obeys_sync; [by intros w|done].
Qed.

(** ** The whole system *)

(** Every entry holds a body that [B] allows on its queue, every delivery was read
    from its entry, and what is in flight adds nothing else. *)
Definition integrity (B : pystr → fields → Prop) (x : sys E) : Prop :=
  (∀ q e, e ∈ s_entries (queue_stream P x q) → B q e.2) ∧
  Forall (reads_from (sy_world x)) (sy_workers x) ∧ Forall (writes_only B) (sy_producers x).

(** The step in which an enqueue of the job is called. *)
Definition calls (key : option pystr) (job : Job) (x y : sys E) : Prop :=
  ∃ e validate, enq_prefix e = P ∧ max_queue_depth e = D ∧
    y = mkSys (sy_world x) (sy_workers x)
          (sy_producers x ++ [mkProducer (py_str (job_queue job)) (enqueue_co e job key validate) false]).

Definition or_called (B : pystr → fields → Prop) (x y : sys E) (q : pystr) (body : fields) : Prop :=
  B q body ∨ ∃ key job, calls key job x y ∧ body_of key job q body.

Lemma integrity_mono (B B' : pystr → fields → Prop) x :
  (∀ q b, B q b → B' q b) → integrity B x → integrity B' x.
Proof.
  intros HB (He & Hw & Hp). split_and!; [by intros q e H; apply HB, He|done|].
  eapply Forall_impl; [exact Hp|]. intros pr. by apply writes_only_mono.
Qed.

(** The world changes, and everything on it stays. *)
Lemma integrity_world B (w w' : World E) ws ps :
  (∀ q, s_entries (qstream P (view (w_redis w)) q) `prefix_of` s_entries (qstream P (view (w_redis w')) q)) →
  adds_only B w w' → integrity B (mkSys w ws ps) → integrity B (mkSys w' ws ps).
Proof.
  intros Hpre Ha (He & Hw & Hp). split_and!; [|eapply Forall_impl; [exact Hw|]|done]; cbn [sy_world sy_workers] in *.
  - intros q e [H|H]%(Ha q e); [by apply He|done].
  - intros y. apply reads_from_grow. intros q. destruct (Hpre q) as [l ->]. set_solver.
Qed.

Lemma integrity_quiet B past (w w' : World E) ws ps :
  wquiet P past w w' → integrity B (mkSys w ws ps) → integrity B (mkSys w' ws ps).
Proof.
  intros [_ Hq]. apply integrity_world; [intros q; by rewrite Hq|by apply same_adds_only].
Qed.

Lemma integrity_producers B w ws ps ps' :
  Forall (writes_only B) ps' → integrity B (mkSys w ws ps) → integrity B (mkSys w ws ps').
Proof. intros H (He & Hw & _). by split_and!. Qed.

Lemma integrity_producer B w ws l1 pr l2 pr' :
  (writes_only B pr → writes_only B pr') →
  integrity B (mkSys w ws (l1 ++ pr :: l2)) → integrity B (mkSys w ws (l1 ++ pr' :: l2)).
Proof.
  intros H Hi. eapply integrity_producers; [|exact Hi]. destruct Hi as (_ & _ & Hp). cbn in Hp.
  apply Forall_app in Hp as [Hp1 [Hp Hp2]%Forall_cons]. apply Forall_app. split; [done|].
  apply Forall_cons. auto.
Qed.

Lemma integrity_worker B w l1 c s s' l2 ps :
  (reads_from w (c, s) → reads_from w (c, s')) →
  integrity B (mkSys w (l1 ++ (c, s) :: l2) ps) → integrity B (mkSys w (l1 ++ (c, s') :: l2) ps).
Proof.
  intros H (He & Hw & Hp). split_and!; [done| |done]. cbn in *.
  apply Forall_app in Hw as [Hw1 [Hw Hw2]%Forall_cons]. apply Forall_app. split; [done|].
  apply Forall_cons. auto.
Qed.

(** A worker: what its step reads are entries of its queue. *)
Lemma worker_integrity past B l1 c s s' l2 ps w w' :
  step c (w, s) (w', s') ∨ recovery_step c (w, s) (w', s') →
  System.sys_inv P D N past (mkSys w (l1 ++ (c, s) :: l2) ps) →
  integrity B (mkSys w (l1 ++ (c, s) :: l2) ps) → integrity B (mkSys w' (l1 ++ (c, s') :: l2) ps).
Proof.
  intros Hs ((Hwf & _) & HW & _) Hi. cbn [sy_world sy_workers] in *.
  apply Forall_app in HW as [_ [Hinv _]%Forall_cons]. pose proof Hinv as (Hp & _).
  destruct (worker_step_ok P past c w s w' s' Hs Hinv) as [_ Hq].
  apply (integrity_worker B w' l1 c s s' l2 ps); [|by eapply integrity_quiet].
  intros Hr. apply Forall_forall. intros d Hd. destruct (worker_step_given c w s w' s' Hs d Hd) as [H|(js & Hj & H)].
  - unfold reads_from in Hr. rewrite Forall_forall in Hr. by apply Hr.
  - pose proof (read_jobs_from c w js w' Hp Hj (Hwf _)) as Hf. rewrite Forall_forall in Hf.
    destruct Hq as [_ Hq]. cbn [fst]. rewrite Hq. by apply Hf.
Qed.

(** A turn or a command of an enqueue. *)
Lemma producer_turn_integrity B l1 pr l2 ws w w' code :
  settle (pr_code pr) w = (code, w') → integrity B (mkSys w ws (l1 ++ pr :: l2)) →
  integrity B (mkSys w' ws (l1 ++ with_pr_code pr code :: l2)).
Proof.
  intros Hs Hi. pose proof Hi as (_ & _ & Hp). cbn in Hp.
  apply Forall_app in Hp as [_ [Hp _]%Forall_cons].
  destruct (obeys_settle _ _ _ _ _ _ _ Hp Hs) as [Hsame Ho].
  apply (integrity_producer B w' ws l1 pr l2); [done|].
  eapply (integrity_quiet B nothing); [by apply same_redis_quiet|exact Hi].
Qed.

Lemma producer_await_integrity past B l1 pr l2 ws w w' X (m : M (World E) X) k r :
  pr_code pr = CoAwait m k → m w = (r, w') →
  System.sys_inv P D N past (mkSys w ws (l1 ++ pr :: l2)) → integrity B (mkSys w ws (l1 ++ pr :: l2)) →
  integrity B (mkSys w' ws (l1 ++ with_pr_code pr (woken r k) :: l2)).
Proof.
  intros Hcode Hm (_ & _ & HP) Hi. pose proof Hi as (_ & _ & Hp). cbn in Hp.
  apply Forall_app in Hp as [_ [Hp _]%Forall_cons]. unfold writes_only in Hp. rewrite Hcode in Hp.
  destruct Hp as [Hp _]. destruct (Hp _ _ _ Hm) as (p' & Ha & Hk & Hc).
  destruct (producer_await P D N w w' l1 pr l2 X m k r few HP Hcode Hm) as [He _].
  apply (integrity_producer B w' ws l1 pr l2); [intros _; destruct p'; by apply obeys_woken|].
  apply (integrity_world B w w'); [intros q; apply (He q)| |exact Hi].
  intros q x Hx. exact (Ha q x Hx).
Qed.

Lemma integrity_step past B x y :
  sys_step x y → System.sys_inv P D N past x → integrity B x → integrity (or_called B x y) y.
Proof.
  intros H Hinv Hi.
  assert (integrity B y → integrity (or_called B x y) y) as Hold by (apply integrity_mono; by left).
  destruct H as [l1 c s s' l2 ps w w' Hs|c ws ps w Hp|l1 c s l2 ps w|e job key v ws ps w Hp HD Hlt
    |l1 pr l2 ws w w' code Hg Hs|l1 pr l2 ws w w' X m k r Hcode Hm|l1 pr l2 ws w|l1 pr l2 ws w r Hr
    |q ws ps w w' r Hr|q now wk cnt blk ws ps w w' r Hr|rw q ws ps w w' r Hp Hr|q id ws ps w w' r Hr
    |ws ps w w' Hv].
  - apply Hold. by eapply worker_integrity.
  - apply Hold. destruct Hi as (He & Hw & Hpr). split_and!; [done| |done]. cbn in *.
    apply Forall_app. split; [done|]. apply Forall_singleton. by constructor.
  - apply Hold. eapply integrity_worker; [|exact Hi]. unfold reads_from, given. cbn.
    rewrite Forall_app, app_nil_r. by intros [? _].
  - eapply integrity_producers; [|eapply integrity_mono; [|exact Hi]; by left].
    destruct Hi as (_ & _ & Hpr). cbn [sy_producers] in *. apply Forall_app. split.
    + eapply Forall_impl; [exact Hpr|]. intros pr. apply writes_only_mono. by left.
    + apply Forall_singleton. eapply writes_only_mono; [|by eapply enqueue_writes].
      intros q b Hb. right. exists key, job. split; [|done]. exists e, v. by split_and!.
  - apply Hold. by eapply producer_turn_integrity.
  - apply Hold. by eapply producer_await_integrity.
  - apply Hold. by apply (integrity_producer B w ws l1 pr l2 (abandoned pr)).
  - apply Hold. eapply integrity_producers; [|exact Hi]. destruct Hi as (_ & _ & Hpr). cbn in *.
    apply Forall_app in Hpr as [Hp1 [_ Hp2]%Forall_cons]. by apply Forall_app.
  - apply Hold. eapply (integrity_quiet B nothing); [|exact Hi].
    eapply preserves_run; [apply on_redis_quiet, ensure_group_quiet|exact Hr].
  - apply Hold. eapply (integrity_quiet B nothing); [|exact Hi].
    eapply preserves_run; [apply on_redis_quiet, read_group_quiet|exact Hr].
  - apply Hold. eapply (integrity_quiet B nothing); [|exact Hi].
    eapply preserves_run; [apply claim_stale_quiet|exact Hr].
  - apply Hold. eapply (integrity_quiet B nothing); [|exact Hi].
    eapply preserves_run; [apply on_redis_quiet, delete_dlq_quiet|exact Hr].
  - apply Hold. eapply (integrity_quiet B nothing); [|exact Hi]. by apply same_view_quiet.
Qed.

(** What enqueues were called with, on a run from [x0] to [x]. *)
Definition enqueued (x0 x : sys E) (q : pystr) (body : fields) : Prop :=
  ∃ a b key job, rtc sys_step x0 a ∧ calls key job a b ∧ rtc sys_step b x ∧ body_of key job q body.

Lemma reach_integrity x0 x : initial x0 → rtc sys_step x0 x → integrity (enqueued x0 x) x.
Proof.
  intros Hinit. revert x. apply rtc_ind_r.
  - destruct x0 as [w ws ps], Hinit as (Hv & Hws & Hps). cbn in Hv, Hws, Hps. subst ws ps.
    split_and!; cbn [sy_workers sy_producers]; [|constructor..].
    unfold queue_stream, qstream, stream_of. intros q e. cbn.
    rewrite Hv, lookup_empty. by intros ?%not_elem_of_nil.
  - intros y z Hy Hyz IH. eapply integrity_mono; [|by eapply integrity_step, IH; [exact Hyz|apply reach_inv]].
    intros q body [(a & b & key & job & Ha & Hab & Hb & Hj)|(key & job & Hc & Hj)].
    + exists a, b, key, job. split_and!; try done. by eapply rtc_r.
    + exists y, z, key, job. by split_and!.
Qed.

(** What tasks ran was given to the worker. *)
Lemma executed_given past (c : WorkerRunner E) s d :
  worker_inv P past (c, s) → d ∈ rs_executed s → d ∈ given s.
Proof.
  intros (_ & Hr & _) Hd. unfold given. apply elem_of_app. left.
  eapply elem_of_submseteq; [|exact Hr]. set_solver.
Qed.

(** C2: workers run what was enqueued, and nothing else.  Whenever, in any
    interleaving (at most 1001 enqueues in flight) with crashes, cancellations and
    recovery, a worker has run a job,
    an enqueue was called earlier in the run whose queue is the worker's and whose
    body is the one the stream holds under the delivery's id; and for a well-formed
    job of clean strings the job that ran is, field by field, the one that was
    enqueued (with its idempotency key): it is not altered, mixed up with another
    or delivered to the wrong queue. *)
Theorem executed_is_enqueued x0 x c s d :
  initial x0 → rtc sys_step x0 x → (c, s) ∈ sy_workers x → d ∈ rs_executed s →
  ∃ a b key job body,
    rtc sys_step x0 a ∧ calls key job a b ∧ rtc sys_step b x ∧
    wr_queue c = py_str (job_queue job) ∧ job_body (keyed key job) = Ok body ∧
    (d.1.2, body) ∈ s_entries (queue_stream P x (wr_queue c)) ∧
    (job_wf (keyed key job) → job_clean (keyed key job) → d.2 = keyed key job).
Proof.
  intros Hinit Hx Hc Hd.
  destruct (reach_inv P D N few _ _ Hinit Hx) as (_ & HW & _).
  destruct (reach_integrity _ _ Hinit Hx) as (He & Hw & _).
  rewrite Forall_forall in HW, Hw. specialize (Hw _ Hc).
  apply (executed_given _ _ _ _ (HW _ Hc)) in Hd. unfold reads_from in Hw. rewrite Forall_forall in Hw.
  destruct (Hw d Hd) as (body & now & Hin & Hdec). cbn [fst] in Hin.
  destruct (He _ _ Hin) as (a & b & key & job & Ha & Hab & Hb & Hq & Hbody).
  exists a, b, key, job, body. split_and!; try done. intros Hwf Hcl.
  rewrite (decode_entry_body now (keyed key job) body Hwf Hcl Hbody) in Hdec. by injection Hdec.
Qed.
End Integrity.

(** The job of [Guarantees]'s run: enqueued at its start, run at its end. *)
Lemma executed_is_enqueued_witness :
  rs_executed sr3 = [d1] ∧
  ∃ a b key job body,
    rtc (sys_step relayq 1 10) x0 a ∧ calls relayq 1 key job a b ∧ rtc (sys_step relayq 1 10) b x5 ∧
    wr_queue failing_worker = py_str (job_queue job) ∧ job_body (keyed key job) = Ok body ∧
    (d1.1.2, body) ∈ s_entries (queue_stream relayq x5 (wr_queue failing_worker)) ∧
    (job_wf (keyed key job) → job_clean (keyed key job) → d1.2 = keyed key job).
Proof.
  split; [reflexivity|].
  apply (executed_is_enqueued relayq 1 10 few10 x0 x5 failing_worker sr3 d1 x0_initial steps_all).
  - by left.
  - by left.
Defined.
