(* ===== verification/Liveness.v ===== *)
(** * No job starves

    A queue is served from its front, so a waiting entry is delivered after a bounded
    number of polls: [n] polls of workers with [poll_batch] at least [b] take the first
    [n * b] entries, whatever producers, crashes, recovery and other reads do in
    between ([served_in_turn]).  A poll that answers hands its worker every job it
    took ([poll_hands_over]). *)

From Stdlib Require Import String QArith.
From stdpp Require Import relations.
From S2P Require Import Prelude PyStr Json Errors Coroutine Datetime Job Retry Redis RedisModel Transport SqliteStore Metrics World Scenario Delivery Enqueue Execute Admission Recover Evolution Shutdown Runner WorkerProgress Fairness Effects System Guarantees Integrity.
Open Scope list_scope.
Open Scope Z_scope.

(** ** One step of a queue *)

Section Queue.
Variable P : pystr.

Lemma waiting_sub q s : stream_wf P q s → waiting P q s ⊆ s_entries s.
Proof.
  intros (_ & _ & _ & Hw). unfold waiting. destruct (s_groups s !! _) as [g|] eqn:Hg; [|done].
  by apply (Hw g).
Qed.

Lemma waiting_nodup q s : stream_wf P q s → NoDup (ids (waiting P q s)).
Proof.
  intros (_ & Hn & _ & Hw). unfold waiting. destruct (s_groups s !! _) as [g|] eqn:Hg; [|done].
  by apply (Hw g).
Qed.

Lemma waiting_issued q s i : stream_wf P q s → i ∈ ids (waiting P q s) → i ∈ s_issued s.
Proof.
  intros Hwf (e & -> & He)%list_elem_of_fmap. pose proof Hwf as (_ & _ & Hsub & _).
  apply Hsub, list_elem_of_fmap. exists e. split; [done|]. by apply (waiting_sub q s).
Qed.

(** What has been taken does not come back. *)
Lemma gone_stays q s s' i :
  stream_wf P q s' → fifo P q s s' → i ∈ s_issued s → i ∉ ids (waiting P q s) → i ∉ ids (waiting P q s').
Proof.
  intros (Hn & _) (new & taken & _ & Hi & Hw & _) His Hni Hin. apply Hni.
  assert (i ∈ ids (waiting P q s ++ new)) as Hall
    by (rewrite Hw; unfold ids in *; rewrite fmap_app; set_solver).
  unfold ids in Hall. rewrite fmap_app in Hall. apply elem_of_app in Hall as [?|Hnew]; [done|].
  rewrite Hi in Hn. apply NoDup_app in Hn as (_ & Hd & _). by destruct (Hd i His).
Qed.

(** An entry moves towards the front, or is taken. *)
Lemma moves_up q s s' i p :
  stream_wf P q s → stream_wf P q s' → fifo P q s s' → ids (waiting P q s) !! p = Some i →
  i ∉ ids (waiting P q s') ∨ ∃ p', ids (waiting P q s') !! p' = Some i ∧ (p' ≤ p)%nat.
Proof.
  intros Hwf Hwf' Hf Hp. destruct Hf as (new & taken & _ & Hi & Hw & _).
  assert (ids (waiting P q s ++ new) !! p = Some i) as Hall.
  { unfold ids in *. rewrite fmap_app. by apply lookup_app_l_Some. }
  rewrite Hw in Hall. unfold ids in Hall. rewrite fmap_app in Hall.
  apply lookup_app_Some in Hall as [Ht|[Hlen Hin]]; [left|right; exists (p - length (taken.*1))%nat; split; [done|lia]].
  assert (NoDup ((taken ++ waiting P q s').*1)) as Hnd.
  { rewrite <- Hw, fmap_app. apply NoDup_app. split_and!; [by apply (waiting_nodup q)| |].
    - intros j Hj Hn. destruct Hwf' as (Hnd & _). rewrite Hi in Hnd. apply NoDup_app in Hnd as (_ & Hd & _).
      apply (Hd j); [by apply (waiting_issued q)|done].
    - destruct Hwf' as (Hnd & _). rewrite Hi in Hnd. by apply NoDup_app in Hnd as (_ & _ & ?). }
  rewrite fmap_app in Hnd. apply NoDup_app in Hnd as (_ & Hd & _). apply Hd. by eapply list_elem_of_lookup_2.
Qed.

(** The first [k] are taken. *)
Lemma taken_front q s s' i p k :
  stream_wf P q s → waiting P q s' = drop k (waiting P q s) → ids (waiting P q s) !! p = Some i →
  i ∉ ids (waiting P q s') ∨ ∃ p', ids (waiting P q s') !! p' = Some i ∧ p = (k + p')%nat.
Proof.
  intros Hwf Hk Hp. rewrite Hk. unfold ids in *. rewrite fmap_drop.
  destruct (decide (p < k)%nat) as [Hlt|Hge].
  - left. apply waiting_nodup in Hwf. unfold ids in Hwf.
    rewrite <- (take_drop k (waiting P q s).*1) in Hwf. apply NoDup_app in Hwf as (_ & Hd & _).
    apply Hd. apply list_elem_of_lookup. exists p. by rewrite lookup_take_lt.
  - right. exists (p - k)%nat. rewrite lookup_drop. replace (k + (p - k))%nat with p by lia.
    split; [done|lia].
Qed.

End Queue.

Section Liveness.
Context {R : Redis} {RS : RedisSpec R} {E : Type}.
Variables (P : pystr) (D : Z) (N : nat).
Hypothesis few : (N ≤ 1001)%nat.
#[local] Abbreviation sys_step := (System.sys_step (E := E) P D N).
#[local] Abbreviation line x q := (ids (waiting P q (queue_stream P x q))).

(** ** Polls *)

(** A worker of queue [q] polls, is answered with [js], and turns to them. *)
Definition poll (q : pystr) (c : WorkerRunner E) (js : list delivery) (x y : sys E) : Prop :=
  ∃ l1 s l2 ps w w',
    x = mkSys w (l1 ++ (c, s) :: l2) ps ∧
    y = mkSys w' (l1 ++ (c, set_pc (after_read (Some js)) s) :: l2) ps ∧
    wr_queue c = q ∧ rs_pc s = Polling ∧ read_jobs c w = (Ok (Some js), w').

Lemma poll_step q c js x y : poll q c js x y → sys_step x y.
Proof.
  intros (l1 & s & l2 & ps & w & w' & -> & -> & _ & Hpc & Hr).
  apply sys_worker. left. by apply step_loop, st_read.
Qed.

(** A run with [n] answered polls of at least [b] entries. *)
Inductive polled (q : pystr) (b : nat) : nat → sys E → sys E → Prop :=
| polled_end x : polled q b 0 x x
| polled_poll n c js x y z :
    poll q c js x y → Z.of_nat b ≤ poll_batch c → polled q b n y z → polled q b (Datatypes.S n) x z
| polled_other n x y z : sys_step x y → polled q b n y z → polled q b n x z.

Lemma polled_steps q b n x y : polled q b n x y → rtc sys_step x y.
Proof.
  induction 1 as [x|n c js x y z Hp _ _ IH|n x y z Hs _ IH]; [done|..]; (eapply rtc_l; [|exact IH]); [|done].
  by eapply poll_step.
Qed.

(** The read behind an answered poll. *)
Lemma read_jobs_read (c : WorkerRunner E) w js w' :
  read_jobs c w = (Ok (Some js), w') →
  ∃ s', read_group (wr_prefix c) (w_now w) (wr_queue c) (worker_id c) (poll_batch c) (poll_timeout c)
          (w_redis w) = (Ok js, s') ∧ w' = with_redis s' w.
Proof.
  unfold read_jobs, except_Exception, try_except, mbind, st_mbind, on_redis_now. intros H.
  destruct (on_redis _ w) as [[l|e] w3] eqn:Hr; [|by destruct (is_Exception e)].
  injection H as -> ->. by apply on_redis_inv in Hr.
Qed.

Lemma poll_takes q c js x y :
  poll q c js x y → wr_prefix c = P →
  waiting P q (queue_stream P y q) = drop (Z.to_nat (poll_batch c)) (waiting P q (queue_stream P x q)).
Proof.
  intros (l1 & s & l2 & ps & w & w' & -> & -> & <- & _ & (s' & Hr & ->)%read_jobs_read) Hp.
  rewrite Hp in Hr. apply read_group_batch in Hr as (st & g & Hs & Hg & _ & Hv).
  unfold queue_stream, waiting, qstream, set_group in *. cbn [sy_world with_redis w_redis]. rewrite Hv.
  rewrite stream_of_insert. cbn [s_groups]. rewrite lookup_insert_eq. cbn [g_todo].
  unfold stream_of. rewrite Hs. cbn [default from_option Datatypes.id]. by rewrite Hg.
Qed.

(** An answered poll hands over every job it took. *)
Lemma collect_every now name (l : list entry) got id body job :
  collect now name (reply_entry <$> l) = Ok got → (id, body) ∈ l →
  decode_entry now (prod_map reply reply <$> body) = Ok (Some job) → ∃ nm, (nm, id, job) ∈ got.
Proof.
  revert got. induction l as [|[id' body'] l IH]; intros got; [by intros _ ?%not_elem_of_nil|].
  rewrite fmap_cons. change (reply_entry (id', body')) with (id', prod_map reply reply <$> body').
  cbn [collect]. intros Hc Hin Hd.
  destruct (decode_entry now (prod_map reply reply <$> body')) as [[j|]|e] eqn:Hd'; cbn [mbind result_mbind] in Hc;
    [| |done].
  - destruct name as [nm|e]; [|done]. cbn [mbind result_mbind] in Hc.
    destruct (collect now (Ok nm) _) as [rest|e] eqn:Hrest; [|done]. cbn in Hc. injection Hc as <-.
    apply elem_of_cons in Hin as [[= -> ->]|Hin].
    + rewrite Hd in Hd'. injection Hd' as ->. exists nm. by left.
    + destruct (IH rest eq_refl Hin Hd) as [nm' H]. exists nm'. by right.
  - apply elem_of_cons in Hin as [[= -> ->]|Hin]; [by rewrite Hd in Hd'|]. by apply IH.
Qed.

(** The entry's body, as [read_group] decodes it at this time. *)
Definition carries (x : sys E) (q : pystr) (id : rval) (job : Job) : Prop :=
  ∃ body, (id, body) ∈ waiting P q (queue_stream P x q) ∧
          decode_entry (w_now (sy_world x)) (prod_map reply reply <$> body) = Ok (Some job).

Lemma poll_hands_over q c js x y id job :
  poll q c js x y → wr_prefix c = P → NoDup (line x q) → id ∉ line y q →
  carries x q id job → ∃ nm, (nm, id, job) ∈ js.
Proof.
  intros Hpoll Hp Hnd Hgone (body & Hin & Hd). pose proof (poll_takes _ _ _ _ _ Hpoll Hp) as Htake.
  rewrite Htake in Hgone. clear Htake.
  destruct Hpoll as (l1 & s & l2 & ps & w & w' & -> & -> & <- & _ & (s' & Hr & ->)%read_jobs_read).
  rewrite Hp in Hr. cbn [sy_world] in Hd. unfold read_group in Hr.
  apply st_bind_inv in Hr as [(l & s1 & Hx & H)|(e & _ & [=])]. injection H as H ->.
  apply xreadgroup_law in Hx as (st & g & Hs & Hg & -> & _).
  assert (waiting P (wr_queue c) (queue_stream P (mkSys w (l1 ++ (c, s) :: l2) ps) (wr_queue c)) = g_todo g) as Hw.
  { unfold queue_stream, waiting, qstream, stream_of. cbn [sy_world]. rewrite Hs. cbn [default from_option Datatypes.id].
    by rewrite Hg. }
  rewrite Hw in *. set (n := Z.to_nat (poll_batch c)) in *.
  assert ((id, body) ∈ take n (g_todo g)) as Hbatch.
  { rewrite <- (take_drop n (g_todo g)) in Hin. apply elem_of_app in Hin as [?|Hin]; [done|].
    destruct Hgone. apply list_elem_of_fmap. by exists (id, body). }
  destruct (take n (g_todo g)) as [|e batch]; [by apply not_elem_of_nil in Hbatch|].
  unfold collect_streams in H. destruct (collect _ _ _) as [got|] eqn:Hc; [|done].
  cbn in H. injection H as <-. rewrite app_nil_r. by eapply collect_every.
Qed.

(** ** Waiting *)

Lemma reach_wf x0 x q : initial x0 → rtc sys_step x0 x → stream_wf P q (queue_stream P x q).
Proof. intros Hi Hx. destruct (reach_inv P D N few _ _ Hi Hx) as ((Hwf & _) & _). apply Hwf. Qed.

Lemma reach_prefix x0 x q c js y : initial x0 → rtc sys_step x0 x → poll q c js x y → wr_prefix c = P.
Proof.
  intros Hi Hx (l1 & s & l2 & ps & w & w' & -> & _). destruct (reach_inv P D N few _ _ Hi Hx) as (_ & HW & _).
  cbn in HW. by apply Forall_app in HW as [_ [(Hp & _) _]%Forall_cons].
Qed.

(** The step that delivers an entry. *)
Definition delivered_at (x y : sys E) (q : pystr) (id : rval) : Prop :=
  ∃ a a', rtc sys_step x a ∧ sys_step a a' ∧ rtc sys_step a' y ∧
    id ∈ line a q ∧ id ∉ line a' q ∧
    ∀ c js job, poll q c js a a' → carries a q id job → ∃ nm, (nm, id, job) ∈ js.

Lemma delivered_step x0 x y z q id :
  initial x0 → rtc sys_step x0 x → sys_step x y → rtc sys_step y z →
  id ∈ line x q → id ∉ line y q → id ∉ line z q ∧ delivered_at x z q id.
Proof.
  intros Hi Hx Hxy Hyz Hin Hout. split.
  - assert (rtc sys_step x0 y) as Hy by (by eapply rtc_r).
    eapply gone_stays; [by apply (reach_wf x0); [|etrans]|by apply (steps_fifo P D N few x0)| |done].
    destruct (steps_fifo P D N few x0 x y q Hi Hx (rtc_once _ _ Hxy)) as (new & taken & _ & -> & _).
    apply elem_of_app. left. eapply waiting_issued; [by apply (reach_wf x0)|done].
  - exists x, y. split_and!; try done. intros c js job Hpoll. eapply poll_hands_over; [done| |  |done].
    + by eapply reach_prefix.
    + eapply waiting_nodup. by apply (reach_wf x0).
Qed.

(** C15: No job starves.  In every run of the system (at most 1001 enqueues in flight),
    an entry with [p] others before
    it in its queue is delivered once workers of the queue with a [poll_batch] of at
    least [b] have had [n] polls answered, [p < n * b], whatever else happens in
    between; it does not wait any longer then.  When it is such a poll that takes it,
    the job is among those the worker goes on to run. *)
Theorem served_in_turn x0 x y q b n p id :
  initial x0 → rtc sys_step x0 x → line x q !! p = Some id →
  polled q b n x y → (p < n * b)%nat → id ∉ line y q ∧ delivered_at x y q id.
Proof.
  intros Hi Hx Hp Hrun. revert p Hx Hp.
  induction Hrun as [x|n c js x z y Hpoll Hb Hrun IH|n x z y Hs Hrun IH]; intros p Hx Hp Hlt; [lia|..].
  - assert (sys_step x z) as Hs by (by eapply poll_step).
    pose proof (reach_wf _ _ q Hi Hx) as Hwf.
    destruct (taken_front P q _ _ id p (Z.to_nat (poll_batch c)) Hwf
                (poll_takes _ _ _ _ _ Hpoll (reach_prefix _ _ _ _ _ _ Hi Hx Hpoll)) Hp) as [Hout|(p' & Hp' & ->)].
    + eapply delivered_step; [done..|by eapply polled_steps|by eapply list_elem_of_lookup_2|done].
    + destruct (IH p') as [Hout (a & a' & Ha & Hrest)]; [by eapply rtc_r|done|lia|].
      split; [done|]. exists a, a'. split; [by eapply rtc_l|done].
  - pose proof (reach_wf _ _ q Hi Hx) as Hwf.
    assert (rtc sys_step x0 z) as Hz by (by eapply rtc_r).
    destruct (moves_up P q _ _ id p Hwf (reach_wf _ _ q Hi Hz)
                (steps_fifo P D N few x0 x z q Hi Hx (rtc_once _ _ Hs)) Hp) as [Hout|(p' & Hp' & Hle)].
    + eapply delivered_step; [done..|by eapply polled_steps|by eapply list_elem_of_lookup_2|done].
    + destruct (IH p') as [Hout (a & a' & Ha & Hrest)]; [done..|lia|].
      split; [done|]. exists a, a'. split; [by eapply rtc_l|done].
Qed.
End Liveness.

(** ** Fair systems *)

Section FairSystem.
Context {R : Redis} {RS : RedisSpec R} {E : Type}.
Variables (P : pystr) (D : Z) (N : nat).
Hypothesis few : (N ≤ 1001)%nat.
#[local] Abbreviation sys_step := (System.sys_step (E := E) P D N).
#[local] Abbreviation line x q := (ids (waiting P q (queue_stream P x q))).
#[local] Abbreviation poll := (poll (E := E)).
#[local] Abbreviation worker_at x i := (sy_workers x !! i).

(** A worker keeps its place; it goes on among the others, or is killed. *)
Lemma worker_goes_on x y i c s :
  sys_step x y → worker_at x i = Some (c, s) →
  ∃ s', worker_at y i = Some (c, s') ∧
    (open_step c (sy_world x, s) (sy_world y, s') ∨ killed (sy_world x, s) (sy_world y, s')).
Proof.
  intros H Hi.
  assert (∀ y, sy_workers y = sy_workers x → ∃ s', worker_at y i = Some (c, s') ∧
    (open_step c (sy_world x, s) (sy_world y, s') ∨ killed (sy_world x, s) (sy_world y, s'))) as Hsame.
  { intros z ->. exists s. split; [done|]. left. apply os_others. }
  assert (∀ l1 c0 s0 s1 l2, sy_workers x = l1 ++ (c0, s0) :: l2 →
    (c0 = c ∧ s0 = s ∧ (l1 ++ (c0, s1) :: l2) !! i = Some (c, s1)) ∨
    (l1 ++ (c0, s1) :: l2) !! i = Some (c, s)) as Hplace.
  { intros l1 c0 s0 s1 l2 Hl. rewrite Hl in Hi. destruct (decide (i < length l1)%nat) as [Hlt|Hge].
    - right. by rewrite lookup_app_l in * by done.
    - rewrite lookup_app_r in * by lia. destruct (i - length l1)%nat; [left|by right].
      cbn in *. by injection Hi as -> ->. }
  destruct H as [l1 c0 s0 s1 l2 ps w w' Hs|c0 ws ps w Hp|l1 c0 s0 l2 ps w| | | | | | | | | |];
    try (by apply Hsame); cbn [sy_workers sy_world] in *.
  - destruct (Hplace l1 c0 s0 s1 l2 eq_refl) as [(-> & -> & Hi')|Hi']; [exists s1|exists s]; (split; [done|left]).
    + destruct Hs; [by apply os_worker|by apply os_recovery].
    + apply os_others.
  - exists s. split; [by apply lookup_app_l_Some|]. left. apply os_others.
  - destruct (Hplace l1 c0 s0 (crash s0) l2 eq_refl) as [(-> & -> & Hi')|Hi']; [exists (crash s)|exists s];
      (split; [done|]); [by right|left; apply os_others].
Qed.

(** Every worker of a reachable system is sound. *)
Definition all_sound (x : sys E) : Prop :=
  ∀ i c s, worker_at x i = Some (c, s) → 0 ≤ max_concurrency c → sound_worker c s.

Lemma worker_from x y i c s :
  sys_step x y → worker_at y i = Some (c, s) → is_Some (worker_at x i) ∨ s = new_runner c.
Proof.
  intros H Hi.
  assert (∀ (l1 : list (WorkerRunner E * runner E)) z z' l2,
    is_Some ((l1 ++ z :: l2) !! i) → is_Some ((l1 ++ z' :: l2) !! i)) as Hlen.
  { intros l1 z z' l2. rewrite !lookup_lt_is_Some, !length_app. done. }
  destruct H; cbn [sy_workers] in *; try (left; by eexists); try (left; eapply Hlen; by eexists).
  apply lookup_app_Some in Hi as [Hi|[_ Hi]]; [left; by eexists|right].
  by apply list_lookup_singleton_Some in Hi as [_ [= <- <-]].
Qed.

Lemma reach_sound_all x0 x : initial x0 → rtc sys_step x0 x → all_sound x.
Proof.
  intros (_ & Hw & _). revert x. apply rtc_ind_r.
  - intros i c s. by rewrite Hw.
  - intros y z _ Hyz IH i c s Hi Hc. destruct (worker_from _ _ _ _ _ Hyz Hi) as [[[c0 s0] H0]| ->]; [|by apply new_sound].
    destruct (worker_goes_on _ _ _ _ _ Hyz H0) as (s' & Hs' & Hstep). rewrite Hi in Hs'. injection Hs' as <- <-.
    specialize (IH i c s0 H0 Hc). destruct Hstep as [Hstep|Hk];
      [by apply (step_sound c _ _ Hstep)|by apply (killed_sound c _ _ Hk)].
Qed.

(** A run in which every worker is fair and the queue is polled again and again. *)
Record fair_system (q : pystr) (σ : nat → sys E) : Prop := {
  fs_steps n : sys_step (σ n) (σ (S n));
  fs_loop n i c s : worker_at (σ n) i = Some (c, s) →
    ∃ m s1 s2, (n ≤ m)%nat ∧ worker_at (σ m) i = Some (c, s1) ∧ worker_at (σ (S m)) i = Some (c, s2) ∧
      (ready s1 = false ∨ loop_step c (sy_world (σ m), s1) (sy_world (σ (S m)), s2));
  fs_tasks n i c s t : worker_at (σ n) i = Some (c, s) → t ∈ rs_running s →
    ∃ m s', (n ≤ m)%nat ∧ worker_at (σ m) i = Some (c, s') ∧ t ∉ rs_running s';
  fs_polls n : ∃ m c js, (n ≤ m)%nat ∧ poll q c js (σ m) (σ (S m)) ∧ 0 < poll_batch c
}.

Section Trace.
Variables (q : pystr) (σ : nat → sys E) (x0 : sys E).
Hypothesis starts : initial x0.
Hypothesis reached : rtc sys_step x0 (σ 0%nat).
Hypothesis is_fair : fair_system q σ.

Lemma trace_reached n : rtc sys_step x0 (σ n).
Proof. induction n as [|n IH]; [done|]. eapply rtc_r; [exact IH|apply is_fair]. Qed.

Lemma trace_steps n m : (n ≤ m)%nat → rtc sys_step (σ n) (σ m).
Proof. induction 1 as [|m _ IH]; [done|]. eapply rtc_r; [exact IH|apply is_fair]. Qed.

Definition taken_at (m : nat) (id : rval) : Prop := id ∈ line (σ m) q ∧ id ∉ line (σ (S m)) q.

Lemma line_moves n p id :
  line (σ n) q !! p = Some id →
  taken_at n id ∨ ∃ p', line (σ (S n)) q !! p' = Some id ∧ (p' ≤ p)%nat.
Proof.
  intros Hp. pose proof (fs_steps q σ is_fair n) as Hs.
  destruct (moves_up P q _ _ id p (reach_wf P D N few _ _ q starts (trace_reached n))
    (reach_wf P D N few _ _ q starts (trace_reached (S n)))
    (steps_fifo P D N few _ _ _ q starts (trace_reached n) (rtc_once _ _ Hs)) Hp) as [Hout|?]; [left|by right].
  split; [by eapply list_elem_of_lookup_2|done].
Qed.

Lemma line_walk n p id d :
  line (σ n) q !! p = Some id →
  (∃ m, (n ≤ m)%nat ∧ taken_at m id) ∨ ∃ p', line (σ (n + d)) q !! p' = Some id ∧ (p' ≤ p)%nat.
Proof.
  intros Hp. induction d as [|d [IH|(p1 & H1 & Hle)]]; [right; rewrite Nat.add_0_r; by exists p|by left|].
  replace (n + S d)%nat with (S (n + d)) by lia.
  destruct (line_moves _ _ _ H1) as [Ht|(p2 & H2 & Hle2)]; [left; exists (n + d)%nat; split; [lia|done]|].
  right. exists p2. split; [done|lia].
Qed.

(** Every waiting entry is taken. *)
Lemma always_taken n id : id ∈ line (σ n) q → ∃ m, (n ≤ m)%nat ∧ taken_at m id.
Proof.
  intros [p Hp]%list_elem_of_lookup. revert n Hp. induction (lt_wf p) as [p _ IH]; intros n Hp.
  destruct (fs_polls q σ is_fair n) as (m & c & js & Hle & Hpoll & Hb).
  destruct (line_walk n p id (m - n) Hp) as [?|(p1 & H1 & Hle1)]; [done|].
  replace (n + (m - n))%nat with m in H1 by lia.
  assert (wr_prefix c = P) as Hpre by (eapply (reach_prefix P D N few); [exact starts|apply (trace_reached m)|exact Hpoll]).
  destruct (taken_front P q _ _ id p1 (Z.to_nat (poll_batch c)) (reach_wf P D N few _ _ q starts (trace_reached m))
              (poll_takes P _ _ _ _ _ Hpoll Hpre) H1) as [Hout|(p2 & H2 & ->)].
  - exists m. split; [done|]. split; [by eapply list_elem_of_lookup_2|done].
  - assert (p2 < p)%nat as Hlt by lia. destruct (IH p2 Hlt (S m) H2) as (m' & Hle' & H).
    exists m'. split; [lia|done].
Qed.

(** The run, as one worker sees it from step [n] on. *)
Lemma worker_trace n i c s :
  worker_at (σ n) i = Some (c, s) →
  ∃ τ : nat → World E * runner E, (τ 0%nat).2 = s ∧ fair c τ ∧
    ∀ k, worker_at (σ (n + k)) i = Some (c, (τ k).2).
Proof.
  intros Hi. set (st k := match worker_at (σ (n + k)) i with Some (_, s) => s | None => s end).
  assert (∀ k, worker_at (σ (n + k)) i = Some (c, st k)) as Hst.
  { intros k. unfold st. induction k as [|k IH]; [by rewrite Nat.add_0_r, Hi|].
    replace (n + S k)%nat with (S (n + k)) by lia.
    destruct (worker_goes_on _ _ _ _ _ (fs_steps q σ is_fair (n + k)) IH) as (s' & Hs' & _). by rewrite Hs'. }
  assert (∀ m, (n ≤ m)%nat → worker_at (σ m) i = Some (c, st (m - n)%nat)) as Hat.
  { intros m Hle. rewrite <- Hst. by replace (n + (m - n))%nat with m by lia. }
  exists (λ k, (sy_world (σ (n + k)), st k)). split_and!; [| |done].
  - cbn. unfold st. by rewrite Nat.add_0_r, Hi.
  - assert (∀ k, σ (n + S k)%nat = σ (S (n + k))) as HS by (intros k; f_equal; lia). split.
    + intros k. destruct (worker_goes_on _ _ _ _ _ (fs_steps q σ is_fair (n + k)) (Hst k)) as (s' & Hs' & Hstep).
      rewrite <- HS, Hst in Hs'. injection Hs' as <-. by rewrite HS.
    + intros k. destruct (fs_loop q σ is_fair _ _ _ _ (Hst k)) as (m & s1 & s2 & Hle & H1 & H2 & H).
      exists (m - n)%nat. split; [lia|]. rewrite Hat in H1, H2 by lia. injection H1 as <-. injection H2 as <-.
      replace (n + (m - n))%nat with m by lia. replace (n + S (m - n))%nat with (S m) by lia.
      replace (S m - n)%nat with (S (m - n)) in H by lia. exact H.
    + intros k t Ht. destruct (fs_tasks q σ is_fair _ _ _ _ _ (Hst k) Ht) as (m & s' & Hle & Hs' & Hout).
      exists (m - n)%nat. split; [lia|]. rewrite Hat in Hs' by lia. by injection Hs' as <-.
Qed.

End Trace.

(** An entry that still waits has its body. *)
Lemma body_stays x0 x y q id body :
  initial x0 → rtc sys_step x0 x → rtc sys_step x y →
  (id, body) ∈ waiting P q (queue_stream P x q) → id ∈ line y q → (id, body) ∈ waiting P q (queue_stream P y q).
Proof.
  intros Hi Hx Hxy Hin (e & -> & He)%list_elem_of_fmap. destruct e as [i b]. cbn [fst] in *.
  assert (rtc sys_step x0 y) as Hy by (by etrans).
  pose proof (reach_wf P D N few _ _ q Hi Hy) as Hwf.
  apply (waiting_sub P q _ (reach_wf P D N few _ _ q Hi Hx)) in Hin.
  destruct (steps_entries P D N few x0 x y q Hi Hx Hxy) as [l Hl].
  assert ((i, body) ∈ s_entries (queue_stream P y q)) as Hbody by (rewrite Hl; set_solver).
  pose proof (waiting_sub P q _ Hwf _ He) as Hb. destruct Hwf as (_ & Hnd & _).
  apply list_elem_of_lookup in Hbody as [k1 H1], Hb as [k2 H2].
  assert (k1 = k2) as ->.
  { eapply NoDup_lookup; [exact Hnd|unfold ids; rewrite list_lookup_fmap, H1; done|].
    unfold ids. by rewrite list_lookup_fmap, H2. }
  rewrite H1 in H2. by injection H2 as ->.
Qed.

(** The job was handed to a worker of the queue whose loop was then interrupted. *)
Definition handed_then_interrupted (σ : nat → sys E) (q : pystr) (id : rval) (job : Job) (n m : nat) : Prop :=
  ∃ i c s s' nm, worker_at (σ n) i = Some (c, s) ∧ (nm, id, job) ∈ batch_of s ∧ wr_queue c = q ∧
    worker_at (σ m) i = Some (c, s') ∧ looping (rs_pc s') = false.

(** A task of a worker of the queue was given the job and has run to its end. *)
Definition run_to_end (x : sys E) (q : pystr) (id : rval) (job : Job) : Prop :=
  ∃ i c s nm, worker_at x i = Some (c, s) ∧ wr_queue c = q ∧
    (nm, id, job) ∈ rs_executed s ∧ (nm, id, job) ∈ rs_finished s.

(** C5: Every job is run in the end.  In a fair system (each worker's loop goes on again
    and again when it can, none of its tasks is left standing for ever, and polls of the
    queue are answered again and again) every job that waits in the queue is taken by a
    read; when a worker's poll takes it, one of that worker's tasks runs it to its end,
    unless the worker is interrupted: cancelled, crashed or ended by an exception.  (The
    handler is a command that finishes; at most 1001 enqueues are in flight.) *)
Theorem every_job_is_run q σ x0 n id body job :
  initial x0 → rtc sys_step x0 (σ 0%nat) → fair_system q σ →
  (∀ m i c s, worker_at (σ m) i = Some (c, s) → 0 < max_concurrency c) →
  (id, body) ∈ waiting P q (queue_stream P (σ n) q) →
  (∀ now, decode_entry now (prod_map reply reply <$> body) = Ok (Some job)) →
  ∃ m, (n ≤ m)%nat ∧ taken_at q σ m id ∧
    ∀ c js, poll q c js (σ m) (σ (S m)) →
    ∃ m', (m < m')%nat ∧ (run_to_end (σ m') q id job ∨ handed_then_interrupted σ q id job (S m) m').
Proof.
  intros Hi H0 Hfair Hslots Hin Hd.
  assert (id ∈ line (σ n) q) as Hline by (apply list_elem_of_fmap; by exists (id, body)).
  destruct (always_taken q σ x0 Hi H0 Hfair n id Hline) as (m & Hle & Htaken).
  exists m. split_and!; [done|done|]. intros c js Hpoll.
  assert (∀ m, rtc sys_step x0 (σ m)) as Hr by (intros k; by apply (trace_reached q σ x0)).
  pose proof (reach_prefix P D N few _ _ _ _ _ _ Hi (Hr m) Hpoll) as Hpre.
  assert (carries P (σ m) q id job) as Hcarries.
  { exists body. split; [|apply Hd]. eapply body_stays; [exact Hi|apply Hr| |exact Hin|apply Htaken].
    by eapply trace_steps. }
  destruct (poll_hands_over P q c js (σ m) (σ (S m)) id job Hpoll Hpre) as [nm Hjs];
    [by apply waiting_nodup, (reach_wf P D N few _ _ q Hi (Hr m))|apply Htaken|exact Hcarries|].
  destruct Hpoll as (l1 & s & l2 & ps & w & w' & Hm & HSm & Hq & _ & _).
  set (s1 := set_pc (after_read (Some js)) s) in *.
  assert (worker_at (σ (S m)) (length l1) = Some (c, s1)) as Hat.
  { rewrite HSm. cbn. by rewrite lookup_app_r, Nat.sub_diag by lia. }
  assert ((nm, id, job) ∈ batch_of s1) as Hbatch.
  { unfold s1. cbn. destruct js as [|d js]; [by apply not_elem_of_nil in Hjs|exact Hjs]. }
  destruct (worker_trace q σ Hfair (S m) _ c s1 Hat) as (τ & Hτ0 & Hτ & Hτat).
  assert (0 < max_concurrency c) as Hc by (by eapply Hslots).
  assert (sound_worker c (τ 0%nat).2) as Hsound.
  { rewrite Hτ0. eapply (reach_sound_all _ _ Hi (Hr (S m))); [exact Hat|lia]. }
  destruct (batch_runs_up c τ Hc Hτ Hsound 0 (nm, id, job)) as (k & _ & Hk); [by rewrite Hτ0|].
  exists (S m + k)%nat. split; [lia|]. destruct Hk as [Hint|[Hex Hfin]].
  - right. exists (length l1), c, s1, (τ k).2, nm. by split_and!.
  - left. exists (length l1), c, (τ k).2, nm. by split_and!.
Qed.
End FairSystem.

(** ** Witness *)

(** [Guarantees]'s run: one job, one worker, whose first poll takes it. *)
Definition x2 : sys unit := mkSys sw2 [(failing_worker, sr0)] [].

Lemma polled_once : polled relayq 1 10 mail 1 1 x1 x3.
Proof.
  eapply polled_other; [by apply (sys_new _ _ _ failing_worker [])|].
  eapply polled_other.
  { apply worker_does. apply (st_start failing_worker sw1 sw2); [reflexivity|].
    apply (run_eq (on_redis (ensure_group relayq mail)) sw1 (Ok tt)). vm_compute. reflexivity. }
  eapply (polled_other relayq 1 10 mail 1 1 _ x2);
    [apply worker_does; apply (st_test failing_worker sw2); reflexivity|].
  apply (polled_poll relayq 1 10 mail 1 0 failing_worker [d1] x2 x3); [|done|apply polled_end].
  exists [], sr0, [], [], sw2, sw3. split; [reflexivity|]. split; [reflexivity|]. split; [reflexivity|].
  split; [reflexivity|].
  apply (run_eq (read_jobs failing_worker) sw2 (Ok (Some [d1]))). vm_compute. reflexivity.
Qed.

Lemma served_in_turn_witness :
  let line x := ids (waiting relayq mail (queue_stream relayq x mail)) in
  line x1 = [RS (u "1-0")] ∧ line x3 = [] ∧
  RS (u "1-0") ∉ line x3 ∧ delivered_at relayq 1 10 x1 x3 mail (RS (u "1-0")).
Proof.
  intros line. split; [vm_compute; reflexivity|]. split; [vm_compute; reflexivity|].
  apply (served_in_turn relayq 1 10 few10 x0 x1 x3 mail 1 1 0 (RS (u "1-0")) x0_initial steps_x1).
  - vm_compute. reflexivity.
  - exact polled_once.
  - lia.
Defined.

(** The worker has run the job, and polls an empty queue again and again. *)
Definition sr_idle : runner unit := set_pc Loop (set_finished [] sr3).
Definition x_idle : sys unit := mkSys sw5 [(failing_worker, sr_idle)] [].
Definition x_polling : sys unit := mkSys sw5 [(failing_worker, set_pc Polling sr_idle)] [].
Definition idling (k : nat) : sys unit := if Nat.even k then x_idle else x_polling.

Lemma reads_nothing : read_jobs failing_worker sw5 = (Ok (Some []), sw5).
Proof.
  assert (read_group (R := model_redis) relayq (w_now sw5) mail (u "w1") 2 2000 (w_redis sw5)
          = (Ok [], w_redis sw5)) as Hr by (vm_compute; reflexivity).
  apply on_redis_run in Hr. replace (with_redis (w_redis sw5) sw5) with sw5 in Hr by (by destruct sw5).
  unfold read_jobs, except_Exception, try_except, mbind, st_mbind, on_redis_now.
  change (on_redis (read_group (wr_prefix failing_worker) (w_now sw5) (wr_queue failing_worker)
    (worker_id failing_worker) (poll_batch failing_worker) (poll_timeout failing_worker)))
    with (on_redis (E := unit) (read_group (R := model_redis) relayq (w_now sw5) mail (u "w1") 2 2000)).
  by rewrite Hr.
Qed.

Lemma idle_poll : poll mail failing_worker [] x_polling x_idle.
Proof. exists [], (set_pc Polling sr_idle), [], [], sw5, sw5. do 4 (split; [reflexivity|]). exact reads_nothing. Qed.

Lemma idling_steps k : sys_step relayq 1 10 (idling k) (idling (S k)).
Proof.
  unfold idling. rewrite Nat.even_succ, <- Nat.negb_even. destruct (Nat.even k); cbn [negb].
  - apply worker_does. apply (st_test failing_worker sw5 sr_idle); reflexivity.
  - eapply poll_step. exact idle_poll.
Qed.

Lemma steps_idle : rtc (sys_step relayq 1 10) x1 x_idle.
Proof.
  etrans; [exact steps_x3|]. etrans; [exact steps_x5|].
  apply (rtc_l _ _ (mkSys sw5 [(failing_worker, set_finished [] sr3)] [])).
  - apply (sys_worker relayq 1 10 [] failing_worker sr3 (set_finished [] sr3) []). left. apply step_task.
    exact (st_callback failing_worker sw5 sr3 [] d1 [] eq_refl).
  - apply rtc_once, worker_does, (st_next failing_worker sw5 (set_finished [] sr3)). reflexivity.
Qed.

(** From the enqueue on, the run is fair. *)
Lemma fair_run :
  ∃ σ, σ 0%nat = x1 ∧ fair_system relayq 1 10 mail σ ∧
    ∀ m i c s, sy_workers (σ m) !! i = Some (c, s) → 0 < max_concurrency c.
Proof.
  destruct (run_then _ _ _ idling steps_idle eq_refl idling_steps) as (σ & n & H0 & Hs & Hend).
  assert (∀ m k, (n ≤ m)%nat → m = (n + k)%nat → σ m = idling k) as Hlate by (intros m k _ ->; apply Hend).
  assert (∀ m, (n ≤ m)%nat → ∃ s, sy_workers (σ m) = [(failing_worker, s)] ∧ rs_running s = []) as Hone.
  { intros m Hm. rewrite (Hlate m (m - n)%nat) by lia. unfold idling. destruct (Nat.even _); by eexists. }
  assert (∀ m d i c s, sy_workers (σ m) !! i = Some (c, s) → ∃ s', sy_workers (σ (m + d)%nat) !! i = Some (c, s')) as Hstay.
  { intros m d i c s Hi. induction d as [|d [s' IH]]; [exists s; by rewrite Nat.add_0_r|].
    replace (m + S d)%nat with (S (m + d))%nat by lia.
    pose proof (worker_goes_on relayq 1 10 few10 _ _ i c s' (Hs (m + d)%nat) IH) as (s1 & H1 & _). by exists s1. }
  assert (∀ m i c s, sy_workers (σ m) !! i = Some (c, s) → i = 0%nat ∧ c = failing_worker) as Honly.
  { intros m i c s Hi. destruct (Hstay m n i c s Hi) as [s' Hs']. destruct (Hone (m + n)%nat) as (s1 & H1 & _); [lia|].
    rewrite H1 in Hs'. by apply list_lookup_singleton_Some in Hs' as [-> [= <- _]]. }
  exists σ. split; [done|]. split; [split|].
  - exact Hs.
  - intros k i c s [-> ->]%Honly. exists (n + 2 * k)%nat, sr_idle, (set_pc Polling sr_idle).
    replace (S (n + 2 * k))%nat with (n + S (2 * k))%nat by lia. rewrite !Hend. unfold idling.
    rewrite Nat.even_succ, Nat.odd_mul, Nat.even_mul. cbn [Nat.even Nat.odd negb andb orb].
    split; [lia|]. split; [done|]. split; [done|]. right. by apply (st_test failing_worker sw5 sr_idle).
  - intros k i c s t [-> ->]%Honly _. destruct (Hone (n + k)%nat) as (s1 & H1 & Hr); [lia|].
    exists (n + k)%nat, s1. rewrite H1, Hr. split; [lia|]. split; [done|]. apply not_elem_of_nil.
  - intros k. exists (n + S (2 * k))%nat, failing_worker, [].
    replace (S (n + S (2 * k)))%nat with (n + S (S (2 * k)))%nat by lia. rewrite !Hend. unfold idling.
    rewrite !Nat.even_succ, Nat.odd_succ, Nat.odd_mul, Nat.even_mul.
    cbn [Nat.even Nat.odd negb andb orb].
    split; [lia|]. split; [exact idle_poll|done].
  - intros m i c s [-> ->]%Honly. done.
Qed.

(** The job is run to its end by the step the idle loop starts from. *)
Lemma every_job_is_run_witness :
  RS (u "1-0") ∈ ids (waiting relayq mail (queue_stream relayq x1 mail)) ∧
  rs_executed sr3 = [d1] ∧ rs_finished sr3 = [d1] ∧
  ∃ σ, σ 0%nat = x1 ∧ fair_system relayq 1 10 mail σ ∧
    ∃ m, (0 ≤ m)%nat ∧ taken_at relayq mail σ m (RS (u "1-0")) ∧
      ∀ c js, poll mail c js (σ m) (σ (S m)) →
      ∃ m', (m < m')%nat ∧ (run_to_end (σ m') mail (RS (u "1-0")) (mail_job 3) ∨
                            handed_then_interrupted σ mail (RS (u "1-0")) (mail_job 3) (S m) m').
Proof.
  split; [apply (bool_decide_unpack _); vm_compute; reflexivity|]. split; [reflexivity|]. split; [reflexivity|].
  destruct fair_run as (σ & H0 & Hfair & Hslots). exists σ. split; [exact H0|]. split; [exact Hfair|].
  apply (every_job_is_run relayq 1 10 few10 mail σ x0 0 (RS (u "1-0")) (mail_body 3)).
  - exact x0_initial.
  - rewrite H0. exact steps_x1.
  - exact Hfair.
  - exact Hslots.
  - rewrite H0. apply (bool_decide_unpack _). vm_compute. reflexivity.
  - intros now. exact (holds_decode now _ _ (holds_mail 3 (RS (u "1-0")))).
Defined.
