(* ===== verification/RateLimiter.v ===== *)
(** * The API's rate limiter: [TokenBucketRateLimiter] in [api/main.py]

    [lua_script] is the Lua text the class sends to the server, on the hash it
    reads and writes; numbers are rationals (the deployed rate, capacity, cost and
    [int(time.time())] are integers).  The server that stores and runs scripts is
    the class [Scripting], with its documented behaviour in [ScriptingSpec]. *)

From Stdlib Require Import String QArith Qminmax Lqa.
From S2P Require Import Prelude PyStr Json Errors.
Open Scope list_scope.
Open Scope Q_scope.

(** The fields [tokens] and [last_refill] of the hash. *)
Record bucket : Type := mkBucket { tokens : option Q; last_refill : option Q }.

Definition empty_bucket : bucket := mkBucket None None.

(** [math.min(capacity, tokens + elapsed * rate)] *)
Definition refilled (b : bucket) (now rate capacity : Q) : Q :=
  let t := default capacity (tokens b) in
  let last := default now (last_refill b) in
  let elapsed := Qmax 0 (now - last) in
  Qmin capacity (t + elapsed * rate).

Definition lua_script (b : bucket) (now rate capacity cost : Q) : Z * bucket :=
  let t := refilled b now rate capacity in
  if Qle_bool cost t then (1%Z, mkBucket (Some (t - cost)) (Some now))
  else (0%Z, mkBucket (Some t) (Some now)).

(** ** The limiter *)

Class Scripting : Type := {
  ss : Type;
  script_load (text : pystr) : M ss pystr;
  evalsha (sha key : pystr) (argv : list Q) : M ss Z
}.

Record TokenBucketRateLimiter : Type := mkLimiter {
  rl_key : pystr; rate : Q; capacity : Q; _script_hash : option pystr
}.

Section Limiter.
Context {X : Scripting}.
(** [LUA_SCRIPT] *)
Variable LUA_SCRIPT : pystr.

Definition set_hash (sha : pystr) (l : TokenBucketRateLimiter) : TokenBucketRateLimiter :=
  mkLimiter (rl_key l) (rate l) (capacity l) (Some sha).

(** [allow(cost)] at [int(time.time()) = now]: the object and the server. *)
Definition allow (now cost : Q) : M (TokenBucketRateLimiter * ss) bool :=
  l ← (fun s => (Ok s.1, s));
  sha ← match _script_hash l with
        | Some sha => mret sha
        | None =>
            sha ← zoom snd (fun s p => (p.1, s)) (script_load LUA_SCRIPT);
            _ ← modify (fun p => (set_hash sha p.1, p.2));
            mret sha
        end;
  result ← zoom snd (fun s p => (p.1, s)) (evalsha sha (rl_key l) [now; rate l; capacity l; cost]);
  mret (negb (result =? 0)%Z).

End Limiter.

(** The limiter the middleware creates. *)
Definition api_limiter : TokenBucketRateLimiter := mkLimiter (u "ratelimit:api") 100 150 None.

(** One run of the script for [key]: its answer, the bucket it leaves, and the run
    itself as the last one of the key's history. *)
Definition ran {S : Type} (bucket_at : S → pystr → bucket) (runs_of : S → pystr → list (Q * Z))
    (key : pystr) (now rate capacity cost : Q) (s : S) (v : Z) (s' : S) : Prop :=
  (v, bucket_at s' key) = lua_script (bucket_at s key) now rate capacity cost ∧
  runs_of s' key = runs_of s key ++ [(now, v)] ∧
  ∀ k, k ≠ key → bucket_at s' k = bucket_at s k ∧ runs_of s' k = runs_of s k.

(** A command that raises may have been applied or not. *)
Class ScriptingSpec (X : Scripting) (LUA_SCRIPT : pystr) : Type := {
  bucket_at : ss → pystr → bucket;
  runs_of : ss → pystr → list (Q * Z);   (* the script's runs for a key so far *)
  loaded : ss → pystr → bool;    (* the server's cache maps the SHA to LUA_SCRIPT *)
  script_load_law s r s' :
    script_load LUA_SCRIPT s = (r, s') →
    bucket_at s' = bucket_at s ∧ runs_of s' = runs_of s ∧ ∀ sha, r = Ok sha → loaded s' sha = true;
  evalsha_law s sha key now r cap cost res s' :
    loaded s sha = true → evalsha sha key [now; r; cap; cost] s = (res, s') →
    loaded s' sha = true ∧
    match res with
    | Ok v => ran bucket_at runs_of key now r cap cost s v s'
    | Raise _ => s' = s ∨ ∃ v, ran bucket_at runs_of key now r cap cost s v s'
    end;
  evalsha_noscript s sha key argv :
    loaded s sha = false → ∃ msg, evalsha sha key argv s = (Raise (RedisExn RResponseError msg), s)
}.

(** ** Runs of the script *)

(** Calls at the given times; how many were allowed, and the bucket left. *)
Fixpoint run_script (b : bucket) (nows : list Q) (r cap cost : Q) : nat * bucket :=
  match nows with
  | [] => (0%nat, b)
  | now :: nows' =>
      let '(v, b1) := lua_script b now r cap cost in
      let '(n, b2) := run_script b1 nows' r cap cost in
      ((if (v =? 0)%Z then n else S n), b2)
  end.

(** Times that never decrease, from [t0] on; [last_time] is where they end. *)
Fixpoint nondecreasing (t0 : Q) (nows : list Q) : Prop :=
  match nows with [] => True | t :: nows' => t0 <= t ∧ nondecreasing t nows' end.
Fixpoint last_time (t0 : Q) (nows : list Q) : Q :=
  match nows with [] => t0 | t :: nows' => last_time t nows' end.

Lemma refilled_bounds t l now r cap :
  0 <= r → 0 <= t → t <= cap →
  let x := refilled (mkBucket (Some t) (Some l)) now r cap in
  0 <= x ∧ x <= cap ∧ x <= t + r * Qmax 0 (now - l).
Proof.
  intros Hr Ht Hc. unfold refilled. cbn [from_option id tokens last_refill].
  pose proof (Q.le_max_l 0 (now - l)) as Hm.
  assert (0 <= Qmax 0 (now - l) * r) by nra.
  split_and!.
  - apply Q.min_glb; lra.
  - apply Q.le_min_l.
  - eapply Qle_trans; [apply Q.le_min_r|]. lra.
Qed.

(** How far the times climb, from one call to the next. *)
Fixpoint climb (t0 : Q) (nows : list Q) : Q :=
  match nows with [] => 0 | t :: nows' => Qmax 0 (t - t0) + climb t nows' end.

Lemma climb_nonneg t0 nows : 0 <= climb t0 nows.
Proof.
  revert t0. induction nows as [|t nows IH]; intros t0; cbn [climb]; [lra|].
  pose proof (Q.le_max_l 0 (t - t0)). specialize (IH t). lra.
Qed.

Lemma climb_nondecreasing t0 nows : nondecreasing t0 nows → climb t0 nows == last_time t0 nows - t0.
Proof.
  revert t0. induction nows as [|t nows IH]; intros t0; cbn [nondecreasing climb last_time]; [intros; lra|].
  intros [Hle Hnd]. rewrite (IH t Hnd), (Q.max_r 0 (t - t0)) by lra. lra.
Qed.

(** The tokens gained are what the climbs bring, in whatever order the calls run. *)
Lemma run_script_climb t l nows r cap cost n b' :
  0 <= r → 0 <= cost → 0 <= t → t <= cap →
  run_script (mkBucket (Some t) (Some l)) nows r cap cost = (n, b') →
  ∃ t', b' = mkBucket (Some t') (Some (last_time l nows)) ∧ 0 <= t' ∧ t' <= cap ∧
        cost * inject_Z (Z.of_nat n) + t' <= t + r * climb l nows.
Proof.
  intros Hr Hk. revert t l n b'. induction nows as [|now nows IH]; intros t l n b' Ht Hc; simpl.
  - intros [= <- <-]. exists t. split_and!; [done..|].
    replace (inject_Z (Z.of_nat 0)) with 0 by done. lra.
  - destruct (refilled_bounds t l now r cap Hr Ht Hc) as (H0 & H1 & H2). unfold lua_script.
    set (x := refilled (mkBucket (Some t) (Some l)) now r cap) in *. clearbody x.
    destruct (Qle_bool cost x) eqn:Hx.
    + apply Qle_bool_iff in Hx.
      destruct (run_script (mkBucket (Some (x - cost)) (Some now)) nows r cap cost) as [m b2] eqn:Hr2.
      intros [= <- <-]. apply IH in Hr2 as (t' & -> & Ht0 & Ht1 & Hle); [|lra|lra].
      exists t'. split_and!; [done..|]. rewrite Nat2Z.inj_succ, <- Z.add_1_r, inject_Z_plus.
      change (inject_Z 1) with 1. lra.
    + destruct (run_script (mkBucket (Some x) (Some now)) nows r cap cost) as [m b2] eqn:Hr2.
      intros [= <- <-]. apply IH in Hr2 as (t' & -> & Ht0 & Ht1 & Hle); [|lra|lra].
      exists t'. split_and!; [done..|]. lra.
Qed.

(** From the empty bucket: the first call finds it full. *)
Lemma run_script_fresh now nows r cap cost n b' :
  0 <= r → 0 <= cost → 0 <= cap → run_script empty_bucket (now :: nows) r cap cost = (n, b') →
  cost * inject_Z (Z.of_nat n) <= cap + r * climb now nows.
Proof.
  intros Hr Hk Hc H.
  change (run_script (mkBucket (Some cap) (Some now)) (now :: nows) r cap cost = (n, b')) in H.
  apply run_script_climb in H as (t' & _ & Ht & _ & Hle); [|done|done|done|lra].
  cbn [climb] in Hle. rewrite (Q.max_l 0 (now - now)) in Hle by lra. lra.
Qed.

Lemma run_script_app b nows nows' r cap cost :
  run_script b (nows ++ nows') r cap cost =
  let '(n, b1) := run_script b nows r cap cost in
  let '(m, b2) := run_script b1 nows' r cap cost in ((n + m)%nat, b2).
Proof.
  revert b. induction nows as [|now nows IH]; intros b; cbn [run_script app].
  { by destruct (run_script b nows' r cap cost). }
  destruct (lua_script b now r cap cost) as [v b1]. rewrite IH.
  destruct (run_script b1 nows r cap cost) as [n b2].
  destruct (run_script b2 nows' r cap cost) as [m b3]. by destruct (v =? 0)%Z.
Qed.

(** ** Properties *)

(** The bucket limits the rate.  For calls at nondecreasing times, the cost of
    all allowed calls is at most the tokens the bucket held plus [rate] times the
    elapsed seconds, hence at most [capacity] plus that; and the bucket's tokens
    stay between zero and the capacity. *)
Theorem rate_is_limited t l nows r cap cost n b' :
  0 <= r → 0 <= cost → 0 <= t → t <= cap → nondecreasing l nows →
  run_script (mkBucket (Some t) (Some l)) nows r cap cost = (n, b') →
  cost * inject_Z (Z.of_nat n) <= t + r * (last_time l nows - l) ∧
  cost * inject_Z (Z.of_nat n) <= cap + r * (last_time l nows - l) ∧
  ∃ t', tokens b' = Some t' ∧ 0 <= t' ∧ t' <= cap.
Proof.
  intros Hr Hk Ht Hc Hnd H. destruct (run_script_climb _ _ _ _ _ _ _ _ Hr Hk Ht Hc H)
    as (t' & -> & H0 & H1 & Hle). rewrite climb_nondecreasing in Hle by done.
  split_and!; [lra..|]. by exists t'.
Qed.

(** The limit does not survive a clock that steps back.  An empty bucket
    refilled at [now] is refilled again by [rate * d] after one call at [now - d]
    and one at [now], although no time has passed: the caller's clock decides. *)
Theorem clock_step_back_refills now r cap d cost :
  0 <= r → 0 <= d → 0 < cost → cost <= cap → cost <= r * d →
  let b := mkBucket (Some 0) (Some now) in
  (lua_script b now r cap cost).1 = 0%Z ∧
  (run_script b [now - d; now] r cap cost).1 = 1%nat.
Proof.
  intros Hr Hd Hk Hc Hrd b.
  assert (∀ t l x, t == 0 → x <= l → refilled (mkBucket (Some t) (Some l)) x r cap == 0) as Hz.
  { intros t l x Ht Hx. unfold refilled. cbn [from_option id tokens last_refill].
    rewrite (Q.max_l 0 (x - l)) by lra. rewrite Q.min_r by lra. lra. }
  assert (∀ x, x <= now → lua_script b x r cap cost =
            (0%Z, mkBucket (Some (refilled b x r cap)) (Some x))) as Hdeny.
  { intros x Hx. unfold lua_script. specialize (Hz 0 now x (Qeq_refl 0) Hx).
    destruct (Qle_bool cost (refilled b x r cap)) eqn:He; [|done].
    apply Qle_bool_iff in He. unfold b in He. lra. }
  split; [by rewrite Hdeny by lra|]. cbn [run_script]. rewrite Hdeny by lra.
  unfold lua_script at 1.
  assert (cost <= refilled (mkBucket (Some (refilled b (now - d) r cap)) (Some (now - d))) now r cap)
    as Hle.
  { unfold refilled at 1. cbn [from_option tokens last_refill].
    pose proof (Hz 0 now (now - d) (Qeq_refl 0) ltac:(lra)) as Hx. fold b in Hx.
    apply Q.min_glb; [done|]. rewrite Hx. rewrite (Q.max_r 0 (now - (now - d))) by lra. unfold id. lra. }
  apply Qle_bool_iff in Hle. by rewrite Hle.
Qed.

Section LimiterSpec.
Context {X : Scripting} (LUA_SCRIPT : pystr) {XS : ScriptingSpec X LUA_SCRIPT}.

(** [allow] is one atomic run of the script on the limiter's bucket: when it
    returns, the answer and the bucket are the script's, other buckets are
    untouched, and the script's hash is cached in the object. *)
Theorem allow_runs_script now cost l s b l' s' :
  (∀ sha, _script_hash l = Some sha → loaded s sha = true) →
  allow LUA_SCRIPT now cost (l, s) = (Ok b, (l', s')) →
  (b, bucket_at s' (rl_key l)) =
    (let '(v, b') := lua_script (bucket_at s (rl_key l)) now (rate l) (capacity l) cost in
     (negb (v =? 0)%Z, b')) ∧
  (∀ k, k ≠ rl_key l → bucket_at s' k = bucket_at s k) ∧
  ∃ sha, _script_hash l' = Some sha ∧ loaded s' sha = true ∧
         rl_key l' = rl_key l ∧ rate l' = rate l ∧ capacity l' = capacity l.
Proof.
  intros Hh. unfold allow. intros [(l0 & p & Hl & H)|(e & _ & [=])]%st_bind_inv.
  injection Hl as <- <-.
  apply st_bind_inv in H as [(sha & p & Hs & H)|(e & _ & [=])].
  assert (∃ s1, p.2 = s1 ∧ loaded s1 sha = true ∧ bucket_at s1 = bucket_at s ∧
                _script_hash p.1 = Some sha ∧ rl_key p.1 = rl_key l ∧ rate p.1 = rate l ∧
                capacity p.1 = capacity l) as (s1 & Hp & Hload & Hb & Hsh & Hk & Hr & Hc).
  { cbn [fst snd] in Hs. destruct (_script_hash l) as [sha0|] eqn:Hl0.
    - injection Hs as <- <-. exists s. split_and!; try done. by apply Hh.
    - apply st_bind_inv in Hs as [(sha1 & p1 & Hs1 & Hs)|(e & _ & [=])].
      unfold zoom in Hs1. cbn [snd fst] in Hs1.
      destruct (script_load LUA_SCRIPT s) as [r1 s1] eqn:Hsl. injection Hs1 as -> <-.
      apply script_load_law in Hsl as (Hb & _ & Hload). injection Hs as <- <-. exists s1.
      split_and!; try done. by apply Hload. }
  apply st_bind_inv in H as [(v & p2 & Hv & H)|(e & _ & [=])]. unfold zoom in Hv. rewrite Hp in Hv.
  cbn [fst] in Hv. destruct (evalsha _ _ _ s1) as [rv s2] eqn:He. injection Hv as -> <-.
  apply evalsha_law in He as (Hload2 & Heq & _ & Hother); [|done]. injection H as <- <- <-.
  rewrite <- Hb, <- Heq. split_and!; [done| |].
  - intros k Hne. by destruct (Hother k Hne).
  - exists sha. by split_and!.
Qed.

(** The limiter does not recover from a script flush.  Once the server has
    lost the script whose hash the object cached, every call raises the server's
    error and changes nothing, so every request after it fails too. *)
Theorem allow_after_flush now cost l s sha :
  _script_hash l = Some sha → loaded s sha = false →
  ∃ msg, allow LUA_SCRIPT now cost (l, s) = (Raise (RedisExn RResponseError msg), (l, s)).
Proof.
  intros Hh Hl. destruct (evalsha_noscript s sha (rl_key l) [now; rate l; capacity l; cost] Hl) as [msg Hm].
  exists msg. unfold allow. erewrite st_bind_ok by done. cbn [fst]. rewrite Hh.
  erewrite st_bind_ok by done. apply st_bind_raise. unfold zoom. cbn [snd fst]. by rewrite Hm.
Qed.

End LimiterSpec.

(** ** A concrete script server *)

(** The cached script texts (a text is its own hash), the buckets, and the runs. *)
Record mscript : Type := mkScripts {
  m_loaded : list pystr; m_buckets : pystr → bucket; m_runs : pystr → list (Q * Z)
}.

Definition no_scripts : mscript := mkScripts [] (λ _, empty_bucket) (λ _, []).

Definition noscript : exn := RedisExn RResponseError (u "NOSCRIPT No matching script").

Definition m_evalsha (sha key : pystr) (argv : list Q) : M mscript Z := fun s =>
  if bool_decide (sha ∈ m_loaded s) then
    match argv with
    | [now; r; cap; cost] =>
        let '(v, b) := lua_script (m_buckets s key) now r cap cost in
        (Ok v, mkScripts (m_loaded s) (λ k, if decide (k = key) then b else m_buckets s k)
                         (λ k, if decide (k = key) then m_runs s k ++ [(now, v)] else m_runs s k))
    | _ => (Raise noscript, s)
    end
  else (Raise noscript, s).

#[export] Instance model_scripting : Scripting := {|
  ss := mscript;
  script_load text := fun s => (Ok text, mkScripts (text :: m_loaded s) (m_buckets s) (m_runs s));
  evalsha := m_evalsha
|}.

#[export, program] Instance model_scripting_spec text : ScriptingSpec model_scripting text :=
  {| bucket_at := m_buckets; runs_of := m_runs; loaded s sha := bool_decide (sha ∈ m_loaded s) |}.
Next Obligation.
  intros text s r s' [= <- <-]. split_and!; [done..|]. intros sha [= <-].
  apply bool_decide_eq_true. by left.
Qed.
Next Obligation.
  intros text s sha key now r cap cost res s'. cbn. unfold m_evalsha. intros Hin. rewrite Hin.
  destruct (lua_script (m_buckets s key) now r cap cost) as [v0 b] eqn:Hl. intros [= <- <-].
  cbn [m_buckets m_loaded m_runs]. split; [exact Hin|]. unfold ran. cbn [m_buckets m_runs].
  rewrite !decide_True by done. split_and!; [done..|].
  intros k Hk. by rewrite !decide_False.
Qed.
Next Obligation.
  intros text s sha key argv. cbn. unfold m_evalsha. intros ->. by eexists.
Qed.

(** ** Witnesses *)

(** Twenty calls in one second on a full bucket of five, one token a second. *)
Lemma rate_is_limited_witness :
  let '(n, b') := run_script (mkBucket (Some 5) (Some 0)) (repeat 0 10 ++ repeat 1 10) 1 5 1 in
  n = 6%nat ∧ 1 * inject_Z (Z.of_nat n) <= 5 + 1 * (1 - 0).
Proof.
  destruct (run_script _ _ _ _ _) as [n b'] eqn:H.
  assert (n = 6%nat) as -> by (vm_compute in H; by injection H as <- _). split; [reflexivity|].
  apply (rate_is_limited 5 0 (repeat 0 10 ++ repeat 1 10) 1 5 1 6 b') in H as [H _];
    [exact H|discriminate|discriminate|discriminate|discriminate|].
  repeat split; discriminate.
Defined.

Lemma clock_step_back_witness :
  let b := mkBucket (Some 0) (Some 1000) in
  (lua_script b 1000 100 150 1).1 = 0%Z ∧ (run_script b [1000 - 10; 1000] 100 150 1).1 = 1%nat.
Proof.
  apply (clock_step_back_refills 1000 100 150 10 1); try reflexivity; discriminate.
Defined.

Lemma allow_runs_script_witness :
  let s : @ss model_scripting := no_scripts in
  let '(r, (l', s')) := allow (u "lua") 1000 1 (api_limiter, s) in
  r = Ok true ∧ _script_hash l' = Some (u "lua") ∧
  (true, m_buckets s' (rl_key api_limiter)) =
    (let '(v, b') := lua_script empty_bucket 1000 100 150 1 in (negb (v =? 0)%Z, b')).
Proof.
  intros s. destruct (allow (u "lua") 1000 1 (api_limiter, s)) as [r [l' s']] eqn:H.
  assert ((allow (u "lua") 1000 1 (api_limiter, s)).1 = Ok true) as Hr by (vm_compute; reflexivity).
  assert (_script_hash (allow (u "lua") 1000 1 (api_limiter, s)).2.1 = Some (u "lua")) as Hl
    by (vm_compute; reflexivity).
  rewrite H in Hr, Hl. cbn [fst snd] in Hr, Hl. subst r.
  split; [reflexivity|]. split; [exact Hl|].
  apply (allow_runs_script (u "lua") 1000 1 api_limiter s true l' s') in H as [H _]; [exact H|].
  intros sha Hs. discriminate Hs.
Defined.

Lemma allow_after_flush_witness :
  let l := set_hash (u "lua") api_limiter in
  let s : @ss model_scripting := no_scripts in
  ∃ msg, allow (u "lua") 1000 1 (l, s) = (Raise (RedisExn RResponseError msg), (l, s)).
Proof.
  intros l s. apply (allow_after_flush (u "lua") 1000 1 l s (u "lua")); reflexivity.
Defined.
