(* ===== verification/Api.v ===== *)
(** * The HTTP API: [api/main.py]

    The request model, its validators and the endpoints.  FastAPI and pydantic
    are third-party code: a request body arrives as typed fields, [Field]
    constraints are their documented meaning, and an endpoint is a computation
    that returns the response's JSON or raises.  The module's globals are the
    record [Api]. *)

From Stdlib Require Import String QArith.
From S2P Require Import Prelude PyStr Json Errors Datetime Job Redis RedisModel Transport SqliteStore World Scenario Delivery Enqueue.
Open Scope list_scope.
Open Scope Z_scope.

Definition MAX_PAYLOAD_BYTES : Z := 1024 * 1024.

Record EnqueueRequest : Type := mkRequest {
  req_kind : pystr;
  req_payload : list (pystr * json);
  req_queue : pystr;
  req_idempotency_key : option pystr;
  req_max_retries : Z
}.

(** [[A-Za-z0-9_.-]] *)
Definition ident_char (c : N) : bool :=
  ((65 <=? c) && (c <=? 90) || (97 <=? c) && (c <=? 122) || (48 <=? c) && (c <=? 57)
   || (c =? 95) || (c =? 46) || (c =? 45))%N.

(** [min_length], [max_length]: code points. *)
Definition length_between (lo hi : nat) (s : pystr) : bool :=
  (lo <=? length s)%nat && (length s <=? hi)%nat.

(** [re.fullmatch(r"[A-Za-z0-9_.-]{1,100}", value)] *)
Definition validate_identifier (value : pystr) : result exn pystr :=
  if length_between 1 100 value && forallb ident_char value then Ok value
  else Raise (ValueError (u "must contain only letters, digits, _, ., -")).

(** [len(json.dumps(value, default=str).encode("utf-8"))] *)
Definition payload_size (value : json) : result exn Z :=
  match utf8_encode (dumps value) with
  | Some b => Ok (Z.of_nat (length b))
  | None => Raise (ValueError (u "surrogates not allowed"))
  end.

Definition bound_payload_size (value : list (pystr * json)) : result exn (list (pystr * json)) :=
  size ← payload_size (JObj value);
  if MAX_PAYLOAD_BYTES <? size
  then Raise (ValueError (u "payload exceeds the " ++ str_int (MAX_PAYLOAD_BYTES / (1024 * 1024)) ++
                          u " MB limit (" ++ str_int size ++ u " bytes serialized)"))
  else Ok value.

(** The [Field] constraints of the model. *)
Definition field_constraints (r : EnqueueRequest) : bool :=
  length_between 1 100 (req_kind r) && length_between 1 100 (req_queue r) &&
  match req_idempotency_key r with None => true | Some k => length_between 1 200 k end &&
  (0 <=? req_max_retries r) && (req_max_retries r <=? 25).

Definition constraint_error : exn := ValueError (u "constraint violated").

(** Validation of a request: the constraints, then the field validators. *)
Definition validate_request (r : EnqueueRequest) : result exn EnqueueRequest :=
  if field_constraints r then
    kind ← validate_identifier (req_kind r);
    payload ← bound_payload_size (req_payload r);
    queue ← validate_identifier (req_queue r);
    mret (mkRequest kind payload queue (req_idempotency_key r) (req_max_retries r))
  else Raise constraint_error.

(** The globals set by [lifespan]; [api_transport] is the transport's prefix. *)
Record Api : Type := mkApi {
  api_transport : option pystr;
  api_enqueuer : option Enqueuer;
  api_redis_client : bool
}.

(** [lifespan]: the transport's default prefix, an enqueuer without a store. *)
Definition started_api : Api :=
  mkApi (Some (u "relayq")) (Some (mkEnqueuer (u "relayq") 10000 None)) true.

Definition not_ready (what : pystr) : exn := HTTPException 503 (JStr what) [].

(** A reply value in a response body ([bytes] are decoded by the encoder). *)
Definition rval_json (v : rval) : json :=
  match v with RS s => JStr s | RB b => JStr (default [] (utf8_decode b)) end.

Definition queue_full_response (exc : exn) : exn :=
  HTTPException 503
    (JObj [(u "error", JStr (u "queue_full")); (u "message", JStr (exn_str exc));
           (u "retry_after", JInt 5)])
    [(u "Retry-After", u "5")].

Section Endpoints.
Context {R : Redis} {E : Type}.

Definition lifespan_start (api : Api) : M (World E) unit :=
  match api_transport api with
  | Some prefix => on_redis (ensure_group prefix (u "default"))
  | None => mret tt
  end.

(** POST /jobs; [hex] is the draw of [uuid4().hex]. *)
Definition enqueue_job (api : Api) (hex : pystr) (req : EnqueueRequest) : M (World E) json :=
  match api_enqueuer api with
  | None => throw (not_ready (u "enqueuer not ready"))
  | Some enqueuer => at_now (fun now =>
      let job := new_job hex now (JStr (req_kind req)) (JObj (req_payload req))
                         (JStr (req_queue req)) (JInt (req_max_retries req)) in
      entry_id ← try_except (enqueue enqueuer job (req_idempotency_key req) None)
                    (fun exc => match exc with
                                | QueueFull _ _ _ => Some (throw (queue_full_response exc))
                                | IdempotencyConflict _ =>
                                    Some (throw (HTTPException 409 (JStr (exn_str exc)) []))
                                | _ => None
                                end);
       mret (JObj [(u "job_id", job_id job); (u "stream_entry_id", rval_json entry_id);
                   (u "status", JStr (u "pending"))]))
  end.

(** GET /jobs/{job_id} *)
Definition get_job_status (api : Api) (jid : pystr) : M (World E) json :=
  match api_enqueuer api ≫= enq_store with
  | None =>
      mret (JObj [(u "id", JStr jid); (u "status", JStr (u "unknown"));
                  (u "note", JStr (u "Status lookup requires a configured outbox store"))])
  | Some conn =>
      oj ← on_store conn (fun st => get_job st jid);
      match oj with
      | None => throw (HTTPException 404 (JStr (u "job '" ++ jid ++ u "' not found")) [])
      | Some job =>
          sv ← lift (status_attr_value (job_status job));
          mret (JObj [(u "id", job_id job); (u "kind", job_kind job); (u "status", JStr sv);
                      (u "queue", job_queue job);
                      (u "created_at", JStr (isoformat (job_created_at job)));
                      (u "attempts", job_attempts job); (u "max_retries", job_max_retries job);
                      (u "payload", job_payload job)])
      end
  end.

(** One queue of the listing. *)
Definition queue_stats (prefix : pystr) (has_redis : bool) (name : pystr) : M (World E) json :=
  depth ← on_redis (stream_length prefix name);
  _ ← on_redis (read_dlq prefix name (u "-") (u "+") 0);
  dlq_count ← (if has_redis then on_redis (xlen (_dlq_key prefix name)) else mret 0);
  mret (JObj [(u "name", JStr name); (u "depth", JInt depth);
              (u "oldest_job_age_seconds", JFloat (u "0.0"));
              (u "dead_letter_count", JInt dlq_count)]).

Fixpoint map_queues (prefix : pystr) (has_redis : bool) (names : list pystr)
    : M (World E) (list json) :=
  match names with
  | [] => mret []
  | name :: names' =>
      s ← queue_stats prefix has_redis name;
      ss ← map_queues prefix has_redis names';
      mret (s :: ss)
  end.

(** GET /queues; [None] when [fuel] SCAN calls were not enough. *)
Definition list_queues (api : Api) (fuel : nat) : M (World E) (option json) :=
  match api_transport api with
  | None => throw (not_ready (u "transport not ready"))
  | Some prefix =>
      names ← on_redis (transport_list_queues prefix fuel);
      match names with
      | None => mret None
      | Some names =>
          stats ← map_queues prefix (api_redis_client api) names;
          mret (Some (JObj [(u "queues", JArr stats)]))
      end
  end.

Definition entry_json (e : dlq_entry) : json :=
  JObj [(u "entry_id", rval_json (de_entry_id e)); (u "job", de_job e);
        (u "reason", JStr (de_reason e))].

(** GET /queues/{name}/dlq *)
Definition list_dlq (api : Api) (name : pystr) (limit : Z) : M (World E) json :=
  match api_transport api with
  | None => throw (not_ready (u "transport not ready"))
  | Some prefix =>
      entries ← on_redis (read_dlq prefix name (u "-") (u "+") limit);
      mret (JObj [(u "queue", JStr name); (u "entries", JArr (entry_json <$> entries));
                  (u "count", JInt (Z.of_nat (length entries)))])
  end.

(** POST /queues/{name}/dlq/{job_id}/replay *)
Definition replay_dlq_job (api : Api) (name jid : pystr) : M (World E) json :=
  match api_transport api, api_enqueuer api with
  | Some prefix, Some enqueuer =>
      entry ← on_redis (read_dlq_entry prefix name jid);
      match entry with
      | None => throw (HTTPException 404 (JStr (u "job '" ++ jid ++ u "' not found in DLQ")) [])
      | Some entry => at_now (fun now =>
           job ← lift (from_dict now (de_job entry));
           let job := set_attempts (JInt 0) (set_status (StStr (u "pending")) job) in
           entry_id ← enqueue enqueuer job None None;
           _ ← on_redis (delete_dlq_entry prefix name (de_entry_id entry));
           mret (JObj [(u "job_id", job_id job); (u "new_stream_entry_id", rval_json entry_id);
                       (u "status", JStr (u "replayed"))]))
      end
  | _, _ => throw (not_ready (u "not ready"))
  end.

End Endpoints.

(** ** Validation *)

Lemma validate_identifier_ok v v' :
  validate_identifier v = Ok v' →
  v' = v ∧ (1 ≤ length v ≤ 100)%nat ∧ forallb ident_char v = true.
Proof.
  unfold validate_identifier, length_between. destruct (_ && _) eqn:H; [|done]. intros [= <-].
  apply andb_true_iff in H as [[H1 H2]%andb_true_iff H3].
  apply Nat.leb_le in H1, H2. done.
Qed.

Lemma ident_no_colon v : forallb ident_char v = true → 58%N ∉ v.
Proof.
  intros H Hin. rewrite forallb_forall in H. specialize (H 58%N).
  rewrite <- list_elem_of_In in H. by specialize (H Hin).
Qed.

Lemma ident_wf v : forallb ident_char v = true → wf_str v = true.
Proof.
  intros H. apply forallb_forall. intros c Hc. rewrite forallb_forall in H. specialize (H c Hc).
  unfold wf_char. unfold ident_char in H.
  rewrite !orb_true_iff, !andb_true_iff, !N.leb_le, !N.eqb_eq in H.
  rewrite (proj2 (N.ltb_lt c 55296)); [done|]. destruct H as [[[[[?|?]|?]|?]|?]|?]; lia.
Qed.

Lemma payload_size_ascii j :
  wf_json j → ascii_floats j = true → payload_size j = Ok (Z.of_nat (length (dumps j))).
Proof.
  intros Hwf Ha. unfold payload_size. by rewrite utf8_encode_ascii by (by apply dumps_ascii).
Qed.

(** The job [enqueue_job] builds from a request. *)
Definition job_of_request (hex : pystr) (now : datetime) (r : EnqueueRequest) : Job :=
  new_job hex now (JStr (req_kind r)) (JObj (req_payload r)) (JStr (req_queue r))
          (JInt (req_max_retries r)).

(** C36: what validation guarantees.  An accepted request (with a payload that is
    well-formed JSON, and a stream prefix without a colon) is passed on unchanged;
    its queue name has no colon, so its stream key belongs to it alone and the
    listing recovers the name from it; the payload's JSON is at most one MiB; and
    the job built from it is well typed, with [attempts] 0 and a retry budget
    between 0 and 25. *)
Theorem accepted_request r r' prefix hex now :
  wf_json (JObj (req_payload r)) → ascii_floats (JObj (req_payload r)) = true →
  58%N ∉ prefix → validate_request r = Ok r' →
  r' = r ∧ queue_of_key (_stream_key prefix (req_queue r)) = Some (req_queue r) ∧
  Z.of_nat (length (dumps (JObj (req_payload r)))) ≤ MAX_PAYLOAD_BYTES ∧
  0 ≤ req_max_retries r ≤ 25 ∧
  job_typed (job_of_request hex now r) ∧ fits (job_of_request hex now r).
Proof.
  intros Hwf Ha Hp. unfold validate_request.
  destruct (field_constraints r) eqn:Hf; [|done].
  destruct (validate_identifier (req_kind r)) as [k|] eqn:Hk; [|done]. cbn [mbind result_mbind].
  unfold bound_payload_size. rewrite payload_size_ascii by done. cbn [mbind result_mbind].
  destruct (Z.ltb_spec MAX_PAYLOAD_BYTES (Z.of_nat (length (dumps (JObj (req_payload r))))));
    [done|]. cbn [mbind result_mbind].
  destruct (validate_identifier (req_queue r)) as [q|] eqn:Hq; [|done]. cbn [mbind result_mbind].
  intros [= <-].
  apply validate_identifier_ok in Hk as (-> & _ & _), Hq as (-> & _ & Hc).
  unfold field_constraints in Hf. rewrite !andb_true_iff, !Z.leb_le in Hf.
  destruct Hf as [[_ H0] H1].
  split_and!; [by destruct r| |done|done|done| |].
  - unfold queue_of_key, _stream_key.
    change (prefix ++ u ":" ++ req_queue r ++ u ":stream")
      with (prefix ++ 58%N :: (req_queue r ++ 58%N :: u "stream")).
    rewrite !py_split_app by (done || by apply ident_no_colon). done.
  - repeat split; eauto.
  - intros z [[= <-]|[= <-]]; [done|]. unfold int64. rewrite (proj2 (Z.leb_le _ _)) by lia. lia.
Qed.

(** ** Endpoints *)

Section EndpointSpec.
Context {R : Redis} {RS : RedisSpec R} {E : Type}.

(** Backpressure reaches the client as 503 with a Retry-After header: when
    the request's stream is at the enqueuer's bound, the endpoint raises exactly
    that response (or the server's own failure), and neither the server nor the
    store changed. *)
Theorem enqueue_job_full api e hex req (w : World E) r w' :
  api_enqueuer api = Some e →
  let job := job_of_request hex (w_now w) req in
  let depth := depth_of e job (view (w_redis w)) in
  max_queue_depth e ≤ depth →
  enqueue_job api hex req w = (r, w') →
  view (w_redis w') = view (w_redis w) ∧ w_db w' = w_db w ∧
  ((r = Raise (queue_full_response (QueueFull (JStr (req_queue req)) depth (max_queue_depth e))))
   ∨ ∃ exc s', stream_length (enq_prefix e) (req_queue req) (w_redis w) = (Raise exc, s')).
Proof.
  intros He job depth Hfull. unfold enqueue_job, at_now. rewrite He. fold (job_of_request hex (w_now w) req).
  fold job. intros H.
  assert (∃ exc, enqueue e job (req_idempotency_key req) None w = (Raise exc, w') ∧
     w_db w' = w_db w ∧ view (w_redis w') = view (w_redis w) ∧
     (exc = QueueFull (JStr (req_queue req)) depth (max_queue_depth e) ∨
      ∃ s', stream_length (enq_prefix e) (req_queue req) (w_redis w) = (Raise exc, s')))
    as (exc & Hq & Hdb & Hv & Hx).
  { assert (∃ exc w1, enqueue e job (req_idempotency_key req) None w = (Raise exc, w1) ∧
       w_db w1 = w_db w ∧ view (w_redis w1) = view (w_redis w) ∧
       (exc = QueueFull (JStr (req_queue req)) depth (max_queue_depth e) ∨
        ∃ s', stream_length (enq_prefix e) (req_queue req) (w_redis w) = (Raise exc, s')))
      as (exc & w1 & Hq & Hrest).
    { unfold enqueue. erewrite st_bind_ok by done.
      destruct (check_depth e job w) as [[a|exc] w1] eqn:Hd; pose proof Hd as Hd'; apply check_depth_run in Hd as (Hdb & Hv & Hd);
        [fold depth in Hd; lia|].
      exists exc, w1. split; [by apply st_bind_raise|]. split_and!; [done|done|].
      destruct Hd as [[-> _]|[s' Hs]]; [by left|right; eauto]. }
    exists exc. assert (w1 = w') as ->; [|done].
    apply st_bind_inv in H as [(a & w2 & Hm & _)|(x & Hm & _)]; unfold try_except in Hm;
      rewrite Hq in Hm; destruct exc; try discriminate Hm; by injection Hm as _ ->. }
  split_and!; [done|done|]. destruct Hx as [->|[s' Hs]]; [|right; eauto]. left.
  apply st_bind_inv in H as [(a & w2 & Hm & _)|(x & Hm & ->)]; unfold try_except in Hm;
    rewrite Hq in Hm; [discriminate Hm|]. by injection Hm as <-.
Qed.

Lemma read_dlq_entry_view prefix name jid s r s' :
  read_dlq_entry prefix name jid s = (r, s') → view s' = view s.
Proof.
  intros [(l & s1 & H & Hl)|(e & H & _)]%st_bind_inv; [injection Hl as _ <-|];
    apply xrevrange_law in H; simpl in H; [by destruct H|].
  destruct H as [?|(a & _ & ?)]; done.
Qed.

(** C35: a dead letter can never be replayed.  With the API's enqueuer (no store),
    the replay endpoint fails for every queue and job id, and leaves the streams
    and the dead letters as they were: it makes the status a bare string, which
    [Job.to_dict] cannot serialise. *)
Theorem replay_never_succeeds api name jid (w : World E) r w' :
  (∀ e, api_enqueuer api = Some e → enq_store e = None) →
  replay_dlq_job api name jid w = (r, w') →
  is_ok r = false ∧ view (w_redis w') = view (w_redis w).
Proof.
  intros Hst. unfold replay_dlq_job.
  destruct (api_transport api) as [prefix|]; [|by intros [= <- <-]].
  destruct (api_enqueuer api) as [e|]; [|by intros [= <- <-]]. specialize (Hst e eq_refl).
  intros [(o & w1 & Hr & H)|(exc & Hr & ->)]%st_bind_inv;
    apply on_redis_inv in Hr as (s' & Hr & ->); apply read_dlq_entry_view in Hr; [|done].
  rewrite <- Hr. change s' with (w_redis (with_redis s' w)). set (w1 := with_redis s' w) in *.
  destruct o as [entry|]; [|by injection H as <- <-]. unfold at_now in H.
  apply st_bind_inv in H as [(job & w2 & Hj & H)|(exc & Hj & ->)]; injection Hj as _ <-; [|done].
  apply st_bind_inv in H as [(id & w2 & He & _)|(exc & He & ->)];
    (eapply raw_status_fails in He; [|done|done]); by destruct He as (? & ? & _).
Qed.

(** As soon as there is a queue, listing the queues fails: it reads the dead
    letters with [count=0], which the client refuses. *)
Theorem list_queues_fails api prefix fuel (w : World E) q qs s' :
  api_transport api = Some prefix →
  transport_list_queues prefix fuel (w_redis w) = (Ok (Some (q :: qs)), s') →
  ∃ exc w', list_queues api fuel w = (Raise exc, w') ∧
    ((∃ msg, exc = RedisExn RDataError msg) ∨
     ∃ s'', stream_length prefix q s' = (Raise exc, s'')).
Proof.
  intros Ht Hl. unfold list_queues. rewrite Ht.
  erewrite st_bind_ok by (by apply on_redis_run). cbn [map_queues].
  set (w1 := with_redis s' w).
  destruct (stream_length prefix q s') as [[n|exc] s1] eqn:Hs.
  - destruct (xrevrange_count_law (_dlq_key prefix q) (u "+") (u "-") 0 s1) as [msg Hm]; [lia|].
    exists (RedisExn RDataError msg), (with_redis s1 (with_redis s1 w1)). split; [|by left; eauto].
    apply st_bind_raise, st_bind_raise. unfold queue_stats.
    erewrite st_bind_ok by (by apply on_redis_run). apply st_bind_raise.
    apply on_redis_run. unfold read_dlq. by apply st_bind_raise.
  - exists exc, (with_redis s1 w1). split; [|right; eauto].
    apply st_bind_raise, st_bind_raise. unfold queue_stats. apply st_bind_raise.
    by apply on_redis_run.
Qed.

End EndpointSpec.

(** ** Witnesses *)

Definition mail_request : EnqueueRequest :=
  mkRequest (u "send_email") [(u "to", JStr (u "a@b.c"))] mail (Some (u "k")) 3.

Lemma accepted_request_witness :
  validate_request mail_request = Ok mail_request ∧
  queue_of_key (_stream_key relayq mail) = Some mail.
Proof.
  split; [vm_compute; reflexivity|].
  apply (accepted_request mail_request mail_request relayq (u "0") noon).
  - repeat constructor; by apply (bool_decide_unpack _); vm_compute.
  - reflexivity.
  - apply (bool_decide_unpack _). vm_compute. reflexivity.
  - vm_compute. reflexivity.
Defined.

(** An API whose enqueuer takes one job per queue. *)
Definition small_api : Api := mkApi (Some relayq) (Some (mkEnqueuer relayq 1 None)) true.

Lemma enqueue_job_full_witness :
  let w := world_on (server_with 1 3) in
  let '(r, w') := enqueue_job small_api (u "00") mail_request w in
  r = Raise (queue_full_response (QueueFull (JStr mail) 1 1)) ∧
  view (w_redis w') = view (w_redis w).
Proof.
  intros w. destruct (enqueue_job small_api (u "00") mail_request w) as [r w'] eqn:H.
  outcome_is H (Raise (A:=json) (queue_full_response (QueueFull (JStr mail) 1 1))).
  split; [reflexivity|].
  apply (enqueue_job_full small_api (mkEnqueuer relayq 1 None) (u "00") mail_request w) in H
    as [H _]; [exact H|reflexivity|apply Z.leb_le; vm_compute; reflexivity].
Defined.

(** A dead letter that is there, and its replay. *)
Definition dead_world : World unit :=
  run (on_redis (xadd_dlq relayq mail (mail_job 0) (u "RuntimeError: boom"))) (world_on (server_with 0 0)).

Lemma replay_never_succeeds_witness :
  let '(r, w') := replay_dlq_job started_api mail (u "job_0123456789abcdef") dead_world in
  r = Raise (AttributeError (u "'str' object has no attribute 'value'")) ∧
  view (w_redis w') = view (w_redis dead_world).
Proof.
  destruct (replay_dlq_job started_api mail (u "job_0123456789abcdef") dead_world) as [r w'] eqn:H.
  outcome_is H (Raise (A:=json) (AttributeError (u "'str' object has no attribute 'value'"))).
  split; [reflexivity|].
  apply (replay_never_succeeds started_api mail (u "job_0123456789abcdef") dead_world) in H
    as [_ H]; [exact H|]. by intros e [= <-].
Defined.

Lemma list_queues_fails_witness :
  let w := world_on (server_with 1 3) in
  ∃ exc, (list_queues started_api 5 w).1 = Raise exc.
Proof.
  intros w.
  destruct (list_queues_fails started_api relayq 5 w mail [] (run (transport_list_queues relayq 5) (w_redis w)))
    as (exc & w' & H & _); [reflexivity| |].
  - apply run_eq. vm_compute. reflexivity.
  - exists exc. by rewrite H.
Defined.
