(* ===== verification/Breaker.v ===== *)
(** * The API's circuit breaker: [CircuitBreaker] in [api/main.py]

    The breaker keeps its state on the server: the failures of the window as a
    sorted set (one member per clock reading), the state and the time of the last
    trip as strings.  The server's string and sorted-set commands are the class
    [KeyValue], with their documented behaviour in [KeyValueSpec]; a clock reading
    [time.time()] is the rational its decimal literal denotes. *)

From Stdlib Require Import String QArith Lqa Sorted.
From S2P Require Import Prelude PyStr Json Errors Redis.
Open Scope list_scope.

(** The commands queued on a pipeline; [None] is the score ["-inf"]. *)
Inductive pipe_cmd : Type :=
| PZadd (key : pystr) (members : list (pystr * Q))
| PZremrangebyscore (key : pystr) (min : option Q) (max : Q).

Class KeyValue : Type := {
  kstate : Type;
  kv_decode : bool;
  kv_get (key : pystr) : M kstate (option rval);
  kv_set (key value : pystr) : M kstate unit;
  kv_delete (keys : list pystr) : M kstate Z;
  zcount (key : pystr) (min max : Q) : M kstate Z;
  pipe_execute (cmds : list pipe_cmd) : M kstate (list Z)
}.

Record CircuitBreaker : Type := mkBreaker {
  cb_name : pystr;
  failure_threshold : Z;
  window : Q;
  half_open_after : Q
}.

(** [self.key] and the keys derived from it. *)
Definition cb_key (b : CircuitBreaker) : pystr := u "circuitbreaker:" ++ cb_name b.
Definition state_key (b : CircuitBreaker) : pystr := cb_key b ++ u ":state".
Definition last_failure_key (b : CircuitBreaker) : pystr := cb_key b ++ u ":last_failure".

(** [reply == s]: bytes never equal a [str]. *)
Definition rval_is (r : rval) (s : pystr) : bool :=
  match r with RS t => bool_decide (t = s) | RB _ => false end.

(** [if reply:] *)
Definition rval_truthy (r : option rval) : bool :=
  match r with None | Some (RS []) | Some (RB []) => false | _ => true end.

(** [float(reply)] *)
Definition rval_float (r : rval) : result exn Q :=
  match py_float (match r with RS s => s | RB b => b end) with
  | Some q => Ok q
  | None => Raise (ValueError (u "could not convert string to float"))
  end.

Definition Qgtb (a b : Q) : bool := negb (Qle_bool a b).

Section Breaker.
Context {K : KeyValue}.
Variable b : CircuitBreaker.

Definition record_failure (now : Q) : M kstate unit :=
  _ ← pipe_execute [PZadd (cb_key b) [(float_str now, now)];
                    PZremrangebyscore (cb_key b) None (now - window b)];
  mret tt.

Definition is_open (now : Q) : M kstate bool :=
  state ← kv_get (state_key b);
  match state with
  | None => mret false
  | Some st =>
      if rval_is st (u "CLOSED") then mret false
      else if rval_is st (u "HALF_OPEN") then mret false
      else
        last_failure ← kv_get (last_failure_key b);
        match last_failure with
        | Some r =>
            if rval_truthy last_failure then
              t ← lift (rval_float r);
              let elapsed := (now - t)%Q in
              if Qgtb elapsed (half_open_after b) then
                _ ← kv_set (state_key b) (u "HALF_OPEN");
                mret false
              else mret true
            else mret true
        | None => mret true
        end
  end.

Definition maybe_trip (now : Q) : M kstate bool :=
  count ← zcount (cb_key b) (now - window b) now;
  if (failure_threshold b <=? count)%Z then
    _ ← kv_set (state_key b) (u "OPEN");
    _ ← kv_set (last_failure_key b) (float_str now);
    mret true
  else mret false.

Definition reset : M kstate unit :=
  _ ← kv_delete [cb_key b; state_key b; last_failure_key b];
  mret tt.

End Breaker.

(** ** The server *)

Inductive kvalue : Type := VStr (s : pystr) | VZset (z : gmap pystr Q).

Abbreviation keyspace := (gmap pystr kvalue).

(** The sorted set at a key; [None] is a WRONGTYPE error. *)
Definition zset_at (v : keyspace) (k : pystr) : option (gmap pystr Q) :=
  match v !! k with
  | None => Some ∅
  | Some (VZset z) => Some z
  | Some (VStr _) => None
  end.

(** An empty sorted set is no key. *)
Definition put_zset (k : pystr) (z : gmap pystr Q) (v : keyspace) : keyspace :=
  if decide (z = ∅) then delete k v else <[k := VZset z]> v.

Definition score_between (lo : option Q) (hi : Q) (s : Q) : bool :=
  match lo with None => true | Some l => Qle_bool l s end && Qle_bool s hi.

Definition add_members (members : list (pystr * Q)) (z : gmap pystr Q) : gmap pystr Q :=
  foldl (λ z m, <[m.1 := m.2]> z) z members.

Definition in_window (lo : option Q) (hi : Q) (z : gmap pystr Q) : gmap pystr Q :=
  filter (λ m, score_between lo hi m.2 = true) z.
Definition out_of_window (lo : option Q) (hi : Q) (z : gmap pystr Q) : gmap pystr Q :=
  filter (λ m, score_between lo hi m.2 = false) z.

Definition pipe_step (c : pipe_cmd) (v : keyspace) : option keyspace :=
  match c with
  | PZadd k ms => z ← zset_at v k; Some (put_zset k (add_members ms z) v)
  | PZremrangebyscore k lo hi => z ← zset_at v k; Some (put_zset k (out_of_window lo hi z) v)
  end.

Fixpoint pipe_steps (cmds : list pipe_cmd) (v : keyspace) : option keyspace :=
  match cmds with
  | [] => Some v
  | c :: cs => v' ← pipe_step c v; pipe_steps cs v'
  end.

Definition kv_reply `{K : KeyValue} (s : pystr) : rval :=
  if kv_decode then RS s else RB (default [] (utf8_encode s)).

Definition kv_get_eff `{K : KeyValue} (k : pystr) (v : keyspace) (r : option rval) (v' : keyspace) : Prop :=
  match v !! k with
  | None => r = None
  | Some (VStr s) => r = Some (kv_reply s)
  | Some (VZset _) => False
  end ∧ v' = v.
Definition kv_set_eff (k s : pystr) (v : keyspace) (_ : unit) (v' : keyspace) : Prop :=
  v' = <[k := VStr s]> v.
Definition kv_delete_eff (ks : list pystr) (v : keyspace) (_ : Z) (v' : keyspace) : Prop :=
  v' = foldr delete v ks.
Definition zcount_eff (k : pystr) (lo hi : Q) (v : keyspace) (n : Z) (v' : keyspace) : Prop :=
  v' = v ∧ ∃ z, zset_at v k = Some z ∧ n = Z.of_nat (size (in_window (Some lo) hi z)).
Definition pipe_eff (cmds : list pipe_cmd) (v : keyspace) (_ : list Z) (v' : keyspace) : Prop :=
  pipe_steps cmds v = Some v'.

Class KeyValueSpec (K : KeyValue) : Type := {
  kview : kstate → keyspace;
  kv_get_law k s r s' : kv_get k s = (r, s') → outcome (kv_get_eff k) (kview s) r (kview s');
  kv_set_law k x s r s' : kv_set k x s = (r, s') → outcome (kv_set_eff k x) (kview s) r (kview s');
  kv_delete_law ks s r s' :
    kv_delete ks s = (r, s') → outcome (kv_delete_eff ks) (kview s) r (kview s');
  zcount_law k lo hi s r s' :
    zcount k lo hi s = (r, s') → outcome (zcount_eff k lo hi) (kview s) r (kview s');
  pipe_law cmds s r s' :
    pipe_execute cmds s = (r, s') → outcome (pipe_eff cmds) (kview s) r (kview s')
}.

(** ** The specification: a circuit with a window of failures *)

Inductive mode : Type := Closed | Open (since : Q) | HalfOpen.

Record circuit : Type := mkCircuit { c_failures : list Q; c_mode : mode }.

Inductive op : Type := RecordFailure (now : Q) | MaybeTrip (now : Q) | IsOpen (now : Q) | Reset.

Definition op_time (o : op) : Q :=
  match o with RecordFailure t | MaybeTrip t | IsOpen t => t | Reset => 0 end.

Section Spec.
Variable b : CircuitBreaker.

Definition recent (now : Q) (l : list Q) : list Q :=
  List.filter (λ t, negb (Qle_bool t (now - window b))) l.
Definition in_last_window (now : Q) (l : list Q) : list Q :=
  List.filter (λ t, Qle_bool (now - window b) t && Qle_bool t now) l.

(** One operation: its answer and the circuit it leaves. *)
Definition spec_op (o : op) (c : circuit) : option bool * circuit :=
  match o with
  | RecordFailure now =>
      (None, mkCircuit (recent now (now :: List.filter (λ t, negb (Qeq_bool t now)) (c_failures c)))
                       (c_mode c))
  | MaybeTrip now =>
      if (failure_threshold b <=? Z.of_nat (length (in_last_window now (c_failures c))))%Z
      then (Some true, mkCircuit (c_failures c) (Open now))
      else (Some false, c)
  | IsOpen now =>
      match c_mode c with
      | Open t => if Qgtb (now - t) (half_open_after b)
                  then (Some false, mkCircuit (c_failures c) HalfOpen)
                  else (Some true, c)
      | _ => (Some false, c)
      end
  | Reset => (None, mkCircuit [] Closed)
  end.

Fixpoint spec_run (ops : list op) (c : circuit) : list (option bool) * circuit :=
  match ops with
  | [] => ([], c)
  | o :: ops' => let '(r, c1) := spec_op o c in
                 let '(rs, c2) := spec_run ops' c1 in (r :: rs, c2)
  end.

(** The program's operation. *)
Definition run_op `{K : KeyValue} (o : op) : M kstate (option bool) :=
  match o with
  | RecordFailure now => _ ← record_failure b now; mret None
  | MaybeTrip now => r ← maybe_trip b now; mret (Some r)
  | IsOpen now => r ← is_open b now; mret (Some r)
  | Reset => _ ← reset b; mret None
  end.

Fixpoint run_ops `{K : KeyValue} (ops : list op) : M kstate (list (option bool)) :=
  match ops with
  | [] => mret []
  | o :: ops' => r ← run_op o; rs ← run_ops ops'; mret (r :: rs)
  end.

(** How the server's keys represent a circuit. *)
Definition times_map (l : list Q) : gmap pystr Q := list_to_map ((λ t, (float_str t, t)) <$> l).

Definition mode_rep (m : mode) (v : keyspace) : Prop :=
  match m with
  | Closed => v !! state_key b = None
  | HalfOpen => v !! state_key b = Some (VStr (u "HALF_OPEN"))
  | Open t => v !! state_key b = Some (VStr (u "OPEN")) ∧
              v !! last_failure_key b = Some (VStr (float_str t)) ∧ decimal t
  end.

Definition represents (c : circuit) (v : keyspace) : Prop :=
  zset_at v (cb_key b) = Some (times_map (c_failures c)) ∧
  NoDup (float_str <$> c_failures c) ∧ Forall decimal (c_failures c) ∧
  mode_rep (c_mode c) v.

End Spec.

(** ** The keys *)

Lemma app_ne_self (a t : pystr) : t ≠ [] → a ++ t ≠ a.
Proof.
  intros Ht H. apply (f_equal length) in H. rewrite length_app in H. destruct t; simpl in *; [done|lia].
Qed.

Lemma state_key_ne b : state_key b ≠ cb_key b.
Proof. by apply app_ne_self. Qed.
Lemma last_failure_key_ne b : last_failure_key b ≠ cb_key b.
Proof. by apply app_ne_self. Qed.
Lemma last_failure_state_ne b : last_failure_key b ≠ state_key b.
Proof. intros H%app_inv_head. discriminate. Qed.
#[local] Hint Resolve state_key_ne last_failure_key_ne last_failure_state_ne : core.

(** ** Failure times as a sorted set *)

Lemma times_map_lookup_None l k : k ∉ float_str <$> l → times_map l !! k = None.
Proof.
  intros Hk. apply not_elem_of_list_to_map. by rewrite <- list_fmap_compose.
Qed.

Lemma times_map_filter (f : Q → bool) (P : pystr * Q → Prop) `{∀ x, Decision (P x)} l :
  (∀ t, t ∈ l → P (float_str t, t) ↔ f t = true) → NoDup (float_str <$> l) →
  filter P (times_map l) = times_map (List.filter f l).
Proof.
  induction l as [|t l IH]; simpl; [intros; apply map_filter_empty|].
  intros HP [Hn Hnd]%NoDup_cons. unfold times_map in *. simpl.
  assert (P (float_str t, t) ↔ f t = true) as Ht by (apply HP; by left).
  assert (∀ t0, t0 ∈ l → P (float_str t0, t0) ↔ f t0 = true) as HP' by (intros; apply HP; by right).
  destruct (f t) eqn:Hf; simpl.
  - rewrite map_filter_insert_True by tauto. f_equal. by apply IH.
  - rewrite map_filter_insert_False by (rewrite Ht; congruence).
    rewrite delete_id by (by apply times_map_lookup_None). by apply IH.
Qed.

Lemma filter_fmap_subset (f : Q → bool) l k :
  k ∈ float_str <$> List.filter f l → k ∈ float_str <$> l.
Proof.
  intros (t & -> & Ht)%list_elem_of_fmap. apply list_elem_of_fmap. exists t. split; [done|].
  apply list_elem_of_In in Ht. apply filter_In in Ht as [Ht _]. by apply list_elem_of_In.
Qed.

Lemma filter_NoDup (f : Q → bool) l : NoDup (float_str <$> l) → NoDup (float_str <$> List.filter f l).
Proof.
  induction l as [|t l IH]; simpl; [done|]. intros [Hn Hnd]%NoDup_cons.
  destruct (f t); simpl; [|by apply IH]. apply NoDup_cons. split; [|by apply IH].
  intros ?%filter_fmap_subset. done.
Qed.

Lemma filter_Forall {P : Q → Prop} (f : Q → bool) l : Forall P l → Forall P (List.filter f l).
Proof. induction 1; simpl; [done|]. destruct (f x); [by constructor|done]. Qed.

Lemma times_map_size l : NoDup (float_str <$> l) → size (times_map l) = length l.
Proof.
  induction l as [|t l IH]; simpl; [done|]. intros [Hn Hnd]%NoDup_cons.
  unfold times_map in *. simpl. rewrite map_size_insert_None by (by apply times_map_lookup_None).
  f_equal. by apply IH.
Qed.

(** Recording a time again replaces it. *)
Lemma times_map_insert now l :
  NoDup (float_str <$> l) → decimal now → Forall decimal l →
  <[float_str now := now]> (times_map l) =
    times_map (now :: List.filter (λ t, negb (Qeq_bool t now)) l) ∧
  NoDup (float_str <$> now :: List.filter (λ t, negb (Qeq_bool t now)) l).
Proof.
  intros Hnd Hnow Hl.
  assert (∀ t, t ∈ l → float_str t ≠ float_str now ↔ negb (Qeq_bool t now) = true) as Heq.
  { intros t Ht. rewrite Forall_forall in Hl. rewrite negb_true_iff, <- not_true_iff_false, Qeq_bool_iff.
    split; intros H1 H2; apply H1; [by apply float_str_eq|]. apply float_str_inj; auto. }
  split.
  - match goal with |- _ = times_map (_ :: ?f) =>
      change (times_map (now :: f)) with (<[float_str now := now]> (times_map f)) end.
    rewrite <- (times_map_filter _ (λ x, x.1 ≠ float_str now)) by done.
    apply map_eq. intros k. destruct (decide (k = float_str now)) as [->|Hk];
      [by rewrite !lookup_insert_eq|]. rewrite !lookup_insert_ne by done.
    rewrite map_lookup_filter. destruct (times_map l !! k); simpl; [|done]. by rewrite option_guard_True.
  - simpl. apply NoDup_cons. split; [|by apply filter_NoDup].
    intros (t & Ht & Hin)%list_elem_of_fmap. apply list_elem_of_In, filter_In in Hin as [Hin Hf].
    apply list_elem_of_In in Hin. by apply (Heq t) in Hf; [|done].
Qed.

(** ** The server's commands on the keys *)

Lemma zset_at_put k z v : zset_at (put_zset k z v) k = Some z.
Proof.
  unfold zset_at, put_zset. case_decide as Hz; [by rewrite lookup_delete_eq, Hz|].
  by rewrite lookup_insert_eq.
Qed.

Lemma put_zset_ne k z v k' : k' ≠ k → put_zset k z v !! k' = v !! k'.
Proof.
  intros Hk. unfold put_zset. case_decide; [by rewrite lookup_delete_ne|by rewrite lookup_insert_ne].
Qed.

Lemma mode_rep_frame b m v v' :
  (∀ k, k ≠ cb_key b → v' !! k = v !! k) → mode_rep b m v → mode_rep b m v'.
Proof. intros H. destruct m; simpl; rewrite !H by auto; done. Qed.

Lemma zset_frame v v' k : v' !! k = v !! k → zset_at v' k = zset_at v k.
Proof. unfold zset_at. by intros ->. Qed.

Section Refinement.
Open Scope Q_scope.
Context {K : KeyValue} {KS : KeyValueSpec K}.
Variable b : CircuitBreaker.

Lemma kv_set_ok k x s s' a :
  kv_set k x s = (Ok a, s') → kview s' = <[k := VStr x]> (kview s).
Proof. intros H%kv_set_law. exact H. Qed.

Lemma record_failure_ok now s a s' l :
  record_failure b now s = (Ok a, s') → zset_at (kview s) (cb_key b) = Some (times_map l) →
  NoDup (float_str <$> l) → decimal now → Forall decimal l →
  let l' := recent b now (now :: List.filter (λ t, negb (Qeq_bool t now)) l) in
  zset_at (kview s') (cb_key b) = Some (times_map l') ∧ NoDup (float_str <$> l') ∧
  (∀ k, k ≠ cb_key b → kview s' !! k = kview s !! k).
Proof.
  unfold record_failure. intros [(r & s1 & H & Hr)|(e & _ & [=])]%st_bind_inv Hz Hnd Hnow Hl.
  injection Hr as <- <-. apply pipe_law in H. simpl in H. unfold pipe_eff in H. simpl in H.
  rewrite Hz in H. simpl in H. rewrite zset_at_put in H. simpl in H. injection H as <-.
  destruct (times_map_insert now l Hnd Hnow Hl) as [-> Hnd']. cbv zeta. split_and!.
  - rewrite zset_at_put. f_equal. apply times_map_filter; [|done].
    intros t _. simpl. unfold score_between. simpl. by rewrite negb_true_iff.
  - by apply filter_NoDup.
  - intros k Hk. by rewrite !put_zset_ne.
Qed.

Lemma maybe_trip_ok now s r s' l :
  maybe_trip b now s = (Ok r, s') → zset_at (kview s) (cb_key b) = Some (times_map l) →
  NoDup (float_str <$> l) →
  r = (failure_threshold b <=? Z.of_nat (length (in_last_window b now l)))%Z ∧
  kview s' = if r then <[last_failure_key b := VStr (float_str now)]>
                         (<[state_key b := VStr (u "OPEN")]> (kview s))
             else kview s.
Proof.
  unfold maybe_trip. intros [(n & s1 & H & Hr)|(e & _ & [=])]%st_bind_inv Hz Hnd.
  apply zcount_law in H as (Hv & z & Hz' & ->). rewrite Hz in Hz'. injection Hz' as <-.
  unfold in_window in Hr.
  rewrite (times_map_filter (λ t, Qle_bool (now - window b) t && Qle_bool t now)) in Hr by done.
  rewrite times_map_size in Hr by (by apply filter_NoDup). fold (in_last_window b now l) in Hr.
  destruct (failure_threshold b <=? _)%Z.
  - apply st_bind_inv in Hr as [([] & s2 & H2%kv_set_ok & Hr)|(e & _ & [=])].
    apply st_bind_inv in Hr as [([] & s3 & H3%kv_set_ok & Hr)|(e & _ & [=])].
    injection Hr as <- <-. split; [done|]. by rewrite H3, H2, Hv.
  - injection Hr as <- <-. done.
Qed.

Lemma kv_get_ok k s s' r :
  kv_get k s = (Ok r, s') →
  kview s' = kview s ∧
  match kview s !! k with
  | None => r = None
  | Some (VStr x) => r = Some (kv_reply x)
  | Some (VZset _) => False
  end.
Proof. intros [H ->]%kv_get_law. done. Qed.

(** [is_open] in each mode. *)
Lemma is_open_ok now s r s' m :
  kv_decode = true → is_open b now s = (Ok r, s') → mode_rep b m (kview s) →
  match m with
  | Open t =>
      if Qgtb (now - t) (half_open_after b)
      then r = false ∧ kview s' = <[state_key b := VStr (u "HALF_OPEN")]> (kview s)
      else r = true ∧ kview s' = kview s
  | _ => r = false ∧ kview s' = kview s
  end.
Proof.
  unfold is_open. intros Hdec [(st & s1 & [Hv H]%kv_get_ok & Hr)|(e & _ & [=])]%st_bind_inv Hm.
  unfold kv_reply in H. rewrite Hdec in H. destruct m as [|t|]; simpl in Hm.
  - rewrite Hm in H. subst st. by injection Hr as <- <-.
  - destruct Hm as (Hs & Hf & Ht). rewrite Hs in H. subst st. change (rval_is _ _) with false in Hr.
    cbv iota in Hr. change (rval_is _ _) with false in Hr. cbv iota in Hr.
    apply st_bind_inv in Hr as [(lf & s2 & [Hv2 H2]%kv_get_ok & Hr)|(e & _ & [=])].
    rewrite Hv, Hf in H2. subst lf. unfold kv_reply in Hr. rewrite Hdec in Hr.
    destruct (py_float_str t Ht) as (t' & Ht' & Heq).
    assert (rval_truthy (Some (RS (float_str t))) = true) as Hne.
    { clear -Ht'. destruct (float_str t); done. }
    rewrite Hne in Hr.
    apply st_bind_inv in Hr as [(x & s3 & H3 & Hr)|(e & _ & [=])].
    unfold lift, rval_float in H3. rewrite Ht' in H3. injection H3 as <- <-.
    assert (Qgtb (now - t') (half_open_after b) = Qgtb (now - t) (half_open_after b)) as Hg
      by (unfold Qgtb; by rewrite Heq).
    cbv zeta in Hr. rewrite Hg in Hr. destruct (Qgtb _ _).
    + apply st_bind_inv in Hr as [([] & s4 & H4%kv_set_ok & Hr)|(e & _ & [=])].
      injection Hr as <- <-. by rewrite H4, Hv2, Hv.
    + injection Hr as <- <-. by rewrite Hv2.
  - rewrite Hm in H. subst st. change (rval_is _ (u "CLOSED")) with false in Hr.
    cbv iota in Hr. change (rval_is _ _) with true in Hr. by injection Hr as <- <-.
Qed.

Lemma op_refines o c s r s' :
  kv_decode = true → decimal (op_time o) → represents b c (kview s) →
  run_op b o s = (Ok r, s') →
  r = (spec_op b o c).1 ∧ represents b (spec_op b o c).2 (kview s').
Proof.
  intros Hdec Ht Hrep H. pose proof Hrep as (Hz & Hnd & Hl & Hm). destruct o as [now|now|now|]; simpl in H, Ht;
    apply st_bind_inv in H as [(a & s1 & H & Hr)|(e & _ & [=])]; injection Hr as <- <-.
  - eapply record_failure_ok in H as (Hz' & Hnd' & Hk); [|done..]. split; [done|].
    split_and!; [done|done| |by eapply mode_rep_frame].
    apply filter_Forall. constructor; [done|by apply filter_Forall].
  - eapply maybe_trip_ok in H as [-> Hv]; [|done..]. simpl. destruct (_ <=? _)%Z; rewrite Hv.
    + split; [done|]. split_and!; [|done|done|].
      * rewrite (zset_frame (kview s)); [done|]. by rewrite !lookup_insert_ne by auto.
      * simpl. split_and!; [|by rewrite lookup_insert_eq|done].
        rewrite lookup_insert_ne by auto. by rewrite lookup_insert_eq.
    + done.
  - eapply is_open_ok in H; [|done..]. unfold spec_op. destruct (c_mode c) as [|t|] eqn:Hc.
    + by destruct H as [-> ->].
    + destruct (Qgtb _ _); destruct H as [-> ->]; (split; [done|]).
      * split_and!; [|done|done|by apply lookup_insert_eq].
        rewrite (zset_frame (kview s)); [done|]. by rewrite lookup_insert_ne by auto.
      * exact Hrep.
    + by destruct H as [-> ->].
  - unfold reset in H. apply st_bind_inv in H as [(n & s2 & H & Hr)|(e & _ & [=])].
    injection Hr as <- <-. apply kv_delete_law in H. simpl in H. unfold kv_delete_eff in H.
    simpl in H. rewrite H. split; [done|]. split_and!; [|constructor|constructor|].
    + unfold zset_at. by rewrite lookup_delete_eq.
    + simpl. rewrite lookup_delete_ne by auto. by rewrite lookup_delete_eq.
Qed.

Lemma ops_refine ops c s rs s' :
  kv_decode = true → Forall (λ o, decimal (op_time o)) ops → represents b c (kview s) →
  run_ops b ops s = (Ok rs, s') →
  rs = (spec_run b ops c).1 ∧ represents b (spec_run b ops c).2 (kview s').
Proof.
  intros Hdec Hts. revert c s rs. induction Hts as [|o ops Ho _ IH]; intros c s rs Hrep H; simpl in H.
  - by injection H as <- <-.
  - apply st_bind_inv in H as [(r & s1 & H1 & H)|(e & _ & [=])].
    apply st_bind_inv in H as [(rs1 & s2 & H2 & H)|(e & _ & [=])]. injection H as <- <-.
    eapply op_refines in H1 as [-> Hrep1]; [|done..]. eapply IH in H2 as [-> Hrep2]; [|done].
    simpl. destruct (spec_op b o c) as [r1 c1]; simpl in *.
    by destruct (spec_run b ops c1) as [rs2 c2].
Qed.

(** ** Properties *)

(** C37: the breaker implements its specification.  A client that decodes replies
    (the API's does) and clock readings of at most 17 decimals given: whatever
    the order of [record_failure], [maybe_trip], [is_open] and [reset], a run of
    them that raises nothing answers as the circuit with a window of failure
    times does, and the server's keys represent the circuit's state. *)
Theorem breaker_refines ops c s rs s' :
  kv_decode = true → Forall (λ o, decimal (op_time o)) ops → represents b c (kview s) →
  run_ops b ops s = (Ok rs, s') →
  rs = (spec_run b ops c).1 ∧ represents b (spec_run b ops c).2 (kview s').
Proof. apply ops_refine. Qed.

Lemma filter_true {A} (f : A → bool) l : Forall (λ x, f x = true) l → List.filter f l = l.
Proof. induction 1 as [|x l Hx _ IH]; simpl; [done|]. by rewrite Hx, IH. Qed.

Lemma spec_records ts now l m :
  Forall (λ t, now - window b < t) l →
  StronglySorted Qlt ts → Forall (λ t, now - window b < t ∧ t <= now) ts →
  Forall (λ t, Forall (λ x, x < t) l) ts →
  (spec_run b (RecordFailure <$> ts) (mkCircuit l m)).2 = mkCircuit (rev ts ++ l) m.
Proof.
  revert l. induction ts as [|t ts IH]; intros l Hw Hts Hin Hlt; [done|].
  apply StronglySorted_inv in Hts as [Hts Hhd]. apply Forall_cons in Hin as [[Ht1 Ht2] Hin].
  apply Forall_cons in Hlt as [Hltt Hlt]. cbn [fmap list_fmap spec_run spec_op c_failures c_mode].
  assert (List.filter (λ x, negb (Qeq_bool x t)) l = l) as ->.
  { apply filter_true. eapply Forall_impl; [exact Hltt|]. intros x Hx. simpl in Hx.
    rewrite negb_true_iff. apply not_true_iff_false. rewrite Qeq_bool_iff. lra. }
  assert (recent b t (t :: l) = t :: l) as ->.
  { apply filter_true. apply Forall_cons. split.
    - rewrite negb_true_iff. apply not_true_iff_false. rewrite Qle_bool_iff. lra.
    - eapply Forall_impl; [exact Hw|]. intros x Hx. simpl in Hx.
      rewrite negb_true_iff. apply not_true_iff_false. rewrite Qle_bool_iff. lra. }
  specialize (IH (t :: l)). cbn [fmap] in IH.
  match goal with |- context [spec_run b ?o ?c] => destruct (spec_run b o c) as [rs c1] end.
  cbn [snd] in *. rewrite IH; [simpl; by rewrite <- app_assoc|by constructor|done|done|].
  rewrite Forall_forall in *. intros x Hx. constructor; [by apply Hhd|by apply Hlt].
Qed.

Lemma spec_run_app ops ops' c :
  spec_run b (ops ++ ops') c =
  let '(rs, c1) := spec_run b ops c in
  let '(rs', c2) := spec_run b ops' c1 in (rs ++ rs', c2).
Proof.
  revert c. induction ops as [|o ops IH]; intros c; simpl; [by destruct (spec_run b ops' c)|].
  destruct (spec_op b o c) as [r c1]. rewrite IH. destruct (spec_run b ops c1) as [rs c2].
  by destruct (spec_run b ops' c2).
Qed.

(** A burst trips the breaker exactly when it is large enough.  From a closed
    circuit without failures, recording failures at increasing times inside the
    window and asking [maybe_trip] answers whether there are at least
    [failure_threshold] of them; if so the breaker is open from then on. *)
Theorem burst_trips ts now s rs s' :
  kv_decode = true → represents b (mkCircuit [] Closed) (kview s) →
  Forall decimal ts → decimal now → StronglySorted Qlt ts →
  Forall (λ t, now - window b < t ∧ t <= now) ts →
  run_ops b ((RecordFailure <$> ts) ++ [MaybeTrip now]) s = (Ok rs, s') →
  let trips := (failure_threshold b <=? Z.of_nat (length ts))%Z in
  last rs = Some (Some trips) ∧
  represents b (mkCircuit (rev ts) (if trips then Open now else Closed)) (kview s').
Proof.
  intros Hdec Hrep Hd Hn Hs Hin H trips. eapply ops_refine in H as [-> Hrep']; [|done| |done].
  2: { apply Forall_app. split; [by apply Forall_fmap|by apply Forall_singleton]. }
  assert (Forall (λ t, Forall (λ x, x < t) []) ts) as Hnil by (apply Forall_forall; constructor).
  pose proof (spec_records ts now [] Closed ltac:(constructor) Hs Hin Hnil) as Hr.
  rewrite spec_run_app in *. destruct (spec_run b (RecordFailure <$> ts) _) as [rs1 c1].
  cbn [snd] in Hr. subst c1. rewrite app_nil_r in Hrep'. rewrite app_nil_r.
  cbn [spec_run spec_op c_failures c_mode] in *.
  assert (in_last_window b now (rev ts) = rev ts) as Hw.
  { apply filter_true. apply Forall_rev. eapply Forall_impl; [exact Hin|]. intros t [H1 H2].
    rewrite andb_true_iff, !Qle_bool_iff. split; lra. }
  rewrite Hw, length_rev in *. fold trips in Hrep' |- *.
  destruct trips; cbn [fst snd] in *; (split; [by rewrite last_snoc|exact Hrep']).
Qed.

(** An open breaker rejects exactly the calls that come no later than
    [half_open_after] seconds after the trip.  From the first later one on every
    call is admitted: nothing limits the half-open breaker to one probe. *)
Theorem open_then_admits_all l t ts s rs s' :
  kv_decode = true → represents b (mkCircuit l (Open t)) (kview s) →
  Forall decimal ts → StronglySorted Qle ts →
  run_ops b (IsOpen <$> ts) s = (Ok rs, s') →
  rs = (λ t', Some (Qle_bool (t' - t) (half_open_after b))) <$> ts.
Proof.
  intros Hdec Hrep Hd Hs H. eapply ops_refine in H as [-> _]; [|done|by apply Forall_fmap|done].
  clear Hrep Hd. assert (∀ us, Forall (λ t', Qle_bool (t' - t) (half_open_after b) = false) us →
    (spec_run b (IsOpen <$> us) (mkCircuit l HalfOpen)).1
    = (λ t', Some (Qle_bool (t' - t) (half_open_after b))) <$> us) as Hhalf.
  { induction 1 as [|u us Hu _ IH]; [done|]. cbn [fmap list_fmap spec_run spec_op c_mode] in *.
    unfold list_fmap in *. destruct (spec_run b _ _); cbn [fst] in *. by rewrite Hu, IH. }
  induction Hs as [|u us Hs IH Hhd]; [done|]. cbn [fmap list_fmap spec_run spec_op c_mode c_failures].
  unfold Qgtb. destruct (Qle_bool (u - t) (half_open_after b)) eqn:Hu; cbn [negb].
  - cbn [fmap] in IH. destruct (spec_run b _ _); cbn [fst] in *. by rewrite IH.
  - specialize (Hhalf us). cbn [fmap] in Hhalf. destruct (spec_run b _ _); cbn [fst] in *.
    rewrite Hhalf; [done|]. eapply Forall_impl; [exact Hhd|]. intros x Hx. simpl in Hx.
    apply not_true_iff_false in Hu. rewrite Qle_bool_iff in Hu.
    apply not_true_iff_false. rewrite Qle_bool_iff. lra.
Qed.

(** A trip whose second command was lost leaves the breaker open for ever. *)
Lemma half_trip_stuck now s r s' :
  kview s !! state_key b = Some (VStr (u "OPEN")) → kview s !! last_failure_key b = None →
  is_open b now s = (Ok r, s') → r = true ∧ kview s' = kview s.
Proof.
  unfold is_open. intros Hs Hl [(st & s1 & [Hv H]%kv_get_ok & Hr)|(e & _ & [=])]%st_bind_inv.
  rewrite Hs in H. subst st. unfold kv_reply in Hr.
  assert (∀ x, x ≠ u "OPEN" → rval_is (if kv_decode then RS (u "OPEN") else
            RB (default [] (utf8_encode (u "OPEN")))) x = false) as Hne.
  { intros x Hx. destruct kv_decode; [|done]. apply bool_decide_eq_false. by apply not_eq_sym. }
  rewrite !Hne in Hr by done.
  apply st_bind_inv in Hr as [(lf & s2 & [Hv2 H2]%kv_get_ok & Hr)|(e & _ & [=])].
  rewrite Hv, Hl in H2. subst lf. injection Hr as <- <-. split; [done|by rewrite Hv2, Hv].
Qed.

End Refinement.

(** ** A concrete server *)

Definition wrongtype : exn :=
  RedisExn RResponseError (u "WRONGTYPE Operation against a key holding the wrong kind of value").

Definition m_get (k : pystr) : M keyspace (option rval) := fun v =>
  match v !! k with
  | None => (Ok None, v)
  | Some (VStr s) => (Ok (Some (RS s)), v)
  | Some (VZset _) => (Raise wrongtype, v)
  end.

Definition m_zcount (k : pystr) (lo hi : Q) : M keyspace Z := fun v =>
  match zset_at v k with
  | None => (Raise wrongtype, v)
  | Some z => (Ok (Z.of_nat (size (in_window (Some lo) hi z))), v)
  end.

(** The replies to the queued commands are not looked at by the source. *)
Definition m_pipe (cmds : list pipe_cmd) : M keyspace (list Z) := fun v =>
  match pipe_steps cmds v with
  | None => (Raise wrongtype, v)
  | Some v' => (Ok [], v')
  end.

#[export] Instance model_kv : KeyValue := {|
  kstate := keyspace;
  kv_decode := true;
  kv_get := m_get;
  kv_set k x := modify (<[k := VStr x]>);
  kv_delete ks := fun v => (Ok (Z.of_nat (length (filter (λ k, is_Some (v !! k)) ks))), foldr delete v ks);
  zcount := m_zcount;
  pipe_execute := m_pipe
|}.

Lemma m_get_law k v r v' : m_get k v = (r, v') → outcome (kv_get_eff (K := model_kv) k) v r v'.
Proof.
  unfold m_get, outcome, kv_get_eff. destruct (v !! k) as [[x|z]|]; intros H;
    injection H as <- <-; auto.
Qed.

Lemma m_zcount_law k lo hi v r v' : m_zcount k lo hi v = (r, v') → outcome (zcount_eff k lo hi) v r v'.
Proof.
  unfold m_zcount, outcome, zcount_eff.
  destruct (zset_at v k) as [z|]; intros H; injection H as <- <-; eauto.
Qed.

Lemma m_pipe_law cmds v r v' : m_pipe cmds v = (r, v') → outcome (pipe_eff cmds) v r v'.
Proof.
  unfold m_pipe, outcome, pipe_eff.
  destruct (pipe_steps cmds v) as [v1|] eqn:H; intros Hr; injection Hr as <- <-; auto.
Qed.

#[export, program] Instance model_kv_spec : KeyValueSpec model_kv := {|
  kview := λ v, v;
  kv_get_law := m_get_law;
  zcount_law := m_zcount_law;
  pipe_law := m_pipe_law
|}.
Next Obligation. intros k x s r s' H. by injection H as <- <-. Qed.
Next Obligation. intros ks s r s' H. by injection H as <- <-. Qed.

(** ** Witnesses *)

Open Scope Q_scope.

Definition db_breaker : CircuitBreaker := mkBreaker (u "db") 3 60 30.

Lemma empty_represents : represents db_breaker (mkCircuit [] Closed) (kview (∅ : @kstate model_kv)).
Proof. split_and!; [reflexivity|constructor|constructor|reflexivity]. Qed.

Definition lifecycle : list op :=
  [RecordFailure 1; MaybeTrip 1; RecordFailure 2; RecordFailure 2; MaybeTrip 2; RecordFailure (5 # 2);
   MaybeTrip 3; IsOpen 33; IsOpen 34; IsOpen 34; Reset; IsOpen 35].

Definition answers_of (ops : list op) : result exn (list (option bool)) :=
  (run_ops (K := model_kv) db_breaker ops ∅).1.

Ltac decimals := repeat first [apply List.Forall_nil | apply List.Forall_cons];
  (split; [discriminate|apply Znumtheory.Zmod_divide; [discriminate|reflexivity]]).

Lemma breaker_refines_witness :
  ∃ rs, answers_of lifecycle = Ok rs ∧ rs = (spec_run db_breaker lifecycle (mkCircuit [] Closed)).1 ∧
        rs = [None; Some false; None; None; Some false; None; Some true; Some true; Some false;
              Some false; None; Some false].
Proof.
  eexists. split; [vm_compute; reflexivity|]. split; [|reflexivity].
  destruct (run_ops (K := model_kv) db_breaker lifecycle ∅) as [r s'] eqn:H.
  assert (r = answers_of lifecycle) as Hr by (unfold answers_of; by rewrite H).
  rewrite Hr in H. clear Hr.
  match goal with |- ?l = _ => assert (answers_of lifecycle = Ok l) as Ha by (vm_compute; reflexivity) end.
  rewrite Ha in H.
  apply (breaker_refines db_breaker _ (mkCircuit [] Closed)) in H as [H _];
    [exact H|reflexivity|decimals|exact empty_represents].
Defined.

(** Three failures in two seconds trip a threshold of three. *)
Lemma burst_trips_witness :
  ∃ s', run_ops (K := model_kv) db_breaker ((RecordFailure <$> [1; 2; 5 # 2]) ++ [MaybeTrip 3]) ∅
          = (Ok [None; None; None; Some true], s') ∧
        represents db_breaker (mkCircuit [5 # 2; 2; 1] (Open 3)) s'.
Proof.
  set (ops := (RecordFailure <$> [1; 2; 5 # 2]) ++ [MaybeTrip 3]).
  destruct (run_ops (K := model_kv) db_breaker ops ∅) as [r s'] eqn:H.
  assert (r = Ok [None; None; None; Some true]) as ->.
  { change r with (r, s').1. rewrite <- H. vm_compute. reflexivity. }
  exists s'. split; [reflexivity|]. unfold ops in H.
  apply (burst_trips db_breaker [1; 2; 5 # 2] 3) in H as [_ H];
    [exact H|reflexivity|exact empty_represents|decimals|decimals| |].
  - repeat constructor.
  - repeat constructor; discriminate.
Defined.

Definition tripped : @kstate model_kv :=
  (run_ops (K := model_kv) db_breaker ((RecordFailure <$> [1; 2; 5 # 2]) ++ [MaybeTrip 3]) ∅).2.

Lemma open_then_admits_witness :
  ∃ s', run_ops (K := model_kv) db_breaker (IsOpen <$> [3; 33; 34; 34; 35]) tripped
          = (Ok ((λ t', Some (Qle_bool (t' - 3) 30)) <$> [3; 33; 34; 34; 35]), s').
Proof.
  destruct (run_ops (K := model_kv) db_breaker (IsOpen <$> [3; 33; 34; 34; 35]) tripped)
    as [r s'] eqn:H. exists s'.
  assert (r = Ok [Some true; Some true; Some false; Some false; Some false]) as ->.
  { change r with (r, s').1. rewrite <- H. vm_compute. reflexivity. }
  apply (f_equal (λ x, (Ok x, s'))). apply (open_then_admits_all db_breaker [5 # 2; 2; 1] 3) in H;
    [exact H|reflexivity| |decimals|].
  - split; [vm_compute; reflexivity|].
    split; [by apply (bool_decide_unpack _); vm_compute|]. split; [decimals|].
    split; [vm_compute; reflexivity|]. split; [vm_compute; reflexivity|].
    split; [discriminate|apply Znumtheory.Zmod_divide; [discriminate|reflexivity]].
  - repeat constructor; discriminate.
Defined.
