(* ===== verification/Circuit.v ===== *)
(** * The circuit breaker's calls in flight at the same time

    The methods of [CircuitBreaker] as coroutines over the server: every command is
    an [await], so calls of one breaker (of one API process or of several) overlap
    between any two commands.  [bk_step] interleaves them; in a [clean] run the
    server answers every command and no call is cancelled. *)

From Stdlib Require Import String QArith.
From stdpp Require Import relations.
From S2P Require Import Prelude PyStr Json Errors Coroutine Redis Breaker.
Open Scope list_scope.

Section Circuit.
Context {K : KeyValue}.
Variable b : CircuitBreaker.

(** ** The methods *)

Definition record_failure_co (now : Q) : coroutine kstate unit :=
  _ ← co_await (pipe_execute [PZadd (cb_key b) [(float_str now, now)];
                              PZremrangebyscore (cb_key b) None (now - window b)]);
  mret tt.

Definition is_open_co (now : Q) : coroutine kstate bool :=
  state ← co_await (kv_get (state_key b));
  match state with
  | None => mret false
  | Some st =>
      if rval_is st (u "CLOSED") then mret false
      else if rval_is st (u "HALF_OPEN") then mret false
      else
        last_failure ← co_await (kv_get (last_failure_key b));
        match last_failure with
        | Some r =>
            if rval_truthy last_failure then
              t ← co_lift (rval_float r);
              let elapsed := (now - t)%Q in
              if Qgtb elapsed (half_open_after b) then
                _ ← co_await (kv_set (state_key b) (u "HALF_OPEN"));
                mret false
              else mret true
            else mret true
        | None => mret true
        end
  end.

Definition maybe_trip_co (now : Q) : coroutine kstate bool :=
  count ← co_await (zcount (cb_key b) (now - window b) now);
  if (failure_threshold b <=? count)%Z then
    _ ← co_await (kv_set (state_key b) (u "OPEN"));
    _ ← co_await (kv_set (last_failure_key b) (float_str now));
    mret true
  else mret false.

Definition reset_co : coroutine kstate unit :=
  _ ← co_await (kv_delete [cb_key b; state_key b; last_failure_key b]);
  mret tt.

Definition op_co (o : op) : coroutine kstate (option bool) :=
  match o with
  | RecordFailure now => _ ← record_failure_co now; mret None
  | MaybeTrip now => r ← maybe_trip_co now; mret (Some r)
  | IsOpen now => r ← is_open_co now; mret (Some r)
  | Reset => _ ← reset_co; mret None
  end.

(** With nothing in between a method is the function of [Breaker]. *)
Lemma is_open_co_run now s : co_run (is_open_co now) s = is_open b now s.
Proof.
  unfold is_open_co, is_open. co_step. destruct a as [st|]; [|done]. do 2 (destruct (rval_is st _); [done|]).
  co_step. destruct a as [r|]; [|done]. destruct (rval_truthy _); [|done].
  rewrite co_run_bind. apply st_bind_ext; [done|]. intros t s1. cbv zeta.
  destruct (Qgtb _ _); [|done]. by co_step.
Qed.

Lemma maybe_trip_co_run now s : co_run (maybe_trip_co now) s = maybe_trip b now s.
Proof.
  unfold maybe_trip_co, maybe_trip. co_step. destruct (_ <=? _)%Z; [|done]. co_step. by co_step.
Qed.

Lemma op_co_run o s : co_run (op_co o) s = run_op b o s.
Proof.
  destruct o; cbn [op_co run_op]; rewrite co_run_bind; (apply st_bind_ext; [|done]).
  - by unfold record_failure_co, record_failure; co_step.
  - apply maybe_trip_co_run.
  - apply is_open_co_run.
  - by unfold reset_co, reset; co_step.
Qed.

(** ** Calls that overlap *)

Record breakers : Type := mkBreakers {
  bk_server : kstate;
  bk_calls : list (coroutine kstate (option bool))
}.

Inductive bk_step (clean : bool) : breakers → breakers → Prop :=
| bk_call o l s :
    decimal (op_time o) → bk_step clean (mkBreakers s l) (mkBreakers s (l ++ [op_co o]))
| bk_turn l1 t l2 s t' s' :
    settle t s = (t', s') → bk_step clean (mkBreakers s (l1 ++ t :: l2)) (mkBreakers s' (l1 ++ t' :: l2))
| bk_await l1 l2 s X (m : M kstate X) k r s' :
    m s = (r, s') → (clean = true → is_ok r = true) →
    bk_step clean (mkBreakers s (l1 ++ CoAwait m k :: l2)) (mkBreakers s' (l1 ++ woken r k :: l2))
| bk_return l1 r l2 s :
    bk_step clean (mkBreakers s (l1 ++ CoRet r :: l2)) (mkBreakers s (l1 ++ l2))
| bk_cancel l1 t l2 s :
    (* its caller is gone *)
    clean = false → bk_step clean (mkBreakers s (l1 ++ t :: l2)) (mkBreakers s (l1 ++ l2)).

(** ** What a command does to the keys *)

Definition window_ok (v : keyspace) : Prop :=
  ∃ l, zset_at v (cb_key b) = Some (times_map l) ∧ NoDup (float_str <$> l) ∧ Forall decimal l.
Definition state_ok (v : keyspace) : Prop :=
  v !! state_key b = None ∨ v !! state_key b = Some (VStr (u "OPEN")) ∨
  v !! state_key b = Some (VStr (u "HALF_OPEN")).
Definition opened (v : keyspace) : Prop := v !! state_key b = Some (VStr (u "OPEN")).
Definition timed (v : keyspace) : Prop :=
  ∃ t, v !! last_failure_key b = Some (VStr (float_str t)) ∧ decimal t.

(** A call is tripping between its two SETs.  An open state stays timed, or becomes
    so by the call that is tripping. *)
Definition keeps_keys (v v' : keyspace) (tripping tripping' : bool) : Prop :=
  window_ok v → state_ok v →
  window_ok v' ∧ state_ok v' ∧ (timed v → opened v' → timed v') ∧
  (opened v' → timed v' ∨ tripping' = true ∨ opened v ∧ tripping = false).

Context {KS : KeyValueSpec K}.

Fixpoint keeps {A} (tripping : bool) (t : coroutine kstate A) : Prop :=
  match t with
  | CoRet _ => tripping = false
  | CoSync m k => ∀ s r s', m s = (r, s') → s' = s ∧ keeps tripping (k r)
  | CoAwait m k => ∀ s a s', m s = (Ok a, s') →
      ∃ tripping', keeps_keys (kview s) (kview s') tripping tripping' ∧ keeps tripping' (k (Ok a))
  end.

Lemma keeps_co_bind {A B} p (t : coroutine kstate A) (f : A → coroutine kstate B) :
  keeps p t → (∀ a, keeps false (f a)) → keeps p (t ≫= f).
Proof.
  intros Ht Hf. unfold mbind, co_mbind. revert p Ht.
  induction t as [[a|e]|X m k IH|X m k IH]; intros p; cbn [co_then keeps].
  - intros ->. apply Hf.
  - done.
  - intros H s r s' Hm. destruct (H s r s' Hm) as [? ?]. split; [done|]. by apply IH.
  - intros H s a s' Hm. destruct (H s a s' Hm) as (p' & ? & ?). exists p'. split; [done|]. by apply IH.
Qed.

Lemma keeps_await {A X} p (m : M kstate X) (f : X → coroutine kstate A) :
  (∀ s a s', m s = (Ok a, s') → ∃ p', keeps_keys (kview s) (kview s') p p' ∧ keeps p' (f a)) →
  keeps p (co_await m ≫= f).
Proof. intros H s a s' Hm. by apply H. Qed.

Lemma keeps_settle {A} p (t : coroutine kstate A) s t' s' :
  keeps p t → settle t s = (t', s') → s' = s ∧ keeps p t'.
Proof.
  revert s. induction t as [r|X m k IH|X m k IH]; intros s; cbn [keeps settle]; try (by intros ? [= <- <-]).
  intros H. destruct (m s) as [r s1] eqn:Hm. destruct (H _ _ _ Hm) as [-> Hk]. by apply IH.
Qed.

Lemma keeps_woken {A X} p (a : X) (k : result exn X → coroutine kstate A) :
  keeps p (k (Ok a)) → keeps p (woken (Ok a) k).
Proof. intros H s r s' [= <- <-]. by split. Qed.

(** ** The commands of the methods *)

Lemma keeps_same v v' p : v' = v → keeps_keys v v' p p.
Proof. intros -> Hw Hs. split_and!; auto. destruct p; auto. Qed.

Lemma window_frame v v' : v' !! cb_key b = v !! cb_key b → window_ok v → window_ok v'.
Proof. intros H (l & Hl & ?). exists l. split; [|done]. by rewrite (zset_frame v). Qed.

Lemma trip_state v : keeps_keys v (<[state_key b := VStr (u "OPEN")]> v) false true.
Proof.
  intros Hw Hs. split_and!; [|right; left; apply lookup_insert_eq| |auto].
  - eapply window_frame; [|exact Hw]. by rewrite lookup_insert_ne by apply state_key_ne.
  - intros (t & Ht & Hd) _. exists t. split; [|done].
    by rewrite lookup_insert_ne by apply not_eq_sym, last_failure_state_ne.
Qed.

Lemma trip_time v now :
  decimal now → keeps_keys v (<[last_failure_key b := VStr (float_str now)]> v) true false.
Proof.
  intros Hd Hw Hs.
  assert (timed (<[last_failure_key b := VStr (float_str now)]> v)) as Ht
    by (exists now; split; [apply lookup_insert_eq|done]).
  split_and!; [| |done|by left].
  - eapply window_frame; [|exact Hw]. by rewrite lookup_insert_ne by apply last_failure_key_ne.
  - unfold state_ok. by rewrite lookup_insert_ne by apply last_failure_state_ne.
Qed.

Lemma half_open_state v : keeps_keys v (<[state_key b := VStr (u "HALF_OPEN")]> v) false false.
Proof.
  intros Hw Hs.
  assert (¬ opened (<[state_key b := VStr (u "HALF_OPEN")]> v)) as Hn
    by (unfold opened; by rewrite lookup_insert_eq).
  split_and!; [|right; right; apply lookup_insert_eq|by intros ? ?|by intros ?].
  eapply window_frame; [|exact Hw]. by rewrite lookup_insert_ne by apply state_key_ne.
Qed.

Lemma reset_keys v : keeps_keys v (delete (cb_key b) (delete (state_key b) (delete (last_failure_key b) v)))
                                false false.
Proof.
  intros Hw Hs. set (v' := delete _ _).
  assert (v' !! state_key b = None) as Hst.
  { unfold v'. rewrite lookup_delete_ne by apply not_eq_sym, state_key_ne. apply lookup_delete_eq. }
  split_and!; [|by left|unfold opened; by rewrite Hst..].
  exists []. split_and!; [|constructor..]. unfold zset_at, v'. by rewrite lookup_delete_eq.
Qed.

Lemma record_keys now s a s' :
  decimal now → record_failure b now s = (Ok a, s') → keeps_keys (kview s) (kview s') false false.
Proof.
  intros Hd H (l & Hz & Hn & Hl) Hs.
  destruct (record_failure_ok b now s a s' l H Hz Hn Hd Hl) as (Hz' & Hn' & Hk).
  assert (∀ k, k ≠ cb_key b → kview s' !! k = kview s !! k) as Hk' by done.
  unfold state_ok, opened, timed. rewrite !Hk' by first [apply state_key_ne|apply last_failure_key_ne].
  split_and!; [|done|done|auto]. eexists. split; [exact Hz'|]. split; [done|].
  apply filter_Forall. constructor; [done|by apply filter_Forall].
Qed.

Lemma op_keeps o : decimal (op_time o) → keeps false (op_co o).
Proof.
  intros Hd. destruct o as [now|now|now|]; cbn [op_co op_time] in *; (apply keeps_co_bind; [|done]).
  - apply keeps_await. intros s a s' H. exists false. split; [|done].
    eapply (record_keys now _ tt _ Hd). unfold record_failure, mbind, st_mbind. by rewrite H.
  - apply keeps_await. intros s n s' H. apply zcount_law in H as [H _]. exists false.
    split; [by apply keeps_same|]. destruct (_ <=? n)%Z; [|done].
    apply keeps_await. clear s s' H. intros s a s' H. apply kv_set_ok in H as ->. exists true. split; [apply trip_state|].
    apply keeps_await. clear s s' a. intros s a s' H. apply kv_set_ok in H as ->. exists false. split; [by apply trip_time|done].
  - apply keeps_await. intros s r s' [H _]%kv_get_ok. exists false. split; [by apply keeps_same|].
    destruct r as [st|]; [|done]. do 2 (destruct (rval_is st _); [done|]).
    apply keeps_await. clear s s' H. intros s r s' [H _]%kv_get_ok. exists false. split; [by apply keeps_same|].
    destruct r as [r|]; [|done]. destruct (rval_truthy _); [|done]. unfold co_lift.
    destruct (rval_float r) as [t|e]; [|done]. unfold mbind at 1, co_mbind at 1. cbn [co_then]. cbv zeta. destruct (Qgtb _ (half_open_after b)); [|done].
    clear s s' H. intros s a s' H. apply kv_set_ok in H as ->. exists false. split; [apply half_open_state|done].
  - apply keeps_await. intros s a s' H%kv_delete_law. exists false. split; [|done].
    cbn in H. unfold kv_delete_eff in H. rewrite H. apply reset_keys.
Qed.

(** ** The invariant *)

Definition bk_inv (x : breakers) : Prop :=
  let v := kview (bk_server x) in
  window_ok v ∧ state_ok v ∧
  ∃ ps, Forall2 (keeps (A := option bool)) ps (bk_calls x) ∧ (opened v → timed v ∨ true ∈ ps).

(** One call goes on. *)
Lemma bk_replace s s' l1 t l2 t' :
  bk_inv (mkBreakers s (l1 ++ t :: l2)) →
  (∀ p, keeps p t → ∃ p', keeps_keys (kview s) (kview s') p p' ∧ keeps p' t') →
  bk_inv (mkBreakers s' (l1 ++ t' :: l2)).
Proof.
  intros (Hw & Hs & ps & Hps & Ho) H. cbn [bk_server bk_calls] in *.
  apply Forall2_app_inv_r in Hps as (p1 & p2 & H1 & H2 & ->).
  apply Forall2_cons_inv_r in H2 as (p & p3 & Hp & H2 & ->).
  destruct (H p Hp) as (p' & Hk & Hp'). destruct (Hk Hw Hs) as (Hw' & Hs' & Htime & Hop).
  split_and!; [done|done|]. exists (p1 ++ p' :: p3). split; [by apply Forall2_app, Forall2_cons|].
  intros Ho'. destruct (Hop Ho') as [?|[->|[Hov ->]]]; [by left|right; set_solver|].
  destruct (Ho Hov) as [Ht|Ht]; [left; by apply Htime|right]. set_solver.
Qed.

Lemma bk_step_inv x y : bk_step true x y → bk_inv x → bk_inv y.
Proof.
  intros H Hi. destruct H as [o l s Hd|l1 t l2 s t' s' Hs|l1 l2 s X m k r s' Hm Hr|l1 r l2 s|]; [..|done].
  - destruct Hi as (Hw & Hs & ps & Hps & Ho). split_and!; [done..|]. exists (ps ++ [false]). cbn in *. split.
    + apply Forall2_app; [done|]. constructor; [by apply op_keeps|constructor].
    + intros H. destruct (Ho H); [by left|right; set_solver].
  - eapply bk_replace; [exact Hi|]. intros p Hp. destruct (keeps_settle _ _ _ _ _ Hp Hs) as [-> Ht].
    exists p. split; [by apply keeps_same|done].
  - eapply bk_replace; [exact Hi|]. intros p Hp. specialize (Hr eq_refl). destruct r as [a|]; [|done].
    destruct (Hp _ _ _ Hm) as (p' & Hk & Hc). exists p'. split; [done|]. by apply keeps_woken.
  - destruct Hi as (Hw & Hs & ps & Hps & Ho). cbn [bk_server bk_calls] in *.
    apply Forall2_app_inv_r in Hps as (p1 & p2 & H1 & H2 & ->).
    apply Forall2_cons_inv_r in H2 as (p & p3 & Hp & H2 & ->). cbn in Hp. subst p.
    split_and!; [done..|]. exists (p1 ++ p3). split; [by apply Forall2_app|].
    intros H. destruct (Ho H); [by left|right; set_solver].
Qed.

(** The keys of a quiescent breaker. *)
Lemma inv_represents s : bk_inv (mkBreakers s []) → ∃ c, represents b c (kview s).
Proof.
  intros ((l & Hl & Hn & Hd) & Hs & ps & Hps & Ho). apply Forall2_nil_inv_r in Hps as ->.
  cbn [bk_server] in *.
  assert (∃ m, mode_rep b m (kview s)) as [m Hm]; [|by exists (mkCircuit l m); split_and!].
  destruct Hs as [Hs|[Hs|Hs]]; [by exists Closed| |by exists HalfOpen].
  destruct (Ho Hs) as [(t & Ht & Hdt)|?%not_elem_of_nil]; [by exists (Open t)|done].
Qed.

Lemma represents_inv c s : represents b c (kview s) → bk_inv (mkBreakers s []).
Proof.
  intros (Hz & Hn & Hl & Hm). split_and!; [by exists (c_failures c)| |].
  - unfold state_ok. cbn. destruct (c_mode c); cbn in Hm; [by left|right; left; apply Hm|by right; right].
  - exists []. split; [constructor|]. intros Ho. left. unfold opened in Ho. cbn in *.
    destruct (c_mode c) as [|t|]; cbn in Hm; [congruence| |congruence].
    exists t. split; [apply Hm|]. apply Hm.
Qed.

(** C38: overlapping calls leave a breaker that works.  From keys that represent a
    circuit, run any calls of the methods, of any number of clients, interleaved
    between any two of their commands: as long as the server answers and nobody is
    cancelled, whenever no call is in flight the keys represent a circuit again, and
    the breaker goes on as the specification says: it is not left open without the
    time of its trip, nor with a state no method knows. *)
Theorem overlapping_calls_settle c s s' ops rs s2 :
  kv_decode = true → represents b c (kview s) →
  rtc (bk_step true) (mkBreakers s []) (mkBreakers s' []) →
  Forall (λ o, decimal (op_time o)) ops → run_ops b ops s' = (Ok rs, s2) →
  ∃ c', represents b c' (kview s') ∧
        rs = (spec_run b ops c').1 ∧ represents b (spec_run b ops c').2 (kview s2).
Proof.
  intros Hdec Hrep Hrun Hops H.
  assert (bk_inv (mkBreakers s' [])) as Hinv.
  { apply represents_inv in Hrep. revert Hrun Hrep. generalize (mkBreakers s []) (mkBreakers s' []).
    intros x y. induction 1 as [x|x y z Hxy _ IH]; [done|]. intros Hx. by eapply IH, bk_step_inv. }
  destruct (inv_represents _ Hinv) as [c' Hc']. exists c'. split; [done|]. by eapply ops_refine.
Qed.

End Circuit.

(** ** A schedule *)

Section Schedule.
Context {K : KeyValue}.
Variable b : CircuitBreaker.

(** The call at [n] runs to its next command, which takes effect, or to its end. *)
Definition bk_go (n : nat) (x : breakers) : option breakers :=
  let '(l1, l2) := (take n (bk_calls x), drop n (bk_calls x)) in
  match l2 with
  | t :: l2 =>
      match settle t (bk_server x) with
      | (CoRet _, s) => Some (mkBreakers s (l1 ++ l2))
      | (CoAwait m k, s) =>
          match m s with
          | (Ok a, s') => Some (mkBreakers s' (l1 ++ woken (Ok a) k :: l2))
          | _ => None
          end
      | _ => None
      end
  | [] => None
  end.

Fixpoint bk_schedule (ns : list nat) (x : breakers) : option breakers :=
  match ns with
  | [] => Some x
  | n :: ns' => y ← bk_go n x; bk_schedule ns' y
  end.

Lemma bk_go_steps n x y : bk_go n x = Some y → rtc (bk_step b true) x y.
Proof.
  destruct x as [s l]. unfold bk_go. cbn [bk_calls bk_server].
  destruct (drop n l) as [|t l2] eqn:Hd; [done|]. destruct (settle t s) as [t' s1] eqn:Hs.
  assert (rtc (bk_step b true) (mkBreakers s l) (mkBreakers s1 (take n l ++ t' :: l2))) as H1.
  { apply rtc_once. rewrite <- (take_drop n l) at 1. rewrite Hd. by apply bk_turn. }
  destruct t' as [r|X m k|X m k]; [|done|].
  - intros [= <-]. eapply rtc_r; [exact H1|]. apply bk_return.
  - destruct (m s1) as [[a|e] s2] eqn:Hm; [|done]. intros [= <-].
    eapply rtc_r; [exact H1|]. by eapply bk_await.
Qed.

Lemma bk_schedule_steps ns x y : bk_schedule ns x = Some y → rtc (bk_step b true) x y.
Proof.
  revert x. induction ns as [|n ns IH]; intros x; cbn [bk_schedule]; [by intros [= <-]|].
  destruct (bk_go n x) as [z|] eqn:Hz; [|done]. cbn. intros H.
  etrans; [by eapply bk_go_steps|by apply IH].
Qed.
End Schedule.

(** ** Witness: a trip that is lost *)

Open Scope Q_scope.

(** The breaker that tripped at 3 is asked at 40, and just then trips again. *)
Definition overlap : breakers :=
  mkBreakers (K := model_kv) tripped [op_co db_breaker (IsOpen 40); op_co db_breaker (MaybeTrip 40)].

Definition settled_breaker : option breakers := bk_schedule [0; 0; 1; 1; 1; 1; 0; 0]%nat overlap.
Definition overlap_end : @kstate model_kv := default ∅ (bk_server <$> settled_breaker).

Lemma decimal_40 : decimal 40.
Proof. split; [discriminate|apply Znumtheory.Zmod_divide; [discriminate|reflexivity]]. Qed.

Lemma overlap_called : rtc (bk_step db_breaker true) (mkBreakers tripped []) overlap.
Proof.
  eapply rtc_l; [exact (bk_call db_breaker true (IsOpen 40) [] tripped decimal_40)|].
  apply rtc_once. exact (bk_call db_breaker true (MaybeTrip 40) [op_co db_breaker (IsOpen 40)] tripped decimal_40).
Qed.

Lemma overlap_settles : settled_breaker = Some (mkBreakers overlap_end []).
Proof.
  assert ((λ x, length (bk_calls x)) <$> settled_breaker = Some 0%nat) as H by (vm_compute; reflexivity).
  unfold overlap_end. destruct settled_breaker as [[s [|t l]]|]; done.
Qed.

Lemma overlap_steps : rtc (bk_step db_breaker true) (mkBreakers tripped []) (mkBreakers overlap_end []).
Proof.
  etrans; [exact overlap_called|].
  exact (bk_schedule_steps db_breaker [0; 0; 1; 1; 1; 1; 0; 0]%nat _ _ overlap_settles).
Qed.

Lemma tripped_represents : represents db_breaker (mkCircuit [5 # 2; 2; 1] (Open 3)) (kview tripped).
Proof.
  split; [vm_compute; reflexivity|].
  split; [by apply (bool_decide_unpack _); vm_compute|]. split; [decimals|].
  split; [vm_compute; reflexivity|]. split; [vm_compute; reflexivity|].
  split; [discriminate|apply Znumtheory.Zmod_divide; [discriminate|reflexivity]].
Qed.

(** The keys represent a circuit, but the half-open one: the trip at 40 is lost, and
    the call at 41 is admitted. *)
Lemma overlapping_calls_settle_witness :
  ∃ c' s2, run_ops db_breaker [IsOpen 41] overlap_end = (Ok [Some false], s2) ∧
    represents db_breaker c' (kview overlap_end) ∧
    [Some false] = (spec_run db_breaker [IsOpen 41] c').1 ∧
    represents db_breaker (spec_run db_breaker [IsOpen 41] c').2 (kview s2).
Proof.
  destruct (run_ops (K := model_kv) db_breaker [IsOpen 41] overlap_end) as [r s2] eqn:H.
  assert (r = Ok [Some false]) as ->.
  { change r with (r, s2).1. rewrite <- H. vm_compute. reflexivity. }
  destruct (overlapping_calls_settle db_breaker (mkCircuit [5 # 2; 2; 1] (Open 3)) tripped overlap_end
              [IsOpen 41] [Some false] s2) as (c' & Hc & Hr & Hs);
    [reflexivity|exact tripped_represents|exact overlap_steps|decimals|exact H|].
  exists c', s2. by split_and!.
Defined.
