(* ===== verification/Url.v ===== *)
(** * The parts of [urllib.parse] the command line uses

    [quote(s, safe='')] and [urlsplit], with the attributes of its result the
    source reads.  [urlsplit]'s two checks of unusual authorities (the contents of
    square brackets, the NFKC form of non-ASCII text) are tables of the standard
    library: the parameter [netloc_ok]. *)

From Stdlib Require Import String.
From S2P Require Import Prelude PyStr Json Errors.
Open Scope list_scope.

(** ** Percent encoding *)

Definition is_alpha (c : N) : bool :=
  ((65 <=? c)%N && (c <=? 90)%N) || ((97 <=? c)%N && (c <=? 122)%N).

(** Letters, digits and [_.-~]: never quoted. *)
Definition unreserved (c : N) : bool :=
  is_alpha c || is_digit c || N.eqb c 95 || N.eqb c 46 || N.eqb c 45 || N.eqb c 126.

Definition hex_upper (d : N) : N := if (d <? 10)%N then (48 + d)%N else (55 + d)%N.

Definition quote_byte (b : N) : pystr :=
  if unreserved b then [b] else [37%N; hex_upper (b / 16); hex_upper (b mod 16)].

(** [quote(s, safe='')]; the text's UTF-8 encoding is strict. *)
Definition quote (s : pystr) : result exn pystr :=
  match utf8_encode s with
  | Some b => Ok (concat (quote_byte <$> b))
  | None => Raise (ValueError (u "surrogates not allowed"))
  end.

(** What a server does with a path segment: undo the escapes, decode. *)
Fixpoint unquote_bytes (s : pystr) : list N :=
  match s with
  | c :: r =>
      if N.eqb c 37 then
        match r with
        | a :: b :: r' =>
            match hex_val a, hex_val b with
            | Some x, Some y => (16 * x + y)%N :: unquote_bytes r'
            | _, _ => c :: unquote_bytes r
            end
        | _ => c :: unquote_bytes r
        end
      else c :: unquote_bytes r
  | [] => []
  end.

Definition unquote (s : pystr) : option pystr := utf8_decode (unquote_bytes s).

(** ** [urlsplit] *)

Record SplitResult : Type := mkSplit {
  scheme : pystr; netloc : pystr; path : pystr; query : pystr; fragment : pystr
}.

(** [s.partition(sep)] when [sep] occurs, for one character. *)
Fixpoint split_first (sep : N) (s : pystr) : option (pystr * pystr) :=
  match s with
  | [] => None
  | c :: s' => if N.eqb c sep then Some ([], s')
               else prod_map (cons c) id <$> split_first sep s'
  end.

(** [s.rpartition(sep)] when [sep] occurs. *)
Fixpoint split_last (sep : N) (s : pystr) : option (pystr * pystr) :=
  match s with
  | [] => None
  | c :: s' => match split_last sep s' with
               | Some (a, b) => Some (c :: a, b)
               | None => if N.eqb c sep then Some ([], s') else None
               end
  end.

Definition lower_ascii (c : N) : N := if (65 <=? c)%N && (c <=? 90)%N then (c + 32)%N else c.
Definition scheme_char (c : N) : bool :=
  is_alpha c || is_digit c || N.eqb c 43 || N.eqb c 45 || N.eqb c 46.

(** Leading C0 controls and spaces. *)
Fixpoint lstrip_ctl (s : pystr) : pystr :=
  match s with
  | c :: s' => if (c <=? 32)%N then lstrip_ctl s' else s
  | [] => []
  end.

(** Tabs and newlines are removed anywhere. *)
Definition unsafe_byte (c : N) : bool := N.eqb c 9 || N.eqb c 10 || N.eqb c 13.
Definition url_clean (s : pystr) : pystr := List.filter (fun c => negb (unsafe_byte c)) (lstrip_ctl s).

(** The end of the authority: a slash, a question mark or a hash. *)
Definition netloc_end (c : N) : bool := N.eqb c 47 || N.eqb c 63 || N.eqb c 35.

Fixpoint splitnetloc (s : pystr) : pystr * pystr :=
  match s with
  | c :: s' => if netloc_end c then ([], s) else let '(a, b) := splitnetloc s' in (c :: a, b)
  | [] => ([], [])
  end.

Definition split_scheme (url : pystr) : pystr * pystr :=
  match split_first 58 url with
  | Some (c :: s, rest) =>
      if is_alpha c && forallb scheme_char (c :: s) then (lower_ascii <$> c :: s, rest) else ([], url)
  | _ => ([], url)
  end.

Definition split_authority (url : pystr) : pystr * pystr :=
  match url with 47%N :: 47%N :: r => splitnetloc r | _ => ([], url) end.

Definition cut (sep : N) (s : pystr) : pystr * pystr :=
  match split_first sep s with Some (a, b) => (a, b) | None => (s, []) end.

(** [([ in netloc) != (] in netloc)] *)
Definition brackets_differ (nl : pystr) : bool :=
  negb (Bool.eqb (bool_decide (91%N ∈ nl)) (bool_decide (93%N ∈ nl))).

Section Url.
Variable netloc_ok : pystr → bool.

Definition urlsplit (url : pystr) : result exn SplitResult :=
  let '(sch, rest) := split_scheme (url_clean url) in
  let '(nl, rest) := split_authority rest in
  if brackets_differ nl then Raise (ValueError (u "Invalid IPv6 URL"))
  else if negb (netloc_ok nl) then Raise (ValueError (u "netloc"))
  else
    let '(rest, frag) := cut 35 rest in
    let '(p, q) := cut 63 rest in
    Ok (mkSplit sch nl p q frag).

End Url.

(** [parsed.hostname]; the source only tests whether there is one, so its case is
    left alone. *)
Definition hostname (s : SplitResult) : pystr :=
  let hostinfo := match split_last 64 (netloc s) with Some (_, h) => h | None => netloc s end in
  match split_first 91 hostinfo with
  | Some (_, bracketed) => match split_first 93 bracketed with Some (h, _) => h | None => bracketed end
  | None => match split_first 58 hostinfo with Some (h, _) => h | None => hostinfo end
  end.

(** [parsed.username] and [parsed.password]; absent is empty (both are falsy). *)
Definition username (s : SplitResult) : pystr :=
  match split_last 64 (netloc s) with
  | Some (info, _) => match split_first 58 info with Some (n, _) => n | None => info end
  | None => []
  end.
Definition password (s : SplitResult) : pystr :=
  match split_last 64 (netloc s) with
  | Some (info, _) => match split_first 58 info with Some (_, p) => p | None => [] end
  | None => []
  end.

(** ** Quoting *)

Lemma utf8_char_bytes c b : utf8_char c = Some b → Forall (λ x, (x < 256)%N) b.
Proof.
  unfold utf8_char. intros H. repeat case_run_in H; try done; injection H as <-;
    repeat match goal with Hx : (_ <? _)%N = true |- _ => apply N.ltb_lt in Hx end;
    repeat (apply Forall_cons; split); try apply Forall_nil; try done;
    rewrite ?N.div_lt_upper_bound; try lia.
  all: try (pose proof (N.mod_lt c 64 ltac:(done)); lia).
  all: try (pose proof (N.mod_lt (c / 64) 64 ltac:(done)); lia).
  all: try (pose proof (N.mod_lt (c / 4096) 64 ltac:(done)); lia).
  all: first [assert (c / 64 < 32)%N by (apply N.Div0.div_lt_upper_bound; lia); lia
             |assert (c / 4096 < 16)%N by (apply N.Div0.div_lt_upper_bound; lia); lia
             |assert (c / 262144 < 5)%N by (apply N.Div0.div_lt_upper_bound; lia); lia].
Qed.

Lemma utf8_encode_bytes s b : utf8_encode s = Some b → Forall (λ x, (x < 256)%N) b.
Proof.
  revert b. induction s as [|c s IH]; intros b; simpl; [intros [= <-]; constructor|].
  destruct (utf8_char c) as [bc|] eqn:Hc; [|done]. destruct (utf8_encode s) as [bs|]; [|done].
  intros [= <-]. apply Forall_app. split; [by eapply utf8_char_bytes|by apply IH].
Qed.

Lemma hex_val_upper d : (d < 16)%N → hex_val (hex_upper d) = Some d.
Proof.
  intros Hd. unfold hex_upper, hex_val, is_digit. destruct (N.ltb_spec d 10); leb_cases; f_equal; lia.
Qed.

Lemma unquote_quote_byte b r :
  (b < 256)%N → unquote_bytes (quote_byte b ++ r) = b :: unquote_bytes r.
Proof.
  intros Hb. unfold quote_byte. destruct (unreserved b) eqn:Hu.
  - cbn [app unquote_bytes]. destruct (N.eqb_spec b 37) as [->|]; [done|done].
  - cbn [app unquote_bytes]. rewrite N.eqb_refl.
    assert (b / 16 < 16)%N by (apply N.Div0.div_lt_upper_bound; lia).
    rewrite !hex_val_upper by (done || by apply N.mod_lt).
    f_equal. symmetry. by apply N.div_mod.
Qed.

Lemma unquote_quote_bytes b :
  Forall (λ x, (x < 256)%N) b → unquote_bytes (concat (quote_byte <$> b)) = b.
Proof.
  induction 1 as [|x b Hx _ IH]; [done|]. cbn [fmap list_fmap concat].
  rewrite unquote_quote_byte by done. by rewrite IH.
Qed.

Lemma utf8_encode_app a b :
  utf8_encode (a ++ b) = (x ← utf8_encode a; y ← utf8_encode b; Some (x ++ y)).
Proof.
  induction a as [|c a IH]; cbn [app utf8_encode].
  { cbn. by destruct (utf8_encode b). }
  destruct (utf8_char c) as [bc|]; [|done]. cbn [mbind option_bind]. rewrite IH.
  destruct (utf8_encode a) as [xs|]; [|done]. cbn [mbind option_bind].
  destruct (utf8_encode b) as [ys|]; [|done]. cbn [mbind option_bind]. by rewrite (assoc_L (++)).
Qed.

Lemma unquote_quoted b r :
  Forall (λ x, (x < 256)%N) b → unquote_bytes (concat (quote_byte <$> b) ++ r) = b ++ unquote_bytes r.
Proof.
  induction 1 as [|x b Hx _ IH]; [done|]. cbn [fmap list_fmap concat].
  rewrite <- (assoc_L (++)), unquote_quote_byte by done. by rewrite IH.
Qed.

Lemma unquote_plain a r :
  forallb (λ c, negb (N.eqb c 37)) a = true → unquote_bytes (a ++ r) = a ++ unquote_bytes r.
Proof.
  induction a as [|c a IH]; [done|]. cbn [forallb app unquote_bytes].
  intros [Hc Ha]%andb_true_iff. apply negb_true_iff in Hc. rewrite Hc. by rewrite IH.
Qed.

Lemma quote_bytes s p :
  quote s = Ok p →
  ∃ b, utf8_encode s = Some b ∧ p = concat (quote_byte <$> b) ∧ Forall (λ x, (x < 256)%N) b.
Proof.
  unfold quote. destruct (utf8_encode s) as [b|] eqn:Hb; [|done]. intros [= <-]. exists b.
  split_and!; [done..|]. by eapply utf8_encode_bytes.
Qed.

(** A server that unquotes a quoted text gets the text back. *)
Lemma unquote_quote s p : quote s = Ok p → unquote p = Some s.
Proof.
  unfold quote, unquote. destruct (utf8_encode s) as [b|] eqn:Hb; [|done]. intros [= <-].
  rewrite unquote_quote_bytes by (by eapply utf8_encode_bytes). by apply utf8_decode_encode.
Qed.

(** The characters of a quoted text, and of the paths built from them. *)
Definition quoted_char (c : N) : bool := unreserved c || N.eqb c 37.

Lemma hex_upper_quoted d : (d < 16)%N → quoted_char (hex_upper d) = true.
Proof.
  intros Hd. unfold quoted_char, unreserved, is_alpha, is_digit, hex_upper.
  destruct (N.ltb_spec d 10); leb_cases; rewrite ?orb_true_r; done.
Qed.

Lemma quote_byte_chars b : (b < 256)%N → forallb quoted_char (quote_byte b) = true.
Proof.
  intros Hb. unfold quote_byte. destruct (unreserved b) eqn:Hu; simpl.
  - unfold quoted_char. by rewrite Hu.
  - assert (b / 16 < 16)%N by (apply N.Div0.div_lt_upper_bound; lia).
    by rewrite !hex_upper_quoted by (done || by apply N.mod_lt).
Qed.

Lemma quote_chars s p : quote s = Ok p → forallb quoted_char p = true.
Proof.
  unfold quote. destruct (utf8_encode s) as [b|] eqn:Hb; [|done]. intros [= <-].
  apply utf8_encode_bytes in Hb. induction Hb as [|x b Hx _ IH]; [done|].
  cbn [fmap list_fmap concat]. rewrite forallb_app, quote_byte_chars by done. exact IH.
Qed.

(** A character that is never in a quoted text. *)
Lemma quoted_not c p : quoted_char c = false → forallb quoted_char p = true → c ∉ p.
Proof.
  intros Hc Hp Hin. rewrite forallb_forall in Hp. apply list_elem_of_In, Hp in Hin. congruence.
Qed.

(** ** Appending a path to a URL *)

Definition path_char (c : N) : bool := quoted_char c || N.eqb c 47.

(** [s.rstrip(c)] for one character. *)
Fixpoint rstrip (c : N) (s : pystr) : pystr :=
  match s with
  | [] => []
  | x :: s' => match rstrip c s' with
               | [] => if N.eqb x c then [] else [x]
               | r => x :: r
               end
  end.

Lemma rstrip_app c s : ∃ k, s = rstrip c s ++ repeat c k.
Proof.
  induction s as [|x s [k IH]]; [by exists 0%nat|]. simpl.
  destruct (rstrip c s) as [|d l].
  - destruct (N.eqb_spec x c) as [->|]; [exists (S k); by rewrite IH|exists k; by rewrite IH].
  - exists k. by rewrite IH at 1.
Qed.

Lemma path_char_not c p : path_char c = false → forallb path_char p = true → c ∉ p.
Proof.
  intros Hc Hp Hin. rewrite forallb_forall in Hp. apply list_elem_of_In, Hp in Hin. congruence.
Qed.

Lemma slashes_path k : forallb path_char (repeat 47%N k) = true.
Proof. by induction k. Qed.

Lemma lstrip_ctl_app a p : lstrip_ctl a ≠ [] → lstrip_ctl (a ++ p) = lstrip_ctl a ++ p.
Proof.
  induction a as [|c a IH]; [done|]. simpl. destruct (c <=? 32)%N; [exact IH|done].
Qed.

Lemma filter_path p : forallb path_char p = true → List.filter (λ c, negb (unsafe_byte c)) p = p.
Proof.
  induction p as [|c p IH]; [done|]. simpl. intros [Hc Hp]%andb_true_iff. rewrite (IH Hp).
  destruct (unsafe_byte c) eqn:Hu; [|done]. unfold unsafe_byte in Hu.
  apply orb_true_iff in Hu as [[->%N.eqb_eq| ->%N.eqb_eq]%orb_true_iff| ->%N.eqb_eq]; done.
Qed.

Lemma url_clean_app a p :
  lstrip_ctl a ≠ [] → forallb path_char p = true → url_clean (a ++ p) = url_clean a ++ p.
Proof.
  intros Ha Hp. unfold url_clean. rewrite lstrip_ctl_app by done.
  by rewrite List.filter_app, (filter_path p Hp).
Qed.

Lemma split_first_None sep s : sep ∉ s → split_first sep s = None.
Proof.
  induction s as [|c s IH]; [done|]. simpl. intros [Hc Hs]%not_elem_of_cons.
  destruct (N.eqb_spec c sep); [congruence|]. by rewrite IH.
Qed.

Lemma split_first_app sep a t :
  sep ∉ t → split_first sep (a ++ t) = prod_map id (λ r, r ++ t) <$> split_first sep a.
Proof.
  intros Ht. induction a as [|c a IH]; simpl; [by apply split_first_None|].
  destruct (N.eqb c sep); [done|]. rewrite IH. by destruct (split_first sep a) as [[x y]|].
Qed.

Lemma split_scheme_app a t :
  58%N ∉ t → split_scheme (a ++ t) = prod_map id (λ r, r ++ t) (split_scheme a).
Proof.
  intros Ht. unfold split_scheme. rewrite split_first_app by done.
  destruct (split_first 58 a) as [[[|c s] r]|]; cbn; [done| |done]. by destruct (_ && _).
Qed.

Definition at_end (t : pystr) : Prop := t = [] ∨ ∃ r, t = 47%N :: r.

Lemma slashes_at_end k : at_end (repeat 47%N k).
Proof. destruct k; [by left|right; by eexists]. Qed.

Lemma splitnetloc_app a t : at_end t → splitnetloc (a ++ t) = prod_map id (λ r, r ++ t) (splitnetloc a).
Proof.
  intros Ht. induction a as [|c a IH]; simpl.
  - by destruct Ht as [->|[r ->]].
  - destruct (netloc_end c); [done|]. rewrite IH. by destruct (splitnetloc a).
Qed.

Lemma splitnetloc_slashes k : (splitnetloc (repeat 47%N k)).1 = [].
Proof. by destruct k. Qed.

(** A URL with an authority that ends in slashes has it before them. *)
Lemma split_authority_app a k t :
  (split_authority (a ++ repeat 47%N k)).1 ≠ [] → at_end t →
  split_authority (a ++ t) = prod_map id (λ r, r ++ t) (split_authority a) ∧
  (split_authority a).1 = (split_authority (a ++ repeat 47%N k)).1.
Proof.
  intros Hne Ht. destruct a as [|c [|d a]].
  - destruct k as [|[|k]]; cbn in Hne; [done..|]. by destruct k.
  - destruct k as [|k]; cbn in Hne; [by destruct (N.eqb_spec c 47); repeat case_match|].
    exfalso. apply Hne. repeat case_match; try done. all: by destruct k.
  - destruct (decide (c = 47%N ∧ d = 47%N)) as [[-> ->]|Hcd].
    + cbn. rewrite !splitnetloc_app by (done || apply slashes_at_end).
      split; [done|by destruct (splitnetloc a)].
    + exfalso. apply Hne. cbn. repeat case_match; try done; naive_solver.
Qed.

Lemma cut_None sep s : sep ∉ s → cut sep s = (s, []).
Proof. intros H. unfold cut. by rewrite split_first_None. Qed.

(** The parts of a URL come from its characters. *)
Lemma lstrip_ctl_sub x s : x ∈ lstrip_ctl s → x ∈ s.
Proof.
  induction s as [|c s IH]; [done|]. simpl. destruct (c <=? 32)%N; [|done].
  intros H. right. by apply IH.
Qed.

Lemma url_clean_sub x s : x ∈ url_clean s → x ∈ s.
Proof.
  intros H%list_elem_of_In. apply filter_In in H as [H _].
  apply lstrip_ctl_sub. by apply list_elem_of_In.
Qed.

Lemma split_first_sub sep s a b x : split_first sep s = Some (a, b) → x ∈ b → x ∈ s.
Proof.
  revert a. induction s as [|c s IH]; intros a; [done|]. simpl. destruct (N.eqb c sep).
  - intros [= _ <-]. by right.
  - destruct (split_first sep s) as [[a' b']|]; [|done]. intros [= _ <-] Hx. right. by eapply IH.
Qed.

Lemma split_scheme_sub s x : x ∈ (split_scheme s).2 → x ∈ s.
Proof.
  unfold split_scheme. destruct (split_first 58 s) as [[[|c a] r]|] eqn:H; cbn; [done| |done].
  destruct (_ && _); cbn; [|done]. by eapply split_first_sub.
Qed.

Lemma splitnetloc_sub s x : x ∈ (splitnetloc s).2 → x ∈ s.
Proof.
  induction s as [|c s IH]; [done|]. simpl. destruct (netloc_end c); [done|].
  destruct (splitnetloc s) as [a b]. cbn in *. intros. right. by apply IH.
Qed.

Lemma split_authority_sub s x : x ∈ (split_authority s).2 → x ∈ s.
Proof.
  unfold split_authority. intros H. repeat case_match; try done; subst.
  apply splitnetloc_sub in H. do 2 right. done.
Qed.

(** Every URL with a scheme has something before its trailing slashes. *)
Lemma scheme_head v k a : v = a ++ repeat 47%N k → (split_scheme (url_clean v)).1 ≠ [] → lstrip_ctl a ≠ [].
Proof.
  intros -> Hs Ha. apply Hs. clear Hs.
  assert (lstrip_ctl (a ++ repeat 47%N k) = repeat 47%N k) as Hl.
  { clear -Ha. induction a as [|c a IH]; cbn in *; [by destruct k|].
    destruct (c <=? 32)%N; [by apply IH|done]. }
  unfold url_clean. rewrite Hl, filter_path by apply slashes_path.
  unfold split_scheme. rewrite split_first_None; [done|].
  apply path_char_not; [done|apply slashes_path].
Qed.

(** Appending a path to a URL without its trailing slashes keeps the scheme and the
    authority, and extends what follows. *)
Lemma parts_extend v p sch r nl r2 :
  split_scheme (url_clean v) = (sch, r) → split_authority r = (nl, r2) → sch ≠ [] → nl ≠ [] →
  forallb path_char p = true → at_end p →
  ∃ base k r', r2 = base ++ repeat 47%N k ∧
    split_scheme (url_clean (rstrip 47 v ++ p)) = (sch, r') ∧ split_authority r' = (nl, base ++ p).
Proof.
  intros Hss Hsa Hsch Hnet Hp Hend. destruct (rstrip_app 47 v) as [k Hv].
  set (a := rstrip 47 v) in *. clearbody a.
  pose proof (scheme_head v k a Hv) as Hhd. rewrite Hss in Hhd. specialize (Hhd Hsch).
  rewrite Hv, url_clean_app in Hss by (done || apply slashes_path).
  rewrite split_scheme_app in Hss by (apply path_char_not; [done|apply slashes_path]).
  rewrite url_clean_app by done. rewrite split_scheme_app by (by apply path_char_not).
  destruct (split_scheme (url_clean a)) as [sch' r0]. cbn [prod_map fst snd id] in *. injection Hss as -> <-.
  destruct (split_authority_app r0 k p) as [Hp2 Hnl]; [by rewrite Hsa|done|].
  destruct (split_authority_app r0 k (repeat 47%N k)) as [Hk2 _];
    [by rewrite Hsa|apply slashes_at_end|].
  rewrite Hsa in Hnl, Hk2. cbn [fst] in Hnl.
  destruct (split_authority r0) as [nl' base]. cbn [prod_map fst snd id] in *. subst nl'.
  injection Hk2 as Hr2. by exists base, k, (r0 ++ p).
Qed.

(** The request goes to the configured host, whatever the rest of the URL is. *)
Lemma urlsplit_same_host netloc_ok v s p :
  urlsplit netloc_ok v = Ok s → scheme s ≠ [] → netloc s ≠ [] →
  forallb path_char p = true → at_end p →
  ∃ s', urlsplit netloc_ok (rstrip 47 v ++ p) = Ok s' ∧ scheme s' = scheme s ∧ netloc s' = netloc s.
Proof.
  intros H Hsch Hnet Hp Hend. unfold urlsplit in *.
  destruct (split_scheme (url_clean v)) as [sch r] eqn:Hss.
  destruct (split_authority r) as [nl r2] eqn:Hsa.
  destruct (brackets_differ nl) eqn:Hbr; [done|]. destruct (netloc_ok nl) eqn:Hok; [|done].
  cbn [negb] in H. destruct (cut 35 r2) as [r3 f], (cut 63 r3) as [pa q]. injection H as <-.
  cbn [scheme netloc] in *.
  destruct (parts_extend v p sch r nl r2 Hss Hsa Hsch Hnet Hp Hend) as (base & k & r' & _ & Hs & Ha).
  rewrite Hs, Ha, Hbr, Hok. cbn [negb]. destruct (cut 35 (base ++ p)) as [r4 f'], (cut 63 r4) as [pa' q'].
  by eexists.
Qed.

(** Without a question mark or a hash, the path is extended. *)
Lemma urlsplit_extends netloc_ok v s p :
  urlsplit netloc_ok v = Ok s → scheme s ≠ [] → netloc s ≠ [] → 35%N ∉ v → 63%N ∉ v →
  forallb path_char p = true → at_end p →
  ∃ base k, path s = base ++ repeat 47%N k ∧
    urlsplit netloc_ok (rstrip 47 v ++ p) = Ok (mkSplit (scheme s) (netloc s) (base ++ p) [] []).
Proof.
  intros H Hsch Hnet H35 H63 Hp Hend. unfold urlsplit in *.
  pose proof (split_scheme_sub (url_clean v)) as Hsub.
  destruct (split_scheme (url_clean v)) as [sch r] eqn:Hss. cbn [fst snd] in *.
  pose proof (split_authority_sub r) as Hsub2.
  destruct (split_authority r) as [nl r2] eqn:Hsa. cbn [snd] in Hsub2.
  assert (∀ x, x ∉ v → x ∉ r2) as Hnot.
  { intros x Hx Hin. apply Hx, url_clean_sub, Hsub, Hsub2, Hin. }
  rewrite (cut_None 35 r2), (cut_None 63 r2) in H by (by apply Hnot).
  destruct (brackets_differ nl) eqn:Hbr; [done|]. destruct (netloc_ok nl) eqn:Hok; [|done].
  cbn [negb] in H. injection H as <-. cbn [scheme netloc path] in *.
  destruct (parts_extend v p sch r nl r2 Hss Hsa Hsch Hnet Hp Hend) as (base & k & r' & Hr2 & Hs & Ha).
  rewrite Hs, Ha, Hbr, Hok. cbn [negb]. exists base, k. split; [done|].
  assert (∀ x, x ∉ r2 → x ∉ base) as Hb by (intros x Hx Hin; apply Hx; rewrite Hr2; set_solver).
  assert (∀ x, path_char x = false → x ∉ v → x ∉ base ++ p) as Hbp.
  { intros x Hc Hx [Hin|Hin]%elem_of_app; [by eapply Hb; [apply Hnot|]|].
    by apply (path_char_not x p). }
  rewrite (cut_None 35), (cut_None 63) by (by apply Hbp). done.
Qed.
