(* ===== verification/Routes.v ===== *)
(** * The routes of the API: the decorators of [api/main.py]

    A route is a method and a path of literal segments and parameters; a parameter
    is any non-empty text without a slash.  [dispatch] is what the framework
    documents: the first route whose path and method match takes the request, with
    its parameters; a path that only other methods have is 405; a path that would
    match with its trailing slash removed or added is redirected; anything else is
    404.  The path is the request's path with its percent escapes undone. *)

From Stdlib Require Import String.
From S2P Require Import Prelude PyStr.
Open Scope list_scope.

Inductive segment : Type := Lit (s : pystr) | Param.

Inductive endpoint : Type := EnqueueJob | GetJobStatus | ListQueues | ListDlq | ReplayDlqJob.

Record route : Type := mkRoute { rt_endpoint : endpoint; rt_method : pystr; rt_path : list segment }.

Definition enqueue_job_route : route := mkRoute EnqueueJob (u "POST") [Lit (u "jobs")].
Definition get_job_status_route : route := mkRoute GetJobStatus (u "GET") [Lit (u "jobs"); Param].
Definition list_queues_route : route := mkRoute ListQueues (u "GET") [Lit (u "queues")].
Definition list_dlq_route : route :=
  mkRoute ListDlq (u "GET") [Lit (u "queues"); Param; Lit (u "dlq")].
Definition replay_dlq_job_route : route :=
  mkRoute ReplayDlqJob (u "POST")
    [Lit (u "queues"); Param; Lit (u "dlq"); Param; Lit (u "replay")].

(** In the order of registration. *)
Definition routes : list route :=
  [enqueue_job_route; get_job_status_route; list_queues_route; list_dlq_route; replay_dlq_job_route].

(** The parameters of a path that matches. *)
Fixpoint match_segments (pat : list segment) (segs : list pystr) : option (list pystr) :=
  match pat, segs with
  | [], [] => Some []
  | Lit l :: pat', s :: segs' => if decide (l = s) then match_segments pat' segs' else None
  | Param :: pat', s :: segs' =>
      if decide (s = []) then None else cons s <$> match_segments pat' segs'
  | _, _ => None
  end.

Definition match_path (pat : list segment) (path : pystr) : option (list pystr) :=
  match py_split 47 path with
  | [] :: segs => match_segments pat segs
  | _ => None
  end.

Inductive dispatched : Type :=
| RouteTo (e : endpoint) (params : list pystr)
| MethodNotAllowed
| RedirectSlashes
| NotFound.

(** Full match of the first route that has one. *)
Fixpoint full_match (method path : pystr) (rs : list route) : option (endpoint * list pystr) :=
  match rs with
  | [] => None
  | r :: rs' =>
      match match_path (rt_path r) path with
      | Some params => if decide (rt_method r = method) then Some (rt_endpoint r, params)
                       else full_match method path rs'
      | None => full_match method path rs'
      end
  end.

Definition any_match (path : pystr) (rs : list route) : bool :=
  existsb (fun r => if match_path (rt_path r) path then true else false) rs.

(** The path with its trailing slashes removed, or with one added. *)
Definition toggle_slash (path : pystr) : pystr :=
  match rev path with
  | 47%N :: _ => rev ((fix strip (l : pystr) := match l with 47%N :: l' => strip l' | _ => l end) (rev path))
  | _ => path ++ u "/"
  end.

Definition dispatch (method path : pystr) : dispatched :=
  match full_match method path routes with
  | Some (e, params) => RouteTo e params
  | None =>
      if any_match path routes then MethodNotAllowed
      else if negb (bool_decide (path = u "/")) && any_match (toggle_slash path) routes
           then RedirectSlashes
      else NotFound
  end.

(** ** Which requests reach an endpoint *)

Definition plain_segment (s : pystr) : Prop := s ≠ [] ∧ 47%N ∉ s.

(** A matched path has as many segments as its route. *)
Lemma match_segments_length pat segs params :
  match_segments pat segs = Some params → length segs = length pat.
Proof.
  revert segs params. induction pat as [|[l|] pat IH]; intros [|s segs] params; cbn; try done.
  - case_decide; [|done]. intros Hm%IH. by rewrite Hm.
  - case_decide; [done|]. destruct (match_segments pat segs) as [ps|] eqn:Hm; [|done].
    intros _. by rewrite (IH _ _ Hm).
Qed.

Lemma match_lit l pat s segs params :
  match_segments (Lit l :: pat) (s :: segs) = Some params → match_segments pat segs = Some params.
Proof. cbn [match_segments]. by case_decide. Qed.

Lemma match_param pat s segs params :
  match_segments (Param :: pat) (s :: segs) = Some params →
  ∃ rest, match_segments pat segs = Some rest ∧ params = s :: rest.
Proof.
  cbn [match_segments]. case_decide; [done|]. destruct (match_segments pat segs) as [rest|]; [|done].
  intros [= <-]. by exists rest.
Qed.

Lemma py_split_slash s : 47%N ∈ s → (2 ≤ length (py_split 47 s))%nat.
Proof.
  intros (a & b & ->)%list_elem_of_split. rewrite py_split_sep, length_app.
  destruct (py_split_nonempty 47 a) as (w & ws & ->), (py_split_nonempty 47 b) as (w' & ws' & ->).
  simpl. lia.
Qed.

Lemma py_split_plain s : 47%N ∉ s ↔ length (py_split 47 s) = 1%nat.
Proof.
  split; [intros H; by rewrite py_split_none|]. intros Hl Hin%py_split_slash. lia.
Qed.

Lemma full_match_inv method path rs e params :
  full_match method path rs = Some (e, params) →
  ∃ r, r ∈ rs ∧ rt_method r = method ∧ rt_endpoint r = e ∧ match_path (rt_path r) path = Some params.
Proof.
  induction rs as [|r rs IH]; cbn [full_match]; [done|].
  assert (full_match method path rs = Some (e, params) →
    ∃ r', r' ∈ r :: rs ∧ rt_method r' = method ∧ rt_endpoint r' = e ∧
          match_path (rt_path r') path = Some params) as Hrest.
  { intros (r' & Hin & H)%IH. exists r'. split; [by right|done]. }
  destruct (match_path (rt_path r) path) as [ps|] eqn:Hm; [|done].
  case_decide as Hmeth; [|done]. intros [= <- <-]. exists r. split; [by left|done].
Qed.

Lemma dispatch_inv method path e params :
  dispatch method path = RouteTo e params →
  ∃ r, r ∈ routes ∧ rt_method r = method ∧ rt_endpoint r = e ∧ match_path (rt_path r) path = Some params.
Proof.
  unfold dispatch. destruct (full_match method path routes) as [[e' ps]|] eqn:H.
  - intros [= <- <-]. by apply full_match_inv.
  - repeat case_match; done.
Qed.

(** The requests the endpoints are for, by their parameters. *)
Definition path_of (e : endpoint) (params : list pystr) : pystr :=
  match e, params with
  | EnqueueJob, [] => u "/jobs"
  | GetJobStatus, [j] => u "/jobs/" ++ j
  | ListQueues, [] => u "/queues"
  | ListDlq, [q] => u "/queues/" ++ q ++ u "/dlq"
  | ReplayDlqJob, [q; j] => u "/queues/" ++ q ++ u "/dlq/" ++ j ++ u "/replay"
  | _, _ => []
  end.
Definition method_of (e : endpoint) : pystr :=
  match e with EnqueueJob | ReplayDlqJob => u "POST" | _ => u "GET" end.
Definition arity (e : endpoint) : nat :=
  match e with EnqueueJob | ListQueues => 0 | GetJobStatus | ListDlq => 1 | ReplayDlqJob => 2 end.

(** A path is split at its slashes, those inside the parameters included. *)
Lemma split_path e params :
  length params = arity e →
  py_split 47 (path_of e params) =
  [] :: match e, py_split 47 <$> params with
        | EnqueueJob, _ => [u "jobs"]
        | GetJobStatus, [j] => u "jobs" :: j
        | ListQueues, _ => [u "queues"]
        | ListDlq, [q] => u "queues" :: q ++ [u "dlq"]
        | ReplayDlqJob, [q; j] => u "queues" :: q ++ u "dlq" :: j ++ [u "replay"]
        | _, _ => []
        end.
Proof.
  destruct e, params as [|a [|b [|c l]]]; try done; intros _; cbn [path_of fmap list_fmap].
  - change (u "/queues/" ++ a ++ u "/dlq") with (u "/queues" ++ 47%N :: a ++ 47%N :: u "dlq").
    rewrite !py_split_sep. done.
  - change (u "/queues/" ++ a ++ u "/dlq/" ++ b ++ u "/replay")
      with (u "/queues" ++ 47%N :: a ++ 47%N :: u "dlq" ++ 47%N :: b ++ 47%N :: u "replay").
    rewrite !py_split_sep. done.
Qed.

(** Parameters that are plain reach their endpoint. *)
Lemma dispatch_plain e params :
  length params = arity e → Forall plain_segment params →
  dispatch (method_of e) (path_of e params) = RouteTo e params.
Proof.
  intros Hl Hp. pose proof (split_path e params Hl) as Hs.
  unfold dispatch. assert (full_match (method_of e) (path_of e params) routes = Some (e, params)) as ->; [|done].
  assert (∀ pat segs, py_split 47 (path_of e params) = [] :: segs →
    match_path pat (path_of e params) = match_segments pat segs) as Hm
    by (intros pat segs H; unfold match_path; by rewrite H).
  specialize (λ pat, Hm pat _ Hs). clear Hs. revert Hm. generalize (path_of e params) as path.
  intros path Hm. unfold routes. cbn [full_match]. rewrite !Hm. clear Hm.
  destruct e, params as [|a [|b [|c l]]]; try done; cbn [fmap list_fmap].
  - apply Forall_singleton in Hp as [Ha Hs]. rewrite (py_split_none 47 a) by done.
    destruct a; [done|]. vm_compute. reflexivity.
  - apply Forall_singleton in Hp as [Ha Hs]. rewrite (py_split_none 47 a) by done.
    destruct a; [done|]. vm_compute. reflexivity.
  - apply Forall_cons in Hp as [[Ha Hs] Hp]. apply Forall_singleton in Hp as [Hb Hs'].
    rewrite (py_split_none 47 a), (py_split_none 47 b) by done.
    destruct a, b; done.
Qed.

(** No parameters, whatever they hold, reach another endpoint or other parameters. *)
Lemma dispatch_only e params e' params' :
  length params = arity e →
  dispatch (method_of e) (path_of e params) = RouteTo e' params' → e' = e ∧ params' = params.
Proof.
  intros Hl (r & Hr & Hmeth & <- & Hm)%dispatch_inv. unfold match_path in Hm.
  rewrite (split_path e params Hl) in Hm. pose proof (match_segments_length _ _ _ Hm) as Hlen.
  assert (∀ s : pystr, 1 ≤ length (py_split 47 s))%nat as Hone
    by (intros s; destruct (py_split_nonempty 47 s) as (w & ws & ->); simpl; lia).
  assert (∀ r', r' ∈ routes → rt_method r' = method_of e →
    length (rt_path r') = length (match e, py_split 47 <$> params with
        | EnqueueJob, _ => [u "jobs"]
        | GetJobStatus, [j] => u "jobs" :: j
        | ListQueues, _ => [u "queues"]
        | ListDlq, [q] => u "queues" :: q ++ [u "dlq"]
        | ReplayDlqJob, [q; j] => u "queues" :: q ++ u "dlq" :: j ++ [u "replay"]
        | _, _ => []
        end) → rt_endpoint r' = e ∨ e = GetJobStatus ∧ r' = list_dlq_route) as Hroutes.
  { clear r Hr Hmeth Hm Hlen. intros r Hr Hmeth Hlen. unfold routes in Hr.
    rewrite !elem_of_cons in Hr.
    destruct e, params as [|a [|b [|c l]]]; try done; cbn [fmap list_fmap] in *;
      repeat (rewrite length_app in Hlen || cbn [length] in Hlen);
      try pose proof (Hone a); try pose proof (Hone b);
      destruct_or! Hr; subst; cbn [length rt_path rt_method rt_endpoint enqueue_job_route
        get_job_status_route list_queues_route list_dlq_route replay_dlq_job_route] in *;
      first [by left|by right|discriminate Hmeth|by apply not_elem_of_nil in Hr|lia]. }
  destruct (Hroutes r Hr Hmeth ltac:(done)) as [He|[-> ->]].
  - split; [exact He|]. unfold routes in Hr. rewrite !elem_of_cons in Hr.
    destruct e, params as [|a [|b [|c l]]]; try done; cbn [fmap list_fmap] in *;
      destruct_or! Hr; subst; try discriminate He; try (by apply not_elem_of_nil in Hr);
      repeat (rewrite length_app in Hlen || cbn [length] in Hlen); cbn in Hlen;
      try pose proof (Hone a); try pose proof (Hone b);
      try (assert (47%N ∉ a) by (apply py_split_plain; lia));
      try (assert (47%N ∉ b) by (apply py_split_plain; lia));
      rewrite ?(py_split_none 47) in Hm by done;
      unfold rt_path, enqueue_job_route, get_job_status_route, list_queues_route, list_dlq_route,
        replay_dlq_job_route in Hm; cbn [app] in Hm;
      repeat first [apply match_lit in Hm|apply match_param in Hm as (? & Hm & ->)];
      by injection Hm as <-.
  - destruct params as [|a [|b l]]; done.
Qed.
