(* ===== verification/Cli.v ===== *)
(** * The command line: [cli.py]

    The commands build a request, send it, and print the reply.  [urlopen] is the
    class [Http]: it answers, answers with an HTTP error, or raises.  [sys.exit(1)]
    raises SystemExit; [print] appends a line to [c_out] or [c_err] (the encoding
    of the terminal is not modelled). *)

From Stdlib Require Import String QArith.
From S2P Require Import Prelude PyStr Json Errors Datetime Job Redis Transport Url Routes.
Open Scope list_scope.

Record http_request : Type := mkReq {
  rq_method : pystr; rq_url : pystr; rq_data : option (list N); rq_headers : list (pystr * pystr)
}.

(** A reply's body, or an [HTTPError] with its code and body. *)
Inductive http_reply : Type := HttpOk (body : list N) | HttpErr (code : Z) (body : list N).

Class Http : Type := {
  hstate : Type;
  urlopen (req : http_request) (timeout : Q) : M hstate http_reply
}.

Record console `{Http} : Type := mkConsole { c_net : hstate; c_out : list pystr; c_err : list pystr }.
Arguments mkConsole {_}.

Definition SystemExit : exn := UserExn (u "SystemExit") (u "1") true.

(** ** The base URL *)

Section BaseUrl.
Variable netloc_ok : pystr → bool.

Definition _validated_api_url (value : pystr) : result exn pystr :=
  parsed ← urlsplit netloc_ok value;
  if negb (bool_decide (scheme parsed ∈ [u "http"; u "https"])) || bool_decide (hostname parsed = [])
  then Raise (ValueError (u "RELAYQ_API_URL must be an HTTP(S) URL with a hostname"))
  else if negb (bool_decide (username parsed = [])) || negb (bool_decide (password parsed = []))
          || negb (bool_decide (query parsed = [])) || negb (bool_decide (fragment parsed = []))
  then Raise (ValueError (u "RELAYQ_API_URL must not contain credentials, a query, or a fragment"))
  else Ok (rstrip 47 value).

End BaseUrl.

Definition REQUEST_TIMEOUT_SECONDS : Q := 15.

(** ** JSON values in Python expressions *)

(** [v[k]] for a text [k]. *)
Definition py_getitem (v : json) (k : pystr) : result exn json :=
  match v with
  | JObj l => match dict_get k l with Some x => Ok x | None => Raise (KeyError k) end
  | _ => Raise (TypeError (u "indices"))
  end.

(** [v.get(k, default)] *)
Definition py_get (v : json) (k : pystr) (default : json) : result exn json :=
  match v with
  | JObj l => Ok (get_default k default l)
  | _ => Raise (AttributeError (u "get"))
  end.

(** [for x in v] *)
Definition py_iter (v : json) : result exn (list json) :=
  match v with
  | JArr l => Ok l
  | JObj l => Ok ((λ kv, JStr kv.1) <$> l)
  | JStr s => Ok ((λ c, JStr [c]) <$> s)
  | _ => Raise (TypeError (u "object is not iterable"))
  end.

Definition pad_right (w : nat) (s : pystr) : pystr := s ++ repeat 32%N (w - length s).
Definition pad_left (w : nat) (s : pystr) : pystr := repeat 32%N (w - length s) ++ s.

(** [f"{v:20s}"] *)
Definition format_20s (v : json) : result exn pystr :=
  match v with
  | JStr s => Ok (pad_right 20 s)
  | JInt _ | JBool _ | JFloat _ => Raise (ValueError (u "Unknown format code 's'"))
  | _ => Raise (TypeError (u "unsupported format string"))
  end.

(** [f"{v:>wd}"] *)
Definition format_d (w : nat) (v : json) : result exn pystr :=
  match v with
  | JInt z => Ok (pad_left w (str_int z))
  | JBool b => Ok (pad_left w (str_int (if b then 1 else 0)))
  | JFloat _ | JStr _ => Raise (ValueError (u "Unknown format code 'd'"))
  | _ => Raise (TypeError (u "unsupported format string"))
  end.

Definition newline (lvl : nat) : pystr := 10%N :: repeat 32%N (2 * lvl).

(** [json.dumps(v, indent=2)] *)
Fixpoint dumps_indent (lvl : nat) (j : json) : pystr :=
  match j with
  | JArr (_ :: _ as l) =>
      u "[" ++ newline (S lvl) ++ py_join (u "," ++ newline (S lvl)) (map (dumps_indent (S lvl)) l)
        ++ newline lvl ++ u "]"
  | JObj (_ :: _ as l) =>
      u "{" ++ newline (S lvl)
        ++ py_join (u "," ++ newline (S lvl))
                   (map (fun kv => dumps_str kv.1 ++ u ": " ++ dumps_indent (S lvl) kv.2) l)
        ++ newline lvl ++ u "}"
  | _ => dumps j
  end.

(** ** The paths of the commands *)

Definition status_path (job_id : pystr) : result exn pystr :=
  j ← quote job_id; mret (u "/jobs/" ++ j).
Definition dlq_path (queue : pystr) : result exn pystr :=
  q ← quote queue; mret (u "/queues/" ++ q ++ u "/dlq").
Definition replay_path (queue job_id : pystr) : result exn pystr :=
  q ← quote queue; j ← quote job_id; mret (u "/queues/" ++ q ++ u "/dlq/" ++ j ++ u "/replay").

Section Cli.
Context {H : Http}.
(** The module global [API_URL]. *)
Variable API_URL : pystr.

Definition print (s : pystr) : M console unit :=
  modify (fun c => mkConsole (c_net c) (c_out c ++ [s]) (c_err c)).
Definition print_err (s : pystr) : M console unit :=
  modify (fun c => mkConsole (c_net c) (c_out c) (c_err c ++ [s])).

Definition decode_body (b : list N) : result exn pystr :=
  match utf8_decode b with Some s => Ok s | None => Raise UnicodeDecodeError end.

(** [json.dumps(body).encode() if body else None] *)
Definition encode_body (body : option (list (pystr * json))) : result exn (option (list N)) :=
  match body with
  | Some (kv :: d) =>
      match utf8_encode (dumps (JObj (kv :: d))) with
      | Some b => Ok (Some b)
      | None => Raise (ValueError (u "surrogates not allowed"))
      end
  | _ => Ok None
  end.

Definition _request (method path : pystr) (body : option (list (pystr * json))) : M console json :=
  data ← lift (encode_body body);
  let req := mkReq method (API_URL ++ path) data [(u "Content-Type", u "application/json")] in
  resp ← zoom c_net (fun n c => mkConsole n (c_out c) (c_err c)) (urlopen req REQUEST_TIMEOUT_SECONDS);
  match resp with
  | HttpOk b => lift (text ← decode_body b; json_loads text)
  | HttpErr code b =>
      text ← lift (decode_body b);
      let detail := match loads text with Some j => j | None => JStr text end in
      _ ← print_err (u "Error " ++ str_int code ++ u ": " ++ py_str detail);
      throw SystemExit
  end.

Definition usage (text : pystr) : M console unit := _ ← print_err text; throw SystemExit.

(** The text argument as JSON, or wrapped. *)
Definition payload_of (text : pystr) : json :=
  match loads text with Some j => j | None => JObj [(u "data", JStr text)] end.

Definition enqueue_body (queue text : pystr) : list (pystr * json) :=
  [(u "kind", JStr (u "generic")); (u "payload", payload_of text); (u "queue", JStr queue)].

Definition cmd_enqueue (args : list pystr) : M console unit :=
  match args with
  | queue :: text :: _ =>
      result ← _request (u "POST") (u "/jobs") (Some (enqueue_body queue text));
      jid ← lift (py_getitem result (u "job_id"));
      eid ← lift (py_getitem result (u "stream_entry_id"));
      print (u "Enqueued job " ++ py_str jid ++ u " (stream: " ++ py_str eid ++ u ")")
  | _ => usage (u "Usage: relayq enqueue <queue> <payload_json>")
  end.

Definition cmd_status (args : list pystr) : M console unit :=
  match args with
  | job_id :: _ =>
      p ← lift (status_path job_id);
      result ← _request (u "GET") p None;
      print (dumps_indent 0 result)
  | [] => usage (u "Usage: relayq status <job-id>")
  end.

Definition queue_line (q : json) : result exn pystr :=
  name ← (v ← py_getitem q (u "name"); format_20s v);
  depth ← (v ← py_getitem q (u "depth"); format_d 6 v);
  dlq ← (v ← py_getitem q (u "dead_letter_count"); format_d 4 v);
  mret (name ++ u " depth=" ++ depth ++ u "  dlq=" ++ dlq).

Definition cmd_queues (args : list pystr) : M console unit :=
  result ← _request (u "GET") (u "/queues") None;
  qs ← lift (l ← py_get result (u "queues") (JArr []); py_iter l);
  for_each qs (fun q => line ← lift (queue_line q); print line).

Definition dlq_line (entry : json) : result exn pystr :=
  job ← py_get entry (u "job") (JObj []);
  i ← py_get job (u "id") (JStr (u "?"));
  k ← py_get job (u "kind") (JStr (u "?"));
  r ← py_get entry (u "reason") (JStr (u "?"));
  mret (u "  " ++ py_str i ++ u ": " ++ py_str k ++ u " " ++ [8212%N] ++ u " " ++ py_str r).

Definition cmd_dlq (args : list pystr) : M console unit :=
  match args with
  | queue :: _ =>
      p ← lift (dlq_path queue);
      result ← _request (u "GET") p None;
      count ← lift (py_get result (u "count") (JInt 0));
      _ ← print (u "DLQ for queue '" ++ queue ++ u "' (" ++ py_str count ++ u " entries):");
      entries ← lift (l ← py_get result (u "entries") (JArr []); py_iter l);
      for_each entries (fun e => line ← lift (dlq_line e); print line)
  | [] => usage (u "Usage: relayq dlq <queue>")
  end.

Definition cmd_replay (args : list pystr) : M console unit :=
  match args with
  | queue :: job_id :: _ =>
      p ← lift (replay_path queue job_id);
      result ← _request (u "POST") p None;
      jid ← lift (py_getitem result (u "job_id"));
      eid ← lift (py_getitem result (u "new_stream_entry_id"));
      print (u "Replayed job " ++ py_str jid ++ u " (new stream entry: " ++ py_str eid ++ u ")")
  | _ => usage (u "Usage: relayq replay <queue> <job-id>")
  end.

(** The module's docstring. *)
Definition doc : pystr :=
  py_join [10%N]
    [u "RelayQ CLI " ++ [8212%N] ++ u " minimal command-line interface."; [];
     u "Usage:";
     u "    relayq enqueue <queue> <payload_json>";
     u "    relayq status <job-id>";
     u "    relayq queues";
     u "    relayq dlq <queue>";
     u "    relayq replay <queue> <job-id>"; [];
     u "Environment:";
     u "    RELAYQ_API_URL    Base URL for the RelayQ API (default: http://localhost:8000)"; []].

Definition commands : list (pystr * (list pystr → M console unit)) :=
  [(u "enqueue", cmd_enqueue); (u "status", cmd_status); (u "queues", cmd_queues);
   (u "dlq", cmd_dlq); (u "replay", cmd_replay)].

Definition main (argv : list pystr) : M console unit :=
  match argv with
  | _ :: command :: args =>
      match dict_get command commands with
      | Some cmd => cmd args
      | None => _ ← print_err (u "Unknown command: " ++ command);
                _ ← print_err doc;
                throw SystemExit
      end
  | _ => usage doc
  end.

End Cli.

(** [os.getenv("RELAYQ_API_URL", ...)] *)
Definition getenv_api_url (getenv : option pystr) : pystr :=
  default (u "http://localhost:8000") getenv.

(** The script: [API_URL] is set when the module is loaded, then [main] runs. *)
Definition script {H : Http} (netloc_ok : pystr → bool) (getenv : option pystr) (argv : list pystr)
    : M console unit :=
  base ← lift (_validated_api_url netloc_ok (getenv_api_url getenv));
  main base argv.

(** ** Where the requests go *)

(** The path a command sends for an endpoint of the API and its arguments. *)
Definition request_path (e : endpoint) (args : list pystr) : result exn pystr :=
  match e, args with
  | EnqueueJob, [] => Ok (u "/jobs")
  | GetJobStatus, [j] => status_path j
  | ListQueues, [] => Ok (u "/queues")
  | ListDlq, [q] => dlq_path q
  | ReplayDlqJob, [q; j] => replay_path q j
  | _, _ => Raise (TypeError (u "arguments"))
  end.

Lemma request_path_chars e args p :
  request_path e args = Ok p → forallb path_char p = true ∧ at_end p.
Proof.
  assert (∀ s, forallb quoted_char s = true → forallb path_char s = true) as Hq.
  { intros s. rewrite !forallb_forall. intros Hs x Hx. unfold path_char. by rewrite Hs. }
  destruct e, args as [|q [|j [|x l]]]; try done; cbn [request_path].
  - intros [= <-]. split; [done|right; by eexists].
  - unfold status_path. destruct (quote q) as [j'|] eqn:Hj; [|done]. intros [= <-].
    apply quote_chars, Hq in Hj. split; [|right; by eexists]. exact Hj.
  - intros [= <-]. split; [done|right; by eexists].
  - unfold dlq_path. destruct (quote q) as [q'|] eqn:Hj; [|done]. intros [= <-].
    apply quote_chars, Hq in Hj. split; [|right; by eexists].
    cbn. by rewrite forallb_app, Hj.
  - unfold replay_path. destruct (quote q) as [q'|] eqn:Hj; [|done]. cbn.
    destruct (quote j) as [j'|] eqn:Hj2; [|done]. intros [= <-].
    apply quote_chars, Hq in Hj, Hj2. split; [|right; by eexists].
    cbn. rewrite forallb_app, Hj. cbn. by rewrite forallb_app, Hj2.
Qed.

(** With its escapes undone, the path is that of the endpoint and the arguments. *)
Lemma request_path_decoded e args p :
  request_path e args = Ok p → length args = arity e ∧ unquote p = Some (path_of e args).
Proof.
  destruct e, args as [|q [|j [|x l]]]; try done; cbn [request_path].
  1,3: by intros [= <-].
  - unfold status_path. destruct (quote q) as [q'|] eqn:Hq; [|done]. intros Hp. split; [done|].
    apply quote_bytes in Hq as (b & Hb & -> & Hbs). unfold unquote, path_of.
    assert (p = u "/jobs/" ++ concat (quote_byte <$> b)) as -> by (by injection Hp as <-).
    rewrite unquote_plain by done. rewrite <- (app_nil_r (concat _)), unquote_quoted, app_nil_r by done.
    apply utf8_decode_encode. by rewrite utf8_encode_app, Hb.
  - unfold dlq_path. destruct (quote q) as [q'|] eqn:Hq; [|done]. intros Hp. split; [done|].
    apply quote_bytes in Hq as (b & Hb & -> & Hbs). unfold unquote, path_of.
    assert (p = u "/queues/" ++ concat (quote_byte <$> b) ++ u "/dlq") as -> by (by injection Hp as <-).
    rewrite unquote_plain, unquote_quoted by done.
    change (unquote_bytes (u "/dlq")) with (u "/dlq"). apply utf8_decode_encode.
    by rewrite !utf8_encode_app, Hb.
  - unfold replay_path. destruct (quote q) as [q'|] eqn:Hq; [|done]. cbn [mbind result_mbind].
    destruct (quote j) as [j'|] eqn:Hj; [|done]. intros Hp. split; [done|].
    apply quote_bytes in Hq as (b & Hb & -> & Hbs), Hj as (b' & Hb' & -> & Hbs'). unfold unquote, path_of.
    assert (p = u "/queues/" ++ concat (quote_byte <$> b) ++ u "/dlq/" ++
                concat (quote_byte <$> b') ++ u "/replay") as -> by (by injection Hp as <-).
    rewrite unquote_plain, unquote_quoted, unquote_plain, unquote_quoted by done.
    change (unquote_bytes (u "/replay")) with (u "/replay").
    apply utf8_decode_encode. by rewrite !utf8_encode_app, Hb, Hb'.
Qed.

(** ** Properties *)

(** C39: a request goes where the user said.  For any base URL [_validated_api_url]
    accepts and any command arguments, the request's URL parses to the scheme and
    authority of the configured one.  When the base URL holds no question mark and no
    hash, its path is the configured path followed by the command's, without query or
    fragment.  The command's path is one the API dispatches to the command's endpoint
    with exactly the arguments given when none is empty or holds a slash; with any
    others it may reach nothing, but no other endpoint, queue or job. *)
Theorem request_reaches_resource netloc_ok value base e args p :
  _validated_api_url netloc_ok value = Ok base → request_path e args = Ok p →
  (∃ decoded, unquote p = Some decoded ∧
     (Forall plain_segment args → dispatch (method_of e) decoded = RouteTo e args) ∧
     (∀ e' args', dispatch (method_of e) decoded = RouteTo e' args' → e' = e ∧ args' = args)) ∧
  ∃ s s', urlsplit netloc_ok value = Ok s ∧ urlsplit netloc_ok (base ++ p) = Ok s' ∧
    scheme s' = scheme s ∧ netloc s' = netloc s ∧
    (35%N ∉ value → 63%N ∉ value →
     ∃ pre k, path s = pre ++ repeat 47%N k ∧ s' = mkSplit (scheme s) (netloc s) (pre ++ p) [] []).
Proof.
  unfold _validated_api_url. intros Hv Hp. split.
  { destruct (request_path_decoded _ _ _ Hp) as [Hl Hd]. exists (path_of e args).
    split_and!; [done|by apply dispatch_plain|intros; by apply dispatch_only]. }
  destruct (urlsplit netloc_ok value) as [s|] eqn:Hs; [|done]. cbn [mbind result_mbind] in Hv.
  destruct (negb _ || _) eqn:Hc in Hv; [done|]. destruct (_ || _) in Hv; [done|]. injection Hv as <-.
  apply orb_false_iff in Hc as [Hsch Hhost]. apply negb_false_iff, bool_decide_eq_true in Hsch.
  apply bool_decide_eq_false in Hhost.
  destruct (request_path_chars _ _ _ Hp) as [Hchars Hend].
  assert (scheme s ≠ []) as Hs0.
  { intros He. rewrite He in Hsch. revert Hsch. apply (bool_decide_unpack _). vm_compute. exact I. }
  assert (netloc s ≠ []) as Hn0 by (intros He; apply Hhost; unfold hostname; by rewrite He).
  destruct (urlsplit_same_host netloc_ok value s p Hs Hs0 Hn0 Hchars Hend) as (s' & Hs' & Hsc & Hnl).
  exists s, s'. split_and!; [done..|]. intros H35 H63.
  destruct (urlsplit_extends netloc_ok value s p Hs Hs0 Hn0 H35 H63 Hchars Hend) as (pre & k & Hpath & Hurl).
  exists pre, k. split; [done|]. rewrite Hurl in Hs'. by injection Hs'.
Qed.

Open Scope Z_scope.

Section CliSpec.
Context {H : Http}.
Variable API_URL : pystr.

Definition json_header : list (pystr * pystr) := [(u "Content-Type", u "application/json")].

(** One request and nothing else reaches the network; what the caller gets. *)
Lemma request_run method p body data (c : console) :
  encode_body body = Ok data →
  ∃ rep n, urlopen (mkReq method (API_URL ++ p) data json_header) REQUEST_TIMEOUT_SECONDS (c_net c)
             = (rep, n) ∧
    _request API_URL method p body c =
    match rep with
    | Raise e => (Raise e, mkConsole n (c_out c) (c_err c))
    | Ok (HttpOk b) => (text ← decode_body b; json_loads text, mkConsole n (c_out c) (c_err c))
    | Ok (HttpErr code b) =>
        match decode_body b with
        | Raise e => (Raise e, mkConsole n (c_out c) (c_err c))
        | Ok text =>
            (Raise SystemExit,
             mkConsole n (c_out c)
               (c_err c ++ [u "Error " ++ str_int code ++ u ": " ++
                            py_str (match loads text with Some j => j | None => JStr text end)]))
        end
    end.
Proof.
  intros Hd. destruct (urlopen _ _ (c_net c)) as [rep n] eqn:Hu. exists rep, n. split; [done|].
  unfold _request. erewrite st_bind_ok by (unfold lift; by rewrite Hd).
  unfold zoom, mbind at 1, st_mbind. fold json_header. rewrite Hu.
  destruct rep as [[b|code b]|e]; [done| |done].
  unfold lift, mbind, st_mbind. by destruct (decode_body b).
Qed.

Lemma encode_enqueue_body queue text :
  wf_str queue = true → wf_json (payload_of text) → ascii_floats (payload_of text) = true →
  ∃ b, encode_body (Some (enqueue_body queue text)) = Ok (Some b) ∧
       decode_body b = Ok (dumps (JObj (enqueue_body queue text))) ∧
       loads (dumps (JObj (enqueue_body queue text))) = Some (JObj (enqueue_body queue text)).
Proof.
  intros Hq Hp Hf. exists (dumps (JObj (enqueue_body queue text))).
  assert (wf_json (JObj (enqueue_body queue text))) as Hwf.
  { constructor; [by apply (bool_decide_unpack _); vm_compute|].
    unfold enqueue_body. repeat (constructor; [split; [done|]|]); [by constructor|done|by constructor|done]. }
  assert (is_ascii (dumps (JObj (enqueue_body queue text))) = true) as Ha.
  { apply dumps_ascii; [done|]. cbn [ascii_floats enqueue_body forallb snd]. by rewrite Hf. }
  unfold encode_body, decode_body. cbn [enqueue_body]. fold (enqueue_body queue text).
  rewrite utf8_encode_ascii, utf8_decode_ascii by done. split_and!; [done..|by apply loads_dumps].
Qed.

(** [relayq enqueue] posts the job.  Whatever the server answers, the command
    makes exactly one request: a POST to [/jobs] whose body decodes to the kind
    [generic], the given queue, and the payload the argument denotes (the JSON
    value it is, else the text wrapped in a dict).  An HTTP error is reported on
    the error output and ends the command with SystemExit; nothing is printed on
    the standard output then. *)
Theorem enqueue_posts_once prog queue text args (c : console) r c' :
  wf_str queue = true → wf_json (payload_of text) → ascii_floats (payload_of text) = true →
  main API_URL (prog :: u "enqueue" :: queue :: text :: args) c = (r, c') →
  ∃ b rep,
    urlopen (mkReq (u "POST") (API_URL ++ u "/jobs") (Some b) json_header) REQUEST_TIMEOUT_SECONDS
            (c_net c) = (rep, c_net c') ∧
    (s ← decode_body b; json_loads s) =
      Ok (JObj [(u "kind", JStr (u "generic")); (u "payload", payload_of text);
                (u "queue", JStr queue)]) ∧
    ∀ code e s, rep = Ok (HttpErr code e) → decode_body e = Ok s →
      r = Raise SystemExit ∧ c_out c' = c_out c ∧
      c_err c' = c_err c ++ [u "Error " ++ str_int code ++ u ": " ++
                             py_str (match loads s with Some j => j | None => JStr s end)].
Proof.
  intros Hq Hp Hf Hm. destruct (encode_enqueue_body queue text Hq Hp Hf) as (b & He & Hd & Hl).
  change (main API_URL (prog :: u "enqueue" :: queue :: text :: args) c)
    with (cmd_enqueue API_URL (queue :: text :: args) c) in Hm.
  unfold cmd_enqueue in Hm. destruct (request_run (u "POST") (u "/jobs") _ _ c He) as (rep & n & Hu & Hr).
  exists b, rep. rewrite Hu, Hd. cbn [mbind result_mbind]. unfold json_loads. rewrite Hl.
  assert (∀ (k : json → M console unit) c1 x, (∀ j c0, c_net (k j c0).2 = c_net c0) →
            (_request API_URL (u "POST") (u "/jobs") (Some (enqueue_body queue text)) ≫= k) c = (x, c1) →
            c_net c1 = n) as Hnet.
  { intros k c1 x Hk Hx. unfold mbind, st_mbind in Hx. rewrite Hr in Hx.
    destruct rep as [[b1|code b1]|e]; [|destruct (decode_body b1)|]; try (by injection Hx as <- <-).
    destruct (s ← decode_body b1; json_loads s) as [j|e]; [|by injection Hx as <- <-].
    specialize (Hk j (mkConsole n (c_out c) (c_err c))). by rewrite Hx in Hk. }
  split; [|split; [done|]].
  - f_equal. symmetry. eapply Hnet; [|exact Hm]. intros j c0.
    unfold mbind, st_mbind, lift, print, modify.
    destruct (py_getitem j (u "job_id")); [|done]. by destruct (py_getitem j (u "stream_entry_id")).
  - intros code e s -> Hs. rewrite Hs in Hr. erewrite st_bind_raise in Hm by exact Hr.
    injection Hm as <- <-. done.
Qed.

End CliSpec.

(** A refused base URL ends the script before it sends or prints anything; without one
    in the environment the script talks to the default. *)
Lemma script_refused {H : Http} netloc_ok getenv argv c e :
  _validated_api_url netloc_ok (getenv_api_url getenv) = Raise e →
  script netloc_ok getenv argv c = (Raise e, c).
Proof. intros He. unfold script, lift, mbind, st_mbind. by rewrite He. Qed.

Lemma script_default {H : Http} netloc_ok argv c :
  netloc_ok (u "localhost:8000") = true →
  script netloc_ok None argv c = main (u "http://localhost:8000") argv c.
Proof.
  intros Hok. unfold script, lift, mbind, st_mbind.
  assert (_validated_api_url netloc_ok (getenv_api_url None) = Ok (u "http://localhost:8000")) as ->; [|done].
  unfold _validated_api_url, urlsplit.
  change (split_scheme (url_clean (getenv_api_url None))) with (u "http", u "//localhost:8000").
  cbv beta iota. change (split_authority (u "//localhost:8000")) with (u "localhost:8000", @nil N).
  cbv beta iota. change (brackets_differ (u "localhost:8000")) with false. by rewrite Hok.
Qed.

(** The check of the base URL looks at the parsed query and fragment, which are
    empty after a question mark or a hash at the end: the path of every request
    becomes a query. *)
Lemma trailing_question_mark netloc_ok p :
  netloc_ok (u "relayq") = true → forallb path_char p = true →
  _validated_api_url netloc_ok (u "http://relayq?") = Ok (u "http://relayq?") ∧
  urlsplit netloc_ok (u "http://relayq?" ++ p) = Ok (mkSplit (u "http") (u "relayq") [] p []).
Proof.
  intros Hok Hp. split.
  - unfold _validated_api_url, urlsplit.
    change (split_scheme (url_clean (u "http://relayq?"))) with (u "http", u "//relayq?").
    cbv beta iota. change (split_authority (u "//relayq?")) with (u "relayq", u "?"). cbv beta iota.
    change (brackets_differ (u "relayq")) with false. by rewrite Hok.
  - unfold urlsplit. rewrite url_clean_app by done.
    rewrite split_scheme_app by (by apply path_char_not).
    change (split_scheme (url_clean (u "http://relayq?"))) with (u "http", u "//relayq?").
    change (prod_map id (λ r, r ++ p) (u "http", u "//relayq?")) with (u "http", u "//relayq?" ++ p).
    cbv beta iota.
    change (split_authority (u "//relayq?" ++ p)) with (u "relayq", 63%N :: p).
    cbv beta iota.
    change (brackets_differ (u "relayq")) with false. rewrite Hok. cbn [negb].
    rewrite cut_None; [done|]. apply not_elem_of_cons. split; [done|by apply path_char_not].
Qed.

(** ** Witnesses *)

Definition mail_queue : pystr := u "mail".

(** A network that records the requests and gives one reply to all. *)
Definition replying (rep : http_reply) : Http := {|
  hstate := list http_request;
  urlopen req _ := fun l => (Ok rep, l ++ [req])
|}.

Lemma request_reaches_resource_witness :
  let p := u "/queues/mail/dlq/..%2F..%2Fadmin%3Fx/replay" in
  let args := [mail_queue; u "../../admin?x"] in
  request_path ReplayDlqJob args = Ok p ∧
  (∃ decoded, unquote p = Some decoded ∧
     ∀ e' args', dispatch (u "POST") decoded = RouteTo e' args' → e' = ReplayDlqJob ∧ args' = args) ∧
  ∃ s pre k, urlsplit (λ _, true) (u "https://relayq.example.com:8000/api//") = Ok s ∧
    path s = pre ++ repeat 47%N k ∧
    urlsplit (λ _, true) (u "https://relayq.example.com:8000/api" ++ p)
      = Ok (mkSplit (scheme s) (netloc s) (pre ++ p) [] []).
Proof.
  intros p args. split; [vm_compute; reflexivity|].
  destruct (request_reaches_resource (λ _, true) (u "https://relayq.example.com:8000/api//")
           (u "https://relayq.example.com:8000/api") ReplayDlqJob args p)
    as [(d & Hd & _ & Ho) (s & s' & Hs & Hs' & _ & _ & Hpath)];
    [vm_compute; reflexivity|vm_compute; reflexivity|].
  split; [by exists d|].
  destruct Hpath as (pre & k & Hpre & ->); [by apply (bool_decide_unpack _); vm_compute..|].
  exists s, pre, k. split; [exact Hs|]. split; [exact Hpre|exact Hs'].
Defined.

Definition not_found : http_reply := HttpErr 404 (u "no such route").

Definition ann : json := JObj [(u "to", JStr (u "ann"))].
Definition enqueue_argv : list pystr := [u "relayq"; u "enqueue"; mail_queue; dumps ann].

Lemma enqueue_posts_once_witness :
  let '(r, c') := main (H := replying not_found) (u "http://relayq") enqueue_argv
                       (mkConsole (H := replying not_found) [] [] []) in
  r = Raise SystemExit ∧ c_err c' = [u "Error 404: no such route"] ∧
  ∃ b, c_net c' = [mkReq (u "POST") (u "http://relayq/jobs") (Some b) json_header] ∧
    (s ← decode_body b; json_loads s) =
      Ok (JObj [(u "kind", JStr (u "generic")); (u "payload", ann); (u "queue", JStr mail_queue)]).
Proof.
  assert (payload_of (dumps ann) = ann) as Hp by (vm_compute; reflexivity).
  destruct (main _ enqueue_argv _) as [r c'] eqn:Hm.
  apply (enqueue_posts_once (H := replying not_found) (u "http://relayq") (u "relayq") mail_queue
           (dumps ann) []) in Hm as (b & rep & Hu & Hl & He).
  - rewrite Hp in Hl. cbn in Hu. injection Hu as <- Hn.
    destruct (He 404 (u "no such route") (u "no such route")) as (-> & _ & ->);
      [reflexivity|vm_compute; reflexivity|].
    split; [reflexivity|]. split; [vm_compute; reflexivity|]. exists b. split; [by rewrite <- Hn|exact Hl].
  - reflexivity.
  - rewrite Hp. constructor; [by apply (bool_decide_unpack _); vm_compute|].
    repeat constructor.
  - rewrite Hp. reflexivity.
Defined.
