(* ===== verification/Server.v ===== *)
(** * The API as a server: the middlewares and endpoints of [api/main.py] together

    A request goes through the three middlewares (the one registered last is the
    outermost: rate limit, then logging, then request id), the framework's
    exception handler, and the endpoint its path and method select.  Decoding a
    body, coercing a query parameter and rendering JSON are the framework's:
    the class [Framework], with [FrameworkSpec] for what it documents.  [serve] is
    one request, from its [reading]s of the clocks and random sources; the process
    keeps the world, the limiter it creates on the first request, and its log.

    A body or path parameter arrives decoded, [content-length] and the framework's
    own documentation routes are left out, and a request that is still scanning
    when its fuel ends is cancelled. *)

From Stdlib Require Import String QArith.
From S2P Require Import Prelude PyStr Json Errors Datetime Calendar Job Redis RedisModel Transport SqliteStore World Scenario Delivery Enqueue RateLimiter Api Url Routes.
Open Scope list_scope.
Open Scope Z_scope.

Record Request : Type := mkHttp {
  in_method : pystr;
  in_path : pystr;                       (* escapes undone *)
  in_query : pystr;
  in_headers : list (pystr * pystr);     (* names in lower case *)
  in_body : list N
}.

Record Response : Type := mkResponse {
  out_status : Z;
  out_headers : list (pystr * pystr);
  out_body : list N
}.

Class Framework : Type := {
  (* the typed fields of a body, or the errors of a 422 *)
  fw_request (headers : list (pystr * pystr)) (body : list N) : result json EnqueueRequest;
  fw_errors (exc : exn) : json;          (* a failed constraint or validator *)
  fw_limit (query : pystr) : result json Z;
  fw_render (j : json) : list N
}.

(** The fields of a body whose values have the declared types; [None] when one has
    another type or [kind] is missing. *)
Definition typed_fields (d : list (pystr * json)) : option EnqueueRequest :=
  kind ← match dict_get (u "kind") d with Some (JStr s) => Some s | _ => None end;
  payload ← match dict_get (u "payload") d with
            | None => Some [] | Some (JObj p) => Some p | _ => None end;
  queue ← match dict_get (u "queue") d with
          | None => Some (u "default") | Some (JStr s) => Some s | _ => None end;
  key ← match dict_get (u "idempotency_key") d with
        | None | Some JNull => Some None | Some (JStr s) => Some (Some s) | _ => None end;
  retries ← match dict_get (u "max_retries") d with
            | None => Some 3 | Some (JInt n) => Some n | _ => None end;
  Some (mkRequest kind payload queue key retries).

(** Well-typed bodies are read as they are, and a payload that is no object is
    refused. *)
Class FrameworkSpec (F : Framework) : Prop := {
  fw_request_typed headers body text d r :
    dict_get (u "content-type") headers = Some (u "application/json") →
    utf8_decode body = Some text → loads text = Some (JObj d) → typed_fields d = Some r →
    fw_request headers body = Ok r;
  fw_request_payload headers body text d v :
    utf8_decode body = Some text → loads text = Some (JObj d) →
    dict_get (u "payload") d = Some v → (∀ p, v ≠ JObj p) → is_ok (fw_request headers body) = false
}.

(** ** Responses *)

(** [response.headers[k] = v]: the first one is replaced, others are dropped. *)
Fixpoint set_header (k v : pystr) (h : list (pystr * pystr)) : list (pystr * pystr) :=
  match h with
  | [] => [(k, v)]
  | (k', v') :: h' => if decide (k' = k) then (k, v) :: filter (λ p, p.1 ≠ k) h'
                      else (k', v') :: set_header k v h'
  end.

Definition X_Request_Id : pystr := u "x-request-id".

(** What a request reads from the clocks and the random sources. *)
Record reading : Type := mkReading {
  rd_now : datetime;       (* the wall clock *)
  rd_time : Q;             (* [int(time.time())] *)
  rd_elapsed : Q;          (* between the two readings of the logging middleware *)
  rd_uuid : pystr;         (* [str(uuid.uuid4())] *)
  rd_hex : pystr;          (* [uuid.uuid4().hex], of a job *)
  rd_fuel : nat            (* SCAN calls before it is cancelled *)
}.

(** [round(elapsed, 3)] *)
Definition round3 (q : Q) : Q := (inject_Z (round_half_even (q * 1000)) / 1000)%Q.

(** [request.url.path]: the URL is put together from the decoded path and parsed
    again. *)
Definition request_url_path (path : pystr) : pystr :=
  (cut 63 (cut 35 (List.filter (fun c => negb (unsafe_byte c)) path)).1).1.

(** ** Response models *)

Record QueueStats : Type := mkQueueStats {
  qs_name : pystr; qs_depth : Z; qs_oldest_job_age_seconds : pystr; qs_dead_letter_count : Z
}.

Definition read_QueueStats (j : json) : option QueueStats :=
  match j with
  | JObj d =>
      match dict_get (u "name") d, dict_get (u "depth") d,
            dict_get (u "oldest_job_age_seconds") d, dict_get (u "dead_letter_count") d with
      | Some (JStr n), Some (JInt k), Some (JFloat a), Some (JInt c) => Some (mkQueueStats n k a c)
      | _, _, _, _ => None
      end
  | _ => None
  end.
Definition QueueStats_json (q : QueueStats) : json :=
  JObj [(u "name", JStr (qs_name q)); (u "depth", JInt (qs_depth q));
        (u "oldest_job_age_seconds", JFloat (qs_oldest_job_age_seconds q));
        (u "dead_letter_count", JInt (qs_dead_letter_count q))].

(** [QueueListResponse] *)
Definition read_QueueListResponse (j : json) : option (list QueueStats) :=
  match j with
  | JObj d => match dict_get (u "queues") d with
              | Some (JArr l) => mapM read_QueueStats l
              | _ => None
              end
  | _ => None
  end.
Definition QueueListResponse_json (l : list QueueStats) : json :=
  JObj [(u "queues", JArr (QueueStats_json <$> l))].

(** [response_model=QueueListResponse]: the value is checked and rendered from the
    model. *)
Definition response_model (j : json) : result exn json :=
  match read_QueueListResponse j with
  | Some l => Ok (QueueListResponse_json l)
  | None => Raise (ValueError (u "response validation"))
  end.

(** ** The process *)

Section Server.
Context {R : Redis} {X : Scripting} {F : Framework} {E : Type}.
Variable api : Api.
Variable LUA_SCRIPT : pystr.

Record server_state : Type := mkSv {
  sv_world : World E;
  sv_scripts : ss;
  sv_limiter : option TokenBucketRateLimiter;
  sv_request_id : option pystr;     (* [request.state.request_id] of the request *)
  sv_log : list pystr;
  sv_requests : nat                 (* served so far *)
}.

Definition set_world (w : World E) (s : server_state) : server_state :=
  mkSv w (sv_scripts s) (sv_limiter s) (sv_request_id s) (sv_log s) (sv_requests s).
Definition set_limiter (l : option TokenBucketRateLimiter) (x : ss) (s : server_state) : server_state :=
  mkSv (sv_world s) x l (sv_request_id s) (sv_log s) (sv_requests s).
Definition set_request_id (i : option pystr) (s : server_state) : server_state :=
  mkSv (sv_world s) (sv_scripts s) (sv_limiter s) i (sv_log s) (sv_requests s).
Definition log_line (l : pystr) (s : server_state) : server_state :=
  mkSv (sv_world s) (sv_scripts s) (sv_limiter s) (sv_request_id s) (sv_log s ++ [l]) (sv_requests s).

(** The wall clock has moved; a new request. *)
Definition set_now (now : datetime) (w : World E) : World E :=
  mkWorld (w_redis w) (w_db w) now (w_mono w) (w_rand w) (w_metrics w) (w_env w).
Definition arrive (rd : reading) (s : server_state) : server_state :=
  mkSv (set_now (rd_now rd) (sv_world s)) (sv_scripts s) (sv_limiter s) None (sv_log s)
       (S (sv_requests s)).

Definition on_world {A} (m : M (World E) A) : M server_state A := zoom sv_world set_world m.

Definition json_response (status : Z) (headers : list (pystr * pystr)) (j : json) : Response :=
  mkResponse status (headers ++ [(u "content-type", u "application/json")]) (fw_render j).

(** The response to an [HTTPException] and to a failed validation. *)
Definition error_response (status : Z) (detail : json) (headers : list (pystr * pystr)) : Response :=
  json_response status headers (JObj [(u "detail", detail)]).
Definition unprocessable (errors : json) : Response := error_response 422 errors [].

(** An endpoint with its parameters, its response as JSON. *)
Definition call_endpoint (rd : reading) (req : Request) (e : endpoint) (params : list pystr)
    : M (World E) Response :=
  match e, params with
  | EnqueueJob, [] =>
      match fw_request (in_headers req) (in_body req) with
      | Raise errors => mret (unprocessable errors)
      | Ok fields =>
          match validate_request fields with
          | Raise exc => mret (unprocessable (fw_errors exc))
          | Ok r => j ← enqueue_job api (rd_hex rd) r; mret (json_response 201 [] j)
          end
      end
  | GetJobStatus, [jid] => j ← get_job_status api jid; mret (json_response 200 [] j)
  | ListQueues, [] =>
      oj ← list_queues api (rd_fuel rd);
      match oj with
      | Some j => j ← lift (response_model j); mret (json_response 200 [] j)
      | None => throw CancelledError
      end
  | ListDlq, [name] =>
      match fw_limit (in_query req) with
      | Raise errors => mret (unprocessable errors)
      | Ok limit => j ← list_dlq api name limit; mret (json_response 200 [] j)
      end
  | ReplayDlqJob, [name; jid] => j ← replay_dlq_job api name jid; mret (json_response 200 [] j)
  | _, _ => mret (error_response 404 (JStr (u "Not Found")) [])
  end.

(** The router and the exception handler around it. *)
Definition router (rd : reading) (req : Request) : M (World E) Response :=
  match dispatch (in_method req) (in_path req) with
  | RouteTo e params => call_endpoint rd req e params
  | MethodNotAllowed => mret (error_response 405 (JStr (u "Method Not Allowed")) [])
  | RedirectSlashes => mret (mkResponse 307 [(u "location", toggle_slash (in_path req))] [])
  | NotFound => mret (error_response 404 (JStr (u "Not Found")) [])
  end.

Definition app (rd : reading) (req : Request) : M (World E) Response :=
  try_except (router rd req)
    (fun exc => match exc with
                | HTTPException status detail headers =>
                    Some (mret (error_response status detail headers))
                | _ => None
                end).

(** *** The middlewares *)

Definition request_id_middleware (rd : reading) (req : Request)
    (call_next : M server_state Response) : M server_state Response :=
  let request_id := default (rd_uuid rd) (dict_get X_Request_Id (in_headers req)) in
  _ ← modify (set_request_id (Some request_id));
  response ← call_next;
  mret (mkResponse (out_status response)
                   (set_header X_Request_Id request_id (out_headers response)) (out_body response)).

Definition log_record (rd : reading) (req : Request) (i : option pystr) (status : Z) : pystr :=
  dumps (JObj [(u "request_id", from_option JStr JNull i);
               (u "method", JStr (in_method req));
               (u "path", JStr (request_url_path (in_path req)));
               (u "status", JInt status);
               (u "elapsed_seconds", JFloat (float_str (round3 (rd_elapsed rd))))]).

Definition structured_logging_middleware (rd : reading) (req : Request)
    (call_next : M server_state Response) : M server_state Response :=
  response ← call_next;
  s ← get;
  _ ← modify (log_line (log_record rd req (sv_request_id s) (out_status response)));
  mret response.

(** [if rate_limiter is None and redis_client is not None] *)
Definition create_limiter (s : server_state) : server_state :=
  match sv_limiter s with
  | None => if api_redis_client api then set_limiter (Some api_limiter) (sv_scripts s) s else s
  | Some _ => s
  end.

Definition too_many : Response :=
  mkResponse 429 [(u "retry-after", u "1"); (u "content-type", u "application/json")]
    (default [] (utf8_encode (dumps
       (JObj [(u "error", JStr (u "rate_limit_exceeded")); (u "retry_after", JInt 1)])))).

Definition rate_limit_middleware (rd : reading) (call_next : M server_state Response)
    : M server_state Response :=
  _ ← modify create_limiter;
  s ← get;
  match sv_limiter s with
  | Some l =>
      allowed ← (fun s => let '(r, (l', x)) := allow LUA_SCRIPT (rd_time rd) 1 (l, sv_scripts s) in
                          (r, set_limiter (Some l') x s));
      if negb allowed then mret too_many else call_next
  | None => call_next
  end.

(** *** One request *)

Definition internal_error : Response :=
  mkResponse 500 [(u "content-type", u "text/plain; charset=utf-8")] (u "Internal Server Error").

(** The outermost handler turns any [Exception] left into a 500. *)
Definition serve (rd : reading) (req : Request) : M server_state Response :=
  _ ← modify (arrive rd);
  except_Exception
    (rate_limit_middleware rd
       (structured_logging_middleware rd req
          (request_id_middleware rd req (on_world (app rd req)))))
    (fun _ => mret internal_error).

End Server.
Arguments server_state {R X} E.

(** ** What happens to a request *)

Lemma set_header_get k v h : dict_get k (set_header k v h) = Some v.
Proof.
  induction h as [|[k' v'] h IH]; cbn [set_header dict_get].
  - by rewrite decide_True.
  - case_decide as Hk.
    + cbn [dict_get]. by rewrite decide_True.
    + cbn [dict_get]. by rewrite decide_False by (by intros ->).
Qed.

(** The queues' statistics always fit the response model. *)
Lemma queue_stats_model {R : Redis} {E} prefix b name (w : World E) j w' :
  queue_stats prefix b name w = (Ok j, w') →
  ∃ q, read_QueueStats j = Some q ∧ QueueStats_json q = j.
Proof.
  unfold queue_stats. intros [(depth & w1 & _ & H)|(? & _ & [=])]%st_bind_inv.
  apply st_bind_inv in H as [(es & w2 & _ & H)|(? & _ & [=])].
  apply st_bind_inv in H as [(n & w3 & _ & H)|(? & _ & [=])]. injection H as <- _.
  by exists (mkQueueStats name depth (u "0.0") n).
Qed.

Lemma map_queues_model {R : Redis} {E} prefix b names (w : World E) l w' :
  map_queues prefix b names w = (Ok l, w') →
  ∃ qs, mapM read_QueueStats l = Some qs ∧ QueueStats_json <$> qs = l.
Proof.
  revert w l w'. induction names as [|name names IH]; intros w l w'; cbn [map_queues].
  { intros [= <- _]. by exists []. }
  intros [(j & w1 & Hj & H)|(? & _ & [=])]%st_bind_inv.
  apply st_bind_inv in H as [(js & w2 & Hjs & H)|(? & _ & [=])]. injection H as <- _.
  apply queue_stats_model in Hj as (q & Hq & Hqj). apply IH in Hjs as (qs & Hqs & Hqsj).
  exists (q :: qs). cbn. rewrite Hq. cbn. rewrite Hqs. cbn. by rewrite Hqj, Hqsj.
Qed.

Lemma list_queues_model {R : Redis} {E} api fuel (w : World E) j w' :
  list_queues api fuel w = (Ok (Some j), w') → response_model j = Ok j.
Proof.
  unfold list_queues. destruct (api_transport api) as [prefix|]; [|done].
  intros [(names & w1 & _ & H)|(? & _ & [=])]%st_bind_inv. destruct names as [names|]; [|done].
  apply st_bind_inv in H as [(l & w2 & Hl & H)|(? & _ & [=])].
  assert (j = JObj [(u "queues", JArr l)]) as -> by (by injection H).
  apply map_queues_model in Hl as (qs & Hqs & Hj). unfold response_model.
  assert (read_QueueListResponse (JObj [(u "queues", JArr l)]) = Some qs) as ->
    by (rewrite <- Hqs; reflexivity).
  unfold QueueListResponse_json. by rewrite Hj.
Qed.

Section Traced.
Context {R : Redis} {X : Scripting} {F : Framework} {E : Type}.
Variable api : Api.
Variable LUA_SCRIPT : pystr.

(** What the limiter answers to the request: [Ok true] when there is none. *)
Definition limiter_answer (rd : reading) (s : server_state E) : result exn bool :=
  match sv_limiter (create_limiter api s) with
  | Some l => (allow LUA_SCRIPT (rd_time rd) 1 (l, sv_scripts s)).1
  | None => Ok true
  end.

Definition traced (rd : reading) (req : Request) (resp : Response) : Response :=
  mkResponse (out_status resp)
    (set_header X_Request_Id (default (rd_uuid rd) (dict_get X_Request_Id (in_headers req)))
       (out_headers resp)) (out_body resp).

Lemma inner_run rd req (s : server_state E) :
  structured_logging_middleware rd req (request_id_middleware rd req (on_world (app api rd req))) s =
  let i := default (rd_uuid rd) (dict_get X_Request_Id (in_headers req)) in
  let '(r, w') := app api rd req (sv_world s) in
  let s1 := set_world w' (set_request_id (Some i) s) in
  match r with
  | Ok resp => (Ok (traced rd req resp), log_line (log_record rd req (Some i) (out_status resp)) s1)
  | Raise e => (Raise e, s1)
  end.
Proof.
  unfold structured_logging_middleware, request_id_middleware, on_world, zoom, modify, get, mbind,
    st_mbind, mret, st_mret. cbn.
  by destruct (app api rd req (sv_world s)) as [[resp|e] w'].
Qed.

Lemma serve_cases rd req (s : server_state E) r s' :
  serve api LUA_SCRIPT rd req s = (r, s') →
  let w := set_now (rd_now rd) (sv_world s) in
  match limiter_answer rd s with
  | Ok false => r = Ok too_many ∧ sv_world s' = w ∧ sv_log s' = sv_log s
  | Raise e => r = (if is_Exception e then Ok internal_error else Raise e) ∧
               sv_world s' = w ∧ sv_log s' = sv_log s
  | Ok true =>
      let '(a, w') := app api rd req w in
      sv_world s' = w' ∧
      match a with
      | Ok resp => r = Ok (traced rd req resp) ∧
          sv_log s' = sv_log s ++ [log_record rd req
             (Some (default (rd_uuid rd) (dict_get X_Request_Id (in_headers req)))) (out_status resp)]
      | Raise e => r = (if is_Exception e then Ok internal_error else Raise e) ∧ sv_log s' = sv_log s
      end
  end.
Proof.
  assert (∀ (s1 : server_state E) r1 s2,
    structured_logging_middleware rd req (request_id_middleware rd req (on_world (app api rd req))) s1 = (r1, s2) →
    except_Exception (λ _, (r1, s2)) (λ _, mret internal_error) s1 = (r, s') →
    let '(a, w') := app api rd req (sv_world s1) in
    sv_world s' = w' ∧
    match a with
    | Ok resp => r = Ok (traced rd req resp) ∧
        sv_log s' = sv_log s1 ++ [log_record rd req
           (Some (default (rd_uuid rd) (dict_get X_Request_Id (in_headers req)))) (out_status resp)]
    | Raise e => r = (if is_Exception e then Ok internal_error else Raise e) ∧ sv_log s' = sv_log s1
    end) as Hinner.
  { intros s1 r1 s2 H. rewrite inner_run in H. cbv zeta in H.
    destruct (app api rd req (sv_world s1)) as [[resp|e] w']; injection H as <- <-;
      unfold except_Exception, try_except; [by intros [= <- <-]|].
    destruct (is_Exception e); by intros [= <- <-]. }
  unfold serve, rate_limit_middleware, limiter_answer. intros H.
  erewrite st_bind_ok in H by done. set (s0 := arrive rd s) in *.
  assert (sv_limiter (create_limiter api s) = sv_limiter (create_limiter api s0)) as ->.
  { unfold create_limiter. change (sv_limiter s0) with (sv_limiter s).
    destruct (sv_limiter s) eqn:Hl; [by change (sv_limiter s0) with (sv_limiter s)|].
    destruct (api_redis_client api); [done|]. by change (sv_limiter s0) with (sv_limiter s). }
  assert (sv_scripts s = sv_scripts (create_limiter api s0) ∧ sv_world (create_limiter api s0) = sv_world s0 ∧
          sv_log (create_limiter api s0) = sv_log s) as (Hx & Hw & Hl).
  { unfold create_limiter. destruct (sv_limiter s0); [done|]. by destruct (api_redis_client api). }
  unfold except_Exception, try_except, mbind, st_mbind, modify, get in H. rewrite Hx.
  destruct (sv_limiter (create_limiter api s0)) as [l|] eqn:Hlim.
  - destruct (allow LUA_SCRIPT (rd_time rd) 1 (l, sv_scripts (create_limiter api s0))) as [[[]|e] [l' x]].
    + cbn [fst negb] in *. set (s1 := set_limiter (Some l') x (create_limiter api s0)) in *.
      destruct (structured_logging_middleware _ _ _ s1) as [r1 s2] eqn:Hs.
      specialize (Hinner s1 r1 s2 Hs H). change (sv_world s1) with (sv_world (create_limiter api s0)) in Hinner.
      change (sv_log s1) with (sv_log (create_limiter api s0)) in Hinner. by rewrite Hw, Hl in Hinner.
    + injection H as <- <-. cbn. by rewrite Hw.
    + cbn [fst] in *. destruct (is_Exception e); injection H as <- <-; cbn; by rewrite Hw.
  - destruct (structured_logging_middleware _ _ _ (create_limiter api s0)) as [r1 s2] eqn:Hs.
    specialize (Hinner _ r1 s2 Hs H). by rewrite Hw, Hl in Hinner.
Qed.

(** C26: what a request leaves behind.  A request the limiter refuses gets the 429
    and touches neither the queues nor the outbox; a request the app answers, errors
    included, keeps the caller's request id (or gets a fresh one) in its response
    and in exactly one log line with its method, path and status; a request whose
    endpoint raises anything the handlers do not know becomes a 500 without either.
    The 429 too is neither logged nor marked with the id. *)
Theorem request_traced rd req (s : server_state E) r s' :
  serve api LUA_SCRIPT rd req s = (r, s') →
  let i := default (rd_uuid rd) (dict_get X_Request_Id (in_headers req)) in
  let w := set_now (rd_now rd) (sv_world s) in
  (limiter_answer rd s = Ok false ∧ r = Ok too_many ∧ sv_world s' = w ∧ sv_log s' = sv_log s ∧
   dict_get X_Request_Id (out_headers too_many) = None) ∨
  (∃ resp resp', limiter_answer rd s = Ok true ∧ app api rd req w = (Ok resp, sv_world s') ∧
     r = Ok resp' ∧ out_status resp' = out_status resp ∧ out_body resp' = out_body resp ∧
     dict_get X_Request_Id (out_headers resp') = Some i ∧
     sv_log s' = sv_log s ++ [log_record rd req (Some i) (out_status resp)]) ∨
  (∃ e, (limiter_answer rd s = Raise e ∧ sv_world s' = w ∨
         limiter_answer rd s = Ok true ∧ app api rd req w = (Raise e, sv_world s')) ∧
     r = (if is_Exception e then Ok internal_error else Raise e) ∧ sv_log s' = sv_log s ∧
     dict_get X_Request_Id (out_headers internal_error) = None).
Proof.
  intros H%serve_cases. cbv zeta in *. destruct (limiter_answer rd s) as [[]|e].
  - destruct (app api rd req _) as [[resp|e] w']; destruct H as [-> [-> Hl]].
    + right. left. exists resp, (traced rd req resp). split_and!; try done. apply set_header_get.
    + right. right. exists e. split_and!; [by right|done..].
  - left. by destruct H as (-> & -> & ->).
  - right. right. exists e. destruct H as (-> & -> & ->). split_and!; [by left|done..].
Qed.

End Traced.

(** ** A concrete framework, and witnesses *)

Definition m_request (headers : list (pystr * pystr)) (body : list N) : result json EnqueueRequest :=
  match utf8_decode body ≫= loads with
  | Some (JObj d) => match typed_fields d with
                     | Some r => Ok r
                     | None => Raise (JStr (u "wrong type"))
                     end
  | _ => Raise (JStr (u "not an object"))
  end.

Definition m_limit (query : pystr) : result json Z :=
  match query with
  | [] => Ok 50
  | _ => match span_digits (drop 6 query) with
         | (_ :: _ as d, []) => if starts_with (u "limit=") query then Ok (Z.of_N (digits_val d))
                                else Ok 50
         | _ => Raise (JStr (u "not an integer"))
         end
  end.

#[export] Instance model_framework : Framework := {|
  fw_request := m_request;
  fw_errors exc := JStr (exn_str exc);
  fw_limit := m_limit;
  fw_render j := default [] (utf8_encode (dumps j))
|}.

#[export] Instance model_framework_spec : FrameworkSpec model_framework.
Proof.
  split.
  - intros headers body text d r _ Hb Hl Ht. cbn. unfold m_request. rewrite Hb. cbn [mbind option_bind]. by rewrite Hl, Ht.
  - intros headers body text d v Hb Hl Hd Hv. cbn. unfold m_request. rewrite Hb. cbn [mbind option_bind]. rewrite Hl.
    unfold typed_fields. rewrite Hd. destruct (dict_get (u "kind") d) as [[]|]; try done.
    destruct v; try done. by destruct (Hv l).
Qed.

Definition lua : pystr := u "lua".
Definition noon_reading : reading := mkReading noon 1000 (1#3) (u "fresh-id") (u "hex") 5.

(** The process after [lifespan]'s first half, on an empty server. *)
Definition fresh_process : server_state (R := model_redis) (X := model_scripting) unit :=
  mkSv (world_on fresh_server) no_scripts None None [] 0.

Definition status_request : Request :=
  mkHttp (u "GET") (u "/jobs/42") [] [(X_Request_Id, u "abc")] [].

Lemma request_traced_witness :
  let '(r, s') := serve started_api lua noon_reading status_request fresh_process in
  limiter_answer started_api lua noon_reading fresh_process = Ok true ∧
  sv_log s' = [log_record noon_reading status_request (Some (u "abc")) 200] ∧
  ∃ resp, r = Ok resp ∧ out_status resp = 200 ∧
          dict_get X_Request_Id (out_headers resp) = Some (u "abc").
Proof.
  destruct (serve started_api lua noon_reading status_request fresh_process) as [r s'] eqn:H.
  assert (limiter_answer started_api lua noon_reading fresh_process = Ok true) as Ha by (vm_compute; reflexivity).
  assert (∃ w', app started_api noon_reading status_request (set_now noon (sv_world fresh_process)) =
    (Ok (json_response 200 [] (JObj [(u "id", JStr (u "42")); (u "status", JStr (u "unknown"));
          (u "note", JStr (u "Status lookup requires a configured outbox store"))])), w')) as [w' Happ].
  { eexists. apply (run_eq (app started_api noon_reading status_request)). vm_compute. reflexivity. }
  apply request_traced in H as [(H & _)|[H|(e & H & _)]].
  - rewrite Ha in H. discriminate H.
  - destruct H as (resp & resp' & _ & H1 & H2 & H3 & _ & H5 & H6). split; [exact Ha|].
    change (rd_now noon_reading) with noon in H1. rewrite Happ in H1. injection H1 as <- _.
    split; [exact H6|]. exists resp'. split; [exact H2|]. split; [exact H3|exact H5].
  - exfalso. destruct H as [[H _]|[_ H]]; [rewrite Ha in H; discriminate H|].
    change (rd_now noon_reading) with noon in H. rewrite Happ in H. discriminate H.
Defined.
