(* ===== verification/Requests.v ===== *)
(** * Requests at their suspension points

    The endpoints, the limiter and the middlewares of [api/main.py] as coroutines:
    what the event loop interleaves when requests overlap.  Each command to Redis is
    awaited; the store, the validators and the framework are called without giving
    up the loop.  [serve_co] is one request; [serve_alone] checks that with nothing in
    between it is [Server.serve]. *)

From Stdlib Require Import String QArith.
From S2P Require Import Prelude PyStr Json Errors Coroutine Datetime Job Redis RedisModel Transport SqliteStore World Scenario Delivery Enqueue RateLimiter Api Url Routes Server.
Open Scope list_scope.
Open Scope Z_scope.

(** ** The endpoints *)

Section Endpoints.
Context {R : Redis} {E : Type}.

Definition wall_clock : M (World E) datetime := at_now (fun now => mret now).

(** POST /jobs *)
Definition enqueue_job_co (api : Api) (hex : pystr) (req : EnqueueRequest)
    : coroutine (World E) json :=
  match api_enqueuer api with
  | None => co_throw (not_ready (u "enqueuer not ready"))
  | Some enqueuer =>
      now ← co_sync wall_clock;
      let job := new_job hex now (JStr (req_kind req)) (JObj (req_payload req))
                         (JStr (req_queue req)) (JInt (req_max_retries req)) in
      entry_id ← co_try_except (enqueue_co enqueuer job (req_idempotency_key req) None)
                    (fun exc => match exc with
                                | QueueFull _ _ _ => Some (co_throw (queue_full_response exc))
                                | IdempotencyConflict _ =>
                                    Some (co_throw (HTTPException 409 (JStr (exn_str exc)) []))
                                | _ => None
                                end);
      mret (JObj [(u "job_id", job_id job); (u "stream_entry_id", rval_json entry_id);
                  (u "status", JStr (u "pending"))])
  end.

(** The SCAN loop of [transport.list_queues]. *)
Fixpoint scan_loop_co (prefix : pystr) (fuel : nat) (cursor : Z) (qs : list pystr)
    : coroutine (World E) (option (list pystr)) :=
  match fuel with
  | O => mret None
  | S fuel' =>
      ck ← co_await (on_redis (scan cursor (prefix ++ u ":*:stream") 100));
      qs' ← co_lift (add_keys ck.2 qs);
      if (ck.1 =? 0)%Z then mret (Some (py_sorted qs'))
      else scan_loop_co prefix fuel' ck.1 qs'
  end.

Definition queue_stats_co (prefix : pystr) (has_redis : bool) (name : pystr)
    : coroutine (World E) json :=
  depth ← co_await (on_redis (stream_length prefix name));
  _ ← co_await (on_redis (read_dlq prefix name (u "-") (u "+") 0));
  dlq_count ← (if has_redis then co_await (on_redis (xlen (_dlq_key prefix name))) else mret 0);
  mret (JObj [(u "name", JStr name); (u "depth", JInt depth);
              (u "oldest_job_age_seconds", JFloat (u "0.0"));
              (u "dead_letter_count", JInt dlq_count)]).

Fixpoint map_queues_co (prefix : pystr) (has_redis : bool) (names : list pystr)
    : coroutine (World E) (list json) :=
  match names with
  | [] => mret []
  | name :: names' =>
      s ← queue_stats_co prefix has_redis name;
      ss ← map_queues_co prefix has_redis names';
      mret (s :: ss)
  end.

(** GET /queues *)
Definition list_queues_co (api : Api) (fuel : nat) : coroutine (World E) (option json) :=
  match api_transport api with
  | None => co_throw (not_ready (u "transport not ready"))
  | Some prefix =>
      names ← scan_loop_co prefix fuel 0 [];
      match names with
      | None => mret None
      | Some names =>
          stats ← map_queues_co prefix (api_redis_client api) names;
          mret (Some (JObj [(u "queues", JArr stats)]))
      end
  end.

(** GET /queues/{name}/dlq *)
Definition list_dlq_co (api : Api) (name : pystr) (limit : Z) : coroutine (World E) json :=
  match api_transport api with
  | None => co_throw (not_ready (u "transport not ready"))
  | Some prefix =>
      entries ← co_await (on_redis (read_dlq prefix name (u "-") (u "+") limit));
      mret (JObj [(u "queue", JStr name); (u "entries", JArr (entry_json <$> entries));
                  (u "count", JInt (Z.of_nat (length entries)))])
  end.

(** POST /queues/{name}/dlq/{job_id}/replay *)
Definition replay_dlq_job_co (api : Api) (name jid : pystr) : coroutine (World E) json :=
  match api_transport api, api_enqueuer api with
  | Some prefix, Some enqueuer =>
      entry ← co_await (on_redis (read_dlq_entry prefix name jid));
      match entry with
      | None => co_throw (HTTPException 404 (JStr (u "job '" ++ jid ++ u "' not found in DLQ")) [])
      | Some entry =>
          now ← co_sync wall_clock;
          job ← co_lift (from_dict now (de_job entry));
          let job := set_attempts (JInt 0) (set_status (StStr (u "pending")) job) in
          entry_id ← enqueue_co enqueuer job None None;
          _ ← co_await (on_redis (delete_dlq_entry prefix name (de_entry_id entry)));
          mret (JObj [(u "job_id", job_id job); (u "new_stream_entry_id", rval_json entry_id);
                      (u "status", JStr (u "replayed"))])
      end
  | _, _ => co_throw (not_ready (u "not ready"))
  end.

(** With nothing in between, each is the function of [Api]. *)

Lemma co_run_lift {A} (r : result exn A) (w : World E) : co_run (co_lift r) w = lift r w.
Proof. done. Qed.

(** Reading the clock first, or when it is needed. *)
Lemma at_now_bind {A} (k : datetime → M (World E) A) w : (wall_clock ≫= k) w = at_now k w.
Proof. done. Qed.

Lemma enqueue_job_co_run api hex req w :
  co_run (enqueue_job_co api hex req) w = enqueue_job (E := E) api hex req w.
Proof.
  unfold enqueue_job_co, enqueue_job. destruct (api_enqueuer api) as [e|]; [|done].
  rewrite co_run_bind, <- at_now_bind. apply st_bind_ext; [apply co_run_sync|]. intros now w1.
  rewrite co_run_bind. apply st_bind_ext; [|done].
  rewrite co_run_try. apply try_ext; [apply enqueue_co_run|]. by intros [].
Qed.

Lemma scan_loop_co_run prefix fuel cursor qs w :
  co_run (scan_loop_co prefix fuel cursor qs) w = on_redis (scan_loop prefix fuel cursor qs) w.
Proof.
  revert cursor qs w. induction fuel as [|fuel IH]; intros cursor qs w; cbn [scan_loop_co scan_loop].
  { unfold on_redis, zoom. cbn. by rewrite with_redis_same. }
  rewrite co_run_bind. unfold mbind at 1, st_mbind at 1. rewrite co_run_await.
  unfold on_redis at 1 2, zoom, mbind at 2, st_mbind at 1.
  destruct (scan _ _ _ (w_redis w)) as [[ck|e] s1]; [|done]. rewrite co_run_bind.
  unfold mbind, st_mbind. cbn. destruct (add_keys ck.2 qs) as [qs'|e]; cbn; [|done].
  destruct (ck.1 =? 0); [done|]. rewrite IH. unfold on_redis, zoom. cbn.
  by destruct (scan_loop prefix fuel ck.1 qs' s1).
Qed.

Lemma queue_stats_co_run prefix b name w :
  co_run (queue_stats_co prefix b name) w = queue_stats (E := E) prefix b name w.
Proof. unfold queue_stats_co, queue_stats. do 2 co_step. rewrite co_run_bind. apply st_bind_ext; [|done]. destruct b; [apply co_run_await|done]. Qed.

Lemma map_queues_co_run prefix b names w :
  co_run (map_queues_co prefix b names) w = map_queues (E := E) prefix b names w.
Proof.
  revert w. induction names as [|name names IH]; intros w; [done|]. cbn [map_queues_co map_queues].
  rewrite co_run_bind. apply st_bind_ext; [apply queue_stats_co_run|]. intros s w1.
  rewrite co_run_bind. by apply st_bind_ext.
Qed.

Lemma list_queues_co_run api fuel w :
  co_run (list_queues_co api fuel) w = list_queues (E := E) api fuel w.
Proof.
  unfold list_queues_co, list_queues. destruct (api_transport api) as [prefix|]; [|done].
  rewrite co_run_bind. apply st_bind_ext; [apply scan_loop_co_run|]. intros [names|] w1; [|done].
  rewrite co_run_bind. apply st_bind_ext; [apply map_queues_co_run|done].
Qed.

Lemma list_dlq_co_run api name limit w :
  co_run (list_dlq_co api name limit) w = list_dlq (E := E) api name limit w.
Proof. unfold list_dlq_co, list_dlq. destruct (api_transport api); [|done]. by co_step. Qed.

Lemma replay_dlq_job_co_run api name jid w :
  co_run (replay_dlq_job_co api name jid) w = replay_dlq_job (E := E) api name jid w.
Proof.
  unfold replay_dlq_job_co, replay_dlq_job.
  destruct (api_transport api) as [prefix|], (api_enqueuer api) as [e|]; try done.
  co_step. destruct a as [entry|]; [|done].
  rewrite co_run_bind, <- at_now_bind. apply st_bind_ext; [apply co_run_sync|]. intros now w1.
  rewrite co_run_bind. apply st_bind_ext; [done|]. intros job w2.
  rewrite co_run_bind. apply st_bind_ext; [apply enqueue_co_run|]. intros id w3.
  rewrite co_run_bind. apply st_bind_ext; [apply co_run_await|done].
Qed.

End Endpoints.

(** ** The application and its middlewares *)

Section Serve.
Context {R : Redis} {X : Scripting} {F : Framework} {E : Type}.
Variable api : Api.
Variable LUA_SCRIPT : pystr.

Definition call_endpoint_co (rd : reading) (req : Request) (e : endpoint) (params : list pystr)
    : coroutine (World E) Response :=
  match e, params with
  | EnqueueJob, [] =>
      match fw_request (in_headers req) (in_body req) with
      | Raise errors => mret (unprocessable errors)
      | Ok fields =>
          match validate_request fields with
          | Raise exc => mret (unprocessable (fw_errors exc))
          | Ok r => j ← enqueue_job_co api (rd_hex rd) r; mret (json_response 201 [] j)
          end
      end
  | GetJobStatus, [jid] => j ← co_sync (get_job_status api jid); mret (json_response 200 [] j)
  | ListQueues, [] =>
      oj ← list_queues_co api (rd_fuel rd);
      match oj with
      | Some j => j ← co_lift (response_model j); mret (json_response 200 [] j)
      | None => co_throw CancelledError
      end
  | ListDlq, [name] =>
      match fw_limit (in_query req) with
      | Raise errors => mret (unprocessable errors)
      | Ok limit => j ← list_dlq_co api name limit; mret (json_response 200 [] j)
      end
  | ReplayDlqJob, [name; jid] => j ← replay_dlq_job_co api name jid; mret (json_response 200 [] j)
  | _, _ => mret (error_response 404 (JStr (u "Not Found")) [])
  end.

Definition router_co (rd : reading) (req : Request) : coroutine (World E) Response :=
  match dispatch (in_method req) (in_path req) with
  | RouteTo e params => call_endpoint_co rd req e params
  | MethodNotAllowed => mret (error_response 405 (JStr (u "Method Not Allowed")) [])
  | RedirectSlashes => mret (mkResponse 307 [(u "location", toggle_slash (in_path req))] [])
  | NotFound => mret (error_response 404 (JStr (u "Not Found")) [])
  end.

Definition app_co (rd : reading) (req : Request) : coroutine (World E) Response :=
  co_try_except (router_co rd req)
    (fun exc => match exc with
                | HTTPException status detail headers =>
                    Some (mret (error_response status detail headers))
                | _ => None
                end).

Abbreviation process := (server_state E).

Definition request_id_middleware_co (rd : reading) (req : Request)
    (call_next : coroutine process Response) : coroutine process Response :=
  let request_id := default (rd_uuid rd) (dict_get X_Request_Id (in_headers req)) in
  _ ← co_sync (modify (set_request_id (Some request_id)));
  response ← call_next;
  mret (mkResponse (out_status response)
                   (set_header X_Request_Id request_id (out_headers response)) (out_body response)).

Definition structured_logging_middleware_co (rd : reading) (req : Request)
    (call_next : coroutine process Response) : coroutine process Response :=
  response ← call_next;
  _ ← co_sync (modify (fun s => log_line (log_record rd req (sv_request_id s) (out_status response)) s));
  mret response.

(** [self._script_hash = ...] on the object every request shares. *)
Definition cache_hash (sha : pystr) (s : process) : process :=
  set_limiter (set_hash sha <$> sv_limiter s) (sv_scripts s) s.

Definition on_scripts {A} (m : M ss A) : M process A :=
  zoom sv_scripts (fun x s => set_limiter (sv_limiter s) x s) m.

(** [rate_limiter.allow()]; the hash it was created with or the one it has just
    cached is still there when the script is sent. *)
Definition allow_co (rd : reading) (l : TokenBucketRateLimiter) : coroutine process bool :=
  sha ← match _script_hash l with
        | Some sha => mret sha
        | None =>
            sha ← co_await (on_scripts (script_load LUA_SCRIPT));
            _ ← co_sync (modify (cache_hash sha));
            mret sha
        end;
  result ← co_await (on_scripts (evalsha sha (rl_key l) [rd_time rd; rate l; capacity l; 1%Q]));
  mret (negb (result =? 0)).

Definition rate_limit_middleware_co (rd : reading) (call_next : coroutine process Response)
    : coroutine process Response :=
  s ← co_sync (fun s => (Ok (create_limiter api s), create_limiter api s));
  match sv_limiter s with
  | Some l =>
      allowed ← allow_co rd l;
      if negb allowed then mret too_many else call_next
  | None => call_next
  end.

Definition on_process {A} (t : coroutine (World E) A) : coroutine process A :=
  co_zoom sv_world set_world t.

Definition serve_co (rd : reading) (req : Request) : coroutine process Response :=
  _ ← co_sync (modify (arrive rd));
  co_except_Exception
    (rate_limit_middleware_co rd
       (structured_logging_middleware_co rd req
          (request_id_middleware_co rd req (on_process (app_co rd req)))))
    (fun _ => mret internal_error).

(** *** With nothing in between *)

Lemma call_endpoint_co_run rd req e params w :
  co_run (call_endpoint_co rd req e params) w = call_endpoint api rd req e params w.
Proof.
  destruct e, params as [|a [|b [|c l]]]; try done; cbn [call_endpoint_co call_endpoint].
  - destruct (fw_request _ _) as [fields|]; [|done]. destruct (validate_request fields); [|done].
    rewrite co_run_bind. apply st_bind_ext; [apply enqueue_job_co_run|done].
  - rewrite co_run_bind. apply st_bind_ext; [apply co_run_sync|done].
  - rewrite co_run_bind. apply st_bind_ext; [apply list_queues_co_run|].
    intros [j|] w1; [|done]. rewrite co_run_bind. by apply st_bind_ext.
  - destruct (fw_limit _); [|done]. rewrite co_run_bind. apply st_bind_ext; [apply list_dlq_co_run|done].
  - rewrite co_run_bind. apply st_bind_ext; [apply replay_dlq_job_co_run|done].
Qed.

Lemma app_co_run rd req w : co_run (app_co rd req) w = app api rd req w.
Proof.
  unfold app_co, app. rewrite co_run_try. apply try_ext; [|by intros []].
  unfold router_co, router. destruct (dispatch _ _); try done. apply call_endpoint_co_run.
Qed.

Lemma on_process_run {A} (t : coroutine (World E) A) s : co_run (on_process t) s = on_world (co_run t) s.
Proof. apply co_run_zoom; [by intros ? []|by intros ? ? []|by intros []]. Qed.

(** The limiter's object and the server's scripts, as [allow] sees them. *)
Lemma allow_co_run rd l s :
  sv_limiter s = Some l →
  co_run (allow_co rd l) s =
  (let '(r, (l', x)) := allow LUA_SCRIPT (rd_time rd) 1 (l, sv_scripts s) in
   (r, set_limiter (Some l') x s)).
Proof.
  intros Hl. destruct s as [w x lim i log n]. cbn in Hl. subst lim.
  unfold allow_co, allow, on_scripts, cache_hash, zoom, modify, mbind, co_mbind, st_mbind, mret, co_mret, st_mret.
  cbn. destruct (_script_hash l) as [sha|] eqn:Hsha; cbn.
  - by destruct (evalsha sha _ _ x) as [[v|e] x2].
  - destruct (script_load LUA_SCRIPT x) as [[sha|e] x1]; cbn; [|done].
    by destruct (evalsha sha _ _ x1) as [[v|e] x2].
Qed.

Lemma inner_co_run rd req s :
  co_run (structured_logging_middleware_co rd req
            (request_id_middleware_co rd req (on_process (app_co rd req)))) s =
  structured_logging_middleware rd req (request_id_middleware rd req (on_world (app api rd req))) s.
Proof.
  unfold structured_logging_middleware_co, structured_logging_middleware, request_id_middleware_co,
    request_id_middleware.
  rewrite co_run_bind. apply st_bind_ext; [|done]. rewrite co_run_bind.
  apply st_bind_ext; [apply co_run_sync|]. intros _ s1. rewrite co_run_bind.
  apply st_bind_ext; [|done]. rewrite on_process_run. unfold on_world, zoom. by rewrite app_co_run.
Qed.

Lemma serve_alone rd req s :
  co_run (serve_co rd req) s = serve api LUA_SCRIPT rd req s.
Proof.
  unfold serve_co, serve. rewrite co_run_bind. apply st_bind_ext; [apply co_run_sync|].
  intros _ s1. rewrite co_run_except. apply except_ext; [|done].
  unfold rate_limit_middleware_co, rate_limit_middleware. rewrite co_run_bind.
  rewrite (st_bind_ok (modify (create_limiter api)) _ s1 tt (create_limiter api s1)) by done.
  set (s2 := create_limiter api s1) in *.
  rewrite (st_bind_ok _ _ s1 s2 s2) by done. rewrite (st_bind_ok get _ s2 s2 s2) by done.
  destruct (sv_limiter s2) as [l|] eqn:Hl; [|apply inner_co_run].
  rewrite co_run_bind. apply st_bind_ext; [by apply allow_co_run|]. intros [] s3; cbn [negb]; [|done].
  apply inner_co_run.
Qed.

End Serve.
