(* ===== verification/Embedding.v ===== *)
(** * Bodies that do what the system does

    A body of a larger process (an HTTP request) seen from [System]: outside its
    enqueues its steps are steps the system allows at any time; while it enqueues it
    takes the steps of one producer.  [runs_as] says so of a body, [settle_runs] and
    [effect_runs] turn each of its turns and commands into a run of [sys_step]. *)

From Stdlib Require Import String QArith.
From stdpp Require Import relations.
From S2P Require Import Prelude PyStr Json Errors Coroutine Datetime Job Redis RedisModel Transport SqliteStore World Delivery Enqueue Recover Runner System.
Open Scope list_scope.
Open Scope Z_scope.

Section Embedding.
Context {R : Redis} {RS : RedisSpec R} {E : Type}.
Variables (P : pystr) (D : Z) (N : nat).
#[local] Abbreviation sys_step := (System.sys_step (E := E) P D N).

(** The order in which the enqueues in flight are listed does not matter. *)
Lemma sys_step_perm w ws ps w' ws' ps' qs :
  sys_step (mkSys w ws ps) (mkSys w' ws' ps') → ps ≡ₚ qs →
  ∃ qs', sys_step (mkSys w ws qs) (mkSys w' ws' qs') ∧ ps' ≡ₚ qs'.
Proof.
  assert (∀ (l1 : list (producer E)) pr l2, l1 ++ pr :: l2 ≡ₚ qs →
    ∃ m1 m2, qs = m1 ++ pr :: m2 ∧ l1 ++ l2 ≡ₚ m1 ++ m2) as Hsplit.
  { intros l1 pr l2 Hp. assert (pr ∈ qs) as (m1 & m2 & ->)%list_elem_of_split
      by (rewrite <- Hp; set_solver).
    exists m1, m2. split; [done|]. by apply Permutation_app_inv in Hp. }
  intros H Hp. inversion H; subst.
  - exists qs. split; [by apply sys_worker|done].
  - exists qs. split; [by apply sys_new|done].
  - exists qs. split; [by apply sys_crash|done].
  - eexists. split; [apply sys_call; try done; by rewrite <- Hp|by rewrite Hp].
  - destruct (Hsplit _ _ _ Hp) as (m1 & m2 & -> & Hm). eexists. split; [by eapply sys_turn|].
    by rewrite <- !Permutation_middle, Hm.
  - destruct (Hsplit _ _ _ Hp) as (m1 & m2 & -> & Hm). eexists. split; [by eapply sys_await|].
    by rewrite <- !Permutation_middle, Hm.
  - destruct (Hsplit _ _ _ Hp) as (m1 & m2 & -> & Hm). eexists. split; [by eapply sys_abandon|].
    by rewrite <- !Permutation_middle, Hm.
  - destruct (Hsplit _ _ _ Hp) as (m1 & m2 & -> & Hm). eexists. split; [by eapply sys_return|done].
  - exists qs. split; [by eapply sys_ensure_group|done].
  - exists qs. split; [by eapply sys_late_read|done].
  - exists qs. split; [by eapply sys_recover|done].
  - exists qs. split; [by eapply sys_delete_dlq|done].
  - exists qs. split; [by eapply sys_elsewhere|done].
Qed.

Lemma sys_steps_perm w ws ps y qs :
  rtc sys_step (mkSys w ws ps) y → ps ≡ₚ qs →
  ∃ qs', rtc sys_step (mkSys w ws qs) (mkSys (sy_world y) (sy_workers y) qs') ∧ sy_producers y ≡ₚ qs'.
Proof.
  remember (mkSys w ws ps) as x eqn:Hx. intros H. revert w ws ps qs Hx.
  induction H as [x|x [w1 ws1 ps1] y Hxy _ IH]; intros w ws ps qs -> Hp; [by exists qs|].
  destruct (sys_step_perm _ _ _ _ _ _ _ Hxy Hp) as (qs1 & Hq & Hp1).
  destruct (IH w1 ws1 ps1 qs1 eq_refl Hp1) as (qs2 & Hq2 & Hp2). exists qs2.
  split; [by eapply rtc_l|done].
Qed.

(** What the code does to the world, the system may do at any time. *)
Definition steady_world (w w' : World E) : Prop :=
  ∀ ws ps, rtc sys_step (mkSys w ws ps) (mkSys w' ws ps).

#[export] Instance steady_refl : Reflexive steady_world.
Proof. intros w ws ps. reflexivity. Qed.
#[export] Instance steady_trans : Transitive steady_world.
Proof. intros w1 w2 w3 H1 H2 ws ps. etrans; [apply H1|apply H2]. Qed.

Lemma same_view_steady w w' : view (w_redis w') = view (w_redis w) → steady_world w w'.
Proof. intros H ws ps. by apply rtc_once, sys_elsewhere. Qed.

(** ** Bodies over a state with a world in it *)

Section Bodies.
Context {S : Type} (pw : S → World E) (uw : World E → S → S).
Hypothesis pw_uw : ∀ w s, pw (uw w s) = w.
Hypothesis uw_pw : ∀ s, uw (pw s) s = s.

Definition steady {A} (m : M S A) : Prop := ∀ s, steady_world (pw s) (pw (m s).2).

(** [runs_as None c]: between enqueues; [runs_as (Some t) c]: within one, whose
    producer has [t] to do. *)
Inductive runs_as {A} : option (coroutine (World E) rval) → coroutine S A → Prop :=
| as_ret r : runs_as None (CoRet r)
| as_sync X (m : M S X) k : steady m → (∀ r, runs_as None (k r)) → runs_as None (CoSync m k)
| as_await X (m : M S X) k : steady m → (∀ r, runs_as None (k r)) → runs_as None (CoAwait m k)
| as_call e job key validate c :
    enq_prefix e = P → max_queue_depth e = D →
    runs_as (Some (enqueue_co e job key validate)) c → runs_as None c
| as_return r c : runs_as None c → runs_as (Some (CoRet r)) c
| as_own_sync X (m : M (World E) X) k (m' : M S X) k' :
    (∀ s, m' s = zoom pw uw m s) → (∀ r, runs_as (Some (k r)) (k' r)) →
    runs_as (Some (CoSync m k)) (CoSync m' k')
| as_own_await X (m : M (World E) X) k (m' : M S X) k' :
    (∀ s, m' s = zoom pw uw m s) → (∀ r, runs_as (Some (k r)) (k' r)) →
    runs_as (Some (CoAwait m k)) (CoAwait m' k').

Lemma runs_as_then {A B} o (c : coroutine S A) (f : result exn A → coroutine S B) :
  runs_as o c → (∀ r, runs_as None (f r)) → runs_as o (co_then c f).
Proof.
  intros Hc Hf. induction Hc; cbn [co_then]; try by econstructor. apply Hf.
Qed.

Lemma runs_as_bind {A B} o (c : coroutine S A) (f : A → coroutine S B) :
  runs_as o c → (∀ a, runs_as None (f a)) → runs_as o (c ≫= f).
Proof. intros Hc Hf. apply runs_as_then; [done|]. intros [a|e]; [apply Hf|apply as_ret]. Qed.

Lemma runs_as_try {A} o (c : coroutine S A) h :
  runs_as o c → (∀ e k, h e = Some k → runs_as None k) → runs_as o (co_try_except c h).
Proof.
  intros Hc Hh. apply runs_as_then; [done|]. intros [a|e]; [apply as_ret|].
  destruct (h e) eqn:He; [by eapply Hh|apply as_ret].
Qed.

Lemma runs_as_except {A} o (c : coroutine S A) h :
  runs_as o c → (∀ e, runs_as None (h e)) → runs_as o (co_except_Exception c h).
Proof.
  intros Hc Hh. apply runs_as_then; [done|]. intros [a|e]; [apply as_ret|].
  destruct (is_Exception e); [apply Hh|apply as_ret].
Qed.

Lemma runs_as_await {A} (m : M S A) : steady m → runs_as None (co_await m).
Proof. intros H. apply as_await; [done|]. intros r. apply as_ret. Qed.
Lemma runs_as_sync {A} (m : M S A) : steady m → runs_as None (co_sync m).
Proof. intros H. apply as_sync; [done|]. intros r. apply as_ret. Qed.

(** ** Its turns and commands, as the system's *)

Definition fresh_producers (o : option (producer E)) : list (producer E) := from_option (λ pr, [pr]) [] o.

(** From [w] on, without an enqueue of its own in flight. *)
Definition free_run {A} (w w' : World E) (c : coroutine S A) : Prop :=
  ∀ ws ps, (length ps < N)%nat →
  ∃ o, rtc sys_step (mkSys w ws ps) (mkSys w' ws (ps ++ fresh_producers o)) ∧
       runs_as (pr_code <$> o) c ∧ ∀ pr, o = Some pr → pr_gone pr = false.

Lemma free_run_steady {A} w w1 w2 (c : coroutine S A) :
  steady_world w w1 → free_run w1 w2 c → free_run w w2 c.
Proof.
  intros Hs Hf ws ps Hps. destruct (Hf ws ps Hps) as (o & Ho & Hr). exists o.
  split; [|done]. etrans; [apply Hs|done].
Qed.

Lemma settle_rest_cases {A} (t : coroutine (World E) A) w t' w' :
  settle t w = (t', w') → (∃ r, t' = CoRet r) ∨ ∃ X (m : M (World E) X) k, t' = CoAwait m k.
Proof. intros H%settle_rest. destruct t'; eauto. done. Qed.

(** One producer does a turn, and is gone when it has returned. *)
Lemma called w ws ps e job key validate t' w' :
  enq_prefix e = P → max_queue_depth e = D → (length ps < N)%nat →
  settle (enqueue_co e job key validate) w = (t', w') →
  ∃ pr, pr_code pr = t' ∧ pr_gone pr = false ∧
        rtc sys_step (mkSys w ws ps) (mkSys w' ws (ps ++ [pr])).
Proof.
  intros He Hd HN Hs.
  exists (mkProducer (py_str (job_queue job)) t' false). split_and!; [done..|].
  eapply rtc_l; [by apply (sys_call P D N e job key validate)|].
  by eapply rtc_once, (sys_turn P D N ps (mkProducer _ _ false) []).
Qed.

Lemma returned w ws ps pr r :
  pr_code pr = CoRet r → rtc sys_step (mkSys w ws (ps ++ [pr])) (mkSys w ws ps).
Proof.
  intros Hr. apply rtc_once. pose proof (sys_return P D N ps pr [] ws w r (or_introl Hr)) as H.
  by rewrite app_nil_r in H.
Qed.

Lemma settle_runs {A} o (c : coroutine S A) :
  runs_as o c → ∀ s code s', settle c s = (code, s') →
  match o with
  | None => free_run (pw s) (pw s') code
  | Some t => let '(t', w1) := settle t (pw s) in
              match t' with
              | CoRet _ => free_run w1 (pw s') code
              | _ => pw s' = w1 ∧ runs_as (Some t') code
              end
  end.
Proof.
  induction 1 as [r|X m k Hm _ IH|X m k Hm Hk _|e job key v c He Hd Hc IH|r c Hc IH|X m k m' k' Hm _ IH
    |X m k m' k' Hm Hk _]; intros s code s' Hs; cbn [settle] in *.
  - injection Hs as <- <-. intros ws ps _. exists None. cbn. rewrite app_nil_r. split_and!; [done|constructor|done].
  - specialize (Hm s). destruct (m s) as [r s1]. eapply free_run_steady; [exact Hm|]. by eapply IH.
  - injection Hs as <- <-. intros ws ps _. exists None. cbn. rewrite app_nil_r.
    split_and!; [done|by constructor|done].
  - specialize (IH s code s' Hs). destruct (settle (enqueue_co e job key v) (pw s)) as [t' w1] eqn:Ht.
    intros ws ps Hps. destruct (called (pw s) ws ps e job key v t' w1 He Hd Hps Ht) as (pr & Hpr & Hg & Hrun).
    destruct (settle_rest_cases _ _ _ _ Ht) as [[r ->]|(X & m & k & ->)].
    + destruct (IH ws ps Hps) as (o & Ho & Hrest). exists o. split; [|done].
      etrans; [exact Hrun|]. etrans; [by eapply returned|done].
    + destruct IH as [-> Hrest]. exists (Some pr). cbn. rewrite Hpr. split_and!; [done|done|].
      by intros ? [= <-].
  - by eapply IH.
  - rewrite Hm in Hs. unfold zoom in Hs. destruct (m (pw s)) as [r w1].
    specialize (IH r _ _ _ Hs). by rewrite pw_uw in IH.
  - injection Hs as <- <-. split; [done|]. by constructor.
Qed.

(** The command that a body waits for. *)
Lemma effect_runs {A} o (c : coroutine S A) :
  runs_as o c → ∀ s code s', take_effect c s = Some (code, s') →
  match o with
  | None => free_run (pw s) (pw s') code
  | Some t => (∃ r, t = CoRet r) ∧ free_run (pw s) (pw s') code ∨
              ∃ X (m : M (World E) X) k r, t = CoAwait m k ∧ m (pw s) = (r, pw s') ∧
                runs_as (Some (woken r k)) code
  end.
Proof.
  induction 1 as [r|X m k Hm Hk _|X m k Hm Hk _|e job key v c He Hd Hc IH|r c Hc IH|X m k m' k' Hm Hk _
    |X m k m' k' Hm Hk _]; intros s code s' Hs; cbn [take_effect] in *; try done.
  - specialize (Hm s). destruct (m s) as [r s1]. injection Hs as <- <-.
    eapply free_run_steady; [exact Hm|]. intros ws ps _. exists None. cbn. rewrite app_nil_r.
    split_and!; [done| |done]. constructor; [|done]. intros s2. reflexivity.
  - specialize (IH s code s' Hs). intros ws ps Hps.
    destruct (IH) as [[[r Hr] _]|(X & m & k & r & Ht & Hm & Hrest)].
    { unfold enqueue_co in Hr. by destruct v. }
    pose (pr := mkProducer (E := E) (py_str (job_queue job)) (enqueue_co e job key v) false).
    exists (Some (with_pr_code pr (woken r k))). cbn. split_and!; [|done|by intros ? [= <-]].
    eapply rtc_l; [by apply (sys_call P D N e job key v)|].
    by eapply rtc_once, (sys_await P D N ps pr []).
  - left. split; [eauto|]. by eapply IH.
  - right. rewrite Hm in Hs. unfold zoom in Hs. destruct (m (pw s)) as [r w1] eqn:Hmw.
    injection Hs as <- <-. exists X, m, k, r. rewrite pw_uw. split_and!; [done..|].
    constructor; [|done]. intros s2. unfold zoom. by rewrite uw_pw.
Qed.

End Bodies.

(** A body over the world alone, as part of a larger process. *)
Section Lift.
Context {S : Type} (pw : S → World E) (uw : World E → S → S).
Hypothesis pw_uw : ∀ w s, pw (uw w s) = w.

Definition keep_world (w : World E) : World E := w.
Definition new_world (w _ : World E) : World E := w.
#[local] Abbreviation world_runs_as := (runs_as keep_world new_world).

(** An enqueue and what follows it. *)
Lemma enqueue_runs e job key validate :
  enq_prefix e = P → max_queue_depth e = D → world_runs_as None (enqueue_co e job key validate).
Proof.
  intros He Hd. apply (as_call _ _ e job key validate); [done..|].
  induction (enqueue_co e job key validate) as [r|X m k IH|X m k IH].
  - apply as_return, as_ret.
  - apply as_own_sync; [|done]. intros s. unfold zoom, keep_world, new_world. by destruct (m s).
  - apply as_own_await; [|done]. intros s. unfold zoom, keep_world, new_world. by destruct (m s).
Qed.

Lemma lift_runs {A B} o (t : coroutine (World E) A) (f : result exn A → coroutine S B) :
  world_runs_as o t → (∀ r, runs_as pw uw None (f r)) →
  runs_as pw uw o (co_then (co_zoom pw uw t) f).
Proof.
  intros Ht Hf. induction Ht as [r|X m k Hm _ IH|X m k Hm _ IH|e job key v c He Hd _ IH|r c _ IH
    |X m k m' k' Hm _ IH|X m k m' k' Hm _ IH]; cbn [co_zoom co_then].
  - apply Hf.
  - apply as_sync; [|done]. intros s. specialize (Hm (pw s)). unfold zoom.
    destruct (m (pw s)) as [r w1]. cbn. by rewrite pw_uw.
  - apply as_await; [|done]. intros s. specialize (Hm (pw s)). unfold zoom.
    destruct (m (pw s)) as [r w1]. cbn. by rewrite pw_uw.
  - by eapply as_call.
  - by apply as_return.
  - apply as_own_sync; [|done]. intros s. specialize (Hm (pw s)). unfold zoom in *. rewrite Hm.
    unfold keep_world, new_world. by destruct (m (pw s)).
  - apply as_own_await; [|done]. intros s. specialize (Hm (pw s)). unfold zoom in *. rewrite Hm.
    unfold keep_world, new_world. by destruct (m (pw s)).
Qed.
End Lift.

End Embedding.
