(* ===== verification/Recovery.v ===== *)
(** * The recovery loop among the others: [RecoveryWorker.recover_loop]

    [Recover] has the loop with the effects of its sleeps given.  Here it is a
    coroutine over the world and its [_running] flag: one command per queue, one
    sleep per round.  [recover_step] interleaves it with the system, with [stop()] and
    with cancellation.  Its own steps are steps of [System], and once [stop()] was
    called it ends within the rest of its round.

    The [while] loop is unfolded [rounds] times; [false] is the result of a loop that
    is still running then. *)

From Stdlib Require Import String QArith.
From stdpp Require Import relations.
From S2P Require Import Prelude PyStr Json Errors Coroutine Datetime Job Redis RedisModel Transport World Scenario Delivery Enqueue Recover Evolution Runner System Guarantees Embedding.
Open Scope list_scope.
Open Scope Z_scope.

Section Loop.
Context {R : Redis} {E : Type}.

(** The world, and the worker's [_running]. *)
Abbreviation loop_state := (World E * bool)%type.

Definition put_world (w : World E) (s : loop_state) : loop_state := (w, s.2).
Definition get_running : M loop_state bool := λ s, (Ok s.2, s).
Definition set_running (b : bool) : M loop_state unit := λ s, (Ok tt, (s.1, b)).
(** [stop()] *)
Definition stop : M loop_state unit := set_running false.

Definition _claim_stale_co (rw : RecoveryWorker) (queue : pystr) : coroutine (World E) unit :=
  claimed ← co_await (on_redis_now (λ now, autoclaim_stale (rec_prefix rw) now queue (rec_worker_id rw)
                                                           (min_idle_ms rw) (claim_batch rw)));
  co_sync (for_each claimed (λ _, mret tt)).

(** [for queue in queues] *)
Fixpoint claim_round (rw : RecoveryWorker) (queues : list pystr) : coroutine loop_state unit :=
  match queues with
  | [] => mret tt
  | queue :: queues' =>
      _ ← co_except_Exception (co_zoom fst put_world (_claim_stale_co rw queue)) (λ _, mret tt);
      claim_round rw queues'
  end.

(** [asyncio.sleep(CLAIM_INTERVAL)]: what happens meanwhile is done by others. *)
Definition sleep : coroutine loop_state unit := co_await (mret tt).

(** [while self._running] *)
Fixpoint while_running (rw : RecoveryWorker) (queues : list pystr) (rounds : nat)
    : coroutine loop_state bool :=
  running ← co_sync get_running;
  if running : bool then
    match rounds with
    | O => mret false
    | Datatypes.S rounds' =>
        _ ← claim_round rw queues;
        _ ← sleep;
        while_running rw queues rounds'
    end
  else mret true.

Definition recover_loop_co (rw : RecoveryWorker) (queues : list pystr) (rounds : nat)
    : coroutine loop_state bool :=
  _ ← co_sync (set_running true);
  while_running rw queues rounds.

(** ** With nothing in between *)

Lemma claim_stale_co_run rw q w : co_run (_claim_stale_co rw q) w = _claim_stale rw q w.
Proof. unfold _claim_stale_co, _claim_stale. co_step. apply co_run_sync. Qed.

Lemma claim_round_run rw queues s :
  co_run (claim_round rw queues) s = zoom fst put_world (recover_round rw queues) s.
Proof.
  revert s. induction queues as [|q queues IH]; intros [w b]; [done|].
  cbn [claim_round]. rewrite co_run_bind. unfold mbind at 1, st_mbind. rewrite co_run_except.
  unfold except_Exception at 1, try_except. rewrite co_run_zoom by (by try intros []).
  unfold zoom, recover_round in *. cbn [for_each fst].
  unfold mbind at 1, st_mbind, except_Exception, try_except. rewrite claim_stale_co_run.
  destruct (_claim_stale rw q w) as [[[]|e] w1]; cbn [put_world snd].
  - by rewrite IH.
  - destruct (is_Exception e); [|done]. cbn. by rewrite IH.
Qed.

Definition idle : World E → World E * bool := λ w, (w, false).

(** One turn of the [while] loop. *)
Lemma round_run rw queues n w :
  co_run (while_running rw queues (Datatypes.S n)) (w, true) =
  match recover_round rw queues w with
  | (Ok _, w') => co_run (while_running rw queues n) (w', true)
  | (Raise e, w') => (Raise e, (w', true))
  end.
Proof.
  cbn [while_running]. rewrite co_run_bind. unfold mbind at 1, st_mbind. rewrite co_run_sync.
  cbn [get_running snd]. rewrite co_run_bind. unfold mbind at 1, st_mbind. rewrite claim_round_run.
  unfold zoom, put_world. cbn [fst snd]. by destruct (recover_round rw queues w) as [[[]|e] w1].
Qed.

Lemma while_running_run rw queues n w :
  co_run (while_running rw queues (Datatypes.S n)) (w, true) =
  let '(r, w') := recover_loop rw queues (replicate n idle) w in (r, (w', true)).
Proof.
  revert w. induction n as [|n IH]; intros w; rewrite round_run; cbn [replicate recover_loop];
    unfold mbind at 1, st_mbind; destruct (recover_round rw queues w) as [[[]|e] w1]; done.
Qed.

(** The loop alone is [Recover.recover_loop] with idle sleeps. *)
Theorem recover_loop_alone rw queues n w b :
  co_run (recover_loop_co rw queues (Datatypes.S n)) (w, b) =
  let '(r, w') := recover_loop rw queues (replicate n idle) w in (r, (w', true)).
Proof.
  unfold recover_loop_co. rewrite co_run_bind. unfold mbind at 1, st_mbind. rewrite co_run_sync.
  apply while_running_run.
Qed.

End Loop.

(** ** Interleaved *)

Section State.
Context {R : Redis} {RS : RedisSpec R} {E : Type}.

(** The system, the flag, and what the loop's task has left to do. *)
Record recovering : Type := mkRecovering {
  rv_sys : sys E;
  rv_running : bool;
  rv_code : coroutine (World E * bool) bool
}.

Definition on_world (w : World E) (x : sys E) : sys E := mkSys w (sy_workers x) (sy_producers x).

Definition is_sync {S A} (c : coroutine S A) : bool := match c with CoSync _ _ => true | _ => false end.

(** A turn of the loop's task, or the effect of its command. *)
Inductive own_step : recovering → recovering → Prop :=
| rl_turn x b c w' b' c' :
    is_sync c = true → settle c (sy_world x, b) = (c', (w', b')) →
    own_step (mkRecovering x b c) (mkRecovering (on_world w' x) b' c')
| rl_command x b c w' b' c' :
    take_effect c (sy_world x, b) = Some (c', (w', b')) →
    own_step (mkRecovering x b c) (mkRecovering (on_world w' x) b' c').

Variables (P : pystr) (D : Z) (N : nat).

(** [task.cancel()]: the pending [await] raises CancelledError, whether its command has
    taken effect or not; one already sent may still be applied later ([sys_recover]). *)
Inductive cancel_step : recovering → recovering → Prop :=
| rl_cancel x b X (m : M (World E * bool) X) k :
    cancel_step (mkRecovering x b (CoAwait m k)) (mkRecovering x b (woken (Raise CancelledError) k))
| rl_cancel_woken x b X (r : result exn X) k :
    cancel_step (mkRecovering x b (woken r k)) (mkRecovering x b (woken (Raise CancelledError) k)).

(** What happens around it: a step of the system, [stop()], its cancellation. *)
Inductive other_step : recovering → recovering → Prop :=
| rl_system x y b c :
    sys_step P D N x y → other_step (mkRecovering x b c) (mkRecovering y b c)
| rl_stop x b c r w' b' :
    stop (sy_world x, b) = (r, (w', b')) →
    other_step (mkRecovering x b c) (mkRecovering (on_world w' x) b' c)
| rl_cancelled x y : cancel_step x y → other_step x y.

Definition recover_step (x y : recovering) : Prop := own_step x y ∨ other_step x y.

(** [n] steps of the loop's own, and any number of others. *)
Inductive own_run : nat → recovering → recovering → Prop :=
| own_refl x : own_run 0 x x
| own_own n x y z : own_step x y → own_run n y z → own_run (Datatypes.S n) x z
| own_other n x y z : other_step x y → own_run n y z → own_run n x z.

(** The task after its first turn. *)
Definition started (rw : RecoveryWorker) (queues : list pystr) (rounds : nat) (x : recovering) : Prop :=
  ∃ y b, own_step (mkRecovering y b (recover_loop_co rw queues rounds)) x.

End State.
Arguments recovering {R} E.

(** ** The loop's steps are the system's *)

Section Refines.
Context {R : Redis} {RS : RedisSpec R} {E : Type}.
Variables (P : pystr) (D : Z) (N : nat).
#[local] Abbreviation sys_step := (System.sys_step (E := E) P D N).
#[local] Abbreviation recover_step := (recover_step (E := E) P D N).

Variables (rw : RecoveryWorker) (queues : list pystr).
Hypothesis own_prefix : rec_prefix rw = P.

(** The sleep, or a claim on one of its queues. *)
Definition sleeps_or_claims (w w' : World E) : Prop :=
  w' = w ∨ ∃ q, q ∈ queues ∧ w' = (_claim_stale rw q w).2.

(** Its commands are claims, which the system allows at any time. *)
Definition claim_await (_ : unit) (X : Type) (_ : M (World E * bool) X) (s : World E * bool)
    (_ : result exn X) (s' : World E * bool) (_ : unit) : Prop := sleeps_or_claims s.1 s'.1.

Lemma claims_system w w' :
  sleeps_or_claims w w' → steady_world P D N w w' ∧ world_claims w w'.
Proof.
  intros [->|(q & _ & ->)].
  - split; [done|]. split; [done|by split].
  - split; [|exact (claim_stale_claims rw q w)]. intros ws ps. apply rtc_once.
    destruct (_claim_stale rw q w) as [r w'] eqn:Hc. by eapply sys_recover.
Qed.
Definition same_world (s s' : World E * bool) : Prop := s'.1 = s.1.
#[local] Instance same_world_refl : Reflexive same_world.
Proof. by intros s. Qed.
#[local] Instance same_world_trans : Transitive same_world.
Proof. intros s1 s2 s3. unfold same_world. congruence. Qed.
#[local] Abbreviation only_claims := (obeys same_world claim_await tt).

Lemma claims_then {A B} (t : coroutine (World E * bool) A) (f : result exn A → coroutine (World E * bool) B) :
  only_claims t → (∀ r, only_claims (f r)) → only_claims (co_then t f).
Proof.
  intros Ht Hf. induction t as [r|X m k IH|X m k IH]; cbn [co_then obeys] in *; [done|..];
    destruct Ht as [Hm Hc]; (split; [|by apply IH]); intros s r s' H.
  - destruct (Hm s r s' H). split; [done|by apply IH].
  - destruct (Hm s r s' H) as ([] & Ha & Hk & Hk'). exists tt. split_and!; [done|by apply IH..].
Qed.

Lemma claims_bind {A B} (t : coroutine (World E * bool) A) (f : A → coroutine (World E * bool) B) :
  only_claims t → (∀ a, only_claims (f a)) → only_claims (t ≫= f).
Proof. intros Ht Hf. apply claims_then; [done|]. by intros [a|e]; [apply Hf|]. Qed.

(** Logging changes nothing. *)
Lemma log_each {A} (l : list A) (w : World E) : for_each (E := exn) l (λ _, mret tt) w = (Ok tt, w).
Proof. by induction l as [|x l IH]. Qed.

Lemma claimed_now q w r w' :
  on_redis_now (λ now, autoclaim_stale (rec_prefix rw) now q (rec_worker_id rw) (min_idle_ms rw)
                                       (claim_batch rw)) w = (r, w') →
  w' = (_claim_stale (E := E) rw q w).2.
Proof.
  unfold _claim_stale, mbind, st_mbind. intros ->. destruct r as [l|e]; [|done].
  cbn. by rewrite log_each.
Qed.

Lemma claim_obeys q : q ∈ queues → only_claims (co_zoom fst put_world (_claim_stale_co rw q)).
Proof.
  intros Hq. cbn. split; [|done]. intros [w b] r [w' b'] H. unfold zoom in H. cbn in H.
  destruct (on_redis_now _ w) as [r1 w1] eqn:Hm. injection H as <- <- <-. apply claimed_now in Hm.
  exists tt. split; [right; by exists q|]. split; [|done].
  destruct r1 as [l|e]; cbn; [|done]. split; [|done]. intros [w2 b2] r s' H.
  unfold zoom in H. cbn in H. split; [|by destruct r as [[]|]]. rewrite log_each in H. by injection H as <- <-.
Qed.

Lemma claim_round_obeys qs : qs ⊆ queues → only_claims (claim_round rw qs).
Proof.
  induction qs as [|q qs IH]; intros Hsub; [done|]. cbn [claim_round].
  apply claims_bind; [|intros []; apply IH; set_solver]. apply claims_then; [apply claim_obeys; set_solver|].
  intros [[]|e]; [done|]. by destruct (is_Exception e).
Qed.

Lemma flag_obeys : only_claims (co_sync get_running).
Proof. cbn. split; [|done]. by intros [w b] r s' [= <- <-]. Qed.

Lemma loop_obeys n : only_claims (while_running rw queues n).
Proof.
  induction n as [|n IH]; cbn [while_running]; apply (claims_bind (co_sync get_running)); try apply flag_obeys;
    (intros [|]; [|done]); [done|].
  apply (claims_bind (claim_round rw queues)); [by apply claim_round_obeys|].
  intros _. apply (claims_bind sleep); [|by intros []]. cbn. split; [|done].
  intros s r s' [= <- <-]. exists tt. split; [by left|done].
Qed.

Lemma loop_co_obeys n : only_claims (recover_loop_co rw queues n).
Proof.
  apply (claims_bind (co_sync (set_running true))); [|intros _; by apply loop_obeys].
  cbn. split; [|done]. by intros s r s' [= <- <-].
Qed.

Definition claiming (x : recovering E) : Prop := only_claims (rv_code x).

(** Its own steps. *)
Lemma own_step_claims x y :
  own_step x y → claiming x →
  sleeps_or_claims (sy_world (rv_sys x)) (sy_world (rv_sys y)) ∧
  rtc sys_step (rv_sys x) (rv_sys y) ∧ claiming y.
Proof.
  intros H Hc. destruct H as [[w ws ps] b c w' b' c' _ Hs|[w ws ps] b c w' b' c' Hs];
    unfold claiming, on_world in *; cbn in *.
  - destruct (obeys_settle _ _ _ _ _ _ _ Hc Hs) as [Hw Hc']. unfold same_world in Hw. cbn in Hw. subst w'.
    split_and!; [by left|done..].
  - destruct c as [r|X m k|X m k]; [done..|]. cbn in Hs, Hc. destruct (m (w, b)) as [r s'] eqn:Hm.
    injection Hs as <- ->. destruct Hc as [Hc _]. destruct (Hc _ _ _ Hm) as ([] & Hcl & Hk & Hk').
    split; [exact Hcl|]. split; [by apply claims_system|by apply obeys_woken].
Qed.

Lemma other_step_system x y :
  other_step P D N x y → claiming x → rtc sys_step (rv_sys x) (rv_sys y) ∧ claiming y.
Proof.
  intros H Hc. destruct H as [x y b c H|[w ws ps] b c r w' b' [= <- <- <-]|x y H]; cbn.
  - split; [by apply rtc_once|done].
  - by split.
  - destruct H as [x b X m k|x b X r k]; (split; [done|]); destruct Hc as [_ Hc]; by apply obeys_woken.
Qed.

Lemma recover_run_system x y :
  rtc recover_step x y → claiming x → rtc sys_step (rv_sys x) (rv_sys y) ∧ claiming y.
Proof.
  induction 1 as [x|x y z Hxy _ IH]; intros Hc; [by split|].
  assert (rtc sys_step (rv_sys x) (rv_sys y) ∧ claiming y) as [H1 Hc'].
  { destruct Hxy as [H|H]; [by destruct (own_step_claims _ _ H Hc) as (_ & ? & ?)|by apply other_step_system]. }
  destruct (IH Hc') as [H2 Hc2]. split; [by etrans|done].
Qed.

End Refines.

Section Contract.
Context {R : Redis} {RS : RedisSpec R} {E : Type}.
Variables (P : pystr) (D : Z) (N : nat).
#[local] Abbreviation sys_step := (System.sys_step (E := E) P D N).
#[local] Abbreviation recover_step := (recover_step (E := E) P D N).

(** A run of the loop, and its next step. *)
Lemma loop_contract rw queues rounds x b y z :
  rec_prefix rw = P → rtc recover_step (mkRecovering x b (recover_loop_co rw queues rounds)) y →
  rtc sys_step x (rv_sys y) ∧
  (own_step y z →
   let w := sy_world (rv_sys y) in let w' := sy_world (rv_sys z) in
   (w' = w ∨ ∃ q, q ∈ queues ∧ w' = (_claim_stale rw q w).2) ∧
   claims_only (view (w_redis w)) (view (w_redis w')) ∧ w_db w' = w_db w ∧ w_env w' = w_env w).
Proof.
  intros Hp H. destruct (recover_run_system P D N rw queues Hp _ _ H) as [Hrun Hc]; [by apply loop_co_obeys|].
  split; [done|]. intros Hz. destruct (own_step_claims P D N rw queues Hp _ _ Hz Hc) as (Hs & _ & _).
  split; [exact Hs|]. by destruct (claims_system P D N rw queues Hp _ _ Hs) as [_ (? & ? & ? & _)].
Qed.

(** C7: The recovery loop is part of the system.  However the loop, started on any queues,
    is interleaved with producers, workers, crashes, other recovery loops, [stop()]
    and its cancellation, what happens to the system is a run of [sys_step].  A step of
    the loop itself leaves the world as it is or is one claim on one of its queues,
    which changes nothing but who owns pending entries, and which pending entries are
    gone from their stream. *)
Theorem recovery_refines_system rw queues rounds x b y z :
  rec_prefix rw = P → rtc recover_step (mkRecovering x b (recover_loop_co rw queues rounds)) y →
  rtc sys_step x (rv_sys y) ∧
  (own_step y z →
   let w := sy_world (rv_sys y) in let w' := sy_world (rv_sys z) in
   (w' = w ∨ ∃ q, q ∈ queues ∧ w' = (_claim_stale rw q w).2) ∧
   claims_only (view (w_redis w)) (view (w_redis w')) ∧ w_db w' = w_db w ∧ w_env w' = w_env w).
Proof. apply loop_contract. Qed.

(** A worker's recovery task: on its one queue, a step of the loop that changes the
    world is the round that [Runner.recovery_step] takes in one step. *)
Corollary worker_recovery (c : WorkerRunner E) rw rounds x b y z :
  wr_recovery c = Some rw → rec_prefix rw = P →
  rtc recover_step (mkRecovering x b (recover_loop_co rw [wr_queue c] rounds)) y → own_step y z →
  sy_world (rv_sys z) = sy_world (rv_sys y) ∨
  sy_world (rv_sys z) = (recover_once c (sy_world (rv_sys y))).2.
Proof.
  intros Hc Hp H Hz. destruct (loop_contract rw [wr_queue c] rounds x b y z Hp H) as [_ Hs].
  destruct (Hs Hz) as [[?|(q & ->%list_elem_of_singleton & ->)] _]; [by left|right].
  unfold recover_once. rewrite Hc. unfold recover_round, for_each, mbind, st_mbind, except_Exception, try_except.
  destruct (_claim_stale rw (wr_queue c) _) as [[[]|e] w1]; [done|]. by destruct (is_Exception e).
Qed.

End Contract.

(** ** [stop()] ends it *)

Section Stops.
Context {R : Redis} {RS : RedisSpec R} {E : Type}.
#[local] Abbreviation body := (coroutine (World E * bool)).

(** With [_running] false it keeps it so, and returns a [Q] after [n] awaits at most. *)
Fixpoint ends_in {A} (Q : result exn A → Prop) (c : body A) (n : nat) : Prop :=
  match c with
  | CoRet r => Q r
  | CoSync m k => ∀ w r s, m (w, false) = (r, s) → s.2 = false ∧ ends_in Q (k r) n
  | CoAwait m k =>
      match n with
      | O => False
      | Datatypes.S n' => (∀ w, (m (w, false)).2.2 = false) ∧ ∀ r, ends_in Q (k r) n'
      end
  end.

Lemma ends_in_mono {A} (Q : result exn A → Prop) (c : body A) n m :
  ends_in Q c n → (n ≤ m)%nat → ends_in Q c m.
Proof.
  revert n m. induction c as [r|X q k IH|X q k IH]; intros n m; cbn [ends_in]; [done|..].
  - intros Hk Hle w r s Hq. destruct (Hk w r s Hq) as [H1 H2]. split; [done|]. by eapply IH.
  - destruct n as [|n], m as [|m]; try done; [lia|]. intros [Hq Hk] Hle. split; [done|].
    intros r. eapply IH; [apply Hk|lia].
Qed.

Lemma ends_in_then {A B} (Q : result exn A → Prop) (Q' : result exn B → Prop) (t : body A) f n m :
  ends_in Q t n → (∀ r, Q r → ends_in Q' (f r) m) → ends_in Q' (co_then t f) (n + m).
Proof.
  intros Ht Hf. revert n Ht. induction t as [r|X q k IH|X q k IH]; intros n; cbn [ends_in co_then].
  - intros Hr. eapply ends_in_mono; [by apply Hf|lia].
  - intros Hk w r s Hq. destruct (Hk w r s Hq) as [H1 H2]. split; [done|]. by apply IH.
  - destruct n as [|n]; [done|]. intros [Hq Hk]. split; [done|]. intros r. by apply IH.
Qed.

Definition is_ret {A} (c : body A) : bool := match c with CoRet _ => true | _ => false end.

(** [K] of the body, and of whatever is left of it later. *)
Fixpoint along {A} (K : body A → Prop) (c : body A) : Prop :=
  K c ∧ match c with
        | CoRet _ => True
        | CoSync m k | CoAwait m k => ∀ r, along K (k r)
        end.

Lemma along_here {A} (K : body A → Prop) c : along K c → K c.
Proof. by destruct c; intros []. Qed.

Lemma along_mono {A} (K K' : body A → Prop) c : (∀ c, K c → K' c) → along K c → along K' c.
Proof.
  intros HK. induction c as [r|X m k IH|X m k IH]; cbn [along]; intros [H Hk]; (split; [by apply HK|]);
    [done|intros r; by apply IH..].
Qed.

Lemma along_then {A B} (K : body A → Prop) (K' : body B → Prop) (t : body A) f :
  along K t → (∀ c, is_ret c = false → K c → K' (co_then c f)) → (∀ r, along K' (f r)) → along K' (co_then t f).
Proof.
  intros Ht HK Hf. induction t as [r|X m k IH|X m k IH]; cbn [co_then along] in *; [apply Hf|..];
    destruct Ht as [H Hk]; (split; [by apply (HK (CoSync m k) eq_refl H) || apply (HK (CoAwait m k) eq_refl H)|]); intros r; by apply IH.
Qed.

Lemma along_conj {A} (K K' : body A → Prop) c : along K c → along K' c → along (λ c, K c ∧ K' c) c.
Proof.
  induction c as [r|X m k IH|X m k IH]; cbn [along]; intros [H1 Hk] [H2 Hk']; (split; [by split|]);
    [done|intros r; by apply IH..].
Qed.

Definition anyhow {A} (_ : result exn A) : Prop := True.
(** Not with the fuel at its end. *)
Definition not_running (r : result exn bool) : Prop := r ≠ Ok false.

Lemma claim_ends rw q : along (λ c, ends_in anyhow c 1) (co_zoom fst put_world (_claim_stale_co (E := E) rw q)).
Proof.
  assert (∀ X (m : M (World E) X) w, (zoom fst put_world m (w, false)).2.2 = false) as Hz
    by (intros X m w; unfold zoom; by destruct (m _)).
  assert (∀ X (m : M (World E) X) w r s, zoom fst put_world m (w, false) = (r, s) → s.2 = false) as Hz'
    by (intros X m w r s Hm; pose proof (Hz X m w) as H; by rewrite Hm in H).
  cbn. split_and!; [apply Hz| |].
  - intros [l|e]; [|done]. cbn. intros w r s H. split; [by eapply Hz'|]. done.
  - intros [l|e]; cbn; [|done]. split; [|done]. intros w r s H. split; [by eapply Hz'|done].
Qed.

Lemma round_ends rw queues :
  along (λ c, ends_in anyhow c (length queues)) (claim_round (E := E) rw queues).
Proof.
  induction queues as [|q queues IH]; [done|]. cbn [claim_round length].
  assert (∀ r : result exn (), along (λ c, ends_in anyhow c (Datatypes.S (length queues)))
    (match r with Ok _ => claim_round rw queues | Raise e => CoRet (Raise e) end)) as Hrest.
  { intros [[]|e]; [|done]. eapply along_mono; [|exact IH]. intros c Hc. eapply ends_in_mono; [exact Hc|lia]. }
  apply (along_then (λ c, ends_in anyhow c 1)); [| |exact Hrest].
  - apply (along_then (λ c, ends_in anyhow c 1)); [apply claim_ends| |].
    + intros c _ Hc. apply (ends_in_then anyhow anyhow c _ 1 0 Hc). intros [[]|e] _; [done|]. by destruct (is_Exception e).
    + intros [[]|e]; [done|]. by destruct (is_Exception e).
  - intros c _ Hc. apply (ends_in_then anyhow anyhow c _ 1 (length queues) Hc). intros [[]|e] _; [|done].
    by apply (along_here (λ c, ends_in anyhow c (length queues))).
Qed.

(** Whenever it is stopped, it ends within a round. *)
Definition stoppable (n : nat) (c : body bool) : Prop := is_ret c = true ∨ ends_in not_running c n.

Lemma stopped_while rw queues rounds n : ends_in not_running (while_running (E := E) rw queues rounds) n.
Proof. by destruct rounds; intros w r s [= <- <-]. Qed.

Lemma loop_stoppable rw queues rounds :
  along (stoppable (length queues + 1)) (while_running (E := E) rw queues rounds).
Proof.
  induction rounds as [|rounds IH].
  { split; [right; exact (stopped_while rw queues 0 _)|]. intros [[|]|e]; by split; [left|]. }
  split; [right; exact (stopped_while rw queues (Datatypes.S rounds) _)|].
  intros [[|]|e]; [|by split; [left|]..].
  change (along (stoppable (length queues + 1))
    (claim_round rw queues ≫= λ _, sleep ≫= λ _, while_running rw queues rounds)).
  assert (∀ r : result exn (), along (stoppable (length queues + 1))
    (match r with Ok _ => while_running rw queues rounds | Raise e => CoRet (Raise e) end)) as Hrest.
  { intros [[]|e]; [exact IH|by split; [left|]]. }
  assert (∀ r : result exn (), ends_in not_running
    (match r with Ok _ => while_running rw queues rounds | Raise e => CoRet (Raise e) end) 0) as Hend.
  { intros [[]|e]; [apply stopped_while|done]. }
  apply (along_then (λ c, ends_in anyhow c (length queues))); [apply round_ends|..].
  - intros c _ Hc. right. eapply ends_in_then; [exact Hc|]. intros [[]|e] _; [|done]. by split.
  - intros [[]|e]; [|by split; [left|]]. split; [|exact Hrest]. right. rewrite Nat.add_comm. cbn.
    split; [done|]. intros r. eapply ends_in_mono; [apply Hend|lia].
Qed.

(** A cancelled [await], or one whose result comes too late, ends it: no [except
    Exception] catches a CancelledError. *)
Definition cancel_ends {A} (c : body A) : Prop :=
  match c with
  | CoRet _ => True
  | CoSync _ k | CoAwait _ k => k (Raise CancelledError) = CoRet (Raise CancelledError)
  end.

Lemma cancel_ends_then {A B} (c : body A) (f : result exn A → body B) :
  f (Raise CancelledError) = CoRet (Raise CancelledError) →
  is_ret c = false → cancel_ends c → cancel_ends (co_then c f).
Proof. intros Hf Hr Hc. destruct c as [r|X m k|X m k]; cbn in *; [done|by rewrite Hc..]. Qed.

Lemma loop_cancel_ends rw queues rounds : along cancel_ends (while_running (E := E) rw queues rounds).
Proof.
  assert (∀ queues, along cancel_ends (claim_round (E := E) rw queues)) as Hround.
  { intros qs. induction qs as [|q qs IH]; [done|]. cbn [claim_round].
    apply (along_then cancel_ends); [|intros c; by apply cancel_ends_then|by intros [[]|e]].
    apply (along_then cancel_ends); [|intros c; by apply cancel_ends_then|].
    - cbn. split; [done|]. intros [l|e]; [|done]. split; [done|]. by intros [[]|e].
    - intros [[]|e]; [done|]. by destruct (is_Exception e). }
  induction rounds as [|rounds IH]; (split; [done|]); [by intros [[|]|e]|].
  intros [[|]|e]; [|done..].
  change (along cancel_ends (claim_round rw queues ≫= λ _, sleep ≫= λ _, while_running rw queues rounds)).
  apply (along_then cancel_ends); [done|intros c; by apply cancel_ends_then|].
  intros [[]|e]; [|done]. split; [done|]. by intros [[]|e].
Qed.

Lemma along_settle {A} (K : body A → Prop) (c : body A) s : along K c → along K (settle c s).1.
Proof.
  revert s. induction c as [r|X m k IH|X m k IH]; intros s; cbn [settle]; try done.
  intros [_ Hk]. destruct (m s) as [r s']. by apply IH.
Qed.

Lemma ends_in_settle {A} (Q : result exn A → Prop) (c : body A) n w c' s' :
  ends_in Q c n → settle c (w, false) = (c', s') → s'.2 = false ∧ ends_in Q c' n.
Proof.
  revert w. induction c as [r|X m k IH|X m k IH]; intros w; cbn [settle]; try (by intros H [= <- <-]).
  intros Hk Hs. destruct (m (w, false)) as [r [w1 b1]] eqn:Hm.
  destruct (Hk _ _ _ Hm) as [Hb He]. cbn in Hb. subst b1. by apply (IH r w1).
Qed.

Variables (P : pystr) (D : Z) (N : nat).
#[local] Abbreviation other_step := (other_step (E := E) P D N).
#[local] Abbreviation recover_step := (recover_step (E := E) P D N).
#[local] Abbreviation own_run := (own_run (E := E) P D N).

(** From its first turn on. *)
Definition loop_inv (n : nat) (x : recovering E) : Prop :=
  along (λ c, stoppable n c ∧ cancel_ends c) (rv_code x).

Lemma woken_inv {X} n (r : result exn X) (k : result exn X → body bool) :
  k (Raise CancelledError) = CoRet (Raise CancelledError) → ends_in not_running (k r) n →
  (∀ r, along (λ c, stoppable n c ∧ cancel_ends c) (k r)) →
  along (λ c, stoppable n c ∧ cancel_ends c) (woken r k).
Proof.
  intros Hc He Hk. split; [|exact Hk]. split; [|exact Hc]. right. intros w r' s [= <- <-]. by split.
Qed.

Lemma step_inv n x y : recover_step x y → loop_inv n x → loop_inv n y.
Proof.
  unfold loop_inv. intros [H|H] Hx.
  - destruct H as [z b c w' b' c' _ Hs|z b c w' b' c' Hs]; cbn in *.
    + apply (along_settle _ _ (sy_world z, b)) in Hx. by rewrite Hs in Hx.
    + destruct c as [r|X m k|X m k]; [done..|]. cbn in Hs. destruct (m _) as [r s']. injection Hs as <- _.
      destruct Hx as [[[Hx|Hx] Hc] Hk]; [done|]. apply woken_inv; [exact Hc| |exact Hk].
      destruct n as [|n]; [done|]. eapply ends_in_mono; [apply Hx|lia].
  - destruct H as [| |z z' H]; cbn in *; [done..|]. destruct H as [z b X m k|z b X r k];
      destruct Hx as [[_ Hc] Hk]; (apply woken_inv; [exact Hc|by rewrite Hc|exact Hk]).
Qed.

Lemma run_inv n x y : rtc recover_step x y → loop_inv n x → loop_inv n y.
Proof. induction 1 as [x|x z y Hs _ IH]; [done|]. intros Hx. by eapply IH, step_inv. Qed.

Lemma started_inv rw queues rounds x :
  started rw queues rounds x → loop_inv (length queues + 1) x.
Proof.
  intros (y & b & H). inversion H as [? ? ? w' b' c' _ Hs|? ? ? w' b' c' Hs]; subst; [|done].
  unfold loop_inv. cbn in *.
  pose proof (along_settle _ _ (sy_world y, true)
    (along_conj _ _ _ (loop_stoppable rw queues rounds) (loop_cancel_ends rw queues rounds))) as Ha.
  change (settle (while_running rw queues rounds) (sy_world y, true) = (c', (w', b'))) in Hs.
  by rewrite Hs in Ha.
Qed.

(** What is left of a stopped loop, in turns and commands. *)
Definition left_of (x : recovering E) (p : nat) : Prop :=
  rv_running x = false ∧ ∃ n, ends_in not_running (rv_code x) n ∧
    (2 * n + (if is_sync (rv_code x) then 1 else 0) ≤ p)%nat.

Lemma own_step_left x y p : own_step x y → left_of x p → ∃ p', p = Datatypes.S p' ∧ left_of y p'.
Proof.
  intros H (Hb & n & He & Hp). destruct H as [y b c w' b' c' Hsync Hs|y b c w' b' c' Hs]; cbn in *; subst b.
  - rewrite Hsync in Hp. destruct p as [|p]; [lia|]. exists p. split; [done|].
    destruct (ends_in_settle _ _ _ _ _ _ He Hs) as [Hb' He']. split; [done|]. exists n. cbn.
    split; [done|]. apply settle_rest in Hs. destruct c'; [cbn; lia|done|cbn; lia].
  - destruct c as [r|X m k|X m k]; [done..|]. cbn in Hs. destruct (m _) as [r s'] eqn:Hm.
    injection Hs as <- ->. destruct n as [|n]; [done|]. destruct He as [Hf He]. cbn in Hp.
    destruct p as [|p]; [lia|]. exists p. split; [done|]. split; cbn.
    + specialize (Hf (sy_world y)). by rewrite Hm in Hf.
    + exists n. split; [|lia]. intros w r' s [= <- <-]. by split.
Qed.

Lemma other_step_left x y p : other_step x y → cancel_ends (rv_code x) → left_of x p → left_of y p.
Proof.
  assert (∀ X (k : result exn X → body bool) (w : World E) r s, k (Raise CancelledError) = CoRet (Raise CancelledError) →
    (Raise CancelledError, (w, false)) = (r, s) → s.2 = false ∧ ends_in not_running (k r) 0) as Hcancel.
  { intros X k w r s Hc [= <- <-]. by rewrite Hc. }
  intros H Hc (Hb & n & He & Hp).
  destruct H as [|y b c r w' b' [= _ _ <-]|x y H]; cbn in *; [split; [done|]; by exists n..|].
  destruct H as [y b X m k|y b X r k]; cbn in *.
  - split; [done|]. exists 0%nat. split; [|cbn; destruct n; [done|lia]]. intros w r s. by apply Hcancel.
  - split; [done|]. exists 0%nat. split; [|cbn; lia]. intros w r' s. by apply Hcancel.
Qed.

Lemma own_run_left n k x y p :
  own_run k x y → loop_inv n x → left_of x p → (k ≤ p)%nat ∧ ∃ p', left_of y p'.
Proof.
  intros H. revert p. induction H as [x|k x y z Hxy _ IH|k x y z Hxy _ IH]; intros p Hi Hx.
  - split; [lia|eauto].
  - destruct (own_step_left _ _ _ Hxy Hx) as (p' & -> & Hy).
    destruct (IH p'); [by eapply step_inv; [left|]|done|]. split; [lia|done].
  - apply IH; [by eapply step_inv; [right|]|]. eapply other_step_left; [exact Hxy| |done].
    by apply along_here in Hi as [_ ?].
Qed.

(** Its task never waits for anything but its own turn or command. *)
Lemma own_step_or_ret x : is_ret (rv_code x) = false → ∃ y, own_step x y.
Proof.
  destruct x as [x b [r|X m k|X m k]]; [done|..]; intros _.
  - destruct (settle (CoSync m k) (sy_world x, b)) as [c' [w' b']] eqn:Hs.
    eexists. by apply (rl_turn x b _ w' b' c').
  - destruct (take_effect (CoAwait m k) (sy_world x, b)) as [[c' [w' b']]|] eqn:Hs.
    + eexists. by apply (rl_command x b _ w' b' c').
    + cbn in Hs. by destruct (m _).
Qed.

(** C11: [stop()] ends the recovery loop.  Once its task has had its first turn, whenever
    [_running] is false and the task has not ended, at most [2 * length queues + 3]
    more turns and commands of its own are to come, whatever runs in between: the rest
    of the round and the sleep.  [_running] stays false, the task can always go on
    until it has ended, and it ends because of the flag, or by an exception. *)
Theorem stopped_loop_ends rw queues rounds x0 x k y :
  started rw queues rounds x0 → rtc recover_step x0 x →
  rv_running x = false → is_ret (rv_code x) = false → own_run k x y →
  (k ≤ 2 * length queues + 3)%nat ∧ rv_running y = false ∧
  match rv_code y with CoRet r => r ≠ Ok false | _ => ∃ z, own_step y z end.
Proof.
  intros H0%started_inv Hrun Hb Hr Hk. apply (run_inv _ _ _ Hrun) in H0.
  assert (left_of x (2 * length queues + 3)) as Hleft.
  { split; [done|]. apply along_here in H0 as [[H0|H0] _]; [congruence|].
    exists (length queues + 1)%nat. split; [done|]. destruct (is_sync _); lia. }
  destruct (own_run_left _ _ _ _ _ Hk H0 Hleft) as [Hle (p & Hf & n & He & _)].
  split; [done|]. split; [done|]. destruct (rv_code y) eqn:Hc; [exact He|..];
    (apply own_step_or_ret; by rewrite Hc).
Qed.

(** A [stop()] that comes before the task's first turn is lost: that turn sets the
    flag, and goes on as if nothing had happened. *)
Theorem early_stop_lost rw queues rounds (w : World E) :
  settle (recover_loop_co rw queues rounds) (stop (w, true)).2 =
  settle (while_running rw queues rounds) (w, true).
Proof. done. Qed.

(** A cancelled recovery task ends with its next turn, and changes nothing more:
    what [run] does with it when it stops. *)
Theorem cancelled_loop_ends rw queues rounds x0 x y z :
  started rw queues rounds x0 → rtc recover_step x0 x → cancel_step x y → own_step y z →
  z = mkRecovering (rv_sys x) (rv_running x) (CoRet (Raise CancelledError)).
Proof.
  intros H0%started_inv Hrun Hy Hz. apply (run_inv _ _ _ Hrun), along_here in H0 as [_ Hc].
  destruct Hy as [[w ws ps] b X m k|[w ws ps] b X r k]; cbn in Hc;
    (inversion Hz as [? ? ? w' b' c' _ Ht|? ? ? w' b' c' Ht]; subst; [|done];
     unfold woken in Ht; cbn [settle sy_world] in Ht; rewrite Hc in Ht; by injection Ht as <- <- <-).
Qed.

End Stops.

(** ** Witnesses *)

Section Steps.
Context {R : Redis} {RS : RedisSpec R} {E : Type}.

Definition turn (x : recovering E) : recovering E :=
  let '(c, (w, b)) := settle (rv_code x) (sy_world (rv_sys x), rv_running x) in
  mkRecovering (on_world w (rv_sys x)) b c.
Definition command (x : recovering E) : recovering E :=
  match take_effect (rv_code x) (sy_world (rv_sys x), rv_running x) with
  | Some (c, (w, b)) => mkRecovering (on_world w (rv_sys x)) b c
  | None => x
  end.
Definition stopped (x : recovering E) : recovering E := mkRecovering (rv_sys x) false (rv_code x).

Lemma turn_step x : is_sync (rv_code x) = true → own_step x (turn x).
Proof.
  destruct x as [x b c]. unfold turn. cbn. intros Hc. destruct (settle c _) as [c' [w' b']] eqn:Hs.
  by apply rl_turn.
Qed.

Lemma command_step x :
  is_sync (rv_code x) = false → is_ret (rv_code x) = false → own_step x (command x).
Proof.
  destruct x as [x b [r|X m k|X m k]]; try done. intros _ _. unfold command. cbn [rv_code rv_sys rv_running].
  destruct (take_effect _ _) as [[c' [w' b']]|] eqn:Hs; [by apply rl_command|].
  cbn in Hs. by destruct (m _).
Qed.

Lemma stop_step P D N x : other_step P D N x (stopped x).
Proof. destruct x as [[w ws ps] b c]. by apply (rl_stop P D N (mkSys w ws ps) b c (Ok tt) w false). Qed.
End Steps.

(** Worker [w1] has crashed with an entry; [w2] claims it, and is stopped meanwhile. *)
Definition crashed_server : mstate :=
  let s := run (S := mstate) (read_group relayq noon mail (u "w1") 1 2000) (server_with 1 3) in
  mkM (m_srv s) 60000 (m_delivered s) [].
Definition claimer : RecoveryWorker := mkRecovery relayq (u "w2") 30000 10.
Definition rv0 : recovering unit :=
  mkRecovering (mkSys (world_on crashed_server) [] []) false (recover_loop_co claimer [mail] 2).
Definition rv1 : recovering unit := turn rv0.
Definition rv2 : recovering unit := command rv1.
Definition rv3 : recovering unit := stopped rv2.
Definition rv4 : recovering unit := turn rv3.
Definition rv5 : recovering unit := command rv4.
Definition rv6 : recovering unit := turn rv5.
Definition owners (x : recovering unit) : list pystr := (g_pel (mail_group (w_redis (sy_world (rv_sys x))))).*2.

Lemma rv_started : started claimer [mail] 2 rv1.
Proof. exists (rv_sys rv0), false. apply (turn_step rv0). reflexivity. Qed.
Lemma rv_claims : own_step rv1 rv2.
Proof. apply (command_step rv1); vm_compute; reflexivity. Qed.
Lemma rv_stopped : rtc (recover_step relayq 1 10) rv1 rv3.
Proof. eapply rtc_l; [left; exact rv_claims|]. apply rtc_once. right. apply (stop_step relayq 1 10 rv2). Qed.
Lemma rv_ends : own_run relayq 1 10 3 rv3 rv6.
Proof.
  apply (own_own relayq 1 10 2 rv3 rv4 rv6); [apply (turn_step rv3); vm_compute; reflexivity|].
  apply (own_own relayq 1 10 1 rv4 rv5 rv6); [apply (command_step rv4); vm_compute; reflexivity|].
  apply (own_own relayq 1 10 0 rv5 rv6 rv6); [apply (turn_step rv5); vm_compute; reflexivity|].
  apply own_refl.
Qed.

Lemma recovery_refines_system_witness :
  owners rv1 = [u "worker-w1"] ∧ owners rv2 = [u "worker-w2"] ∧
  rtc (sys_step relayq 1 10) (rv_sys rv0) (rv_sys rv1) ∧
  claims_only (view (w_redis (sy_world (rv_sys rv1)))) (view (w_redis (sy_world (rv_sys rv2)))).
Proof.
  split; [vm_compute; reflexivity|]. split; [vm_compute; reflexivity|].
  destruct (recovery_refines_system relayq 1 10 claimer [mail] 2 (rv_sys rv0) false rv1 rv2) as [Hrun Hown].
  - reflexivity.
  - apply rtc_once. left. apply (turn_step rv0). reflexivity.
  - split; [exact Hrun|]. destruct (Hown rv_claims) as (_ & Hc & _). exact Hc.
Defined.

(** Stopped during its sleep, the loop ends after the sleep: three more steps. *)
Definition returned_true (x : recovering unit) : bool :=
  match rv_code x with CoRet (Ok b) => b | _ => false end.

Lemma stopped_loop_ends_witness :
  rv_running rv3 = false ∧ returned_true rv6 = true ∧ (3 ≤ 2 * length [mail] + 3)%nat ∧ rv_running rv6 = false.
Proof.
  split; [reflexivity|]. split; [vm_compute; reflexivity|].
  destruct (stopped_loop_ends relayq 1 10 claimer [mail] 2 rv1 rv3 3 rv6) as (Hle & Hrun & _).
  - exact rv_started.
  - exact rv_stopped.
  - reflexivity.
  - vm_compute. reflexivity.
  - exact rv_ends.
  - split; [exact Hle|exact Hrun].
Defined.
