(* ===== verification/Traffic.v ===== *)
(** * The API under traffic: overlapping requests on the system

    Any number of API processes (each [lifespan] of [api/main.py]) serve requests at
    the same time, next to the producers, workers and recovery loops of [System], on
    one Redis.  A process shares its limiter, its script cache and its log among the
    requests in flight; a request has its own [request.state].  [traffic_step]
    interleaves them at their suspension points; a client may go away, a process may
    crash, and commands already sent may still take effect.

    [simulates] relates such a state to one of [System]: a request in flight is
    nothing, or the producer of the enqueue it is in.  Everything that holds for every
    run of the system ([Guarantees]) so holds under HTTP traffic. *)

From Stdlib Require Import String QArith.
From stdpp Require Import relations.
From S2P Require Import Prelude PyStr Json Errors Coroutine Datetime Job Redis RedisModel Transport SqliteStore World Scenario Delivery Enqueue Execute Recover Runner Effects System RateLimiter Api Url Routes Server Requests Embedding.
Open Scope list_scope.
Open Scope Z_scope.

Section State.
Context {R : Redis} {X : Scripting} {E : Type}.

Record request : Type := mkRq {
  rq_id : option pystr;          (* [request.state.request_id] *)
  rq_code : coroutine (server_state E) Response;
  rq_gone : bool                 (* nobody runs it any more *)
}.

(** A process of the API: its globals, its log, and the requests in flight. *)
Record instance : Type := mkInstance {
  ap_limiter : option TokenBucketRateLimiter;
  ap_log : list pystr;
  ap_count : nat;
  ap_requests : list request
}.

Record traffic : Type := mkTraffic {
  tf_world : World E;
  tf_scripts : ss;
  tf_workers : list (WorkerRunner E * runner E);
  tf_producers : list (producer E);     (* enqueues of other programs *)
  tf_instances : list instance
}.

(** What a request's code works on, and what it leaves to the process. *)
Definition joined (w : World E) (x : ss) (a : instance) (q : request) : server_state E :=
  mkSv w x (ap_limiter a) (rq_id q) (ap_log a) (ap_count a).
Definition left_by (s : server_state E) (l : list request) : instance :=
  mkInstance (sv_limiter s) (sv_log s) (sv_requests s) l.

(** A turn of a request, and the effect of the command it waits for. *)
Inductive request_step : server_state E * request → server_state E * request → Prop :=
| rq_turn s i c code s' :
    settle c s = (code, s') →
    request_step (s, mkRq i c false) (s', mkRq (sv_request_id s') code false)
| rq_effect s i c code s' gone :
    take_effect c s = Some (code, s') →
    request_step (s, mkRq i c gone) (s', mkRq (sv_request_id s') code gone).

Definition all_requests (l : list instance) : list request := concat (ap_requests <$> l).
Definition leave (q : request) : request := mkRq (rq_id q) (rq_code q) true.

(** A process that is gone: its globals are, what it logged is not. *)
Definition crashed (a : instance) : instance :=
  mkInstance None (ap_log a) (ap_count a) (leave <$> ap_requests a).

Definition sys_of (t : traffic) : sys E := mkSys (tf_world t) (tf_workers t) (tf_producers t).
End State.
Arguments request {R X} E.
Arguments instance {R X} E.
Arguments traffic {R X} E.

Section Traffic.
Context {R : Redis} {RS : RedisSpec R} {X : Scripting} {F : Framework} {E : Type}.
Variables (P : pystr) (D : Z) (N : nat).
Variable api : Api.
Variable LUA_SCRIPT : pystr.
Context {XS : ScriptingSpec X LUA_SCRIPT}.

Inductive traffic_step : traffic E → traffic E → Prop :=
| tf_system w ws ps w' ws' ps' x l :
    sys_step P D N (mkSys w ws ps) (mkSys w' ws' ps') → (length ps' + length (all_requests l) ≤ N)%nat →
    traffic_step (mkTraffic w x ws ps l) (mkTraffic w' x ws' ps' l)
| tf_script_server x x' w ws ps l :
    (* SCRIPT LOAD, SCRIPT FLUSH, and scripts of others on their own keys *)
    bucket_at x' = bucket_at x → runs_of x' = runs_of x →
    traffic_step (mkTraffic w x ws ps l) (mkTraffic w x' ws ps l)
| tf_start w w' x ws ps l :
    lifespan_start api w = (Ok tt, w') →
    traffic_step (mkTraffic w x ws ps l) (mkTraffic w' x ws ps (l ++ [mkInstance None [] 0 []]))
| tf_arrive rd req w x ws ps l1 a l2 :
    (length ps + length (all_requests (l1 ++ a :: l2)) < N)%nat →
    traffic_step (mkTraffic w x ws ps (l1 ++ a :: l2))
      (mkTraffic w x ws ps
         (l1 ++ mkInstance (ap_limiter a) (ap_log a) (ap_count a)
                  (ap_requests a ++ [mkRq None (serve_co api LUA_SCRIPT rd req) false]) :: l2))
| tf_request w x ws ps l1 a l2 r1 q r2 s' q' :
    ap_requests a = r1 ++ q :: r2 → request_step (joined w x a q, q) (s', q') →
    traffic_step (mkTraffic w x ws ps (l1 ++ a :: l2))
      (mkTraffic (sv_world s') (sv_scripts s') ws ps (l1 ++ left_by s' (r1 ++ q' :: r2) :: l2))
| tf_leave w x ws ps l1 a l2 r1 q r2 :
    ap_requests a = r1 ++ q :: r2 →
    traffic_step (mkTraffic w x ws ps (l1 ++ a :: l2))
      (mkTraffic w x ws ps
         (l1 ++ mkInstance (ap_limiter a) (ap_log a) (ap_count a) (r1 ++ leave q :: r2) :: l2))
| tf_done w x ws ps l1 a l2 r1 q r2 :
    ap_requests a = r1 ++ q :: r2 → (∃ r, rq_code q = CoRet r) ∨ rq_gone q = true →
    traffic_step (mkTraffic w x ws ps (l1 ++ a :: l2))
      (mkTraffic w x ws ps (l1 ++ mkInstance (ap_limiter a) (ap_log a) (ap_count a) (r1 ++ r2) :: l2))
| tf_crash w x ws ps l1 a l2 :
    traffic_step (mkTraffic w x ws ps (l1 ++ a :: l2)) (mkTraffic w x ws ps (l1 ++ crashed a :: l2)).

(** The processes of the API agree with the system on prefix and bound. *)
Definition api_fits : Prop :=
  (∀ p, api_transport api = Some p → p = P) ∧
  ∀ e, api_enqueuer api = Some e → enq_prefix e = P ∧ max_queue_depth e = D.

(** ** The body of a request *)

#[local] Abbreviation world_runs_as := (runs_as (E := E) P D N keep_world new_world).
#[local] Abbreviation steady_world := (Embedding.steady_world (E := E) P D N).

(** A command that only looks. *)
Definition looks {A} (m : M rstate A) : Prop := ∀ s r s', m s = (r, s') → view s' = view s.

Lemma outcome_same {A} (eff : server → A → server → Prop) v r v' :
  (∀ a v1, eff v a v1 → v1 = v) → outcome eff v r v' → v' = v.
Proof. intros He. destruct r as [a|e]; cbn; [apply He|]. intros [?|(a & Ha)]; [done|by eapply He]. Qed.

Lemma xlen_looks k : looks (xlen k).
Proof. intros s r s' H%xlen_law. eapply outcome_same; [|exact H]. by intros a v1 [_ ?]. Qed.

Lemma read_dlq_looks q n : looks (read_dlq P q (u "-") (u "+") n).
Proof.
  intros s r s' [(a & s1 & H & Hl)|(e & H & _)]%st_bind_inv; [injection Hl as _ <-|];
    apply xrevrange_law in H; (eapply outcome_same; [|exact H]); by intros ? ? [_ ?].
Qed.

Lemma scan_looks c p n : looks (scan c p n).
Proof. intros s r s'. apply scan_law. Qed.

Lemma read_dlq_entry_looks q j : looks (read_dlq_entry P q j).
Proof. intros s r s'. apply read_dlq_entry_view. Qed.

Lemma looks_runs {A} (m : M rstate A) : looks m → world_runs_as None (co_await (on_redis m)).
Proof.
  intros Hm. apply runs_as_await. intros w. apply same_view_steady. unfold keep_world.
  destruct (on_redis m w) as [r w'] eqn:H. apply on_redis_inv in H as (s' & H & ->). by apply Hm in H.
Qed.

Lemma pure_runs {A} (r : result exn A) : world_runs_as None (co_lift r).
Proof. apply as_ret. Qed.

Lemma clock_runs : world_runs_as None (co_sync wall_clock).
Proof. apply runs_as_sync. intros w. reflexivity. Qed.

#[local] Hint Resolve xlen_looks read_dlq_looks scan_looks read_dlq_entry_looks looks_runs pure_runs
  clock_runs as_ret : traffic.

Lemma delete_dlq_runs q i : world_runs_as None (co_await (on_redis (delete_dlq_entry P q i))).
Proof.
  apply runs_as_await. intros w ws ps. unfold keep_world.
  destruct (on_redis _ w) as [r w'] eqn:H. by eapply rtc_once, sys_delete_dlq.
Qed.

Lemma scan_loop_runs fuel cursor qs : world_runs_as None (scan_loop_co P fuel cursor qs).
Proof.
  revert cursor qs. induction fuel as [|fuel IH]; intros cursor qs; cbn [scan_loop_co]; [apply as_ret|].
  apply runs_as_bind; [auto with traffic|]. intros ck. apply runs_as_bind; [auto with traffic|].
  intros qs'. destruct (ck.1 =? 0); [apply as_ret|apply IH].
Qed.

Lemma map_queues_runs b names : world_runs_as None (map_queues_co P b names).
Proof.
  induction names as [|name names IH]; cbn [map_queues_co]; [apply as_ret|].
  apply runs_as_bind; [|intros st; apply runs_as_bind; [exact IH|intros; apply as_ret]].
  unfold queue_stats_co. apply runs_as_bind; [apply looks_runs, xlen_looks|]. intros depth.
  apply runs_as_bind; [auto with traffic|]. intros _.
  apply runs_as_bind; [destruct b; [apply looks_runs, xlen_looks|apply as_ret]|]. intros n. apply as_ret.
Qed.

Lemma job_status_same jid : preserves same_redis (get_job_status (E := E) api jid).
Proof.
  unfold get_job_status. destruct (api_enqueuer api ≫= enq_store) as [conn|]; [|apply preserves_mret; apply _].
  apply preserves_bind; [apply _|apply on_store_same_redis|].
  intros [job|]; [|apply preserves_throw; apply _].
  apply preserves_bind; [apply _|apply preserves_lift; apply _|]. intros sv. apply preserves_mret; apply _.
Qed.

Section Body.
Hypothesis fits : api_fits.

Lemma list_queues_runs fuel : world_runs_as None (list_queues_co api fuel).
Proof.
  unfold list_queues_co. destruct (api_transport api) as [p|] eqn:Hp; [|apply as_ret].
  pose proof (proj1 fits p Hp) as ->.
  apply runs_as_bind; [apply scan_loop_runs|]. intros [names|]; [|apply as_ret].
  apply runs_as_bind; [apply map_queues_runs|]. intros; apply as_ret.
Qed.

Lemma list_dlq_runs name limit : world_runs_as None (list_dlq_co api name limit).
Proof.
  unfold list_dlq_co. destruct (api_transport api) as [p|] eqn:Hp; [|apply as_ret].
  pose proof (proj1 fits p Hp) as ->.
  apply runs_as_bind; [auto with traffic|]. intros; apply as_ret.
Qed.

Lemma enqueue_job_runs hex req : world_runs_as None (enqueue_job_co api hex req).
Proof.
  unfold enqueue_job_co. destruct (api_enqueuer api) as [e|] eqn:He; [|apply as_ret].
  destruct (proj2 fits e He) as [Hp Hd].
  apply runs_as_bind; [apply clock_runs|]. intros now. apply runs_as_bind; [|intros; apply as_ret].
  apply runs_as_try; [by apply enqueue_runs|]. intros exc k. destruct exc; intros [= <-]; apply as_ret.
Qed.

Lemma replay_runs name jid : world_runs_as None (replay_dlq_job_co api name jid).
Proof.
  unfold replay_dlq_job_co. destruct (api_transport api) as [p|] eqn:Hp; [|apply as_ret].
  destruct (api_enqueuer api) as [e|] eqn:He; [|apply as_ret].
  pose proof (proj1 fits p Hp) as ->. destruct (proj2 fits e He) as [He1 Hd].
  apply runs_as_bind; [auto with traffic|]. intros [entry|]; [|apply as_ret].
  apply runs_as_bind; [apply clock_runs|]. intros now. apply runs_as_bind; [apply pure_runs|].
  intros job. apply runs_as_bind; [by apply enqueue_runs|]. intros id.
  apply runs_as_bind; [apply delete_dlq_runs|]. intros; apply as_ret.
Qed.

Lemma endpoint_runs rd req e params : world_runs_as None (call_endpoint_co api rd req e params).
Proof.
  destruct e, params as [|a [|b [|c l]]]; cbn [call_endpoint_co]; try apply as_ret.
  - destruct (fw_request _ _) as [fields|]; [|apply as_ret].
    destruct (validate_request fields); [|apply as_ret].
    apply runs_as_bind; [apply enqueue_job_runs|intros; apply as_ret].
  - apply runs_as_bind; [|intros; apply as_ret]. apply runs_as_sync. intros w. apply same_view_steady.
    unfold keep_world. pose proof (job_status_same a w) as H.
    unfold same_redis in H. by rewrite H.
  - apply runs_as_bind; [apply list_queues_runs|]. intros [j|]; [|apply as_ret].
    apply runs_as_bind; [apply pure_runs|intros; apply as_ret].
  - destruct (fw_limit _); [|apply as_ret].
    apply runs_as_bind; [apply list_dlq_runs|intros; apply as_ret].
  - apply runs_as_bind; [apply replay_runs|intros; apply as_ret].
Qed.

Lemma app_runs rd req : world_runs_as None (app_co api rd req).
Proof.
  apply runs_as_try.
  - unfold router_co. destruct (dispatch _ _); try apply as_ret. apply endpoint_runs.
  - intros e k. destruct e; intros [= <-]; apply as_ret.
Qed.

(** ** The middlewares *)

#[local] Abbreviation process_runs_as :=
  (runs_as (E := E) P D N (sv_world (X := X)) set_world).

(** Code that leaves the world alone. *)
Lemma aside_runs {A} (m : M (server_state E) A) :
  (∀ s, sv_world (m s).2 = sv_world s) → process_runs_as None (co_sync m).
Proof. intros H. apply runs_as_sync. intros s. by rewrite H. Qed.

Lemma scripts_run {A} (m : M ss A) : process_runs_as None (co_await (on_scripts m)).
Proof.
  apply runs_as_await. intros s. unfold on_scripts, zoom. by destruct (m (sv_scripts s)) as [r x].
Qed.

Lemma inner_runs rd req :
  process_runs_as None (structured_logging_middleware_co rd req
    (request_id_middleware_co rd req (on_process (app_co api rd req)))).
Proof.
  unfold structured_logging_middleware_co, request_id_middleware_co.
  apply runs_as_bind; [|intros resp; apply runs_as_bind; [by apply aside_runs|intros; apply as_ret]].
  apply runs_as_bind; [by apply aside_runs|]. intros _.
  apply lift_runs; [by intros ? []|apply app_runs|]. intros [resp|e]; apply as_ret.
Qed.

Lemma allow_runs rd l : process_runs_as None (allow_co (E := E) LUA_SCRIPT rd l).
Proof.
  unfold allow_co. apply runs_as_bind.
  - destruct (_script_hash l); [apply as_ret|]. apply runs_as_bind; [apply scripts_run|]. intros sha.
    apply runs_as_bind; [by apply aside_runs|intros; apply as_ret].
  - intros sha. apply runs_as_bind; [apply scripts_run|intros; apply as_ret].
Qed.

Lemma serve_runs rd req : process_runs_as None (serve_co api LUA_SCRIPT rd req).
Proof.
  unfold serve_co. apply runs_as_bind.
  { apply runs_as_sync. intros s. by apply same_view_steady. }
  intros _. apply runs_as_except; [|intros; apply as_ret].
  unfold rate_limit_middleware_co. apply runs_as_bind.
  { apply aside_runs. intros s. cbn. unfold create_limiter.
    destruct (sv_limiter s); [done|]. by destruct (api_redis_client api). }
  intros s. destruct (sv_limiter s) as [l|]; [|apply inner_runs].
  apply runs_as_bind; [apply allow_runs|]. intros []; [apply inner_runs|apply as_ret].
Qed.
End Body.

(** ** The simulation *)

#[local] Abbreviation process_runs_as :=
  (runs_as (E := E) P D N (sv_world (X := X)) set_world).
#[local] Abbreviation sys_step := (System.sys_step (E := E) P D N).

(** The producer a request is at the moment, if any. *)
Definition tracks (q : request E) (o : option (producer E)) : Prop :=
  process_runs_as (pr_code <$> o) (rq_code q) ∧
  (rq_gone q = false → ∀ pr, o = Some pr → pr_gone pr = false).

Definition simulates (t : traffic E) (y : sys E) : Prop :=
  sy_world y = tf_world t ∧ sy_workers y = tf_workers t ∧
  (length (tf_producers t) + length (all_requests (tf_instances t)) ≤ N)%nat ∧
  ∃ os, Forall2 tracks (all_requests (tf_instances t)) os ∧
        sy_producers y ≡ₚ tf_producers t ++ omap id os.

Lemma all_requests_app l1 a l2 :
  all_requests (E := E) (l1 ++ a :: l2) = all_requests l1 ++ ap_requests a ++ all_requests l2.
Proof. unfold all_requests. by rewrite fmap_app, concat_app. Qed.

(** A request among all of them. *)
Lemma all_requests_at l1 a l2 r1 q r2 :
  ap_requests a = r1 ++ q :: r2 →
  all_requests (E := E) (l1 ++ a :: l2) = (all_requests l1 ++ r1) ++ q :: (r2 ++ all_requests l2).
Proof. intros Ha. by rewrite all_requests_app, Ha, <- !(assoc_L (++)). Qed.

Lemma fits_tracks_leave q o : tracks q o → tracks (leave q) o.
Proof. intros [H _]. by split. Qed.

(** One step of a request is a run of the system. *)
Lemma request_sim s q o s' q' ws ps :
  tracks q o → request_step (s, q) (s', q') → (length ps < N)%nat →
  ∃ o', rtc sys_step (mkSys (sv_world s) ws (ps ++ fresh_producers o))
                     (mkSys (sv_world s') ws (ps ++ fresh_producers o')) ∧ tracks q' o'.
Proof.
  assert (∀ w (s : server_state E), sv_world (set_world w s) = w) as Hpw by (by intros ? []).
  assert (∀ s : server_state E, set_world (sv_world s) s = s) as Huw by (by intros []).
  assert (∀ i code gone w, free_run P D N sv_world set_world w (sv_world s') code → (length ps < N)%nat →
    ∃ o', rtc sys_step (mkSys w ws ps) (mkSys (sv_world s') ws (ps ++ fresh_producers o')) ∧
          tracks (mkRq i code gone) o') as Hfree.
  { intros i code gone w Hf HN. destruct (Hf ws ps HN) as (o' & Hr & Hc & Hg). exists o'. by split. }
  intros [Ht Hg] Hstep HN. inversion Hstep; subst; cbn [rq_code rq_gone] in *.
  - match goal with H : settle _ _ = _ |- _ => pose proof (settle_runs P D N _ _ Hpw _ _ Ht _ _ _ H) as Hs end.
    destruct o as [pr|]; cbn [fmap option_fmap option_map fresh_producers from_option] in *;
      [|rewrite app_nil_r; by apply Hfree].
    destruct (settle (pr_code pr) (sv_world s)) as [t' w1] eqn:Hset.
    assert (rtc sys_step (mkSys (sv_world s) ws (ps ++ [pr])) (mkSys w1 ws (ps ++ [with_pr_code pr t']))) as Hturn
      by (eapply rtc_once, (sys_turn P D N ps pr []); [by apply Hg|done]).
    destruct (settle_rest_cases _ _ _ _ Hset) as [[r ->]|(Y & m & k & ->)].
    + destruct (Hfree (sv_request_id s') code false w1 Hs HN) as (o' & Hr & Hc). exists o'. split; [|done].
      etrans; [exact Hturn|]. etrans; [by eapply returned|exact Hr].
    + destruct Hs as [Hw Hc]. rewrite Hw. exists (Some (with_pr_code pr (CoAwait m k))).
      split; [exact Hturn|]. split; [exact Hc|]. intros _ pr' [= <-]. exact (Hg eq_refl pr eq_refl).
  - match goal with H : take_effect _ _ = _ |- _ => pose proof (effect_runs P D N _ _ Hpw Huw _ _ Ht _ _ _ H) as Hs end.
    destruct o as [pr|]; cbn [fmap option_fmap option_map fresh_producers from_option] in *;
      [|rewrite app_nil_r; by apply Hfree].
    destruct Hs as [[[r Hr] Hf]|(Y & m & k & r & Hr & Hm & Hc)].
    + destruct (Hfree (sv_request_id s') code gone _ Hf HN) as (o' & Hrun & Ho). exists o'. split; [|done].
      etrans; [by eapply returned|exact Hrun].
    + exists (Some (with_pr_code pr (woken r k))). split.
      * by eapply rtc_once, (sys_await P D N ps pr []).
      * split; [exact Hc|]. intros Hgone pr' [= <-]. exact (Hg Hgone pr eq_refl).
Qed.

(** A request among the others. *)
Lemma tracks_at (pre : list (request E)) q post os :
  Forall2 tracks (pre ++ q :: post) os →
  ∃ o1 o o2, os = o1 ++ o :: o2 ∧ Forall2 tracks pre o1 ∧ tracks q o ∧ Forall2 tracks post o2.
Proof.
  intros (o1 & os2 & H1 & (o & o2 & Ho & H2 & ->)%Forall2_cons_inv_l & ->)%Forall2_app_inv_l. eauto 10.
Qed.

Lemma producers_at ps (o1 : list (option (producer E))) o o2 :
  ps ++ omap id (o1 ++ o :: o2) ≡ₚ (ps ++ omap id o1 ++ omap id o2) ++ fresh_producers o.
Proof.
  rewrite omap_app. destruct o as [pr|]; simpl; [|by rewrite app_nil_r].
  rewrite <- (Permutation_middle (omap id o1)), <- (Permutation_middle ps).
  by rewrite (Permutation_app_comm _ [pr]).
Qed.

Lemma omap_length (l : list (option (producer E))) : (length (omap id l) ≤ length l)%nat.
Proof. induction l as [|[x|] l IH]; [done| |]; unfold omap in *; simpl; lia. Qed.

(** A step that changes one request and takes a run of the system. *)
Lemma simulates_one w x ws ps l y pre q post l' w' x' q' :
  all_requests l = pre ++ q :: post → all_requests l' = pre ++ q' :: post →
  simulates (mkTraffic w x ws ps l) y →
  (∀ o qs, tracks q o → (length qs < N)%nat →
     ∃ o', rtc sys_step (mkSys w ws (qs ++ fresh_producers o)) (mkSys w' ws (qs ++ fresh_producers o')) ∧
           tracks q' o') →
  ∃ y', rtc sys_step y y' ∧ simulates (mkTraffic w' x' ws ps l') y'.
Proof.
  intros Hl Hl' (Hw & Hws & HN & os & Hos & Hps) Hstep.
  destruct y as [wy wsy psy]. cbn [sy_world sy_workers sy_producers tf_world tf_workers tf_producers
    tf_instances] in *. subst wy wsy. rewrite Hl in Hos, HN.
  destruct (tracks_at _ _ _ _ Hos) as (o1 & o & o2 & -> & H1 & Ho & H2).
  assert (length (ps ++ omap id o1 ++ omap id o2) < N)%nat as Hroom.
  { apply Forall2_length in H1, H2. rewrite !length_app in *. cbn in HN.
    pose proof (omap_length o1). pose proof (omap_length o2). lia. }
  destruct (Hstep o _ Ho Hroom) as (o' & Hrun & Ho').
  rewrite producers_at in Hps. apply Permutation_sym in Hps.
  destruct (sys_steps_perm P D N _ _ _ _ _ Hrun Hps) as (qs & Hqs & Hp). cbn in Hqs, Hp.
  exists (mkSys w' ws qs). split; [exact Hqs|]. split_and!;
    cbn [sy_world sy_workers sy_producers tf_world tf_workers tf_producers tf_instances]; try done.
  { rewrite Hl'. rewrite !length_app in *. simpl in *. lia. }
  exists (o1 ++ o' :: o2). rewrite Hl'. split; [|by rewrite producers_at].
  apply Forall2_app; [done|]. by apply Forall2_cons.
Qed.

Lemma Forall2_leave l os : Forall2 tracks l os → Forall2 tracks (leave <$> l) os.
Proof. induction 1; [constructor|]. cbn. constructor; [by apply fits_tracks_leave|done]. Qed.

(** What is left of a request that is forgotten. *)
Lemma forgotten (o : option (producer E)) w ws ps :
  rtc sys_step (mkSys w ws (ps ++ fresh_producers o)) (mkSys w ws ps).
Proof.
  destruct o as [pr|]; cbn; [|by rewrite app_nil_r].
  eapply rtc_l; [apply (sys_abandon P D N ps pr [])|].
  pose proof (sys_return P D N ps (abandoned pr) [] ws w (Raise CancelledError) (or_intror eq_refl)) as H.
  rewrite app_nil_r in H. by apply rtc_once.
Qed.

(** A step of the system with more enqueues in flight. *)
Lemma sys_step_more w ws ps qs w' ws' ps' :
  sys_step (mkSys w ws ps) (mkSys w' ws' ps') → (length ps' + length qs ≤ N)%nat →
  ∃ ps2, sys_step (mkSys w ws (ps ++ qs)) (mkSys w' ws' ps2) ∧ ps2 ≡ₚ ps' ++ qs.
Proof.
  assert (∀ (l1 : list (producer E)) pr l2, (l1 ++ pr :: l2) ++ qs = l1 ++ pr :: (l2 ++ qs)) as Hassoc
    by (intros; by rewrite <- (assoc_L (++))).
  intros H HN. inversion H; subst; rewrite ?Hassoc.
  - eexists. split; [by apply sys_worker|done].
  - eexists. split; [by apply sys_new|done].
  - eexists. split; [by apply sys_crash|done].
  - eexists. split.
    + apply (sys_call _ _ N e job key validate); try done. rewrite length_app in *. simpl in HN. lia.
    + rewrite <- !(assoc_L (++)). apply Permutation_app; [done|].
      apply (Permutation_app_comm qs [_]).
  - eexists. split; [by eapply sys_turn|done].
  - eexists. split; [by eapply sys_await|done].
  - eexists. split; [by eapply sys_abandon|done].
  - eexists. split; [by eapply sys_return|]. by rewrite <- (assoc_L (++)).
  - eexists. split; [by eapply sys_ensure_group|done].
  - eexists. split; [by eapply sys_late_read|done].
  - eexists. split; [by eapply sys_recover|done].
  - eexists. split; [by eapply sys_delete_dlq|done].
  - eexists. split; [by eapply sys_elsewhere|done].
Qed.

(** Each step under traffic is a run of the system. *)
(** A request arrives; it is done, or nobody waits for it; its process dies. *)
Lemma arrives_sim rd req w x ws ps l1 a l2 y :
  api_fits → (length ps + length (all_requests (l1 ++ a :: l2)) < N)%nat →
  simulates (mkTraffic w x ws ps (l1 ++ a :: l2)) y →
  simulates (mkTraffic w x ws ps
    (l1 ++ mkInstance (ap_limiter a) (ap_log a) (ap_count a)
             (ap_requests a ++ [mkRq None (serve_co api LUA_SCRIPT rd req) false]) :: l2)) y.
Proof.
  intros Hfits Hlt (Hw & Hws & HN & os & Hos & Hps). cbn [tf_world tf_workers tf_producers tf_instances] in *.
  assert (∀ r, all_requests (l1 ++ mkInstance (ap_limiter a) (ap_log a) (ap_count a) (ap_requests a ++ [r]) :: l2)
          = (all_requests l1 ++ ap_requests a) ++ r :: all_requests l2) as Hall
    by (intros r; rewrite all_requests_app; cbn [ap_requests]; by rewrite <- !(assoc_L (++))).
  split_and!; try done; cbn [tf_instances tf_producers]; rewrite Hall.
  { rewrite all_requests_app in *. rewrite !length_app in *. simpl. lia. }
  rewrite all_requests_app, (assoc_L (++)) in Hos.
  apply Forall2_app_inv_l in Hos as (o1 & o2 & H1 & H2 & ->). exists (o1 ++ None :: o2). split.
  - apply Forall2_app; [done|]. apply Forall2_cons. split; [|done]. split; [by apply serve_runs|done].
  - cbn. by rewrite omap_app in *.
Qed.

Lemma done_sim w x ws ps l1 a l2 r1 q r2 y :
  ap_requests a = r1 ++ q :: r2 → simulates (mkTraffic w x ws ps (l1 ++ a :: l2)) y →
  ∃ y', rtc sys_step y y' ∧
    simulates (mkTraffic w x ws ps
      (l1 ++ mkInstance (ap_limiter a) (ap_log a) (ap_count a) (r1 ++ r2) :: l2)) y'.
Proof.
  intros Ha (Hw & Hws & HN & os & Hos & Hps). destruct y as [wy wsy psy].
  cbn [tf_world tf_workers tf_producers tf_instances sy_world sy_workers sy_producers] in *. subst wy wsy.
  rewrite (all_requests_at _ _ _ _ _ _ Ha) in HN, Hos. destruct (tracks_at _ _ _ _ Hos) as (o1 & o & o2 & -> & H1 & _ & H2).
  rewrite producers_at in Hps.
  destruct (sys_steps_perm P D N w ws _ _ psy (forgotten o w ws (ps ++ omap id o1 ++ omap id o2)))
    as (qs & Hqs & Hp); [by rewrite Hps|]. cbn in Hqs, Hp.
  eexists. split; [exact Hqs|]. split_and!; cbn [tf_instances tf_producers]; try done;
    rewrite all_requests_app; cbn [ap_requests].
  { rewrite !length_app in *. simpl in HN. rewrite !length_app in HN. lia. }
  exists (o1 ++ o2). rewrite omap_app. split; [|symmetry; exact Hp].
  rewrite <- (assoc_L (++)), (assoc_L (++)). by apply Forall2_app.
Qed.

Lemma crash_sim w x ws ps l1 a l2 y :
  simulates (mkTraffic w x ws ps (l1 ++ a :: l2)) y →
  simulates (mkTraffic w x ws ps (l1 ++ crashed a :: l2)) y.
Proof.
  intros (Hw & Hws & HN & os & Hos & Hps). cbn [tf_instances tf_producers] in *.
  rewrite all_requests_app in HN, Hos.
  split_and!; try done; cbn [tf_instances tf_producers]; rewrite all_requests_app; cbn [crashed ap_requests].
  { rewrite !length_app in *. by rewrite length_fmap. }
  apply Forall2_app_inv_l in Hos as (o1 & os2 & H1 & H2 & ->).
  apply Forall2_app_inv_l in H2 as (o2 & o3 & H2 & H3 & ->). exists (o1 ++ o2 ++ o3).
  split; [|done]. apply Forall2_app; [done|]. apply Forall2_app; [by apply Forall2_leave|done].
Qed.

Lemma traffic_step_sim t t' y :
  api_fits → traffic_step t t' → simulates t y → ∃ y', rtc sys_step y y' ∧ simulates t' y'.
Proof.
  intros Hfits H Hsim. pose proof Hsim as (Hw & Hws & HN & os & Hos & Hps).
  destruct y as [wy wsy psy]. cbn [sy_world sy_workers sy_producers] in *.
  destruct H as [w ws ps w' ws' ps' x l Hs Hle|x x' w ws ps l _ _|w w' x ws ps l Hl|rd req w x ws ps l1 a l2 Hlt
    |w x ws ps l1 a l2 r1 q r2 s' q' Ha Hq|w x ws ps l1 a l2 r1 q r2 Ha|w x ws ps l1 a l2 r1 q r2 Ha Hd
    |w x ws ps l1 a l2]; cbn [tf_world tf_workers tf_producers tf_instances] in *; subst wy wsy.
  - destruct (sys_step_more w ws ps (omap id os) w' ws' ps' Hs) as (ps2 & H2 & Hp2).
    { apply Forall2_length in Hos. pose proof (omap_length os). lia. }
    destruct (sys_step_perm P D N _ _ _ _ _ _ psy H2) as (ps3 & H3 & Hp3); [by rewrite Hps|].
    exists (mkSys w' ws' ps3). split; [by apply rtc_once|]. split_and!; try done.
    exists os. split; [done|]. cbn. by rewrite <- Hp3.
  - eexists. split; [reflexivity|]. split_and!; try done. by exists os.
  - assert (rtc sys_step (mkSys w ws psy) (mkSys w' ws psy)) as Hrun.
    { unfold lifespan_start in Hl. destruct (api_transport api) as [p|] eqn:Hp; [|by injection Hl as <-].
      pose proof (proj1 Hfits p Hp) as ->. by eapply rtc_once, sys_ensure_group. }
    assert (all_requests (l ++ [mkInstance None [] 0 []]) = all_requests l) as Hall
      by (rewrite all_requests_app; cbn; by rewrite app_nil_r).
    eexists. split; [exact Hrun|]. split_and!; try done; cbn [tf_instances tf_producers]; rewrite Hall; [done|].
    by exists os.
  - eexists. split; [reflexivity|]. by eapply arrives_sim.
  - eapply (simulates_one w x ws ps (l1 ++ a :: l2) _ (all_requests l1 ++ r1) q (r2 ++ all_requests l2)).
    + by apply all_requests_at.
    + by apply all_requests_at.
    + exact Hsim.
    + intros o qs Ho Hqs. by eapply (request_sim (joined w x a q)).
  - eapply (simulates_one w x ws ps (l1 ++ a :: l2) _ (all_requests l1 ++ r1) q (r2 ++ all_requests l2)).
    + by apply all_requests_at.
    + by apply all_requests_at.
    + exact Hsim.
    + intros o qs Ho _. exists o. split; [done|]. by apply fits_tracks_leave.
  - by apply (done_sim w x ws ps l1 a l2 r1 q r2).
  - eexists. split; [reflexivity|]. by apply crash_sim.
Qed.

(** ** Runs *)

(** No process of the API yet, nothing on the server. *)
Definition traffic_initial (t : traffic E) : Prop :=
  initial (sys_of t) ∧ tf_instances t = [] ∧
  ∀ key, bucket_at (tf_scripts t) key = empty_bucket ∧ runs_of (tf_scripts t) key = [].

Lemma traffic_run_sim t t' y :
  api_fits → rtc traffic_step t t' → simulates t y → ∃ y', rtc sys_step y y' ∧ simulates t' y'.
Proof.
  intros Hfits H. revert y. induction H as [t|t t1 t' Hstep _ IH]; intros y Hy; [by exists y|].
  destruct (traffic_step_sim _ _ _ Hfits Hstep Hy) as (y1 & Hy1 & Hsim).
  destruct (IH y1 Hsim) as (y2 & Hy2 & Hsim2). exists y2. split; [by etrans|done].
Qed.

Lemma simulates_initial t : traffic_initial t → simulates t (sys_of t).
Proof.
  intros ((_ & _ & Hp) & Hi & _). split_and!; [done|done| |exists []; rewrite Hi; split; [constructor|]].
  - rewrite Hi. cbn in Hp. rewrite Hp. simpl. lia.
  - cbn. by rewrite app_nil_r.
Qed.

(** C6: HTTP traffic is a run of the system.  Whatever requests any number of API
    processes serve at the same time (enqueues, listings, replays), interleaved with
    workers, recovery and other producers, with clients that go away and processes
    that crash: every two states [t], [t'] a run passes through are two states the
    system without HTTP passes through, with the same server, store and workers, when
    it has as many enqueues in flight at most as there are requests. *)
Theorem traffic_refines_system t0 t t' :
  api_fits → traffic_initial t0 → rtc traffic_step t0 t → rtc traffic_step t t' →
  ∃ y y', rtc sys_step (sys_of t0) y ∧ rtc sys_step y y' ∧
    sy_world y = tf_world t ∧ sy_workers y = tf_workers t ∧
    sy_world y' = tf_world t' ∧ sy_workers y' = tf_workers t'.
Proof.
  intros Hfits Hi H1 H2.
  destruct (traffic_run_sim _ _ _ Hfits H1 (simulates_initial _ Hi)) as (y & Hy & Hsim).
  destruct (traffic_run_sim _ _ _ Hfits H2 Hsim) as (y' & Hy' & Hsim').
  exists y, y'. destruct Hsim as (? & ? & _), Hsim' as (? & ? & _). by split_and!.
Qed.

End Traffic.

(** ** A request with nothing in between *)

Section Alone.
Context {R : Redis} {RS : RedisSpec R} {X : Scripting} {F : Framework} {E : Type}.
Variables (P : pystr) (D : Z) (N : nat).
Variable api : Api.
Variable LUA_SCRIPT : pystr.
Context {XS : ScriptingSpec X LUA_SCRIPT}.
#[local] Abbreviation steps := (rtc (traffic_step (E := E) P D N api LUA_SCRIPT)).

(** The traffic with one process that has one request in flight, or none. *)
Definition serving (s : server_state E) ws ps (l : list (request E)) : traffic E :=
  mkTraffic (sv_world s) (sv_scripts s) ws ps [left_by s l].

Lemma serving_step s c s' q' ws ps :
  request_step (s, mkRq (sv_request_id s) c false) (s', q') →
  steps (serving s ws ps [mkRq (sv_request_id s) c false]) (serving s' ws ps [q']).
Proof.
  intros H. apply rtc_once.
  apply (tf_request P D N api LUA_SCRIPT _ _ ws ps [] (left_by s [mkRq (sv_request_id s) c false]) []
           [] (mkRq (sv_request_id s) c false) [] s' q'); [done|].
  by destruct s.
Qed.

Lemma request_runs (c : coroutine (server_state E) Response) s ws ps :
  let '(c', s1) := settle c s in let '(r, s2) := co_run c s in
  ∃ j, steps (serving s1 ws ps [mkRq (sv_request_id s1) c' false])
             (serving s2 ws ps [mkRq j (CoRet r) false]).
Proof.
  revert s. induction c as [r|Y m k IH|Y m k IH]; intros s; cbn [settle co_run].
  - by exists (sv_request_id s).
  - destruct (m s) as [r s1]. apply (IH r).
  - destruct (m s) as [r s1] eqn:Hm. specialize (IH r s1).
    destruct (settle (k r) s1) as [c' s2] eqn:Hs, (co_run (k r) s1) as [r' s3].
    destruct IH as [j IH]. exists j.
    etrans; [apply (serving_step s _ s1 (mkRq (sv_request_id s1) (woken r k) false))|].
    { apply rq_effect. cbn. by rewrite Hm. }
    etrans; [|exact IH]. by apply serving_step, rq_turn.
Qed.

(** One request of one process is [serve]. *)
Lemma request_alone rd req (s : server_state E) ws ps :
  sv_request_id s = None → (length ps < N)%nat →
  steps (serving s ws ps []) (serving (serve api LUA_SCRIPT rd req s).2 ws ps []).
Proof.
  intros Hi HN. pose proof (request_runs (serve_co api LUA_SCRIPT rd req) s ws ps) as H.
  rewrite (serve_alone api LUA_SCRIPT rd req s) in H.
  destruct (settle (serve_co api LUA_SCRIPT rd req) s) as [c s1] eqn:Hs.
  destruct (serve api LUA_SCRIPT rd req s) as [r s2]. destruct H as [j H]. cbn [snd].
  eapply rtc_l; [apply (tf_arrive P D N api LUA_SCRIPT rd req _ _ ws ps [] (left_by s []) []); simpl; lia|].
  cbn [left_by ap_limiter ap_log ap_count ap_requests app]. rewrite <- Hi.
  change (mkInstance (sv_limiter s) (sv_log s) (sv_requests s)) with (left_by s).
  etrans; [apply (serving_step s (serve_co api LUA_SCRIPT rd req) s1 (mkRq (sv_request_id s1) c false))|].
  { by apply rq_turn. }
  eapply rtc_r; [exact H|].
  apply (tf_done P D N api LUA_SCRIPT _ _ ws ps [] (left_by s2 [mkRq j (CoRet r) false]) [] []
           (mkRq j (CoRet r) false) []); [done|]. left. by exists r.
Qed.
End Alone.

(** ** Witness: two requests to one process *)

Definition post_job : Request :=
  mkHttp (u "POST") (u "/jobs") [] [(u "content-type", u "application/json")]
    (default [] (utf8_encode (dumps (JObj [(u "kind", JStr (u "send_email")); (u "queue", JStr mail)])))).

Definition tr0 : traffic (R := model_redis) (X := model_scripting) unit :=
  mkTraffic (world_on fresh_server) no_scripts [] [] [].

(** After [lifespan]'s first half, one request, and another one. *)
Definition ready : server_state (R := model_redis) (X := model_scripting) unit :=
  mkSv (run (lifespan_start started_api) (world_on fresh_server)) no_scripts None None [] 0.
Definition served_one : server_state (R := model_redis) (X := model_scripting) unit :=
  (serve started_api lua noon_reading post_job ready).2.
Definition served_two : server_state (R := model_redis) (X := model_scripting) unit :=
  (serve started_api lua noon_reading post_job (set_request_id None served_one)).2.
#[local] Abbreviation requests_to s := (serving s [] [] []).
#[local] Abbreviation steps := (rtc (traffic_step relayq 10000 2 started_api lua)).

Lemma tr0_initial : traffic_initial lua tr0.
Proof. by split_and!. Qed.

Lemma api_fits_started : api_fits relayq 10000 started_api.
Proof. split; [by intros p [= <-]|by intros e [= <-]]. Qed.

Lemma steps_one : steps tr0 (requests_to served_one).
Proof.
  etrans; [apply rtc_once|apply (request_alone relayq 10000 2 started_api lua noon_reading post_job ready [] []);
    [done|simpl; lia]].
  apply (tf_start (X := model_scripting) relayq 10000 2 started_api lua (world_on fresh_server) (sv_world ready)
           no_scripts [] [] []).
  apply (run_eq (lifespan_start started_api)). vm_compute. reflexivity.
Qed.

Lemma steps_two : steps (requests_to served_one) (requests_to served_two).
Proof.
  change (requests_to served_one) with (requests_to (set_request_id None served_one)).
  apply (request_alone relayq 10000 2 started_api lua noon_reading post_job); [done|simpl; lia].
Qed.

Lemma traffic_refines_system_witness :
  let depth s := length (s_entries (stream_of (m_srv (w_redis (sv_world s))) (_stream_key relayq mail))) in
  depth served_one = 1%nat ∧ depth served_two = 2%nat ∧
  ∃ y y', rtc (sys_step relayq 10000 2) (sys_of tr0) y ∧ rtc (sys_step relayq 10000 2) y y' ∧
    sy_world y = sv_world served_one ∧ sy_world y' = sv_world served_two.
Proof.
  intros depth. split; [vm_compute; reflexivity|]. split; [vm_compute; reflexivity|].
  destruct (traffic_refines_system relayq 10000 2 started_api lua tr0 (requests_to served_one)
    (requests_to served_two) api_fits_started tr0_initial steps_one steps_two)
    as (y & y' & H1 & H2 & H3 & _ & H4 & _).
  exists y, y'. split; [exact H1|]. split; [exact H2|]. split; [exact H3|exact H4].
Defined.
