(* ===== verification/Limits.v ===== *)
(** * The rate limit under traffic

    A request passes the limiter on a ticket: a run of the script that answered with
    a token.  [limited] follows a body and says that it writes at most one log line,
    and only when it has a ticket; so the requests the API has answered are no more
    than the tokens given out, whatever interleaves, over all processes, crashed ones
    included.  The tokens are bounded by what the script's clock readings climb, in
    the order in which the server ran them. *)

From Stdlib Require Import String QArith Qminmax Lqa.
From stdpp Require Import relations.
From S2P Require Import Prelude PyStr Json Errors Coroutine Datetime Job Redis RedisModel Transport SqliteStore World Scenario Delivery Enqueue Recover Runner Effects System RateLimiter Api Url Routes Server Requests Embedding Traffic.
Open Scope list_scope.
Open Scope Q_scope.

Section Limits.
Context {R : Redis} {RS : RedisSpec R} {X : Scripting} {F : Framework} {E : Type}.
Variable api : Api.
Variable LUA_SCRIPT : pystr.
Context {XS : ScriptingSpec X LUA_SCRIPT}.
#[local] Abbreviation process := (server_state E).

Definition api_key : pystr := rl_key api_limiter.

(** Every limiter of the API has the parameters it was created with. *)
Definition limiter_ok (o : option TokenBucketRateLimiter) : Prop :=
  ∀ l, o = Some l → rl_key l = api_key ∧ rate l = 100 ∧ capacity l = 150.

(** The bucket and its history did not change, or by one run of the script. *)
Definition untouched (x x' : ss) : Prop :=
  bucket_at x' api_key = bucket_at x api_key ∧ runs_of x' api_key = runs_of x api_key.
Definition one_run (x : ss) (v : Z) (x' : ss) : Prop :=
  ∃ now, ran bucket_at runs_of api_key now 100 150 1 x v x'.

(** A body with a ticket ([t]) or without; [Q] of the ticket left and the outcome. *)
Fixpoint limited {A} (Q : bool → result exn A → Prop) (t : bool) (c : coroutine process A) : Prop :=
  match c with
  | CoRet r => Q t r
  | CoSync m k => ∀ s r s', limiter_ok (sv_limiter s) → m s = (r, s') →
      limiter_ok (sv_limiter s') ∧ sv_scripts s' = sv_scripts s ∧
      (sv_log s' = sv_log s ∧ limited Q t (k r) ∨
       t = true ∧ length (sv_log s') = S (length (sv_log s)) ∧ limited Q false (k r))
  | CoAwait m k => ∀ s r s', limiter_ok (sv_limiter s) → m s = (r, s') →
      sv_limiter s' = sv_limiter s ∧ sv_log s' = sv_log s ∧
      (untouched (sv_scripts s) (sv_scripts s') ∧ limited Q t (k r) ∨
       ∃ v, one_run (sv_scripts s) v (sv_scripts s') ∧ limited Q (t || negb (v =? 0)%Z) (k r))
  end.

Definition anyhow {A} (_ : bool) (_ : result exn A) : Prop := True.

Lemma limited_then {A B} Q Q' t (c : coroutine process A) (f : result exn A → coroutine process B) :
  limited Q t c → (∀ t' r, Q t' r → limited Q' t' (f r)) → limited Q' t (co_then c f).
Proof.
  intros Hc Hf. revert t Hc. induction c as [r|Y m k IH|Y m k IH]; intros t; cbn [co_then limited].
  - apply Hf.
  - intros H s r s' Hl Hm. destruct (H s r s' Hl Hm) as (H1 & H2 & [[H3 H4]|(H3 & H4 & H5)]);
      (split; [done|]; split; [done|]); [left|right]; eauto.
  - intros H s r s' Hl Hm. destruct (H s r s' Hl Hm) as (H1 & H2 & [[H3 H4]|(v & H3 & H4)]);
      (split; [done|]; split; [done|]); [left|right]; eauto.
Qed.

Lemma limited_bind {A B} Q Q' t (c : coroutine process A) (f : A → coroutine process B) :
  limited Q t c → (∀ t' a, Q t' (Ok a) → limited Q' t' (f a)) →
  (∀ t' e, Q t' (Raise e) → Q' t' (Raise e)) → limited Q' t (c ≫= f).
Proof. intros Hc Hf He. eapply limited_then; [exact Hc|]. intros t' [a|e]; [apply Hf|apply He]. Qed.

(** Code that touches neither the limiter, nor the scripts, nor the log. *)
Lemma limited_aside {A} Q t (m : M process A) :
  (∀ s r s', m s = (r, s') → (limiter_ok (sv_limiter s) → limiter_ok (sv_limiter s')) ∧
     sv_scripts s' = sv_scripts s ∧ sv_log s' = sv_log s ∧ Q t r) → limited Q t (co_sync m).
Proof.
  intros H s r s' Hl Hm. destruct (H s r s' Hm) as (H1 & H2 & H3 & H4).
  split; [by apply H1|]. split; [done|]. by left.
Qed.

(** The endpoints work on the world alone. *)
Lemma limited_world {A B} Q t (c : coroutine (World E) A) (f : result exn A → coroutine process B) :
  (∀ r, limited Q t (f r)) → limited Q t (co_then (on_process c) f).
Proof.
  intros Hf. unfold on_process. induction c as [r|Y m k IH|Y m k IH]; cbn [co_zoom co_then limited].
  - apply Hf.
  - intros s r s' Hl Hm. unfold zoom in Hm. destruct (m (sv_world s)) as [r0 w']. injection Hm as <- <-.
    split; [done|]. split; [done|]. left. split; [done|]. apply IH.
  - intros s r s' Hl Hm. unfold zoom in Hm. destruct (m (sv_world s)) as [r0 w']. injection Hm as <- <-.
    split; [done|]. split; [done|]. left. split; [done|]. apply IH.
Qed.

Lemma on_scripts_run {A} (m : M ss A) (s : process) r s' :
  on_scripts m s = (r, s') →
  ∃ x', m (sv_scripts s) = (r, x') ∧ sv_scripts s' = x' ∧ sv_limiter s' = sv_limiter s ∧ sv_log s' = sv_log s.
Proof.
  unfold on_scripts, zoom. destruct (m (sv_scripts s)) as [r0 x']. intros [= <- <-]. by exists x'.
Qed.

(** EVALSHA of the limiter: one run, or nothing when the script is not there. *)
Lemma evalsha_cases x sha now res x' :
  evalsha sha api_key [now; 100; 150; 1] x = (res, x') →
  untouched x x' ∧ is_ok res = false ∨
  ∃ v, one_run x v x' ∧ (∀ v', res = Ok v' → v' = v).
Proof.
  intros H. destruct (loaded x sha) eqn:Hl.
  - apply evalsha_law in H as [_ H]; [|done]. destruct res as [v|e].
    + right. exists v. split; [by exists now|]. by intros v' [= ->].
    + destruct H as [->|[v H]]; [left; by split|]. right. exists v. split; [by exists now|done].
  - destruct (evalsha_noscript x sha api_key [now; 100; 150; 1] Hl) as [msg Hm].
    rewrite Hm in H. injection H as <- <-. left. by split.
Qed.

(** [allow] answers yes only with a ticket. *)
Lemma allow_limited rd l :
  limiter_ok (Some l) →
  limited (λ t r, match r with Ok true => t = true | _ => True end) false (allow_co (E := E) LUA_SCRIPT rd l).
Proof.
  intros Hl. destruct (Hl l eq_refl) as (Hk & Hr & Hc). unfold allow_co.
  assert (∀ sha, limited (λ t r, match r with Ok true => t = true | _ => True end) false
    (result ← co_await (on_scripts (evalsha sha (rl_key l) [rd_time rd; rate l; capacity l; 1]));
     mret (negb (result =? 0)%Z))) as Heval.
  { intros sha s r s' _ Hm. rewrite Hk, Hr, Hc in Hm.
    apply on_scripts_run in Hm as (x' & Hx & <- & Hlim & Hlog). split; [done|]. split; [done|].
    apply evalsha_cases in Hx as [[Hu Hn]|(v & Hv & Hres)].
    - left. split; [done|]. by destruct r.
    - right. exists v. split; [done|]. destruct r as [v'|e]; [|done].
      rewrite (Hres v' eq_refl). cbn. by destruct (negb (v =? 0)%Z). }
  eapply (limited_bind (λ t _, t = false)); [| |by intros t' e ->].
  - destruct (_script_hash l) as [sha|]; [done|]. intros s r s' _ Hm.
    apply on_scripts_run in Hm as (x' & Hx & <- & Hlim & Hlog). split; [done|]. split; [done|].
    apply script_load_law in Hx as (Hb & Hh & _). left. split; [split; [by rewrite Hb|by rewrite Hh]|].
    destruct r as [sha|e]; [|done]. intros s1 r1 s1' Hl1 [= <- <-]. split; [|split; [done|left; done]].
    intros l' Hl'. cbn in Hl'. destruct (sv_limiter s1) as [l1|]; [|done].
    injection Hl' as <-. exact (Hl1 l1 eq_refl).
  - intros t' sha ->. apply Heval.
Qed.

Lemma inner_limited rd req :
  limited anyhow true (structured_logging_middleware_co rd req
    (request_id_middleware_co rd req (on_process (app_co api rd req)))).
Proof.
  unfold structured_logging_middleware_co, request_id_middleware_co.
  eapply (limited_bind (λ t _, t = true)); [| |done].
  - eapply (limited_bind (λ t _, t = true)); [| |done].
    + apply limited_aside. by intros s r s' [= <- <-].
    + intros t' _ ->. apply limited_world. by intros [resp|e].
  - intros t' resp -> s r s' Hl Hm. injection Hm as <- <-. split; [done|]. split; [done|]. right.
    split; [done|]. split; [|done]. cbn. rewrite length_app. simpl. lia.
Qed.

Lemma serve_limited rd req :
  api_redis_client api = true → limited anyhow false (serve_co api LUA_SCRIPT rd req).
Proof.
  intros Hrc. unfold serve_co. eapply (limited_bind (λ t _, t = false)); [| |done].
  { apply limited_aside. by intros s r s' [= <- <-]. }
  intros t' _ ->. eapply (limited_then anyhow); [|intros t' [resp|e] _; [done|by destruct (is_Exception e)]].
  unfold rate_limit_middleware_co.
  eapply (limited_bind (λ t r, t = false ∧ match r with
      | Ok s => ∃ l, sv_limiter s = Some l ∧ limiter_ok (sv_limiter s) | Raise _ => True end)); [| |done].
  - intros s r s' Hl [= <- <-].
    assert (sv_scripts (create_limiter api s) = sv_scripts s ∧ sv_log (create_limiter api s) = sv_log s ∧
            limiter_ok (sv_limiter (create_limiter api s)) ∧ ∃ l, sv_limiter (create_limiter api s) = Some l)
      as (H1 & H2 & H3 & l & H4).
    { unfold create_limiter. rewrite Hrc. destruct (sv_limiter s) as [l|] eqn:Hs; [rewrite Hs; eauto|].
      split_and!; try done; [|by eexists]. by intros l [= <-]. }
    split; [done|]. split; [done|]. left. split; [done|]. split; [done|]. by exists l.
  - intros t' s [-> (l & Hl & Hok)]. rewrite Hl in *.
    eapply (limited_bind _ anyhow); [by apply allow_limited| |done].
    intros t' [] Ht; cbn [negb]; [|done]. rewrite Ht. apply inner_limited.
Qed.

(** ** The invariant *)

Definition stamps (x : ss) : list Q := (runs_of x api_key).*1.
Definition tokens_given (x : ss) : nat := (run_script empty_bucket (stamps x) 100 150 1).1.

(** The history of the bucket is what the script makes of it. *)
Definition history_ok (x : ss) : Prop :=
  bucket_at x api_key = (run_script empty_bucket (stamps x) 100 150 1).2.

Definition logged (l : list (instance E)) : nat := length (concat (ap_log <$> l)).
Definition tickets (bs : list bool) : nat := length (filter (λ b, b = true) bs).

Definition limits_inv (t : traffic E) : Prop :=
  history_ok (tf_scripts t) ∧ Forall (λ a, limiter_ok (ap_limiter a)) (tf_instances t) ∧
  ∃ bs, Forall2 (λ q b, limited anyhow b (rq_code q)) (all_requests (tf_instances t)) bs ∧
        (logged (tf_instances t) + tickets bs ≤ tokens_given (tf_scripts t))%nat.

Lemma untouched_history x x' :
  untouched x x' → history_ok x → history_ok x' ∧ tokens_given x' = tokens_given x.
Proof. intros [Hb Hr]. unfold history_ok, tokens_given, stamps. by rewrite Hb, Hr. Qed.

Lemma one_run_history x v x' :
  one_run x v x' → history_ok x →
  history_ok x' ∧ tokens_given x' = (tokens_given x + (if (v =? 0)%Z then 0 else 1))%nat.
Proof.
  intros [now (Hv & Hr & _)] Hh. unfold history_ok, tokens_given, stamps in *.
  rewrite Hr, fmap_app, run_script_app. rewrite Hh in Hv.
  destruct (run_script empty_bucket (runs_of x api_key).*1 100 150 1) as [n b]. cbn [fst snd fmap list_fmap run_script] in *.
  rewrite <- Hv. by destruct (v =? 0)%Z.
Qed.

(** *** One step of a request *)

Definition b2n (b : bool) : nat := if b then 1 else 0.

Lemma settle_limited b (c : coroutine process Response) s c' s' :
  limited anyhow b c → limiter_ok (sv_limiter s) → settle c s = (c', s') →
  limiter_ok (sv_limiter s') ∧ sv_scripts s' = sv_scripts s ∧
  ∃ b', limited anyhow b' c' ∧ (length (sv_log s') + b2n b' ≤ length (sv_log s) + b2n b)%nat.
Proof.
  revert b s. induction c as [r|Y m k IH|Y m k IH]; intros b s Hc Hl; cbn [settle].
  - intros [= <- <-]. split; [done|]. split; [done|]. by exists b.
  - destruct (m s) as [r s1] eqn:Hm. intros Hs.
    destruct (Hc s r s1 Hl Hm) as (Hl1 & Hx1 & [[Hlog Hk]|(-> & Hlog & Hk)]);
      destruct (IH r _ _ Hk Hl1 Hs) as (H1 & H2 & b' & H3 & H4);
      (split; [done|]; split; [by rewrite H2|]; exists b'; split; [done|]).
    + by rewrite Hlog in H4.
    + rewrite Hlog in H4. cbn in *. lia.
  - intros [= <- <-]. split; [done|]. split; [done|]. by exists b.
Qed.

Lemma request_step_limited b s q s' q' :
  limited anyhow b (rq_code q) → limiter_ok (sv_limiter s) → history_ok (sv_scripts s) →
  request_step (s, q) (s', q') →
  limiter_ok (sv_limiter s') ∧ history_ok (sv_scripts s') ∧
  ∃ b', limited anyhow b' (rq_code q') ∧
    (length (sv_log s') + b2n b' + tokens_given (sv_scripts s) ≤
     length (sv_log s) + b2n b + tokens_given (sv_scripts s'))%nat.
Proof.
  intros Hc Hl Hh Hstep. inversion Hstep; subst; cbn [rq_code] in *.
  - match goal with H : settle _ _ = _ |- _ => destruct (settle_limited _ _ _ _ _ Hc Hl H) as (H1 & -> & b' & H3 & H4) end.
    split; [done|]. split; [done|]. exists b'. split; [done|]. lia.
  - destruct c as [r|Y m k|Y m k]; try done. cbn [take_effect] in *.
    destruct (m s) as [r s1] eqn:Hm. match goal with H : Some _ = Some _ |- _ => injection H as <- <- end.
    assert (∀ t, limited anyhow t (k r) → limited anyhow t (woken r k)) as Hwoken.
    { intros t Ht s2 r2 s2' Hl2 [= <- <-]. split; [done|]. split; [done|]. by left. }
    destruct (Hc s r s1 Hl Hm) as (Hlim & Hlog & [[Hu Hk]|(v & Hv & Hk)]); rewrite Hlim, Hlog.
    + destruct (untouched_history _ _ Hu Hh) as [H1 ->]. split; [done|]. split; [done|].
      exists b. split; [by apply Hwoken|]. lia.
    + destruct (one_run_history _ _ _ Hv Hh) as [H1 ->]. split; [done|]. split; [done|].
      eexists. split; [by apply Hwoken|]. destruct b, (v =? 0)%Z; cbn; lia.
Qed.

(** *** Every step *)

Lemma logged_app l1 a l2 : logged (l1 ++ a :: l2) = (logged l1 + length (ap_log a) + logged l2)%nat.
Proof. unfold logged. rewrite fmap_app, concat_app, length_app. cbn. rewrite length_app. lia. Qed.

Lemma tickets_app bs bs' : tickets (bs ++ bs') = (tickets bs + tickets bs')%nat.
Proof. unfold tickets. by rewrite filter_app, length_app. Qed.

Lemma tickets_cons b bs : tickets (b :: bs) = (b2n b + tickets bs)%nat.
Proof. unfold tickets. rewrite filter_cons. by destruct b. Qed.

Lemma limited_at (pre : list (request E)) q post bs :
  Forall2 (λ q b, limited anyhow b (rq_code q)) (pre ++ q :: post) bs →
  ∃ b1 b b2, bs = b1 ++ b :: b2 ∧ Forall2 (λ q b, limited anyhow b (rq_code q)) pre b1 ∧
    limited anyhow b (rq_code q) ∧ Forall2 (λ q b, limited anyhow b (rq_code q)) post b2.
Proof.
  intros (b1 & bs2 & H1 & (b & b2 & Hb & H2 & ->)%Forall2_cons_inv_l & ->)%Forall2_app_inv_l. eauto 10.
Qed.

Lemma limited_leave l bs :
  Forall2 (λ q b, limited anyhow b (rq_code q)) l bs →
  Forall2 (λ q b, limited anyhow b (rq_code q)) (leave <$> l) bs.
Proof. induction 1; [constructor|by constructor]. Qed.

(** One process among all of them. *)
Lemma limiters_at l1 (a : instance E) l2 :
  Forall (λ a, limiter_ok (ap_limiter a)) (l1 ++ a :: l2) → limiter_ok (ap_limiter a).
Proof. by intros [_ [? _]%Forall_cons]%Forall_app. Qed.

Lemma limiters_replace l1 (a a' : instance E) l2 :
  (limiter_ok (ap_limiter a) → limiter_ok (ap_limiter a')) →
  Forall (λ a, limiter_ok (ap_limiter a)) (l1 ++ a :: l2) →
  Forall (λ a, limiter_ok (ap_limiter a)) (l1 ++ a' :: l2).
Proof.
  intros Hi [H1 [H2 H3]%Forall_cons]%Forall_app. apply Forall_app. split; [done|].
  apply Forall_cons. split; [by apply Hi|done].
Qed.

Variables (P : pystr) (D : Z) (N : nat).
Hypothesis with_client : api_redis_client api = true.

(** A request arrives. *)
Lemma arrives_limits rd req w x ws ps l1 a l2 :
  limits_inv (mkTraffic w x ws ps (l1 ++ a :: l2)) →
  limits_inv (mkTraffic w x ws ps
    (l1 ++ mkInstance (ap_limiter a) (ap_log a) (ap_count a)
             (ap_requests a ++ [mkRq None (serve_co api LUA_SCRIPT rd req) false]) :: l2)).
Proof.
  intros (Hh & Hlim & bs & Hbs & Hle). cbn [tf_scripts tf_instances] in *.
  split; [done|]. split; [eapply limiters_replace; [|exact Hlim]; done|].
  cbn [tf_scripts tf_instances] in *. rewrite all_requests_app in Hbs |- *. cbn [ap_requests].
  rewrite logged_app in *. cbn [ap_log].
  apply Forall2_app_inv_l in Hbs as (b1 & bs' & H1 & H2 & ->).
  apply Forall2_app_inv_l in H2 as (b2 & b3 & H2 & H3 & ->).
  exists (b1 ++ (b2 ++ [false]) ++ b3). split.
  - apply Forall2_app; [done|]. apply Forall2_app; [|done]. apply Forall2_app; [done|].
    apply Forall2_cons. split; [by apply serve_limited|done].
  - rewrite !tickets_app, tickets_cons in *. change (tickets []) with 0%nat. cbn [b2n]. lia.
Qed.

Lemma traffic_step_limits t t' :
  traffic_step P D N api LUA_SCRIPT t t' → limits_inv t → limits_inv t'.
Proof.
  intros H (Hh & Hlim & bs & Hbs & Hle).
  destruct H as [w ws ps w' ws' ps' x l _ _|x x' w ws ps l Hb Hr|w w' x ws ps l _|rd req w x ws ps l1 a l2 _
    |w x ws ps l1 a l2 r1 q r2 s' q' Ha Hq|w x ws ps l1 a l2 r1 q r2 Ha|w x ws ps l1 a l2 r1 q r2 Ha _
    |w x ws ps l1 a l2]; cbn [tf_scripts tf_instances] in *.
  - split; [done|]. split; [done|]. by exists bs.
  - destruct (untouched_history x x') as [H1 H2]; [by split; rewrite ?Hb, ?Hr|done|].
    split; [done|]. split; [done|]. exists bs. cbn [tf_scripts tf_instances]. by rewrite H2.
  - split; [done|]. split; [apply Forall_app; split; [done|]; by apply Forall_singleton|].
    exists bs. cbn [tf_scripts tf_instances]. rewrite logged_app, all_requests_app. cbn.
    rewrite app_nil_r. split; [done|]. unfold logged in *. cbn. lia.
  - apply arrives_limits. split; [done|]. split; [done|]. by exists bs.
  - pose proof (limiters_at _ _ _ Hlim) as Hla. rewrite (all_requests_at _ _ _ _ _ _ Ha) in Hbs.
    apply limited_at in Hbs as (b1 & b & b2 & -> & H1 & Hb & H2).
    destruct (request_step_limited _ (joined w x a q) _ _ _ Hb Hla Hh Hq) as (Hl' & Hh' & b' & Hb' & Hcount).
    split; [done|]. split; [eapply limiters_replace; [|exact Hlim]; done|].
    exists (b1 ++ b' :: b2). cbn [tf_scripts tf_instances]. erewrite all_requests_at by done.
    split; [apply Forall2_app; [done|]; by apply Forall2_cons|].
    rewrite logged_app, tickets_app, tickets_cons in *. cbn [ap_log left_by joined sv_log sv_scripts] in *. lia.
  - split; [done|]. split; [eapply limiters_replace; [|exact Hlim]; done|].
    exists bs. cbn [tf_scripts tf_instances]. rewrite logged_app in *. cbn [ap_log]. split; [|done].
    rewrite (all_requests_at _ _ _ _ _ _ Ha) in Hbs.
    apply limited_at in Hbs as (b1 & b & b2 & -> & H1 & Hb & H2).
    erewrite all_requests_at by done. apply Forall2_app; [done|]. by apply Forall2_cons.
  - split; [done|]. split; [eapply limiters_replace; [|exact Hlim]; done|].
    cbn [tf_scripts tf_instances]. rewrite logged_app in *. cbn [ap_log].
    rewrite (all_requests_at _ _ _ _ _ _ Ha) in Hbs.
    apply limited_at in Hbs as (b1 & b & b2 & -> & H1 & Hb & H2).
    exists (b1 ++ b2). rewrite all_requests_app. cbn [ap_requests]. split.
    + rewrite <- (assoc_L (++)), (assoc_L (++)). by apply Forall2_app.
    + rewrite !tickets_app, tickets_cons in *. lia.
  - split; [done|]. split; [eapply limiters_replace; [|exact Hlim]; done|].
    exists bs. cbn [tf_scripts tf_instances]. rewrite logged_app in *. cbn [crashed ap_log]. split; [|done].
    rewrite all_requests_app in *. cbn [crashed ap_requests].
    apply Forall2_app_inv_l in Hbs as (b1 & bs' & H1 & H2 & ->).
    apply Forall2_app_inv_l in H2 as (b2 & b3 & H2 & H3 & ->).
    apply Forall2_app; [done|]. apply Forall2_app; [by apply limited_leave|done].
Qed.

(** How far clock readings climb, from the first one on. *)
Definition climb_of (l : list Q) : Q := match l with [] => 0 | t :: l' => climb t l' end.

(** C20: the rate limit under traffic.  Whatever requests overlap, over any number of
    API processes that start and crash and with scripts lost and loaded again, the
    requests the API has answered (its log lines) are at most 150 plus 100 for every
    second that the clock readings of the limiter's script climb, in the order in
    which the server ran it.  (Readings in order climb by the time that passed; every
    reading that overtakes another adds its lead.)  The bucket is one for all processes
    and its numbers are fixed: the limit is neither per instance, as the comment on
    [rate_limiter] says, nor configurable, as ENV.md says. *)
Theorem traffic_rate_limited t0 t :
  traffic_initial LUA_SCRIPT t0 → rtc (traffic_step P D N api LUA_SCRIPT) t0 t →
  inject_Z (Z.of_nat (logged (tf_instances t))) <= 150 + 100 * climb_of (stamps (tf_scripts t)).
Proof.
  intros (_ & Hi & Hk) Hrun.
  assert (limits_inv t) as (Hh & _ & bs & _ & Hle).
  { assert (limits_inv t0) as H0.
    { destruct (Hk api_key) as [Hb Hr]. unfold limits_inv, history_ok, tokens_given, stamps. rewrite Hi, Hb, Hr.
      split; [done|]. split; [constructor|]. exists []. split; [constructor|]. apply Nat.le_refl. }
    clear Hi Hk. induction Hrun as [t|t t1 t2 Hs _ IH]; [done|]. apply IH. by eapply traffic_step_limits. }
  assert (inject_Z (Z.of_nat (logged (tf_instances t))) <= inject_Z (Z.of_nat (tokens_given (tf_scripts t)))) as Hlog.
  { rewrite <- Zle_Qle. lia. }
  unfold tokens_given in Hlog. destruct (stamps (tf_scripts t)) as [|now l]; cbn [climb_of].
  - cbn [run_script fst] in Hlog. change (inject_Z (Z.of_nat 0)) with 0 in Hlog. lra.
  - destruct (run_script empty_bucket (now :: l) 100 150 1) as [n b] eqn:Hs. cbn [fst] in Hlog.
    apply run_script_fresh in Hs; [lra|lra|lra|lra].
Qed.
End Limits.

(** ** Witness: the bound is reached *)

(** Requests at the same second, one after the other. *)
Definition served (n : nat) : server_state (R := model_redis) (X := model_scripting) unit :=
  Nat.iter n (λ s, (serve started_api lua noon_reading status_request (set_request_id None s)).2) ready.

Lemma steps_served n :
  rtc (traffic_step relayq 10000 2 started_api lua) tr0 (serving (served n) [] [] []).
Proof.
  etrans; [apply rtc_once; apply (tf_start (X := model_scripting) relayq 10000 2 started_api lua
    (world_on fresh_server) (sv_world ready) no_scripts [] [] [])|].
  { apply (run_eq (lifespan_start started_api)). vm_compute. reflexivity. }
  induction n as [|n IH]; [reflexivity|]. etrans; [exact IH|].
  change (serving (served n) [] [] []) with (serving (set_request_id None (served n)) [] [] []).
  apply (request_alone relayq 10000 2 started_api lua noon_reading status_request); [done|simpl; lia].
Qed.

(** Of 152 requests within a second 150 are answered. *)
Lemma traffic_rate_limited_witness :
  let t := serving (served 152) [] [] [] in
  logged (tf_instances t) = 150%nat ∧ climb_of (stamps lua (tf_scripts t)) == 0 ∧
  inject_Z (Z.of_nat (logged (tf_instances t))) <= 150 + 100 * climb_of (stamps lua (tf_scripts t)).
Proof.
  intros t. split; [vm_compute; reflexivity|]. split; [vm_compute; reflexivity|].
  exact (traffic_rate_limited started_api lua relayq 10000 2 eq_refl tr0 t tr0_initial (steps_served 152)).
Defined.
