(* ===== verification/EndToEnd.v ===== *)
(** * From the command line to the stream

    The command line of [Cli] against the server of [Server]: an HTTP request is
    parsed as urllib and the ASGI server do, served, and its reply read back; the
    reply is assumed to arrive within the timeout.  The theorem composes the
    components: what [relayq enqueue] reports as done is on the queue. *)

From Stdlib Require Import String QArith.
From S2P Require Import Prelude PyStr Json Errors Datetime Job Redis RedisModel Transport SqliteStore World Scenario Delivery Enqueue RateLimiter Api Url Routes Cli Server.
Open Scope list_scope.
Open Scope Z_scope.

(** The Redis client raises its own exceptions, or is cancelled. *)
Definition client_exn (e : exn) : Prop := e = CancelledError ∨ ∃ c msg, e = RedisExn c msg.

Class ClientErrors (R : Redis) : Prop := {
  xlen_raises k s e s' : xlen k s = (Raise e, s') → client_exn e;
  xadd_raises k body m s e s' : xadd k body m s = (Raise e, s') → client_exn e
}.

Section Network.
Context {R : Redis} {X : Scripting} {F : Framework} {E : Type}.
Variable netloc_ok : pystr → bool.
Variable api : Api.
Variable LUA_SCRIPT : pystr.
(** The readings of the [n]-th request. *)
Variable readings : nat → reading.

(** The request as the application sees it. *)
Definition received (req : http_request) : result exn Request :=
  match urlsplit netloc_ok (rq_url req) with
  | Raise e => Raise e
  | Ok s => Ok (mkHttp (rq_method req)
                  (match default [] (unquote (path s)) with [] => u "/" | p => p end) (query s)
                  (map (fun h => (map lower_ascii h.1, h.2)) (rq_headers req))
                  (default [] (rq_data req)))
  end.

(** [urlopen]'s view of a response: 2xx is an answer, the rest an [HTTPError]. *)
Definition answer (resp : Response) : http_reply :=
  if (200 <=? out_status resp) && (out_status resp <? 300) then HttpOk (out_body resp)
  else HttpErr (out_status resp) (out_body resp).

(** The redirect of a GET is followed, once: where it leads, there is no other. *)
Definition fetch (req : Request) : M (server_state E) Response :=
  s ← get;
  resp ← serve api LUA_SCRIPT (readings (sv_requests s)) req;
  if (out_status resp =? 307) && bool_decide (in_method req = u "GET") then
    s ← get;
    serve api LUA_SCRIPT (readings (sv_requests s))
      (mkHttp (in_method req) (toggle_slash (in_path req)) (in_query req) (in_headers req) (in_body req))
  else mret resp.

Definition network : Http := {|
  hstate := server_state E;
  urlopen req timeout := r ← lift (received req); resp ← fetch r; mret (answer resp)
|}.
End Network.

(** ** The pieces *)

Lemma validate_same r r' : validate_request r = Ok r' → r' = r.
Proof.
  unfold validate_request. destruct (field_constraints r); [|done].
  destruct (validate_identifier (req_kind r)) as [k|] eqn:Hk; [|done]. cbn [mbind result_mbind].
  unfold bound_payload_size. destruct (payload_size _) as [n|]; [|done]. cbn [mbind result_mbind].
  destruct (MAX_PAYLOAD_BYTES <? n); [done|]. cbn [mbind result_mbind].
  destruct (validate_identifier (req_queue r)) as [q|] eqn:Hq; [|done]. intros [= <-].
  apply validate_identifier_ok in Hk as [-> _], Hq as [-> _]. by destruct r.
Qed.

(** The body the command line sends, as the request model reads it. *)
Lemma typed_enqueue_body queue text d :
  payload_of text = JObj d →
  typed_fields (enqueue_body queue text) = Some (mkRequest (u "generic") d queue None 3).
Proof. intros Hp. unfold enqueue_body. by rewrite Hp. Qed.

Section Pieces.
Context {R : Redis} {RS : RedisSpec R} {RE : ClientErrors R} {E : Type}.

(** An enqueue without an outbox: one entry, or an exception of the depth check,
    the rendering or the client. *)
Lemma enqueue_nostore_run e job body (w : World E) r w' :
  enq_store e = None → job_body job = Ok body → enqueue e job None None w = (r, w') →
  match r with
  | Ok id => depth_of e job (view (w_redis w)) < max_queue_depth e ∧
      xadd_eff (job_stream e job) body (maxlen_option (max_queue_depth e + 1000) true)
               (view (w_redis w)) id (view (w_redis w'))
  | Raise exc => (∃ q n m, exc = QueueFull q n m) ∨ client_exn exc
  end.
Proof.
  intros He Hbody H. unfold enqueue in H. erewrite st_bind_ok in H by done.
  apply st_bind_inv in H as [([] & w1 & Hd & H)|(exc & Hd & ->)].
  2:{ pose proof Hd as Hd'. apply check_depth_run in Hd as (_ & _ & [[-> _]|(s' & Hs)]); [eauto|].
      right. by eapply xlen_raises. }
  pose proof Hd as Hd'. apply check_depth_run in Hd as (_ & Hv & Hd). rewrite <- Hv. clear Hd'.
  assert (check_key e None w1 = (Ok tt, w1)) as Hk by done. erewrite st_bind_ok in H by exact Hk.
  assert (write_outbox e (keyed None job) w1 = (Ok tt, w1)) as Ho
    by (unfold write_outbox; by rewrite He).
  cbv zeta in H. erewrite st_bind_ok in H by exact Ho. change (keyed None job) with job in H.
  pose proof H as Hx. apply xadd_run in H as [_ H]. rewrite Hbody in H.
  destruct r as [id|exc].
  - split; [by rewrite Hv|exact H].
  - right. apply on_redis_inv in Hx as (s' & Hx & _). unfold transport_xadd in Hx.
    rewrite Hbody in Hx. unfold lift, mbind, st_mbind in Hx. by eapply xadd_raises.
Qed.

Lemma client_exn_not_http e st d h : client_exn e → e ≠ HTTPException st d h.
Proof. intros [->|(c & m & ->)]; done. Qed.

(** The endpoint without an outbox. *)
Lemma enqueue_job_run api e hex req (w : World E) r w' :
  api_enqueuer api = Some e → enq_store e = None → req_idempotency_key req = None →
  enqueue_job api hex req w = (r, w') →
  let job := job_of_request hex (w_now w) req in
  match r with
  | Ok _ => ∃ id body, job_body job = Ok body ∧
      depth_of e job (view (w_redis w)) < max_queue_depth e ∧
      xadd_eff (job_stream e job) body (maxlen_option (max_queue_depth e + 1000) true)
               (view (w_redis w)) id (view (w_redis w'))
  | Raise exc => ∀ st d h, exc = HTTPException st d h → st = 503
  end.
Proof.
  intros He Hs Hk H job. unfold enqueue_job, at_now in H. rewrite He, Hk in H.
  change (new_job hex (w_now w) (JStr (req_kind req)) (JObj (req_payload req)) (JStr (req_queue req))
            (JInt (req_max_retries req))) with job in H.
  assert (∃ body, job_body job = Ok body) as [body Hb] by (eexists; reflexivity).
  destruct (enqueue e job None None w) as [x w1] eqn:Hq.
  pose proof (enqueue_nostore_run e job body w x w1 Hs Hb Hq) as Hx.
  unfold try_except, mbind, st_mbind in H. rewrite Hq in H. destruct x as [id|exc].
  - injection H as <- <-. exists id, body. by split_and!; destruct Hx.
  - destruct Hx as [(q & n & m & ->)|Hc].
    + injection H as <- <-. intros st d h [=]. done.
    + assert (r = Raise exc) as ->.
      { destruct Hc as [->|(c & msg & ->)]; by injection H as <- <-. }
      intros st d h ->. by apply (client_exn_not_http _ st d h) in Hc.
Qed.

Section Serving.
Context {X : Scripting} {F : Framework}.
Variable LUA_SCRIPT : pystr.

(** A POST to /jobs that is answered with a success. *)
Lemma post_jobs_run api e rd req (w : World E) resp w' :
  api_enqueuer api = Some e → enq_store e = None →
  in_method req = u "POST" → in_path req = u "/jobs" →
  (∀ r, fw_request (in_headers req) (in_body req) = Ok r → req_idempotency_key r = None) →
  app api rd req w = (Ok resp, w') → 200 ≤ out_status resp < 300 →
  ∃ r j, fw_request (in_headers req) (in_body req) = Ok r ∧ validate_request r = Ok r ∧
         enqueue_job api (rd_hex rd) r w = (Ok j, w').
Proof.
  intros He Hs Hm Hp Hk H Hst. unfold app, try_except in H.
  assert (router api rd req w = call_endpoint api rd req EnqueueJob [] w) as Hr
    by (unfold router; by rewrite Hm, Hp).
  rewrite Hr in H. unfold call_endpoint in H.
  destruct (fw_request _ _) as [r|errors].
  2:{ injection H as <- <-. cbn in Hst. lia. }
  destruct (validate_request r) as [r'|exc] eqn:Hv.
  2:{ injection H as <- <-. cbn in Hst. lia. }
  apply validate_same in Hv as Hr'. subst r'. exists r.
  destruct (enqueue_job api (rd_hex rd) r w) as [[j|exc] w1] eqn:Hj.
  - unfold mbind, st_mbind in H. rewrite Hj in H. injection H as _ <-. by exists j.
  - unfold mbind, st_mbind in H. rewrite Hj in H.
    pose proof (enqueue_job_run api e _ _ _ _ _ He Hs (Hk r eq_refl) Hj) as Hx. cbn in Hx.
    destruct exc; try discriminate H. injection H as <- <-. cbn in Hst.
    rewrite (Hx _ _ _ eq_refl) in Hst. lia.
Qed.

(** A served request with a success status was answered by the application. *)
Lemma serve_success api rd req (s : server_state E) resp s' :
  serve api LUA_SCRIPT rd req s = (Ok resp, s') → 200 ≤ out_status resp < 300 →
  ∃ resp0, app api rd req (set_now (rd_now rd) (sv_world s)) = (Ok resp0, sv_world s') ∧
           out_status resp0 = out_status resp.
Proof.
  intros H%serve_cases Hst. cbv zeta in H. destruct (limiter_answer api LUA_SCRIPT rd s) as [[]|e].
  - destruct (app api rd req _) as [[resp0|e] w']; destruct H as [-> [Hr _]].
    + injection Hr as ->. by exists resp0.
    + destruct (is_Exception e); [|done]. injection Hr as ->. cbn in Hst. lia.
  - destruct H as ([= ->] & _). cbn in Hst. lia.
  - destruct H as (Hr & _). destruct (is_Exception e); [|done]. injection Hr as ->. cbn in Hst. lia.
Qed.

End Serving.
End Pieces.

(** ** The command *)

Lemma cmd_enqueue_ok {H : Http} API_URL queue text data rest (c : console) c' :
  encode_body (Some (enqueue_body queue text)) = Ok data →
  cmd_enqueue API_URL (queue :: text :: rest) c = (Ok tt, c') →
  ∃ b, urlopen (mkReq (u "POST") (API_URL ++ u "/jobs") data json_header) REQUEST_TIMEOUT_SECONDS (c_net c)
       = (Ok (HttpOk b), c_net c').
Proof.
  intros He Hm. destruct (request_run API_URL (u "POST") (u "/jobs") _ _ c He) as (rep & n & Hu & Hr).
  unfold cmd_enqueue in Hm. apply st_bind_inv in Hm as [(result & c1 & Hq & Hm)|(e & _ & [=])].
  rewrite Hr in Hq.
  assert (∃ b, rep = Ok (HttpOk b) ∧ c_net c1 = n) as (b & -> & Hn).
  { destruct rep as [[b|code b]|e]; [|destruct (decode_body b)|]; try discriminate Hq.
    exists b. split; [done|]. by injection Hq as _ <-. }
  exists b. rewrite Hu. do 2 f_equal. rewrite <- Hn.
  apply st_bind_inv in Hm as [(jid & c2 & Hj & Hm)|(e & _ & [=])]. injection Hj as _ <-.
  apply st_bind_inv in Hm as [(eid & c3 & Hj & Hm)|(e & _ & [=])]. injection Hj as _ <-.
  by injection Hm as <-.
Qed.

(** ** The whole way *)

Section EndToEnd.
Context {R : Redis} {RS : RedisSpec R} {RE : ClientErrors R} {E : Type}.
Context {X : Scripting} {F : Framework} {FS : FrameworkSpec F}.
Variable netloc_ok : pystr → bool.
Variable api : Api.
Variable LUA_SCRIPT : pystr.
Variable readings : nat → reading.
Abbreviation net := (network (E := E) netloc_ok api LUA_SCRIPT readings).

(** The job the API makes of a command's arguments. *)
Definition command_job (rd : reading) (queue : pystr) (d : list (pystr * json)) : Job :=
  new_job (rd_hex rd) (rd_now rd) (JStr (u "generic")) (JObj d) (JStr queue) (JInt 3).

Lemma command_job_holds rd queue d id body :
  valid_datetime (rd_now rd) = true → wf_str (rd_hex rd) = true → wf_str queue = true →
  wf_json (JObj d) → ascii_floats (JObj d) = true →
  job_body (command_job rd queue d) = Ok body → holds (id, body) (command_job rd queue d).
Proof.
  intros Hn Hh Hq Hd Hf Hb. split; [|split; [|exact Hb]].
  - assert (wf_str (u "job_" ++ take 16 (rd_hex rd)) = true) as Hi.
    { unfold wf_str in *. rewrite forallb_app. apply andb_true_iff. split; [done|].
      rewrite <- (take_drop 16 (rd_hex rd)), forallb_app in Hh. by apply andb_true_iff in Hh as [? _]. }
    unfold job_wf. split_and!; [by constructor|by constructor|exact Hd|constructor|constructor|constructor
                               |by constructor|exact Hn].
  - right. intros d' Hd'. unfold to_dict in Hd'. cbn in Hd'. injection Hd' as <-. cbn.
    cbn in Hf. by rewrite Hf.
Qed.

(** One request over the network that came back as a success. *)
Lemma fetch_success req (s : server_state E) b s' rq :
  received netloc_ok req = Ok rq → in_method rq = u "POST" →
  urlopen (Http := net) req REQUEST_TIMEOUT_SECONDS s = (Ok (HttpOk b), s') →
  ∃ resp, app api (readings (sv_requests s)) rq
              (set_now (rd_now (readings (sv_requests s))) (sv_world s)) = (Ok resp, sv_world s') ∧
          200 ≤ out_status resp < 300.
Proof.
  intros Hr Hm H. cbn in H. apply st_bind_inv in H as [(rq' & s1 & Hl & H)|(e & _ & [=])].
  unfold lift in Hl. rewrite Hr in Hl. injection Hl as <- <-.
  apply st_bind_inv in H as [(resp & s2 & Hf & H)|(e & _ & [=])]. injection H as Ha <-.
  assert (200 ≤ out_status resp < 300) as Hst.
  { unfold answer in Ha. destruct (200 <=? out_status resp) eqn:H1; [|done].
    destruct (out_status resp <? 300) eqn:H2; [|done]. lia. }
  unfold fetch in Hf. apply st_bind_inv in Hf as [(s3 & s4 & Hg & Hf)|(e & [=] & _)].
  injection Hg as <- <-. apply st_bind_inv in Hf as [(resp1 & s5 & Hs & Hf)|(e & _ & [=])].
  rewrite Hm in Hf. rewrite bool_decide_false, andb_false_r in Hf by done. injection Hf as -> <-.
  apply serve_success in Hs as (resp0 & Happ & Heq); [|done]. exists resp0. by rewrite Heq.
Qed.

(** A POST of the command's body that is answered with success was decoded to the
    request the arguments denote. *)
Lemma posted_fields e rd rq queue text t (w : World E) resp w' :
  api_enqueuer api = Some e → enq_store e = None →
  in_method rq = u "POST" → in_path rq = u "/jobs" →
  dict_get (u "content-type") (in_headers rq) = Some (u "application/json") →
  utf8_decode (in_body rq) = Some t → loads t = Some (JObj (enqueue_body queue text)) →
  app api rd rq w = (Ok resp, w') → 200 ≤ out_status resp < 300 →
  ∃ d, payload_of text = JObj d ∧
       fw_request (in_headers rq) (in_body rq) = Ok (mkRequest (u "generic") d queue None 3).
Proof.
  intros He Hs Hpost Hjobs Hct Ht Hload Happ Hst.
  assert ((∃ d, payload_of text = JObj d) ∨ ∀ d, payload_of text ≠ JObj d) as [[d Hd]|Hn]
    by (destruct (payload_of text); [right..|left]; eauto; done).
  - exists d. split; [exact Hd|]. eapply fw_request_typed; [exact Hct|exact Ht|exact Hload|].
    by apply typed_enqueue_body.
  - exfalso. pose proof (fw_request_payload (in_headers rq) (in_body rq) _ _ (payload_of text) Ht Hload
      eq_refl Hn) as Hno.
    assert (∀ r, fw_request (in_headers rq) (in_body rq) = Ok r → req_idempotency_key r = None) as Hk
      by (intros r Hr; by rewrite Hr in Hno).
    destruct (post_jobs_run api e rd rq _ _ _ He Hs Hpost Hjobs Hk Happ Hst) as (r & j & Hr & _).
    by rewrite Hr in Hno.
Qed.

(** C19: what [relayq enqueue] reports as done is on the queue.  When the command
    ends without an error, its argument was a JSON object, the queue was below the
    bound, and the server's only change is one entry more at the end of that queue's
    stream, which holds the job with the given payload, kind [generic] and three
    retries: what a worker that reads the entry gets. *)
Theorem enqueue_end_to_end e API_URL prog queue text rest (c : console (H := net)) c' :
  api_enqueuer api = Some e → enq_store e = None →
  path <$> urlsplit netloc_ok (API_URL ++ u "/jobs") = Ok (u "/jobs") →
  (∀ n, valid_datetime (rd_now (readings n)) = true ∧ wf_str (rd_hex (readings n)) = true) →
  wf_str queue = true → wf_json (payload_of text) → ascii_floats (payload_of text) = true →
  Cli.main (H := net) API_URL (prog :: u "enqueue" :: queue :: text :: rest) c = (Ok tt, c') →
  let v := view (w_redis (sv_world (c_net c))) in
  let v' := view (w_redis (sv_world (c_net c'))) in
  let k := _stream_key (enq_prefix e) queue in
  Z.of_nat (length (s_entries (stream_of v k))) < max_queue_depth e ∧
  (∀ k', k' ≠ k → v' !! k' = v !! k') ∧
  ∃ d id body, payload_of text = JObj d ∧
    s_entries (stream_of v' k) = s_entries (stream_of v k) ++ [(id, body)] ∧
    holds (id, body) (command_job (readings (sv_requests (c_net c))) queue d).
Proof.
  intros He Hs Hurl Hrd Hq Hp Hf Hm.
  destruct (encode_enqueue_body queue text Hq Hp Hf) as (data & Henc & Hdec & Hload).
  change (Cli.main (H := net) API_URL (prog :: u "enqueue" :: queue :: text :: rest) c)
    with (cmd_enqueue (H := net) API_URL (queue :: text :: rest) c) in Hm.
  destruct (cmd_enqueue_ok (H := net) _ _ _ _ _ _ _ Henc Hm) as [b Hu].
  set (s := c_net c) in *. set (rd := readings (sv_requests s)) in *.
  destruct (urlsplit netloc_ok (API_URL ++ u "/jobs")) as [sp|] eqn:Hsp; [|done].
  assert (path sp = u "/jobs") as Hpath by (change (Ok (E:=exn) (path sp) = Ok (u "/jobs")) in Hurl; congruence).
  set (rq := mkHttp (u "POST") (u "/jobs") (query sp) [(u "content-type", u "application/json")] data).
  assert (received netloc_ok (mkReq (u "POST") (API_URL ++ u "/jobs") (Some data) json_header) = Ok rq) as Hrec.
  { unfold received. cbn [rq_url]. rewrite Hsp, Hpath. reflexivity. }
  destruct (fetch_success _ _ _ _ _ Hrec eq_refl Hu) as (resp & Happ & Hst).
  fold rd in Happ. unfold decode_body in Hdec. destruct (utf8_decode data) as [t|] eqn:Ht; [|done].
  assert (t = dumps (JObj (enqueue_body queue text))) as -> by congruence.
  destruct (posted_fields e rd rq queue text _ _ _ _ He Hs eq_refl eq_refl eq_refl Ht Hload Happ Hst)
    as (d & Hd & Hfw).
  assert (∀ r, fw_request (in_headers rq) (in_body rq) = Ok r →
            r = mkRequest (u "generic") d queue None 3) as Hreq by (intros r Hr; congruence).
  assert (∀ r, fw_request (in_headers rq) (in_body rq) = Ok r → req_idempotency_key r = None) as Hk
    by (by intros r ->%Hreq).
  destruct (post_jobs_run api e rd rq _ _ _ He Hs eq_refl eq_refl Hk Happ Hst) as (r & j & ->%Hreq & _ & Hj).
  apply (enqueue_job_run api e) in Hj as (id & body & Hb & Hdep & Hx); [|done..].
  intros v v' k.
  change (job_of_request (rd_hex rd) (w_now (set_now (rd_now rd) (sv_world s)))
            (mkRequest (u "generic") d queue None 3)) with (command_job rd queue d) in *.
  change (job_stream e (command_job rd queue d)) with (_stream_key (enq_prefix e) queue) in Hx.
  unfold depth_of in Hdep. change (job_stream e (command_job rd queue d)) with k in Hdep.
  change (view (w_redis (set_now (rd_now rd) (sv_world s)))) with v in *. fold k v' in Hx.
  split; [exact Hdep|]. split.
  - intros k' Hk'. by destruct (xadd_eff_other _ _ _ _ _ _ k' Hx (not_eq_sym Hk')).
  - exists d, id, body. split; [exact Hd|]. split.
    + apply xadd_eff_append in Hx as (_ & Hes & _); [exact Hes|]. unfold maxlen_option.
      destruct (Z.eqb_spec (max_queue_depth e + 1000) 0) as [H0|_]; [done|]. lia.
    + rewrite Hd in Hp, Hf. destruct (Hrd (sv_requests s)). by apply command_job_holds.
Qed.
End EndToEnd.

(** ** Witness: one command against an empty server *)

#[export] Instance model_client_errors : ClientErrors model_redis.
Proof.
  assert (∀ A (op : M mstate A), (∀ s r s', op s = (r, s') → is_ok r = true) →
    ∀ s e s', faulty op s = (Raise e, s') → client_exn e) as Hfaulty.
  { intros A op Hop s e s'. unfold faulty. destruct (m_faults s) as [|[] f].
    - by intros H%Hop.
    - intros [= <- _]. right. by eexists _, _.
    - by intros H%Hop. }
  split.
  - intros k s e s'. apply Hfaulty. by intros s1 r s2 [= <- _].
  - intros k body m s e s'. apply Hfaulty. by intros s1 r s2 [= <- _].
Qed.

Definition always_noon (_ : nat) : reading := noon_reading.
Definition local_net : Http := network (E := unit) (λ _, true) started_api lua always_noon.
Definition local_url : pystr := u "http://localhost:8000".

Lemma enqueue_end_to_end_witness :
  ∃ c' : console (H := local_net),
    Cli.main (H := local_net) local_url enqueue_argv (mkConsole (H := local_net) fresh_process [] []) = (Ok tt, c') ∧
    c_out c' = [u "Enqueued job job_hex (stream: 1-0)"] ∧
    ∃ d id body, payload_of (dumps ann) = JObj d ∧
      s_entries (stream_of (m_srv (w_redis (sv_world (c_net c')))) (_stream_key relayq mail)) = [(id, body)] ∧
      holds (R := model_redis) (id, body) (command_job noon_reading mail d).
Proof.
  set (c := mkConsole (H := local_net) fresh_process [] []).
  pose proof (run_eq (Cli.main (H := local_net) local_url enqueue_argv) c (Ok tt)) as Hrun.
  specialize (Hrun ltac:(vm_compute; reflexivity)).
  set (c' := run (Cli.main (H := local_net) local_url enqueue_argv) c) in Hrun.
  exists c'. split; [exact Hrun|]. split; [vm_compute; reflexivity|].
  assert (payload_of (dumps ann) = ann) as Hann by (vm_compute; reflexivity).
  destruct (enqueue_end_to_end (λ _, true) started_api lua always_noon (mkEnqueuer relayq 10000 None)
              local_url (u "relayq") mail (dumps ann) [] c c') with (8 := Hrun)
    as (_ & _ & d & id & body & Hd & Hes & Hh); [vm_compute; reflexivity..| | | | |].
  - intros n. split; vm_compute; reflexivity.
  - vm_compute; reflexivity.
  - rewrite Hann. repeat constructor; by apply (bool_decide_unpack _); vm_compute.
  - rewrite Hann. vm_compute; reflexivity.
  - exists d, id, body. split; [exact Hd|]. split; [exact Hes|exact Hh].
Defined.
